(* ===== verification/_CoqProject ===== *)
-Q . S2P
Prelude.v
Mem.v
Config.v
Pptr.v
SizeClass.v
Region.v
RegionRace.v
Meta.v
MetaFacts.v
TCache.v
Heap.v
BaseMeta.v
Inv.v
Ghost.v
Rep.v
Trans.v
SbSpec.v
Treiber.v
CacheSpec.v
FlushSpec.v
AllocSpec.v
InitSpec.v
Refine.v
Api.v
Roots.v
Dirty.v
GC.v
Process.v
Keeps.v
GCMark.v
GCSweep.v
GCSpec.v
Recovery.v
Relocate.v
ProcSpec.v
Lifecycle.v
Trace.v
Sample.v
AnchorRace.v
AnchorSpec.v
Persist.v
Durable.v
Crash.v
DurableInit.v
PropsHeap.v
PropsTypes.v
PropsRecovery.v
PropsProcess.v
PropsPersist.v
OldQueue.v
OldMalloc.v
OldDesc.v
OldLarge.v
OldRun.v
OldInv.v
OldTake.v
OldPartial.v
OldGrow.v
OldFree.v
OldSpec.v
OldReach.v
OldArrayStack.v
OldArrayQueue.v
PropsArrays.v
OldHazard.v
OldLockfreeStack.v
PropsHazard.v
OldMSQueue.v
OldMSQueueSpec.v
OldMSQueueAlone.v
PropsMSQueue.v
PropsOld.v
