(* ===== verification/Prelude.v ===== *)
(** * Ralloc: a verification library

    Ralloc (src/src/) is a persistent lock-free allocator: it keeps its whole heap
    in three files mapped by [RegionManager] (descriptors, superblocks, metadata),
    serves small requests from thread caches that are filled from and flushed to
    64 KiB superblocks, serves large requests from whole superblocks, and rebuilds
    its free lists after a crash by a garbage collection from persistent roots.

    ** Parts and files

    - Prelude.v: outcomes, the state-and-error monad [ST], total-correctness
      triples [wp] (returns and satisfies) and [wpe] (or stops in an assertion,
      under a stated condition), arithmetic. Mem.v: byte memory.
    - Config.v (pm_config.hpp): constants and macros.
    - Pptr.v (pptr.hpp): [pptr], [atomic_pptr] as functions of the cell's
      address and its raw word.
    - SizeClass.v (SizeClass.hpp, SizeClass.cpp): the table, the constructor of
      the lookup array, [compute_idx].
    - Region.v (RegionManager.hpp, .cpp): the first page of a heap file, mapping,
      bump allocation, [Regions]. RegionRace.v: the bump allocator under
      interleaving.
    - Meta.v (BaseMeta.hpp and the pointer types of BaseMeta.cpp): [CrossPtr],
      [AtomicCrossPtrCnt], [Anchor], [Descriptor], [ProcHeap] and the [state] of
      the allocator: superblock memory, descriptors by address, list heads,
      roots, the caches of all threads, the regions, and the log of stores to the
      persistent metadata, write-backs and fences. MetaFacts.v: their arithmetic.
    - TCache.v (TCache.hpp, .cpp), Heap.v and BaseMeta.v (BaseMeta.cpp): every
      operation of the allocator, down from [do_malloc] and [do_free] and the
      constructor, assertions and loops included.
    - Api.v (ralloc.cpp): the interface functions, over the class [Allocator].
      Roots.v: [set_root] and [get_root].
    - Dirty.v: the robust mutex that is to tell a crash from an exit, over the class
      [RobustMutex] of the pthread behaviour used within one process. GC.v: mark and
      sweep.
    - Process.v (ralloc.cpp): what a process does with a heap, [_RP_init] on new and on
      existing files, [RP_recover], the roots, the destructors at [exit], over
      the state of the allocator and the mutex.
    - Treiber.v: the superblock list and the partial lists under interleaving.
      AnchorRace.v: the anchor of a superblock under interleaving.

    ** The proofs

    - Inv.v states the invariant [Inv] of a heap: a [ghost] assigns each
      superblock a kind (free, small of a class with its free list, large, inside
      a large one) and each block an owner; memory, descriptors, list heads and
      caches agree with it. Ghost.v: the changes of the ghost keep it well formed;
      Rep.v, Trans.v: framing. SbSpec.v, CacheSpec.v, FlushSpec.v, AllocSpec.v,
      InitSpec.v: each operation of Heap.v and BaseMeta.v keeps [Inv].
    - Refine.v: [heap_rep L s], the heap [s] in terms of the blocks [L] the
      program holds, and the instance of [Allocator]. Trace.v: the abstract
      machine of programs on such blocks, and the simulation of calls that do not
      overlap.
    - GCMark.v, GCSweep.v, GCSpec.v, Recovery.v: mark computes the reachable
      blocks, sweep rebuilds [Inv] from what a crash leaves.
    - Keeps.v: the class [Preserved] of properties of the state that the stores of
      the allocator preserve, and that every operation then preserves; its instance
      for the fixed part of the table of regions and the other caches; emptying the
      caches keeps the whole table. Relocate.v: a heap mapped elsewhere is the same heap,
      displaced. ProcSpec.v, Lifecycle.v: initialisation, exit, crash and reopening.
    - Persist.v: which values the memory may hold after a crash, given the log of
      stores, write-backs and fences. Durable.v: the metadata that recovery needs is
      durable after every operation and after recovery, as an instance of [Preserved];
      DurableInit.v: after the construction of a heap. Crash.v: runs of operations, a
      crash after them, and that what it leaves can be recovered.
    - AnchorSpec.v: the steps of AnchorRace.v fail no assertion, keep its invariant
      (every block free in the superblock, in a private cache, or with the program,
      exactly once) and a thread alone finishes.
    - Sample.v: a concrete 4 GiB heap for the instances. PropsHeap.v,
      PropsTypes.v, PropsRecovery.v, PropsProcess.v, PropsPersist.v: the properties.

    ** The old allocator

    old/pmmalloc.c is the allocator that preceded Ralloc. OldQueue.v: its lock-free
    queue, with its refinement of a list. OldMalloc.v: every other function, from
    [DescAlloc] to [PM_realloc], on a state [pmstate] with byte memory, descriptors,
    heaps, the queues and the mappings; what [mmap] returns is a list of the state.
    OldDesc.v, OldLarge.v: descriptors and large blocks. OldRun.v: what each function
    does on a state in which its reads are known. OldInv.v: the invariant [PInv],
    which gives every mapping a role (superblock, large block, descriptors, heap) and
    every superblock its free blocks and its place (active, partial, full, empty).
    OldTake.v, OldPartial.v, OldGrow.v: taking a block from the active, a partial, a
    new superblock; OldFree.v: freeing; OldSpec.v: initialisation, [PM_malloc] and
    [PM_free] keep [PInv]. OldReach.v: the states that a program reaches.
    PropsOld.v: the properties. The mappings that the kernel supplies are assumed
    fresh: whole pages that meet no other mapping, as mmap documents, and [mmap] is
    assumed to succeed where the allocator is shown correct. An access outside every
    mapping reads zero in the model instead of faulting; [PInv] shows that blocks in
    use and metadata are inside. The copies of [PM_realloc], which do leave the
    mappings, fault in the model as well. pmmalloc.c is run by one thread between the
    calls of the others.

    OldArrayStack.v, OldArrayQueue.v: old/ArrayStack.hpp and ArrayQueue.hpp, bounded
    containers on arrays of counted cells, under interleaving; PropsArrays.v.

    OldHazard.v: old/HazardPointers.hpp, the table of hazard pointers, the lists of
    retired nodes, the loop of [retire] one load at a time; when such a scan may delete a
    node, and the bookkeeping of who holds which node. OldLockfreeStack.v:
    old/LockfreeStack.hpp, its invariant, progress and destructor; PropsHazard.v.
    OldMSQueue.v: old/MichaelScottQueue.hpp; OldMSQueueSpec.v: its invariant, kept by
    every step; OldMSQueueAlone.v: progress and destructor; PropsMSQueue.v. In both a
    deleted node is no longer there, its address may be returned by the next [new], and
    an access to it fails, and so does an access beyond the 128 rows of the arrays of
    hazard pointers, so that a run without failure is memory safety. Null is 0; an
    allocation never fails. The number of threads is a parameter: the macro of its
    default value is no longer defined. The properties hold for at most 128 threads; the
    constructors check no bound.

    ** Fuel

    Loops take fuel. [enough_fuel] is 2^24 + 3: more than the superblocks of a
    heap (a partial list or the sweep cannot be longer) and than the blocks of a
    cache. The theorems give a result for every fuel from there on, so no loop
    runs forever when its thread is alone between the steps of others. The loops of
    the old allocator end within the number of descriptors plus 6 ([PM_malloc]) and
    within 8 iterations ([PM_free]). A thread of the containers with hazard pointers that
    is left alone ends within a bound on steps that its property states; the destructors
    take that bound, in the number of nodes, as fuel of each removal.

    ** Interleaving

    Heap.v runs each operation without interruption, for any number of threads
    with their own caches: the theorems about whole operations and about runs of
    programs (Trace.v) are about calls that do not overlap. The three lock-free
    protocols that calls may execute concurrently, the counted list
    heads, the anchor of a superblock and the end pointer of a region, are step
    relations of their own (Treiber.v, AnchorRace.v, RegionRace.v), as are the two
    containers on arrays and the two with hazard pointers. Each step is one atomic
    access of one thread. The lists are modelled with pushes of one descriptor, not of
    the chains of [organize_sb_list].

    ** The dirty flag across processes

    The flag is a pthread mutex in the mapped metadata, set robust but not
    PTHREAD_PROCESS_SHARED, so that what [pthread_mutex_trylock] answers on it in the
    next process is undefined. [RobustMutex] is about one process only; the theorems
    about reopening take the answer as a case: success after an exit
    ([reopen_after_exit]), EOWNERDEAD or EINVAL after a crash ([reopen_after_crash]).

    ** The last byte of the superblock file

    Mapping existing files clears it ([remap_clears_last_byte]). Reopening after a crash
    recovers the heap all the same, with this byte 0 if it lies in a block in use; after
    an exit it must not lie in a free block ([last_address_idle]): free blocks hold links.

    ** Persistence

    A store to the metadata may reach the memory at any time; it has reached it once a
    write-back of its cache line is followed by a fence. A crash leaves each descriptor,
    heap, root and end pointer with some value that it has had since ([may_leave]),
    independently of the others; a descriptor and a heap fill one cache line and are
    written at once, the intermediate values of its fields included. Crashes are between
    operations and anywhere inside [set_root], from whose return on the new root is in the
    memory. The program is taken to write its own blocks back. The links, anchors and list heads, which are not written back, may be left as anything.
    The descriptor of a large block is not written back ([large_block_not_durable]), nor
    is [avail_sb] at exit ([writeback_lines]).

    ** Not modelled

    System calls (open, mmap, write) and their failure modes beyond a failed
    mapping; crashes inside the other operations, of which only arbitrary transient data
    are covered; the ordering of weak memory; instruction timing (pfence_util.h); the composition of the
    interleaved protocols with the whole heap; the file mappings around the array
    containers, written for an earlier [RegionManager]; the test drivers, the
    benchmarks and the allocators under ext/; the other containers and reclamation
    schemes under old/ (lockfree_queue.c, hazard_pointer.c, rcu_tracker.c, PageMap.hpp,
    optional.hpp, of which the containers use a value that is there or not). *)

From Stdlib Require Import ZArith Lia.
From stdpp Require Import base gmap numbers strings list.

Local Open Scope Z_scope.

(** ** Outcomes and the state-and-error monad

    A C or C++ function that asserts and loops is a function from the state to
    an [outcome]: it returns ([Ok]), stops in a failed [assert] or another
    unconditional abort ([Fail]), or has not finished within the fuel given to
    one of its loops ([NoFuel]). *)

Inductive outcome (A : Type) : Type :=
| Ok (a : A)
| Fail
| NoFuel.
Arguments Ok {A} a.
Arguments Fail {A}.
Arguments NoFuel {A}.

Definition ST (S A : Type) : Type := S → outcome (A * S).

Definition st_ret {S A} (a : A) : ST S A := λ s, Ok (a, s).

Definition st_bind {S A B} (f : A → ST S B) (m : ST S A) : ST S B :=
  λ s, match m s with
       | Ok (a, s') => f a s'
       | Fail => Fail
       | NoFuel => NoFuel
       end.

#[export] Instance st_mret S : MRet (ST S) := λ A, @st_ret S A.
#[export] Instance st_mbind S : MBind (ST S) := λ A B, @st_bind S A B.

Definition st_get {S} : ST S S := λ s, Ok (s, s).
Definition st_gets {S A} (f : S → A) : ST S A := λ s, Ok (f s, s).
Definition st_mod {S} (f : S → S) : ST S unit := λ s, Ok (tt, f s).
Definition st_fail {S A} : ST S A := λ _, Fail.
Definition st_nofuel {S A} : ST S A := λ _, NoFuel.

(** [assert(b)]: the programs are built without [NDEBUG]. *)
Definition st_assert {S} (b : bool) : ST S unit := λ s, if b then Ok (tt, s) else Fail.

(** A stateless computation that may fail. *)
Definition st_lift {S A} (o : outcome A) : ST S A :=
  λ s, match o with Ok a => Ok (a, s) | Fail => Fail | NoFuel => NoFuel end.

(** ** Total-correctness triples

    [wp m Q s]: started in [s], [m] returns (no failed assertion, no exhausted
    fuel) and result and final state satisfy [Q]. *)

Definition wp {S A} (m : ST S A) (Q : A → S → Prop) (s : S) : Prop :=
  match m s with
  | Ok (a, s') => Q a s'
  | _ => False
  end.

Lemma wp_spec {S A} (m : ST S A) Q s :
  wp m Q s ↔ ∃ a s', m s = Ok (a, s') ∧ Q a s'.
Proof.
  unfold wp. split.
  - destruct (m s) as [[a s']| |]; [|done|done]. eauto.
  - intros (a & s' & -> & HQ). done.
Qed.

Lemma wp_ret {S A} (a : A) (Q : A → S → Prop) s : Q a s → wp (mret a) Q s.
Proof. done. Qed.

Lemma wp_bind {S A B} (m : ST S A) (f : A → ST S B) Q s :
  wp m (λ a s', wp (f a) Q s') s → wp (m ≫= f) Q s.
Proof.
  unfold wp, mbind, st_mbind, st_bind.
  destruct (m s) as [[a s']| |]; auto.
Qed.

Lemma wp_mono {S A} (m : ST S A) (Q Q' : A → S → Prop) s :
  wp m Q s → (∀ a s', Q a s' → Q' a s') → wp m Q' s.
Proof. unfold wp. destruct (m s) as [[a s']| |]; auto. Qed.

Lemma wp_get {S} (Q : S → S → Prop) s : Q s s → wp st_get Q s.
Proof. done. Qed.

Lemma wp_gets {S A} (f : S → A) (Q : A → S → Prop) s : Q (f s) s → wp (st_gets f) Q s.
Proof. done. Qed.

Lemma wp_mod {S} (f : S → S) (Q : unit → S → Prop) s : Q tt (f s) → wp (st_mod f) Q s.
Proof. done. Qed.

Lemma wp_assert {S} (b : bool) (Q : unit → S → Prop) s :
  b = true → Q tt s → wp (st_assert b) Q s.
Proof. intros ->. done. Qed.

Lemma wp_lift {S A} (o : outcome A) a (Q : A → S → Prop) s :
  o = Ok a → Q a s → wp (st_lift o) Q s.
Proof. intros -> HQ. done. Qed.

Lemma wp_if {S A} (b : bool) (m1 m2 : ST S A) Q s :
  (b = true → wp m1 Q s) → (b = false → wp m2 Q s) → wp (if b then m1 else m2) Q s.
Proof. destruct b; auto. Qed.

(** [wpe m Q E s]: as [wp], but [m] may also abort, and then [E] holds. *)
Definition wpe {S A} (m : ST S A) (Q : A → S → Prop) (E : Prop) (s : S) : Prop :=
  match m s with
  | Ok (a, s') => Q a s'
  | Fail => E
  | NoFuel => False
  end.

Lemma wp_wpe {S A} (m : ST S A) (Q : A → S → Prop) E s : wp m Q s → wpe m Q E s.
Proof. unfold wp, wpe. by destruct (m s) as [[a s']| |]. Qed.

Lemma wpe_wp {S A} (m : ST S A) (Q : A → S → Prop) E s : wpe m Q E s → ¬ E → wp m Q s.
Proof. unfold wp, wpe. destruct (m s) as [[a s']| |]; auto. Qed.

Lemma wpe_bind {S A B} (m : ST S A) (f : A → ST S B) Q E s :
  wpe m (λ a s', wpe (f a) Q E s') E s → wpe (m ≫= f) Q E s.
Proof.
  unfold wpe, mbind, st_mbind, st_bind. destruct (m s) as [[a s']| |]; auto.
Qed.

Lemma wpe_mono {S A} (m : ST S A) (Q Q' : A → S → Prop) (E E' : Prop) s :
  wpe m Q E s → (∀ a s', Q a s' → Q' a s') → (E → E') → wpe m Q' E' s.
Proof. unfold wpe. destruct (m s) as [[a s']| |]; auto. Qed.

Lemma wpe_fail {S A} (m : ST S A) (Q : A → S → Prop) (E : Prop) s : m s = Fail → E → wpe m Q E s.
Proof. unfold wpe. by intros ->. Qed.

(** One administrative step of a triple. *)
Ltac wp_step :=
  lazymatch goal with
  | |- wp (mbind _ _) _ _ => apply wp_bind
  | |- wp (mret _) _ _ => apply wp_ret
  | |- wp (st_get) _ _ => apply wp_get
  | |- wp (st_gets _) _ _ => apply wp_gets
  | |- wp (st_mod _) _ _ => apply wp_mod
  | |- wp (st_assert _) _ _ => apply wp_assert
  end; cbn beta.
Ltac wp_steps := repeat wp_step.

(** ** Machine integers *)

Definition wrap (w z : Z) : Z := z mod 2 ^ w.
Definition u64 (z : Z) : Z := z mod 2 ^ 64.
Definition u32 (z : Z) : Z := z mod 2 ^ 32.

Lemma u64_small z : 0 ≤ z < 2 ^ 64 → u64 z = z.
Proof. intros H. unfold u64. by apply Z.mod_small. Qed.
Lemma u32_small z : 0 ≤ z < 2 ^ 32 → u32 z = z.
Proof. intros H. unfold u32. by apply Z.mod_small. Qed.
Lemma u64_range z : 0 ≤ u64 z < 2 ^ 64.
Proof. apply Z.mod_pos_bound. done. Qed.
Lemma u32_range z : 0 ≤ u32 z < 2 ^ 32.
Proof. apply Z.mod_pos_bound. done. Qed.
Lemma u64_idemp z : u64 (u64 z) = u64 z.
Proof. apply u64_small, u64_range. Qed.

Lemma u64_add_l a b : u64 (u64 a + b) = u64 (a + b).
Proof. unfold u64. by rewrite Zplus_mod_idemp_l. Qed.
Lemma u64_sub_l a b : u64 (u64 a - b) = u64 (a - b).
Proof. unfold u64. by rewrite Zminus_mod_idemp_l. Qed.

(** Masks and shifts as arithmetic. *)
Lemma land_mask a k : 0 ≤ k → Z.land a (2 ^ k - 1) = a mod 2 ^ k.
Proof.
  intros Hk. replace (2 ^ k - 1) with (Z.ones k); [by apply Z.land_ones|].
  rewrite Z.ones_equiv. lia.
Qed.

Lemma lor_shift a b k : 0 ≤ k → 0 ≤ b < 2 ^ k → Z.lor (Z.shiftl a k) b = a * 2 ^ k + b.
Proof.
  intros Hk Hb. rewrite <- Z.add_lor_land, <- Z.shiftl_mul_pow2 by done.
  assert (Z.land (Z.shiftl a k) b = 0) as Hland; [|lia].
  apply Z.bits_inj'. intros i Hi. rewrite Z.land_spec, Z.bits_0.
  destruct (Z.lt_ge_cases i k).
  - rewrite Z.shiftl_spec_low by done. done.
  - rewrite <- (Z.mod_small b (2 ^ k)) by done.
    rewrite Z.mod_pow2_bits_high by lia. by rewrite andb_false_r.
Qed.

Lemma lor_shift_r a b k : 0 ≤ k → 0 ≤ b < 2 ^ k → Z.lor b (Z.shiftl a k) = a * 2 ^ k + b.
Proof. intros. rewrite Z.lor_comm. by apply lor_shift. Qed.

(** [x & ~(2^k - 1)] clears the low bits. *)
Lemma land_lnot_mask a k : 0 ≤ k → Z.land a (Z.lnot (2 ^ k - 1)) = a - a mod 2 ^ k.
Proof.
  intros Hk. rewrite <- land_mask by done. generalize (2 ^ k - 1) as m. intros m.
  rewrite Z.sub_nocarry_ldiff; apply Z.bits_inj'; intros i Hi;
    repeat (rewrite Z.ldiff_spec || rewrite Z.land_spec || rewrite Z.bits_0
            || rewrite Z.lnot_spec by lia);
    by destruct (Z.testbit a i), (Z.testbit m i).
Qed.

(** Rounding up to a multiple. *)
Definition align_up (x a : Z) : Z := ((x + a - 1) / a) * a.

Lemma align_up_spec x a :
  0 < a → x ≤ align_up x a < x + a ∧ align_up x a mod a = 0.
Proof.
  intros Ha. unfold align_up. split.
  - pose proof (Z.div_mod (x + a - 1) a ltac:(lia)).
    pose proof (Z.mod_pos_bound (x + a - 1) a Ha). lia.
  - apply Z.mod_mul. lia.
Qed.

Lemma align_up_aligned x a : 0 < a → x mod a = 0 → align_up x a = x.
Proof.
  intros Ha Hx. destruct (align_up_spec x a Ha) as [Hr Hm].
  assert (a | align_up x a - x) as [k Hk].
  { apply Z.divide_sub_r; by apply Z.mod_divide; [lia|]. }
  assert (0 ≤ k < 1); nia.
Qed.

(** Bumping a pointer to the next multiple the way the code does. *)
Lemma align_bump x a :
  0 < a →
  (if x mod a =? 0 then x else x + (a - x mod a)) = align_up x a.
Proof.
  intros Ha. pose proof (Z.mod_pos_bound x a Ha) as Hb.
  destruct (Z.eqb_spec (x mod a) 0) as [E|E].
  - by rewrite align_up_aligned.
  - unfold align_up. pose proof (Z.div_mod x a ltac:(lia)) as Hdm.
    replace ((x + a - 1) / a) with (x / a + 1); [lia|].
    apply (Z.div_unique_pos _ _ _ (x mod a - 1)); lia.
Qed.

(** ** Lists *)

Lemma seqZ_S m n : 0 ≤ n → seqZ m (n + 1) = seqZ m n ++ [m + n].
Proof. intros. rewrite seqZ_app by lia. done. Qed.

Lemma NoDup_app_comm {A} (l1 l2 : list A) : NoDup (l1 ++ l2) ↔ NoDup (l2 ++ l1).
Proof. by rewrite Permutation_app_comm. Qed.

(** ** Automation *)

Create HintDb ralloc.
Create Rewrite HintDb ralloc.
#[export] Hint Resolve u64_range u32_range : ralloc.
#[export] Hint Rewrite u64_idemp u64_add_l u64_sub_l : ralloc.
