(* ===== verification/Mem.v ===== *)
(** * Byte-addressed memory

    The memory of a mapped region is a finite map from addresses to bytes; a
    byte that was never written reads as zero, as in a freshly extended file.
    Wider accesses are little-endian, aligned or not, so that overlapping
    accesses (the conservative scan of the collector, the unaligned block
    header of the old allocator) behave as on the machine. *)

From Stdlib Require Import ZArith Lia.
From stdpp Require Import base gmap numbers list.
From S2P Require Import Prelude.

Local Open Scope Z_scope.

Abbreviation mem := (gmap Z Z).

Definition load8 (m : mem) (a : Z) : Z := default 0 (m !! a) mod 256.
Definition store8 (m : mem) (a v : Z) : mem := <[a := v mod 256]> m.

Fixpoint load_le (n : nat) (m : mem) (a : Z) : Z :=
  match n with
  | O => 0
  | S n' => load8 m a + 256 * load_le n' m (a + 1)
  end.

Fixpoint store_le (n : nat) (m : mem) (a v : Z) : mem :=
  match n with
  | O => m
  | S n' => store8 (store_le n' m (a + 1) (v / 256)) a v
  end.

Definition load64 : mem → Z → Z := load_le 8.
Definition store64 : mem → Z → Z → mem := store_le 8.

(** [memset] and [memcpy] of the C library, byte by byte. *)
Fixpoint memset (m : mem) (a v : Z) (n : nat) : mem :=
  match n with
  | O => m
  | S n' => memset (store8 m a v) (a + 1) v n'
  end.

Fixpoint memcpy (m : mem) (dst src : Z) (n : nat) : mem :=
  match n with
  | O => m
  | S n' => memcpy (store8 m dst (load8 m src)) (dst + 1) (src + 1) n'
  end.

(** ** Single bytes *)

Lemma load8_range m a : 0 ≤ load8 m a < 256.
Proof. apply Z.mod_pos_bound. done. Qed.

Lemma load8_store8_eq m a v : load8 (store8 m a v) a = v mod 256.
Proof. unfold load8, store8. rewrite lookup_insert_eq. apply Z.mod_mod. done. Qed.

Lemma load8_store8_ne m a b v : a ≠ b → load8 (store8 m a v) b = load8 m b.
Proof. intros. unfold load8, store8. by rewrite lookup_insert_ne. Qed.

(** ** Little-endian words *)

Lemma load_le_range n m a : 0 ≤ load_le n m a < 256 ^ Z.of_nat n.
Proof.
  revert a. induction n as [|n IH]; intros a; cbn [load_le]; [done|].
  rewrite Nat2Z.inj_succ, Z.pow_succ_r by lia.
  pose proof (IH (a + 1)). pose proof (load8_range m a). lia.
Qed.

Lemma load64_range m a : 0 ≤ load64 m a < 2 ^ 64.
Proof. apply (load_le_range 8). Qed.

Lemma load8_store_le n m a v b :
  b < a ∨ a + Z.of_nat n ≤ b → load8 (store_le n m a v) b = load8 m b.
Proof.
  revert a v. induction n as [|n IH]; intros a v Hb; cbn [store_le]; [done|].
  rewrite load8_store8_ne by lia. apply IH. lia.
Qed.

Lemma load_le_ext n m m' a :
  (∀ b, a ≤ b < a + Z.of_nat n → load8 m b = load8 m' b) → load_le n m a = load_le n m' a.
Proof.
  revert a. induction n as [|n IH]; intros a H; cbn [load_le]; [done|].
  rewrite (H a) by lia. rewrite (IH (a + 1)); [done|]. intros. apply H. lia.
Qed.

Lemma load_le_store_le_eq n m a v :
  load_le n (store_le n m a v) a = v mod 256 ^ Z.of_nat n.
Proof.
  revert a v. induction n as [|n IH]; intros a v; cbn [store_le load_le].
  - by rewrite Z.mod_1_r.
  - rewrite load8_store8_eq.
    rewrite (load_le_ext n _ (store_le n m (a + 1) (v / 256))).
    + rewrite IH, Nat2Z.inj_succ, Z.pow_succ_r by lia.
      rewrite (Z.rem_mul_r v 256 (256 ^ Z.of_nat n)) by lia. done.
    + intros b Hb. apply load8_store8_ne. lia.
Qed.

Lemma load_le_store_le_ne n m a v b :
  b + Z.of_nat n ≤ a ∨ a + Z.of_nat n ≤ b →
  load_le n (store_le n m a v) b = load_le n m b.
Proof. intros H. apply load_le_ext. intros c Hc. apply load8_store_le. lia. Qed.

Lemma load64_store64_eq m a v : load64 (store64 m a v) a = u64 v.
Proof. unfold load64, store64. rewrite load_le_store_le_eq. done. Qed.

Lemma load64_store64_ne m a v b :
  b + 8 ≤ a ∨ a + 8 ≤ b → load64 (store64 m a v) b = load64 m b.
Proof. intros. by apply load_le_store_le_ne. Qed.

Lemma load8_store64_ne m a v b :
  b < a ∨ a + 8 ≤ b → load8 (store64 m a v) b = load8 m b.
Proof. intros. by apply load8_store_le. Qed.

Lemma load64_ext m m' a :
  (∀ b, a ≤ b < a + 8 → load8 m b = load8 m' b) → load64 m a = load64 m' a.
Proof. intros. by apply load_le_ext. Qed.

(** ** Block operations *)

Lemma load8_memset m a v n b :
  load8 (memset m a v n) b =
    if decide (a ≤ b < a + Z.of_nat n) then v mod 256 else load8 m b.
Proof.
  revert m a. induction n as [|n IH]; intros m a; cbn [memset].
  - rewrite decide_False by lia. done.
  - rewrite IH. case_decide; [rewrite decide_True by lia; done|].
    destruct (decide (a = b)) as [->|].
    + rewrite decide_True by lia. apply load8_store8_eq.
    + rewrite decide_False by lia. by apply load8_store8_ne.
Qed.

(** A copy between ranges that do not overlap. *)
Lemma load8_memcpy m dst src n b :
  src + Z.of_nat n ≤ dst ∨ dst + Z.of_nat n ≤ src →
  load8 (memcpy m dst src n) b =
    if decide (dst ≤ b < dst + Z.of_nat n) then load8 m (src + (b - dst)) else load8 m b.
Proof.
  revert m dst src. induction n as [|n IH]; intros m dst src Hd; cbn [memcpy].
  - rewrite decide_False by lia. done.
  - rewrite IH by lia. case_decide.
    + rewrite decide_True by lia. rewrite load8_store8_ne by lia. f_equal. lia.
    + destruct (decide (dst = b)) as [->|].
      * rewrite decide_True by lia. rewrite load8_store8_eq.
        rewrite Z.sub_diag, Z.add_0_r. apply Z.mod_small, load8_range.
      * rewrite decide_False by lia. by apply load8_store8_ne.
Qed.

#[export] Hint Resolve load8_range load64_range : ralloc.
