(* ===== verification/Config.v ===== *)
(** * Configuration (src/pm_config.hpp)

    The constants and address macros shared by all of Ralloc. *)

From Stdlib Require Import ZArith Lia.
From stdpp Require Import base numbers.
From S2P Require Import Prelude.

Local Open Scope Z_scope.

(** [enum RegionIndex]. *)
Definition DESC_IDX : nat := 0.
Definition SB_IDX : nat := 1.
Definition META_IDX : nat := 2.
Definition LAST_IDX : nat := 3.

(** Customizable values. *)
Definition MAX_DESC_AMOUNT_BITS : Z := 24.
Definition MIN_SB_REGION_SIZE : Z := 1 * 1024 * 1024 * 1024.
Definition SB_REGION_EXPAND_SIZE : Z := MIN_SB_REGION_SIZE.
Definition MAX_ROOTS : Z := 1024.

(** System macros. *)
Definition CACHELINE_SIZE : Z := 64.
Definition CACHELINE_MASK : Z := CACHELINE_SIZE - 1.
Definition PAGESIZE : Z := 4096.
Definition PAGE_MASK : Z := PAGESIZE - 1.

(** Library invariants. *)
Definition MAX_SZ_IDX : Z := 40.
Definition MAX_SZ : Z := Z.shiftl 1 13 + Z.shiftl 1 11 * 3.
Definition SBSIZE : Z := 16 * PAGESIZE.
Definition DESCSIZE : Z := CACHELINE_SIZE.
Definition SB_SHIFT : Z := 16.
Definition DESC_SHIFT : Z := 6.

(** Constants determined by the customizable values. *)
Definition MAX_DESC_AMOUNT : Z := Z.shiftl 1 MAX_DESC_AMOUNT_BITS.
Definition MAX_DESC_OFFSET_BITS : Z := MAX_DESC_AMOUNT_BITS + 6.
Definition MAX_DESC_OFFSET_MASK : Z := Z.shiftl 1 MAX_DESC_OFFSET_BITS - 1.
Definition MAX_SB_AMOUNT : Z := MAX_DESC_AMOUNT.
Definition MAX_SB_REGION_SIZE : Z := SBSIZE * MAX_SB_AMOUNT.
Definition MAX_DESC_REGION_SIZE : Z := DESCSIZE * MAX_DESC_AMOUNT.

(** Off-holder pattern of [pptr]. *)
Definition PPTR_PATTERN_POS : Z := 0x52b0.
Definition PPTR_PATTERN_NEG : Z := 0x52b1.
Definition PPTR_PATTERN_SHIFT : Z := 16.
Definition PPTR_PATTERN_MASK : Z := Z.shiftl 1 PPTR_PATTERN_SHIFT - 2.

(** [ALIGN_VAL(val, align)]: on [uint64_t], [~align + 1] is [- align]. *)
Definition ALIGN_VAL (val align : Z) : Z :=
  Z.land (u64 (val + (align - 1))) (u64 (Z.lnot align + 1)).

(** [PAGE_CEILING(s)]. *)
Definition PAGE_CEILING (s : Z) : Z :=
  Z.land (u64 (s + (PAGESIZE - 1))) (u64 (Z.lnot (PAGESIZE - 1))).

(** A 64-bit mask of the form [~(2^k - 1)] agrees with the unbounded one on
    64-bit values. *)
Lemma land_u64_lnot_mask a k :
  0 ≤ k < 64 → 0 ≤ a < 2 ^ 64 → Z.land a (u64 (Z.lnot (2 ^ k - 1))) = a - a mod 2 ^ k.
Proof.
  intros Hk Ha. rewrite <- land_lnot_mask by lia. unfold u64.
  rewrite <- (Z.mod_small a (2 ^ 64)) at 1 by done.
  rewrite <- !Z.land_ones by lia.
  rewrite <- Z.land_assoc, (Z.land_comm (Z.ones 64)), <- Z.land_assoc, Z.land_diag.
  rewrite Z.land_assoc, Z.land_ones by lia. apply Z.mod_small.
  rewrite land_lnot_mask by lia.
  assert (0 < 2 ^ k) by (apply Z.pow_pos_nonneg; lia).
  pose proof (Z.mod_pos_bound a (2 ^ k)). pose proof (Z.mod_le a (2 ^ k)). lia.
Qed.

Lemma align_up_mask x k :
  0 ≤ k < 64 → 0 ≤ x → x + 2 ^ k - 1 < 2 ^ 64 →
  Z.land (u64 (x + 2 ^ k - 1)) (u64 (Z.lnot (2 ^ k - 1))) = align_up x (2 ^ k).
Proof.
  intros Hk Hx Hb. assert (0 < 2 ^ k) by (apply Z.pow_pos_nonneg; lia).
  rewrite u64_small by lia. rewrite land_u64_lnot_mask by lia.
  unfold align_up. pose proof (Z.div_mod (x + 2 ^ k - 1) (2 ^ k)). lia.
Qed.

Lemma PAGE_CEILING_spec s :
  0 ≤ s → s + PAGESIZE - 1 < 2 ^ 64 → PAGE_CEILING s = align_up s PAGESIZE.
Proof.
  intros. unfold PAGE_CEILING. rewrite Z.add_sub_assoc.
  change PAGESIZE with (2 ^ 12) in *. by apply align_up_mask.
Qed.

Lemma ALIGN_VAL_spec v k :
  0 ≤ k < 64 → 0 ≤ v → v + 2 ^ k - 1 < 2 ^ 64 → ALIGN_VAL v (2 ^ k) = align_up v (2 ^ k).
Proof.
  intros. unfold ALIGN_VAL. rewrite Z.add_sub_assoc.
  replace (Z.lnot (2 ^ k) + 1) with (Z.lnot (2 ^ k - 1)); [by apply align_up_mask|].
  unfold Z.lnot. lia.
Qed.
