(* ===== verification/Pptr.v ===== *)
(** * Position-independent pointers (src/pptr.hpp)

    A [pptr<T>] stores the distance from its own address [p] to its target [v],
    shifted left by 16, with a 16-bit pattern whose lowest bit is the sign.
    [atomic_pptr<T>] is the same representation behind a [std::atomic]. *)

From Stdlib Require Import ZArith Lia.
From stdpp Require Import base gmap numbers.
From S2P Require Import Prelude Mem Config.

Local Open Scope Z_scope.

Definition is_null_pptr (off : Z) : bool := off =? PPTR_PATTERN_POS.

Definition is_valid_pptr (off : Z) : bool :=
  Z.land off PPTR_PATTERN_MASK =? PPTR_PATTERN_POS.

Definition to_pptr_off (v p : Z) : Z :=
  if v =? 0 then PPTR_PATTERN_POS
  else if p <? v then
    Z.lor (u64 (Z.shiftl (u64 (v - p)) PPTR_PATTERN_SHIFT)) PPTR_PATTERN_POS
  else
    Z.lor (u64 (Z.shiftl (u64 (p - v)) PPTR_PATTERN_SHIFT)) PPTR_PATTERN_NEG.

Definition from_pptr_off (off p : Z) : Z :=
  if negb (is_valid_pptr off) || is_null_pptr off then 0
  else if Z.odd off then u64 (p - Z.shiftr off PPTR_PATTERN_SHIFT)
  else u64 (p + Z.shiftr off PPTR_PATTERN_SHIFT).

(** ** [pptr<T>]: constructors and assignment, in terms of the cell's address *)

Definition pptr_ctor (this v : Z) : Z := to_pptr_off v this.
(** [pptr(const pptr<T>&)] and [operator=(const pptr&)]: the copy re-encodes
    the target relative to its own address. *)
Definition pptr_copy (this src src_off : Z) : Z := to_pptr_off (from_pptr_off src_off src) this.
Definition pptr_is_null (off : Z) : bool := off =? PPTR_PATTERN_POS.
Definition pptr_is_valid (off : Z) : bool :=
  Z.land off PPTR_PATTERN_MASK =? PPTR_PATTERN_POS.
(** [operator==] between two pptrs compares the absolute targets. *)
Definition pptr_eqb (off1 p1 off2 p2 : Z) : bool :=
  from_pptr_off off1 p1 =? from_pptr_off off2 p2.
Definition pptr_neqb (off1 p1 off2 p2 : Z) : bool := negb (pptr_eqb off1 p1 off2 p2).

(** ** [atomic_pptr<T>]: the cell is its raw content *)

Definition atomic_pptr_load (this cur : Z) : Z := from_pptr_off cur this.
Definition atomic_pptr_store (this v : Z) : Z := to_pptr_off v this.

(** [compare_exchange_strong(expected, desired)]: result, new content of the
    cell, new value of the caller's [expected]. [compare_exchange_weak] may in
    addition fail spuriously. *)
Definition atomic_pptr_cas (this cur expected desired : Z) : bool * Z * Z :=
  let old_off := to_pptr_off expected this in
  let new_off := to_pptr_off desired this in
  if cur =? old_off then (true, new_off, expected)
  else (false, cur, if is_null_pptr cur then 0 else from_pptr_off cur this).

(** ** A pptr stored in the first eight bytes of a block *)

Definition pload (m : mem) (a : Z) : Z := from_pptr_off (load64 m a) a.
Definition pstore (m : mem) (a v : Z) : mem := store64 m a (to_pptr_off v a).

(** ** Properties *)

(** User-space addresses: the shift by 16 drops the upper 16 bits. *)
Definition addr_ok (a : Z) : Prop := 0 ≤ a < 2 ^ 48.

Lemma pptr_encode_arith (d pat : Z) :
  0 ≤ d < 2 ^ 48 → 0 ≤ pat < 2 ^ 16 →
  Z.lor (u64 (Z.shiftl (u64 d) PPTR_PATTERN_SHIFT)) pat = d * 2 ^ 16 + pat.
Proof.
  intros Hd Hp. rewrite (u64_small d) by lia.
  rewrite u64_small.
  - unfold PPTR_PATTERN_SHIFT. by rewrite lor_shift.
  - unfold PPTR_PATTERN_SHIFT. rewrite Z.shiftl_mul_pow2 by lia. lia.
Qed.

Lemma to_pptr_off_arith v p :
  addr_ok v → addr_ok p →
  to_pptr_off v p =
    if v =? 0 then PPTR_PATTERN_POS
    else if p <? v then (v - p) * 2 ^ 16 + PPTR_PATTERN_POS
    else (p - v) * 2 ^ 16 + PPTR_PATTERN_NEG.
Proof.
  unfold addr_ok, to_pptr_off. intros Hv Hp.
  destruct (Z.eqb_spec v 0); [done|].
  destruct (Z.ltb_spec p v); apply pptr_encode_arith; unfold PPTR_PATTERN_POS, PPTR_PATTERN_NEG; lia.
Qed.

(** The pattern test looks at bits 1..15 only. *)
Lemma is_valid_pptr_arith d pat :
  0 ≤ d → 0 ≤ pat < 2 ^ 16 →
  is_valid_pptr (d * 2 ^ 16 + pat) = (Z.land pat PPTR_PATTERN_MASK =? PPTR_PATTERN_POS).
Proof.
  intros Hd Hp. unfold is_valid_pptr. f_equal.
  apply Z.bits_inj'. intros i Hi. rewrite !Z.land_spec.
  destruct (Z.lt_ge_cases i 16) as [Hlt|Hge].
  - f_equal. rewrite <- (Z.mod_pow2_bits_low (d * 2 ^ 16 + pat) 16 i) by lia.
    rewrite Z.add_comm, Z.mod_add by lia. by rewrite Z.mod_small by lia.
  - assert (Z.testbit PPTR_PATTERN_MASK i = false) as ->.
    { change PPTR_PATTERN_MASK with (65534 mod 2 ^ 16). apply Z.mod_pow2_bits_high. lia. }
    by rewrite !andb_false_r.
Qed.

Lemma from_pptr_off_arith d (neg : bool) p :
  0 ≤ d → (d = 0 → neg = true) →
  from_pptr_off (d * 2 ^ 16 + if neg then PPTR_PATTERN_NEG else PPTR_PATTERN_POS) p =
    u64 (if neg then p - d else p + d).
Proof.
  intros Hd H0. unfold from_pptr_off.
  rewrite is_valid_pptr_arith by (destruct neg; unfold PPTR_PATTERN_NEG, PPTR_PATTERN_POS; lia).
  assert (Z.shiftr (d * 2 ^ 16 + if neg then PPTR_PATTERN_NEG else PPTR_PATTERN_POS)
            PPTR_PATTERN_SHIFT = d) as ->.
  { unfold PPTR_PATTERN_SHIFT. rewrite Z.shiftr_div_pow2 by lia.
    rewrite Z.div_add_l by lia. rewrite Z.div_small; [lia|].
    destruct neg; unfold PPTR_PATTERN_NEG, PPTR_PATTERN_POS; lia. }
  assert (Z.odd (d * 2 ^ 16 + if neg then PPTR_PATTERN_NEG else PPTR_PATTERN_POS) = neg) as ->.
  { rewrite Z.odd_add. change (2 ^ 16) with (2 * 2 ^ 15). rewrite Z.mul_assoc, (Z.mul_comm d).
    rewrite <- Z.mul_assoc, Z.odd_mul. by destruct neg. }
  unfold is_null_pptr.
  destruct (Z.eqb_spec (d * 2 ^ 16 + if neg then PPTR_PATTERN_NEG else PPTR_PATTERN_POS)
              PPTR_PATTERN_POS) as [E|E].
  - exfalso. destruct neg; unfold PPTR_PATTERN_NEG, PPTR_PATTERN_POS in *; [lia|].
    assert (d = 0) by lia. by specialize (H0 H).
  - by destruct neg.
Qed.

Lemma from_null_pptr p : from_pptr_off PPTR_PATTERN_POS p = 0.
Proof. done. Qed.

Lemma to_pptr_null p : to_pptr_off 0 p = PPTR_PATTERN_POS.
Proof. done. Qed.

(** Decoding at a displaced address: the target moves by the same distance. *)
Lemma from_to_pptr_shift v p d :
  addr_ok v → addr_ok p → v ≠ 0 → 0 ≤ v + d < 2 ^ 64 →
  from_pptr_off (to_pptr_off v p) (p + d) = v + d.
Proof.
  intros Hv Hp Hnz Hd. rewrite to_pptr_off_arith by done. unfold addr_ok in *.
  destruct (Z.eqb_spec v 0); [done|].
  destruct (Z.ltb_spec p v).
  - rewrite (from_pptr_off_arith (v - p) false) by lia. rewrite u64_small; lia.
  - rewrite (from_pptr_off_arith (p - v) true) by lia. rewrite u64_small; lia.
Qed.

Lemma from_to_pptr v p : addr_ok v → addr_ok p → from_pptr_off (to_pptr_off v p) p = v.
Proof.
  intros Hv Hp. destruct (decide (v = 0)) as [->|]; [done|].
  rewrite <- (Z.add_0_r p) at 2. rewrite from_to_pptr_shift; [lia|done..|].
  unfold addr_ok in Hv. lia.
Qed.

(** The target of the link [raw] at [a]; [-1] for a word that decodes to null
    without being the null pattern (by wrapping around at 2^64). *)
Definition link_load (a raw : Z) : Z :=
  if (from_pptr_off raw a =? 0) && is_valid_pptr raw && negb (is_null_pptr raw) then -1
  else from_pptr_off raw a.

Lemma link_load_store v p : addr_ok v → addr_ok p → link_load p (to_pptr_off v p) = v.
Proof.
  intros Hv Hp. unfold link_load. rewrite from_to_pptr by done.
  destruct (Z.eqb_spec v 0) as [->|]; [|done]. done.
Qed.

Lemma link_load_val a raw : 0 ≤ link_load a raw → from_pptr_off raw a = link_load a raw.
Proof. unfold link_load. destruct (_ && _); [lia|done]. Qed.

Lemma to_pptr_range v p : addr_ok v → addr_ok p → 0 ≤ to_pptr_off v p < 2 ^ 64.
Proof.
  intros Hv Hp. rewrite to_pptr_off_arith by done. unfold addr_ok in *.
  unfold PPTR_PATTERN_POS, PPTR_PATTERN_NEG.
  destruct (v =? 0); [lia|]. destruct (Z.ltb_spec p v); lia.
Qed.

Lemma to_pptr_inj v v' p :
  addr_ok v → addr_ok v' → addr_ok p → to_pptr_off v p = to_pptr_off v' p → v = v'.
Proof.
  intros Hv Hv' Hp E. rewrite <- (from_to_pptr v p), <- (from_to_pptr v' p) by done. by rewrite E.
Qed.

Lemma from_pptr_off_range off p : 0 ≤ from_pptr_off off p < 2 ^ 64.
Proof.
  unfold from_pptr_off. destruct (negb _ || _); [done|].
  destruct (Z.odd off); apply u64_range.
Qed.

(** ** Block links in memory *)

Lemma pload_pstore_eq m a v : addr_ok a → addr_ok v → pload (pstore m a v) a = v.
Proof.
  intros Ha Hv. unfold pload, pstore. rewrite load64_store64_eq, u64_small.
  - by apply from_to_pptr.
  - by apply to_pptr_range.
Qed.

Lemma pload_pstore_ne m a v b : b + 8 ≤ a ∨ a + 8 ≤ b → pload (pstore m a v) b = pload m b.
Proof. intros. unfold pload, pstore. by rewrite load64_store64_ne. Qed.

Lemma pload_ext m m' a :
  (∀ b, a ≤ b < a + 8 → load8 m b = load8 m' b) → pload m a = pload m' a.
Proof. intros H. unfold pload. by rewrite (load64_ext m m' a). Qed.
