(* ===== verification/SizeClass.v ===== *)
(** * Size classes (src/SizeClass.hpp, src/SizeClass.cpp)

    The jemalloc size-class table, the array of [SizeClassData] built from its
    binned rows, the constructor that fills the size-to-class lookup table, and
    the block-index computation of [BaseMeta::compute_idx], whose switch is
    generated from the same table. *)

From Stdlib Require Import ZArith Lia.
From stdpp Require Import base gmap numbers list.
From S2P Require Import Prelude Config.

Local Open Scope Z_scope.

(** A row [SC(index, lg_grp, lg_delta, ndelta, psz, bin, pgs, lg_delta_lookup)]. *)
Record sc_entry := SC {
  sc_index : Z;
  lg_grp : Z;
  lg_delta : Z;
  ndelta : Z;
  psz : bool;
  bin : bool;
  pgs : Z;
  lg_delta_lookup : option Z
}.

Local Abbreviation yes := true.
Local Abbreviation no := false.
Local Abbreviation lookup k := (Some k).
Local Abbreviation no_lookup := None.

(** Size classes 0 to 39: the classes served from superblocks and the first one
    that is not. *)
Definition SIZE_CLASSES_binned : list sc_entry :=
  [SC 0 3 3 0 no yes 1 (lookup 3); SC 1 3 3 1 no yes 1 (lookup 3);
   SC 2 3 3 2 no yes 3 (lookup 3); SC 3 3 3 3 no yes 1 (lookup 3);
   SC 4 5 3 1 no yes 5 (lookup 3); SC 5 5 3 2 no yes 3 (lookup 3);
   SC 6 5 3 3 no yes 7 (lookup 3); SC 7 5 3 4 no yes 1 (lookup 3);
   SC 8 6 4 1 no yes 5 (lookup 4); SC 9 6 4 2 no yes 3 (lookup 4);
   SC 10 6 4 3 no yes 7 (lookup 4); SC 11 6 4 4 no yes 1 (lookup 4);
   SC 12 7 5 1 no yes 5 (lookup 5); SC 13 7 5 2 no yes 3 (lookup 5);
   SC 14 7 5 3 no yes 7 (lookup 5); SC 15 7 5 4 no yes 1 (lookup 5);
   SC 16 8 6 1 no yes 5 (lookup 6); SC 17 8 6 2 no yes 3 (lookup 6);
   SC 18 8 6 3 no yes 7 (lookup 6); SC 19 8 6 4 no yes 1 (lookup 6);
   SC 20 9 7 1 no yes 5 (lookup 7); SC 21 9 7 2 no yes 3 (lookup 7);
   SC 22 9 7 3 no yes 7 (lookup 7); SC 23 9 7 4 no yes 1 (lookup 7);
   SC 24 10 8 1 no yes 5 (lookup 8); SC 25 10 8 2 no yes 3 (lookup 8);
   SC 26 10 8 3 no yes 7 (lookup 8); SC 27 10 8 4 no yes 1 (lookup 8);
   SC 28 11 9 1 no yes 5 (lookup 9); SC 29 11 9 2 no yes 3 (lookup 9);
   SC 30 11 9 3 no yes 7 (lookup 9); SC 31 11 9 4 yes yes 1 (lookup 9);
   SC 32 12 10 1 no yes 5 no_lookup; SC 33 12 10 2 no yes 3 no_lookup;
   SC 34 12 10 3 no yes 7 no_lookup; SC 35 12 10 4 yes yes 2 no_lookup;
   SC 36 13 11 1 no yes 5 no_lookup; SC 37 13 11 2 yes yes 3 no_lookup;
   SC 38 13 11 3 no yes 7 no_lookup; SC 39 13 11 4 yes no 0 no_lookup].

(** Size classes 40 to 159 of the jemalloc table; none of them is binned. *)
Definition SIZE_CLASSES_large : list sc_entry :=
  [SC 40 14 12 1 yes no 0 no_lookup; SC 41 14 12 2 yes no 0 no_lookup;
   SC 42 14 12 3 yes no 0 no_lookup; SC 43 14 12 4 yes no 0 no_lookup;
   SC 44 15 13 1 yes no 0 no_lookup; SC 45 15 13 2 yes no 0 no_lookup;
   SC 46 15 13 3 yes no 0 no_lookup; SC 47 15 13 4 yes no 0 no_lookup;
   SC 48 16 14 1 yes no 0 no_lookup; SC 49 16 14 2 yes no 0 no_lookup;
   SC 50 16 14 3 yes no 0 no_lookup; SC 51 16 14 4 yes no 0 no_lookup;
   SC 52 17 15 1 yes no 0 no_lookup; SC 53 17 15 2 yes no 0 no_lookup;
   SC 54 17 15 3 yes no 0 no_lookup; SC 55 17 15 4 yes no 0 no_lookup;
   SC 56 18 16 1 yes no 0 no_lookup; SC 57 18 16 2 yes no 0 no_lookup;
   SC 58 18 16 3 yes no 0 no_lookup; SC 59 18 16 4 yes no 0 no_lookup;
   SC 60 19 17 1 yes no 0 no_lookup; SC 61 19 17 2 yes no 0 no_lookup;
   SC 62 19 17 3 yes no 0 no_lookup; SC 63 19 17 4 yes no 0 no_lookup;
   SC 64 20 18 1 yes no 0 no_lookup; SC 65 20 18 2 yes no 0 no_lookup;
   SC 66 20 18 3 yes no 0 no_lookup; SC 67 20 18 4 yes no 0 no_lookup;
   SC 68 21 19 1 yes no 0 no_lookup; SC 69 21 19 2 yes no 0 no_lookup;
   SC 70 21 19 3 yes no 0 no_lookup; SC 71 21 19 4 yes no 0 no_lookup;
   SC 72 22 20 1 yes no 0 no_lookup; SC 73 22 20 2 yes no 0 no_lookup;
   SC 74 22 20 3 yes no 0 no_lookup; SC 75 22 20 4 yes no 0 no_lookup;
   SC 76 23 21 1 yes no 0 no_lookup; SC 77 23 21 2 yes no 0 no_lookup;
   SC 78 23 21 3 yes no 0 no_lookup; SC 79 23 21 4 yes no 0 no_lookup;
   SC 80 24 22 1 yes no 0 no_lookup; SC 81 24 22 2 yes no 0 no_lookup;
   SC 82 24 22 3 yes no 0 no_lookup; SC 83 24 22 4 yes no 0 no_lookup;
   SC 84 25 23 1 yes no 0 no_lookup; SC 85 25 23 2 yes no 0 no_lookup;
   SC 86 25 23 3 yes no 0 no_lookup; SC 87 25 23 4 yes no 0 no_lookup;
   SC 88 26 24 1 yes no 0 no_lookup; SC 89 26 24 2 yes no 0 no_lookup;
   SC 90 26 24 3 yes no 0 no_lookup; SC 91 26 24 4 yes no 0 no_lookup;
   SC 92 27 25 1 yes no 0 no_lookup; SC 93 27 25 2 yes no 0 no_lookup;
   SC 94 27 25 3 yes no 0 no_lookup; SC 95 27 25 4 yes no 0 no_lookup;
   SC 96 28 26 1 yes no 0 no_lookup; SC 97 28 26 2 yes no 0 no_lookup;
   SC 98 28 26 3 yes no 0 no_lookup; SC 99 28 26 4 yes no 0 no_lookup;
   SC 100 29 27 1 yes no 0 no_lookup; SC 101 29 27 2 yes no 0 no_lookup;
   SC 102 29 27 3 yes no 0 no_lookup; SC 103 29 27 4 yes no 0 no_lookup;
   SC 104 30 28 1 yes no 0 no_lookup; SC 105 30 28 2 yes no 0 no_lookup;
   SC 106 30 28 3 yes no 0 no_lookup; SC 107 30 28 4 yes no 0 no_lookup;
   SC 108 31 29 1 yes no 0 no_lookup; SC 109 31 29 2 yes no 0 no_lookup;
   SC 110 31 29 3 yes no 0 no_lookup; SC 111 31 29 4 yes no 0 no_lookup;
   SC 112 32 30 1 yes no 0 no_lookup; SC 113 32 30 2 yes no 0 no_lookup;
   SC 114 32 30 3 yes no 0 no_lookup; SC 115 32 30 4 yes no 0 no_lookup;
   SC 116 33 31 1 yes no 0 no_lookup; SC 117 33 31 2 yes no 0 no_lookup;
   SC 118 33 31 3 yes no 0 no_lookup; SC 119 33 31 4 yes no 0 no_lookup;
   SC 120 34 32 1 yes no 0 no_lookup; SC 121 34 32 2 yes no 0 no_lookup;
   SC 122 34 32 3 yes no 0 no_lookup; SC 123 34 32 4 yes no 0 no_lookup;
   SC 124 35 33 1 yes no 0 no_lookup; SC 125 35 33 2 yes no 0 no_lookup;
   SC 126 35 33 3 yes no 0 no_lookup; SC 127 35 33 4 yes no 0 no_lookup;
   SC 128 36 34 1 yes no 0 no_lookup; SC 129 36 34 2 yes no 0 no_lookup;
   SC 130 36 34 3 yes no 0 no_lookup; SC 131 36 34 4 yes no 0 no_lookup;
   SC 132 37 35 1 yes no 0 no_lookup; SC 133 37 35 2 yes no 0 no_lookup;
   SC 134 37 35 3 yes no 0 no_lookup; SC 135 37 35 4 yes no 0 no_lookup;
   SC 136 38 36 1 yes no 0 no_lookup; SC 137 38 36 2 yes no 0 no_lookup;
   SC 138 38 36 3 yes no 0 no_lookup; SC 139 38 36 4 yes no 0 no_lookup;
   SC 140 39 37 1 yes no 0 no_lookup; SC 141 39 37 2 yes no 0 no_lookup;
   SC 142 39 37 3 yes no 0 no_lookup; SC 143 39 37 4 yes no 0 no_lookup;
   SC 144 40 38 1 yes no 0 no_lookup; SC 145 40 38 2 yes no 0 no_lookup;
   SC 146 40 38 3 yes no 0 no_lookup; SC 147 40 38 4 yes no 0 no_lookup;
   SC 148 41 39 1 yes no 0 no_lookup; SC 149 41 39 2 yes no 0 no_lookup;
   SC 150 41 39 3 yes no 0 no_lookup; SC 151 41 39 4 yes no 0 no_lookup;
   SC 152 42 40 1 yes no 0 no_lookup; SC 153 42 40 2 yes no 0 no_lookup;
   SC 154 42 40 3 yes no 0 no_lookup; SC 155 42 40 4 yes no 0 no_lookup;
   SC 156 43 41 1 yes no 0 no_lookup; SC 157 43 41 2 yes no 0 no_lookup;
   SC 158 43 41 3 yes no 0 no_lookup; SC 159 43 41 4 yes no 0 no_lookup].

(** Size classes 160 to 234. *)
Definition SIZE_CLASSES_huge : list sc_entry :=
  [SC 160 44 42 1 yes no 0 no_lookup; SC 161 44 42 2 yes no 0 no_lookup;
   SC 162 44 42 3 yes no 0 no_lookup; SC 163 44 42 4 yes no 0 no_lookup;
   SC 164 45 43 1 yes no 0 no_lookup; SC 165 45 43 2 yes no 0 no_lookup;
   SC 166 45 43 3 yes no 0 no_lookup; SC 167 45 43 4 yes no 0 no_lookup;
   SC 168 46 44 1 yes no 0 no_lookup; SC 169 46 44 2 yes no 0 no_lookup;
   SC 170 46 44 3 yes no 0 no_lookup; SC 171 46 44 4 yes no 0 no_lookup;
   SC 172 47 45 1 yes no 0 no_lookup; SC 173 47 45 2 yes no 0 no_lookup;
   SC 174 47 45 3 yes no 0 no_lookup; SC 175 47 45 4 yes no 0 no_lookup;
   SC 176 48 46 1 yes no 0 no_lookup; SC 177 48 46 2 yes no 0 no_lookup;
   SC 178 48 46 3 yes no 0 no_lookup; SC 179 48 46 4 yes no 0 no_lookup;
   SC 180 49 47 1 yes no 0 no_lookup; SC 181 49 47 2 yes no 0 no_lookup;
   SC 182 49 47 3 yes no 0 no_lookup; SC 183 49 47 4 yes no 0 no_lookup;
   SC 184 50 48 1 yes no 0 no_lookup; SC 185 50 48 2 yes no 0 no_lookup;
   SC 186 50 48 3 yes no 0 no_lookup; SC 187 50 48 4 yes no 0 no_lookup;
   SC 188 51 49 1 yes no 0 no_lookup; SC 189 51 49 2 yes no 0 no_lookup;
   SC 190 51 49 3 yes no 0 no_lookup; SC 191 51 49 4 yes no 0 no_lookup;
   SC 192 52 50 1 yes no 0 no_lookup; SC 193 52 50 2 yes no 0 no_lookup;
   SC 194 52 50 3 yes no 0 no_lookup; SC 195 52 50 4 yes no 0 no_lookup;
   SC 196 53 51 1 yes no 0 no_lookup; SC 197 53 51 2 yes no 0 no_lookup;
   SC 198 53 51 3 yes no 0 no_lookup; SC 199 53 51 4 yes no 0 no_lookup;
   SC 200 54 52 1 yes no 0 no_lookup; SC 201 54 52 2 yes no 0 no_lookup;
   SC 202 54 52 3 yes no 0 no_lookup; SC 203 54 52 4 yes no 0 no_lookup;
   SC 204 55 53 1 yes no 0 no_lookup; SC 205 55 53 2 yes no 0 no_lookup;
   SC 206 55 53 3 yes no 0 no_lookup; SC 207 55 53 4 yes no 0 no_lookup;
   SC 208 56 54 1 yes no 0 no_lookup; SC 209 56 54 2 yes no 0 no_lookup;
   SC 210 56 54 3 yes no 0 no_lookup; SC 211 56 54 4 yes no 0 no_lookup;
   SC 212 57 55 1 yes no 0 no_lookup; SC 213 57 55 2 yes no 0 no_lookup;
   SC 214 57 55 3 yes no 0 no_lookup; SC 215 57 55 4 yes no 0 no_lookup;
   SC 216 58 56 1 yes no 0 no_lookup; SC 217 58 56 2 yes no 0 no_lookup;
   SC 218 58 56 3 yes no 0 no_lookup; SC 219 58 56 4 yes no 0 no_lookup;
   SC 220 59 57 1 yes no 0 no_lookup; SC 221 59 57 2 yes no 0 no_lookup;
   SC 222 59 57 3 yes no 0 no_lookup; SC 223 59 57 4 yes no 0 no_lookup;
   SC 224 60 58 1 yes no 0 no_lookup; SC 225 60 58 2 yes no 0 no_lookup;
   SC 226 60 58 3 yes no 0 no_lookup; SC 227 60 58 4 yes no 0 no_lookup;
   SC 228 61 59 1 yes no 0 no_lookup; SC 229 61 59 2 yes no 0 no_lookup;
   SC 230 61 59 3 yes no 0 no_lookup; SC 231 61 59 4 yes no 0 no_lookup;
   SC 232 62 60 1 yes no 0 no_lookup; SC 233 62 60 2 yes no 0 no_lookup;
   SC 234 62 60 3 yes no 0 no_lookup].

Definition SIZE_CLASSES : list sc_entry :=
  SIZE_CLASSES_binned ++ SIZE_CLASSES_large ++ SIZE_CLASSES_huge.

(** [((1U << lg_grp) + (ndelta << lg_delta))], on [unsigned]. *)
Definition sc_bytes (e : sc_entry) : Z :=
  u32 (u32 (Z.shiftl 1 (lg_grp e)) + u32 (Z.shiftl (ndelta e) (lg_delta e))).

Record SizeClassData := mkSC {
  block_size : Z;
  sb_size : Z;
  block_num : Z;
  cache_block_num : Z
}.

(** [SIZE_CLASS_bin_yes(block_size, pages)] of SizeClass.cpp; rows with
    [bin = no] expand to nothing. *)
Definition SIZE_CLASS_bin_yes (bytes : Z) : SizeClassData :=
  mkSC bytes SBSIZE (SBSIZE / bytes) (SBSIZE / bytes).

Definition sizeclasses : list SizeClassData :=
  mkSC 0 0 0 0 :: ((λ e, SIZE_CLASS_bin_yes (sc_bytes e)) <$> filter bin SIZE_CLASSES).

(** [get_sizeclass_by_idx]. *)
Definition get_sizeclass_by_idx (idx : Z) : SizeClassData :=
  nth (Z.to_nat idx) sizeclasses (mkSC 0 0 0 0).

(** The inner [while] of the constructor. An out-of-bounds store to
    [sizeclass_lookup[MAX_SZ + 1]] is a failure. *)
Fixpoint fill_lookup (fuel : nat) (sc_idx bsz lookupIdx : Z) (tab : gmap Z Z)
  : outcome (Z * gmap Z Z) :=
  match fuel with
  | O => NoFuel
  | S fuel' =>
      if lookupIdx <=? bsz then
        if lookupIdx <? MAX_SZ + 1 then
          fill_lookup fuel' sc_idx bsz (lookupIdx + 1) (<[lookupIdx := sc_idx]> tab)
        else Fail
      else Ok (lookupIdx, tab)
  end.

(** The outer [for], over [sc_idx = 1 .. MAX_SZ_IDX - 1]. *)
Fixpoint fill_classes (fuel : nat) (scs : list Z) (lookupIdx : Z) (tab : gmap Z Z)
  : outcome (gmap Z Z) :=
  match scs with
  | [] => Ok tab
  | sc_idx :: rest =>
      match fill_lookup fuel sc_idx (block_size (get_sizeclass_by_idx sc_idx)) lookupIdx tab with
      | Ok (i, tab') => fill_classes fuel rest i tab'
      | Fail => Fail
      | NoFuel => NoFuel
      end
  end.

(** [SizeClass::SizeClass()]. The inner loop runs at most [MAX_SZ + 1] times
    plus its exit test. *)
Definition SizeClass_ctor : outcome (gmap Z Z) :=
  fill_classes (Z.to_nat (MAX_SZ + 2)) (seqZ 1 (MAX_SZ_IDX - 1)) 0 ∅.

(** [get_sizeclass(size)] reads the table built by the constructor; the array
    is zero-initialised ([sizeclass_lookup{0}]). *)
Definition get_sizeclass_in (tab : gmap Z Z) (size : Z) : Z := default 0 (tab !! size).

Definition sizeclass_lookup : gmap Z Z :=
  match SizeClass_ctor with Ok tab => tab | _ => ∅ end.

Definition get_sizeclass (size : Z) : Z := get_sizeclass_in sizeclass_lookup size.

(** [BaseMeta::compute_idx]: the switch picks the division by a constant block
    size; every [assert] of the function is a possible failure. *)
Definition compute_idx (superblock block sc_idx : Z) : outcome Z :=
  let sc := get_sizeclass_by_idx sc_idx in
  let sc_block_size := block_size sc in
  if (superblock <=? block) && (block <? superblock + sb_size sc) then
    let diff := u32 (block - superblock) in
    match list_find (λ e, bin e && (sc_index e + 1 =? sc_idx)) SIZE_CLASSES with
    | Some (_, e) =>
        if sc_block_size =? sc_bytes e then
          let idx := diff / sc_bytes e in
          if diff / sc_block_size =? idx then Ok idx else Fail
        else Fail
    | None => Fail
    end
  else Fail.

(** ** The table *)

(** Everything about the 39 binned classes that the allocator relies on. *)
Definition sc_ok (c : Z) : bool :=
  let sc := get_sizeclass_by_idx c in
  (8 <=? block_size sc) && (block_size sc mod 8 =? 0) && (block_size sc <=? MAX_SZ)
  && (sb_size sc =? SBSIZE) && (block_num sc =? SBSIZE / block_size sc)
  && (cache_block_num sc =? block_num sc)
  && (4 <=? block_num sc) && (block_num sc * block_size sc <=? SBSIZE).

Lemma forallb_seqZ (P : Z → bool) m n :
  forallb P (seqZ m n) = true → ∀ k, m ≤ k < m + n → P k = true.
Proof.
  intros H k Hk. rewrite forallb_forall in H. apply H.
  apply list_elem_of_In, elem_of_seqZ. lia.
Qed.

Lemma sc_ok_all c : 1 ≤ c < MAX_SZ_IDX → sc_ok c = true.
Proof. apply (forallb_seqZ sc_ok 1 39). vm_compute. done. Qed.

Lemma sc_facts c :
  1 ≤ c < MAX_SZ_IDX →
  let sc := get_sizeclass_by_idx c in
  8 ≤ block_size sc ≤ MAX_SZ ∧ block_size sc mod 8 = 0 ∧ sb_size sc = SBSIZE ∧
  block_num sc = SBSIZE / block_size sc ∧ cache_block_num sc = block_num sc ∧
  4 ≤ block_num sc ∧ block_num sc * block_size sc ≤ SBSIZE.
Proof.
  intros Hc sc. pose proof (sc_ok_all c Hc) as H. unfold sc_ok in H. fold sc in H.
  rewrite !andb_true_iff, !Z.leb_le, !Z.eqb_eq in H. lia.
Qed.

Lemma sizeclasses_length : length sizeclasses = Z.to_nat MAX_SZ_IDX.
Proof. vm_compute. done. Qed.

Definition sizes_increase (c : Z) : bool :=
  block_size (get_sizeclass_by_idx (c - 1)) <? block_size (get_sizeclass_by_idx c).

Lemma block_size_mono c c' :
  0 ≤ c → c < c' < MAX_SZ_IDX →
  block_size (get_sizeclass_by_idx c) < block_size (get_sizeclass_by_idx c').
Proof.
  intros Hc [Hlt Hmax].
  assert (∀ k, 1 ≤ k < 1 + 39 → sizes_increase k = true) as Hstep.
  { apply forallb_seqZ. vm_compute. done. }
  revert Hmax. apply Zlt_lower_bound_ind with (z := c + 1) (x := c'); [|lia].
  intros x IH Hx Hmax. pose proof (Hstep x) as Hs.
  unfold sizes_increase in Hs. rewrite Z.ltb_lt in Hs.
  change MAX_SZ_IDX with 40 in *.
  destruct (decide (x = c + 1)) as [->|].
  - replace (c + 1 - 1) with c in Hs by lia. apply Hs. lia.
  - specialize (IH (x - 1)). assert (1 ≤ x < 1 + 39) by lia. specialize (Hs H). lia.
Qed.

(** ** The lookup table *)

#[global] Opaque sizeclass_lookup.

Definition ctor_spec_at (tab : gmap Z Z) (size : Z) : bool :=
  let c := get_sizeclass_in tab size in
  (1 <=? c) && (c <? MAX_SZ_IDX)
  && (size <=? block_size (get_sizeclass_by_idx c))
  && ((c =? 1) || (block_size (get_sizeclass_by_idx (c - 1)) <? size)).

Definition is_ok {A} (o : outcome A) : bool := match o with Ok _ => true | _ => false end.

Lemma ctor_is_ok : is_ok SizeClass_ctor = true.
Proof. vm_compute. reflexivity. Qed.

Lemma ctor_ok : SizeClass_ctor = Ok sizeclass_lookup.
Proof. pose proof ctor_is_ok. Transparent sizeclass_lookup. unfold sizeclass_lookup.
  by destruct SizeClass_ctor.
Qed.

(** The inner loop gives the sizes from [l] up to the block size the class [c]. *)
Lemma fill_lookup_spec fuel c b l tab :
  l ≤ b + 1 → b ≤ MAX_SZ → b + 1 - l < Z.of_nat fuel →
  ∃ tab', fill_lookup fuel c b l tab = Ok (b + 1, tab') ∧
    ∀ x, tab' !! x = if decide (l ≤ x ≤ b) then Some c else tab !! x.
Proof.
  revert l tab. induction fuel as [|fuel IH]; intros l tab Hl Hb Hf; [lia|]. cbn [fill_lookup].
  destruct (Z.leb_spec l b) as [Hlb|Hlb].
  - rewrite (proj2 (Z.ltb_lt l (MAX_SZ + 1))) by lia.
    destruct (IH (l + 1) (<[l := c]> tab)) as (tab' & E & Ht); [lia..|]. exists tab'. split; [done|].
    intros x. rewrite Ht. destruct (decide (l + 1 ≤ x ≤ b)) as [Hx|Hx]; [by rewrite decide_True by lia|].
    destruct (decide (l = x)) as [<-|Hne].
    + by rewrite lookup_insert_eq, decide_True by lia.
    + rewrite lookup_insert_ne by done. by rewrite decide_False by lia.
  - exists tab. replace (b + 1) with l by lia. split; [done|]. intros x. by rewrite decide_False by lia.
Qed.

(** The first size of a class. *)
Definition first_size (c : Z) : Z := if c =? 1 then 0 else block_size (get_sizeclass_by_idx (c - 1)) + 1.

Lemma first_size_next c : 1 ≤ c → first_size (c + 1) = block_size (get_sizeclass_by_idx c) + 1.
Proof. intros Hc. unfold first_size. rewrite (proj2 (Z.eqb_neq _ _)) by lia. by replace (c + 1 - 1) with c by lia. Qed.

Lemma first_size_le c : 1 ≤ c < MAX_SZ_IDX → first_size c ≤ block_size (get_sizeclass_by_idx c).
Proof.
  intros Hc. unfold first_size. destruct (Z.eqb_spec c 1) as [->|Hne].
  - destruct (sc_facts 1 ltac:(done)). lia.
  - pose proof (block_size_mono (c - 1) c ltac:(lia) ltac:(lia)). lia.
Qed.

Lemma fill_classes_spec fuel n c tab :
  1 ≤ c → c + Z.of_nat n ≤ MAX_SZ_IDX → MAX_SZ + 1 < Z.of_nat fuel →
  ∃ tab', fill_classes fuel (seqZ c (Z.of_nat n)) (first_size c) tab = Ok tab' ∧
    (∀ k x, c ≤ k < c + Z.of_nat n → first_size k ≤ x ≤ block_size (get_sizeclass_by_idx k) → tab' !! x = Some k) ∧
    ∀ x, x < first_size c → tab' !! x = tab !! x.
Proof.
  revert c tab. induction n as [|n IH]; intros c tab Hc Hn Hf.
  { exists tab. split; [done|]. split; [lia|done]. }
  rewrite seqZ_cons by lia. replace (Z.succ c) with (c + 1) by lia. replace (Z.pred (Z.of_nat (S n))) with (Z.of_nat n) by lia.
  pose proof (first_size_le c ltac:(lia)) as Hfirst. destruct (sc_facts c ltac:(lia)) as (Hbs & _).
  assert (0 ≤ first_size c) as H0.
  { unfold first_size. destruct (Z.eqb_spec c 1); [done|]. destruct (sc_facts (c - 1) ltac:(lia)). lia. }
  cbn [fill_classes].
  destruct (fill_lookup_spec fuel c (block_size (get_sizeclass_by_idx c)) (first_size c) tab) as (tab1 & E1 & H1); [lia..|].
  rewrite E1, <- first_size_next by done.
  destruct (IH (c + 1) tab1) as (tab' & E & H2 & H3); [lia..|]. exists tab'. split; [done|].
  rewrite first_size_next in H3 by done. split.
  - intros k x Hk Hx. destruct (decide (k = c)) as [->|Hne]; [|by apply H2; lia].
    rewrite H3 by lia. rewrite H1. by rewrite decide_True.
  - intros x Hx. rewrite H3 by lia. rewrite H1. by rewrite decide_False by lia.
Qed.

Lemma ctor_classes fuel :
  MAX_SZ + 1 < Z.of_nat fuel → ∃ tab, fill_classes fuel (seqZ 1 (MAX_SZ_IDX - 1)) 0 ∅ = Ok tab ∧
    ∀ c size, 1 ≤ c < MAX_SZ_IDX → first_size c ≤ size ≤ block_size (get_sizeclass_by_idx c) → tab !! size = Some c.
Proof.
  intros Hf. destruct (fill_classes_spec fuel 39 1 ∅) as (tab & E & H & _); [lia|done|done|].
  exists tab. split; [exact E|]. intros c size Hc Hs. apply H; [|done]. change MAX_SZ_IDX with 40 in Hc. lia.
Qed.

Lemma sizeclass_lookup_spec c size :
  1 ≤ c < MAX_SZ_IDX → first_size c ≤ size ≤ block_size (get_sizeclass_by_idx c) → sizeclass_lookup !! size = Some c.
Proof.
  intros Hc Hs. pose proof ctor_ok as E0. unfold SizeClass_ctor in E0.
  destruct (ctor_classes (Z.to_nat (MAX_SZ + 2))) as (tab & E & H); [lia|].
  rewrite E in E0. assert (sizeclass_lookup = tab) as -> by congruence. by apply H.
Qed.

(** Every small size is in a class. *)
Lemma size_in_class n size :
  (1 + Z.of_nat n < MAX_SZ_IDX) → 0 ≤ size ≤ block_size (get_sizeclass_by_idx (1 + Z.of_nat n)) →
  ∃ c, 1 ≤ c ≤ 1 + Z.of_nat n ∧ first_size c ≤ size ≤ block_size (get_sizeclass_by_idx c).
Proof.
  induction n as [|n IH]; intros Hn Hs.
  - exists 1. split; [lia|]. exact Hs.
  - destruct (decide (size ≤ block_size (get_sizeclass_by_idx (1 + Z.of_nat n)))) as [Hle|Hgt].
    + destruct IH as (c & Hc & Hx); [lia..|]. exists c. split; [lia|done].
    + exists (1 + Z.of_nat (S n)). split; [lia|]. replace (1 + Z.of_nat (S n)) with (1 + Z.of_nat n + 1) in * by lia.
      rewrite first_size_next by lia. lia.
Qed.

Lemma ctor_spec_all size : 0 ≤ size ≤ MAX_SZ → ctor_spec_at sizeclass_lookup size = true.
Proof.
  intros Hs. destruct (size_in_class 38 size) as (c & Hc & Hx); [done|exact Hs|].
  change (1 + Z.of_nat 38) with 39 in Hc. unfold ctor_spec_at, get_sizeclass_in.
  rewrite (sizeclass_lookup_spec c size) by (done || (change MAX_SZ_IDX with 40; lia)). cbn [default from_option id].
  rewrite !andb_true_iff, orb_true_iff, !Z.leb_le, !Z.ltb_lt, Z.eqb_eq. change MAX_SZ_IDX with 40.
  split; [split; [lia|lia]|]. destruct (decide (c = 1)) as [->|Hne]; [by left|right].
  unfold first_size in Hx. rewrite (proj2 (Z.eqb_neq _ _)) in Hx by done. lia.
Qed.

Lemma get_sizeclass_in_facts tab size :
  ctor_spec_at tab size = true →
  1 ≤ get_sizeclass_in tab size < MAX_SZ_IDX ∧
  size ≤ block_size (get_sizeclass_by_idx (get_sizeclass_in tab size)) ∧
  (get_sizeclass_in tab size = 1 ∨
   block_size (get_sizeclass_by_idx (get_sizeclass_in tab size - 1)) < size).
Proof.
  unfold ctor_spec_at. generalize (get_sizeclass_in tab size). intros c H.
  rewrite !andb_true_iff, orb_true_iff, !Z.leb_le, !Z.ltb_lt, Z.eqb_eq in H. lia.
Qed.

Lemma get_sizeclass_facts size :
  0 ≤ size ≤ MAX_SZ →
  1 ≤ get_sizeclass size < MAX_SZ_IDX ∧
  size ≤ block_size (get_sizeclass_by_idx (get_sizeclass size)) ∧
  (get_sizeclass size = 1 ∨
   block_size (get_sizeclass_by_idx (get_sizeclass size - 1)) < size).
Proof.
  intros Hs. apply get_sizeclass_in_facts.
  by apply ctor_spec_all.
Qed.

(** ** Block indices *)

Definition switch_ok (c : Z) : bool :=
  match list_find (λ e, bin e && (sc_index e + 1 =? c)) SIZE_CLASSES with
  | Some (_, e) => block_size (get_sizeclass_by_idx c) =? sc_bytes e
  | None => false
  end.

Lemma switch_ok_all c : 1 ≤ c < MAX_SZ_IDX → switch_ok c = true.
Proof. apply (forallb_seqZ switch_ok 1 39). vm_compute. done. Qed.

Lemma compute_idx_div superblock block c :
  1 ≤ c < MAX_SZ_IDX → superblock ≤ block < superblock + SBSIZE →
  compute_idx superblock block c =
    Ok ((block - superblock) / block_size (get_sizeclass_by_idx c)).
Proof.
  intros Hc Hb. destruct (sc_facts c Hc) as (_ & _ & Hsb & _).
  pose proof (switch_ok_all c Hc) as Hsw. unfold switch_ok in Hsw. unfold compute_idx.
  rewrite Hsb. rewrite (proj2 (Z.leb_le _ _)), (proj2 (Z.ltb_lt _ _)) by lia. cbn [andb].
  destruct (list_find _ SIZE_CLASSES) as [[? e]|]; [|done].
  rewrite Hsw. apply Z.eqb_eq in Hsw. rewrite <- Hsw, Z.eqb_refl.
  rewrite u32_small; [done|]. change SBSIZE with 65536 in Hb. lia.
Qed.
