(* ===== verification/Region.v ===== *)
(** * Regions (src/RegionManager.hpp, src/RegionManager.cpp)

    A [RegionManager] maps one heap file. Its first page holds the current end
    of the region (an [atomic_pptr] at [base_addr]), the offset of the heap
    start and the file size; the rest is handed out by bumping the end pointer
    with a compare-and-swap. [Regions] keeps the descriptor, superblock and
    metadata regions of a heap. The write-backs of the first page are logged by
    the callers (Heap.v, BaseMeta.v); file and mapping calls are represented by
    their results. *)

From Stdlib Require Import ZArith Lia.
From stdpp Require Import base gmap numbers list.
From S2P Require Import Prelude Mem Config Pptr.

Local Open Scope Z_scope.

(** What the first page of a heap file holds. *)
Record region_file := RegionFile {
  rf_curr : Z;         (* raw content of the atomic_pptr at offset 0 *)
  rf_heap_start : Z;   (* int64 at offset 8 *)
  rf_size : Z          (* uint64 at offset 16 *)
}.

Record RegionManager := mkRegion {
  FILESIZE : Z;
  base_addr : Z;
  rfile : region_file;
  persist : bool
}.

Definition set_curr (r : RegionManager) (raw : Z) : RegionManager :=
  mkRegion (FILESIZE r) (base_addr r)
    (RegionFile raw (rf_heap_start (rfile r)) (rf_size (rfile r))) (persist r).

(** [curr_addr_ptr->load()]: the cell is at [base_addr]. *)
Definition curr_addr (r : RegionManager) : Z :=
  atomic_pptr_load (base_addr r) (rf_curr (rfile r)).

(** [__store_heap_start] and [__fetch_heap_start]. *)
Definition __store_heap_start (r : RegionManager) (root : Z) : RegionManager :=
  mkRegion (FILESIZE r) (base_addr r)
    (RegionFile (rf_curr (rfile r)) (u64 (root - base_addr r)) (rf_size (rfile r))) (persist r).

Definition __fetch_heap_start (r : RegionManager) : Z :=
  u64 (rf_heap_start (rfile r) + base_addr r).

(** [__map_persistent_region] and [__map_transient_region] differ only in the
    flags given to [mmap]. [addr] is the address [mmap] returned, [None] for
    [MAP_FAILED]. A fresh file reads as zero; its first page gets the end
    pointer, one page behind the base, and the size. *)
Definition __map_persistent_region (fsize : Z) (addr : option Z) : outcome RegionManager :=
  match addr with
  | None => Fail
  | Some a =>
      Ok (mkRegion fsize a (RegionFile (to_pptr_off (u64 (a + PAGESIZE)) a) 0 fsize) true)
  end.

Definition __map_transient_region (fsize : Z) (addr : option Z) : outcome RegionManager :=
  match addr with
  | None => Fail
  | Some a =>
      Ok (mkRegion fsize a (RegionFile (to_pptr_off (u64 (a + PAGESIZE)) a) 0 fsize) false)
  end.

(** [__remap_persistent_region] and [__remap_transient_region] of an existing
    file [f]: the sizes must agree. *)
Definition __remap_persistent_region (fsize : Z) (addr : option Z) (f : region_file)
  : outcome RegionManager :=
  match addr with
  | None => Fail
  | Some a => if rf_size f =? fsize then Ok (mkRegion fsize a f true) else Fail
  end.

Definition __remap_transient_region (fsize : Z) (addr : option Z) (f : region_file)
  : outcome RegionManager :=
  match addr with
  | None => Fail
  | Some a => if rf_size f =? fsize then Ok (mkRegion fsize a f false) else Fail
  end.

(** [(alignment & (~alignment + 1)) != alignment || alignment < 8], the size of a pointer. *)
Definition bad_alignment (alignment : Z) : bool :=
  negb (Z.land alignment (u64 (Z.lnot alignment + 1)) =? alignment) || (alignment <? 8).

(** The part of the two allocators before the compare-and-swap: the aligned
    start of the new area and the new end, or [None] when the request is
    refused. Pointer sums wrap at 64 bits. *)
Definition region_bump (r : RegionManager) (alignment size : Z) : option (Z * Z) :=
  if size =? 0 then None
  else if bad_alignment alignment then None
  else
    let old_curr_addr := curr_addr r in
    let aln_adj := Z.land old_curr_addr (alignment - 1) in
    let new_curr_addr :=
      if negb (aln_adj =? 0) then u64 (old_curr_addr + (alignment - aln_adj))
      else old_curr_addr in
    let next := u64 (new_curr_addr + size) in
    if u64 (base_addr r + FILESIZE r) <? next then None
    else Some (new_curr_addr, next).

(** [__nvm_region_allocator(&memptr, alignment, size)]. [cas_raw] is the content
    of the end pointer when the compare-and-swap executes: other threads may
    have moved it since it was loaded. Returns the code, the address stored to
    [*memptr] (if any) and the new content of the end pointer. *)
Definition __nvm_region_allocator (r : RegionManager) (cas_raw alignment size : Z)
  : Z * option Z * Z :=
  match region_bump r alignment size with
  | None => (-1, None, cas_raw)
  | Some (res, next) =>
      match atomic_pptr_cas (base_addr r) cas_raw (curr_addr r) next with
      | (true, raw, _) => (1, Some res, raw)
      | (false, raw, _) => (0, None, raw)
      end
  end.

(** [__try_nvm_region_allocator]: the same steps with other return codes. *)
Definition __try_nvm_region_allocator (r : RegionManager) (cas_raw alignment size : Z)
  : Z * option Z * Z :=
  match region_bump r alignment size with
  | None => (-1, None, cas_raw)
  | Some (res, next) =>
      match atomic_pptr_cas (base_addr r) cas_raw (curr_addr r) next with
      | (true, raw, _) => (0, Some res, raw)
      | (false, raw, _) => (1, None, raw)
      end
  end.

(** [__within_range]: compared as [intptr_t]. *)
Definition s64 (z : Z) : Z := if z <? 2 ^ 63 then z else z - 2 ^ 64.
Definition __within_range (r : RegionManager) (ptr : Z) : bool :=
  (s64 (base_addr r) <? s64 ptr) && (s64 ptr <? s64 (curr_addr r)).

(** The constructor: [FILESIZE] from the requested size, remap when the file
    exists, otherwise map and, with [imm_expand], take the whole size at once.
    [t0] is the indeterminate initial value of the local [t]; the [bool] that
    receives the return code is true for [-1] as well. *)
Definition region_filesize (size : Z) : Z := (size / PAGESIZE + 2) * PAGESIZE.

Definition RegionManager_ctor (file : option region_file) (addr : option Z) (size : Z)
    (p imm_expand : bool) (t0 : Z) : outcome RegionManager :=
  if negb (size mod CACHELINE_SIZE =? 0) then Fail
  else
    match file with
    | Some f =>
        if p then __remap_persistent_region (region_filesize size) addr f
        else __remap_transient_region (region_filesize size) addr f
    | None =>
        match (if p then __map_persistent_region (region_filesize size) addr
               else __map_transient_region (region_filesize size) addr) with
        | Ok r =>
            if imm_expand then
              match __nvm_region_allocator r (rf_curr (rfile r)) CACHELINE_SIZE size with
              | (code, t, raw) =>
                  if code =? 0 then Fail
                  else Ok (__store_heap_start (set_curr r raw) (default t0 t))
              end
            else Ok r
        | o => o
        end
    end.

(** What [__close_persistent_region] and [__close_transient_region] leave in the
    file: the first page as it is mapped. *)
Definition __close_persistent_region (r : RegionManager) : region_file := rfile r.
Definition __close_transient_region (r : RegionManager) : region_file := rfile r.

(** The destructor. *)
Definition RegionManager_dtor (r : RegionManager) : region_file :=
  if persist r then __close_persistent_region r else __close_transient_region r.

(** [space_used] of [__close_persistent_region]. *)
Definition space_used (r : RegionManager) : Z := u64 (curr_addr r - base_addr r).

(** ** [class Regions] *)

Record Regions := mkRegions {
  regions : list RegionManager;
  regions_address : list Z;
  cur_idx : nat
}.

(** No region yet: null entries. *)
Definition null_region : RegionManager := mkRegion 0 0 (RegionFile 0 0 0) false.

Definition Regions_ctor : Regions :=
  mkRegions (replicate LAST_IDX null_region) (replicate LAST_IDX 0) 0.

(** [regions[cur_idx] = mgr] and, once its address is known,
    [regions_address[cur_idx] = a; cur_idx++]. *)
Definition put_region (rg : Regions) (mgr : RegionManager) : Regions :=
  mkRegions (<[cur_idx rg := mgr]> (regions rg)) (regions_address rg) (cur_idx rg).
Definition next_region (rg : Regions) (a : Z) : Regions :=
  mkRegions (regions rg) (<[cur_idx rg := a]> (regions_address rg)) (S (cur_idx rg)).

Definition rlookup (rg : Regions) (index : nat) : Z := nth index (regions_address rg) 0.

Definition translate (rg : Regions) (index : nat) (relative_address : Z) : Z :=
  u64 (rlookup rg index + relative_address).

Definition untranslate (rg : Regions) (index : nat) (absolute_address : Z) : Z :=
  u64 (absolute_address - rlookup rg index).

Definition rget (rg : Regions) (index : nat) : RegionManager :=
  nth index (regions rg) null_region.

Definition rput (rg : Regions) (index : nat) (r : RegionManager) : Regions :=
  mkRegions (<[index := r]> (regions rg)) (regions_address rg) (cur_idx rg).

Definition set_address (rg : Regions) (index : nat) (a : Z) : Regions :=
  mkRegions (regions rg) (<[index := a]> (regions_address rg)) (cur_idx rg).

(** [expand], by one thread running alone between load and compare-and-swap. *)
Definition expand (rg : Regions) (index : nat) (alignment size : Z) : Z * option Z * Regions :=
  let r := rget rg index in
  match __nvm_region_allocator r (rf_curr (rfile r)) alignment size with
  | (code, t, raw) => (code, t, rput rg index (set_curr r raw))
  end.

Definition in_range (rg : Regions) (index : nat) (ptr : Z) : bool :=
  if rlookup rg index <=? ptr then ptr <? curr_addr (rget rg index) else false.

(** The cache lines [flush_region] writes back, in order. *)
Definition flush_region_lines (rg : Regions) (index : nat) : list Z :=
  let addr := rlookup rg index in
  let ending := curr_addr (rget rg index) in
  (λ k, addr + k * CACHELINE_SIZE) <$>
    seqZ 0 ((ending - addr + CACHELINE_SIZE - 1) / CACHELINE_SIZE).

(** ** Bumping the end pointer *)

Lemma bad_alignment_pow2 k : 3 ≤ k < 64 → bad_alignment (2 ^ k) = false.
Proof.
  intros Hk. unfold bad_alignment.
  assert (8 ≤ 2 ^ k) by (change 8 with (2 ^ 3); apply Z.pow_le_mono_r; lia).
  assert (2 ^ k < 2 ^ 64) by (apply Z.pow_lt_mono_r; lia).
  rewrite (proj2 (Z.ltb_ge _ _)) by lia. rewrite orb_false_r. apply negb_false_iff, Z.eqb_eq.
  replace (Z.lnot (2 ^ k) + 1) with (Z.lnot (2 ^ k - 1)) by (unfold Z.lnot; lia).
  rewrite land_u64_lnot_mask by lia. rewrite Z.mod_same by lia. lia.
Qed.

(** The result of a bump that does not wrap. *)
Lemma region_bump_spec r k size :
  3 ≤ k < 64 → 0 ≤ curr_addr r → 0 < size →
  curr_addr r + 2 ^ k + size < 2 ^ 64 → 0 ≤ base_addr r + FILESIZE r < 2 ^ 64 →
  region_bump r (2 ^ k) size =
    let start := align_up (curr_addr r) (2 ^ k) in
    if start + size <=? base_addr r + FILESIZE r then Some (start, start + size) else None.
Proof.
  intros Hk Hc Hs Hb Hf. unfold region_bump.
  rewrite (proj2 (Z.eqb_neq _ _)), bad_alignment_pow2 by lia.
  assert (0 < 2 ^ k) as Hp by (apply Z.pow_pos_nonneg; lia).
  rewrite land_mask by lia. rewrite <- align_bump by done.
  pose proof (Z.mod_pos_bound (curr_addr r) (2 ^ k) Hp) as Hm.
  destruct (Z.eqb_spec (curr_addr r mod 2 ^ k) 0) as [E|E]; cbn [negb];
    rewrite !u64_small by (rewrite ?u64_small; lia);
    destruct (Z.ltb_spec (base_addr r + FILESIZE r)
      (curr_addr r + (2 ^ k - curr_addr r mod 2 ^ k) + size));
    destruct (Z.ltb_spec (base_addr r + FILESIZE r) (curr_addr r + size));
    cbn zeta;
    destruct (Z.leb_spec (curr_addr r + (2 ^ k - curr_addr r mod 2 ^ k) + size)
      (base_addr r + FILESIZE r));
    destruct (Z.leb_spec (curr_addr r + size) (base_addr r + FILESIZE r));
    try done; lia.
Qed.

Lemma cas_same p v w :
  addr_ok p → addr_ok v → addr_ok w →
  atomic_pptr_cas p (to_pptr_off v p) v w = (true, to_pptr_off w p, v).
Proof. intros. unfold atomic_pptr_cas. by rewrite Z.eqb_refl. Qed.

Lemma cas_other p v v' w :
  addr_ok p → addr_ok v → addr_ok v' → v ≠ v' →
  atomic_pptr_cas p (to_pptr_off v' p) v w = (false, to_pptr_off v' p, v').
Proof.
  intros Hp Hv Hv' Hne. unfold atomic_pptr_cas.
  rewrite (proj2 (Z.eqb_neq _ _)).
  - f_equal. destruct (is_null_pptr _) eqn:E; [|by apply from_to_pptr].
    unfold is_null_pptr in E. apply Z.eqb_eq in E.
    rewrite <- (from_to_pptr v' p) by done. by rewrite E.
  - intros E. apply Hne. symmetry. by apply (to_pptr_inj _ _ p).
Qed.

Lemma curr_addr_set_curr r v :
  addr_ok (base_addr r) → addr_ok v →
  curr_addr (set_curr r (to_pptr_off v (base_addr r))) = v.
Proof. intros. unfold curr_addr, set_curr, atomic_pptr_load. cbn. by apply from_to_pptr. Qed.

(** A region whose end pointer decodes to [c]. *)
Definition region_at (r : RegionManager) (c : Z) : Prop :=
  addr_ok (base_addr r) ∧ 0 < base_addr r ∧ addr_ok (base_addr r + FILESIZE r) ∧
  rf_curr (rfile r) = to_pptr_off c (base_addr r) ∧
  base_addr r ≤ c ≤ base_addr r + FILESIZE r.

Lemma region_at_curr r c : region_at r c → curr_addr r = c.
Proof.
  intros (Hb & _ & Hf & Hc & Hr). unfold curr_addr, atomic_pptr_load. rewrite Hc.
  apply from_to_pptr; unfold addr_ok in *; lia.
Qed.

(** Running alone, the allocator takes the aligned area when it fits and
    refuses otherwise. *)
Lemma nvm_alloc_alone r c k size :
  region_at r c → 3 ≤ k < 48 → 0 < size < 2 ^ 62 →
  let start := align_up c (2 ^ k) in
  __nvm_region_allocator r (rf_curr (rfile r)) (2 ^ k) size =
    if start + size <=? base_addr r + FILESIZE r
    then (1, Some start, to_pptr_off (start + size) (base_addr r))
    else (-1, None, rf_curr (rfile r)).
Proof.
  intros Hr Hk Hs start. pose proof (region_at_curr _ _ Hr) as Hcur.
  destruct Hr as (Hb & Hb0 & Hf & Hc & Hin). unfold addr_ok in *.
  assert (0 < 2 ^ k < 2 ^ 48) as [Hp Hp'].
  { split; [apply Z.pow_pos_nonneg; lia|apply Z.pow_lt_mono_r; lia]. }
  destruct (align_up_spec c (2 ^ k) Hp) as [Hst _]. fold start in Hst.
  unfold __nvm_region_allocator. rewrite region_bump_spec by lia.
  rewrite Hcur. cbn zeta. fold start.
  destruct (Z.leb_spec (start + size) (base_addr r + FILESIZE r)); [|done].
  rewrite Hc, cas_same by (unfold addr_ok; lia). done.
Qed.
