(* ===== verification/RegionRace.v ===== *)
(** * Concurrent expansion of a region

    [__nvm_region_allocator] loads the end pointer, computes the new end and
    installs it with a compare-and-swap; between the two, other threads may do
    the same. A thread between load and compare-and-swap is a snapshot of the
    region; the steps of all threads interleave. *)

From Stdlib Require Import ZArith Lia.
From stdpp Require Import base gmap numbers list.
From S2P Require Import Prelude Mem Config Pptr Region.

Local Open Scope Z_scope.

(** A call in progress: the region as loaded, alignment and size. *)
Record pending := mkPending { pd_region : RegionManager; pd_align : Z; pd_size : Z }.

(** The shared region, the calls in progress and the areas handed out so far
    (start, end), newest first. *)
Record race := mkRace {
  rc_region : RegionManager;
  rc_pending : gmap nat pending;
  rc_areas : list (Z * Z)
}.

(** Thread [t] loads the end pointer; later it executes the rest of the call. *)
Inductive race_step : race → race → Prop :=
| race_load r pd ar t k size :
    3 ≤ k < 48 → 0 < size < 2 ^ 62 →
    race_step (mkRace r pd ar) (mkRace r (<[t := mkPending r (2 ^ k) size]> pd) ar)
| race_cas r pd ar t p code o raw :
    pd !! t = Some p →
    __nvm_region_allocator (pd_region p) (rf_curr (rfile r)) (pd_align p) (pd_size p) = (code, o, raw) →
    race_step (mkRace r pd ar)
      (mkRace (set_curr r raw) (delete t pd)
         (match o with Some a => (a, a + pd_size p) :: ar | None => ar end)).

Inductive race_steps : race → race → Prop :=
| race_refl x : race_steps x x
| race_more x y z : race_steps x y → race_step y z → race_steps x z.

(** Areas in descending order, inside [lo, hi). *)
Fixpoint stacked (lo hi : Z) (l : list (Z * Z)) : Prop :=
  match l with
  | [] => True
  | (a, b) :: l' => lo ≤ a ∧ a < b ∧ b ≤ hi ∧ stacked lo a l'
  end.

Lemma stacked_weaken lo hi hi' l : hi ≤ hi' → stacked lo hi l → stacked lo hi' l.
Proof. destruct l as [|[a b] l]; cbn; [done|]. intros ? (?&?&?&?). split_and!; done || lia. Qed.

Lemma stacked_in lo hi l a b : stacked lo hi l → (a, b) ∈ l → lo ≤ a ∧ a < b ∧ b ≤ hi.
Proof.
  revert hi. induction l as [|[x y] l IH]; intros hi H Hin; [set_solver|]. cbn in H.
  destruct H as (H1 & H2 & H3 & H4). apply elem_of_cons in Hin as [[= -> ->]|Hin]; [done|].
  destruct (IH x H4 Hin). lia.
Qed.

Lemma stacked_disjoint lo hi l i j a b a' b' :
  stacked lo hi l → l !! i = Some (a, b) → l !! j = Some (a', b') → i ≠ j → b ≤ a' ∨ b' ≤ a.
Proof.
  revert hi i j. induction l as [|[x y] l IH]; intros hi i j H Hi Hj Hne; [done|].
  cbn in H. destruct H as (H1 & H2 & H3 & H4).
  destruct i as [|i], j as [|j]; cbn in Hi, Hj; [done|..].
  - injection Hi as -> ->. right. apply list_elem_of_lookup_2 in Hj.
    by destruct (stacked_in _ _ _ _ _ H4 Hj) as (_ & _ & ?).
  - injection Hj as -> ->. left. apply list_elem_of_lookup_2 in Hi.
    by destruct (stacked_in _ _ _ _ _ H4 Hi) as (_ & _ & ?).
  - apply (IH x i j); try done. congruence.
Qed.

(** The end is at [c]; snapshots are of earlier ends of the same region; the
    areas are stacked below the end. *)
Record race_inv (base fsize : Z) (x : race) (c : Z) : Prop := {
  ri_base : base_addr (rc_region x) = base;
  ri_size : FILESIZE (rc_region x) = fsize;
  ri_at : region_at (rc_region x) c;
  ri_pending : ∀ t p, rc_pending x !! t = Some p →
    base_addr (pd_region p) = base ∧ FILESIZE (pd_region p) = fsize ∧
    (∃ k, 3 ≤ k < 48 ∧ pd_align p = 2 ^ k) ∧ 0 < pd_size p < 2 ^ 62 ∧
    ∃ c0, region_at (pd_region p) c0 ∧ c0 ≤ c;
  ri_areas : stacked base c (rc_areas x)
}.

Lemma region_at_set_curr r c c' :
  region_at r c → base_addr r ≤ c' ≤ base_addr r + FILESIZE r →
  region_at (set_curr r (to_pptr_off c' (base_addr r))) c'.
Proof. intros (H1 & H2 & H3 & H4 & H5) Hc. exact (conj H1 (conj H2 (conj H3 (conj eq_refl Hc)))). Qed.

Lemma set_curr_same r : set_curr r (rf_curr (rfile r)) = r.
Proof. by destruct r as [? ? [] ?]. Qed.

(** The second half of a call, against an end moved to [c] meanwhile. *)
Lemma nvm_alloc_raced r0 r c0 c k size :
  region_at r0 c0 → region_at r c → base_addr r = base_addr r0 → FILESIZE r = FILESIZE r0 →
  3 ≤ k < 48 → 0 < size < 2 ^ 62 →
  let start := align_up c0 (2 ^ k) in
  __nvm_region_allocator r0 (rf_curr (rfile r)) (2 ^ k) size =
    if start + size <=? base_addr r + FILESIZE r then
      if decide (c0 = c) then (1, Some start, to_pptr_off (start + size) (base_addr r))
      else (0, None, rf_curr (rfile r))
    else (-1, None, rf_curr (rfile r)).
Proof.
  intros H0 H Eb Ef Hk Hs start. pose proof (region_at_curr _ _ H0) as Hcur.
  destruct H0 as (Hb & Hb0 & Hf & Hc & Hin). destruct H as (_ & _ & _ & Hc' & Hin').
  unfold addr_ok in *.
  assert (0 < 2 ^ k < 2 ^ 48) as [Hp Hp'].
  { split; [apply Z.pow_pos_nonneg; lia|apply Z.pow_lt_mono_r; lia]. }
  destruct (align_up_spec c0 (2 ^ k) Hp) as [Hst _]. fold start in Hst.
  unfold __nvm_region_allocator. rewrite region_bump_spec by lia. rewrite Hcur. cbn zeta. fold start.
  rewrite Eb, Ef. destruct (Z.leb_spec (start + size) (base_addr r0 + FILESIZE r0)) as [Hle|]; [|done].
  rewrite Hc', Eb. rewrite Eb, Ef in Hin'. case_decide as E.
  - rewrite <- E, cas_same by (unfold addr_ok; lia). done.
  - rewrite cas_other by (unfold addr_ok; lia || done). done.
Qed.

Lemma race_step_inv base fsize x y c :
  race_inv base fsize x c → race_step x y → ∃ c', c ≤ c' ∧ race_inv base fsize y c'.
Proof.
  intros [Hb Hf Hat Hpd Har] Hs. destruct Hs as [r pd ar t k size Hk Hsz|r pd ar t p code o raw Ht E];
    cbn [rc_region rc_pending rc_areas] in *.
  - exists c. split; [done|]. constructor; cbn; try done. intros t' p' Ht'.
    apply lookup_insert_Some in Ht' as [[<- <-]|[_ Ht']]; [|by apply (Hpd t')]. cbn.
    split_and!; try done; [by exists k|lia|lia|]. exists c. split; [done|lia].
  - destruct (Hpd t p Ht) as (Eb & Ef & (k & Hk & Ea) & Hsz & c0 & H0 & Hc0).
    rewrite Ea in E. rewrite (nvm_alloc_raced _ r c0 c k) in E by (done || congruence).
    assert (∀ t' p', delete t pd !! t' = Some p' → pd !! t' = Some p') as Hdel.
    { intros t' p' H. by apply lookup_delete_Some in H as [_ H]. }
    destruct (Z.leb_spec (align_up c0 (2 ^ k) + pd_size p) (base_addr r + FILESIZE r)) as [Hle|Hgt].
    + case_decide as Ec.
      * subst c0. injection E as <- <- <-. exists (align_up c (2 ^ k) + pd_size p).
        assert (0 < 2 ^ k) as Hp by (apply Z.pow_pos_nonneg; lia).
        destruct (align_up_spec c (2 ^ k) Hp) as [Hst _]. pose proof Hat as (_ & _ & _ & _ & Hr).
        split; [lia|]. constructor; cbn; try done.
        -- apply (region_at_set_curr r c); [done|lia].
        -- intros t' p' H. destruct (Hpd t' p' (Hdel _ _ H)) as (?&?&?&?&c1&?&?).
           split_and!; try done; try lia. exists c1. split; [done|lia].
        -- split_and!; try lia. eapply stacked_weaken; [|done]. lia.
      * injection E as <- <- <-. exists c. split; [done|]. rewrite set_curr_same.
        constructor; cbn; try done. intros t' p' H. by apply (Hpd t'), Hdel.
    + injection E as <- <- <-. exists c. split; [done|]. rewrite set_curr_same.
      constructor; cbn; try done. intros t' p' H. by apply (Hpd t'), Hdel.
Qed.

Lemma race_steps_inv base fsize x y c :
  race_inv base fsize x c → race_steps x y → ∃ c', c ≤ c' ∧ race_inv base fsize y c'.
Proof.
  intros H Hs. induction Hs as [x|x y z Hs IH Hst]; [by exists c|].
  destruct (IH H) as (c1 & Hle & H1). destruct (race_step_inv _ _ _ _ _ H1 Hst) as (c2 & Hle2 & H2).
  exists c2. split; [lia|done].
Qed.

Lemma race_start_inv r c : region_at r c → race_inv (base_addr r) (FILESIZE r) (mkRace r ∅ []) c.
Proof. intros H. constructor; cbn; try done. Qed.
