(* ===== verification/Meta.v ===== *)
(** * Metadata (src/BaseMeta.hpp, first part of src/BaseMeta.cpp)

    Cross-region pointers, counted cross-region pointers (the heads of the
    lock-free lists), the 64-bit anchor, descriptors, heaps, and the state of
    the whole allocator with its accessors. *)

From Stdlib Require Import ZArith Lia.
From stdpp Require Import base gmap numbers list.
From S2P Require Import Prelude Mem Config Pptr SizeClass Region.

Local Open Scope Z_scope.

(** ** [CrossPtr<T, idx>]: an offset from the start of region [idx] *)

(** The constructor from an absolute pointer maps null to offset 0... *)
Definition CrossPtr_ctor (rg : Regions) (idx : nat) (real_ptr : Z) : Z :=
  if real_ptr =? 0 then 0 else untranslate rg idx real_ptr.

(** ...while assignment from a pointer variable does not test for null. *)
Definition CrossPtr_assign (rg : Regions) (idx : nat) (p : Z) : Z := untranslate rg idx p.

Definition CrossPtr_is_null (off : Z) : bool := off =? 0.

(** The cast to an absolute pointer. *)
Definition CrossPtr_get (rg : Regions) (idx : nat) (off : Z) : Z :=
  if CrossPtr_is_null off then 0 else translate rg idx off.

(** [operator->] and [operator*] do not test for null. *)
Definition CrossPtr_deref (rg : Regions) (idx : nat) (off : Z) : Z := translate rg idx off.

(** [operator==] between two cross pointers compares the absolute pointers. *)
Definition CrossPtr_eqb (rg : Regions) (idx : nat) (off1 off2 : Z) : bool :=
  CrossPtr_get rg idx off1 =? CrossPtr_get rg idx off2.

(** ** [ptr_cnt<T>] and [AtomicCrossPtrCnt<T, idx>] *)

Record ptr_cnt := PtrCnt { get_ptr : Z; get_counter : Z }.

(** The word a pointer and a counter are packed into: 34 bits of counter over
    30 bits of offset. *)
Definition acpc_pack (rg : Regions) (idx : nat) (ptr cnt : Z) : Z :=
  let cnt_prefix := u64 (Z.shiftl cnt MAX_DESC_OFFSET_BITS) in
  if ptr =? 0 then cnt_prefix else Z.lor (untranslate rg idx ptr) cnt_prefix.

Definition acpc_unpack (rg : Regions) (idx : nat) (raw : Z) : ptr_cnt :=
  let cur_off := Z.land raw MAX_DESC_OFFSET_MASK in
  PtrCnt (if cur_off =? 0 then 0 else translate rg idx cur_off)
         (Z.shiftr raw MAX_DESC_OFFSET_BITS).

Definition acpc_ctor (rg : Regions) (idx : nat) (real_ptr counter : Z) : Z :=
  acpc_pack rg idx real_ptr counter.
Definition acpc_load (rg : Regions) (idx : nat) (raw : Z) : ptr_cnt := acpc_unpack rg idx raw.
Definition acpc_store (rg : Regions) (idx : nat) (desired : ptr_cnt) : Z :=
  acpc_pack rg idx (get_ptr desired) (get_counter desired).

(** [compare_exchange_strong]: result, new content, new [expected].
    [compare_exchange_weak] has the same body over the weak primitive, which
    may fail spuriously ([spurious]). *)
Definition acpc_cas_gen (spurious : bool) (rg : Regions) (idx : nat) (raw : Z)
    (expected desired : ptr_cnt) : bool * Z * ptr_cnt :=
  let old_off := acpc_pack rg idx (get_ptr expected) (get_counter expected) in
  let new_off := acpc_pack rg idx (get_ptr desired) (get_counter desired) in
  if (raw =? old_off) && negb spurious then (true, new_off, expected)
  else (false, raw, acpc_unpack rg idx raw).

Definition acpc_cas_strong : Regions → nat → Z → ptr_cnt → ptr_cnt → bool * Z * ptr_cnt :=
  acpc_cas_gen false.
Definition acpc_cas_weak : bool → Regions → nat → Z → ptr_cnt → ptr_cnt → bool * Z * ptr_cnt :=
  acpc_cas_gen.

(** ** [Anchor] *)

(** [enum SuperblockState]. *)
Inductive SuperblockState := SB_ERROR | SB_FULL | SB_PARTIAL | SB_EMPTY.

#[export] Instance SuperblockState_eq_dec : EqDecision SuperblockState.
Proof. solve_decision. Defined.

Definition state_code (st : SuperblockState) : Z :=
  match st with SB_ERROR => 0 | SB_FULL => 1 | SB_PARTIAL => 2 | SB_EMPTY => 3 end.

Definition state_of_code (z : Z) : SuperblockState :=
  if z =? 1 then SB_FULL else if z =? 2 then SB_PARTIAL
  else if z =? 3 then SB_EMPTY else SB_ERROR.

(** [uint64_t avail:31, count:31, state:2]; the setters truncate. *)
Record Anchor := mkAnchor { avail : Z; count : Z; astate : SuperblockState }.

#[export] Instance Anchor_eq_dec : EqDecision Anchor.
Proof. solve_decision. Defined.

Definition set_avail (a : Anchor) (v : Z) : Anchor := mkAnchor (wrap 31 v) (count a) (astate a).
Definition set_count (a : Anchor) (v : Z) : Anchor := mkAnchor (avail a) (wrap 31 v) (astate a).
Definition set_astate (a : Anchor) (st : SuperblockState) : Anchor :=
  mkAnchor (avail a) (count a) st.

(** The 64-bit word of an anchor (fields from the least significant bit) and
    [Anchor(uint64_t a)]. *)
Definition anchor_word (a : Anchor) : Z :=
  Z.lor (avail a) (Z.lor (Z.shiftl (count a) 31) (Z.shiftl (state_code (astate a)) 62)).

Definition Anchor_of_word (w : Z) : Anchor :=
  mkAnchor (Z.land w (2 ^ 31 - 1)) (Z.land (Z.shiftr w 31) (2 ^ 31 - 1))
    (state_of_code (Z.land (Z.shiftr w 62) 3)).

Definition anchor_ok (a : Anchor) : Prop := 0 ≤ avail a < 2 ^ 31 ∧ 0 ≤ count a < 2 ^ 31.

(** ** [Descriptor], [ProcHeap], [TCacheBin] *)

Record Descriptor := mkDesc {
  next_free : Z;      (* atomic_pptr at offset 0 *)
  next_partial : Z;   (* atomic_pptr at offset 8 *)
  anchor : Anchor;
  superblock : Z;     (* CrossPtr<char, SB_IDX> *)
  heap : Z;           (* CrossPtr<ProcHeap, META_IDX> *)
  dblock_size : Z;    (* uint32_t *)
  maxcount : Z        (* uint32_t *)
}.

(** Memory of the descriptor region before any construction: all zero. *)
Definition desc_zero : Descriptor := mkDesc 0 0 (Anchor_of_word 0) 0 0 0 0.

(** [Descriptor::Descriptor()]. *)
Definition Descriptor_ctor : Descriptor :=
  mkDesc PPTR_PATTERN_POS PPTR_PATTERN_POS (Anchor_of_word 0) 0 0 0 0.

Record ProcHeap := mkHeap { partial_list : Z; sc_idx : Z }.

Record TCacheBin := mkBin { _block : Z; _block_num : Z }.

Definition TCacheBin_ctor : TCacheBin := mkBin 0 0.

(** ** The state of the allocator *)

(** What happens to the persistent metadata, newest first: stores to a descriptor, a
    heap, a root and the end pointer of a region (with what is there afterwards),
    write-backs ([FLUSH(addr)], on a stack variable [EFlushLocal]) and fences. *)
Inductive pevent :=
| WDesc (d : Z) (v : Descriptor)
| WHeap (c : Z) (v : ProcHeap)
| WRoot (i v : Z)
| WEnd (index : nat) (raw : Z)
| EFlush (a : Z)
| EFlushLocal
| EFence.

Record state := mkState {
  smem : mem;                          (* content of the superblock region *)
  descs : gmap Z Descriptor;           (* descriptor region, by address *)
  avail_sb : Z;                        (* raw AtomicCrossPtrCnt *)
  heaps : gmap Z ProcHeap;             (* heaps[MAX_SZ_IDX] *)
  roots : gmap Z Z;                    (* roots[MAX_ROOTS], raw CrossPtr *)
  t_caches : gmap (nat * Z) TCacheBin; (* thread_local t_cache[sc_idx] *)
  rgs : Regions;                       (* _rgs *)
  plog : list pevent
}.

Definition upd_mem (f : mem → mem) (s : state) : state :=
  mkState (f (smem s)) (descs s) (avail_sb s) (heaps s) (roots s) (t_caches s) (rgs s) (plog s).
Definition upd_descs (f : gmap Z Descriptor → gmap Z Descriptor) (s : state) : state :=
  mkState (smem s) (f (descs s)) (avail_sb s) (heaps s) (roots s) (t_caches s) (rgs s) (plog s).
Definition set_avail_sb (v : Z) (s : state) : state :=
  mkState (smem s) (descs s) v (heaps s) (roots s) (t_caches s) (rgs s) (plog s).
Definition upd_heaps (f : gmap Z ProcHeap → gmap Z ProcHeap) (s : state) : state :=
  mkState (smem s) (descs s) (avail_sb s) (f (heaps s)) (roots s) (t_caches s) (rgs s) (plog s).
Definition upd_roots (f : gmap Z Z → gmap Z Z) (s : state) : state :=
  mkState (smem s) (descs s) (avail_sb s) (heaps s) (f (roots s)) (t_caches s) (rgs s) (plog s).
Definition upd_caches (f : gmap (nat * Z) TCacheBin → gmap (nat * Z) TCacheBin) (s : state)
  : state :=
  mkState (smem s) (descs s) (avail_sb s) (heaps s) (roots s) (f (t_caches s)) (rgs s) (plog s).
Definition set_rgs (v : Regions) (s : state) : state :=
  mkState (smem s) (descs s) (avail_sb s) (heaps s) (roots s) (t_caches s) v (plog s).
Definition log (e : pevent) (s : state) : state :=
  mkState (smem s) (descs s) (avail_sb s) (heaps s) (roots s) (t_caches s) (rgs s) (e :: plog s).

Definition get_desc (s : state) (d : Z) : Descriptor := default desc_zero (descs s !! d).
Definition put_desc (d : Z) (v : Descriptor) (s : state) : state := log (WDesc d v) (upd_descs <[d := v]> s).
Definition get_heap (s : state) (c : Z) : ProcHeap := default (mkHeap 0 0) (heaps s !! c).
Definition put_heap (c : Z) (v : ProcHeap) (s : state) : state := log (WHeap c v) (upd_heaps <[c := v]> s).
Definition get_bin (s : state) (t : nat) (c : Z) : TCacheBin :=
  default TCacheBin_ctor (t_caches s !! (t, c)).
Definition put_bin (t : nat) (c : Z) (v : TCacheBin) : state → state := upd_caches <[(t, c) := v]>.
Definition get_root_raw (s : state) (i : Z) : Z := default 0 (roots s !! i).
Definition put_root (i v : Z) (s : state) : state := log (WRoot i v) (upd_roots <[i := v]> s).
(** The table of regions after a store to the end pointer of region [index]. *)
Definition put_end (index : nat) (rg : Regions) (s : state) : state :=
  log (WEnd index (rf_curr (rfile (rget rg index)))) (set_rgs rg s).

Abbreviation M := (ST state).

Definition FLUSH (a : Z) : M unit := st_mod (log (EFlush a)).
Definition FLUSH_LOCAL : M unit := st_mod (log EFlushLocal).
Definition FLUSHFENCE : M unit := st_mod (log EFence).

(** Updates of single descriptor fields. *)
Definition with_next_free (v : Z) (x : Descriptor) : Descriptor :=
  mkDesc v (next_partial x) (anchor x) (superblock x) (heap x) (dblock_size x) (maxcount x).
Definition with_next_partial (v : Z) (x : Descriptor) : Descriptor :=
  mkDesc (next_free x) v (anchor x) (superblock x) (heap x) (dblock_size x) (maxcount x).
Definition with_anchor (v : Anchor) (x : Descriptor) : Descriptor :=
  mkDesc (next_free x) (next_partial x) v (superblock x) (heap x) (dblock_size x) (maxcount x).
Definition with_superblock (v : Z) (x : Descriptor) : Descriptor :=
  mkDesc (next_free x) (next_partial x) (anchor x) v (heap x) (dblock_size x) (maxcount x).
Definition with_heap (v : Z) (x : Descriptor) : Descriptor :=
  mkDesc (next_free x) (next_partial x) (anchor x) (superblock x) v (dblock_size x) (maxcount x).
(** [uint32_t block_size]. *)
Definition with_block_size (v : Z) (x : Descriptor) : Descriptor :=
  mkDesc (next_free x) (next_partial x) (anchor x) (superblock x) (heap x) (u32 v) (maxcount x).
Definition with_maxcount (v : Z) (x : Descriptor) : Descriptor :=
  mkDesc (next_free x) (next_partial x) (anchor x) (superblock x) (heap x) (dblock_size x) (u32 v).

Definition upd_desc (d : Z) (f : Descriptor → Descriptor) (s : state) : state :=
  put_desc d (f (get_desc s d)) s.

(** [desc->next_free.store(v)] and [.load()]: the cell's own address is [d]. *)
Definition next_free_store (d v : Z) : M unit :=
  st_mod (upd_desc d (with_next_free (atomic_pptr_store d v))).
Definition next_free_load (s : state) (d : Z) : Z := atomic_pptr_load d (next_free (get_desc s d)).
(** [next_partial] is at offset 8. *)
Definition next_partial_store (d v : Z) : M unit :=
  st_mod (upd_desc d (with_next_partial (atomic_pptr_store (d + 8) v))).
Definition next_partial_load (s : state) (d : Z) : Z :=
  atomic_pptr_load (d + 8) (next_partial (get_desc s d)).

(** Placement of [heaps[c]] in [BaseMeta]: after [avail_sb], [dirty_attr] and
    [dirty_mtx] (8, 4 and 40 bytes), at the next cache line; a [ProcHeap] is one
    cache line. *)
Definition HEAPS_OFFSET : Z := 64.
Definition heap_addr (rg : Regions) (c : Z) : Z :=
  u64 (rlookup rg META_IDX + HEAPS_OFFSET + c * CACHELINE_SIZE).
(** The index of the heap at an address. *)
Definition heap_index (rg : Regions) (h : Z) : Z :=
  u64 (h - rlookup rg META_IDX - HEAPS_OFFSET) / CACHELINE_SIZE.

(** [BaseMeta::desc_lookup] and [BaseMeta::sb_lookup]. *)
Definition desc_lookup (rg : Regions) (ptr : Z) : Z :=
  let sb_index := u64 (Z.shiftr ptr SB_SHIFT - Z.shiftr (rlookup rg SB_IDX) SB_SHIFT) in
  u64 (rlookup rg DESC_IDX + sb_index * DESCSIZE).

Definition sb_lookup (rg : Regions) (desc : Z) : Z :=
  let desc_index := u64 (Z.shiftr desc DESC_SHIFT - Z.shiftr (rlookup rg DESC_IDX) DESC_SHIFT) in
  u64 (rlookup rg SB_IDX + u64 (Z.shiftl desc_index SB_SHIFT)).

(** [BaseMeta::round_up]: its [assert] demands a power of two. *)
Definition round_up (numToRound multiple : Z) : outcome Z :=
  if negb (multiple =? 0) && (Z.land multiple (u64 (multiple - 1)) =? 0)
  then Ok (Z.land (u64 (numToRound + multiple - 1)) (u64 (Z.lnot (multiple - 1))))
  else Fail.

(** The fields of a descriptor that recovery relies on; the anchor and the two
    links are rebuilt. *)
Definition pers (d : Descriptor) : Z * Z * Z * Z :=
  (heap d, superblock d, dblock_size d, maxcount d).

Lemma pers_eq d d' : pers d = pers d' →
  heap d = heap d' ∧ superblock d = superblock d' ∧ dblock_size d = dblock_size d' ∧ maxcount d = maxcount d'.
Proof. unfold pers. by intros [= -> -> -> ->]. Qed.
