(* ===== verification/MetaFacts.v ===== *)
(** * Facts about the metadata encodings

    Where the three regions lie ([geom]), the superblock and descriptor
    addresses by index, and the encodings of Meta.v as arithmetic. *)

From Stdlib Require Import ZArith Lia.
From stdpp Require Import base gmap numbers list.
From S2P Require Import Prelude Mem Config Pptr SizeClass Region Meta.

Local Open Scope Z_scope.

(** ** Anchors *)

Lemma anchor_word_arith a :
  anchor_ok a →
  anchor_word a = avail a + 2 ^ 31 * count a + 2 ^ 62 * state_code (astate a).
Proof.
  intros [Ha Hc]. unfold anchor_word.
  rewrite (Z.lor_comm (Z.shiftl (count a) 31)).
  replace (Z.shiftl (state_code (astate a)) 62)
    with (Z.shiftl (Z.shiftl (state_code (astate a)) 31) 31)
    by (rewrite Z.shiftl_shiftl by lia; done).
  rewrite <- Z.shiftl_lor, lor_shift by lia. rewrite lor_shift_r by lia.
  change (2 ^ 62) with (2 ^ 31 * 2 ^ 31). lia.
Qed.

Lemma state_code_range st : 0 ≤ state_code st < 4.
Proof. destruct st; cbn; lia. Qed.

Lemma state_of_code_code st : state_of_code (state_code st) = st.
Proof. by destruct st. Qed.

Lemma anchor_of_word_word a : anchor_ok a → Anchor_of_word (anchor_word a) = a.
Proof.
  intros Hok. rewrite anchor_word_arith by done. destruct Hok as [Ha Hc].
  pose proof (state_code_range (astate a)) as Hs.
  destruct a as [av c st]. cbn [avail count astate] in *. unfold Anchor_of_word.
  rewrite !Z.shiftr_div_pow2 by lia. rewrite !land_mask by lia.
  assert (av + 2 ^ 31 * c + 2 ^ 62 * state_code st = av + (c + 2 ^ 31 * state_code st) * 2 ^ 31)
    as -> by lia.
  assert ((av + (c + 2 ^ 31 * state_code st) * 2 ^ 31) / 2 ^ 62 = state_code st) as E.
  { change (2 ^ 62) with (2 ^ 31 * 2 ^ 31). rewrite <- Z.div_div by lia.
    rewrite Z.div_add by lia. rewrite (Z.div_small av) by lia. rewrite Z.add_0_l.
    rewrite (Z.mul_comm (2 ^ 31)), Z.div_add by lia. rewrite (Z.div_small c) by lia. done. }
  rewrite E. rewrite Z.mod_add, Z.div_add by lia. rewrite (Z.div_small av) by lia.
  rewrite Z.add_0_l, (Z.mul_comm (2 ^ 31)), Z.mod_add by lia.
  rewrite !Z.mod_small by lia. f_equal. change 3 with (2 ^ 2 - 1).
  rewrite land_mask by lia. rewrite Z.mod_small by lia. apply state_of_code_code.
Qed.

Lemma anchor_word_range a : anchor_ok a → 0 ≤ anchor_word a < 2 ^ 64.
Proof.
  intros Hok. rewrite anchor_word_arith by done. destruct Hok.
  pose proof (state_code_range (astate a)). lia.
Qed.

(** ** Rounding *)

Lemma round_up_spec n k :
  0 ≤ k < 64 → 0 ≤ n → n + 2 ^ k - 1 < 2 ^ 64 → round_up n (2 ^ k) = Ok (align_up n (2 ^ k)).
Proof.
  intros Hk Hn Hb. assert (0 < 2 ^ k < 2 ^ 64) as [Hp Hp'].
  { split; [apply Z.pow_pos_nonneg; lia|apply Z.pow_lt_mono_r; lia]. }
  unfold round_up. rewrite (proj2 (Z.eqb_neq _ _)) by lia.
  rewrite u64_small by lia. rewrite land_mask by lia. rewrite Z.mod_same by lia. cbn.
  by rewrite align_up_mask.
Qed.

(** ** Geometry *)

(** Descriptor region at [db], superblock region at [sb], metadata at [mb], all
    in user-space addresses; the superblock region is superblock-aligned. The
    address of the metadata region is null until its constructor has run. *)
Record geom (db sb mb : Z) : Prop := {
  g_db0 : 0 < db;
  g_dbal : db mod DESCSIZE = 0;
  g_dbmax : db + MAX_DESC_REGION_SIZE ≤ 2 ^ 47;
  g_sb0 : 0 < sb;
  g_sbal : sb mod SBSIZE = 0;
  g_sbmax : sb + MAX_SB_REGION_SIZE ≤ 2 ^ 47;
  g_mb0 : 0 ≤ mb;
  g_mbmax : mb + 2 ^ 20 ≤ 2 ^ 47
}.

Definition rg_at (rg : Regions) (db sb mb : Z) : Prop := regions_address rg = [db; sb; mb].

(** The [i]-th descriptor and the [i]-th superblock. *)
Definition D (db i : Z) : Z := db + i * DESCSIZE.
Definition B (sb i : Z) : Z := sb + i * SBSIZE.

Section Geometry.
Context (db sb mb : Z) (HG : geom db sb mb).
Context (rg : Regions) (Hrg : rg_at rg db sb mb).

Lemma rlookup_desc : rlookup rg DESC_IDX = db.
Proof using Hrg. unfold rlookup. by rewrite Hrg. Qed.
Lemma rlookup_sb : rlookup rg SB_IDX = sb.
Proof using Hrg. unfold rlookup. by rewrite Hrg. Qed.
Lemma rlookup_meta : rlookup rg META_IDX = mb.
Proof using Hrg. unfold rlookup. by rewrite Hrg. Qed.

Lemma D_ok i : 0 ≤ i < MAX_DESC_AMOUNT → 0 < D db i < 2 ^ 47.
Proof using HG.
  destruct HG. unfold D. change MAX_DESC_AMOUNT with (2 ^ 24).
  change MAX_DESC_REGION_SIZE with (2 ^ 30) in *. change DESCSIZE with 64. lia.
Qed.

Lemma D_addr_ok i : 0 ≤ i < MAX_DESC_AMOUNT → addr_ok (D db i) ∧ addr_ok (D db i + 8).
Proof using HG. intros Hi. pose proof (D_ok i Hi). unfold addr_ok. lia. Qed.

Lemma D_inj i j : D db i = D db j → i = j.
Proof using. unfold D. change DESCSIZE with 64. lia. Qed.

Lemma B_ok i : 0 ≤ i ≤ MAX_SB_AMOUNT → 0 < B sb i ≤ 2 ^ 47.
Proof using HG.
  destruct HG. unfold B. change MAX_SB_AMOUNT with (2 ^ 24).
  change MAX_SB_REGION_SIZE with (2 ^ 40) in *. change SBSIZE with (2 ^ 16). lia.
Qed.

(** The descriptor of any address of superblock [i]. *)
Lemma desc_lookup_sb i p :
  0 ≤ i < MAX_DESC_AMOUNT → B sb i ≤ p < B sb (i + 1) → desc_lookup rg p = D db i.
Proof using HG Hrg.
  intros Hi Hp. pose proof (D_ok i Hi). pose proof (B_ok (i + 1)) as HB.
  change MAX_SB_AMOUNT with (2 ^ 24) in HB. change MAX_DESC_AMOUNT with (2 ^ 24) in Hi.
  destruct HG. unfold desc_lookup. rewrite rlookup_desc, rlookup_sb.
  unfold SB_SHIFT. rewrite !Z.shiftr_div_pow2 by lia.
  unfold B in *. change SBSIZE with (2 ^ 16) in *.
  assert (p / 2 ^ 16 = sb / 2 ^ 16 + i) as ->.
  { pose proof (Z.div_mod sb (2 ^ 16) ltac:(lia)).
    symmetry. apply (Z.div_unique_pos _ _ _ (p - (sb + i * 2 ^ 16))); lia. }
  rewrite (u64_small (_ - _)) by lia.
  replace (sb / 2 ^ 16 + i - sb / 2 ^ 16) with i by lia.
  fold (D db i). apply u64_small. lia.
Qed.

Lemma sb_lookup_D i : 0 ≤ i < MAX_DESC_AMOUNT → sb_lookup rg (D db i) = B sb i.
Proof using HG Hrg.
  intros Hi. pose proof (D_ok i Hi). pose proof (B_ok i) as HB.
  change MAX_SB_AMOUNT with (2 ^ 24) in HB. change MAX_DESC_AMOUNT with (2 ^ 24) in Hi.
  destruct HG. unfold sb_lookup. rewrite rlookup_desc, rlookup_sb.
  unfold DESC_SHIFT. rewrite !Z.shiftr_div_pow2 by lia.
  assert (D db i / 2 ^ 6 = db / 2 ^ 6 + i) as ->.
  { unfold D. change DESCSIZE with (2 ^ 6). rewrite Z.div_add by lia. lia. }
  rewrite (u64_small (_ - _)) by lia.
  replace (db / 2 ^ 6 + i - db / 2 ^ 6) with i by lia.
  unfold SB_SHIFT. rewrite Z.shiftl_mul_pow2 by lia.
  rewrite (u64_small (i * _)) by lia. unfold B in *. change SBSIZE with (2 ^ 16) in *.
  apply u64_small. lia.
Qed.

Lemma untranslate_translate idx p :
  0 ≤ p < 2 ^ 64 → translate rg idx (untranslate rg idx p) = p.
Proof using.
  intros Hp. unfold translate, untranslate, u64.
  rewrite Zplus_mod_idemp_r. rewrite Z.add_sub_assoc, Z.add_simpl_l. by apply u64_small.
Qed.

Lemma translate_untranslate idx off :
  0 ≤ off < 2 ^ 64 → untranslate rg idx (translate rg idx off) = off.
Proof using.
  intros Hp. unfold translate, untranslate, u64.
  rewrite Zminus_mod_idemp_l. rewrite Z.add_simpl_l. by apply u64_small.
Qed.

Lemma acpc_pack_arith i cnt :
  0 < i < MAX_DESC_AMOUNT → 0 ≤ cnt →
  acpc_pack rg DESC_IDX (D db i) cnt = (cnt mod 2 ^ 34) * 2 ^ 30 + i * DESCSIZE.
Proof using HG Hrg.
  intros Hi Hc. pose proof (D_ok i ltac:(lia)). unfold acpc_pack.
  rewrite (proj2 (Z.eqb_neq _ _)) by lia. unfold untranslate. rewrite rlookup_desc.
  unfold D. change MAX_DESC_OFFSET_BITS with 30.
  replace (db + i * DESCSIZE - db) with (i * DESCSIZE) by lia.
  change DESCSIZE with 64 in *. change MAX_DESC_AMOUNT with (2 ^ 24) in *.
  rewrite (u64_small (i * 64)) by lia.
  replace (u64 (Z.shiftl cnt 30)) with (Z.shiftl (cnt mod 2 ^ 34) 30).
  - apply lor_shift_r; lia.
  - rewrite !Z.shiftl_mul_pow2 by lia. unfold u64. change (2 ^ 64) with (2 ^ 34 * 2 ^ 30).
    rewrite Z.mul_mod_distr_r by lia. done.
Qed.

Lemma acpc_pack_null cnt :
  0 ≤ cnt → acpc_pack rg DESC_IDX 0 cnt = (cnt mod 2 ^ 34) * 2 ^ 30.
Proof using.
  intros Hc. unfold acpc_pack. cbn [Z.eqb]. change MAX_DESC_OFFSET_BITS with 30.
  rewrite Z.shiftl_mul_pow2 by lia. unfold u64. change (2 ^ 64) with (2 ^ 34 * 2 ^ 30).
  by rewrite Z.mul_mod_distr_r by lia.
Qed.

Lemma acpc_unpack_arith c off :
  0 ≤ c < 2 ^ 34 → 0 ≤ off < 2 ^ 30 →
  acpc_unpack rg DESC_IDX (c * 2 ^ 30 + off) = PtrCnt (if off =? 0 then 0 else db + off) c.
Proof using HG Hrg.
  intros Hc Ho. unfold acpc_unpack. destruct HG.
  replace MAX_DESC_OFFSET_MASK with (2 ^ 30 - 1) by done. rewrite land_mask by lia.
  change MAX_DESC_OFFSET_BITS with 30. rewrite Z.shiftr_div_pow2 by lia.
  rewrite Z.add_comm, Z.mod_add, Z.div_add by lia.
  rewrite Z.mod_small, Z.div_small by lia. unfold translate. rewrite rlookup_desc.
  change MAX_DESC_REGION_SIZE with (2 ^ 30) in *. by rewrite u64_small by lia.
Qed.

(** Loading what was stored: the pointer, and the counter modulo [2^34]. *)
Lemma acpc_unpack_pack i cnt :
  0 < i < MAX_DESC_AMOUNT → 0 ≤ cnt →
  acpc_unpack rg DESC_IDX (acpc_pack rg DESC_IDX (D db i) cnt) =
    PtrCnt (D db i) (cnt mod 2 ^ 34).
Proof using HG Hrg.
  intros Hi Hc. rewrite acpc_pack_arith by done.
  change DESCSIZE with 64. change MAX_DESC_AMOUNT with (2 ^ 24) in *.
  pose proof (Z.mod_pos_bound cnt (2 ^ 34)).
  rewrite acpc_unpack_arith by lia. by rewrite (proj2 (Z.eqb_neq _ _)) by lia.
Qed.

Lemma acpc_unpack_null cnt :
  0 ≤ cnt →
  acpc_unpack rg DESC_IDX (acpc_pack rg DESC_IDX 0 cnt) = PtrCnt 0 (cnt mod 2 ^ 34).
Proof using HG Hrg.
  intros Hc. rewrite acpc_pack_null by done. pose proof (Z.mod_pos_bound cnt (2 ^ 34)).
  rewrite <- (Z.add_0_r (_ * _)). by rewrite acpc_unpack_arith by lia.
Qed.

Lemma acpc_pack_wrap p cnt :
  0 ≤ cnt → acpc_pack rg DESC_IDX p (cnt mod 2 ^ 34) = acpc_pack rg DESC_IDX p cnt.
Proof using.
  intros Hc. unfold acpc_pack. change MAX_DESC_OFFSET_BITS with 30.
  replace (u64 (Z.shiftl (cnt mod 2 ^ 34) 30)) with (u64 (Z.shiftl cnt 30)); [done|].
  rewrite !Z.shiftl_mul_pow2 by (try apply Z.mod_pos_bound; lia). unfold u64.
  change (2 ^ 64) with (2 ^ 34 * 2 ^ 30). rewrite !Z.mul_mod_distr_r by lia.
  by rewrite Z.mod_mod by lia.
Qed.

(** Every 64-bit word re-encodes to itself. *)
Lemma acpc_pack_unpack raw :
  0 ≤ raw < 2 ^ 64 →
  let pc := acpc_unpack rg DESC_IDX raw in
  acpc_pack rg DESC_IDX (get_ptr pc) (get_counter pc) = raw.
Proof using HG Hrg.
  intros Hr. pose proof (Z.div_mod raw (2 ^ 30) ltac:(lia)) as Hdm.
  pose proof (Z.mod_pos_bound raw (2 ^ 30) ltac:(lia)) as Hm.
  assert (0 ≤ raw / 2 ^ 30 < 2 ^ 34) as Hq.
  { split; [apply Z.div_pos; lia|apply Z.div_lt_upper_bound; lia]. }
  set (c := raw / 2 ^ 30) in *. set (off := raw mod 2 ^ 30) in *.
  replace raw with (c * 2 ^ 30 + off) by lia. rewrite acpc_unpack_arith by lia.
  cbn [get_ptr get_counter]. destruct HG.
  change MAX_DESC_REGION_SIZE with (2 ^ 30) in *.
  destruct (Z.eqb_spec off 0) as [->|].
  - rewrite acpc_pack_null by lia. rewrite Z.mod_small by lia. lia.
  - unfold acpc_pack. rewrite (proj2 (Z.eqb_neq _ _)) by lia.
    unfold untranslate. rewrite rlookup_desc. rewrite Z.add_simpl_l.
    change MAX_DESC_OFFSET_BITS with 30. rewrite (u64_small off) by lia.
    rewrite (u64_small (Z.shiftl _ _)).
    + rewrite lor_shift_r by lia. done.
    + rewrite Z.shiftl_mul_pow2 by lia. lia.
Qed.

(** Cross pointers to the superblock and metadata regions. *)
Lemma cross_get_assign idx p :
  0 ≤ p < 2 ^ 64 → p ≠ rlookup rg idx → 0 ≤ rlookup rg idx < 2 ^ 64 →
  CrossPtr_get rg idx (CrossPtr_assign rg idx p) = p.
Proof using.
  intros Hp Hne Hb. unfold CrossPtr_get, CrossPtr_is_null, CrossPtr_assign.
  destruct (Z.eqb_spec (untranslate rg idx p) 0) as [E|E].
  - exfalso. unfold untranslate, u64 in E.
    apply Z.mod_divide in E as [q Hq]; [|lia]. assert (q = 0) by nia. lia.
  - by apply untranslate_translate.
Qed.

Lemma heap_index_addr c : 0 ≤ c < MAX_SZ_IDX → heap_index rg (heap_addr rg c) = c.
Proof using HG Hrg.
  intros Hc. destruct HG. unfold heap_index, heap_addr. rewrite rlookup_meta.
  unfold HEAPS_OFFSET. change CACHELINE_SIZE with 64. change MAX_SZ_IDX with 40 in Hc.
  rewrite (u64_small (mb + 64 + c * 64)) by lia.
  replace (mb + 64 + c * 64 - mb - 64) with (c * 64) by lia.
  rewrite u64_small by lia. by apply Z.div_mul.
Qed.

Lemma heap_addr_range c :
  0 ≤ c < MAX_SZ_IDX → mb < heap_addr rg c < 2 ^ 48.
Proof using HG Hrg.
  intros Hc. destruct HG. unfold heap_addr. rewrite rlookup_meta.
  unfold HEAPS_OFFSET. change CACHELINE_SIZE with 64. change MAX_SZ_IDX with 40 in Hc.
  rewrite u64_small; lia.
Qed.
End Geometry.
