(* ===== verification/TCache.v ===== *)
(** * Thread caches (src/TCache.hpp, src/TCache.cpp)

    A cache bin is the absolute address of its first block and a block count;
    the blocks are linked by the pptr in their first word. The bins of thread
    [t] are [t_caches !! (t, sc_idx)]. *)

From Stdlib Require Import ZArith Lia.
From stdpp Require Import base gmap numbers list.
From S2P Require Import Prelude Mem Config Pptr SizeClass Region Meta.

Local Open Scope Z_scope.

Definition push_block (t : nat) (c block : Z) : M unit :=
  bin ← st_gets (λ s, get_bin s t c);
  st_mod (upd_mem (λ m, pstore m block (_block bin)));;
  st_mod (put_bin t c (mkBin block (u32 (_block_num bin + 1)))).

Definition push_list (t : nat) (c block length : Z) : M unit :=
  bin ← st_gets (λ s, get_bin s t c);
  st_assert (_block_num bin =? 0);;
  st_mod (put_bin t c (mkBin block (u32 length))).

Definition pop_block (t : nat) (c : Z) : M Z :=
  bin ← st_gets (λ s, get_bin s t c);
  st_assert (0 <? _block_num bin);;
  next ← st_gets (λ s, pload (smem s) (_block bin));
  st_mod (put_bin t c (mkBin next (u32 (_block_num bin - 1))));;
  mret (_block bin).

Definition pop_list (t : nat) (c block length : Z) : M unit :=
  bin ← st_gets (λ s, get_bin s t c);
  st_assert (length <=? _block_num bin);;
  st_mod (put_bin t c (mkBin block (u32 (_block_num bin - length)))).

Definition get_block_num (s : state) (t : nat) (c : Z) : Z := _block_num (get_bin s t c).
Definition peek_block (s : state) (t : nat) (c : Z) : Z := _block (get_bin s t c).
