(* ===== verification/Heap.v ===== *)
(** * The allocator (src/BaseMeta.cpp)

    Superblock lists, cache fill and flush, [do_malloc] and [do_free], as one
    thread executes them while the others stand still; [t] is the executing
    thread. Every loop takes the same [fuel]. A weak compare-and-swap is
    executed as a strong one. *)

From Stdlib Require Import ZArith Lia.
From stdpp Require Import base gmap numbers list.
From S2P Require Import Prelude Mem Config Pptr SizeClass Region Meta TCache.

Local Open Scope Z_scope.

(** [new (desc) Descriptor()]. *)
Definition construct_desc (d : Z) : M unit :=
  st_mod (put_desc d Descriptor_ctor);; FLUSH d;; FLUSHFENCE.

(** [avail_sb.compare_exchange_*(oldhead, newhead)]. *)
Definition avail_sb_cas (oldhead newhead : ptr_cnt) : M (bool * ptr_cnt) :=
  s ← st_get;
  match acpc_cas_strong (rgs s) DESC_IDX (avail_sb s) oldhead newhead with
  | (b, raw, e) => st_mod (set_avail_sb raw);; mret (b, e)
  end.

(** [heaps[c].partial_list.compare_exchange_weak(oldhead, newhead)]. *)
Definition partial_list_cas (c : Z) (oldhead newhead : ptr_cnt) : M (bool * ptr_cnt) :=
  s ← st_get;
  match acpc_cas_strong (rgs s) DESC_IDX (partial_list (get_heap s c)) oldhead newhead with
  | (b, raw, e) => st_mod (put_heap c (mkHeap raw (sc_idx (get_heap s c))));; mret (b, e)
  end.

(** The publication loop of [organize_sb_list] and [small_sb_retire]: link
    [last] to the old head, make [first] the head. *)
Fixpoint avail_push_loop (fuel : nat) (first last : Z) (oldhead : ptr_cnt) : M unit :=
  match fuel with
  | O => st_nofuel
  | S fuel' =>
      next_free_store last (get_ptr oldhead);;
      '(ok, cur) ← avail_sb_cas oldhead (PtrCnt first (u64 (get_counter oldhead + 1)));
      if ok : bool then mret tt else avail_push_loop fuel' first last cur
  end.

Definition avail_load (s : state) : ptr_cnt := acpc_load (rgs s) DESC_IDX (avail_sb s).

(** The chain-building [for] of [organize_sb_list]; returns the last
    descriptor. *)
Fixpoint organize_loop (n : nat) (desc : Z) : M Z :=
  match n with
  | O => mret desc
  | S n' =>
      next_free_store desc (u64 (desc + DESCSIZE));;
      construct_desc (u64 (desc + DESCSIZE));;
      organize_loop n' (u64 (desc + DESCSIZE))
  end.

Definition organize_sb_list (fuel : nat) (start cnt : Z) : M unit :=
  rg ← st_gets rgs;
  let desc_start := desc_lookup rg start in
  construct_desc desc_start;;
  last ← organize_loop (Z.to_nat (cnt - 1)) desc_start;
  oldhead ← st_gets avail_load;
  avail_push_loop fuel desc_start last oldhead.

Definition small_sb_retire (fuel : nat) (sb size : Z) : M unit :=
  st_assert (size =? SBSIZE);;
  rg ← st_gets rgs;
  let desc := desc_lookup rg sb in
  construct_desc desc;;
  oldhead ← st_gets avail_load;
  avail_push_loop fuel desc desc oldhead.

(** The expansion inlined in [small_sb_alloc]; the [continue] when the list is
    found non-empty again goes back to the loop head with the old value of
    [oldhead]. [None]: try again. *)
Definition small_sb_expand (fuel : nat) : M (option Z) :=
  s ← st_get;
  let r := rget (rgs s) SB_IDX in
  let old_curr_addr := curr_addr r in
  let aln_adj := Z.land old_curr_addr (PAGESIZE - 1) in
  let res := if negb (aln_adj =? 0) then u64 (old_curr_addr + (PAGESIZE - aln_adj))
             else old_curr_addr in
  let next := u64 (res + SB_REGION_EXPAND_SIZE) in
  if negb (get_ptr (avail_load s) =? 0) then mret None
  else
    st_assert (negb (u64 (base_addr r + FILESIZE r) <? next));;
    FLUSH (base_addr r);; FLUSHFENCE;;
    match atomic_pptr_cas (base_addr r) (rf_curr (rfile r)) old_curr_addr next with
    | (ok, raw, _) =>
        st_mod (λ s, put_end SB_IDX (rput (rgs s) SB_IDX (set_curr r raw)) s);;
        if ok then
          FLUSH (base_addr r);; FLUSHFENCE;;
          organize_sb_list fuel (u64 (res + SBSIZE)) (SB_REGION_EXPAND_SIZE / SBSIZE - 1);;
          rg ← st_gets rgs;
          construct_desc (desc_lookup rg res);;
          mret (Some res)
        else mret None
    end.

Fixpoint small_sb_alloc_loop (fuel : nat) (oldhead : ptr_cnt) : M Z :=
  match fuel with
  | O => st_nofuel
  | S fuel' =>
      let oldptr := get_ptr oldhead in
      if negb (oldptr =? 0) then
        nf ← st_gets (λ s, next_free_load s oldptr);
        '(ok, cur) ← avail_sb_cas oldhead (PtrCnt nf (get_counter oldhead));
        if ok : bool then st_gets (λ s, sb_lookup (rgs s) oldptr)
        else small_sb_alloc_loop fuel' cur
      else
        o ← small_sb_expand fuel';
        match o with
        | Some res => mret res
        | None => small_sb_alloc_loop fuel' oldhead
        end
  end.

Definition small_sb_alloc (fuel : nat) (size : Z) : M Z :=
  if negb (size =? SBSIZE) then st_fail
  else
    oldhead ← st_gets avail_load;
    small_sb_alloc_loop fuel oldhead.

(** The write-backs of the end pointer in [__nvm_region_allocator], by its
    return code: before the compare-and-swap, [store], and again after a successful
    one. *)
Definition expand_flushes (r : RegionManager) (code : Z) (store : state → state) : M unit :=
  if code =? -1 then mret tt
  else
    FLUSH (base_addr r);; FLUSHFENCE;;
    st_mod store;;
    if code =? 1 then FLUSH (base_addr r);; FLUSHFENCE else mret tt.

(** The loop around [Regions::expand] in [expand_get_large_sb] and the
    constructor of [BaseMeta]. *)
Fixpoint expand_loop (fuel : nat) (index : nat) (alignment size : Z) : M Z :=
  match fuel with
  | O => st_nofuel
  | S fuel' =>
      rg ← st_gets rgs;
      match expand rg index alignment size with
      | (code, t, rg') =>
          expand_flushes (rget rg index) code (put_end index rg');;
          st_assert (negb (code =? -1));;
          if code =? 0 then expand_loop fuel' index alignment size
          else mret (default 0 t)
      end
  end.

Definition expand_get_large_sb (fuel : nat) (sz : Z) : M Z :=
  ret ← expand_loop fuel SB_IDX PAGESIZE sz;
  rg ← st_gets rgs;
  construct_desc (desc_lookup rg ret);;
  mret ret.

Definition large_sb_alloc (fuel : nat) (size : Z) : M Z := expand_get_large_sb fuel size.

Definition large_sb_retire (fuel : nat) (sb size : Z) : M unit :=
  st_assert (size mod SBSIZE =? 0);;
  organize_sb_list fuel sb (size / SBSIZE).

Definition alloc_large_block (fuel : nat) (sz : Z) : M Z := large_sb_alloc fuel sz.

(** ** Partial lists *)

Definition partial_load (s : state) (c : Z) : ptr_cnt :=
  acpc_load (rgs s) DESC_IDX (partial_list (get_heap s c)).

(** [ProcHeap* heap = desc->heap], as the index of the heap. *)
Definition desc_heap_idx (s : state) (desc : Z) : Z :=
  heap_index (rgs s) (CrossPtr_get (rgs s) META_IDX (heap (get_desc s desc))).

Fixpoint push_partial_loop (fuel : nat) (c desc : Z) (oldhead : ptr_cnt) : M unit :=
  match fuel with
  | O => st_nofuel
  | S fuel' =>
      let newhead := PtrCnt desc (u64 (get_counter oldhead + 1)) in
      st_assert (negb (get_ptr oldhead =? get_ptr newhead));;
      next_partial_store (get_ptr newhead) (get_ptr oldhead);;
      '(ok, cur) ← partial_list_cas c oldhead newhead;
      if ok : bool then mret tt else push_partial_loop fuel' c desc cur
  end.

Definition heap_push_partial (fuel : nat) (desc : Z) : M unit :=
  c ← st_gets (λ s, desc_heap_idx s desc);
  oldhead ← st_gets (λ s, partial_load s c);
  push_partial_loop fuel c desc oldhead.

Fixpoint pop_partial_loop (fuel : nat) (c : Z) (oldhead : ptr_cnt) : M Z :=
  match fuel with
  | O => st_nofuel
  | S fuel' =>
      let olddesc := get_ptr oldhead in
      if olddesc =? 0 then mret 0
      else
        desc ← st_gets (λ s, next_partial_load s olddesc);
        '(ok, cur) ← partial_list_cas c oldhead (PtrCnt desc (get_counter oldhead));
        if ok : bool then mret (get_ptr oldhead) else pop_partial_loop fuel' c cur
  end.

Definition heap_pop_partial (fuel : nat) (c : Z) : M Z :=
  oldhead ← st_gets (λ s, partial_load s c);
  pop_partial_loop fuel c oldhead.

(** ** Filling a cache *)

(** [desc->anchor.compare_exchange_weak(oldanchor, newanchor)]. *)
Definition anchor_cas (desc : Z) (oldanchor newanchor : Anchor) : M (bool * Anchor) :=
  cur ← st_gets (λ s, anchor (get_desc s desc));
  if decide (cur = oldanchor) then
    st_mod (upd_desc desc (with_anchor newanchor));; mret (true, oldanchor)
  else mret (false, cur).

(** The reservation loop: [None] when the superblock turned out empty and was
    retired ([goto retry]), otherwise the anchor that was replaced. *)
Fixpoint reserve_loop (fuel : nat) (desc sbaddr c mc : Z) (oldanchor : Anchor)
  : M (option Anchor) :=
  match fuel with
  | O => st_nofuel
  | S fuel' =>
      if decide (astate oldanchor = SB_EMPTY) then
        h ← st_gets (λ s, sc_idx (get_heap s c));
        small_sb_retire fuel' sbaddr (sb_size (get_sizeclass_by_idx h));;
        mret None
      else
        st_assert (bool_decide (astate oldanchor = SB_PARTIAL));;
        let newanchor := set_astate (set_avail (set_count oldanchor 0) mc) SB_FULL in
        '(ok, cur) ← anchor_cas desc oldanchor newanchor;
        if ok : bool then mret (Some oldanchor)
        else reserve_loop fuel' desc sbaddr c mc cur
  end.

(** [malloc_from_partial]: the number of blocks added to the cache. *)
Fixpoint malloc_from_partial (fuel : nat) (t : nat) (c : Z) : M Z :=
  match fuel with
  | O => st_nofuel
  | S fuel' =>
      desc ← heap_pop_partial fuel' c;
      if desc =? 0 then mret 0
      else
        s ← st_get;
        let d := get_desc s desc in
        let sbaddr := CrossPtr_get (rgs s) SB_IDX (superblock d) in
        o ← reserve_loop fuel' desc sbaddr c (maxcount d) (anchor d);
        match o with
        | None => malloc_from_partial fuel' t c
        | Some oldanchor =>
            let block_take := count oldanchor in
            let av := avail oldanchor in
            st_assert (av <? maxcount d);;
            let block := u64 (sbaddr + u32 (av * dblock_size d)) in
            num ← st_gets (λ s, get_block_num s t c);
            st_assert (num =? 0);;
            push_list t c block block_take;;
            mret block_take
        end
  end.

(** The block list of a fresh superblock. *)
Definition init_blocks (m : mem) (sbaddr bsz mc : Z) : mem :=
  foldl (λ m idx, pstore m (u64 (sbaddr + u32 (idx * bsz))) (u64 (sbaddr + u32 ((idx + 1) * bsz))))
    m (seqZ 0 (mc - 1)).

Definition malloc_from_newsb (fuel : nat) (t : nat) (c : Z) : M Z :=
  let sc := get_sizeclass_by_idx c in
  let bsz := block_size sc in
  let mc := block_num sc in
  sbaddr ← small_sb_alloc fuel (sb_size sc);
  st_assert (negb (sbaddr =? 0));;
  rg ← st_gets rgs;
  let desc := desc_lookup rg sbaddr in
  st_mod (upd_desc desc (with_heap (CrossPtr_assign rg META_IDX (heap_addr rg c))));;
  st_mod (upd_desc desc (with_block_size bsz));;
  st_mod (upd_desc desc (with_maxcount mc));;
  st_mod (upd_desc desc (with_superblock (CrossPtr_assign rg SB_IDX sbaddr)));;
  st_mod (upd_mem (λ m, init_blocks m sbaddr bsz mc));;
  push_list t c sbaddr mc;;
  let an := set_astate (set_count (set_avail (Anchor_of_word 0) mc) 0) SB_FULL in
  st_mod (upd_desc desc (with_anchor an));;
  FLUSH desc;; FLUSHFENCE;;
  st_assert ((avail an <? mc) || bool_decide (astate an = SB_FULL));;
  st_assert (count an <? mc);;
  st_assert (bool_decide (astate an = SB_FULL));;
  mret mc.

Definition fill_cache (fuel : nat) (t : nat) (c : Z) : M unit :=
  n ← malloc_from_partial fuel t c;
  block_num ← (if n =? 0 then malloc_from_newsb fuel t c else mret n);
  st_assert (0 <? block_num);;
  st_assert (block_num <=? cache_block_num (get_sizeclass_by_idx c)).

(** ** Flushing a cache *)

(** The inner [while]: extend the run of blocks of this superblock. *)
Fixpoint gather (fuel : nat) (m : mem) (bnum sbaddr sbsz block_count tail : Z)
  : outcome (Z * Z) :=
  match fuel with
  | O => NoFuel
  | S fuel' =>
      if block_count <? bnum then
        let ptr := pload m tail in
        if (ptr <? sbaddr) || (u64 (sbaddr + sbsz) <=? ptr) then Ok (block_count, tail)
        else gather fuel' m bnum sbaddr sbsz (block_count + 1) ptr
      else Ok (block_count, tail)
  end.

(** The new anchor computed from [oldanchor] when [block_count] blocks headed by
    block [idx] return to a superblock of [mc] blocks. *)
Definition flush_newanchor (oldanchor : Anchor) (idx block_count mc : Z) : Anchor :=
  let na := set_avail oldanchor idx in
  let na := if decide (astate oldanchor = SB_FULL) then set_astate na SB_PARTIAL else na in
  if count oldanchor + block_count =? mc
  then set_astate (set_count na (mc - 1)) SB_EMPTY
  else set_count na (count na + block_count).

Fixpoint flush_anchor_loop (fuel : nat) (desc sbaddr bsz tail idx block_count : Z)
    (oldanchor : Anchor) : M (Anchor * Anchor) :=
  match fuel with
  | O => st_nofuel
  | S fuel' =>
      let next := u64 (sbaddr + u32 (avail oldanchor * bsz)) in
      st_mod (upd_mem (λ m, pstore m tail next));;
      mc ← st_gets (λ s, maxcount (get_desc s desc));
      st_assert (count oldanchor <? mc);;
      let newanchor := flush_newanchor oldanchor idx block_count mc in
      '(ok, cur) ← anchor_cas desc oldanchor newanchor;
      if ok : bool then mret (oldanchor, newanchor)
      else flush_anchor_loop fuel' desc sbaddr bsz tail idx block_count cur
  end.

(** One iteration of the outer [while] of [flush_cache]. *)
Definition flush_cache_step (fuel : nat) (t : nat) (c : Z) : M unit :=
  let sc := get_sizeclass_by_idx c in
  s ← st_get;
  let head := peek_block s t c in
  let desc := desc_lookup (rgs s) head in
  let sbaddr := CrossPtr_get (rgs s) SB_IDX (superblock (get_desc s desc)) in
  '(block_count, tail) ←
    st_lift (gather fuel (smem s) (get_block_num s t c) sbaddr (sb_size sc) 1 head);
  pop_list t c (pload (smem s) tail) block_count;;
  idx ← st_lift (compute_idx sbaddr head c);
  oldanchor ← st_gets (λ s, anchor (get_desc s desc));
  '(oldanchor, newanchor) ←
    flush_anchor_loop fuel desc sbaddr (block_size sc) tail idx block_count oldanchor;
  st_assert ((avail oldanchor <? block_num sc) || bool_decide (astate oldanchor = SB_FULL));;
  st_assert (avail newanchor <? block_num sc);;
  st_assert (count newanchor <? block_num sc);;
  if decide (astate oldanchor = SB_FULL) then
    if decide (astate newanchor = SB_EMPTY) then small_sb_retire fuel sbaddr SBSIZE
    else heap_push_partial fuel desc
  else mret tt.

Fixpoint flush_cache_loop (n : nat) (fuel : nat) (t : nat) (c : Z) : M unit :=
  match n with
  | O => st_nofuel
  | S n' =>
      num ← st_gets (λ s, get_block_num s t c);
      if 0 <? num then flush_cache_step fuel t c;; flush_cache_loop n' fuel t c
      else mret tt
  end.

Definition flush_cache (fuel : nat) (t : nat) (c : Z) : M unit :=
  flush_cache_loop fuel fuel t c.

(** [ralloc::public_flush_cache], for an initialised library. *)
Definition public_flush_cache (fuel : nat) (t : nat) : M unit :=
  foldr (λ c k, flush_cache fuel t c;; k) (mret tt) (seqZ 1 (MAX_SZ_IDX - 1)).

(** ** [do_malloc] and [do_free] *)

Definition do_malloc (fuel : nat) (t : nat) (size : Z) : M Z :=
  if MAX_SZ <? size then
    sbs ← st_lift (round_up size SBSIZE);
    ptr ← alloc_large_block fuel sbs;
    st_assert (negb (ptr =? 0));;
    rg ← st_gets rgs;
    let desc := desc_lookup rg ptr in
    st_mod (upd_desc desc (with_heap (CrossPtr_assign rg META_IDX (heap_addr rg 0))));;
    st_mod (upd_desc desc (with_block_size sbs));;
    st_mod (upd_desc desc (with_maxcount 1));;
    st_mod (upd_desc desc (with_superblock (CrossPtr_assign rg SB_IDX ptr)));;
    st_mod (upd_desc desc (with_anchor (mkAnchor 0 0 SB_FULL)));;
    FLUSH_LOCAL;; FLUSHFENCE;;
    mret ptr
  else
    let c := get_sizeclass size in
    num ← st_gets (λ s, get_block_num s t c);
    (if num =? 0 then fill_cache fuel t c else mret tt);;
    pop_block t c.

Definition do_free (fuel : nat) (t : nat) (ptr : Z) : M unit :=
  if ptr =? 0 then mret tt
  else
    s ← st_get;
    st_assert (in_range (rgs s) SB_IDX ptr);;
    let desc := desc_lookup (rgs s) ptr in
    let d := get_desc s desc in
    let h := heap_index (rgs s) (CrossPtr_deref (rgs s) META_IDX (heap d)) in
    let c := sc_idx (get_heap s h) in
    if c =? 0 then
      large_sb_retire fuel (CrossPtr_get (rgs s) SB_IDX (superblock d)) (dblock_size d)
    else
      (if cache_block_num (get_sizeclass_by_idx c) <=? get_block_num s t c
       then flush_cache fuel t c else mret tt);;
      push_block t c ptr.
