(* ===== verification/BaseMeta.v ===== *)
(** * Construction of the metadata (BaseMeta::BaseMeta in src/BaseMeta.cpp) *)

From Stdlib Require Import ZArith Lia.
From stdpp Require Import base gmap numbers list.
From S2P Require Import Prelude Mem Config Pptr SizeClass Region Meta TCache Heap.

Local Open Scope Z_scope.

(** The [for] over [heaps]: [heap.partial_list.store(nullptr)] builds a
    [ptr_cnt] with counter 0. [this] is the address of the object: the region
    table does not know it yet. *)
Definition init_heaps (this : Z) (idxs : list Z) : M unit :=
  foldr (λ idx k,
    rg ← st_gets rgs;
    st_mod (put_heap idx (mkHeap (acpc_store rg DESC_IDX (PtrCnt 0 0)) idx));;
    FLUSH (u64 (this + HEAPS_OFFSET + idx * CACHELINE_SIZE));; k) (mret tt) idxs.

(** [roots] follow the heaps; [BaseMeta] is aligned to a cache line. *)
Definition ROOTS_OFFSET : Z := HEAPS_OFFSET + MAX_SZ_IDX * CACHELINE_SIZE.
Definition SIZEOF_BASEMETA : Z := ROOTS_OFFSET + 8 * MAX_ROOTS.
Definition root_addr (this i : Z) : Z := u64 (this + ROOTS_OFFSET + 8 * i).

Definition init_roots (this : Z) (idxs : list Z) : M unit :=
  foldr (λ i k,
    st_mod (put_root i 0);;
    FLUSH (root_addr this i);; k) (mret tt) idxs.

(** The constructor after the members and the robust mutex are initialised. *)
Definition BaseMeta_ctor (fuel : nat) (this : Z) : M unit :=
  rg ← st_gets rgs;
  st_mod (set_avail_sb (acpc_ctor rg DESC_IDX 0 0));;
  init_heaps this (seqZ 0 MAX_SZ_IDX);;
  init_roots this (seqZ 0 MAX_ROOTS);;
  start ← expand_loop fuel SB_IDX SBSIZE SB_REGION_EXPAND_SIZE;
  st_mod (λ s, set_rgs (rput (rgs s) SB_IDX (__store_heap_start (rget (rgs s) SB_IDX) start)) s);;
  r ← st_gets (λ s, rget (rgs s) SB_IDX);
  FLUSH (u64 (base_addr r + 8));; FLUSHFENCE;;
  st_mod (λ s, set_rgs (set_address (rgs s) SB_IDX start) s);;
  organize_sb_list fuel (u64 (start + SBSIZE)) (SB_REGION_EXPAND_SIZE / SBSIZE - 1);;
  FLUSHFENCE.
