(* ===== verification/Inv.v ===== *)
(** * The heap invariant

    A ghost view of the heap ([ghost]): what every superblock is used for, who
    owns every block, and the lists the allocator keeps. [gwf] says that this
    view is consistent (the blocks of the small superblocks are partitioned
    between the superblock free lists, the thread caches and the program);
    [Inv] says that the concrete state represents it. *)

From Stdlib Require Import ZArith Lia.
From stdpp Require Import base gmap numbers functions list.
From S2P Require Import Prelude Mem Config Pptr SizeClass Region Meta MetaFacts TCache Heap.

Local Open Scope Z_scope.

(** What a superblock is used for. [KHeld]: taken out of every list by a running
    operation. [KSmall c fl lk]: blocks of class [c], free list [fl], descriptor
    linked in the partial list of the class iff [lk]. [KLarge k]: first
    superblock of a large block of [k] superblocks, the others are [KTail]. *)
Inductive kind :=
| KFree
| KHeld
| KSmall (c : Z) (fl : list Z) (lk : bool)
| KLarge (k : Z)
| KTail.

(** Who holds a block of a small superblock. *)
Inductive owner := OFree | OCache (t : nat) | OLive.

Record ghost := mkGhost {
  g_n : Z;                          (* superblocks handed out by the region *)
  g_kind : gmap Z kind;
  g_own : gmap Z owner;
  g_avail : list Z;                 (* free superblocks, in list order *)
  g_part : Z → list Z;              (* partial superblocks of a class *)
  g_cache : nat * Z → list Z        (* blocks cached by a thread *)
}.

Definition bs (c : Z) : Z := block_size (get_sizeclass_by_idx c).
Definition mc (c : Z) : Z := block_num (get_sizeclass_by_idx c).

(** The blocks of superblock [i] used for class [c]. *)
Definition blk (sb i c k : Z) : Z := B sb i + k * bs c.
Definition blocks (sb i c : Z) : list Z := blk sb i c <$> seqZ 0 (mc c).

(** Blocks linked by the pptr in their first word; the link of the last block is
    arbitrary. *)
Fixpoint chain (m : mem) (b : Z) (l : list Z) : Prop :=
  match l with
  | [] => True
  | x :: l' => b = x ∧ chain m (pload m x) l'
  end.

(** Descriptors linked by a pointer field, null-terminated. *)
Fixpoint dchain (db : Z) (nxt : Z → Z) (p : Z) (l : list Z) : Prop :=
  match l with
  | [] => p = 0
  | i :: l' => p = D db i ∧ dchain db nxt (nxt p) l'
  end.

(** ** Consistency of the ghost view *)

Record gwf (sb : Z) (g : ghost) : Prop := {
  gw_dom : ∀ i, is_Some (g_kind g !! i) ↔ 1 ≤ i < g_n g;
  gw_avail_nd : NoDup (g_avail g);
  gw_avail : ∀ i, i ∈ g_avail g ↔ g_kind g !! i = Some KFree;
  gw_part_nd : ∀ c, NoDup (g_part g c);
  gw_part : ∀ c i, i ∈ g_part g c ↔ ∃ fl, g_kind g !! i = Some (KSmall c fl true);
  gw_cls : ∀ i c fl lk, g_kind g !! i = Some (KSmall c fl lk) → 1 ≤ c < MAX_SZ_IDX;
  gw_large : ∀ i k, g_kind g !! i = Some (KLarge k) →
    1 ≤ k ∧ k * SBSIZE < 2 ^ 32 ∧ i + k ≤ g_n g ∧
    ∀ j, i < j < i + k → g_kind g !! j = Some KTail;
  gw_own : ∀ b, is_Some (g_own g !! b) ↔
    ∃ i c fl lk, g_kind g !! i = Some (KSmall c fl lk) ∧ b ∈ blocks sb i c;
  gw_fl_nd : ∀ i c fl lk, g_kind g !! i = Some (KSmall c fl lk) → NoDup fl;
  gw_fl : ∀ i c fl lk, g_kind g !! i = Some (KSmall c fl lk) →
    ∀ b, b ∈ fl ↔ g_own g !! b = Some OFree ∧ b ∈ blocks sb i c;
  gw_cache_nd : ∀ tc, NoDup (g_cache g tc);
  gw_cache : ∀ t c b, b ∈ g_cache g (t, c) ↔
    g_own g !! b = Some (OCache t) ∧
    ∃ i fl lk, g_kind g !! i = Some (KSmall c fl lk) ∧ b ∈ blocks sb i c;
  gw_cache_len : ∀ t c, Z.of_nat (length (g_cache g (t, c))) ≤ Z.max 0 (mc c)
}.

(** Between operations no superblock is held, and the linked ones are exactly
    those with a free block. *)
Definition settled (g : ghost) : Prop :=
  (∀ i, g_kind g !! i ≠ Some KHeld) ∧
  (∀ i c fl lk, g_kind g !! i = Some (KSmall c fl lk) → lk = true ↔ fl ≠ []).

(** ** Representation *)

(** The anchor of a small superblock with free list [fl]: full, partial, or
    empty (all blocks back, the count one short). *)
Definition anchor_rep (sb i c : Z) (fl : list Z) (a : Anchor) : Prop :=
  0 ≤ avail a ≤ mc c ∧
  match fl with
  | [] => astate a = SB_FULL ∧ count a = 0
  | b :: _ =>
      b = blk sb i c (avail a) ∧ avail a < mc c ∧
      if Z.of_nat (length fl) =? mc c
      then astate a = SB_EMPTY ∧ count a = mc c - 1
      else astate a = SB_PARTIAL ∧ count a = Z.of_nat (length fl)
  end.

Definition desc_small (db sb mb i c : Z) (fl : list Z) (d : Descriptor) : Prop :=
  heap d = u64 (HEAPS_OFFSET + c * CACHELINE_SIZE) ∧
  superblock d = u64 (i * SBSIZE) ∧
  dblock_size d = bs c ∧ maxcount d = mc c ∧ anchor_rep sb i c fl (anchor d).

Definition desc_large (i k : Z) (d : Descriptor) : Prop :=
  heap d = HEAPS_OFFSET ∧ superblock d = u64 (i * SBSIZE) ∧
  dblock_size d = k * SBSIZE ∧ maxcount d = 1.

Definition dget (ds : gmap Z Descriptor) (d : Z) : Descriptor := default desc_zero (ds !! d).
Definition dnext_free (ds : gmap Z Descriptor) (d : Z) : Z :=
  link_load d (next_free (dget ds d)).
Definition dnext_partial (ds : gmap Z Descriptor) (d : Z) : Z :=
  link_load (d + 8) (next_partial (dget ds d)).

(** A word holds a counted pointer to [p]. *)
Definition head_is (rg : Regions) (raw p : Z) : Prop :=
  0 ≤ raw < 2 ^ 64 ∧ get_ptr (acpc_unpack rg DESC_IDX raw) = p.

Record InvC (db sb mb : Z) (g : ghost) (m : mem) (ds : gmap Z Descriptor) (av : Z)
    (hs : gmap Z ProcHeap) (tc : gmap (nat * Z) TCacheBin) (rg : Regions) : Prop := {
  iv_wf : gwf sb g;
  iv_rg : rg_at rg db sb mb;
  iv_len : length (regions rg) = LAST_IDX;
  iv_n : 1 ≤ g_n g;
  iv_region : region_at (rget rg SB_IDX) (B sb (g_n g));
  iv_max : base_addr (rget rg SB_IDX) ≤ sb ∧
    base_addr (rget rg SB_IDX) + FILESIZE (rget rg SB_IDX) < B sb MAX_SB_AMOUNT;
  iv_small : ∀ i c fl lk, g_kind g !! i = Some (KSmall c fl lk) →
    desc_small db sb mb i c fl (dget ds (D db i)) ∧ chain m (from_option id 0 (head fl)) fl;
  iv_large : ∀ i k, g_kind g !! i = Some (KLarge k) → desc_large i k (dget ds (D db i));
  iv_avail : ∃ p, head_is rg av p ∧ dchain db (dnext_free ds) p (g_avail g);
  iv_heaps : ∀ c, 0 ≤ c < MAX_SZ_IDX → sc_idx (default (mkHeap 0 0) (hs !! c)) = c;
  iv_part : ∀ c, 1 ≤ c < MAX_SZ_IDX → ∃ p,
    head_is rg (partial_list (default (mkHeap 0 0) (hs !! c))) p ∧
    dchain db (dnext_partial ds) p (g_part g c);
  iv_cache : ∀ t c,
    let bin := default TCacheBin_ctor (tc !! (t, c)) in
    _block_num bin = Z.of_nat (length (g_cache g (t, c))) ∧
    chain m (_block bin) (g_cache g (t, c))
}.

Definition Inv (db sb mb : Z) (g : ghost) (s : state) : Prop :=
  InvC db sb mb g (smem s) (descs s) (avail_sb s) (heaps s) (t_caches s) (rgs s).

(** The blocks in the hands of the program: address and usable size. *)
Definition live (sb : Z) (g : ghost) (p z : Z) : Prop :=
  (∃ i c fl lk, g_kind g !! i = Some (KSmall c fl lk) ∧ p ∈ blocks sb i c ∧
     g_own g !! p = Some OLive ∧ z = bs c) ∨
  (∃ i k, g_kind g !! i = Some (KLarge k) ∧ p = B sb i ∧ z = k * SBSIZE).

(** ** Blocks *)

Section Blocks.
Context (db sb mb : Z) (HG : geom db sb mb).

Lemma elem_of_blocks i c b : b ∈ blocks sb i c ↔ ∃ k, 0 ≤ k < mc c ∧ b = blk sb i c k.
Proof using.
  unfold blocks. rewrite list_elem_of_fmap. split.
  - intros (k & -> & Hk). apply elem_of_seqZ in Hk. exists k. split; [lia|done].
  - intros (k & Hk & ->). exists k. split; [done|]. apply elem_of_seqZ. lia.
Qed.

Lemma length_blocks i c : length (blocks sb i c) = Z.to_nat (mc c).
Proof using. unfold blocks. by rewrite length_fmap, length_seqZ. Qed.

Lemma bs_mc c :
  1 ≤ c < MAX_SZ_IDX → 8 ≤ bs c ≤ MAX_SZ ∧ bs c mod 8 = 0 ∧ 4 ≤ mc c ∧ mc c * bs c ≤ SBSIZE.
Proof using. intros Hc. destruct (sc_facts c Hc) as (?&?&?&?&?&?&?). unfold bs, mc. lia. Qed.

Lemma NoDup_blocks i c : 1 ≤ c < MAX_SZ_IDX → NoDup (blocks sb i c).
Proof using.
  intros Hc. destruct (bs_mc c Hc) as (? & _). unfold blocks.
  apply NoDup_fmap_2_strong; [|apply NoDup_seqZ].
  intros x y _ _. unfold blk. nia.
Qed.

(** A block lies inside its superblock. *)
Lemma blk_range i c k :
  1 ≤ c < MAX_SZ_IDX → 0 ≤ k < mc c →
  B sb i ≤ blk sb i c k ∧ blk sb i c k + bs c ≤ B sb (i + 1).
Proof using.
  intros Hc Hk. destruct (bs_mc c Hc) as (?&?&?&?). unfold blk, B. nia.
Qed.

Lemma blk_range_weak i c k :
  1 ≤ c < MAX_SZ_IDX → 0 ≤ k ≤ mc c → B sb i ≤ blk sb i c k ≤ B sb (i + 1).
Proof using.
  intros Hc Hk. destruct (bs_mc c Hc) as (?&?&?&?). unfold blk, B. nia.
Qed.

Lemma blocks_range i c b :
  1 ≤ c < MAX_SZ_IDX → b ∈ blocks sb i c → B sb i ≤ b < B sb (i + 1).
Proof using.
  intros Hc (k & Hk & ->)%elem_of_blocks. pose proof (blk_range i c k Hc Hk).
  destruct (bs_mc c Hc) as (? & _). lia.
Qed.

(** The superblock of an address is unique. *)
Lemma sb_unique i j b : B sb i ≤ b < B sb (i + 1) → B sb j ≤ b < B sb (j + 1) → i = j.
Proof using. unfold B. change SBSIZE with 65536. lia. Qed.

Lemma blocks_aligned i c b : 1 ≤ c < MAX_SZ_IDX → b ∈ blocks sb i c → b mod 8 = 0.
Proof using HG.
  intros Hc (k & Hk & ->)%elem_of_blocks. destruct (bs_mc c Hc) as (_ & Hm & _).
  pose proof (g_sbal _ _ _ HG) as Hsb. unfold blk, B. change SBSIZE with 65536 in *.
  apply Z.mod_divide in Hm as [x Hx]; [|lia]. apply Z.mod_divide in Hsb as [y Hy]; [|lia].
  apply Z.mod_divide; [lia|]. exists (y * 8192 + i * 8192 + k * x). rewrite Hx, Hy. ring.
Qed.

Lemma B_addr_ok i b : 0 ≤ i < MAX_SB_AMOUNT → B sb i ≤ b ≤ B sb (i + 1) → addr_ok b ∧ 0 < b.
Proof using HG.
  intros Hi Hb. pose proof (B_ok db sb mb HG i ltac:(lia)).
  pose proof (B_ok db sb mb HG (i + 1) ltac:(lia)). unfold addr_ok. lia.
Qed.

(** Aligned addresses are a word apart. *)
Lemma aligned_apart a b : a mod 8 = 0 → b mod 8 = 0 → a ≠ b → b + 8 ≤ a ∨ a + 8 ≤ b.
Proof using.
  intros Ha Hb Hne. apply Z.mod_divide in Ha as [x ->]; [|lia].
  apply Z.mod_divide in Hb as [y ->]; [|lia]. lia.
Qed.

Lemma pload_pstore_aligned m a v b :
  a mod 8 = 0 → b mod 8 = 0 → a ≠ b → pload (pstore m a v) b = pload m b.
Proof using. intros. apply pload_pstore_ne. by apply aligned_apart. Qed.

(** A free list that is not everything misses a block, and conversely. *)
Lemma fl_length_le i c fl :
  1 ≤ c < MAX_SZ_IDX → NoDup fl → fl ⊆ blocks sb i c → Z.of_nat (length fl) ≤ mc c.
Proof using.
  intros Hc Hnd Hsub. destruct (bs_mc c Hc) as (_ & _ & ? & _).
  apply NoDup_submseteq in Hsub; [|done].
  apply submseteq_length in Hsub. rewrite length_blocks in Hsub. lia.
Qed.

Lemma fl_full i c fl b :
  1 ≤ c < MAX_SZ_IDX → NoDup fl → fl ⊆ blocks sb i c → Z.of_nat (length fl) = mc c →
  b ∈ blocks sb i c → b ∈ fl.
Proof using.
  intros Hc Hnd Hsub Hlen Hb. apply NoDup_submseteq in Hsub; [|done].
  apply submseteq_length_Permutation in Hsub; [|rewrite length_blocks; lia].
  by rewrite Hsub.
Qed.
End Blocks.

(** ** Chains *)

Lemma chain_ext m m' b l :
  (∀ x, x ∈ l → pload m' x = pload m x) → chain m b l → chain m' b l.
Proof.
  revert b. induction l as [|x l IH]; intros b Heq; cbn [chain]; [done|].
  intros [-> Hc]. split; [done|]. rewrite Heq by set_solver.
  apply IH; [|done]. intros y Hy. apply Heq. set_solver.
Qed.

Lemma chain_pstore m a v b l :
  a mod 8 = 0 → (∀ x, x ∈ l → x mod 8 = 0) → a ∉ l → chain m b l → chain (pstore m a v) b l.
Proof.
  intros Ha Hl Hn. apply chain_ext. intros x Hx.
  apply pload_pstore_aligned; [done|by apply Hl|]. by intros ->.
Qed.

Lemma chain_head m b l : chain m b l → l ≠ [] → from_option id 0 (head l) = b.
Proof. destruct l; cbn; [done|]. by intros [-> _]. Qed.

Lemma chain_app m b l1 l2 x :
  chain m b (l1 ++ [x]) → chain m (pload m x) l2 → chain m b (l1 ++ x :: l2).
Proof.
  revert b. induction l1 as [|y l1 IH]; intros b; cbn.
  - intros [-> _] H2. done.
  - intros [-> H1] H2. split; [done|]. by apply IH.
Qed.

Lemma chain_app_inv m b l1 l2 x :
  chain m b (l1 ++ x :: l2) → chain m b (l1 ++ [x]) ∧ chain m (pload m x) l2.
Proof.
  revert b. induction l1 as [|y l1 IH]; intros b; cbn.
  - intros [-> H2]. done.
  - intros [-> H1]. apply IH in H1 as [H1 H2]. done.
Qed.

Lemma dchain_ext db nxt nxt' p l :
  (∀ i, i ∈ l → nxt' (D db i) = nxt (D db i)) → dchain db nxt p l → dchain db nxt' p l.
Proof.
  revert p. induction l as [|i l IH]; intros p Heq; cbn [dchain]; [done|].
  intros [-> Hc]. split; [done|]. rewrite Heq by set_solver.
  apply IH; [|done]. intros y Hy. apply Heq. set_solver.
Qed.
