(* ===== verification/Ghost.v ===== *)
(** * Transitions of the ghost view

    One transition per list or ownership change of the allocator, each shown to
    preserve [gwf]. *)

From Stdlib Require Import ZArith Lia.
From stdpp Require Import base gmap numbers functions list.
From S2P Require Import Prelude Mem Config Pptr SizeClass Region Meta MetaFacts TCache Heap Inv.

Local Open Scope Z_scope.
#[local] Set Warnings "-clear-no-such-hyp".

(** ** Updates of a map over a list of keys *)

Definition mset {A} (v : A) (l : list Z) (m : gmap Z A) : gmap Z A :=
  foldr (λ k m, <[k := v]> m) m l.
Definition mdel {A} (l : list Z) (m : gmap Z A) : gmap Z A := foldr delete m l.

Lemma lookup_mset {A} (v : A) l m k :
  mset v l m !! k = if decide (k ∈ l) then Some v else m !! k.
Proof.
  unfold mset. induction l as [|x l IH]; cbn; [by rewrite decide_False by set_solver|].
  rewrite lookup_insert, IH. destruct (decide (x = k)) as [->|].
  - by rewrite decide_True by left.
  - destruct (decide (k ∈ l)); [rewrite decide_True by (by right)|rewrite decide_False by set_solver]; done.
Qed.

Lemma lookup_mdel {A} l (m : gmap Z A) k :
  mdel l m !! k = if decide (k ∈ l) then None else m !! k.
Proof.
  unfold mdel. induction l as [|x l IH]; cbn; [by rewrite decide_False by set_solver|].
  rewrite lookup_delete, IH. destruct (decide (x = k)) as [->|].
  - by rewrite decide_True by left.
  - destruct (decide (k ∈ l)); [rewrite decide_True by (by right)|rewrite decide_False by set_solver]; done.
Qed.

(** ** The transitions *)

(** A free superblock leaves the free list. *)
Definition gh_take (i : Z) (l : list Z) (g : ghost) : ghost :=
  mkGhost (g_n g) (<[i := KHeld]> (g_kind g)) (g_own g) l (g_part g) (g_cache g).

(** The region grows by [k] superblocks: the first one is held, the others are
    put on the free list. *)
Definition gh_expand (k : Z) (g : ghost) : ghost :=
  mkGhost (g_n g + k)
    (mset KFree (seqZ (g_n g + 1) (k - 1)) (<[g_n g := KHeld]> (g_kind g)))
    (g_own g) (seqZ (g_n g + 1) (k - 1) ++ g_avail g) (g_part g) (g_cache g).

(** A held superblock is cut into blocks of class [c], all cached by [t]. *)
Definition gh_newsb (sb : Z) (t : nat) (i c : Z) (g : ghost) : ghost :=
  mkGhost (g_n g) (<[i := KSmall c [] false]> (g_kind g))
    (mset (OCache t) (blocks sb i c) (g_own g)) (g_avail g) (g_part g)
    (<[(t, c) := blocks sb i c]> (g_cache g)).

Definition gh_link (i c : Z) (fl : list Z) (g : ghost) : ghost :=
  mkGhost (g_n g) (<[i := KSmall c fl true]> (g_kind g)) (g_own g) (g_avail g)
    (<[c := i :: g_part g c]> (g_part g)) (g_cache g).

Definition gh_unlink (i c : Z) (fl l : list Z) (g : ghost) : ghost :=
  mkGhost (g_n g) (<[i := KSmall c fl false]> (g_kind g)) (g_own g) (g_avail g)
    (<[c := l]> (g_part g)) (g_cache g).

(** A superblock all of whose blocks are free goes to the free list. *)
Definition gh_retire (sb i c : Z) (g : ghost) : ghost :=
  mkGhost (g_n g) (<[i := KFree]> (g_kind g)) (mdel (blocks sb i c) (g_own g))
    (i :: g_avail g) (g_part g) (g_cache g).

(** The whole free list of a superblock moves to a cache. *)
Definition gh_fill (t : nat) (i c : Z) (fl : list Z) (lk : bool) (g : ghost) : ghost :=
  mkGhost (g_n g) (<[i := KSmall c [] lk]> (g_kind g)) (mset (OCache t) fl (g_own g))
    (g_avail g) (g_part g) (<[(t, c) := fl]> (g_cache g)).

(** A run [l1] of blocks moves from a cache to the free list of its
    superblock. *)
Definition gh_give (t : nat) (i c : Z) (fl : list Z) (lk : bool) (l1 l2 : list Z) (g : ghost)
  : ghost :=
  mkGhost (g_n g) (<[i := KSmall c (l1 ++ fl) lk]> (g_kind g)) (mset OFree l1 (g_own g))
    (g_avail g) (g_part g) (<[(t, c) := l2]> (g_cache g)).

Definition gh_pop (t : nat) (c b : Z) (l : list Z) (g : ghost) : ghost :=
  mkGhost (g_n g) (g_kind g) (<[b := OLive]> (g_own g)) (g_avail g) (g_part g)
    (<[(t, c) := l]> (g_cache g)).

Definition gh_push (t : nat) (c b : Z) (g : ghost) : ghost :=
  mkGhost (g_n g) (g_kind g) (<[b := OCache t]> (g_own g)) (g_avail g) (g_part g)
    (<[(t, c) := b :: g_cache g (t, c)]> (g_cache g)).

(** The region grows by a large block of [k] superblocks. *)
Definition gh_large_alloc (k : Z) (g : ghost) : ghost :=
  mkGhost (g_n g + k)
    (mset KTail (seqZ (g_n g + 1) (k - 1)) (<[g_n g := KLarge k]> (g_kind g)))
    (g_own g) (g_avail g) (g_part g) (g_cache g).

Definition gh_large_free (i k : Z) (g : ghost) : ghost :=
  mkGhost (g_n g) (mset KFree (seqZ i k) (g_kind g)) (g_own g) (seqZ i k ++ g_avail g)
    (g_part g) (g_cache g).

(** ** Preservation *)

Ltac ginsert :=
  repeat match goal with
  | H : context [<[_:=_]> _ !! _] |- _ => rewrite lookup_insert in H
  | |- context [<[_:=_]> _ !! _] => rewrite lookup_insert
  | H : context [mset _ _ _ !! _] |- _ => rewrite lookup_mset in H
  | |- context [mset _ _ _ !! _] => rewrite lookup_mset
  | H : context [mdel _ _ !! _] |- _ => rewrite lookup_mdel in H
  | |- context [mdel _ _ !! _] => rewrite lookup_mdel
  end.
Ltac gsplit := ginsert; repeat case_decide; simplify_eq.
Ltac gwf_start H :=
  unfold gh_retire, gh_newsb, gh_fill, gh_give, gh_pop, gh_push;
  destruct H as [Wdom Wand Wav Wpnd Wpart Wcls Wlarge Wown Wflnd Wfl Wcnd Wcache Wclen]; constructor; cbn [g_n g_kind g_own g_avail g_part g_cache].

Section Preserve.
Context (sb : Z).

(** A superblock that is not small owns no block. *)
Lemma own_small g b i c fl lk o :
  gwf sb g → g_own g !! b = Some o → g_kind g !! i = Some (KSmall c fl lk) →
  B sb i ≤ b < B sb (i + 1) → b ∈ blocks sb i c.
Proof.
  intros Hw Ho Hk Hb. destruct (proj1 (gw_own _ _ Hw b) ltac:(eauto)) as (j & c' & fl' & lk' & Hj & Hin).
  pose proof (gw_cls _ _ Hw _ _ _ _ Hj) as Hc'.
  pose proof (blocks_range sb j c' b Hc' Hin).
  assert (i = j) as -> by (by eapply sb_unique). by simplify_eq.
Qed.

(** Changes that touch no small superblock. *)
Lemma gwf_kinds g n' kd' av' :
  gwf sb g →
  (∀ i c fl lk, kd' !! i = Some (KSmall c fl lk) ↔ g_kind g !! i = Some (KSmall c fl lk)) →
  (∀ i, is_Some (kd' !! i) ↔ 1 ≤ i < n') →
  NoDup av' → (∀ i, i ∈ av' ↔ kd' !! i = Some KFree) →
  (∀ i k, kd' !! i = Some (KLarge k) →
     1 ≤ k ∧ k * SBSIZE < 2 ^ 32 ∧ i + k ≤ n' ∧ ∀ j, i < j < i + k → kd' !! j = Some KTail) →
  gwf sb (mkGhost n' kd' (g_own g) av' (g_part g) (g_cache g)).
Proof.
  intros H Hsm Hdom Hnd Hav Hlg. gwf_start H; try done.
  - intros c i. rewrite Wpart. by setoid_rewrite Hsm.
  - intros i c fl lk Hi. rewrite Hsm in Hi. eauto.
  - intros b. rewrite Wown. by setoid_rewrite Hsm.
  - intros i c fl lk Hi. rewrite Hsm in Hi. eauto.
  - intros i c fl lk Hi. rewrite Hsm in Hi. eauto.
  - intros t c b. rewrite Wcache. by setoid_rewrite Hsm.
Qed.

Lemma gh_take_wf g i l : gwf sb g → g_avail g = i :: l → gwf sb (gh_take i l g).
Proof.
  intros H E. pose proof (gw_avail_nd _ _ H) as Hnd. rewrite E in Hnd.
  apply NoDup_cons in Hnd as [Hni Hnd].
  assert (g_kind g !! i = Some KFree) as Hi by (apply (gw_avail _ _ H); rewrite E; left).
  apply gwf_kinds; [done|..|done| |].
  - intros j c fl lk. gsplit; naive_solver.
  - intros j. gsplit; [|apply (gw_dom _ _ H)]. rewrite <- (gw_dom _ _ H), Hi. split; eauto.
  - intros j. gsplit; [naive_solver|]. rewrite <- (gw_avail _ _ H), E. set_solver.
  - intros j k Hj. gsplit. destruct (gw_large _ _ H _ _ Hj) as (?&?&?&Ht).
    repeat split; try done. intros j' Hj'. gsplit; [|by apply Ht]. by rewrite Ht in Hi.
Qed.

Lemma kind_None g i : gwf sb g → ¬ (1 ≤ i < g_n g) → g_kind g !! i = None.
Proof.
  intros H Hi. apply eq_None_not_Some. by rewrite (gw_dom _ _ H).
Qed.

Lemma kind_lt g i k : gwf sb g → g_kind g !! i = Some k → 1 ≤ i < g_n g.
Proof. intros H Hi. apply (gw_dom _ _ H). eauto. Qed.

Lemma gh_expand_wf g k : gwf sb g → 1 ≤ g_n g → 1 ≤ k → gwf sb (gh_expand k g).
Proof.
  intros H Hn Hk. assert (∀ i, g_n g ≤ i → g_kind g !! i = None) as Hout.
  { intros i Hi. apply kind_None; [done|lia]. }
  apply gwf_kinds; [done|..].
  - intros j c fl lk. gsplit; try naive_solver; rewrite ?elem_of_seqZ in *;
      (split; [done|]); rewrite Hout by lia; done.
  - intros j. gsplit; rewrite ?elem_of_seqZ in *.
    + split; [lia|eauto].
    + split; [lia|eauto].
    + rewrite (gw_dom _ _ H). lia.
  - apply NoDup_app. split; [apply NoDup_seqZ|]. split; [|apply (gw_avail_nd _ _ H)].
    intros j Hj Hj'. rewrite elem_of_seqZ in Hj. apply (gw_avail _ _ H) in Hj'.
    rewrite Hout in Hj' by lia. done.
  - intros j. rewrite elem_of_app, (gw_avail _ _ H). gsplit; rewrite ?elem_of_seqZ in *.
    + naive_solver.
    + rewrite Hout by lia. naive_solver lia.
    + naive_solver lia.
  - intros j k' Hj. gsplit. destruct (gw_large _ _ H _ _ Hj) as (?&?&?&Ht).
    pose proof (kind_lt _ _ _ H Hj). repeat split; try lia. intros j' Hj'.
    gsplit; rewrite ?elem_of_seqZ in *; try lia. by apply Ht.
Qed.

Lemma gh_large_alloc_wf g k :
  gwf sb g → 1 ≤ g_n g → 1 ≤ k → k * SBSIZE < 2 ^ 32 → gwf sb (gh_large_alloc k g).
Proof.
  intros H Hn Hk Hkm. assert (∀ i, g_n g ≤ i → g_kind g !! i = None) as Hout.
  { intros i Hi. apply kind_None; [done|lia]. }
  apply gwf_kinds; [done|..|apply (gw_avail_nd _ _ H)| |].
  - intros j c fl lk. gsplit; try naive_solver; rewrite ?elem_of_seqZ in *;
      (split; [done|]); rewrite Hout by lia; done.
  - intros j. gsplit; rewrite ?elem_of_seqZ in *.
    + split; [lia|eauto].
    + split; [lia|eauto].
    + rewrite (gw_dom _ _ H). lia.
  - intros j. rewrite (gw_avail _ _ H). gsplit; rewrite ?elem_of_seqZ in *.
    + rewrite Hout by lia. done.
    + rewrite Hout by lia. done.
    + done.
  - intros j k' Hj. gsplit; rewrite ?elem_of_seqZ in *.
    + repeat split; try lia. intros j' Hj'. gsplit; rewrite ?elem_of_seqZ in *; (done || lia).
    + destruct (gw_large _ _ H _ _ Hj) as (?&?&?&Ht).
      pose proof (kind_lt _ _ _ H Hj). repeat split; try lia. intros j' Hj'.
      gsplit; rewrite ?elem_of_seqZ in *; try lia. by apply Ht.
Qed.

(** The superblocks of a large block. *)
Lemma large_range g i k j :
  gwf sb g → g_kind g !! i = Some (KLarge k) → i ≤ j < i + k →
  g_kind g !! j = Some (KLarge k) ∧ j = i ∨ g_kind g !! j = Some KTail ∧ i < j.
Proof.
  intros H Hi Hj. destruct (gw_large _ _ H _ _ Hi) as (_&_&_&Ht).
  destruct (decide (j = i)) as [->|]; [by left|]. right. split; [|lia]. apply Ht. lia.
Qed.

Lemma gh_large_free_wf g i k :
  gwf sb g → g_kind g !! i = Some (KLarge k) → gwf sb (gh_large_free i k g).
Proof.
  intros H Hi. pose proof (kind_lt _ _ _ H Hi) as Hin.
  destruct (gw_large _ _ H _ _ Hi) as (Hk1&_&Hkn&Ht).
  assert (∀ j, i ≤ j < i + k → g_kind g !! j = Some (KLarge k) ∨ g_kind g !! j = Some KTail)
    as Hr by (intros j Hj; destruct (large_range g i k j H Hi Hj) as [[? _]|[? _]]; auto).
  apply gwf_kinds; [done|..].
  - intros j c fl lk. gsplit; rewrite ?elem_of_seqZ in *; [|done].
    destruct (Hr j) as [E|E]; [lia|rewrite E..]; naive_solver.
  - intros j. gsplit; rewrite ?elem_of_seqZ in *; [|apply (gw_dom _ _ H)].
    split; [lia|eauto].
  - apply NoDup_app. split; [apply NoDup_seqZ|]. split; [|apply (gw_avail_nd _ _ H)].
    intros j Hj Hj'. rewrite elem_of_seqZ in Hj. apply (gw_avail _ _ H) in Hj'.
    destruct (Hr j); [lia|congruence..].
  - intros j. rewrite elem_of_app, (gw_avail _ _ H). gsplit; naive_solver.
  - intros j k' Hj. gsplit. rewrite elem_of_seqZ in *.
    destruct (gw_large _ _ H _ _ Hj) as (?&?&?&Ht'). repeat split; try done.
    intros j' Hj'. gsplit; [|by apply Ht']. rewrite elem_of_seqZ in *.
    pose proof (Ht' j' Hj') as E. destruct (large_range g i k j' H Hi ltac:(lia)) as [[E' _]|[_ E']].
    + congruence.
    + assert (j < i) by lia. specialize (Ht' i ltac:(lia)). congruence.
Qed.

(** ** Transitions of small superblocks *)

Lemma blocks_same i j c c' b :
  1 ≤ c < MAX_SZ_IDX → 1 ≤ c' < MAX_SZ_IDX → b ∈ blocks sb i c → b ∈ blocks sb j c' → i = j.
Proof.
  intros Hc Hc' Hi Hj. apply (sb_unique sb i j b); [by apply (blocks_range sb i c)|by apply (blocks_range sb j c')].
Qed.

(** The small superblock a block belongs to. *)
Lemma kind_same g i j c c' fl fl' lk lk' b :
  gwf sb g → g_kind g !! i = Some (KSmall c fl lk) → g_kind g !! j = Some (KSmall c' fl' lk') →
  b ∈ blocks sb i c → b ∈ blocks sb j c' → i = j ∧ c = c' ∧ fl = fl' ∧ lk = lk'.
Proof.
  intros H Hi Hj Hbi Hbj.
  assert (i = j) as ->.
  { apply (blocks_same i j c c' b); try done.
    - apply (gw_cls _ _ H _ _ _ _ Hi).
    - apply (gw_cls _ _ H _ _ _ _ Hj). }
  by simplify_eq.
Qed.

(** Re-linking changes no ownership. *)
Lemma gwf_relink g i c fl lk lk' pt :
  gwf sb g → g_kind g !! i = Some (KSmall c fl lk) →
  (∀ c', NoDup (pt c')) →
  (∀ c' j, j ∈ pt c' ↔ ∃ fl', <[i := KSmall c fl lk']> (g_kind g) !! j = Some (KSmall c' fl' true)) →
  gwf sb (mkGhost (g_n g) (<[i := KSmall c fl lk']> (g_kind g)) (g_own g) (g_avail g) pt
            (g_cache g)).
Proof.
  intros H Hi Hnd Hpt. gwf_start H; try done.
  - intros j. gsplit; [|apply Wdom]. rewrite <- Wdom, Hi. split; eauto.
  - intros j. rewrite Wav. gsplit; naive_solver.
  - intros j c' fl' lk2 Hj. gsplit; eauto.
  - intros j k Hj. gsplit. destruct (Wlarge _ _ Hj) as (?&?&?&Ht). repeat split; try done.
    intros j' Hj'. gsplit; [|by apply Ht]. by rewrite Ht in Hi.
  - intros b. rewrite Wown. split; intros (j & c' & fl' & lk2 & Hj & Hb).
    + destruct (decide (i = j)) as [<-|]; simplify_eq;
        [exists i, c, fl, lk'|exists j, c', fl', lk2]; gsplit; done.
    + gsplit; eauto 10.
  - intros j c' fl' lk2 Hj. gsplit; eauto.
  - intros j c' fl' lk2 Hj. gsplit; eauto.
  - intros t c' b. rewrite Wcache. f_equiv. split; intros (j & fl' & lk2 & Hj & Hb).
    + destruct (decide (i = j)) as [<-|]; simplify_eq;
        [exists i, fl, lk'|exists j, fl', lk2]; gsplit; done.
    + gsplit; eauto 10.
Qed.

Lemma gh_link_wf g i c fl :
  gwf sb g → g_kind g !! i = Some (KSmall c fl false) → gwf sb (gh_link i c fl g).
Proof.
  intros H Hi. eapply gwf_relink; [done|done|..].
  - intros c'. destruct (decide (c = c')) as [<-|].
    + rewrite fn_lookup_insert. apply NoDup_cons. split; [|apply (gw_part_nd _ _ H)].
      rewrite (gw_part _ _ H). naive_solver.
    + rewrite fn_lookup_insert_ne by done. apply (gw_part_nd _ _ H).
  - intros c' j. destruct (decide (c = c')) as [<-|].
    + rewrite fn_lookup_insert. rewrite elem_of_cons, (gw_part _ _ H). gsplit; naive_solver.
    + rewrite fn_lookup_insert_ne by done. rewrite (gw_part _ _ H). gsplit; naive_solver.
Qed.

Lemma gh_unlink_wf g i c fl l :
  gwf sb g → g_kind g !! i = Some (KSmall c fl true) → g_part g c = i :: l →
  gwf sb (gh_unlink i c fl l g).
Proof.
  intros H Hi El. pose proof (gw_part_nd _ _ H c) as Hnd. rewrite El in Hnd.
  apply NoDup_cons in Hnd as [Hni Hnd]. eapply gwf_relink; [done|done|..].
  - intros c'. destruct (decide (c = c')) as [<-|].
    + by rewrite fn_lookup_insert.
    + rewrite fn_lookup_insert_ne by done. apply (gw_part_nd _ _ H).
  - intros c' j. destruct (decide (c = c')) as [<-|].
    + rewrite fn_lookup_insert. pose proof (gw_part _ _ H c j) as Hp. rewrite El in Hp.
      rewrite elem_of_cons in Hp. gsplit; naive_solver.
    + rewrite fn_lookup_insert_ne by done. rewrite (gw_part _ _ H). gsplit; naive_solver.
Qed.

(** All blocks of a superblock with a complete free list are free. *)
Lemma full_all_free g i c fl lk b :
  gwf sb g → g_kind g !! i = Some (KSmall c fl lk) → Z.of_nat (length fl) = mc c →
  b ∈ blocks sb i c → g_own g !! b = Some OFree.
Proof.
  intros H Hi Hlen Hb.
  apply (gw_fl _ _ H _ _ _ _ Hi). eapply fl_full; [apply (gw_cls _ _ H _ _ _ _ Hi)|apply (gw_fl_nd _ _ H _ _ _ _ Hi)| |done..].
  intros x Hx. by apply (gw_fl _ _ H _ _ _ _ Hi) in Hx as [_ ?].
Qed.

Lemma gh_retire_wf g i c fl :
  gwf sb g → g_kind g !! i = Some (KSmall c fl false) → Z.of_nat (length fl) = mc c →
  gwf sb (gh_retire sb i c g).
Proof.
  intros H Hi Hlen. pose proof (full_all_free g i c fl false) as Hfull.
  pose proof (kind_same g i) as Hsame.
  assert (H0 := H). gwf_start H0.
  - intros j. gsplit; [|apply Wdom]. rewrite <- Wdom, Hi. split; eauto.
  - apply NoDup_cons. split; [|done]. rewrite Wav. by rewrite Hi.
  - intros j. rewrite elem_of_cons, Wav. gsplit; naive_solver.
  - done.
  - intros c' j. rewrite Wpart. gsplit; naive_solver.
  - intros j c' fl' lk' Hj. gsplit. eauto.
  - intros j k Hj. gsplit. destruct (Wlarge _ _ Hj) as (?&?&?&Ht). repeat split; try done.
    intros j' Hj'. gsplit; [|by apply Ht]. by rewrite Ht in Hi.
  - intros b. gsplit.
    + split; [by intros [??]|]. intros (j & c' & fl' & lk' & Hj & Hb). gsplit.
      exfalso. by destruct (Hsame j c c' fl fl' false lk' b) as (-> & _).
    + rewrite Wown. split; intros (j & c' & fl' & lk' & Hj & Hb).
      * exists j, c', fl', lk'. gsplit; done.
      * gsplit. eauto 10.
  - intros j c' fl' lk' Hj. gsplit. eauto.
  - intros j c' fl' lk' Hj b. gsplit; [|by eapply Wfl].
    split; [|by intros [??]]. intros Hb. apply (Wfl _ _ _ _ Hj) in Hb as [_ Hb].
    exfalso. by destruct (Hsame j c c' fl fl' false lk' b) as (-> & _).
  - done.
  - intros t c' b. rewrite Wcache. gsplit.
    + split; [|naive_solver]. intros [Ho _]. rewrite Hfull in Ho by done. done.
    + f_equiv. split; intros (j & fl' & lk' & Hj & Hb).
      * exists j, fl', lk'. gsplit; done.
      * gsplit. eauto 10.
  - done.
Qed.

(** ** Transitions of blocks *)

(** The [gw_dom], [gw_avail], [gw_cls] and [gw_large] clauses when superblock
    [i] becomes or stays small. *)
Lemma kinds_to_small g i c fl lk ko :
  gwf sb g → g_kind g !! i = Some ko → ko ≠ KFree → ko ≠ KTail → (∀ k, ko ≠ KLarge k) →
  1 ≤ c < MAX_SZ_IDX →
  let kd := <[i := KSmall c fl lk]> (g_kind g) in
  (∀ j, is_Some (kd !! j) ↔ 1 ≤ j < g_n g) ∧
  (∀ j, j ∈ g_avail g ↔ kd !! j = Some KFree) ∧
  (∀ j c' fl' lk', kd !! j = Some (KSmall c' fl' lk') → 1 ≤ c' < MAX_SZ_IDX) ∧
  (∀ j k, kd !! j = Some (KLarge k) → 1 ≤ k ∧ k * SBSIZE < 2 ^ 32 ∧ j + k ≤ g_n g ∧
     ∀ j', j < j' < j + k → kd !! j' = Some KTail).
Proof.
  intros H Hi HF HT HL Hc kd. split_and!.
  - intros j. unfold kd. gsplit; [|apply (gw_dom _ _ H)]. rewrite <- (gw_dom _ _ H), Hi. split; eauto.
  - intros j. rewrite (gw_avail _ _ H). unfold kd. gsplit; naive_solver.
  - intros j c' fl' lk' Hj. unfold kd in Hj. gsplit; [done|]. apply (gw_cls _ _ H _ _ _ _ Hj).
  - intros j k Hj. unfold kd in Hj |- *. gsplit. destruct (gw_large _ _ H _ _ Hj) as (?&?&?&Ht).
    repeat split; try done. intros j' Hj'. gsplit; [|by apply Ht].
    rewrite Ht in Hi by done. congruence.
Qed.

(** Blocks of a superblock that is not small have no owner. *)
Lemma own_None g i c ko b :
  gwf sb g → g_kind g !! i = Some ko → (∀ c' fl lk, ko ≠ KSmall c' fl lk) →
  1 ≤ c < MAX_SZ_IDX → b ∈ blocks sb i c → g_own g !! b = None.
Proof.
  intros H Hi Hns Hc Hb. apply eq_None_not_Some. rewrite (gw_own _ _ H).
  intros (j & c' & fl & lk & Hj & Hb').
  pose proof (gw_cls _ _ H _ _ _ _ Hj). assert (i = j) as -> by (by eapply (blocks_same i j c c')).
  rewrite Hi in Hj. naive_solver.
Qed.

Lemma gh_newsb_wf g t i c :
  gwf sb g → g_kind g !! i = Some KHeld → 1 ≤ c < MAX_SZ_IDX → g_cache g (t, c) = [] →
  gwf sb (gh_newsb sb t i c g).
Proof.
  intros H Hi Hc Hnil.
  destruct (kinds_to_small g i c [] false KHeld H Hi) as (K1 & K2 & K3 & K4); try done.
  assert (∀ b, b ∈ blocks sb i c → g_own g !! b = None) as Hnone
    by (intros b; by apply (own_None g i c KHeld)).
  assert (∀ j c' fl lk b, g_kind g !! j = Some (KSmall c' fl lk) → b ∈ blocks sb i c →
            b ∈ blocks sb j c' → False) as Hdis.
  { intros j c' fl lk b Hj Hb Hb'. assert (i = j) as ->; [|congruence].
    apply (blocks_same i j c c' b); try done. apply (gw_cls _ _ H _ _ _ _ Hj). }
  gwf_start H; try done.
  - intros c' j. rewrite Wpart. gsplit; naive_solver.
  - intros b. gsplit.
    + split; [|eauto]. intros _. exists i, c, [], false. gsplit; done.
    + rewrite Wown. split; intros (j & c' & fl & lk & Hj & Hb).
      * exists j, c', fl, lk. gsplit; done.
      * gsplit; [done|]. eauto 10.
  - intros j c' fl lk Hj. gsplit; [apply NoDup_nil_2|eauto].
  - intros j c' fl lk Hj b. gsplit; set_solver.
  - intros [t' c']. destruct (decide ((t, c) = (t', c'))) as [E|];
      [injection E as <- <-; rewrite fn_lookup_insert; by apply NoDup_blocks
      |by rewrite fn_lookup_insert_ne].
  - intros t' c' b. destruct (decide ((t, c) = (t', c'))) as [E|].
    + injection E as <- <-. rewrite fn_lookup_insert. gsplit.
      * split; [|done]. intros _. split; [done|]. exists i, [], false. gsplit; done.
      * split; [done|]. intros [Ho (j & fl & lk & Hj & Hb)]. gsplit; [done|].
        assert (b ∈ g_cache g (t, c)) as Hbc by (apply Wcache; eauto 10).
        rewrite Hnil in Hbc. set_solver.
    + rewrite fn_lookup_insert_ne by done. rewrite Wcache. gsplit.
      * split.
        -- intros [Ho _]. rewrite Hnone in Ho by done. done.
        -- intros [[= <-] (j & fl & lk & Hj & Hb)]. gsplit; try congruence. exfalso. eauto.
      * f_equiv. split; intros (j & fl & lk & Hj & Hb).
        -- exists j, fl, lk. gsplit; done.
        -- gsplit; try done. eauto 10.
  - intros t' c'. destruct (decide ((t, c) = (t', c'))) as [E|];
      [injection E as <- <-; rewrite fn_lookup_insert, length_blocks; lia
      |rewrite fn_lookup_insert_ne by done; apply Wclen].
Qed.

(** A change of the free list of [i] together with the blocks of one cache. *)
Lemma gwf_move g t i c fl lk fl' own' cl' :
  gwf sb g → g_kind g !! i = Some (KSmall c fl lk) →
  (∀ b, is_Some (own' !! b) ↔ is_Some (g_own g !! b)) →
  (∀ b, b ∉ blocks sb i c → own' !! b = g_own g !! b) →
  NoDup fl' → (∀ b, b ∈ fl' ↔ own' !! b = Some OFree ∧ b ∈ blocks sb i c) →
  NoDup cl' → (∀ b, b ∈ blocks sb i c → (b ∈ cl' ↔ own' !! b = Some (OCache t))) →
  (∀ b, b ∉ blocks sb i c → (b ∈ cl' ↔ b ∈ g_cache g (t, c))) →
  (∀ b t', t' ≠ t → own' !! b = Some (OCache t') ↔ g_own g !! b = Some (OCache t')) →
  Z.of_nat (length cl') ≤ mc c →
  gwf sb (mkGhost (g_n g) (<[i := KSmall c fl' lk]> (g_kind g)) own' (g_avail g) (g_part g)
            (<[(t, c) := cl']> (g_cache g))).
Proof.
  intros H Hi Hsome Hout Hnd Hfl Hcnd Hcin Hcout Hoth Hlen.
  pose proof (gw_cls _ _ H _ _ _ _ Hi) as Hc.
  destruct (kinds_to_small g i c fl' lk _ H Hi) as (K1 & K2 & K3 & K4); try done.
  assert (∀ b, (∃ j c' fl2 lk2, <[i := KSmall c fl' lk]> (g_kind g) !! j = Some (KSmall c' fl2 lk2)
      ∧ b ∈ blocks sb j c') ↔
    (∃ j c' fl2 lk2, g_kind g !! j = Some (KSmall c' fl2 lk2) ∧ b ∈ blocks sb j c')) as Hex.
  { intros b. split; intros (j & c' & fl2 & lk2 & Hj & Hb).
    - gsplit; eauto 10.
    - destruct (decide (i = j)) as [<-|]; simplify_eq;
        [exists i, c, fl', lk|exists j, c', fl2, lk2]; gsplit; done. }
  assert (∀ b c', (∃ j fl2 lk2, <[i := KSmall c fl' lk]> (g_kind g) !! j = Some (KSmall c' fl2 lk2)
      ∧ b ∈ blocks sb j c') ↔
    (∃ j fl2 lk2, g_kind g !! j = Some (KSmall c' fl2 lk2) ∧ b ∈ blocks sb j c')) as Hex'.
  { intros b c'. split; intros (j & fl2 & lk2 & Hj & Hb).
    - gsplit; eauto 10.
    - destruct (decide (i = j)) as [<-|]; simplify_eq;
        [exists i, fl', lk|exists j, fl2, lk2]; gsplit; done. }
  pose proof (λ j c' fl2 lk2 b Hj Hb Hb',
    kind_same g i j c c' fl fl2 lk lk2 b H Hi Hj Hb Hb') as Hsame.
  gwf_start H; try done.
  - intros c' j. rewrite Wpart. gsplit; naive_solver.
  - intros b. rewrite Hsome, Wown, Hex. done.
  - intros j c' fl2 lk2 Hj. gsplit; eauto.
  - intros j c' fl2 lk2 Hj b. gsplit; [done|]. rewrite (Wfl _ _ _ _ Hj).
    destruct (decide (b ∈ blocks sb i c)) as [Hb|Hb]; [|by rewrite Hout].
    split; intros [_ Hb']; exfalso; by destruct (Hsame j c' fl2 lk2 b Hj Hb Hb') as (-> & _).
  - intros [t' c']. destruct (decide ((t, c) = (t', c'))) as [E|];
      [injection E as <- <-; by rewrite fn_lookup_insert|by rewrite fn_lookup_insert_ne].
  - intros t' c' b. rewrite Hex'. destruct (decide ((t, c) = (t', c'))) as [E|].
    + injection E as <- <-. rewrite fn_lookup_insert.
      destruct (decide (b ∈ blocks sb i c)) as [Hb|Hb].
      * rewrite Hcin by done. split; [|by intros [??]]. intros Ho. split; [done|]. eauto 10.
      * rewrite Hcout, Hout by done. apply Wcache.
    + rewrite fn_lookup_insert_ne by done. rewrite Wcache.
      destruct (decide (t' = t)) as [->|]; [|by rewrite Hoth].
      destruct (decide (b ∈ blocks sb i c)) as [Hb|Hb]; [|by rewrite Hout].
      split; intros [_ (j & fl2 & lk2 & Hj & Hb')]; exfalso;
        destruct (Hsame j c' fl2 lk2 b Hj Hb Hb') as (_ & -> & _); done.
  - intros t' c'. destruct (decide ((t, c) = (t', c'))) as [E|];
      [injection E as <- <-; rewrite fn_lookup_insert; lia
      |rewrite fn_lookup_insert_ne by done; apply Wclen].
Qed.

Lemma fl_subset g i c fl lk b :
  gwf sb g → g_kind g !! i = Some (KSmall c fl lk) → b ∈ fl →
  g_own g !! b = Some OFree ∧ b ∈ blocks sb i c.
Proof. intros H Hi Hb. by apply (gw_fl _ _ H _ _ _ _ Hi). Qed.

Lemma gh_fill_wf g t i c fl lk :
  gwf sb g → g_kind g !! i = Some (KSmall c fl lk) → g_cache g (t, c) = [] →
  gwf sb (gh_fill t i c fl lk g).
Proof.
  intros H Hi Hnil. pose proof (gw_cls _ _ H _ _ _ _ Hi) as Hc.
  pose proof (fl_subset g i c fl lk) as Hsub.
  apply (gwf_move g t i c fl lk [] _ fl); try done.
  - intros b. gsplit; [|done]. destruct (Hsub b) as [-> _]; done.
  - intros b Hb. gsplit; [|done]. exfalso. by destruct (Hsub b).
  - apply NoDup_nil_2.
  - intros b. gsplit; [set_solver|]. split; [set_solver|]. intros [Ho Hb].
    assert (b ∈ fl) by (by apply (gw_fl _ _ H _ _ _ _ Hi)). done.
  - apply (gw_fl_nd _ _ H _ _ _ _ Hi).
  - intros b Hb. gsplit; [done|]. split; [done|]. intros Ho. exfalso.
    assert (b ∈ g_cache g (t, c)) as Hbc by (apply (gw_cache _ _ H); eauto 10).
    rewrite Hnil in Hbc. set_solver.
  - intros b Hb. rewrite Hnil. split; [|set_solver]. intros Hb'.
    exfalso. by destruct (Hsub b).
  - intros b t' Ht'. gsplit; [|done]. destruct (Hsub b) as [-> _]; naive_solver.
  - apply (fl_length_le sb i c); [done|apply (gw_fl_nd _ _ H _ _ _ _ Hi)|].
    intros b Hb. by apply Hsub.
Qed.

Lemma cache_own g t c b :
  gwf sb g → b ∈ g_cache g (t, c) → g_own g !! b = Some (OCache t).
Proof. intros H Hb. by apply (gw_cache _ _ H) in Hb as [? _]. Qed.

Lemma gh_give_wf g t i c fl lk l1 l2 :
  gwf sb g → g_kind g !! i = Some (KSmall c fl lk) → g_cache g (t, c) = l1 ++ l2 →
  (∀ b, b ∈ l1 → b ∈ blocks sb i c) → gwf sb (gh_give t i c fl lk l1 l2 g).
Proof.
  intros H Hi El Hin. pose proof (gw_cls _ _ H _ _ _ _ Hi) as Hc.
  pose proof (gw_cache_nd _ _ H (t, c)) as Hnd. rewrite El in Hnd.
  apply NoDup_app in Hnd as (Hnd1 & Hdis & Hnd2).
  assert (∀ b, b ∈ l1 ++ l2 → g_own g !! b = Some (OCache t)) as Hoc
    by (intros b Hb; apply (cache_own g t c); [done|by rewrite El]).
  apply (gwf_move g t i c fl lk (l1 ++ fl) _ l2); try done.
  - intros b. gsplit; [|done]. rewrite Hoc by set_solver. split; eauto.
  - intros b Hb. gsplit; [|done]. exfalso. eauto.
  - apply NoDup_app. split; [done|]. split; [|apply (gw_fl_nd _ _ H _ _ _ _ Hi)].
    intros b Hb Hb'. apply (fl_subset g i c fl lk) in Hb' as [Ho _]; try done.
    rewrite Hoc in Ho by set_solver. done.
  - intros b. rewrite elem_of_app. gsplit; [naive_solver|].
    rewrite (gw_fl _ _ H _ _ _ _ Hi). naive_solver.
  - intros b Hb. gsplit; [naive_solver|]. split; [intros; apply Hoc; set_solver|].
    intros Ho. assert (b ∈ g_cache g (t, c)) as Hbc by (apply (gw_cache _ _ H); eauto 10).
    rewrite El in Hbc. set_solver.
  - intros b Hb. rewrite El. split; [set_solver|]. intros [Hb'|?]%elem_of_app; [|done].
    exfalso. eauto.
  - intros b t' Ht'. gsplit; [|done]. rewrite Hoc by set_solver. naive_solver.
  - pose proof (gw_cache_len _ _ H t c) as Hl. rewrite El, length_app in Hl.
    destruct (bs_mc c Hc) as (_ & _ & ? & _). lia.
Qed.

(** Every cached block lies in a small superblock of its class. *)
Lemma cache_block g t c b :
  gwf sb g → b ∈ g_cache g (t, c) →
  ∃ i fl lk, g_kind g !! i = Some (KSmall c fl lk) ∧ b ∈ blocks sb i c.
Proof. intros H Hb. by apply (gw_cache _ _ H) in Hb as [_ ?]. Qed.

Lemma gh_pop_wf g t c b l :
  gwf sb g → g_cache g (t, c) = b :: l → gwf sb (gh_pop t c b l g).
Proof.
  intros H El. assert (b ∈ g_cache g (t, c)) as Hb by (rewrite El; left).
  pose proof (cache_own _ _ _ _ H Hb) as Ho.
  destruct (cache_block _ _ _ _ H Hb) as (i & fl & lk & Hi & Hbi).
  pose proof (gw_cache_nd _ _ H (t, c)) as Hnd. rewrite El in Hnd.
  apply NoDup_cons in Hnd as [Hni Hnd]. unfold gh_pop.
  rewrite <- (insert_id (g_kind g) i (KSmall c fl lk)) by done.
  apply (gwf_move g t i c fl lk fl _ l); try done.
  - intros x. gsplit; [|done]. split; eauto.
  - intros x Hx. gsplit; done.
  - apply (gw_fl_nd _ _ H _ _ _ _ Hi).
  - intros x. rewrite (gw_fl _ _ H _ _ _ _ Hi). gsplit; naive_solver.
  - intros x Hx. pose proof (gw_cache _ _ H t c x) as Hc. rewrite El, elem_of_cons in Hc.
    gsplit; naive_solver.
  - intros x Hx. rewrite El. set_solver.
  - intros x t' Ht. gsplit; naive_solver.
  - pose proof (gw_cache_len _ _ H t c) as Hl. rewrite El in Hl. cbn in Hl.
    destruct (bs_mc c) as (_ & _ & ? & _); [apply (gw_cls _ _ H _ _ _ _ Hi)|]. lia.
Qed.

Lemma gh_push_wf g t c b i fl lk :
  gwf sb g → g_kind g !! i = Some (KSmall c fl lk) → b ∈ blocks sb i c →
  g_own g !! b = Some OLive → Z.of_nat (length (g_cache g (t, c))) < mc c →
  gwf sb (gh_push t c b g).
Proof.
  intros H Hi Hbi Ho Hl. unfold gh_push.
  rewrite <- (insert_id (g_kind g) i (KSmall c fl lk)) by done.
  assert (b ∉ g_cache g (t, c)) as Hni.
  { intros Hb. apply (cache_own _ _ _ _ H) in Hb. congruence. }
  apply (gwf_move g t i c fl lk fl _ (b :: g_cache g (t, c))); try done.
  - intros x. gsplit; [|done]. split; eauto.
  - intros x Hx. gsplit; done.
  - apply (gw_fl_nd _ _ H _ _ _ _ Hi).
  - intros x. rewrite (gw_fl _ _ H _ _ _ _ Hi). gsplit; naive_solver.
  - apply NoDup_cons. split; [done|]. apply (gw_cache_nd _ _ H).
  - intros x Hx. rewrite elem_of_cons, (gw_cache _ _ H). gsplit; [naive_solver|].
    split; [naive_solver|]. intros Hox. right. eauto 10.
  - intros x Hx. set_solver.
  - intros x t' Ht. gsplit; naive_solver.
  - cbn [length]. lia.
Qed.
End Preserve.
