(* ===== verification/Rep.v ===== *)
(** * Representation of the ghost transitions

    For each kind of change of the concrete state, the conditions under which the
    new state represents the new ghost view. *)

From Stdlib Require Import ZArith Lia.
From stdpp Require Import base gmap numbers functions list.
From S2P Require Import Prelude Mem Config Pptr SizeClass Region Meta MetaFacts TCache Heap Inv Ghost.

Local Open Scope Z_scope.

Lemma dget_insert_eq ds d v : dget (<[d := v]> ds) d = v.
Proof. unfold dget. by rewrite lookup_insert_eq. Qed.

Lemma dget_insert_ne ds d d' v : d ≠ d' → dget (<[d := v]> ds) d' = dget ds d'.
Proof. intros. unfold dget. by rewrite lookup_insert_ne. Qed.

Lemma get_desc_upd d f s : get_desc (upd_desc d f s) d = f (get_desc s d).
Proof. unfold get_desc, upd_desc, put_desc. cbn. by rewrite lookup_insert_eq. Qed.

Lemma head_is_ext rg rg' raw p :
  regions_address rg = regions_address rg' → head_is rg raw p → head_is rg' raw p.
Proof.
  intros E [Hr Hp]. split; [done|]. rewrite <- Hp.
  unfold acpc_unpack, translate, rlookup. by rewrite E.
Qed.

Section Rep.
Context (db sb mb : Z) (HG : geom db sb mb).

(** Changes of the superblock lists and the region: no small superblock, cache
    or partial list changes. *)
Lemma InvC_kinds g g' m ds ds' av av' hs tc rg rg' :
  InvC db sb mb g m ds av hs tc rg → gwf sb g' → 1 ≤ g_n g' →
  rg_at rg' db sb mb → length (regions rg') = LAST_IDX →
  region_at (rget rg' SB_IDX) (B sb (g_n g')) →
  base_addr (rget rg' SB_IDX) ≤ sb ∧
    base_addr (rget rg' SB_IDX) + FILESIZE (rget rg' SB_IDX) < B sb MAX_SB_AMOUNT →
  g_part g' = g_part g → g_cache g' = g_cache g →
  (∀ i c fl lk, g_kind g' !! i = Some (KSmall c fl lk) → g_kind g !! i = Some (KSmall c fl lk)) →
  (∀ i c fl lk, g_kind g' !! i = Some (KSmall c fl lk) → dget ds' (D db i) = dget ds (D db i)) →
  (∀ i k, g_kind g' !! i = Some (KLarge k) → desc_large i k (dget ds' (D db i))) →
  (∃ p, head_is rg' av' p ∧ dchain db (dnext_free ds') p (g_avail g')) →
  InvC db sb mb g' m ds' av' hs tc rg'.
Proof using.
  intros H Hwf Hn Hrg Hlen Hreg Hmax Epart Ecache Hsub Hds Hlg Hav.
  destruct H as [Vwf Vrg Vlen Vn Vreg Vmax Vsm Vlg Vav Vhs Vpt Vca].
  constructor; try done.
  - intros i c fl lk Hi. rewrite (Hds _ _ _ _ Hi). apply (Vsm i c fl lk). eauto.
  - intros c Hc. destruct (Vpt c Hc) as (p & Hp & Hch). exists p. split.
    + eapply head_is_ext; [|done]. unfold rg_at in *. congruence.
    + rewrite Epart. apply (dchain_ext db (dnext_partial ds)); [|done].
      intros i Hi. rewrite <- Epart in Hi. apply (gw_part _ _ Hwf) in Hi as [fl Hi].
      unfold dnext_partial. by rewrite (Hds _ _ _ _ Hi).
  - by rewrite Ecache.
Qed.

(** Changes of one small superblock [i] of class [c] and of the cache [(t, c)]. *)
Lemma InvC_small g g' m m' ds ds' av hs hs' tc tc' rg t i c fl lk :
  InvC db sb mb g m ds av hs tc rg → gwf sb g' →
  g_n g' = g_n g → g_avail g' = g_avail g →
  g_kind g' = <[i := KSmall c fl lk]> (g_kind g) →
  (∀ k, g_kind g !! i ≠ Some (KLarge k)) →
  (∀ c', c' ≠ c → g_part g' c' = g_part g c') →
  (∀ tc1, tc1 ≠ (t, c) → g_cache g' tc1 = g_cache g tc1) →
  (∀ j, j ≠ i → dget ds' (D db j) = dget ds (D db j)) →
  desc_small db sb mb i c fl (dget ds' (D db i)) → chain m' (from_option id 0 (head fl)) fl →
  (∀ c', c' ≠ c → hs' !! c' = hs !! c') → sc_idx (default (mkHeap 0 0) (hs' !! c)) = c →
  (∃ p, head_is rg (partial_list (default (mkHeap 0 0) (hs' !! c))) p ∧
        dchain db (dnext_partial ds') p (g_part g' c)) →
  (∀ tc1, tc1 ≠ (t, c) → tc' !! tc1 = tc !! tc1) →
  (let bin := default TCacheBin_ctor (tc' !! (t, c)) in
   _block_num bin = Z.of_nat (length (g_cache g' (t, c))) ∧
   chain m' (_block bin) (g_cache g' (t, c))) →
  (∀ j c' fl' lk', j ≠ i → g_kind g !! j = Some (KSmall c' fl' lk') →
     ∀ x, x ∈ fl' → pload m' x = pload m x) →
  (∀ tc1, tc1 ≠ (t, c) → ∀ x, x ∈ g_cache g tc1 → pload m' x = pload m x) →
  InvC db sb mb g' m' ds' av hs' tc' rg.
Proof using.
  intros H Hwf En Eav Ek Hnl Hpt Hca Hds Hd Hch Hhs Hsc Hp Htc Hbin Hmf Hmc.
  destruct H as [Vwf Vrg Vlen Vn Vreg Vmax Vsm Vlg Vav Vhs Vpt Vca].
  assert (g_kind g' !! i = Some (KSmall c fl lk)) as Hi by (rewrite Ek; apply lookup_insert_eq).
  assert (∀ j, j ≠ i → g_kind g' !! j = g_kind g !! j) as Hj
    by (intros j ?; rewrite Ek; by apply lookup_insert_ne).
  constructor; rewrite ?En; try done.
  - intros j c' fl' lk' Hk. destruct (decide (j = i)) as [->|Hne].
    + rewrite Hi in Hk. by simplify_eq.
    + rewrite Hj in Hk by done. rewrite Hds by done. destruct (Vsm _ _ _ _ Hk) as [??].
      split; [done|]. eapply chain_ext; [|done]. eauto.
  - intros j k Hk. destruct (decide (j = i)) as [->|Hne]; [congruence|].
    rewrite Hj in Hk by done. rewrite Hds by done. eauto.
  - rewrite Eav. destruct Vav as (p & Hp' & Hch'). exists p. split; [done|].
    apply (dchain_ext db (dnext_free ds)); [|done]. intros j Hja.
    unfold dnext_free. rewrite Hds; [done|]. intros ->.
    rewrite <- Eav in Hja. apply (gw_avail _ _ Hwf) in Hja. congruence.
  - intros c' Hc'. destruct (decide (c' = c)) as [->|]; [done|]. rewrite Hhs by done. eauto.
  - intros c' Hc'. destruct (decide (c' = c)) as [->|]; [done|].
    rewrite Hhs, Hpt by done. destruct (Vpt c' Hc') as (p' & Hp' & Hch'). exists p'.
    split; [done|]. apply (dchain_ext db (dnext_partial ds)); [|done]. intros j Hja.
    unfold dnext_partial. rewrite Hds; [done|]. intros ->.
    rewrite <- Hpt in Hja by done. apply (gw_part _ _ Hwf) in Hja as [fl' Hja]. congruence.
  - intros t' c'. destruct (decide ((t', c') = (t, c))) as [[= -> ->]|Hne]; [done|].
    rewrite Htc, Hca by done. destruct (Vca t' c') as [??]. split; [done|].
    eapply chain_ext; [|done]. by apply Hmc.
Qed.
End Rep.
