(* ===== verification/Trans.v ===== *)
(** * What an internal operation leaves unchanged

    [trans tc g s g' s']: from [s] (representing [g]) to [s'] (representing
    [g']) the blocks held by the program, their contents, the roots, the size of
    the superblock region and all caches but [tc] are the same. *)

From Stdlib Require Import ZArith Lia.
From stdpp Require Import base gmap numbers functions list.
From S2P Require Import Prelude Mem Config Pptr SizeClass Region Meta MetaFacts TCache Heap Inv Ghost.

Local Open Scope Z_scope.
#[local] Set Warnings "-clear-no-such-hyp".

Definition region_end (s : state) : Z :=
  base_addr (rget (rgs s) SB_IDX) + FILESIZE (rget (rgs s) SB_IDX).

Record trans (sb : Z) (tc : nat * Z) (g : ghost) (s : state) (g' : ghost) (s' : state) : Prop := {
  tr_live : ∀ p z, live sb g' p z ↔ live sb g p z;
  tr_cache : ∀ tc', tc' ≠ tc → g_cache g' tc' = g_cache g tc';
  tr_mem : ∀ p z a, live sb g p z → p ≤ a < p + z → load8 (smem s') a = load8 (smem s) a;
  tr_roots : roots s' = roots s;
  tr_end : region_end s' = region_end s
}.

Lemma trans_refl sb tc g s : trans sb tc g s g s.
Proof. by constructor. Qed.

Lemma trans_trans sb tc g s g1 s1 g2 s2 :
  trans sb tc g s g1 s1 → trans sb tc g1 s1 g2 s2 → trans sb tc g s g2 s2.
Proof.
  intros [L1 C1 M1 R1 E1] [L2 C2 M2 R2 E2]. constructor; try congruence.
  - intros p z. by rewrite L2.
  - intros tc' Hne. by rewrite C2, C1.
  - intros p z a Hl Ha. rewrite (M2 p z); [by apply (M1 p z)|by apply L1|done].
Qed.

(** An update that leaves the superblock memory alone. *)
Lemma trans_intro sb tc g s g' s' :
  (∀ p z, live sb g' p z ↔ live sb g p z) →
  (∀ tc', tc' ≠ tc → g_cache g' tc' = g_cache g tc') →
  smem s' = smem s → roots s' = roots s → region_end s' = region_end s →
  trans sb tc g s g' s'.
Proof. intros ? ? Em ? ?. constructor; try done. intros. by rewrite Em. Qed.

Section Live.
Context (sb : Z).

Lemma live_same g g' :
  (∀ p, g_own g' !! p = Some OLive ↔ g_own g !! p = Some OLive) →
  (∀ i c p, p ∈ blocks sb i c → g_own g !! p = Some OLive →
     (∃ fl lk, g_kind g' !! i = Some (KSmall c fl lk)) ↔
     (∃ fl lk, g_kind g !! i = Some (KSmall c fl lk))) →
  (∀ i k, g_kind g' !! i = Some (KLarge k) ↔ g_kind g !! i = Some (KLarge k)) →
  ∀ p z, live sb g' p z ↔ live sb g p z.
Proof using.
  intros Ho Hs Hl p z. unfold live. f_equiv; [|by setoid_rewrite Hl].
  split.
  - intros (i & c & fl & lk & Hk & Hb & Hp & ->). apply Ho in Hp.
    destruct (proj1 (Hs i c p Hb Hp)) as (fl' & lk' & Hk'); [eauto|]. exists i, c, fl', lk'. done.
  - intros (i & c & fl & lk & Hk & Hb & Hp & ->).
    destruct (proj2 (Hs i c p Hb Hp)) as (fl' & lk' & Hk'); [eauto|]. apply Ho in Hp.
    exists i, c, fl', lk'. done.
Qed.

(** Owners change on blocks that are not live before or after. *)
Lemma own_mset o l g p :
  o ≠ OLive → (∀ b, b ∈ l → g_own g !! b ≠ Some OLive) →
  mset o l (g_own g) !! p = Some OLive ↔ g_own g !! p = Some OLive.
Proof using. intros Ho Hl. gsplit; [|done]. split; [congruence|]. by intros ?%Hl. Qed.

Lemma small_insert g i c fl lk :
  (∃ fl' lk', g_kind g !! i = Some (KSmall c fl' lk')) → ∀ i' c',
  (∃ fl' lk', <[i := KSmall c fl lk]> (g_kind g) !! i' = Some (KSmall c' fl' lk')) ↔
  (∃ fl' lk', g_kind g !! i' = Some (KSmall c' fl' lk')).
Proof using.
  intros Hi i' c'. gsplit; [|done]. split.
  - intros (? & ? & E). by simplify_eq.
  - destruct Hi as (fl1 & lk1 & Hi). intros (? & ? & Hi'). rewrite Hi in Hi'. simplify_eq. eauto.
Qed.

Lemma large_insert g i k :
  (∀ n, g_kind g !! i ≠ Some (KLarge n)) → (∀ n, k ≠ KLarge n) → ∀ i' n,
  <[i := k]> (g_kind g) !! i' = Some (KLarge n) ↔ g_kind g !! i' = Some (KLarge n).
Proof using. intros Hi Hk i' n. gsplit; [|done]. naive_solver. Qed.

Lemma live_unlink g i c fl l lk :
  g_kind g !! i = Some (KSmall c fl lk) → ∀ p z, live sb (gh_unlink i c fl l g) p z ↔ live sb g p z.
Proof using.
  intros Hi. apply live_same; cbn; [done| |].
  - intros i' c' p _ _. apply small_insert; eauto.
  - apply large_insert; naive_solver.
Qed.

Lemma live_link g i c fl lk :
  g_kind g !! i = Some (KSmall c fl lk) → ∀ p z, live sb (gh_link i c fl g) p z ↔ live sb g p z.
Proof using.
  intros Hi. apply live_same; cbn; [done| |].
  - intros i' c' p _ _. apply small_insert; eauto.
  - apply large_insert; naive_solver.
Qed.

Lemma live_fill t g i c fl lk :
  gwf sb g → g_kind g !! i = Some (KSmall c fl lk) →
  ∀ p z, live sb (gh_fill t i c fl lk g) p z ↔ live sb g p z.
Proof using.
  intros H Hi. apply live_same; cbn.
  - intros p. apply own_mset; [done|]. intros b Hb. apply (fl_subset sb g i c fl lk) in Hb as [-> _]; done.
  - intros i' c' p _ _. apply small_insert; eauto.
  - apply large_insert; naive_solver.
Qed.

Lemma live_give t g i c fl lk l1 l2 :
  gwf sb g → g_kind g !! i = Some (KSmall c fl lk) → g_cache g (t, c) = l1 ++ l2 →
  ∀ p z, live sb (gh_give t i c fl lk l1 l2 g) p z ↔ live sb g p z.
Proof using.
  intros H Hi El. apply live_same; cbn.
  - intros p. apply own_mset; [done|]. intros b Hb.
    rewrite (cache_own sb g t c b); [done|done|]. rewrite El. set_solver.
  - intros i' c' p _ _. apply small_insert; eauto.
  - apply large_insert; naive_solver.
Qed.

Lemma live_retire g i c fl lk :
  gwf sb g → g_kind g !! i = Some (KSmall c fl lk) → Z.of_nat (length fl) = mc c →
  ∀ p z, live sb (gh_retire sb i c g) p z ↔ live sb g p z.
Proof using.
  intros H Hi Hl. pose proof (full_all_free sb g i c fl lk) as Hfull. apply live_same; cbn.
  - intros p. gsplit; [|done]. split; [done|]. rewrite Hfull by done. done.
  - intros i' c' p Hp Ho. gsplit; [|done]. split; [naive_solver|]. intros (? & ? & Hi').
    simplify_eq. rewrite Hfull in Ho by done. done.
  - apply large_insert; naive_solver.
Qed.

Lemma live_newsb t g i c :
  gwf sb g → g_kind g !! i = Some KHeld → 1 ≤ c < MAX_SZ_IDX →
  ∀ p z, live sb (gh_newsb sb t i c g) p z ↔ live sb g p z.
Proof using.
  intros H Hi Hc. pose proof (own_None sb g i c KHeld) as Hn. apply live_same; cbn.
  - intros p. apply own_mset; [done|]. intros b Hb. rewrite Hn; done.
  - intros i' c' p Hp Ho. gsplit; [|done]. split; [|naive_solver]. intros (? & ? & E). simplify_eq.
    rewrite Hn in Ho; done.
  - apply large_insert; naive_solver.
Qed.

Lemma live_take g i l :
  gwf sb g → g_avail g = i :: l → ∀ p z, live sb (gh_take i l g) p z ↔ live sb g p z.
Proof using.
  intros H El. assert (g_kind g !! i = Some KFree) as Hi by (apply (gw_avail _ _ H); rewrite El; left).
  apply live_same; cbn; [done| |].
  - intros i' c' p Hp Ho. gsplit; naive_solver.
  - apply large_insert; naive_solver.
Qed.

Lemma live_expand g k :
  gwf sb g → 1 ≤ g_n g → 1 ≤ k → ∀ p z, live sb (gh_expand k g) p z ↔ live sb g p z.
Proof using.
  intros H Hn Hk. assert (∀ i, g_n g ≤ i → g_kind g !! i = None) as Hout
    by (intros i Hi; apply (kind_None sb); [done|lia]).
  apply live_same; cbn; [done| |].
  - intros i' c' p Hp Ho. gsplit; rewrite ?elem_of_seqZ in *; try done;
      rewrite Hout by lia; naive_solver.
  - intros i' n. gsplit; rewrite ?elem_of_seqZ in *; try done; rewrite Hout by lia; naive_solver.
Qed.
End Live.

(** Operations that touch one superblock and the free superblocks. *)
Lemma settled_set g g' i k :
  settled g → g_kind g' !! i = Some k → k ≠ KHeld →
  (∀ c fl lk, k = KSmall c fl lk → lk = true ↔ fl ≠ []) →
  (∀ j, j ≠ i → g_kind g' !! j = g_kind g !! j ∨ g_kind g' !! j = Some KFree) →
  settled g'.
Proof.
  intros [S1 S2] Hi Hh Hs Hj. split.
  - intros j. destruct (decide (j = i)) as [->|Hne]; [congruence|].
    destruct (Hj j Hne) as [-> | ->]; [apply S1|done].
  - intros j c fl lk Hk. destruct (decide (j = i)) as [->|Hne].
    + rewrite Hi in Hk. injection Hk as ->. by eapply Hs.
    + destruct (Hj j Hne) as [E|E]; rewrite E in Hk; [by eapply S2|done].
Qed.
