(* ===== verification/SbSpec.v ===== *)
(** * Superblock lists

    What [organize_sb_list], [small_sb_retire], [small_sb_alloc] and the large
    block operations do to the free-superblock list, as total-correctness
    triples over the heap invariant. *)

From Stdlib Require Import ZArith Lia.
From stdpp Require Import base gmap numbers functions list.
From S2P Require Import Prelude Mem Config Pptr SizeClass Region Meta MetaFacts TCache Heap Inv Ghost Rep Trans.

Local Open Scope Z_scope.

(** [s] with another descriptor region, free-list head and log. *)
Definition with_sbs (ds : gmap Z Descriptor) (av : Z) (pl : list pevent) (s : state) : state :=
  mkState (smem s) ds av (heaps s) (roots s) (t_caches s) (rgs s) pl.

Lemma with_sbs_id s : s = with_sbs (descs s) (avail_sb s) (plog s) s.
Proof. by destruct s. Qed.

Section SbSpec.
Context (db sb mb : Z) (HG : geom db sb mb).

Lemma head_is_range s p : head_is (rgs s) (avail_sb s) p → get_ptr (avail_load s) = p.
Proof using. by intros [_ ?]. Qed.

(** A compare-and-swap that expects what was just loaded succeeds. *)
Lemma acpc_cas_loaded rg raw new :
  rg_at rg db sb mb → 0 ≤ raw < 2 ^ 64 →
  acpc_cas_strong rg DESC_IDX raw (acpc_load rg DESC_IDX raw) new =
    (true, acpc_store rg DESC_IDX new, acpc_load rg DESC_IDX raw).
Proof using HG.
  intros Hrg Hr. unfold acpc_cas_strong, acpc_cas_gen, acpc_load.
  rewrite (acpc_pack_unpack db sb mb HG rg Hrg raw Hr), Z.eqb_refl. done.
Qed.

Lemma acpc_store_range rg pc :
  rg_at rg db sb mb → 0 ≤ get_counter pc →
  (get_ptr pc = 0 ∨ ∃ i, 0 < i < MAX_DESC_AMOUNT ∧ get_ptr pc = D db i) →
  head_is rg (acpc_store rg DESC_IDX pc) (get_ptr pc).
Proof using HG.
  intros Hrg Hc Hp. unfold head_is, acpc_store. destruct pc as [p cnt]. cbn [get_ptr get_counter] in *.
  pose proof (Z.mod_pos_bound cnt (2 ^ 34)). destruct Hp as [->|(i & Hi & ->)].
  - rewrite (acpc_unpack_null db sb mb HG rg Hrg), acpc_pack_null by done. split; [lia|done].
  - rewrite (acpc_unpack_pack db sb mb HG rg Hrg) by done.
    rewrite (acpc_pack_arith db sb mb HG rg Hrg) by done. split; [|done].
    change DESCSIZE with 64. change MAX_DESC_AMOUNT with (2 ^ 24) in *. lia.
Qed.

(** A link word of a list of descriptors. *)
Definition list_ok (l : list Z) : Prop := ∀ i, i ∈ l → 0 < i < MAX_DESC_AMOUNT.

Lemma dchain_addr nxt p l : list_ok l → dchain db nxt p l → addr_ok p.
Proof using HG.
  destruct l as [|i l]; cbn; [intros _ ->; unfold addr_ok; lia|].
  intros Hl [-> _]. apply (D_addr_ok db sb mb HG). specialize (Hl i ltac:(left)). lia.
Qed.

Lemma dchain_head nxt p l :
  list_ok l → dchain db nxt p l → p = 0 ∨ ∃ i, 0 < i < MAX_DESC_AMOUNT ∧ p = D db i.
Proof using.
  destruct l as [|i l]; cbn; [by left|]. intros Hl [-> _]. right. exists i.
  split; [apply Hl; left|done].
Qed.

Lemma unpack_counter rg raw : 0 ≤ raw → 0 ≤ get_counter (acpc_unpack rg DESC_IDX raw).
Proof using. intros. cbn. apply Z.shiftr_nonneg. done. Qed.

Lemma dnext_free_store ds i v :
  0 ≤ i < MAX_DESC_AMOUNT → addr_ok v →
  dnext_free (<[D db i := with_next_free (atomic_pptr_store (D db i) v) (dget ds (D db i))]> ds)
    (D db i) = v.
Proof using HG.
  intros Hi Hv. unfold dnext_free. rewrite dget_insert_eq. cbn.
  apply link_load_store; [done|]. by apply (D_addr_ok db sb mb HG).
Qed.

(** A link of a list is what the program loads. *)
Lemma dchain_nonneg nxt p l : list_ok l → dchain db nxt p l → 0 ≤ p.
Proof using HG. intros Hl H. apply dchain_addr in H; [|done]. unfold addr_ok in H. lia. Qed.

Lemma next_free_link s d l :
  list_ok l → dchain db (dnext_free (descs s)) (dnext_free (descs s) d) l →
  next_free_load s d = dnext_free (descs s) d.
Proof using HG. intros Hl H. apply link_load_val. by apply (dchain_nonneg _ _ l) in H. Qed.

Lemma next_partial_link s d l :
  list_ok l → dchain db (dnext_partial (descs s)) (dnext_partial (descs s) d) l →
  next_partial_load s d = dnext_partial (descs s) d.
Proof using HG. intros Hl H. apply link_load_val. by apply (dchain_nonneg _ _ l) in H. Qed.

Lemma D_next i : 0 ≤ i → i + 1 < MAX_DESC_AMOUNT → u64 (D db i + DESCSIZE) = D db (i + 1).
Proof using HG.
  intros Hi Hn. pose proof (D_ok db sb mb HG (i + 1) ltac:(lia)).
  replace (D db i + DESCSIZE) with (D db (i + 1)) by (unfold D; lia). apply u64_small. lia.
Qed.

(** The chain built by [organize_loop]. *)
Lemma organize_loop_spec n i s :
  0 ≤ i → i + Z.of_nat n < MAX_DESC_AMOUNT →
  wp (organize_loop n (D db i)) (λ r s', r = D db (i + Z.of_nat n) ∧
    ∃ ds pl, s' = with_sbs ds (avail_sb s) pl s ∧
      (∀ j, ¬ i ≤ j ≤ i + Z.of_nat n → dget ds (D db j) = dget (descs s) (D db j)) ∧
      (∀ j, i ≤ j < i + Z.of_nat n → dnext_free ds (D db j) = D db (j + 1))) s.
Proof using HG.
  revert i s. induction n as [|n IH]; intros i s Hi Hn; cbn [organize_loop].
  - wp_steps. replace (i + Z.of_nat 0) with i by lia. split; [done|].
    exists (descs s), (plog s). split; [apply with_sbs_id|]. split; [done|lia].
  - rewrite D_next by lia. unfold next_free_store, construct_desc, FLUSH, FLUSHFENCE.
    wp_steps. eapply wp_mono; [apply IH; lia|]. cbn beta.
    intros r s' (-> & ds & pl & -> & Hout & Hin). split; [f_equal; lia|].
    exists ds, pl. split; [done|]. split.
    + intros j Hj. rewrite Hout by lia. cbn.
      rewrite !dget_insert_ne by (intros ?%D_inj; lia). done.
    + intros j Hj. destruct (decide (j = i)) as [->|]; [|apply Hin; lia].
      unfold dnext_free. rewrite Hout by lia. cbn.
      rewrite dget_insert_ne by (intros ?%D_inj; lia).
      apply (dnext_free_store (descs s)); [lia|].
      apply (D_addr_ok db sb mb HG). lia.
Qed.

(** Publication of a chain. *)
Lemma avail_push_spec n f l s p :
  rg_at (rgs s) db sb mb → head_is (rgs s) (avail_sb s) p →
  0 < f < MAX_DESC_AMOUNT →
  wp (avail_push_loop (S n) (D db f) (D db l) (avail_load s)) (λ _ s',
    ∃ av pl, head_is (rgs s) av (D db f) ∧
      s' = with_sbs (<[D db l := with_next_free (atomic_pptr_store (D db l) p)
                                   (dget (descs s) (D db l))]> (descs s)) av pl s) s.
Proof using HG.
  intros Hrg Hh Hf. pose proof (head_is_range _ _ Hh) as Hp. destruct Hh as [Hr _].
  cbn [avail_push_loop]. unfold next_free_store, avail_sb_cas. wp_steps.
  cbn [rgs avail_sb upd_desc put_desc upd_descs log].
  rewrite (acpc_cas_loaded (rgs s) (avail_sb s)) by done.
  wp_steps. eexists _, _. split; [|by rewrite Hp].
  apply (acpc_store_range (rgs s) (PtrCnt (D db f) (u64 (get_counter (avail_load s) + 1))));
    [done|apply u64_range|]. right. eauto.
Qed.

Lemma dchain_seq nxt i n l q :
  (∀ j, i ≤ j < i + Z.of_nat n → nxt (D db j) = D db (j + 1)) →
  nxt (D db (i + Z.of_nat n)) = q → dchain db nxt q l →
  dchain db nxt (D db i) (seqZ i (Z.of_nat (S n)) ++ l).
Proof using.
  revert i. induction n as [|n IH]; intros i Hn Hl Hc.
  - cbn. rewrite Z.add_0_r in *. split; [done|]. by rewrite Hl.
  - rewrite Nat2Z.inj_succ, seqZ_cons by lia. cbn [app dchain]. split; [done|].
    rewrite Hn by lia. replace (Z.pred (Z.succ (Z.of_nat (S n)))) with (Z.of_nat (S n)) by lia.
    replace (Z.succ i) with (i + 1) by lia. apply IH; [|by rewrite <- Hl; do 2 f_equal; lia|done].
    intros j Hj. apply Hn. lia.
Qed.

Lemma desc_lookup_B rg i :
  rg_at rg db sb mb → 0 ≤ i < MAX_DESC_AMOUNT → desc_lookup rg (B sb i) = D db i.
Proof using HG.
  intros Hrg Hi. apply (desc_lookup_sb db sb mb HG rg Hrg); [done|].
  unfold B. change SBSIZE with 65536. lia.
Qed.

(** [organize_sb_list]: the descriptors of [cnt] superblocks from [i] on are
    chained in order and put in front of the free list. *)
Lemma organize_sb_list_spec fuel i cnt s p l :
  (1 ≤ fuel)%nat → rg_at (rgs s) db sb mb →
  1 ≤ i → 1 ≤ cnt → i + cnt ≤ MAX_DESC_AMOUNT →
  head_is (rgs s) (avail_sb s) p → dchain db (dnext_free (descs s)) p l →
  list_ok l → (∀ j, j ∈ l → ¬ i ≤ j < i + cnt) →
  wp (organize_sb_list fuel (B sb i) cnt) (λ _ s',
    ∃ ds av pl, s' = with_sbs ds av pl s ∧
      (∀ j, ¬ i ≤ j < i + cnt → dget ds (D db j) = dget (descs s) (D db j)) ∧
      head_is (rgs s) av (D db i) ∧
      dchain db (dnext_free ds) (D db i) (seqZ i cnt ++ l)) s.
Proof using HG.
  intros Hf Hrg Hi Hcnt Hmax Hh Hch Hl Hdis. destruct fuel as [|fuel]; [lia|].
  assert (∃ n, cnt = Z.of_nat (S n)) as [n ->] by (exists (Z.to_nat (cnt - 1)); lia).
  unfold organize_sb_list. replace (Z.to_nat (Z.of_nat (S n) - 1)) with n by lia. wp_steps.
  rewrite desc_lookup_B by (done || lia).
  unfold construct_desc, FLUSH, FLUSHFENCE. wp_steps.
  eapply wp_mono; [apply organize_loop_spec; lia|].
  cbn beta. intros r s1 (-> & ds & pl & -> & Hout & Hin). wp_steps.
  eapply wp_mono; [by apply (avail_push_spec _ _ _ _ p); [..|lia]|].
  cbn beta. intros _ s2 (av & pl2 & Hav & ->). eexists _, av, _. split; [done|].
  cbn [with_sbs descs]. split; [|split; [done|]].
  - intros j Hj. rewrite dget_insert_ne by (intros ?%D_inj; lia). rewrite Hout by lia. cbn.
    rewrite dget_insert_ne by (intros ?%D_inj; lia). done.
  - eapply dchain_seq.
    + intros j Hj. rewrite <- (Hin j Hj). unfold dnext_free.
      by rewrite dget_insert_ne by (intros ?%D_inj; lia).
    + apply dnext_free_store; [lia|]. by eapply dchain_addr.
    + apply (dchain_ext db (dnext_free (descs s))); [|done]. intros j Hj.
      specialize (Hdis j Hj). unfold dnext_free.
      rewrite dget_insert_ne by (intros ?%D_inj; lia). rewrite Hout by lia. cbn.
      by rewrite dget_insert_ne by (intros ?%D_inj; lia).
Qed.

(** Retiring one superblock is organizing a list of one. *)
Lemma small_sb_retire_organize fuel a s :
  small_sb_retire fuel a SBSIZE s = organize_sb_list fuel a 1 s.
Proof using. reflexivity. Qed.

(** The superblock indices of a list of the heap are descriptor indices. *)
Lemma inv_index g m ds av hs tc rg i :
  InvC db sb mb g m ds av hs tc rg → 1 ≤ i ≤ g_n g → 0 < i < MAX_DESC_AMOUNT.
Proof using.
  intros H Hi. destruct (iv_region _ _ _ _ _ _ _ _ _ _ H) as (_ & _ & _ & _ & Hr).
  pose proof (iv_max _ _ _ _ _ _ _ _ _ _ H) as Hm. unfold B in *.
  change SBSIZE with 65536 in *. change MAX_SB_AMOUNT with (2 ^ 24) in Hm.
  change MAX_DESC_AMOUNT with (2 ^ 24). lia.
Qed.

Lemma inv_kind_index g m ds av hs tc rg i k :
  InvC db sb mb g m ds av hs tc rg → g_kind g !! i = Some k → 0 < i < MAX_DESC_AMOUNT.
Proof using.
  intros H Hi. apply (kind_lt sb) in Hi; [|by eapply iv_wf]. eapply inv_index; [done|lia].
Qed.

Lemma inv_avail_ok g m ds av hs tc rg :
  InvC db sb mb g m ds av hs tc rg → list_ok (g_avail g).
Proof using.
  intros H i Hi. eapply inv_kind_index; [done|]. by apply (gw_avail _ _ (iv_wf _ _ _ _ _ _ _ _ _ _ H)).
Qed.

(** Putting superblocks in use for a small or a large block on the free list. *)
Lemma organize_inv fuel g g' i cnt s :
  (1 ≤ fuel)%nat → Inv db sb mb g s → gwf sb g' →
  1 ≤ i → 1 ≤ cnt → i + cnt ≤ g_n g → g_n g' = g_n g →
  g_part g' = g_part g → g_cache g' = g_cache g → g_avail g' = seqZ i cnt ++ g_avail g →
  (∀ j, i ≤ j < i + cnt → g_kind g' !! j = Some KFree) →
  (∀ j, ¬ i ≤ j < i + cnt → g_kind g' !! j = g_kind g !! j) →
  wp (organize_sb_list fuel (B sb i) cnt) (λ _ s',
    ∃ ds av pl, s' = with_sbs ds av pl s ∧ Inv db sb mb g' s') s.
Proof using HG.
  intros Hf H Hwf Hi Hcnt Hn En Ep Ec Ea Hin Hout.
  destruct (iv_avail _ _ _ _ _ _ _ _ _ _ H) as (p & Hp & Hch).
  pose proof (inv_index _ _ _ _ _ _ _ (g_n g) H ltac:(lia)).
  assert (∀ j, j ∈ g_avail g → ¬ i ≤ j < i + cnt) as Hdis.
  { intros j Hj Hr. pose proof (gw_avail_nd _ _ Hwf) as Hnd. rewrite Ea in Hnd.
    apply NoDup_app in Hnd as (_ & Hd & _). apply (Hd j); [|done]. apply elem_of_seqZ. lia. }
  eapply wp_mono.
  { apply (organize_sb_list_spec fuel i cnt s p (g_avail g)); try done.
    - by eapply iv_rg.
    - lia.
    - by eapply inv_avail_ok. }
  cbn beta. intros _ s' (ds & av & pl & -> & Hds & Hav & Hch'). exists ds, av, pl.
  split; [done|]. unfold Inv. cbn [with_sbs smem descs avail_sb heaps t_caches rgs].
  pose proof H as [Vwf Vrg Vlen Vn Vreg Vmax Vsm Vlg Vav Vhs Vpt Vca].
  assert (∀ j k, g_kind g' !! j = Some k → k ≠ KFree → ¬ i ≤ j < i + cnt) as Hne
    by (intros j k Hk Hnk Hr; rewrite Hin in Hk by done; congruence).
  eapply (InvC_kinds db sb mb g g' (smem s) (descs s)); rewrite ?En; try done.
  - intros j c fl lk Hj. rewrite <- Hout; [done|]. by eapply Hne.
  - intros j c fl lk Hj. apply Hds. by eapply Hne.
  - intros j k Hj. rewrite Hds by (by eapply Hne). apply Vlg. rewrite <- Hout; [done|].
    by eapply Hne.
  - exists (D db i). by rewrite Ea.
Qed.

Lemma small_sb_retire_inv fuel g i c fl s :
  (1 ≤ fuel)%nat → Inv db sb mb g s →
  g_kind g !! i = Some (KSmall c fl false) → Z.of_nat (length fl) = mc c →
  wp (small_sb_retire fuel (B sb i) SBSIZE) (λ _ s',
    ∃ ds av pl, s' = with_sbs ds av pl s ∧ Inv db sb mb (gh_retire sb i c g) s') s.
Proof using HG.
  intros Hf H Hi Hl. pose proof (iv_wf _ _ _ _ _ _ _ _ _ _ H) as Hwf.
  pose proof (kind_lt _ _ _ _ Hwf Hi) as Hr.
  unfold wp. rewrite small_sb_retire_organize. fold (wp (organize_sb_list fuel (B sb i) 1) (λ _ s',
    ∃ ds av pl, s' = with_sbs ds av pl s ∧ Inv db sb mb (gh_retire sb i c g) s') s).
  apply (organize_inv fuel g); try done; try lia.
  - by eapply gh_retire_wf.
  - intros j Hj. cbn. replace j with i by lia. by rewrite lookup_insert_eq.
  - intros j Hj. cbn. by rewrite lookup_insert_ne by lia.
Qed.

Lemma large_sb_retire_inv fuel g i k s :
  (1 ≤ fuel)%nat → Inv db sb mb g s → g_kind g !! i = Some (KLarge k) →
  wp (large_sb_retire fuel (B sb i) (k * SBSIZE)) (λ _ s',
    ∃ ds av pl, s' = with_sbs ds av pl s ∧ Inv db sb mb (gh_large_free i k g) s') s.
Proof using HG.
  intros Hf H Hi. pose proof (iv_wf _ _ _ _ _ _ _ _ _ _ H) as Hwf.
  pose proof (kind_lt _ _ _ _ Hwf Hi) as Hr.
  destruct (gw_large _ _ Hwf _ _ Hi) as (Hk & _ & Hkn & _).
  unfold large_sb_retire. wp_steps; [by rewrite Z.mod_mul|].
  rewrite Z.div_mul by done. apply (organize_inv fuel g); try done; try lia.
  - by apply gh_large_free_wf.
  - intros j Hj. cbn. rewrite lookup_mset, decide_True; [done|]. apply elem_of_seqZ. lia.
  - intros j Hj. cbn. rewrite lookup_mset, decide_False; [done|]. rewrite elem_of_seqZ. lia.
Qed.

(** ** Taking superblocks *)

Lemma rget_rput rg r : length (regions rg) = LAST_IDX → rget (rput rg SB_IDX r) SB_IDX = r.
Proof using.
  intros Hl. unfold rget, rput. cbn [regions]. rewrite nth_lookup.
  rewrite list_lookup_insert_eq; [done|]. rewrite Hl. unfold SB_IDX, LAST_IDX. lia.
Qed.

Lemma B_page i : B sb i mod PAGESIZE = 0 ∧ B sb i mod SBSIZE = 0.
Proof using HG.
  pose proof (g_sbal _ _ _ HG) as Hal. unfold B. change SBSIZE with (16 * 4096) in *.
  change PAGESIZE with 4096. apply Z.mod_divide in Hal as [q ->]; [|lia]. split.
  - replace (q * (16 * 4096) + i * (16 * 4096)) with ((q * 16 + i * 16) * 4096) by ring.
    by apply Z.mod_mul.
  - rewrite <- Z.mul_add_distr_r. by apply Z.mod_mul.
Qed.

Lemma B_add i k : B sb (i + k) = B sb i + k * SBSIZE.
Proof using. unfold B. ring. Qed.

Lemma inv_end g m ds av hs tc rg k :
  InvC db sb mb g m ds av hs tc rg → 0 ≤ k →
  B sb (g_n g + k) ≤ base_addr (rget rg SB_IDX) + FILESIZE (rget rg SB_IDX) →
  g_n g + k < MAX_DESC_AMOUNT ∧ 0 < B sb (g_n g + k) < 2 ^ 47 ∧ addr_ok (B sb (g_n g + k)).
Proof using HG.
  intros H Hk Hr. pose proof (iv_n _ _ _ _ _ _ _ _ _ _ H) as Hn.
  pose proof (iv_max _ _ _ _ _ _ _ _ _ _ H) as Hm.
  assert (g_n g + k < MAX_SB_AMOUNT) as Hlt
    by (unfold B in *; change SBSIZE with 65536 in *; change MAX_SB_AMOUNT with (2 ^ 24) in *; lia).
  pose proof (B_ok db sb mb HG MAX_SB_AMOUNT ltac:(done)).
  pose proof (B_ok db sb mb HG (g_n g + k) ltac:(lia)).
  split; [done|]. unfold addr_ok. lia.
Qed.

(** The superblock region after its end moved to superblock [n]. *)
Definition grown (s : state) (n : Z) : Regions :=
  let r := rget (rgs s) SB_IDX in
  rput (rgs s) SB_IDX (set_curr r (to_pptr_off (B sb n) (base_addr r))).

Lemma grown_ok g s k :
  Inv db sb mb g s → 0 ≤ k →
  B sb (g_n g + k) ≤ base_addr (rget (rgs s) SB_IDX) + FILESIZE (rget (rgs s) SB_IDX) →
  rg_at (grown s (g_n g + k)) db sb mb ∧
  length (regions (grown s (g_n g + k))) = LAST_IDX ∧
  region_at (rget (grown s (g_n g + k)) SB_IDX) (B sb (g_n g + k)) ∧
  base_addr (rget (grown s (g_n g + k)) SB_IDX) ≤ sb ∧
  base_addr (rget (grown s (g_n g + k)) SB_IDX) +
    FILESIZE (rget (grown s (g_n g + k)) SB_IDX) < B sb MAX_SB_AMOUNT.
Proof using HG.
  intros H Hk Hr. pose proof H as [Vwf Vrg Vlen Vn Vreg [Vbase Vmax] _ _ _ _ _ _].
  destruct (inv_end _ _ _ _ _ _ _ k H Hk Hr) as (_ & Hb & Hok).
  destruct Vreg as (R1 & R2 & R3 & R4 & R5). unfold grown. rewrite rget_rput by done.
  split_and!; try done.
  - cbn. by rewrite length_insert.
  - unfold region_at. cbn. rewrite B_add in *. change SBSIZE with 65536 in *.
    split_and!; try done; lia.
Qed.

Definition EXPAND_SBS : Z := SB_REGION_EXPAND_SIZE / SBSIZE.

(** Space for one more expansion. *)
Definition has_room (s : state) (g : ghost) (k : Z) : Prop :=
  B sb (g_n g + k) ≤ region_end s.

Lemma region_curr_B g s : Inv db sb mb g s → curr_addr (rget (rgs s) SB_IDX) = B sb (g_n g).
Proof using. intros H. apply region_at_curr. by eapply iv_region. Qed.

Lemma land_page_B i : Z.land (B sb i) (PAGESIZE - 1) = 0.
Proof using HG. change PAGESIZE with (2 ^ 12). rewrite land_mask by lia. apply B_page. Qed.

Lemma expand_rep g s k ds av pl :
  Inv db sb mb g s → 1 ≤ k → g_avail g = [] → has_room s g k →
  (∀ j, j < g_n g + 1 → dget ds (D db j) = dget (descs s) (D db j)) →
  head_is (grown s (g_n g + k)) av (D db (g_n g + 1)) →
  dchain db (dnext_free ds) (D db (g_n g + 1)) (seqZ (g_n g + 1) (k - 1) ++ []) →
  Inv db sb mb (gh_expand k g)
    (with_sbs (<[D db (g_n g) := Descriptor_ctor]> ds) av pl (set_rgs (grown s (g_n g + k)) s)).
Proof using HG.
  intros H Hk Hnil Hroom Hds Hav Hch'. pose proof H as [Vwf _ _ Vn _ _ _ Vlg _ _ _ _].
  destruct (grown_ok g s k H ltac:(lia) Hroom) as (G1 & G2 & G3 & G4).
  unfold Inv. cbn [with_sbs put_desc upd_descs log smem descs avail_sb heaps t_caches rgs set_rgs].
  assert (∀ i, i ≠ g_n g → i < g_n g + 1 →
    dget (<[D db (g_n g) := Descriptor_ctor]> ds) (D db i) = dget (descs s) (D db i)) as Hsame.
  { intros i Hi Hlt. rewrite dget_insert_ne by (intros ?%D_inj; lia). by apply Hds. }
  eapply (InvC_kinds db sb mb g _ (smem s) (descs s)); try done.
  - apply gh_expand_wf; [done|lia|lia].
  - cbn. lia.
  - intros i c fl lk Hi. cbn in Hi. gsplit. done.
  - intros i c fl lk Hi. cbn in Hi. gsplit. apply (kind_lt sb) in Hi; [|done]. apply Hsame; lia.
  - intros i k2 Hi. cbn in Hi. gsplit. pose proof (kind_lt _ _ _ _ Vwf Hi).
    rewrite Hsame by lia. eauto.
  - exists (D db (g_n g + 1)). split; [done|]. cbn [gh_expand g_avail]. rewrite Hnil.
    apply (dchain_ext db (dnext_free ds)); [|done]. intros i Hi. rewrite app_nil_r, elem_of_seqZ in Hi.
    unfold dnext_free. by rewrite dget_insert_ne by (intros ?%D_inj; lia).
Qed.

Lemma small_sb_expand_spec fuel g s :
  (1 ≤ fuel)%nat → Inv db sb mb g s → g_avail g = [] → has_room s g EXPAND_SBS →
  wp (small_sb_expand fuel) (λ r s', r = Some (B sb (g_n g)) ∧
    ∃ ds av pl, s' = with_sbs ds av pl (set_rgs (grown s (g_n g + EXPAND_SBS)) s) ∧
      Inv db sb mb (gh_expand EXPAND_SBS g) s') s.
Proof using HG.
  intros Hf H Hnil Hroom. pose proof H as [Vwf Vrg Vlen Vn Vreg Vmax Vsm Vlg Vav Vhs Vpt Vca].
  change EXPAND_SBS with 16384 in *. unfold has_room, region_end in Hroom.
  destruct (inv_end _ _ _ _ _ _ _ 16384 H ltac:(lia) Hroom) as (Hn & Hb & Hok).
  destruct (grown_ok g s 16384 H ltac:(lia) Hroom) as (G1 & G2 & G3 & G4).
  destruct Vav as (p & Hp & Hch). rewrite Hnil in Hch. cbn in Hch. subst p.
  assert (u64 (B sb (g_n g) + SB_REGION_EXPAND_SIZE) = B sb (g_n g + 16384)) as En.
  { rewrite B_add in *. change (16384 * SBSIZE) with SB_REGION_EXPAND_SIZE in *.
    apply u64_small. lia. }
  assert (u64 (B sb (g_n g) + SBSIZE) = B sb (g_n g + 1)) as En1.
  { rewrite !B_add in *. change SBSIZE with 65536 in *.
    pose proof (B_ok db sb mb HG (g_n g)) as HB. change MAX_SB_AMOUNT with (2 ^ 24) in HB.
    change MAX_DESC_AMOUNT with (2 ^ 24) in Hn. apply u64_small. lia. }
  assert (u64 (base_addr (rget (rgs s) SB_IDX) + FILESIZE (rget (rgs s) SB_IDX)) =
    base_addr (rget (rgs s) SB_IDX) + FILESIZE (rget (rgs s) SB_IDX)) as Eb.
  { destruct Vreg as (_ & _ & R3 & _). unfold addr_ok in R3. apply u64_small. lia. }
  unfold small_sb_expand. wp_steps. cbn zeta.
  rewrite (region_curr_B g s H), land_page_B. cbn [Z.eqb negb]. rewrite En.
  rewrite (head_is_range _ _ Hp). cbn [Z.eqb negb].
  unfold FLUSH, FLUSHFENCE. wp_steps.
  { rewrite Eb. rewrite (proj2 (Z.ltb_ge _ _)) by lia. done. }
  destruct Vreg as (R1 & R2 & R3 & R4 & R5). rewrite R4.
  rewrite cas_same by (unfold addr_ok in *; lia). wp_steps. rewrite En1.
  change (SB_REGION_EXPAND_SIZE / SBSIZE - 1) with 16383. cbn [log rgs].
  fold (grown s (g_n g + 16384)).
  eapply wp_mono.
  { apply (organize_sb_list_spec fuel (g_n g + 1) 16383 _ 0 []); try done; try lia.
    all: intros j Hj; set_solver. }
  cbn beta. intros _ s' (ds & av & pl & -> & Hds & Hav & Hch'). unfold construct_desc, FLUSH, FLUSHFENCE.
  wp_steps. split; [done|]. cbn [with_sbs set_rgs log rgs].
  rewrite desc_lookup_B by (done || lia). eexists _, av, _. split; [done|].
  apply (expand_rep g s 16384 ds av); try done.
  intros j Hj. apply Hds. lia.
Qed.

(** The superblock [small_sb_alloc] hands out and what happens to the lists. *)
Inductive taken (g : ghost) (i : Z) : ghost → Prop :=
| taken_list l : g_avail g = i :: l → taken g i (gh_take i l g)
| taken_new : g_avail g = [] → i = g_n g → taken g i (gh_expand EXPAND_SBS g).

Lemma take_rep g s i l av :
  Inv db sb mb g s → g_avail g = i :: l → head_is (rgs s) av (dnext_free (descs s) (D db i)) →
  Inv db sb mb (gh_take i l g) (set_avail_sb av s).
Proof using.
  intros H El Hav. pose proof H as [Vwf Vrg Vlen Vn Vreg Vmax Vsm Vlg Vav Vhs Vpt Vca].
  unfold Inv. cbn [set_avail_sb smem descs avail_sb heaps t_caches rgs].
  eapply (InvC_kinds db sb mb g _ (smem s) (descs s)); try done.
  - by apply gh_take_wf.
  - intros j c fl lk Hj. cbn in Hj. gsplit. done.
  - intros j k Hj. cbn in Hj. gsplit. eauto.
  - destruct Vav as (p & _ & Hch). rewrite El in Hch. cbn in Hch. destruct Hch as [-> Hch].
    eauto.
Qed.

(** [small_sb_alloc] returns the first superblock of the free list, or the
    first one of a fresh expansion of the region. *)
Lemma small_sb_alloc_inv fuel g s :
  (2 ≤ fuel)%nat → Inv db sb mb g s → (g_avail g = [] → has_room s g EXPAND_SBS) →
  wp (small_sb_alloc fuel SBSIZE) (λ r s', ∃ i g' ds av pl rg,
    r = B sb i ∧ taken g i g' ∧ s' = with_sbs ds av pl (set_rgs rg s) ∧
    region_end s' = region_end s ∧ Inv db sb mb g' s') s.
Proof using HG.
  intros Hf H Hroom. destruct fuel as [|[|fuel]]; [lia..|].
  destruct (iv_avail _ _ _ _ _ _ _ _ _ _ H) as (p & Hp & Hch).
  pose proof (inv_avail_ok _ _ _ _ _ _ _ H) as Hl.
  pose proof (iv_rg _ _ _ _ _ _ _ _ _ _ H) as Hrg.
  unfold small_sb_alloc. rewrite Z.eqb_refl. cbn [negb]. wp_steps.
  cbn [small_sb_alloc_loop]. rewrite (head_is_range _ _ Hp).
  destruct (g_avail g) as [|i l] eqn:El; cbn in Hch.
  - subst p. cbn [Z.eqb negb]. wp_steps.
    eapply wp_mono; [by apply (small_sb_expand_spec _ g); [lia|..|auto]|].
    cbn beta. intros r s' (-> & ds & av & pl & -> & Hinv). wp_steps.
    eexists (g_n g), _, ds, av, pl, _. split; [done|]. split; [by apply taken_new|].
    split; [done|]. split; [|done]. unfold region_end. cbn [with_sbs set_rgs rgs].
    unfold grown. rewrite rget_rput by (by eapply iv_len). done.
  - destruct Hch as [-> Hch]. specialize (Hl i ltac:(left)) as Hi.
    pose proof (D_ok db sb mb HG i ltac:(lia)).
    rewrite (proj2 (Z.eqb_neq _ _)) by lia. cbn [negb]. unfold avail_sb_cas. wp_steps.
    unfold avail_load at 2. rewrite (acpc_cas_loaded (rgs s)) by (done || apply Hp). wp_steps.
    exists i, (gh_take i l g). eexists (descs s), _, (plog s), (rgs s).
    split; [by rewrite (sb_lookup_D db sb mb HG) by (done || lia)|].
    split; [by apply taken_list|].
    split; [by destruct s|]. split; [done|]. apply take_rep; [done|done|].
    rewrite <- (next_free_link s (D db i) l); [|intros j Hj; apply Hl; by right|done].
    apply (acpc_store_range (rgs s)); [done|apply unpack_counter, Hp|].
    cbn [get_ptr]. rewrite (next_free_link s (D db i) l); [|intros j Hj; apply Hl; by right|done].
    apply (dchain_head (dnext_free (descs s)) _ l); [|done].
    intros j Hj. apply Hl. by right.
Qed.

(** Without a free superblock and without room the process aborts. *)
Lemma small_sb_alloc_oom fuel g s :
  (2 ≤ fuel)%nat → Inv db sb mb g s → g_avail g = [] → ¬ has_room s g EXPAND_SBS →
  small_sb_alloc fuel SBSIZE s = Fail.
Proof using HG.
  intros Hf H El Hroom. destruct fuel as [|[|fuel]]; [lia..|].
  pose proof H as [Vwf Vrg Vlen Vn Vreg Vmax Vsm Vlg Vav Vhs Vpt Vca].
  destruct Vav as (p & Hp & Hch). rewrite El in Hch. cbn in Hch. subst p.
  unfold small_sb_alloc. rewrite Z.eqb_refl. cbn [negb].
  unfold mbind, st_mbind, st_bind, st_gets. cbn [small_sb_alloc_loop].
  rewrite (head_is_range _ _ Hp). cbn [Z.eqb negb]. unfold mbind, st_mbind, st_bind.
  unfold small_sb_expand, mbind, st_mbind, st_bind, st_get. cbn zeta.
  rewrite (region_curr_B g s H), land_page_B. cbn [Z.eqb negb].
  rewrite (head_is_range _ _ Hp). cbn [Z.eqb negb]. unfold st_assert.
  destruct Vreg as (R1 & R2 & R3 & R4 & R5). unfold addr_ok in *.
  unfold has_room, region_end in Hroom. rewrite B_add in Hroom.
  change (EXPAND_SBS * SBSIZE) with SB_REGION_EXPAND_SIZE in Hroom.
  change SB_REGION_EXPAND_SIZE with 1073741824 in *.
  rewrite !u64_small by lia. rewrite (proj2 (Z.ltb_lt _ _)) by lia. done.
Qed.

(** ** Large blocks *)

Lemma expand_sb g s k :
  Inv db sb mb g s → 1 ≤ k → k * SBSIZE < 2 ^ 62 →
  expand (rgs s) SB_IDX PAGESIZE (k * SBSIZE) =
    if B sb (g_n g + k) <=? base_addr (rget (rgs s) SB_IDX) + FILESIZE (rget (rgs s) SB_IDX)
    then (1, Some (B sb (g_n g)), grown s (g_n g + k))
    else (-1, None, rput (rgs s) SB_IDX
            (set_curr (rget (rgs s) SB_IDX) (rf_curr (rfile (rget (rgs s) SB_IDX))))).
Proof using HG.
  intros H Hk Hmax. unfold expand. change PAGESIZE with (2 ^ 12).
  pose proof (iv_region _ _ _ _ _ _ _ _ _ _ H) as Hr. change SBSIZE with 65536 in *.
  rewrite (nvm_alloc_alone _ _ 12 (k * 65536) Hr) by lia.
  rewrite align_up_aligned by (done || apply B_page). rewrite B_add. change SBSIZE with 65536.
  destruct (_ <=? _); [|done]. unfold grown. rewrite B_add. done.
Qed.

Lemma alloc_large_block_run fuel g s k :
  Inv db sb mb g s → 1 ≤ k → k * SBSIZE < 2 ^ 62 → has_room s g k →
  ∃ pl, alloc_large_block (S fuel) (k * SBSIZE) s =
    Ok (B sb (g_n g), with_sbs (<[D db (g_n g) := Descriptor_ctor]> (descs s)) (avail_sb s) pl
                        (set_rgs (grown s (g_n g + k)) s)).
Proof using HG.
  intros H Hk Hmax Hroom. unfold alloc_large_block, large_sb_alloc, expand_get_large_sb.
  destruct (inv_end _ _ _ _ _ _ _ k H ltac:(lia) Hroom) as (Hn & _).
  destruct (grown_ok g s k H ltac:(lia) Hroom) as (G1 & _).
  pose proof (iv_n _ _ _ _ _ _ _ _ _ _ H).
  unfold mbind, st_mbind, st_bind. cbn [expand_loop].
  unfold mbind, st_mbind, st_bind, st_gets, st_mod, st_assert, mret, st_mret, st_ret.
  rewrite (expand_sb g s k) by done. unfold has_room, region_end in Hroom.
  rewrite (proj2 (Z.leb_le _ _)) by done.
  unfold expand_flushes, construct_desc, FLUSH, FLUSHFENCE, mbind, st_mbind, st_bind, st_mod.
  cbn [Z.eqb Pos.eqb negb default from_option id set_rgs log rgs]. rewrite desc_lookup_B by (done || lia). eexists. reflexivity.
Qed.

Lemma alloc_large_block_oom fuel g s k :
  Inv db sb mb g s → 1 ≤ k → k * SBSIZE < 2 ^ 62 → ¬ has_room s g k →
  alloc_large_block (S fuel) (k * SBSIZE) s = Fail.
Proof using HG.
  intros H Hk Hmax Hroom. unfold alloc_large_block, large_sb_alloc, expand_get_large_sb.
  unfold mbind, st_mbind, st_bind. cbn [expand_loop].
  unfold mbind, st_mbind, st_bind, st_gets, st_mod, st_assert.
  rewrite (expand_sb g s k) by done. unfold has_room, region_end in Hroom.
  rewrite (proj2 (Z.leb_gt _ _)) by lia. done.
Qed.

Lemma large_alloc_rep g s k d pl :
  Inv db sb mb g s → 1 ≤ k → k * SBSIZE < 2 ^ 32 → has_room s g k →
  desc_large (g_n g) k d →
  Inv db sb mb (gh_large_alloc k g)
    (with_sbs (<[D db (g_n g) := d]> (descs s)) (avail_sb s) pl
       (set_rgs (grown s (g_n g + k)) s)).
Proof using HG.
  intros H Hk Hmax Hroom Hd. pose proof H as [Vwf Vrg _ Vn _ _ _ Vlg Vav _ _ _].
  destruct (grown_ok g s k H ltac:(lia) Hroom) as (G1 & G2 & G3 & G4).
  unfold Inv. cbn [with_sbs smem descs avail_sb heaps t_caches rgs set_rgs].
  assert (∀ i, i ≠ g_n g → dget (<[D db (g_n g) := d]> (descs s)) (D db i) = dget (descs s) (D db i))
    as Hsame by (intros i Hi; by rewrite dget_insert_ne by (intros ?%D_inj; lia)).
  eapply (InvC_kinds db sb mb g _ (smem s) (descs s)); try done.
  - apply gh_large_alloc_wf; done || lia.
  - cbn. lia.
  - intros i c fl lk Hi. cbn in Hi. gsplit. done.
  - intros i c fl lk Hi. cbn in Hi. gsplit. apply Hsame. congruence.
  - intros i k2 Hi. cbn in Hi. gsplit; [by rewrite dget_insert_eq|].
    rewrite Hsame by congruence. eauto.
  - destruct Vav as (p & Hp & Hch). exists p. split.
    { eapply head_is_ext; [|exact Hp]. unfold rg_at in *. congruence. }
    apply (dchain_ext db (dnext_free (descs s))); [|done]. intros i Hi. cbn in Hi.
    unfold dnext_free. rewrite Hsame; [done|]. intros ->.
    apply (gw_avail _ _ Vwf) in Hi. rewrite (kind_None sb) in Hi by (done || lia). done.
Qed.
End SbSpec.
