(* ===== verification/Treiber.v ===== *)
(** * The lock-free lists under concurrency

    The superblock free list ([small_sb_retire], [small_sb_alloc]) and the partial
    lists ([heap_push_partial], [heap_pop_partial]) are stacks of descriptors: the
    head is a counted pointer, the links are [atomic_pptr]s in the descriptors. A
    thread is between two of its atomic accesses; the accesses of all threads
    interleave, with the stores by which the owner of a descriptor that is on no list
    constructs it anew. Pushing increments the counter, popping does not. What is
    pushed here is one descriptor; [organize_sb_list] pushes a chain that it has
    linked before with one compare-and-swap, which is not a step of this model. *)

From Stdlib Require Import ZArith Lia.
From stdpp Require Import base gmap numbers list.
From S2P Require Import Prelude Mem Config Pptr Region Meta MetaFacts.
From S2P Require Import Heap Inv SbSpec.

Local Open Scope Z_scope.

(** Where a thread is: about to link its descriptor to the head it has seen; about
    to publish it; holding a loaded head; holding the head and its successor. *)
Inductive tpc :=
| PushLink (desc : Z) (oldhead : ptr_cnt)
| PushCas (desc : Z) (oldhead : ptr_cnt)
| PopNext (oldhead : ptr_cnt)
| PopCas (oldhead : ptr_cnt) (desc : Z).

(** The head, the links of the descriptors, the threads, and who owns the
    descriptors that are not on the list. *)
Record stack := mkStack {
  k_head : Z;
  k_next : gmap Z Z;
  k_pc : gmap nat tpc;
  k_own : gmap Z nat
}.

Section Steps.
Context (rg : Regions).

Definition k_load (s : stack) : ptr_cnt := acpc_load rg DESC_IDX (k_head s).

(** The steps of thread [t]; the index counts the successful pushes. *)
Inductive kstep : Z → stack → stack → Prop :=
| push_load s t d :
    k_pc s !! t = None → k_own s !! d = Some t →
    kstep 0 s (mkStack (k_head s) (k_next s) (<[t := PushLink d (k_load s)]> (k_pc s)) (k_own s))
| push_link s t d oh :
    k_pc s !! t = Some (PushLink d oh) →
    kstep 0 s (mkStack (k_head s) (<[d := atomic_pptr_store d (get_ptr oh)]> (k_next s))
                 (<[t := PushCas d oh]> (k_pc s)) (k_own s))
| push_cas s t d oh spurious raw cur :
    k_pc s !! t = Some (PushCas d oh) →
    acpc_cas_weak spurious rg DESC_IDX (k_head s) oh (PtrCnt d (u64 (get_counter oh + 1))) = (true, raw, cur) →
    kstep 1 s (mkStack raw (k_next s) (delete t (k_pc s)) (delete d (k_own s)))
| push_retry s t d oh spurious raw cur :
    k_pc s !! t = Some (PushCas d oh) →
    acpc_cas_weak spurious rg DESC_IDX (k_head s) oh (PtrCnt d (u64 (get_counter oh + 1))) = (false, raw, cur) →
    kstep 0 s (mkStack raw (k_next s) (<[t := PushLink d cur]> (k_pc s)) (k_own s))
| pop_load s t :
    k_pc s !! t = None →
    kstep 0 s (mkStack (k_head s) (k_next s) (<[t := PopNext (k_load s)]> (k_pc s)) (k_own s))
| pop_empty s t oh :
    k_pc s !! t = Some (PopNext oh) → get_ptr oh = 0 →
    kstep 0 s (mkStack (k_head s) (k_next s) (delete t (k_pc s)) (k_own s))
| pop_next s t oh :
    k_pc s !! t = Some (PopNext oh) → get_ptr oh ≠ 0 →
    kstep 0 s (mkStack (k_head s) (k_next s)
                 (<[t := PopCas oh (atomic_pptr_load (get_ptr oh) (default 0 (k_next s !! get_ptr oh)))]> (k_pc s))
                 (k_own s))
| pop_cas s t oh n spurious raw cur :
    k_pc s !! t = Some (PopCas oh n) →
    acpc_cas_weak spurious rg DESC_IDX (k_head s) oh (PtrCnt n (get_counter oh)) = (true, raw, cur) →
    kstep 0 s (mkStack raw (k_next s) (delete t (k_pc s)) (<[get_ptr oh := t]> (k_own s)))
| pop_retry s t oh n spurious raw cur :
    k_pc s !! t = Some (PopCas oh n) →
    acpc_cas_weak spurious rg DESC_IDX (k_head s) oh (PtrCnt n (get_counter oh)) = (false, raw, cur) →
    kstep 0 s (mkStack raw (k_next s) (<[t := PopNext cur]> (k_pc s)) (k_own s))
| own_store s t d v :        (* new (desc) Descriptor(), or any other store of its owner *)
    k_pc s !! t = None → k_own s !! d = Some t →
    kstep 0 s (mkStack (k_head s) (<[d := v]> (k_next s)) (k_pc s) (k_own s)).

(** Runs, with the number of pushes. *)
Inductive ksteps : Z → stack → stack → Prop :=
| ksteps_refl s : ksteps 0 s s
| ksteps_more n k s1 s2 s3 : ksteps n s1 s2 → kstep k s2 s3 → ksteps (n + k) s1 s3.
End Steps.

Definition k_link (s : stack) (d : Z) : Z := atomic_pptr_load d (default 0 (k_next s !! d)).

Section Invariant.
Context (db sb mb : Z) (HG : geom db sb mb) (rg : Regions) (Hrg : rg_at rg db sb mb).

(** A descriptor address. *)
Definition is_desc (d : Z) : Prop := ∃ i, 0 < i < MAX_DESC_AMOUNT ∧ d = D db i.
Definition seen (c : Z) (oh : ptr_cnt) : Prop :=
  0 ≤ get_counter oh ≤ c ∧ (get_ptr oh = 0 ∨ is_desc (get_ptr oh)).

(** What a thread may rely on at each point. In particular a successor read by a
    pop stays right while the counter is the one loaded and the descriptor is on
    the list. *)
Definition pc_ok (s : stack) (l : list Z) (c : Z) (t : nat) (p : tpc) : Prop :=
  match p with
  | PushLink d oh => k_own s !! d = Some t ∧ seen c oh ∧ get_ptr oh ≠ d
  | PushCas d oh => k_own s !! d = Some t ∧ seen c oh ∧ get_ptr oh ≠ d ∧ k_link s d = get_ptr oh
  | PopNext oh => seen c oh
  | PopCas oh n => seen c oh ∧ is_desc (get_ptr oh) ∧
      (get_counter oh = c → ∀ j, j ∈ l → get_ptr oh = D db j → k_link s (get_ptr oh) = n)
  end.

(** The list [l] of descriptor indices, after [c] pushes. *)
Record kinv (l : list Z) (c : Z) (s : stack) : Prop := {
  ki_c : 0 ≤ c < 2 ^ 34;
  ki_head : ∃ p, k_head s = acpc_store rg DESC_IDX (PtrCnt p c) ∧ dchain db (k_link s) p l;
  ki_nd : NoDup l;
  ki_ok : ∀ i, i ∈ l → 0 < i < MAX_DESC_AMOUNT ∧ k_own s !! D db i = None;
  ki_own : ∀ d t, k_own s !! d = Some t → is_desc d;
  ki_pc : ∀ t p, k_pc s !! t = Some p → pc_ok s l c t p
}.

Lemma is_desc_range d : is_desc d → 0 < d ∧ addr_ok d.
Proof using HG.
  intros (i & Hi & ->). pose proof (D_ok db sb mb HG i ltac:(lia)).
  destruct (D_addr_ok db sb mb HG i ltac:(lia)). lia || (split; [lia|done]).
Qed.

Lemma seen_weaken c c' oh : c ≤ c' → seen c oh → seen c' oh.
Proof using. intros ? [? ?]. split; [lia|done]. Qed.

(** Loading the head. *)
Lemma load_stored p c :
  0 ≤ c < 2 ^ 34 → p = 0 ∨ is_desc p →
  acpc_unpack rg DESC_IDX (acpc_store rg DESC_IDX (PtrCnt p c)) = PtrCnt p c.
Proof using HG Hrg.
  intros Hc [->|(i & Hi & ->)]; unfold acpc_store; cbn [get_ptr get_counter].
  - rewrite (acpc_unpack_null db sb mb HG rg Hrg) by lia. by rewrite Z.mod_small.
  - rewrite (acpc_unpack_pack db sb mb HG rg Hrg) by lia. by rewrite Z.mod_small.
Qed.

Lemma list_head l nxt p :
  (∀ i, i ∈ l → 0 < i < MAX_DESC_AMOUNT) → dchain db nxt p l → p = 0 ∨ is_desc p.
Proof using.
  intros Hl Hch. destruct l as [|i l]; [by left|]. destruct Hch as [-> _]. right. exists i.
  split; [apply Hl; left|done].
Qed.

(** A compare-and-swap succeeds exactly when head and counter are the expected
    ones. *)
Lemma cas_cases raw p c oh new spurious b raw' cur :
  raw = acpc_store rg DESC_IDX (PtrCnt p c) → 0 ≤ c < 2 ^ 34 → p = 0 ∨ is_desc p → seen c oh →
  acpc_cas_weak spurious rg DESC_IDX raw oh new = (b, raw', cur) →
  if b then oh = PtrCnt p c ∧ raw' = acpc_store rg DESC_IDX new else raw' = raw ∧ cur = PtrCnt p c.
Proof using HG Hrg.
  intros -> Hc Hp [Hcnt Hoh] E. unfold acpc_cas_weak, acpc_cas_gen in E.
  destruct (Z.eqb_spec (acpc_store rg DESC_IDX (PtrCnt p c))
    (acpc_pack rg DESC_IDX (get_ptr oh) (get_counter oh))) as [Eq|Ne].
  - destruct spurious; cbn in E; injection E as <- <- <-.
    + split; [done|]. by apply load_stored.
    + split; [|done]. rewrite <- (load_stored p c) by done. rewrite Eq.
      destruct oh as [po co]. cbn [get_ptr get_counter] in *.
      change (acpc_pack rg DESC_IDX po co) with (acpc_store rg DESC_IDX (PtrCnt po co)).
      symmetry. apply load_stored; [lia|done].
  - cbn in E. injection E as <- <- <-. split; [done|]. by apply load_stored.
Qed.

Lemma kinv_head l c s :
  kinv l c s → ∃ p, k_head s = acpc_store rg DESC_IDX (PtrCnt p c) ∧ dchain db (k_link s) p l ∧
    (p = 0 ∨ is_desc p) ∧ k_load rg s = PtrCnt p c.
Proof using HG Hrg.
  intros [Hc (p & E & Hch) _ Hok _ _]. exists p.
  assert (p = 0 ∨ is_desc p) as Hp by (eapply list_head; [|done]; intros i Hi; apply Hok, Hi).
  split; [done|]. split; [done|]. split; [done|]. unfold k_load, acpc_load. rewrite E. by apply load_stored.
Qed.

(** Links of other descriptors are not changed by a store. *)
Lemma link_ne s d d' v h pc ow :
  d ≠ d' → k_link (mkStack h (<[d := v]> (k_next s)) pc ow) d' = k_link s d'.
Proof using. intros Hne. unfold k_link. cbn. by rewrite lookup_insert_ne. Qed.

(** The head is not a descriptor that somebody owns. *)
Lemma head_not_owned l c s p d t :
  kinv l c s → dchain db (k_link s) p l → k_own s !! d = Some t → p ≠ d.
Proof using HG.
  intros [_ _ _ Hok Hown _] Hch Hd ->. destruct l as [|i l]; cbn in Hch.
  - subst d. apply Hown, is_desc_range in Hd. lia.
  - destruct Hch as [-> _]. destruct (Hok i ltac:(left)). congruence.
Qed.

(** Steps that change only where one thread is. *)
Lemma kinv_pc l c s t p :
  kinv l c s → pc_ok s l c t p → kinv l c (mkStack (k_head s) (k_next s) (<[t := p]> (k_pc s)) (k_own s)).
Proof using.
  intros [H1 H2 H3 H4 H5 H6] Hp. constructor; try done. cbn. intros t' p' Ht.
  apply lookup_insert_Some in Ht as [[<- <-]|[_ Ht]]; [exact Hp|]. by apply H6.
Qed.

Lemma kinv_done l c s t : kinv l c s → kinv l c (mkStack (k_head s) (k_next s) (delete t (k_pc s)) (k_own s)).
Proof using.
  intros [H1 H2 H3 H4 H5 H6]. constructor; try done. cbn. intros t' p' Ht.
  apply lookup_delete_Some in Ht as [_ Ht]. by apply H6.
Qed.

(** Linking an owned descriptor. *)
Lemma kinv_link l c s t d oh :
  kinv l c s → k_pc s !! t = Some (PushLink d oh) →
  kinv l c (mkStack (k_head s) (<[d := atomic_pptr_store d (get_ptr oh)]> (k_next s))
              (<[t := PushCas d oh]> (k_pc s)) (k_own s)).
Proof using HG.
  intros [H1 (p & E & Hch) H3 H4 H5 H6] Ht. destruct (H6 _ _ Ht) as (Ho & Hs & Hne).
  assert (∀ j, j ∈ l → d ≠ D db j) as Hdl by (intros j Hj ->; destruct (H4 j Hj); congruence).
  constructor; try done.
  - exists p. split; [done|]. apply (dchain_ext db (k_link s)); [|done]. intros j Hj. by apply link_ne, Hdl.
  - cbn [k_pc]. intros t' p' Ht'. apply lookup_insert_Some in Ht' as [[<- <-]|[Hnt Ht']].
    + split; [done|]. split; [done|]. split; [done|]. unfold k_link. cbn. rewrite lookup_insert_eq. cbn.
      unfold atomic_pptr_load, atomic_pptr_store. apply from_to_pptr.
      * destruct Hs as [_ [->|Hd]]; [unfold addr_ok; lia|by apply is_desc_range].
      * by eapply is_desc_range, H5.
    + specialize (H6 _ _ Ht'). destruct p' as [d' oh'|d' oh'|oh'|oh' n]; cbn [pc_ok] in *; try done.
      * destruct H6 as (Ho' & Hs' & Hne' & Hl). split_and!; try done. rewrite link_ne; [done|].
        intros ->. congruence.
      * destruct H6 as (Hs' & Hd' & Hl). split_and!; try done. intros Hc j Hj Ej.
        rewrite link_ne; [by eapply Hl|]. rewrite Ej. by apply Hdl.
Qed.

(** A store of an idle owner to the link of its descriptor. *)
Lemma kinv_store l c s t d v :
  kinv l c s → k_pc s !! t = None → k_own s !! d = Some t →
  kinv l c (mkStack (k_head s) (<[d := v]> (k_next s)) (k_pc s) (k_own s)).
Proof using.
  intros [H1 (p & E & Hch) H3 H4 H5 H6] Ht Ho.
  assert (∀ j, j ∈ l → d ≠ D db j) as Hdl by (intros j Hj ->; destruct (H4 j Hj); congruence).
  constructor; try done.
  - exists p. split; [done|]. apply (dchain_ext db (k_link s)); [|done]. intros j Hj. by apply link_ne, Hdl.
  - cbn [k_pc]. intros t' p' Ht'. specialize (H6 _ _ Ht'). destruct p' as [d' oh'|d' oh'|oh'|oh' n]; cbn [pc_ok] in *; try done.
    + destruct H6 as (Ho' & Hs' & Hne' & Hl). split_and!; try done. rewrite link_ne; [done|]. intros ->. congruence.
    + destruct H6 as (Hs' & Hd' & Hl). split_and!; try done. intros Hc j Hj Ej.
      rewrite link_ne; [by eapply Hl|]. rewrite Ej. by apply Hdl.
Qed.

(** A successful push. *)
Lemma kinv_push l c s t d oh :
  kinv l c s → c + 1 < 2 ^ 34 → k_pc s !! t = Some (PushCas d oh) →
  (∃ p, k_head s = acpc_store rg DESC_IDX (PtrCnt p c) ∧ dchain db (k_link s) p l ∧ oh = PtrCnt p c) →
  ∃ i, d = D db i ∧ (i ∉ l) ∧
    kinv (i :: l) (c + 1) (mkStack (acpc_store rg DESC_IDX (PtrCnt d (u64 (get_counter oh + 1)))) (k_next s)
      (delete t (k_pc s)) (delete d (k_own s))).
Proof using HG.
  intros [H1 _ H3 H4 H5 H6] Hc Ht (p & E & Hch & ->). destruct (H6 _ _ Ht) as (Ho & Hs & Hne & Hl).
  destruct (H5 _ _ Ho) as (i & Hi & ->). cbn [get_ptr get_counter] in *.
  assert (i ∉ l) as Hni by (intros Hin; destruct (H4 i Hin); congruence).
  exists i. split; [done|]. split; [done|]. constructor; cbn [k_head k_pc k_own].
  - lia.
  - exists (D db i). rewrite u64_small by lia. split; [done|]. cbn [dchain]. split; [done|].
    change (dchain db (k_link s) (k_link s (D db i)) l). by rewrite Hl.
  - by apply NoDup_cons.
  - intros j [->|Hj]%elem_of_cons; [by rewrite lookup_delete_eq|]. destruct (H4 j Hj).
    rewrite lookup_delete_ne; [done|]. intros ?%D_inj. congruence.
  - intros d' t' Hd'. apply lookup_delete_Some in Hd' as [_ Hd']. by eapply H5.
  - intros t' p' Ht'. apply lookup_delete_Some in Ht' as [Hnt Ht']. specialize (H6 _ _ Ht').
    assert (∀ d', k_own s !! d' = Some t' → delete (D db i) (k_own s) !! d' = Some t') as Hdel.
    { intros d' Hd'. rewrite lookup_delete_ne; [done|]. intros <-. congruence. }
    destruct p' as [d' oh'|d' oh'|oh'|oh' n]; cbn [pc_ok k_own] in *.
    + destruct H6 as (Ho' & Hs' & Hne'). split_and!; [by apply Hdel|eapply seen_weaken; [|done]; lia|done].
    + destruct H6 as (Ho' & Hs' & Hne' & Hl'). split_and!; [by apply Hdel|eapply seen_weaken; [|done]; lia|done|done].
    + eapply seen_weaken; [|done]. lia.
    + destruct H6 as (Hs' & Hd' & Hl'). split_and!; [eapply seen_weaken; [|done]; lia|done|].
      destruct Hs' as [Hs' _]. intros E2. lia.
Qed.

(** A successful pop. *)
Lemma kinv_pop l c s t oh n :
  kinv l c s → k_pc s !! t = Some (PopCas oh n) →
  (∃ p, k_head s = acpc_store rg DESC_IDX (PtrCnt p c) ∧ dchain db (k_link s) p l ∧ oh = PtrCnt p c) →
  ∃ i l', l = i :: l' ∧ get_ptr oh = D db i ∧
    kinv l' c (mkStack (acpc_store rg DESC_IDX (PtrCnt n (get_counter oh))) (k_next s)
      (delete t (k_pc s)) (<[get_ptr oh := t]> (k_own s))).
Proof using HG.
  intros [H1 _ H3 H4 H5 H6] Ht (p & E & Hch & ->). destruct (H6 _ _ Ht) as (Hs & Hd & Hl).
  cbn [get_ptr get_counter] in *. destruct l as [|i l].
  { cbn in Hch. subst p. apply is_desc_range in Hd. lia. }
  destruct Hch as [-> Hch]. exists i, l. split; [done|]. split; [done|].
  apply NoDup_cons in H3 as [Hni Hnd].
  assert (k_link s (D db i) = n) as Hn by (apply (Hl eq_refl i); [left|done]).
  assert (∀ j, j ∈ l → D db i ≠ D db j) as Hij by (intros j Hj Ej%D_inj; congruence).
  constructor; cbn [k_head k_pc k_own]; try done.
  - exists n. split; [done|]. by rewrite <- Hn.
  - intros j Hj. rewrite lookup_insert_ne by (by apply Hij). apply H4. by right.
  - intros d' t' Hd'. apply lookup_insert_Some in Hd' as [[<- _]|[_ Hd']]; [done|by eapply H5].
  - intros t' p' Ht'. apply lookup_delete_Some in Ht' as [Hnt Ht']. specialize (H6 _ _ Ht').
    destruct (H4 i ltac:(left)) as [_ Hio].
    assert (∀ d', k_own s !! d' = Some t' → <[D db i := t]> (k_own s) !! d' = Some t') as Hins.
    { intros d' Hd'. rewrite lookup_insert_ne; [done|]. intros <-. congruence. }
    destruct p' as [d' oh'|d' oh'|oh'|oh' n']; cbn [pc_ok k_own] in *; try done.
    + destruct H6 as (Ho' & Hs' & Hne'). split_and!; [by apply Hins|done..].
    + destruct H6 as (Ho' & Hs' & Hne' & Hl'). split_and!; [by apply Hins|done..].
    + destruct H6 as (Hs' & Hd' & Hl'). split_and!; try done. intros Hc j Hj Ej.
      apply (Hl' Hc j); [by right|done].
Qed.

(** ** All steps *)

(** The descriptors on the list or owned by a thread. *)
Definition tracked (l : list Z) (s : stack) (d : Z) : Prop :=
  (∃ i, i ∈ l ∧ d = D db i) ∨ is_Some (k_own s !! d).

Lemma kstep_inv l c k s s' :
  kinv l c s → kstep rg k s s' → c + k < 2 ^ 34 →
  ∃ l', kinv l' (c + k) s' ∧ ∀ d, tracked l' s' d ↔ tracked l s d.
Proof using HG Hrg.
  intros H Hst Hc. destruct (kinv_head _ _ _ H) as (p & E & Hch & Hp & Eload). pose proof (ki_c _ _ _ H) as Hcr.
  assert (seen c (PtrCnt p c)) as Hseen by (split; [cbn; lia|done]).
  destruct Hst as [s t d Ht Ho|s t d oh Ht|s t d oh sp raw cur Ht Ecas|s t d oh sp raw cur Ht Ecas
                  |s t Ht|s t oh Ht Hn|s t oh Ht Hn|s t oh n sp raw cur Ht Ecas|s t oh n sp raw cur Ht Ecas
                  |s t d v Ht Ho];
    rewrite ?Z.add_0_r in *.
  - exists l. split; [|done]. rewrite Eload. apply kinv_pc; [done|]. split; [done|]. split; [done|].
    by eapply head_not_owned.
  - exists l. split; [|done]. by apply kinv_link.
  - destruct (ki_pc _ _ _ H _ _ Ht) as (Ho & Hs & _).
    destruct (cas_cases _ _ _ _ _ _ _ _ _ E Hcr Hp Hs Ecas) as [Eoh ->].
    destruct (kinv_push l c s t d oh H Hc Ht) as (i & -> & Hni & H'); [by exists p|].
    exists (i :: l). split; [done|]. intros d. unfold tracked. cbn [k_own]. split.
    + intros [(j & [->|Hj]%elem_of_cons & ->)|[t' Hd]]; [right; by eexists|left; by exists j|].
      apply lookup_delete_Some in Hd as [_ Hd]. right. by exists t'.
    + intros [(j & Hj & ->)|Hd]; [left; exists j; split; [by right|done]|].
      destruct (decide (d = D db i)) as [->|Hne]; [left; exists i; split; [left|done]|].
      right. by rewrite lookup_delete_ne.
  - destruct (ki_pc _ _ _ H _ _ Ht) as (Ho & Hs & Hne & _).
    destruct (cas_cases _ _ _ _ _ _ _ _ _ E Hcr Hp Hs Ecas) as [-> ->].
    exists l. split; [|done]. apply kinv_pc; [done|]. split; [done|]. split; [done|].
    by eapply head_not_owned.
  - exists l. split; [|done]. rewrite Eload. by apply kinv_pc.
  - exists l. split; [|done]. by apply kinv_done.
  - exists l. split; [|done]. apply kinv_pc; [done|]. pose proof (ki_pc _ _ _ H _ _ Ht) as Hs.
    split; [done|]. split; [by destruct Hs as [_ [?|?]]|]. done.
  - destruct (ki_pc _ _ _ H _ _ Ht) as (Hs & Hd & _).
    destruct (cas_cases _ _ _ _ _ _ _ _ _ E Hcr Hp Hs Ecas) as [Eoh ->].
    destruct (kinv_pop l c s t oh n H Ht) as (i & l' & -> & Ei & H'); [by exists p|].
    exists l'. split; [done|]. intros d. unfold tracked. cbn [k_own]. rewrite Ei. split.
    + intros [(j & Hj & ->)|[t' Hd']]; [left; exists j; split; [by right|done]|].
      apply lookup_insert_Some in Hd' as [[<- _]|[_ Hd']]; [left; exists i; split; [left|done]|].
      right. by exists t'.
    + intros [(j & [->|Hj]%elem_of_cons & ->)|[t' Hd']]; [|left; by exists j|].
      * right. by rewrite lookup_insert_eq.
      * right. destruct (decide (d = D db i)) as [->|Hne]; [by rewrite lookup_insert_eq|].
        rewrite lookup_insert_ne by done. by exists t'.
  - destruct (ki_pc _ _ _ H _ _ Ht) as (Hs & _).
    destruct (cas_cases _ _ _ _ _ _ _ _ _ E Hcr Hp Hs Ecas) as [-> ->].
    exists l. split; [|done]. by apply kinv_pc.
  - exists l. split; [|done]. by apply (kinv_store l c s t).
Qed.

Lemma kstep_count k s s' : kstep rg k s s' → 0 ≤ k.
Proof using. by destruct 1. Qed.

Lemma ksteps_inv l c n s s' :
  kinv l c s → ksteps rg n s s' → c + n < 2 ^ 34 →
  ∃ l', kinv l' (c + n) s' ∧ ∀ d, tracked l' s' d ↔ tracked l s d.
Proof using HG Hrg.
  intros H Hst. induction Hst as [s|n k s1 s2 s3 Hst IH Hk]; intros Hc.
  - exists l. by rewrite Z.add_0_r.
  - pose proof (kstep_count _ _ _ Hk). destruct (IH H ltac:(lia)) as (l1 & H1 & T1).
    destruct (kstep_inv _ _ _ _ _ H1 Hk ltac:(lia)) as (l2 & H2 & T2). exists l2.
    rewrite Z.add_assoc. split; [done|]. intros d. by rewrite T2, T1.
Qed.
End Invariant.
