(* ===== verification/CacheSpec.v ===== *)
(** * Partial lists, cache fill and cache flush

    Total-correctness triples over the heap invariant for the operations between
    the superblock lists and the thread caches. *)

From Stdlib Require Import ZArith Lia.
From stdpp Require Import base gmap numbers functions list.
From S2P Require Import Prelude Mem Config Pptr SizeClass Region Meta MetaFacts TCache Heap Inv Ghost Rep SbSpec Trans.

Local Open Scope Z_scope.

(** [s] with another memory, descriptor region, heaps and caches. *)
Definition with_small (m : mem) (ds : gmap Z Descriptor) (hs : gmap Z ProcHeap)
    (tc : gmap (nat * Z) TCacheBin) (pl : list pevent) (s : state) : state :=
  mkState m ds (avail_sb s) hs (roots s) tc (rgs s) pl.

Section CacheSpec.
Context (db sb mb : Z) (HG : geom db sb mb).

(** Only the links between superblocks and their list change. *)
Lemma InvC_relink g g' m ds ds' av hs hs' tc rg i c fl lk :
  InvC db sb mb g m ds av hs tc rg → gwf sb g' →
  g_n g' = g_n g → g_avail g' = g_avail g → g_cache g' = g_cache g →
  g_kind g' = <[i := KSmall c fl lk]> (g_kind g) →
  (∃ lk', g_kind g !! i = Some (KSmall c fl lk')) →
  (∀ c', c' ≠ c → g_part g' c' = g_part g c') →
  (∀ j, j ≠ i → dget ds' (D db j) = dget ds (D db j)) →
  desc_small db sb mb i c fl (dget ds' (D db i)) →
  (∀ c', c' ≠ c → hs' !! c' = hs !! c') → sc_idx (default (mkHeap 0 0) (hs' !! c)) = c →
  (∃ p, head_is rg (partial_list (default (mkHeap 0 0) (hs' !! c))) p ∧
        dchain db (dnext_partial ds') p (g_part g' c)) →
  InvC db sb mb g' m ds' av hs' tc rg.
Proof using.
  intros H Hwf En Ea Ec Ek [lk' Hi] Hpt Hds Hd Hhs Hsc Hp.
  pose proof (iv_cache _ _ _ _ _ _ _ _ _ _ H 0%nat c) as Hca. cbn zeta in Hca.
  destruct (iv_small _ _ _ _ _ _ _ _ _ _ H _ _ _ _ Hi) as [_ Hch].
  eapply (InvC_small db sb mb g g' m m ds ds' av hs hs' tc tc rg 0%nat i c fl lk); try done.
  - intros k. congruence.
  - intros tc1 _. by rewrite Ec.
  - cbn zeta. by rewrite Ec.
Qed.

(** The heap a descriptor of class [c] points to. *)
Lemma desc_heap_idx_small s i c fl d :
  rg_at (rgs s) db sb mb → 1 ≤ c < MAX_SZ_IDX →
  get_desc s d = get_desc s (D db i) → desc_small db sb mb i c fl (get_desc s (D db i)) →
  desc_heap_idx s d = c ∧
  heap_index (rgs s) (CrossPtr_deref (rgs s) META_IDX (heap (get_desc s d))) = c.
Proof using HG.
  intros Hrg Hc Ed (Hh & _). unfold desc_heap_idx. rewrite Ed, Hh.
  unfold CrossPtr_get, CrossPtr_is_null, CrossPtr_deref, HEAPS_OFFSET.
  change CACHELINE_SIZE with 64. change MAX_SZ_IDX with 40 in Hc.
  rewrite u64_small by lia. rewrite (proj2 (Z.eqb_neq _ _)) by lia.
  assert (translate (rgs s) META_IDX (64 + c * 64) = heap_addr (rgs s) c) as ->.
  { unfold translate, heap_addr, HEAPS_OFFSET. change CACHELINE_SIZE with 64. f_equal. lia. }
  rewrite (heap_index_addr db sb mb HG (rgs s) Hrg); [done|]. change MAX_SZ_IDX with 40. lia.
Qed.

(** The superblock address stored in a descriptor. *)
Lemma superblock_get rg i off :
  rg_at rg db sb mb → 0 < i < MAX_DESC_AMOUNT → off = u64 (i * SBSIZE) →
  CrossPtr_get rg SB_IDX off = B sb i.
Proof using HG.
  intros Hrg Hi ->. unfold CrossPtr_get, CrossPtr_is_null, translate.
  change MAX_DESC_AMOUNT with (2 ^ 24) in *. pose proof (B_ok db sb mb HG i) as HB.
  change MAX_SB_AMOUNT with (2 ^ 24) in HB. unfold B in *. change SBSIZE with 65536 in *.
  rewrite (u64_small (i * 65536)) by lia. rewrite (proj2 (Z.eqb_neq _ _)) by lia.
  rewrite (rlookup_sb db sb mb rg Hrg). apply u64_small. lia.
Qed.

Lemma inv_part_ok g m ds av hs tc rg c :
  InvC db sb mb g m ds av hs tc rg → list_ok (g_part g c).
Proof using.
  intros H i Hi. apply (gw_part _ _ (iv_wf _ _ _ _ _ _ _ _ _ _ H)) in Hi as [fl Hi].
  by eapply inv_kind_index.
Qed.

(** ** Popping and pushing partial superblocks *)

Lemma heap_pop_partial_inv fuel g s c :
  (1 ≤ fuel)%nat → Inv db sb mb g s → 1 ≤ c < MAX_SZ_IDX →
  wp (heap_pop_partial fuel c) (λ r s',
    match g_part g c with
    | [] => r = 0 ∧ s' = s
    | i :: l => r = D db i ∧ ∃ fl hs pl, g_kind g !! i = Some (KSmall c fl true) ∧
        s' = with_small (smem s) (descs s) hs (t_caches s) pl s ∧
        Inv db sb mb (gh_unlink i c fl l g) s'
    end) s.
Proof using HG.
  intros Hf H Hc. destruct fuel as [|fuel]; [lia|].
  pose proof H as [Vwf Vrg Vlen Vn Vreg Vmax Vsm Vlg Vav Vhs Vpt Vca].
  destruct (Vpt c Hc) as (p & Hp & Hch).
  pose proof (inv_part_ok _ _ _ _ _ _ _ c H) as Hok.
  unfold heap_pop_partial. wp_steps. cbn [pop_partial_loop].
  replace (get_ptr (partial_load s c)) with p by (symmetry; apply Hp).
  destruct (g_part g c) as [|i l] eqn:El; cbn in Hch.
  { subst p. cbn [Z.eqb]. wp_steps. done. }
  destruct Hch as [-> Hch]. pose proof (Hok i ltac:(left)) as Hi.
  pose proof (D_ok db sb mb HG i ltac:(lia)). rewrite (proj2 (Z.eqb_neq _ _)) by lia.
  destruct (proj1 (gw_part _ _ Vwf c i) ltac:(rewrite El; left)) as [fl Hk].
  unfold partial_list_cas. wp_steps. unfold partial_load at 2.
  rewrite (acpc_cas_loaded db sb mb HG (rgs s)) by (done || apply Hp). wp_steps.
  split; [done|]. exists fl. eexists _, _. split; [done|]. split; [by destruct s|].
  unfold Inv. cbn [put_heap upd_heaps log smem descs avail_sb heaps t_caches rgs].
  destruct (Vsm _ _ _ _ Hk) as [Hd _].
  eapply (InvC_relink g _ _ (descs s)); try done.
  - apply gh_unlink_wf; done.
  - cbn. eauto.
  - intros c' Hne. cbn. by rewrite fn_lookup_insert_ne.
  - intros c' Hne. by rewrite lookup_insert_ne.
  - rewrite lookup_insert_eq. cbn. apply Vhs. lia.
  - rewrite lookup_insert_eq. cbn [default from_option id partial_list gh_unlink g_part].
    rewrite fn_lookup_insert. exists (dnext_partial (descs s) (D db i)). split; [|done].
    assert (list_ok l) as Hokl by (intros j Hj; apply Hok; by right).
    rewrite <- (next_partial_link db sb mb HG s (D db i) l) by done.
    apply (acpc_store_range db sb mb HG (rgs s) (PtrCnt _ _)); [done|apply unpack_counter, Hp|].
    cbn [get_ptr]. rewrite (next_partial_link db sb mb HG s (D db i) l) by done.
    by apply (dchain_head db (dnext_partial (descs s)) _ l).
Qed.

(** The links after [heap_push_partial] of descriptor [i] on a list headed by
    [p]. *)
Definition linked_desc (i p : Z) (d : Descriptor) : Descriptor :=
  with_next_partial (atomic_pptr_store (D db i + 8) p) d.

Lemma heap_push_partial_run fuel s i c p :
  (1 ≤ fuel)%nat → rg_at (rgs s) db sb mb → 0 < i < MAX_DESC_AMOUNT →
  desc_heap_idx s (D db i) = c → head_is (rgs s) (partial_list (get_heap s c)) p → p ≠ D db i →
  ∃ raw pl, head_is (rgs s) raw (D db i) ∧
    heap_push_partial fuel (D db i) s =
      Ok (tt, with_small (smem s) (<[D db i := linked_desc i p (get_desc s (D db i))]> (descs s))
                (<[c := mkHeap raw (sc_idx (get_heap s c))]> (heaps s)) (t_caches s) pl s).
Proof using HG.
  intros Hf Hrg Hi Ec Hp Hne. destruct fuel as [|fuel]; [lia|].
  unfold heap_push_partial, mbind, st_mbind, st_bind, st_gets. rewrite Ec.
  cbn [push_partial_loop get_ptr]. unfold mbind, st_mbind, st_bind, st_assert.
  replace (get_ptr (partial_load s c)) with p by (symmetry; apply Hp).
  rewrite (proj2 (Z.eqb_neq _ _)) by done. cbn [negb].
  unfold next_partial_store, partial_list_cas, st_mod, mbind, st_mbind, st_bind, st_get.
  cbn [rgs heaps upd_desc put_desc upd_descs log get_heap]. fold (get_heap s c). unfold partial_load.
  rewrite (acpc_cas_loaded db sb mb HG (rgs s)) by (done || apply Hp).
  eexists _, _. split; [|done].
  apply (acpc_store_range db sb mb HG (rgs s) (PtrCnt (D db i) _)); [done|apply u64_range|].
  right. eauto.
Qed.

(** The partial list after the push. *)
Lemma dchain_link ds i p l d :
  0 < i < MAX_DESC_AMOUNT → list_ok l → i ∉ l → dchain db (dnext_partial ds) p l →
  dchain db (dnext_partial (<[D db i := linked_desc i p d]> ds)) (D db i) (i :: l).
Proof using HG.
  intros Hi Hok Hni Hch. cbn [dchain]. split; [done|]. unfold dnext_partial at 2.
  rewrite dget_insert_eq. cbn. unfold atomic_pptr_store. rewrite link_load_store.
  - apply (dchain_ext db (dnext_partial ds)); [|done]. intros j Hj.
    unfold dnext_partial. rewrite dget_insert_ne; [done|]. intros ->%D_inj. done.
  - by eapply dchain_addr.
  - apply (D_addr_ok db sb mb HG). lia.
Qed.

Lemma dchain_head_ne nxt p l i :
  0 < i < MAX_DESC_AMOUNT → i ∉ l → dchain db nxt p l → p ≠ D db i.
Proof using HG.
  intros Hi Hni Hch ->. destruct l as [|j l]; cbn in Hch.
  - pose proof (D_ok db sb mb HG i ltac:(lia)). lia.
  - destruct Hch as [->%D_inj _]. apply Hni. left.
Qed.

Lemma heap_push_partial_inv fuel g s i c fl :
  (1 ≤ fuel)%nat → Inv db sb mb g s → g_kind g !! i = Some (KSmall c fl false) →
  wp (heap_push_partial fuel (D db i)) (λ _ s', ∃ ds hs pl,
    s' = with_small (smem s) ds hs (t_caches s) pl s ∧
    Inv db sb mb (gh_link i c fl g) s') s.
Proof using HG.
  intros Hf H Hk. pose proof H as [Vwf Vrg Vlen Vn Vreg Vmax Vsm Vlg Vav Vhs Vpt Vca].
  pose proof (gw_cls _ _ Vwf _ _ _ _ Hk) as Hc.
  destruct (Vpt c Hc) as (p & Hp & Hch). destruct (Vsm _ _ _ _ Hk) as [Hd _].
  pose proof (inv_part_ok _ _ _ _ _ _ _ c H) as Hok.
  assert (0 < i < MAX_DESC_AMOUNT) as Hi by (by eapply inv_kind_index).
  assert (i ∉ g_part g c) as Hni.
  { intros Hj. apply (gw_part _ _ Vwf) in Hj as [fl' Hj]. congruence. }
  destruct (desc_heap_idx_small s i c fl (D db i) Vrg Hc eq_refl Hd) as [Ec _].
  destruct (heap_push_partial_run fuel s i c p Hf Vrg Hi Ec Hp) as (raw & pl & Hraw & Erun);
    [by eapply dchain_head_ne|].
  apply wp_spec. eexists _, _. split; [exact Erun|]. eexists _, _, _. split; [done|].
  unfold Inv. cbn [with_small smem descs avail_sb heaps t_caches rgs].
  eapply (InvC_relink g _ _ (descs s)); try done.
  - by apply gh_link_wf.
  - eauto.
  - intros c' Hne. cbn. by rewrite fn_lookup_insert_ne.
  - intros j Hne. by rewrite dget_insert_ne by (intros ?%D_inj; congruence).
  - rewrite dget_insert_eq. apply Hd.
  - intros c' Hne. by rewrite lookup_insert_ne.
  - rewrite lookup_insert_eq. cbn. apply Vhs. lia.
  - rewrite lookup_insert_eq. cbn [default from_option id partial_list gh_link g_part].
    rewrite fn_lookup_insert. exists (D db i). split; [done|]. by apply dchain_link.
Qed.

(** ** Filling a cache from a partial superblock *)

Lemma mc_small c : 1 ≤ c < MAX_SZ_IDX → 4 ≤ mc c ≤ 8192.
Proof using.
  intros Hc. destruct (bs_mc c Hc) as (? & _ & ? & ?). change SBSIZE with 65536 in *. nia.
Qed.

(** The address computed from a block index. *)
Lemma blk_addr i c k :
  1 ≤ c < MAX_SZ_IDX → 0 ≤ i < MAX_DESC_AMOUNT → 0 ≤ k ≤ mc c →
  u64 (B sb i + u32 (k * bs c)) = blk sb i c k.
Proof using HG.
  intros Hc Hi Hk. destruct (bs_mc c Hc) as (? & _ & ? & ?). pose proof (mc_small c Hc).
  pose proof (blk_range_weak sb i c k Hc Hk). change SBSIZE with 65536 in *.
  pose proof (B_ok db sb mb HG i) as HB. pose proof (B_ok db sb mb HG (i + 1)) as HB'.
  change MAX_SB_AMOUNT with (2 ^ 24) in *. change MAX_DESC_AMOUNT with (2 ^ 24) in *.
  unfold blk in *. rewrite u32_small by nia. apply u64_small. lia.
Qed.

Lemma fl_length g i c fl lk :
  gwf sb g → g_kind g !! i = Some (KSmall c fl lk) → Z.of_nat (length fl) ≤ mc c.
Proof using.
  intros H Hi. apply (fl_length_le sb i c).
  - apply (gw_cls _ _ H _ _ _ _ Hi).
  - apply (gw_fl_nd _ _ H _ _ _ _ Hi).
  - intros b Hb. by apply (fl_subset sb g i c fl lk).
Qed.

(** The anchor of a superblock whose blocks were all taken. *)
Definition anchor_taken (c : Z) (a : Anchor) : Anchor :=
  set_astate (set_avail (set_count a 0) (mc c)) SB_FULL.

Lemma anchor_taken_rep i c a : 1 ≤ c < MAX_SZ_IDX → anchor_rep sb i c [] (anchor_taken c a).
Proof using.
  intros Hc. pose proof (mc_small c Hc). unfold anchor_rep, anchor_taken. cbn.
  unfold wrap. rewrite !Z.mod_small by lia. split; [lia|done].
Qed.

Lemma fill_rep g s t i c fl pl :
  Inv db sb mb g s → g_kind g !! i = Some (KSmall c fl false) → fl ≠ [] →
  g_cache g (t, c) = [] →
  let d := dget (descs s) (D db i) in
  Inv db sb mb (gh_fill t i c fl false g)
    (with_small (smem s) (<[D db i := with_anchor (anchor_taken c (anchor d)) d]> (descs s))
       (heaps s)
       (<[(t, c) := mkBin (from_option id 0 (head fl)) (Z.of_nat (length fl))]> (t_caches s)) pl s).
Proof using.
  intros H Hi Hfl Hnil d. pose proof H as [Vwf Vrg Vlen Vn Vreg Vmax Vsm Vlg Vav Vhs Vpt Vca].
  pose proof (gw_cls _ _ Vwf _ _ _ _ Hi) as Hc. destruct (Vsm _ _ _ _ Hi) as [Hd Hch].
  unfold Inv. cbn [with_small smem descs avail_sb heaps t_caches rgs].
  eapply (InvC_small db sb mb g _ (smem s) (smem s) (descs s) _ _ (heaps s) (heaps s)
            (t_caches s) _ (rgs s) t i c [] false); try done.
  - by apply gh_fill_wf.
  - intros k; congruence.
  - intros tc1 Hne. cbn. by rewrite fn_lookup_insert_ne.
  - intros j Hj. by rewrite dget_insert_ne by (intros ?%D_inj; congruence).
  - rewrite dget_insert_eq. destruct Hd as (?&?&?&?&?). do 4 (split; [done|]).
    by apply anchor_taken_rep.
  - apply Vhs. lia.
  - destruct (Vpt c Hc) as (p & Hp & Hch'). exists p. split; [done|].
    apply (dchain_ext db (dnext_partial (descs s))); [|done]. intros j Hj. cbn in Hj.
    apply (gw_part _ _ Vwf) in Hj as [fl' Hj]. unfold dnext_partial.
    rewrite dget_insert_ne by (intros ?%D_inj; congruence). done.
  - intros tc1 Hne. by rewrite lookup_insert_ne.
  - cbn. rewrite lookup_insert_eq, fn_lookup_insert. cbn. done.
Qed.

(** The reservation takes all blocks, or retires a superblock that is empty. *)
Lemma reserve_inv fuel g s i c fl :
  (2 ≤ fuel)%nat → Inv db sb mb g s → g_kind g !! i = Some (KSmall c fl false) → fl ≠ [] →
  let d := dget (descs s) (D db i) in
  wp (reserve_loop fuel (D db i) (B sb i) c (maxcount d) (anchor d)) (λ r s',
    if Z.of_nat (length fl) =? mc c
    then r = None ∧ ∃ ds av pl, s' = with_sbs ds av pl s ∧ Inv db sb mb (gh_retire sb i c g) s'
    else r = Some (anchor d) ∧
      s' = upd_desc (D db i) (with_anchor (anchor_taken c (anchor d))) s) s.
Proof using HG.
  intros Hf H Hi Hfl d. destruct fuel as [|[|fuel]]; [lia..|].
  pose proof H as [Vwf Vrg Vlen Vn Vreg Vmax Vsm Vlg Vav Vhs Vpt Vca].
  pose proof (gw_cls _ _ Vwf _ _ _ _ Hi) as Hc.
  destruct (Vsm _ _ _ _ Hi) as [(_ & _ & _ & Emc & Ha) _]. fold d in Emc, Ha.
  destruct Ha as [_ Ha]. destruct fl as [|b fl]; [done|]. destruct Ha as (_ & _ & Ha).
  cbn [reserve_loop]. destruct (Z.eqb_spec (Z.of_nat (length (b :: fl))) (mc c)) as [E|E];
    destruct Ha as [Est Ecnt]; rewrite Est.
  - rewrite decide_True by done. wp_steps.
    replace (sc_idx (get_heap s c)) with c by (symmetry; apply Vhs; lia).
    destruct (sc_facts c Hc) as (_ & _ & -> & _).
    eapply wp_mono; [by apply (small_sb_retire_inv db sb mb HG _ g i c (b :: fl)); [lia|..]|].
    cbn beta. intros _ s' (ds & av & pl & -> & Hinv). wp_steps. split; [done|]. eauto.
  - rewrite decide_False by done. unfold anchor_cas. wp_steps; [done|]. fold d.
    fold (get_desc s (D db i)). change (get_desc s (D db i)) with d.
    rewrite decide_True by done. wp_steps. rewrite Emc. done.
Qed.

Lemma gh_unlink_facts g i c fl l :
  gwf sb g → g_part g c = i :: l →
  g_kind (gh_unlink i c fl l g) !! i = Some (KSmall c fl false) ∧
  (∀ j, j ≠ i → g_kind (gh_unlink i c fl l g) !! j = g_kind g !! j).
Proof using.
  intros _ _. cbn. split; [by rewrite lookup_insert_eq|].
  intros j Hj. by rewrite lookup_insert_ne.
Qed.

Lemma trans_unlink g s i c fl l hs tc pl :
  g_kind g !! i = Some (KSmall c fl true) →
  trans sb tc g s (gh_unlink i c fl l g)
    (with_small (smem s) (descs s) hs (t_caches s) pl s).
Proof using. intros Hi. apply trans_intro; try done. by apply (live_unlink sb g i c fl l true). Qed.

Lemma bin_num g s t c :
  Inv db sb mb g s → get_block_num s t c = Z.of_nat (length (g_cache g (t, c))).
Proof using. intros H. apply (iv_cache _ _ _ _ _ _ _ _ _ _ H t c). Qed.

(** The end of [malloc_from_partial] once the blocks are reserved. *)
Lemma fill_push_inv g s t i c fl :
  Inv db sb mb g s → g_kind g !! i = Some (KSmall c fl false) → fl ≠ [] →
  Z.of_nat (length fl) ≠ mc c → g_cache g (t, c) = [] →
  let d := dget (descs s) (D db i) in
  wp (st_assert (avail (anchor d) <? maxcount d);;
      num ← st_gets (λ s, get_block_num s t c);
      st_assert (num =? 0);;
      push_list t c (u64 (B sb i + u32 (avail (anchor d) * dblock_size d))) (count (anchor d));;
      mret (count (anchor d))) (λ r s', r = Z.of_nat (length fl) ∧
        smem s' = smem s ∧ roots s' = roots s ∧ rgs s' = rgs s ∧
        Inv db sb mb (gh_fill t i c fl false g) s')
    (upd_desc (D db i) (with_anchor (anchor_taken c (anchor d))) s).
Proof using HG.
  intros H Hk Hfl Hne Hnil d. pose proof (iv_wf _ _ _ _ _ _ _ _ _ _ H) as Hwf.
  pose proof (gw_cls _ _ Hwf _ _ _ _ Hk) as Hc. pose proof (mc_small c Hc).
  pose proof (fl_length g i c fl false Hwf Hk) as Hlen.
  assert (0 < i < MAX_DESC_AMOUNT) as Hi by (by eapply inv_kind_index).
  destruct (iv_small _ _ _ _ _ _ _ _ _ _ H _ _ _ _ Hk) as [(_ & _ & Ebs & Emc & Ha) _].
  fold d in Ebs, Emc, Ha. pose proof (λ pl, fill_rep g s t i c fl pl H Hk Hfl Hnil) as Hfill.
  destruct fl as [|b fl]; [done|]. destruct Ha as [Hav (Eb & Hlt & Hst)].
  rewrite (proj2 (Z.eqb_neq _ _)) in Hst by done. destruct Hst as [_ Ecnt].
  rewrite Ebs, Emc, blk_addr by (done || lia). rewrite <- Eb, Ecnt.
  pose proof (bin_num g s t c H) as Hnum. rewrite Hnil in Hnum.
  unfold push_list. wp_steps.
  - by apply Z.ltb_lt.
  - apply Z.eqb_eq. done.
  - apply Z.eqb_eq. done.
  - rewrite u32_small by lia. split; [done|]. do 3 (split; [done|]). apply Hfill.
Qed.

(** Taking a partial superblock: all its free blocks move to the cache. *)
Lemma malloc_from_partial_inv fuel g s t c :
  (length (g_part g c) + 3 ≤ fuel)%nat → Inv db sb mb g s → settled g →
  1 ≤ c < MAX_SZ_IDX → g_cache g (t, c) = [] →
  wp (malloc_from_partial fuel t c) (λ r s', ∃ g',
    Inv db sb mb g' s' ∧ settled g' ∧ trans sb (t, c) g s g' s' ∧
    r = Z.of_nat (length (g_cache g' (t, c))) ∧
    g_n g' = g_n g ∧ (g_avail g' = [] → g_avail g = [])) s.
Proof using HG.
  revert g s. induction fuel as [|fuel IH]; intros g s Hf H Hset Hc Hnil; [lia|].
  cbn [malloc_from_partial]. wp_steps.
  eapply wp_mono; [by apply (heap_pop_partial_inv _ g); [lia|..]|].
  cbn beta. intros r s1 Hpop. destruct (g_part g c) as [|i l] eqn:El.
  { destruct Hpop as [-> ->]. cbn [Z.eqb]. wp_steps. exists g. rewrite Hnil.
    split_and!; try done. }
  destruct Hpop as (-> & fl & hs & pl1 & Hk & Es1 & H1). pose proof (iv_wf _ _ _ _ _ _ _ _ _ _ H) as Hwf.
  set (g1 := gh_unlink i c fl l g) in *.
  destruct (gh_unlink_facts g i c fl l Hwf El) as [Hk1 Hoth]. fold g1 in Hk1, Hoth.
  assert (trans sb (t, c) g s g1 s1) as Ht1 by (rewrite Es1; by apply trans_unlink).
  assert (fl ≠ []) as Hfl by (by apply (proj2 Hset _ _ _ _ Hk)).
  assert (0 < i < MAX_DESC_AMOUNT) as Hi by (by eapply (inv_kind_index db sb mb g)).
  pose proof (iv_wf _ _ _ _ _ _ _ _ _ _ H1) as Hwf1.
  pose proof (iv_small _ _ _ _ _ _ _ _ _ _ H1 _ _ _ _ Hk1) as [(_ & Esb & _) _].
  pose proof (D_ok db sb mb HG i ltac:(lia)). rewrite (proj2 (Z.eqb_neq _ _)) by lia. wp_steps.
  change (get_desc s1 (D db i)) with (dget (descs s1) (D db i)).
  rewrite (superblock_get (rgs s1) i) by (done || by eapply iv_rg).
  eapply wp_mono; [by apply (reserve_inv _ g1 s1 i c fl); [lia|..]|]. cbn beta. intros r s2 Hr.
  destruct (Z.eqb_spec (Z.of_nat (length fl)) (mc c)) as [Efull|Efull]; destruct Hr as [-> Hr].
  - destruct Hr as (ds & av & pl & Es2 & H2).
    assert (settled (gh_retire sb i c g1)) as Hset2.
    { apply (settled_set g _ i KFree); try done; [by cbn; rewrite lookup_insert_eq|].
      intros j Hj. left. cbn. rewrite lookup_insert_ne by done. by apply Hoth. }
    eapply wp_mono; [apply (IH (gh_retire sb i c g1)); try done|].
    { cbn. rewrite fn_lookup_insert. cbn in Hf. lia. }
    cbn beta. intros r s3 (g' & H3 & Hs3 & Ht3 & -> & En & Eav). exists g'.
    split_and!; try done; [|by intros ?%Eav].
    eapply trans_trans; [done|]. eapply trans_trans; [|done].
    rewrite Es2. apply trans_intro; try done. by eapply (live_retire sb g1 i c fl).
  - rewrite Hr. eapply wp_mono; [by apply (fill_push_inv g1)|].
    cbn beta. intros r s3 (-> & Em & Ert & Erg & H3). exists (gh_fill t i c fl false g1).
    split_and!; try done.
    + apply (settled_set g _ i (KSmall c [] false)); try done.
      * cbn. by rewrite lookup_insert_eq.
      * intros ? ? ? [= <- <- <-]. done.
      * intros j Hj. left. cbn. rewrite lookup_insert_ne by done. by apply Hoth.
    + eapply trans_trans; [done|]. apply trans_intro; try done.
      * by apply live_fill.
      * intros tc' Hne. cbn. by rewrite fn_lookup_insert_ne.
      * unfold region_end. by rewrite Erg.
    + cbn. by rewrite fn_lookup_insert.
Qed.

(** ** A fresh superblock *)

(** What [init_blocks] writes: the links of the first [n] blocks. *)
Lemma init_blocks_prefix m i c n :
  1 ≤ c < MAX_SZ_IDX → 0 ≤ i < MAX_DESC_AMOUNT → Z.of_nat n < mc c →
  let m' := foldl (λ m idx, pstore m (u64 (B sb i + u32 (idx * bs c)))
                              (u64 (B sb i + u32 ((idx + 1) * bs c)))) m (seqZ 0 (Z.of_nat n)) in
  (∀ k, 0 ≤ k < Z.of_nat n → pload m' (blk sb i c k) = blk sb i c (k + 1)) ∧
  (∀ a, ¬ B sb i ≤ a < B sb (i + 1) → load8 m' a = load8 m a).
Proof using HG.
  intros Hc Hi. destruct (bs_mc c Hc) as (Hbs & _ & _ & Hmc).
  induction n as [|n IH]; intros Hn; [split; [lia|done]|]. cbn zeta in *.
  destruct IH as [IH1 IH2]; [lia|].
  replace (Z.of_nat (S n)) with (Z.of_nat n + 1) by lia. rewrite seqZ_S, foldl_app by lia.
  rewrite Z.add_0_l. cbn [foldl]. rewrite !blk_addr by (done || lia).
  pose proof (blk_range sb i c (Z.of_nat n) Hc ltac:(lia)) as Hr.
  assert (∀ k, 0 ≤ k < mc c → addr_ok (blk sb i c k)) as Hok.
  { intros k Hk. pose proof (blk_range_weak sb i c k Hc ltac:(lia)).
    by apply (B_addr_ok db sb mb HG i). }
  split.
  - intros k Hk. destruct (decide (k = Z.of_nat n)) as [->|].
    + apply pload_pstore_eq; apply Hok; lia.
    + rewrite pload_pstore_ne; [apply IH1; lia|]. unfold blk. left. nia.
  - intros a Ha. unfold pstore. rewrite load8_store64_ne by lia. by apply IH2.
Qed.

Lemma chain_seq m i c n k :
  (∀ j, k ≤ j < k + Z.of_nat n → pload m (blk sb i c j) = blk sb i c (j + 1)) →
  chain m (blk sb i c k) (blk sb i c <$> seqZ k (Z.of_nat (S n))).
Proof using.
  revert k. induction n as [|n IH]; intros k H.
  - cbn. done.
  - rewrite Nat2Z.inj_succ, seqZ_cons by lia. cbn [fmap list_fmap chain]. split; [done|].
    rewrite H by lia. replace (Z.succ k) with (k + 1) by lia.
    replace (Z.pred (Z.succ (Z.of_nat (S n)))) with (Z.of_nat (S n)) by lia.
    apply IH. intros j Hj. apply H. lia.
Qed.

Lemma blk_0 i c : blk sb i c 0 = B sb i.
Proof using. unfold blk. lia. Qed.

Lemma init_blocks_spec m i c :
  1 ≤ c < MAX_SZ_IDX → 0 ≤ i < MAX_DESC_AMOUNT →
  chain (init_blocks m (B sb i) (bs c) (mc c)) (B sb i) (blocks sb i c) ∧
  (∀ a, ¬ B sb i ≤ a < B sb (i + 1) →
     load8 (init_blocks m (B sb i) (bs c) (mc c)) a = load8 m a).
Proof using HG.
  intros Hc Hi. pose proof (mc_small c Hc). unfold init_blocks, blocks.
  destruct (init_blocks_prefix m i c (Z.to_nat (mc c - 1)) Hc Hi ltac:(lia)) as [H1 H2].
  replace (Z.of_nat (Z.to_nat (mc c - 1))) with (mc c - 1) in * by lia.
  split; [|done]. set (m' := foldl _ _ _) in *. rewrite <- (blk_0 i c) at 1.
  replace (mc c) with (Z.of_nat (S (Z.to_nat (mc c - 1)))) by lia.
  apply chain_seq. intros j Hj. apply H1. lia.
Qed.

(** The first word of a block of another superblock. *)
Lemma block_outside i j c x b :
  1 ≤ c < MAX_SZ_IDX → j ≠ i → x ∈ blocks sb j c → x ≤ b < x + 8 →
  ¬ B sb i ≤ b < B sb (i + 1).
Proof using.
  intros Hc Hne (k & Hk & ->)%elem_of_blocks Hb Hr.
  destruct (bs_mc c Hc) as (? & _). pose proof (blk_range sb j c k Hc Hk).
  apply Hne. apply (sb_unique sb j i b); lia.
Qed.

Lemma newsb_rep g s t i c pl d :
  Inv db sb mb g s → g_kind g !! i = Some KHeld → 1 ≤ c < MAX_SZ_IDX →
  g_cache g (t, c) = [] → desc_small db sb mb i c [] d →
  Inv db sb mb (gh_newsb sb t i c g)
    (with_small (init_blocks (smem s) (B sb i) (bs c) (mc c)) (<[D db i := d]> (descs s)) (heaps s)
       (<[(t, c) := mkBin (B sb i) (mc c)]> (t_caches s)) pl s).
Proof using HG.
  intros H Hi Hc Hnil Hd. pose proof H as [Vwf Vrg Vlen Vn Vreg Vmax Vsm Vlg Vav Vhs Vpt Vca].
  assert (0 < i < MAX_DESC_AMOUNT) as Hir by (by eapply inv_kind_index).
  destruct (init_blocks_spec (smem s) i c Hc ltac:(lia)) as [Hch Hout].
  set (m' := init_blocks _ _ _ _) in *. pose proof (mc_small c Hc).
  assert (∀ j c' fl lk x, g_kind g !! j = Some (KSmall c' fl lk) → x ∈ blocks sb j c' →
            pload m' x = pload (smem s) x) as Hmem.
  { intros j c' fl lk x Hj Hx. apply pload_ext. intros b Hb. apply Hout.
    apply (block_outside i j c' x b); try done; [|congruence]. by eapply (gw_cls _ _ Vwf). }
  unfold Inv. cbn [with_small smem descs avail_sb heaps t_caches rgs].
  eapply (InvC_small db sb mb g _ (smem s) m' (descs s) _ _ (heaps s) (heaps s)
            (t_caches s) _ (rgs s) t i c [] false); try done.
  - by apply gh_newsb_wf.
  - intros k. congruence.
  - intros tc1 Hne. cbn. by rewrite fn_lookup_insert_ne.
  - intros j Hj. by rewrite dget_insert_ne by (intros ?%D_inj; congruence).
  - by rewrite dget_insert_eq.
  - apply Vhs. lia.
  - destruct (Vpt c Hc) as (p & Hp & Hch'). exists p. split; [done|].
    apply (dchain_ext db (dnext_partial (descs s))); [|done]. intros j Hj. cbn in Hj.
    apply (gw_part _ _ Vwf) in Hj as [fl' Hj]. unfold dnext_partial.
    rewrite dget_insert_ne by (intros ?%D_inj; congruence). done.
  - intros tc1 Hne. by rewrite lookup_insert_ne.
  - cbn. rewrite lookup_insert_eq, fn_lookup_insert. cbn. rewrite length_blocks. split; [lia|done].
  - intros j c' fl' lk' Hne Hj x Hx. eapply Hmem; [done|]. by eapply (fl_subset sb g).
  - intros [t' c'] Hne x Hx. apply (cache_block sb) in Hx as (j & fl & lk & Hj & Hx); [|done]. eauto.
Qed.

Lemma taken_held g i g' :
  taken g i g' → g_kind g' !! i = Some KHeld.
Proof using.
  intros [l El|El ->]; cbn.
  - by rewrite lookup_insert_eq.
  - rewrite lookup_mset, decide_False by (rewrite elem_of_seqZ; lia). by rewrite lookup_insert_eq.
Qed.

Lemma taken_other g i g' j :
  taken g i g' → j ≠ i → g_kind g' !! j = g_kind g !! j ∨ g_kind g' !! j = Some KFree.
Proof using.
  intros [l El|El ->] Hne; cbn.
  - rewrite lookup_insert_ne by done. by left.
  - rewrite lookup_mset. case_decide; [by right|]. rewrite lookup_insert_ne by done. by left.
Qed.

Lemma taken_live g i g' :
  gwf sb g → 1 ≤ g_n g → taken g i g' → ∀ p z, live sb g' p z ↔ live sb g p z.
Proof using.
  intros H Hn [l El|El ->]; [by apply live_take|by apply live_expand].
Qed.

Lemma taken_cache g i g' : taken g i g' → g_cache g' = g_cache g.
Proof using. by intros []. Qed.

(** A block of a held superblock is not live. *)
Lemma live_not_held g i p z a :
  gwf sb g → g_kind g !! i = Some KHeld → live sb g p z → p ≤ a < p + z →
  ¬ B sb i ≤ a < B sb (i + 1).
Proof using.
  intros H Hi [(j & c & fl & lk & Hj & Hb & _ & ->)|(j & k & Hj & -> & ->)] Ha Hr.
  - pose proof (gw_cls _ _ H _ _ _ _ Hj) as Hc. apply elem_of_blocks in Hb as (n & Hn & ->).
    pose proof (blk_range sb j c n Hc Hn).
    assert (j = i) as -> by (apply (sb_unique sb j i a); lia). congruence.
  - destruct (gw_large _ _ H _ _ Hj) as (_ & _ & _ & Ht).
    destruct (decide (j = i)) as [->|Hne]; [congruence|].
    unfold B in *. change SBSIZE with 65536 in *. rewrite Ht in Hi by lia. congruence.
Qed.

(** The descriptor [malloc_from_newsb] leaves. *)
Definition newsb_desc (rg : Regions) (i c : Z) (d : Descriptor) : Descriptor :=
  with_anchor (set_astate (set_count (set_avail (Anchor_of_word 0) (mc c)) 0) SB_FULL)
    (with_superblock (CrossPtr_assign rg SB_IDX (B sb i))
      (with_maxcount (mc c) (with_block_size (bs c)
        (with_heap (CrossPtr_assign rg META_IDX (heap_addr rg c)) d)))).

Lemma newsb_desc_small rg i c d :
  rg_at rg db sb mb → 1 ≤ c < MAX_SZ_IDX → desc_small db sb mb i c [] (newsb_desc rg i c d).
Proof using HG.
  intros Hrg Hc. pose proof (mc_small c Hc). destruct (bs_mc c Hc) as (? & _ & _ & ?).
  change SBSIZE with 65536 in *.
  unfold desc_small, newsb_desc, CrossPtr_assign, untranslate. cbn [heap superblock dblock_size
    maxcount anchor with_anchor with_superblock with_maxcount with_block_size with_heap].
  split; [|split; [|split; [|split]]].
  - rewrite (rlookup_meta db sb mb rg Hrg). unfold heap_addr.
    rewrite (rlookup_meta db sb mb rg Hrg), u64_sub_l. f_equal. lia.
  - rewrite (rlookup_sb db sb mb rg Hrg). unfold B. f_equal. lia.
  - apply u32_small. nia.
  - apply u32_small. lia.
  - split; [|done]. cbn [set_astate set_count set_avail avail]. unfold wrap.
    rewrite Z.mod_small by lia. lia.
Qed.

Lemma malloc_from_newsb_inv fuel g s t c :
  (2 ≤ fuel)%nat → Inv db sb mb g s → settled g → 1 ≤ c < MAX_SZ_IDX →
  g_cache g (t, c) = [] → (g_avail g = [] → has_room sb s g EXPAND_SBS) →
  wp (malloc_from_newsb fuel t c) (λ r s', ∃ g',
    Inv db sb mb g' s' ∧ settled g' ∧ trans sb (t, c) g s g' s' ∧
    r = mc c ∧ Z.of_nat (length (g_cache g' (t, c))) = mc c) s.
Proof using HG.
  intros Hf H Hset Hc Hnil Hroom. destruct (sc_facts c Hc) as (_ & _ & Esz & _ & _).
  pose proof (mc_small c Hc) as Hmc. unfold malloc_from_newsb. rewrite Esz. fold (bs c) (mc c).
  wp_steps. eapply wp_mono; [by apply (small_sb_alloc_inv db sb mb HG fuel g)|].
  cbn beta. intros r s1 (i & g1 & ds & av & pl & rg & -> & Htk & Es1 & Eend & H1).
  pose proof (iv_wf _ _ _ _ _ _ _ _ _ _ H) as Hwf. pose proof (iv_wf _ _ _ _ _ _ _ _ _ _ H1) as Hwf1.
  pose proof (taken_held _ _ _ Htk) as Hi. pose proof (taken_cache _ _ _ Htk) as Ec.
  assert (0 < i < MAX_DESC_AMOUNT) as Hir by (by eapply (inv_kind_index db sb mb g1)).
  pose proof (B_ok db sb mb HG i) as HB. change MAX_SB_AMOUNT with MAX_DESC_AMOUNT in HB.
  pose proof (iv_rg _ _ _ _ _ _ _ _ _ _ H1) as Hrg.
  assert (g_cache g1 (t, c) = []) as Hnil1 by (by rewrite Ec).
  pose proof (bin_num g1 s1 t c H1) as Hnum. rewrite Hnil1 in Hnum.
  destruct (init_blocks_spec (smem s1) i c Hc ltac:(lia)) as [_ Hout].
  assert (Em1 : smem s1 = smem s ∧ roots s1 = roots s) by (by rewrite Es1).
  unfold push_list, FLUSH, FLUSHFENCE. wp_steps.
  { rewrite (proj2 (Z.eqb_neq _ _)) by lia. done. }
  { apply Z.eqb_eq. apply Hnum. }
  { rewrite bool_decide_eq_true_2 by done. by rewrite orb_true_r. }
  { apply Z.ltb_lt. change (0 < mc c). lia. }
  { done. }
  rewrite (desc_lookup_B db sb mb HG) by (done || lia).
  exists (gh_newsb sb t i c g1).
  pose proof (λ pl, newsb_rep g1 s1 t i c pl
    (newsb_desc (rgs s1) i c (get_desc s1 (D db i))) H1 Hi Hc Hnil1) as Hrep.
  split; [|split; [|split; [|split]]].
  - eapply eq_ind; [eapply Hrep; by apply newsb_desc_small|].
    unfold upd_desc, put_desc, get_desc, upd_descs, with_small, newsb_desc, put_bin, upd_caches.
    cbn. rewrite !lookup_insert_eq, !insert_insert_eq. cbn. rewrite u32_small by lia. done.
  - apply (settled_set g _ i (KSmall c [] false)); try done.
    + cbn. by rewrite lookup_insert_eq.
    + by intros ? ? ? [= <- <- <-].
    + intros j Hj. cbn. rewrite lookup_insert_ne by done. by eapply taken_other.
  - constructor.
    + intros p z. rewrite live_newsb by done. apply (taken_live g i); try done. by eapply iv_n.
    + intros tc' Hne. cbn. rewrite fn_lookup_insert_ne by done. by rewrite Ec.
    + intros p z a Hl Ha. cbn. rewrite Hout; [by destruct Em1 as [-> _]|].
      apply (live_not_held g1 i p z); try done. apply (taken_live g i); try done. by eapply iv_n.
    + apply Em1.
    + done.
  - done.
  - cbn. rewrite fn_lookup_insert, length_blocks. lia.
Qed.
End CacheSpec.
