(* ===== verification/FlushSpec.v ===== *)
(** * Filling and flushing a cache *)

From Stdlib Require Import ZArith Lia.
From stdpp Require Import base gmap numbers functions list.
From S2P Require Import Prelude Mem Config Pptr SizeClass Region Meta MetaFacts TCache Heap Inv Ghost Rep Trans SbSpec CacheSpec.

Local Open Scope Z_scope.
#[local] Set Warnings "-clear-no-such-hyp".

(** The link of the last block of a run does not matter. *)
Lemma chain_upto m m' b l x :
  (∀ y, y ∈ l → pload m' y = pload m y) → chain m b (l ++ [x]) → chain m' b (l ++ [x]).
Proof.
  revert b. induction l as [|y l IH]; intros b Heq; cbn; [done|]. intros [-> Hch].
  split; [done|]. rewrite Heq by set_solver. apply IH; [|done]. set_solver.
Qed.

Section FlushSpec.
Context (db sb mb : Z) (HG : geom db sb mb).

(** No superblock is free and the region cannot grow. *)
Definition out_of_space (g : ghost) (s : state) : Prop :=
  g_avail g = [] ∧ ¬ has_room sb s g EXPAND_SBS.

Lemma malloc_from_newsb_oom fuel g s t c :
  (2 ≤ fuel)%nat → Inv db sb mb g s → 1 ≤ c < MAX_SZ_IDX → out_of_space g s →
  malloc_from_newsb fuel t c s = Fail.
Proof using HG.
  intros Hf H Hc [Ha Hr]. destruct (sc_facts c Hc) as (_ & _ & Esz & _).
  unfold malloc_from_newsb. rewrite Esz. unfold mbind, st_mbind, st_bind.
  by rewrite (small_sb_alloc_oom db sb mb HG fuel g).
Qed.

(** [fill_cache]: an empty cache bin gets at least one block and the program's
    blocks are untouched, unless memory is exhausted. *)
Lemma fill_cache_inv fuel g s t c :
  (length (g_part g c) + 3 ≤ fuel)%nat → Inv db sb mb g s → settled g →
  1 ≤ c < MAX_SZ_IDX → g_cache g (t, c) = [] →
  wpe (fill_cache fuel t c) (λ _ s', ∃ g',
    Inv db sb mb g' s' ∧ settled g' ∧ trans sb (t, c) g s g' s' ∧ g_cache g' (t, c) ≠ [])
    (out_of_space g s) s.
Proof using HG.
  intros Hf H Hset Hc Hnil. destruct (sc_facts c Hc) as (_ & _ & _ & _ & Ecb & _).
  pose proof (mc_small c Hc) as Hmc. unfold fill_cache. rewrite Ecb. fold (mc c). apply wpe_bind.
  apply wp_wpe. eapply wp_mono; [by apply (malloc_from_partial_inv db sb mb HG fuel g)|]. cbn beta.
  intros r s1 (g1 & H1 & Hs1 & Ht1 & -> & En & Eav).
  destruct (Z.eqb_spec (Z.of_nat (length (g_cache g1 (t, c)))) 0) as [E|E].
  - assert (g_cache g1 (t, c) = []) as Hnil1 by (apply length_zero_iff_nil; lia). apply wpe_bind.
    destruct (decide (g_avail g1 = [] ∧ region_end s1 < B sb (g_n g1 + EXPAND_SBS))) as [[Ea Er]|Hok].
    { apply wpe_fail.
      - apply (malloc_from_newsb_oom _ g1); try done; [lia|]. split; [done|]. unfold has_room. lia.
      - split; [auto|]. unfold has_room. rewrite <- En, <- (tr_end _ _ _ _ _ _ Ht1). lia. }
    apply wp_wpe. eapply wp_mono; [apply (malloc_from_newsb_inv db sb mb HG fuel g1); try done; [lia|]|].
    { intros E1. unfold has_room. destruct (decide (region_end s1 < B sb (g_n g1 + EXPAND_SBS))); [|lia].
      exfalso. auto. }
    cbn beta. intros r s2 (g2 & H2 & Hs2 & Ht2 & -> & Hlen). apply wp_wpe.
    wp_steps; [apply Z.ltb_lt; lia|apply Z.leb_refl|].
    exists g2. split_and!; try done.
    + by eapply trans_trans.
    + intros Hn. rewrite Hn in Hlen. cbn in Hlen. lia.
  - pose proof (gw_cache_len _ _ (iv_wf _ _ _ _ _ _ _ _ _ _ H1) t c) as Hl. apply wp_wpe.
    wp_steps; [apply Z.ltb_lt; lia|apply Z.leb_le; lia|]. exists g1. split_and!; try done.
    intros Hn. by rewrite Hn in E.
Qed.

(** ** Giving blocks back *)

(** [gather] finds a run of blocks of superblock [i] at the front. *)
Lemma gather_spec fuel m i n x l :
  (length l < fuel)%nat → chain m x (x :: l) →
  u64 (B sb i + SBSIZE) = B sb (i + 1) →
  ∃ l1 l2, l = l1 ++ l2 ∧ (∀ y, y ∈ l1 → B sb i ≤ y < B sb (i + 1)) ∧
    gather fuel m (n + Z.of_nat (length l)) (B sb i) SBSIZE n x =
      Ok (n + Z.of_nat (length l1), default x (last l1)).
Proof using HG.
  revert n x l. induction fuel as [|fuel IH]; intros n x l Hf [_ Hch] Eend; [lia|].
  cbn [gather]. destruct l as [|y l].
  - exists [], []. split; [done|]. split; [set_solver|].
    rewrite (proj2 (Z.ltb_ge _ _)) by (cbn; lia). cbn. do 2 f_equal. lia.
  - destruct Hch as [Ey Hch]. rewrite (proj2 (Z.ltb_lt _ _)) by (cbn [length]; lia).
    rewrite Ey, Eend. destruct ((y <? B sb i) || (B sb (i + 1) <=? y)) eqn:Eb.
    + exists [], (y :: l). split; [done|]. split; [set_solver|]. cbn. do 2 f_equal. lia.
    + apply orb_false_iff in Eb as [E1%Z.ltb_ge E2%Z.leb_gt].
      destruct (IH (n + 1) y l) as (l1 & l2 & -> & Hin & Eg); [cbn in Hf; lia|done|done|].
      exists (y :: l1), l2. split; [done|]. split.
      * intros z [->|Hz]%elem_of_cons; [lia|by apply Hin].
      * replace (n + Z.of_nat (length (y :: l1 ++ l2))) with
          (n + 1 + Z.of_nat (length (l1 ++ l2))) by (cbn [length]; lia).
        rewrite Eg. rewrite last_cons. cbn [length]. do 2 f_equal; [lia|]. by destruct (last l1).
Qed.

(** The new anchor represents the longer free list. *)
Lemma flush_anchor_rep i c fl a k l1 :
  1 ≤ c < MAX_SZ_IDX → anchor_rep sb i c fl a → 0 ≤ k < mc c → l1 ≠ [] →
  head l1 = Some (blk sb i c k) → Z.of_nat (length (l1 ++ fl)) ≤ mc c →
  count a < mc c ∧
  anchor_rep sb i c (l1 ++ fl) (flush_newanchor a k (Z.of_nat (length l1)) (mc c)) ∧
  (astate a = SB_FULL ↔ fl = []) ∧
  (astate (flush_newanchor a k (Z.of_nat (length l1)) (mc c)) = SB_EMPTY ↔
     Z.of_nat (length (l1 ++ fl)) = mc c).
Proof using.
  intros Hc [Hav Ha] Hk Hl1 Hh Hlen. pose proof (mc_small c Hc) as Hmc.
  destruct l1 as [|b l1]; [done|]. cbn in Hh. injection Hh as ->.
  rewrite length_app in *. cbn [length] in *.
  assert (astate a ≠ SB_EMPTY ∧ count a = Z.of_nat (length fl) ∧ (astate a = SB_FULL ↔ fl = []))
    as (Hne & Ecnt & Hfull).
  { destruct fl as [|b' fl]; [destruct Ha as [-> ->]; naive_solver|].
    destruct Ha as (_ & _ & Ha). rewrite (proj2 (Z.eqb_neq _ _)) in Ha by (cbn [length] in *; lia).
    destruct Ha as [-> ->]. naive_solver. }
  assert (wrap 31 k = k) as Ek by (unfold wrap; apply Z.mod_small; lia).
  split; [lia|]. unfold anchor_rep, flush_newanchor. cbn [app]. rewrite length_cons, length_app.
  rewrite Ecnt.
  replace (Z.of_nat (length fl) + Z.of_nat (S (length l1)) =? mc c)
    with (Z.of_nat (S (length l1 + length fl)) =? mc c) by (f_equal; lia).
  destruct (Z.eqb_spec (Z.of_nat (S (length l1 + length fl))) (mc c)) as [E|E].
  - split; [|split; [done|]].
    + destruct (decide (astate a = SB_FULL)); cbn [set_astate set_count set_avail avail count astate];
        rewrite Ek; unfold wrap; rewrite Z.mod_small by lia; split_and!; done || lia.
    + split; [intros; lia|done].
  - assert (astate a ≠ SB_FULL → astate a = SB_PARTIAL) as Hpart.
    { destruct fl as [|b' fl]; [naive_solver|]. destruct Ha as (_ & _ & Ha).
      rewrite (proj2 (Z.eqb_neq _ _)) in Ha by (cbn [length] in *; lia). naive_solver. }
    split; [|split; [done|]].
    + destruct (decide (astate a = SB_FULL)); cbn [set_astate set_count set_avail avail count astate];
        rewrite Ek; unfold wrap; rewrite Z.mod_small by lia; split_and!; try done; try lia.
      by apply Hpart.
    + destruct (decide (astate a = SB_FULL)); cbn [set_astate set_count set_avail astate];
        (split; [|lia]); naive_solver.
Qed.

(** Cached and free blocks are word-aligned. *)
Lemma cache_aligned g t c b : gwf sb g → b ∈ g_cache g (t, c) → b mod 8 = 0.
Proof using HG.
  intros H (i & fl & lk & Hi & Hb)%(cache_block sb); [|done].
  apply (blocks_aligned db sb mb HG i c); [|done]. apply (gw_cls _ _ H _ _ _ _ Hi).
Qed.

Lemma fl_aligned g i c fl lk b :
  gwf sb g → g_kind g !! i = Some (KSmall c fl lk) → b ∈ fl → b mod 8 = 0.
Proof using HG.
  intros H Hi Hb. apply (fl_subset sb g i c fl lk) in Hb as [_ Hb]; try done.
  apply (blocks_aligned db sb mb HG i c); [|done]. apply (gw_cls _ _ H _ _ _ _ Hi).
Qed.

(** Two caches share no block. *)
Lemma cache_disjoint g tc1 tc2 b :
  gwf sb g → tc1 ≠ tc2 → b ∈ g_cache g tc1 → b ∉ g_cache g tc2.
Proof using.
  intros H Hne H1 H2. destruct tc1 as [t1 c1], tc2 as [t2 c2]. apply Hne.
  pose proof (cache_own sb _ _ _ _ H H1) as O1. pose proof (cache_own sb _ _ _ _ H H2) as O2.
  apply (cache_block sb) in H1 as (i1 & fl1 & lk1 & K1 & B1); [|done].
  apply (cache_block sb) in H2 as (i2 & fl2 & lk2 & K2 & B2); [|done].
  destruct (kind_same sb g i1 i2 c1 c2 fl1 fl2 lk1 lk2 b) as (_ & -> & _); try done. congruence.
Qed.

Lemma give_rep g s t i c fl lk l1 x l2 v a pl :
  Inv db sb mb g s → g_kind g !! i = Some (KSmall c fl lk) →
  g_cache g (t, c) = (l1 ++ [x]) ++ l2 → (∀ b, b ∈ l1 ++ [x] → b ∈ blocks sb i c) →
  addr_ok v → (fl ≠ [] → v = from_option id 0 (head fl)) →
  anchor_rep sb i c ((l1 ++ [x]) ++ fl) a →
  let d := dget (descs s) (D db i) in
  Inv db sb mb (gh_give t i c fl lk (l1 ++ [x]) l2 g)
    (with_small (pstore (smem s) x v) (<[D db i := with_anchor a d]> (descs s)) (heaps s)
       (<[(t, c) := mkBin (pload (smem s) x) (Z.of_nat (length l2))]> (t_caches s)) pl s).
Proof using HG.
  intros H Hi El Hin Hv Hvf Ha d.
  pose proof H as [Vwf Vrg Vlen Vn Vreg Vmax Vsm Vlg Vav Vhs Vpt Vca].
  pose proof (gw_cls _ _ Vwf _ _ _ _ Hi) as Hc. destruct (Vsm _ _ _ _ Hi) as [Hd Hch].
  assert (x ∈ g_cache g (t, c)) as Hx by (rewrite El; set_solver).
  pose proof (cache_own sb _ _ _ _ Vwf Hx) as Ox. pose proof (cache_aligned _ _ _ _ Vwf Hx) as Ax.
  assert (addr_ok x) as Hxok.
  { apply (B_addr_ok db sb mb HG i).
    - assert (0 < i < MAX_DESC_AMOUNT) by (by eapply inv_kind_index).
      change MAX_SB_AMOUNT with MAX_DESC_AMOUNT. lia.
    - pose proof (blocks_range sb i c x Hc (Hin x ltac:(set_solver))). lia. }
  assert (∀ j c' fl' lk', g_kind g !! j = Some (KSmall c' fl' lk') → ∀ y, y ∈ fl' →
            pload (pstore (smem s) x v) y = pload (smem s) y) as Hmf.
  { intros j c' fl' lk' Hj y Hy. apply pload_pstore_aligned; [done|by eapply fl_aligned|].
    intros <-. apply (fl_subset sb g j c' fl' lk') in Hy as [Hy _]; try done. congruence. }
  pose proof (gw_cache_nd _ _ Vwf (t, c)) as Hnd. rewrite El in Hnd.
  destruct (Vca t c) as [_ Hcc]. rewrite El in Hcc.
  assert (∀ y, y ∈ l1 ++ l2 → pload (pstore (smem s) x v) y = pload (smem s) y) as Hml.
  { intros y Hy. apply pload_pstore_aligned; [done| |].
    - apply (cache_aligned g t c); [done|]. rewrite El. set_solver.
    - intros <-. rewrite <- app_assoc in Hnd. apply NoDup_app in Hnd as (_ & Hd1 & Hnd).
      apply NoDup_cons in Hnd as [Hn2 _]. set_solver. }
  rewrite <- app_assoc in Hcc. apply chain_app_inv in Hcc as [Hc1 Hc2].
  unfold Inv. cbn [with_small smem descs avail_sb heaps t_caches rgs].
  eapply (InvC_small db sb mb g _ (smem s) _ (descs s) _ _ (heaps s) (heaps s)
            (t_caches s) _ (rgs s) t i c ((l1 ++ [x]) ++ fl) lk); try done.
  - by apply gh_give_wf.
  - intros k. congruence.
  - intros tc1 Hne. cbn. by rewrite fn_lookup_insert_ne.
  - intros j Hj. by rewrite dget_insert_ne by (intros ?%D_inj; congruence).
  - rewrite dget_insert_eq. destruct Hd as (?&?&?&?&_). done.
  - rewrite <- app_assoc. apply chain_app.
    + replace (from_option id 0 (head (l1 ++ [x] ++ fl))) with (_block (get_bin s t c));
        [|symmetry; destruct l1; [by destruct Hc1|by destruct Hc1]].
      apply (chain_upto (smem s)); [|done]. intros y Hy. apply Hml. set_solver.
    + rewrite pload_pstore_eq by done. destruct (decide (fl = [])) as [->|Hne]; [done|].
      rewrite (Hvf Hne) at 2. apply (chain_ext (smem s)); [by eapply Hmf|done].
  - apply Vhs. lia.
  - destruct (Vpt c Hc) as (p & Hp & Hch'). exists p. split; [done|].
    apply (dchain_ext db (dnext_partial (descs s))); [|done]. intros j Hj.
    unfold dnext_partial. destruct (decide (j = i)) as [->|Hne]; [by rewrite dget_insert_eq|].
    by rewrite dget_insert_ne by (intros ?%D_inj; congruence).
  - intros tc1 Hne. by rewrite lookup_insert_ne.
  - cbn. rewrite lookup_insert_eq, fn_lookup_insert. cbn. split; [done|].
    eapply chain_ext; [|done]. intros y Hy. apply Hml. set_solver.
  - eauto.
  - intros tc1 Hne y Hy. apply pload_pstore_aligned; [done| |].
    + destruct tc1 as [t1 c1]. by eapply cache_aligned.
    + intros <-. by eapply (cache_disjoint g (t, c) tc1).
Qed.

Lemma run_split (h : Z) l : ∃ l', h :: l = l' ++ [default h (last l)].
Proof using.
  induction l as [|y l _] using rev_ind; [by exists []|]. exists (h :: l). by rewrite last_snoc.
Qed.

(** The part of an iteration up to the anchor update: a run [l1 ++ [x]] of
    blocks of one superblock [i] leaves the cache for the free list of [i]. *)
Record gave (g : ghost) (t : nat) (i c : Z) (fl l1 l2 : list Z) (lk : bool) : Prop := {
  gv_kind : g_kind g !! i = Some (KSmall c fl lk);
  gv_ne : l1 ≠ [];
  gv_cache : g_cache g (t, c) = l1 ++ l2;
  gv_in : ∀ b, b ∈ l1 → b ∈ blocks sb i c
}.

Lemma gave_length g t i c fl l1 l2 lk :
  gwf sb g → gave g t i c fl l1 l2 lk → Z.of_nat (length (l1 ++ fl)) ≤ mc c.
Proof using.
  intros H [Hk _ El Hin].
  apply (fl_length sb (gh_give t i c fl lk l1 l2 g) i c _ lk); [by apply gh_give_wf|].
  cbn. by rewrite lookup_insert_eq.
Qed.

(** The front run of a non-empty cache. *)
Lemma gather_front fuel g s t c :
  Inv db sb mb g s → g_cache g (t, c) ≠ [] → (length (g_cache g (t, c)) < fuel)%nat →
  let head := peek_block s t c in
  ∃ i fl lk l1 x l2, gave g t i c fl (l1 ++ [x]) l2 lk ∧
    list.head (l1 ++ [x]) = Some head ∧ 0 < i < MAX_DESC_AMOUNT ∧
    desc_lookup (rgs s) head = D db i ∧
    CrossPtr_get (rgs s) SB_IDX (superblock (get_desc s (D db i))) = B sb i ∧
    gather fuel (smem s) (get_block_num s t c) (B sb i) SBSIZE 1 head =
      Ok (Z.of_nat (length (l1 ++ [x])), x).
Proof using HG.
  intros H Hne Hf h. pose proof H as [Vwf Vrg Vlen Vn Vreg Vmax Vsm Vlg Vav Vhs Vpt Vca].
  destruct (Vca t c) as [Enum Hch]. fold (get_bin s t c) in Enum, Hch.
  destruct (g_cache g (t, c)) as [|b l] eqn:El; [done|]. destruct Hch as [Eh Hch].
  change (_block (get_bin s t c)) with h in Eh. subst b.
  assert (h ∈ g_cache g (t, c)) as Hh by (rewrite El; left).
  destruct (cache_block sb g t c h Vwf Hh) as (i & fl & lk & Hi & Hb).
  pose proof (gw_cls _ _ Vwf _ _ _ _ Hi) as Hc.
  assert (0 < i < MAX_DESC_AMOUNT) as Hir by (by eapply inv_kind_index).
  pose proof (blocks_range sb i c h Hc Hb) as Hr.
  destruct (Vsm _ _ _ _ Hi) as [(_ & Esb & _) _].
  assert (u64 (B sb i + SBSIZE) = B sb (i + 1)) as Eend.
  { pose proof (B_ok db sb mb HG (i + 1)) as HB. change MAX_SB_AMOUNT with MAX_DESC_AMOUNT in HB.
    rewrite B_add in *. rewrite Z.mul_1_l in *. apply u64_small. lia. }
  destruct (gather_spec fuel (smem s) i 1 h l) as (l1 & l2 & -> & Hin & Eg);
    [cbn [length] in Hf; lia|done|done|].
  destruct (run_split h l1) as [l' Erun].
  exists i, fl, lk, l', (default h (last l1)), l2. rewrite <- Erun. split_and!; try done; try lia.
  - constructor; [done|done|by rewrite El|].
    intros y Hy. assert (y ∈ g_cache g (t, c)) as Hyc by (rewrite El; set_solver).
    apply (own_small sb g y i c fl lk (OCache t)); [done|by eapply cache_own|done|].
    apply elem_of_cons in Hy as [->|Hy]; [done|by apply Hin].
  - apply (desc_lookup_sb db sb mb HG); done || lia.
  - by apply (superblock_get db sb mb HG).
  - unfold get_block_num. rewrite Enum. cbn [length]. rewrite Nat2Z.inj_succ, <- Z.add_1_l, Eg.
    do 2 f_equal. lia.
Qed.

(** The end of an iteration: a superblock that was full is retired or linked. *)
Lemma flush_finish_inv fuel g s i c (fl fl' : list Z) lk a a' :
  (1 ≤ fuel)%nat → Inv db sb mb g s → g_kind g !! i = Some (KSmall c fl' lk) →
  fl' ≠ [] → (lk = true ↔ fl ≠ []) → (astate a = SB_FULL ↔ fl = []) →
  (astate a' = SB_EMPTY ↔ Z.of_nat (length fl') = mc c) →
  wp (if decide (astate a = SB_FULL) then
        if decide (astate a' = SB_EMPTY) then small_sb_retire fuel (B sb i) SBSIZE
        else heap_push_partial fuel (D db i)
      else mret tt) (λ _ s', ∃ g', Inv db sb mb g' s' ∧
        (∀ tc, trans sb tc g s g' s') ∧ g_cache g' = g_cache g ∧
        (∀ j, j ≠ i → g_kind g' !! j = g_kind g !! j) ∧
        (g_kind g' !! i = Some KFree ∨ g_kind g' !! i = Some (KSmall c fl' true))) s.
Proof using HG.
  intros Hf H Hi Hne Hlk Ha Ha'. pose proof (iv_wf _ _ _ _ _ _ _ _ _ _ H) as Hwf.
  destruct (decide (astate a = SB_FULL)) as [Hfull|Hfull].
  - assert (lk = false) as -> by (destruct lk; [|done]; exfalso; naive_solver).
    destruct (decide (astate a' = SB_EMPTY)) as [Hemp|Hemp].
    + apply Ha' in Hemp. eapply wp_mono; [by apply (small_sb_retire_inv db sb mb HG fuel g i c fl')|].
      cbn beta. intros _ s' (ds & av & pl & -> & Hinv). eexists. split; [done|].
      split; [|split; [done|split]].
      * intros tc. apply trans_intro; try done. by eapply live_retire.
      * intros j Hj. cbn. by rewrite lookup_insert_ne.
      * left. cbn. by rewrite lookup_insert_eq.
    + eapply wp_mono; [by apply (heap_push_partial_inv db sb mb HG fuel g s i c fl')|].
      cbn beta. intros _ s' (ds & hs & pl & -> & Hinv). eexists. split; [done|].
      split; [|split; [done|split]].
      * intros tc. apply trans_intro; try done. by eapply live_link.
      * intros j Hj. cbn. by rewrite lookup_insert_ne.
      * right. cbn. by rewrite lookup_insert_eq.
  - wp_steps. exists g. split_and!; try done. right.
    assert (lk = true) as -> by (apply Hlk; naive_solver). done.
Qed.

Lemma compute_idx_blk i c k :
  1 ≤ c < MAX_SZ_IDX → 0 ≤ k < mc c → compute_idx (B sb i) (blk sb i c k) c = Ok k.
Proof using.
  intros Hc Hk. pose proof (blk_range sb i c k Hc Hk) as Hr. destruct (bs_mc c Hc) as (? & _).
  rewrite compute_idx_div by (rewrite ?B_add in Hr; lia || done). fold (bs c). f_equal.
  unfold blk. replace (B sb i + k * bs c - B sb i) with (k * bs c) by lia.
  apply Z.div_mul. lia.
Qed.

(** The address of the first free block, from the anchor. *)
Lemma anchor_next i c fl a :
  1 ≤ c < MAX_SZ_IDX → 0 < i < MAX_DESC_AMOUNT → anchor_rep sb i c fl a →
  let v := u64 (B sb i + u32 (avail a * bs c)) in
  addr_ok v ∧ (fl ≠ [] → v = from_option id 0 (head fl)).
Proof using HG.
  intros Hc Hi [Hav Ha] v. unfold v. rewrite (blk_addr db sb mb HG) by (done || lia). split.
  - pose proof (blk_range_weak sb i c (avail a) Hc Hav).
    apply (B_addr_ok db sb mb HG i); [|done]. change MAX_SB_AMOUNT with MAX_DESC_AMOUNT. lia.
  - destruct fl; [done|]. by destruct Ha as [-> _].
Qed.

(** The first word of a block that the program does not hold lies outside every
    block it holds. *)
Lemma owned_not_live g i c fl lk x p z a :
  gwf sb g → g_kind g !! i = Some (KSmall c fl lk) → x ∈ blocks sb i c →
  g_own g !! x ≠ Some OLive → live sb g p z → p ≤ a < p + z → ¬ x ≤ a < x + 8.
Proof using.
  intros H Hj Hx Ox Hl Ha Hr. pose proof (gw_cls _ _ H _ _ _ _ Hj) as Hc.
  destruct (bs_mc c Hc) as (Hbs & _).
  apply elem_of_blocks in Hx as (k & Hk & ->). pose proof (blk_range sb i c k Hc Hk).
  destruct Hl as [(j & c' & fl' & lk' & Hi & Hb & Ho & ->)|(j & n & Hi & -> & ->)].
  - pose proof (gw_cls _ _ H _ _ _ _ Hi) as Hc'.
    apply elem_of_blocks in Hb as (k' & Hk' & ->). pose proof (blk_range sb j c' k' Hc' Hk').
    assert (i = j) as -> by (apply (sb_unique sb i j a); lia). simplify_eq.
    assert (k = k') as -> by (unfold blk in *; nia). congruence.
  - assert (j ≤ i < j + n) as Hin.
    { destruct (gw_large _ _ H _ _ Hi) as (? & _). unfold B in *. change SBSIZE with 65536 in *. lia. }
    destruct (large_range sb g j n i H Hi Hin) as [[E _]|[E _]]; congruence.
Qed.

(** The writes of a flush do not touch live blocks. *)
Lemma live_not_cached g t c x v m p z a :
  gwf sb g → x ∈ g_cache g (t, c) → live sb g p z → p ≤ a < p + z →
  load8 (pstore m x v) a = load8 m a.
Proof using.
  intros H Hx Hl Ha. unfold pstore. apply load8_store64_ne.
  pose proof (cache_own sb _ _ _ _ H Hx) as Ox.
  apply (cache_block sb) in Hx as (j & fl & lk & Hj & Hx); [|done].
  assert (¬ (x ≤ a < x + 8)); [|lia].
  eapply (owned_not_live g j c fl lk x p z a); try done. congruence.
Qed.

(** The program may write its own blocks. *)
Lemma user_write_inv g s m' :
  Inv db sb mb g s →
  (∀ a, (∀ p z, live sb g p z → ¬ p ≤ a < p + z) → load8 m' a = load8 (smem s) a) →
  Inv db sb mb g (upd_mem (λ _, m') s).
Proof using.
  intros H Hm. pose proof H as [Vwf Vrg Vlen Vn Vreg Vmax Vsm Vlg Vav Vhs Vpt Vca].
  assert (∀ i c fl lk x, g_kind g !! i = Some (KSmall c fl lk) → x ∈ blocks sb i c →
    g_own g !! x ≠ Some OLive → pload m' x = pload (smem s) x) as Hx.
  { intros i c fl lk x Hi Hx Ho. apply pload_ext. intros b Hb. apply Hm.
    intros p z Hl Hr. by eapply (owned_not_live g i c fl lk x p z b). }
  constructor; try done; cbn [upd_mem smem descs avail_sb heaps t_caches rgs].
  - intros i c fl lk Hi. destruct (Vsm _ _ _ _ Hi) as [Hd Hch]. split; [done|].
    eapply chain_ext; [|done]. intros x Hxf. apply (fl_subset sb g i c fl lk) in Hxf as [Ho Hb]; try done.
    eapply Hx; [done..|]. congruence.
  - intros t c. destruct (Vca t c) as [Hn Hch]. split; [done|]. eapply chain_ext; [|done].
    intros x Hxc. pose proof (cache_own sb _ _ _ _ Vwf Hxc) as Ho.
    apply (cache_block sb) in Hxc as (j & fl & lk & Hj & Hb); [|done].
    eapply Hx; [done..|]. congruence.
Qed.

Lemma flush_anchor_run fuel d sbaddr bsz x k n s :
  let a := anchor (get_desc s d) in
  let a' := flush_newanchor a k n (maxcount (get_desc s d)) in
  count a < maxcount (get_desc s d) →
  flush_anchor_loop (S fuel) d sbaddr bsz x k n a s =
    Ok ((a, a'), upd_desc d (with_anchor a')
      (upd_mem (λ m, pstore m x (u64 (sbaddr + u32 (avail a * bsz)))) s)).
Proof using.
  intros a a' Hc. cbn [flush_anchor_loop]. unfold mbind, st_mbind, st_bind, st_mod, st_gets, st_assert.
  change (get_desc (upd_mem _ s) d) with (get_desc s d).
  rewrite (proj2 (Z.ltb_lt _ _)) by done.
  unfold anchor_cas, mbind, st_mbind, st_bind, st_gets.
  change (get_desc (upd_mem _ s) d) with (get_desc s d). fold a. by rewrite decide_True.
Qed.

(** The first part of an iteration of [flush_cache]: the values it computes and
    the state [s1] after the anchor update. *)
Lemma flush_front fuel g s t c :
  (length (g_cache g (t, c)) < fuel)%nat → Inv db sb mb g s → settled g →
  g_cache g (t, c) ≠ [] →
  ∃ i (fl fl' : list Z) lk k x n g1,
    let h := peek_block s t c in
    let d := get_desc s (D db i) in
    let a' := flush_newanchor (anchor d) k n (mc c) in
    let bin := mkBin (pload (smem s) x) (u32 (get_block_num s t c - n)) in
    let s1 := upd_desc (D db i) (with_anchor a')
      (upd_mem (λ m, pstore m x (u64 (B sb i + u32 (avail (anchor d) * bs c)))) (put_bin t c bin s)) in
    1 ≤ c < MAX_SZ_IDX ∧
    desc_lookup (rgs s) h = D db i ∧ CrossPtr_get (rgs s) SB_IDX (superblock d) = B sb i ∧
    gather fuel (smem s) (get_block_num s t c) (B sb i) SBSIZE 1 h = Ok (n, x) ∧
    n ≤ get_block_num s t c ∧ compute_idx (B sb i) h c = Ok k ∧ maxcount d = mc c ∧
    count (anchor d) < mc c ∧ (avail (anchor d) < mc c ∨ astate (anchor d) = SB_FULL) ∧
    anchor_rep sb i c fl' a' ∧ fl' ≠ [] ∧ (lk = true ↔ fl ≠ []) ∧
    (astate (anchor d) = SB_FULL ↔ fl = []) ∧
    (astate a' = SB_EMPTY ↔ Z.of_nat (length fl') = mc c) ∧
    Inv db sb mb g1 s1 ∧ trans sb (t, c) g s g1 s1 ∧ g_kind g1 !! i = Some (KSmall c fl' lk) ∧
    (∀ j, j ≠ i → g_kind g1 !! j = g_kind g !! j) ∧
    (length (g_cache g1 (t, c)) < length (g_cache g (t, c)))%nat.
Proof using HG.
  intros Hf H Hset Hne. pose proof (iv_wf _ _ _ _ _ _ _ _ _ _ H) as Hwf.
  destruct (gather_front fuel g s t c H Hne Hf)
    as (i & fl & lk & l1 & x & l2 & Hgv & Hh & Hir & Edl & Esb & Eg).
  pose proof (gave_length _ _ _ _ _ _ _ _ Hwf Hgv) as Hlen. destruct Hgv as [Hi _ El Hin].
  pose proof (gw_cls _ _ Hwf _ _ _ _ Hi) as Hc. pose proof (mc_small c Hc) as Hmc.
  destruct (iv_small _ _ _ _ _ _ _ _ _ _ H _ _ _ _ Hi) as [(_ & _ & _ & Emc & Ha) _].
  set (h := peek_block s t c) in *. set (run := l1 ++ [x]) in *.
  assert (h ∈ run) as Hhr by (destruct run; [done|]; injection Hh as ->; left).
  destruct (proj1 (elem_of_blocks _ _ _ _) (Hin h Hhr)) as (k & Hk & Ek).
  assert (run ≠ []) as Hrun by (unfold run; by destruct l1). rewrite Ek in Hh.
  destruct (flush_anchor_rep i c fl _ k run Hc Ha Hk Hrun Hh Hlen) as (Hcnt & Hrep & Hfull & Hemp).
  destruct (anchor_next i c fl _ Hc Hir Ha) as [Hvok Hvf].
  pose proof (bin_num db sb mb g s t c H) as Enum. rewrite El, length_app in Enum.
  pose proof (gw_cache_len _ _ Hwf t c) as Hcl. rewrite El, length_app in Hcl.
  exists i, fl, (run ++ fl), lk, k, x, (Z.of_nat (length run)), (gh_give t i c fl lk run l2 g).
  cbn zeta. split_and!; try done; try lia.
  - rewrite Ek. by apply compute_idx_blk.
  - destruct Ha as [_ Ha]. destruct fl; [by right; apply Ha|]. left. by destruct Ha as (_ & ? & _).
  - by destruct run.
  - by apply (proj2 Hset _ _ _ _ Hi).
  - rewrite Enum. replace (u32 (_ - Z.of_nat (length run)))
      with (Z.of_nat (length l2)) by (rewrite u32_small; lia).
    apply (give_rep g s t i c fl lk l1 x l2); done.
  - constructor; try done.
    + by apply live_give.
    + intros tc' Hn. cbn. by rewrite fn_lookup_insert_ne.
    + intros p z a Hl Hr. cbn. apply (live_not_cached g t c x _ _ p z); try done.
      rewrite El. set_solver.
  - cbn. by rewrite lookup_insert_eq.
  - intros j Hj. cbn. by rewrite lookup_insert_ne.
  - cbn. rewrite fn_lookup_insert, El, length_app. destruct run; [done|]. cbn. lia.
Qed.

(** One iteration of [flush_cache]: the front run goes back to its superblock. *)
Lemma flush_cache_step_inv fuel g s t c :
  (length (g_cache g (t, c)) < fuel)%nat → Inv db sb mb g s → settled g →
  g_cache g (t, c) ≠ [] →
  wp (flush_cache_step fuel t c) (λ _ s', ∃ g',
    Inv db sb mb g' s' ∧ settled g' ∧ trans sb (t, c) g s g' s' ∧
    (length (g_cache g' (t, c)) < length (g_cache g (t, c)))%nat) s.
Proof using HG.
  intros Hf H Hset Hne. destruct (flush_front fuel g s t c Hf H Hset Hne)
    as (i & fl & fl' & lk & k & x & n & g1 & Hfr). cbn zeta in Hfr.
  destruct Hfr as (Hc & Edl & Esb & Eg & Hn & Ek & Emc & Hcnt & Hav & Ha' & Hfl' & Hlk & Hfull &
    Hemp & Hg1 & Ht1 & Hk1 & Hj1 & Hlt).
  destruct (sc_facts c Hc) as (_ & _ & Esz & _ & _). pose proof (mc_small c Hc) as Hmc.
  destruct fuel as [|fuel]; [lia|].
  unfold flush_cache_step. wp_step. wp_step. rewrite Edl, Esb, Esz. wp_step.
  apply (wp_lift _ _ _ _ Eg). unfold pop_list. wp_steps; [by apply Z.leb_le|].
  apply (wp_lift _ _ _ _ Ek). wp_steps. apply wp_spec. eexists _, _.
  split.
  { apply flush_anchor_run.
    change (count (anchor (get_desc s (D db i))) < maxcount (get_desc s (D db i))). by rewrite Emc. }
  cbn beta iota.
  change (get_desc (put_bin _ _ _ s) (D db i)) with (get_desc s (D db i)). rewrite Emc.
  fold (bs c) (mc c). destruct Ha' as [Hav1 Ha1]. wp_steps.
  { apply orb_true_iff. rewrite Z.ltb_lt, bool_decide_eq_true. done. }
  { apply Z.ltb_lt. destruct fl'; [done|]. by destruct Ha1 as (_ & ? & _). }
  { apply Z.ltb_lt. destruct fl' as [|b fl']; [done|]. destruct Ha1 as (_ & _ & Ha1).
    pose proof (fl_length sb g1 i c _ lk (iv_wf _ _ _ _ _ _ _ _ _ _ Hg1) Hk1).
    destruct (Z.eqb_spec (Z.of_nat (length (b :: fl'))) (mc c)); destruct Ha1 as [_ ->]; lia. }
  eapply wp_mono; [by apply (flush_finish_inv (S fuel) g1 _ i c fl fl' lk); [lia|..]|].
  cbn beta. intros _ s' (g' & H' & Ht' & Ec' & Hj' & Hi'). exists g'. split; [done|].
  split; [|split; [by eapply trans_trans|by rewrite Ec']].
  destruct Hi' as [Hi'|Hi'].
  - apply (settled_set g _ i KFree); try done. intros j Hj. left. by rewrite Hj', Hj1.
  - apply (settled_set g _ i (KSmall c fl' true)); try done.
    + intros ? ? ? [= <- <- <-]. done.
    + intros j Hj. left. by rewrite Hj', Hj1.
Qed.

(** [flush_cache] empties the bin and gives every block back. *)
Lemma flush_cache_loop_inv n fuel g s t c :
  (length (g_cache g (t, c)) < n)%nat → (length (g_cache g (t, c)) < fuel)%nat →
  Inv db sb mb g s → settled g →
  wp (flush_cache_loop n fuel t c) (λ _ s', ∃ g',
    Inv db sb mb g' s' ∧ settled g' ∧ trans sb (t, c) g s g' s' ∧ g_cache g' (t, c) = []) s.
Proof using HG.
  revert g s. induction n as [|n IH]; intros g s Hn Hf H Hset; [lia|].
  cbn [flush_cache_loop]. wp_steps. rewrite (bin_num db sb mb g s t c H).
  destruct (g_cache g (t, c)) as [|b l] eqn:El.
  - cbn. wp_steps. exists g. split_and!; try done.
  - rewrite (proj2 (Z.ltb_lt _ _)) by (cbn [length]; lia). wp_steps. rewrite <- El in Hf.
    eapply wp_mono; [by apply (flush_cache_step_inv fuel g); [..|rewrite El]|].
    cbn beta. intros _ s1 (g1 & H1 & Hs1 & Ht1 & Hlt). rewrite El in Hlt.
    eapply wp_mono; [apply (IH g1 s1); try done; cbn [length] in *; rewrite ?El in *; cbn in *; lia|].
    cbn beta. intros _ s2 (g2 & H2 & Hs2 & Ht2 & Hnil). exists g2. split_and!; try done.
    by eapply trans_trans.
Qed.
End FlushSpec.
