(* ===== verification/AllocSpec.v ===== *)
(** * Allocation and deallocation

    [do_malloc], [do_free] and [public_flush_cache] against the heap invariant:
    which blocks the program holds afterwards, and that every other block keeps
    its contents. *)

From Stdlib Require Import ZArith Lia.
From stdpp Require Import base gmap numbers functions list.
From S2P Require Import Prelude Mem Config Pptr SizeClass Region Meta MetaFacts TCache Heap Inv Ghost Rep Trans SbSpec CacheSpec FlushSpec.

Local Open Scope Z_scope.
#[local] Set Warnings "-clear-no-such-hyp".

Section AllocSpec.
Context (db sb mb : Z) (HG : geom db sb mb).

(** ** The blocks of the program *)

Lemma live_range g p z :
  gwf sb g → live sb g p z →
  ∃ i, g_kind g !! i ≠ None ∧ B sb i ≤ p < B sb (i + 1) ∧ 8 ≤ z.
Proof using.
  intros H [(i & c & fl & lk & Hi & Hb & _ & ->)|(i & k & Hi & -> & ->)]; exists i; rewrite Hi.
  - pose proof (gw_cls _ _ H _ _ _ _ Hi) as Hc. pose proof (blocks_range sb i c p Hc Hb).
    destruct (bs_mc c Hc) as (? & _). split_and!; try done; lia.
  - destruct (gw_large _ _ H _ _ Hi) as (? & _). unfold B. change SBSIZE with 65536.
    split_and!; try done; lia.
Qed.

(** Distinct live blocks do not overlap. *)
Lemma live_disjoint g p z q w :
  gwf sb g → live sb g p z → live sb g q w → p ≠ q → p + z ≤ q ∨ q + w ≤ p.
Proof using.
  intros H Hp Hq Hne.
  assert (∀ i c fl lk j k b, g_kind g !! i = Some (KSmall c fl lk) → g_kind g !! j = Some (KLarge k) →
    b ∈ blocks sb i c → b + bs c ≤ B sb j ∨ B sb j + k * SBSIZE ≤ b) as Hmix.
  { intros i c fl lk j k b Hi Hj Hb. pose proof (gw_cls _ _ H _ _ _ _ Hi) as Hc.
    apply elem_of_blocks in Hb as (n & Hn & ->). pose proof (blk_range sb i c n Hc Hn).
    destruct (decide (i < j)); [left; unfold B in *; change SBSIZE with 65536 in *; lia|].
    destruct (decide (j + k ≤ i)); [right; unfold B in *; change SBSIZE with 65536 in *; lia|].
    destruct (large_range sb g j k i H Hj ltac:(lia)) as [[E _]|[E _]]; congruence. }
  destruct Hp as [(i & c & fl & lk & Hi & Hb & _ & ->)|(i & k & Hi & -> & ->)];
  destruct Hq as [(j & c' & fl' & lk' & Hj & Hb' & _ & ->)|(j & k' & Hj & -> & ->)].
  - pose proof (gw_cls _ _ H _ _ _ _ Hi) as Hc. pose proof (gw_cls _ _ H _ _ _ _ Hj) as Hc'.
    apply elem_of_blocks in Hb as (n & Hn & ->). apply elem_of_blocks in Hb' as (n' & Hn' & ->).
    pose proof (blk_range sb i c n Hc Hn). pose proof (blk_range sb j c' n' Hc' Hn').
    destruct (decide (i = j)) as [->|]; [|unfold B in *; change SBSIZE with 65536 in *; lia].
    simplify_eq. assert (n ≠ n') by congruence. destruct (bs_mc c Hc) as (? & _).
    unfold blk. nia.
  - eauto.
  - destruct (Hmix j c' fl' lk' i k q); eauto.
  - assert (i ≠ j) as Hij by congruence. destruct (gw_large _ _ H _ _ Hi) as (_ & _ & _ & Hti).
    destruct (gw_large _ _ H _ _ Hj) as (_ & _ & _ & Htj).
    destruct (decide (i < j < i + k)) as [Hr|]; [rewrite Hti in Hj by done; congruence|].
    destruct (decide (j < i < j + k')) as [Hr|]; [rewrite Htj in Hi by done; congruence|].
    unfold B. change SBSIZE with 65536. lia.
Qed.

(** The usable size of a live block is determined by its address. *)
Lemma live_fun g p z w : gwf sb g → live sb g p z → live sb g p w → z = w.
Proof using.
  intros H [(i & c & fl & lk & Hi & Hb & _ & ->)|(i & k & Hi & -> & ->)]
    [(j & c' & fl' & lk' & Hj & Hb' & _ & ->)|(j & k' & Hj & Ej & ->)].
  - by destruct (kind_same sb g i j c c' fl fl' lk lk' p) as (_ & -> & _).
  - subst p. pose proof (gw_cls _ _ H _ _ _ _ Hi) as Hc. pose proof (blocks_range sb i c _ Hc Hb).
    assert (i = j) as -> by (unfold B in *; change SBSIZE with 65536 in *; lia). congruence.
  - pose proof (gw_cls _ _ H _ _ _ _ Hj) as Hc. pose proof (blocks_range sb j c' _ Hc Hb').
    assert (i = j) as -> by (unfold B in *; change SBSIZE with 65536 in *; lia). congruence.
  - assert (i = j) as -> by (unfold B in *; change SBSIZE with 65536 in *; lia). congruence.
Qed.

Lemma live_pop g t c b l :
  gwf sb g → g_cache g (t, c) = b :: l → ∀ q w,
  live sb (gh_pop t c b l g) q w ↔ live sb g q w ∨ (q = b ∧ w = bs c).
Proof using.
  intros H El q w. assert (b ∈ g_cache g (t, c)) as Hb by (rewrite El; left).
  destruct (cache_block sb g t c b H Hb) as (i & fl & lk & Hi & Hbi). unfold live. cbn. split.
  - intros [(j & c' & fl' & lk' & Hj & Hq & Ho & ->)|?]; [|naive_solver]. gsplit.
    + right. split; [done|]. by destruct (kind_same sb g i j c c' fl fl' lk lk' q) as (_ & -> & _).
    + left. left. eauto 10.
  - intros [[(j & c' & fl' & lk' & Hj & Hq & Ho & ->)|?]|[-> ->]]; [| naive_solver |].
    + left. exists j, c', fl', lk'. gsplit; done.
    + left. exists i, c, fl, lk. gsplit; done.
Qed.

Lemma live_push g t c b i fl lk :
  gwf sb g → g_kind g !! i = Some (KSmall c fl lk) → b ∈ blocks sb i c → ∀ q w,
  live sb (gh_push t c b g) q w ↔ live sb g q w ∧ q ≠ b.
Proof using.
  intros H Hi Hb q w. unfold live. cbn. split.
  - intros [(j & c' & fl' & lk' & Hj & Hq & Ho & ->)|(j & k & Hj & -> & ->)].
    + gsplit. split; [|congruence]. left. eauto 10.
    + split; [right; eauto|]. intros <-. pose proof (gw_cls _ _ H _ _ _ _ Hi) as Hc.
      pose proof (blocks_range sb i c _ Hc Hb).
      assert (i = j) as -> by (unfold B in *; change SBSIZE with 65536 in *; lia). congruence.
  - intros [[(j & c' & fl' & lk' & Hj & Hq & Ho & ->)|?] Hne]; [|naive_solver].
    left. exists j, c', fl', lk'. gsplit; done.
Qed.

Lemma live_large_alloc g k :
  gwf sb g → 1 ≤ g_n g → 1 ≤ k → ∀ q w,
  live sb (gh_large_alloc k g) q w ↔ live sb g q w ∨ (q = B sb (g_n g) ∧ w = k * SBSIZE).
Proof using.
  intros H Hn Hk q w. assert (∀ i, g_n g ≤ i → g_kind g !! i = None) as Hout
    by (intros i Hi; apply (kind_None sb); [done|lia]). unfold live. cbn. split.
  - intros [(j & c' & fl' & lk' & Hj & Hq)|(j & k' & Hj & Hq)]; gsplit; naive_solver.
  - assert (∀ j x, g_kind g !! j = Some x →
      mset KTail (seqZ (g_n g + 1) (k - 1)) (<[g_n g := KLarge k]> (g_kind g)) !! j = Some x) as Hk'.
    { intros j x Hj. gsplit; rewrite ?elem_of_seqZ in *; try done; rewrite Hout in Hj by lia; done. }
    intros [[(j & c' & fl' & lk' & Hj & Hq)|(j & k' & Hj & Hq)]|[-> ->]].
    + left. exists j, c', fl', lk'. eauto.
    + right. exists j, k'. eauto.
    + right. exists (g_n g), k. gsplit; rewrite ?elem_of_seqZ in *; (done || lia).
Qed.

Lemma live_large_free g i k :
  gwf sb g → g_kind g !! i = Some (KLarge k) → ∀ q w,
  live sb (gh_large_free i k g) q w ↔ live sb g q w ∧ q ≠ B sb i.
Proof using.
  intros H Hi q w. pose proof (large_range sb g i k) as Hr. unfold live. cbn. split.
  - intros [(j & c' & fl' & lk' & Hj & Hq & Ho & ->)|(j & k' & Hj & -> & ->)]; gsplit.
    + split; [left; eauto 10|]. intros ->. pose proof (gw_cls _ _ H _ _ _ _ Hj) as Hc.
      pose proof (blocks_range sb j c' _ Hc Hq).
      assert (i = j) as -> by (unfold B in *; change SBSIZE with 65536 in *; lia). congruence.
    + split; [right; eauto|]. intros E. assert (i = j) as -> by (unfold B in *; change SBSIZE with 65536 in *; lia).
      rewrite elem_of_seqZ in *. destruct (gw_large _ _ H _ _ Hi). lia.
  - intros [[(j & c' & fl' & lk' & Hj & Hq & Ho & ->)|(j & k' & Hj & -> & ->)] Hne].
    + left. exists j, c', fl', lk'. gsplit; try done. rewrite elem_of_seqZ in *.
      destruct (Hr j H Hi ltac:(lia)) as [[E _]|[E _]]; congruence.
    + right. exists j, k'. gsplit; try done. rewrite elem_of_seqZ in *.
      destruct (Hr j H Hi ltac:(lia)) as [[E ->]|[E _]]; congruence.
Qed.

(** ** Popping and pushing blocks *)

(** A change of the cache [(t, c)] and of the links of blocks outside every
    list. *)
Lemma cache_rep g g' s m' t c i fl lk bin :
  Inv db sb mb g s → gwf sb g' → g_kind g !! i = Some (KSmall c fl lk) →
  g_n g' = g_n g → g_avail g' = g_avail g → g_kind g' = g_kind g → g_part g' = g_part g →
  (∀ tc1, tc1 ≠ (t, c) → g_cache g' tc1 = g_cache g tc1) →
  (∀ j c' fl' lk', g_kind g !! j = Some (KSmall c' fl' lk') → ∀ x, x ∈ fl' →
     pload m' x = pload (smem s) x) →
  (∀ tc1, tc1 ≠ (t, c) → ∀ x, x ∈ g_cache g tc1 → pload m' x = pload (smem s) x) →
  _block_num bin = Z.of_nat (length (g_cache g' (t, c))) →
  chain m' (_block bin) (g_cache g' (t, c)) →
  Inv db sb mb g' (put_bin t c bin (upd_mem (λ _, m') s)).
Proof using.
  intros H Hwf Hi En Ea Ek Ep Hca Hmf Hmc Hnum Hch.
  pose proof H as [Vwf Vrg Vlen Vn Vreg Vmax Vsm Vlg Vav Vhs Vpt Vca].
  pose proof (gw_cls _ _ Vwf _ _ _ _ Hi) as Hc. destruct (Vsm _ _ _ _ Hi) as [Hd Hfl].
  unfold Inv. cbn [put_bin upd_caches upd_mem smem descs avail_sb heaps t_caches rgs].
  eapply (InvC_small db sb mb g g' (smem s) m' (descs s) (descs s) _ (heaps s) (heaps s)
            (t_caches s) _ (rgs s) t i c fl lk); try done.
  - by rewrite Ek, insert_id.
  - intros k. congruence.
  - by rewrite Ep.
  - eapply chain_ext; [|done]. by eapply Hmf.
  - apply Vhs. lia.
  - rewrite Ep. by apply Vpt.
  - intros tc1 Hne. by rewrite lookup_insert_ne.
  - by rewrite lookup_insert_eq.
  - eauto.
Qed.

Lemma pop_block_inv g s t c b l :
  Inv db sb mb g s → g_cache g (t, c) = b :: l →
  wp (pop_block t c) (λ r s', r = b ∧ smem s' = smem s ∧ roots s' = roots s ∧
    rgs s' = rgs s ∧ Inv db sb mb (gh_pop t c b l g) s') s.
Proof using.
  intros H El. pose proof (iv_wf _ _ _ _ _ _ _ _ _ _ H) as Hwf.
  assert (b ∈ g_cache g (t, c)) as Hb by (rewrite El; left).
  destruct (cache_block sb g t c b Hwf Hb) as (i & fl & lk & Hi & Hbi).
  destruct (iv_cache _ _ _ _ _ _ _ _ _ _ H t c) as [Hnum Hch]. rewrite El in Hnum, Hch.
  destruct Hch as [Eb Hch]. fold (get_bin s t c) in Hnum, Eb. cbn [length] in Hnum.
  pose proof (gw_cache_len _ _ Hwf t c) as Hl. rewrite El in Hl. cbn [length] in Hl.
  pose proof (mc_small c (gw_cls _ _ Hwf _ _ _ _ Hi)).
  unfold pop_block. wp_steps; [apply Z.ltb_lt; lia|]. rewrite Eb. do 4 (split; [done|]).
  apply (cache_rep g _ s (smem s) t c i fl lk); try done.
  - by apply gh_pop_wf.
  - intros tc1 Hne. cbn. by rewrite fn_lookup_insert_ne.
  - cbn. rewrite fn_lookup_insert, Hnum. rewrite u32_small; lia.
  - cbn. by rewrite fn_lookup_insert.
Qed.

Lemma push_block_inv g s t c b i fl lk :
  Inv db sb mb g s → g_kind g !! i = Some (KSmall c fl lk) → b ∈ blocks sb i c →
  g_own g !! b = Some OLive → Z.of_nat (length (g_cache g (t, c))) < mc c →
  wp (push_block t c b) (λ _ s', ∃ v, smem s' = pstore (smem s) b v ∧ roots s' = roots s ∧
    rgs s' = rgs s ∧ Inv db sb mb (gh_push t c b g) s') s.
Proof using HG.
  intros H Hi Hb Ho Hlen. pose proof H as [Vwf Vrg Vlen Vn Vreg Vmax Vsm Vlg Vav Vhs Vpt Vca].
  pose proof (gw_cls _ _ Vwf _ _ _ _ Hi) as Hc. pose proof (mc_small c Hc).
  pose proof (blocks_aligned db sb mb HG i c b Hc Hb) as Ab.
  assert (∀ x, x ∈ g_cache g (t, c) → addr_ok x) as Hcok.
  { intros x (j & fl' & lk' & Hj & Hx)%(cache_block sb); [|done].
    assert (0 < j < MAX_DESC_AMOUNT) by (by eapply inv_kind_index).
    pose proof (blocks_range sb j c x Hc Hx). apply (B_addr_ok db sb mb HG j);
      [change MAX_SB_AMOUNT with MAX_DESC_AMOUNT; lia|lia]. }
  assert (addr_ok b) as Hbok.
  { assert (0 < i < MAX_DESC_AMOUNT) by (by eapply inv_kind_index).
    pose proof (blocks_range sb i c b Hc Hb). apply (B_addr_ok db sb mb HG i);
      [change MAX_SB_AMOUNT with MAX_DESC_AMOUNT; lia|lia]. }
  assert (∀ v tc1 x, x ∈ g_cache g tc1 →
            pload (pstore (smem s) b v) x = pload (smem s) x) as Hmc.
  { intros v [t1 c1] x Hx. apply pload_pstore_aligned; [done|by eapply (cache_aligned db sb mb HG)|].
    intros <-. apply (cache_own sb) in Hx; [congruence|done]. }
  destruct (Vca t c) as [Hnum Hch]. fold (get_bin s t c) in Hnum, Hch.
  unfold push_block. wp_steps. eexists. split; [done|]. do 2 (split; [done|]).
  apply (cache_rep g _ s (pstore (smem s) b (_block (get_bin s t c))) t c i fl lk); try done.
  - by eapply gh_push_wf.
  - intros tc1 Hne. cbn. by rewrite fn_lookup_insert_ne.
  - intros j c' fl' lk' Hj x Hx. apply pload_pstore_aligned; [done|by eapply (fl_aligned db sb mb HG)|].
    intros <-. apply (fl_subset sb g j c' fl' lk') in Hx as [Hx _]; [congruence|done..].
  - intros tc1 _ x Hx. by eapply Hmc.
  - cbn [_block_num gh_push g_cache]. rewrite fn_lookup_insert. cbn [length]. rewrite Hnum.
    rewrite u32_small; lia.
  - cbn [_block gh_push g_cache]. rewrite fn_lookup_insert. cbn [chain]. split; [done|].
    destruct (g_cache g (t, c)) as [|x l] eqn:El; [done|]. destruct Hch as [Ex Hch].
    rewrite pload_pstore_eq; [|done|rewrite Ex; apply Hcok; left]. rewrite Ex. cbn [chain]. split; [done|].
    rewrite Hmc with (tc1 := (t, c)) by (rewrite El; left).
    eapply chain_ext; [|done]. intros y Hy. apply (Hmc _ (t, c)). rewrite El. by right.
Qed.

(** ** [do_malloc] *)

(** A block [p] of [z] bytes was added to the program's blocks. *)
Record allocated (g : ghost) (s : state) (p z : Z) (g' : ghost) (s' : state) : Prop := {
  al_live : ∀ q w, live sb g' q w ↔ live sb g q w ∨ (q = p ∧ w = z);
  al_fresh : ∀ q w, live sb g q w → q + w ≤ p ∨ p + z ≤ q;
  al_mem : ∀ q w a, live sb g q w → q ≤ a < q + w → load8 (smem s') a = load8 (smem s) a;
  al_roots : roots s' = roots s;
  al_end : region_end s' = region_end s
}.

Lemma allocated_intro g s p z g1 s1 tc g' s' :
  gwf sb g' → trans sb tc g s g1 s1 → (∀ w, ¬ live sb g1 p w) →
  (∀ q w, live sb g' q w ↔ live sb g1 q w ∨ (q = p ∧ w = z)) →
  smem s' = smem s1 → roots s' = roots s1 → region_end s' = region_end s1 →
  allocated g s p z g' s'.
Proof using.
  intros Hwf [Tl Tc Tm Tr Te] Hnl Hl Em Er Ee. constructor; try congruence.
  - intros q w. rewrite Hl, Tl. done.
  - intros q w Hq. rewrite <- Tl in Hq. apply (live_disjoint g'); [done|by apply Hl; left| |].
    + apply Hl. by right.
    + intros ->. by eapply Hnl.
  - intros q w a Hq Ha. rewrite Em. by eapply Tm.
Qed.

Lemma cached_not_live g t c b w : gwf sb g → b ∈ g_cache g (t, c) → ¬ live sb g b w.
Proof using.
  intros H Hb Hl. pose proof (cache_own sb _ _ _ _ H Hb) as Ho.
  apply (cache_block sb) in Hb as (i & fl & lk & Hi & Hb); [|done].
  destruct Hl as [(j & c' & fl' & lk' & Hj & Hb' & Ho' & ->)|(j & k & Hj & -> & _)]; [congruence|].
  pose proof (blocks_range sb i c _ (gw_cls _ _ H _ _ _ _ Hi) Hb).
  assert (i = j) as -> by (unfold B in *; change SBSIZE with 65536 in *; lia). congruence.
Qed.

Lemma settled_kinds g g' : g_kind g' = g_kind g → settled g → settled g'.
Proof using. unfold settled. by intros ->. Qed.

Lemma do_malloc_small fuel g s t size :
  let c := get_sizeclass size in
  0 ≤ size ≤ MAX_SZ → (length (g_part g c) + 3 ≤ fuel)%nat → Inv db sb mb g s → settled g →
  wpe (do_malloc fuel t size) (λ p s', ∃ g', Inv db sb mb g' s' ∧ settled g' ∧
    p mod 8 = 0 ∧ size ≤ bs c ∧ allocated g s p (bs c) g' s')
    (g_cache g (t, c) = [] ∧ out_of_space sb g s) s.
Proof using HG.
  intros c Hsz Hf H Hset. destruct (get_sizeclass_facts size Hsz) as (Hc & Hle & _). fold c in Hc, Hle.
  unfold do_malloc. rewrite (proj2 (Z.ltb_ge _ _)) by lia. fold c.
  apply wpe_bind. apply wp_wpe. wp_steps.
  rewrite (bin_num db sb mb g s t c H). apply wpe_bind.
  apply (wpe_mono _ (λ _ s1, ∃ g1, Inv db sb mb g1 s1 ∧ settled g1 ∧ trans sb (t, c) g s g1 s1 ∧
    g_cache g1 (t, c) ≠ []) _ (g_cache g (t, c) = [] ∧ out_of_space sb g s)); [| |done].
  { destruct (g_cache g (t, c)) as [|b l] eqn:El; cbn [length Z.of_nat Z.eqb].
    - eapply wpe_mono; [by apply (fill_cache_inv db sb mb HG fuel g)|done|done].
    - apply wp_wpe. wp_steps. exists g. rewrite El. split_and!; done. }
  intros _ s1 (g1 & H1 & Hs1 & Ht1 & Hne). pose proof (iv_wf _ _ _ _ _ _ _ _ _ _ H1) as Hwf1.
  destruct (g_cache g1 (t, c)) as [|b l] eqn:El; [done|]. apply wp_wpe.
  assert (b ∈ g_cache g1 (t, c)) as Hb by (rewrite El; left).
  eapply wp_mono; [by apply (pop_block_inv g1 s1 t c b l)|].
  cbn beta. intros p s2 (-> & Em & Er & Eg & H2). exists (gh_pop t c b l g1).
  split; [done|]. split; [by apply (settled_kinds g1)|].
  split; [by apply (cache_aligned db sb mb HG g1 t c)|]. split; [done|].
  apply (allocated_intro g s b (bs c) g1 s1 (t, c)); try done.
  - by eapply iv_wf.
  - intros w. by apply (cached_not_live g1 t c).
  - by apply live_pop.
  - unfold region_end. by rewrite Eg.
Qed.

(** The number of superblocks of a large block. *)
Definition large_sbs (size : Z) : Z := align_up size SBSIZE / SBSIZE.

Lemma large_sbs_spec size :
  MAX_SZ < size → align_up size SBSIZE = large_sbs size * SBSIZE ∧ 1 ≤ large_sbs size ∧
  size ≤ large_sbs size * SBSIZE < size + SBSIZE.
Proof using.
  intros Hs. destruct (align_up_spec size SBSIZE ltac:(done)) as [Hr Hm].
  assert (align_up size SBSIZE = large_sbs size * SBSIZE) as E.
  { unfold large_sbs. pose proof (Z.div_mod (align_up size SBSIZE) SBSIZE ltac:(done)). lia. }
  split; [done|]. rewrite <- E. split; [|done].
  change MAX_SZ with 14336 in Hs. change SBSIZE with 65536 in *. lia.
Qed.

(** The descriptor of a large block. *)
Definition large_desc (rg : Regions) (i k : Z) : Descriptor :=
  with_anchor (mkAnchor 0 0 SB_FULL) (with_superblock (CrossPtr_assign rg SB_IDX (B sb i))
    (with_maxcount 1 (with_block_size (k * SBSIZE)
      (with_heap (CrossPtr_assign rg META_IDX (heap_addr rg 0)) Descriptor_ctor)))).

Lemma large_desc_ok rg i k :
  rg_at rg db sb mb → 1 ≤ k → k * SBSIZE < 2 ^ 32 → desc_large i k (large_desc rg i k).
Proof using HG.
  intros Hrg Hk Hk32. change SBSIZE with 65536 in Hk32. unfold desc_large, large_desc. cbn [heap superblock dblock_size maxcount
    with_anchor with_superblock with_maxcount with_block_size with_heap].
  unfold CrossPtr_assign, untranslate. split; [|split; [|split; [|done]]].
  - unfold heap_addr. rewrite (rlookup_meta db sb mb rg Hrg), u64_sub_l.
    replace (mb + HEAPS_OFFSET + 0 * CACHELINE_SIZE - mb) with HEAPS_OFFSET by lia. done.
  - rewrite (rlookup_sb db sb mb rg Hrg). unfold B. f_equal. lia.
  - apply u32_small. change SBSIZE with 65536. lia.
Qed.

Lemma settled_large g k : gwf sb g → 1 ≤ g_n g → settled g → settled (gh_large_alloc k g).
Proof using.
  intros H Hn [S1 S2]. split; cbn.
  - intros i. gsplit; [done..|apply S1].
  - intros i c fl lk Hi. gsplit. by eapply S2.
Qed.

Lemma B_mod8 i : B sb i mod 8 = 0.
Proof using HG.
  destruct (B_page db sb mb HG i) as [Hp _]. change PAGESIZE with (8 * 512) in Hp.
  apply Z.mod_divide in Hp as [q Hq]; [|done]. apply Z.mod_divide; [done|].
  exists (q * 512). lia.
Qed.

(** Live blocks lie below the end of the region in use. *)
Lemma live_below g p z : gwf sb g → live sb g p z → B sb 1 ≤ p < B sb (g_n g).
Proof using.
  intros H Hl. destruct (live_range g p z H Hl) as (i & Hi & Hr & _).
  destruct (g_kind g !! i) as [x|] eqn:Hk; [|done]. apply (kind_lt sb) in Hk; [|done].
  unfold B in *. change SBSIZE with 65536 in *. lia.
Qed.

Lemma do_malloc_large fuel g s t size :
  let k := large_sbs size in
  MAX_SZ < size ≤ 2 ^ 32 - 2 * SBSIZE → Inv db sb mb g s → settled g →
  wpe (do_malloc (S fuel) t size) (λ p s', ∃ g', Inv db sb mb g' s' ∧ settled g' ∧
    p mod 8 = 0 ∧ size ≤ k * SBSIZE ∧ allocated g s p (k * SBSIZE) g' s')
    (¬ has_room sb s g k) s.
Proof using HG.
  intros k Hsz H Hset. destruct (large_sbs_spec size ltac:(lia)) as (Ek & Hk & Hks). fold k in Ek, Hk, Hks.
  pose proof H as [Vwf Vrg Vlen Vn Vreg Vmax Vsm Vlg Vav Vhs Vpt Vca].
  change SBSIZE with 65536 in Hsz, Hks. assert (k * SBSIZE < 2 ^ 32) as Hk32 by (change SBSIZE with 65536; lia).
  unfold do_malloc. rewrite (proj2 (Z.ltb_lt _ _)) by lia. apply wpe_bind. apply wp_wpe.
  eapply wp_lift; [change SBSIZE with (2 ^ 16); apply round_up_spec; change MAX_SZ with 14336 in *; lia|].
  change (2 ^ 16) with SBSIZE. rewrite Ek. apply wpe_bind.
  destruct (decide (B sb (g_n g + k) ≤ region_end s)) as [Hroom|Hroom].
  2:{ apply wpe_fail; [|done]. by apply (alloc_large_block_oom db sb mb HG fuel g); [..|lia|]. }
  apply wp_wpe, wp_spec. destruct (alloc_large_block_run db sb mb HG fuel g s k H Hk ltac:(lia) Hroom) as [pl Erun].
  eexists _, _. split; [exact Erun|]. destruct (inv_end db sb mb HG _ _ _ _ _ _ _ k H ltac:(lia) Hroom) as (Hn & _).
  destruct (grown_ok db sb mb HG g s k H ltac:(lia) Hroom) as (G1 & _).
  assert (has_room sb s g 0) as Hroom0 by (unfold has_room; rewrite Z.add_0_r; apply Vreg).
  destruct (inv_end db sb mb HG _ _ _ _ _ _ _ 0 H ltac:(lia) Hroom0) as (Hn0 & HB & _).
  rewrite Z.add_0_r in Hn0, HB.
  apply wp_wpe. unfold FLUSH_LOCAL, FLUSHFENCE. wp_steps.
  { rewrite (proj2 (Z.eqb_neq _ _)) by lia. done. }
  rewrite (desc_lookup_B db sb mb HG) by (done || lia).
  exists (gh_large_alloc k g).
  pose proof (λ pl, large_alloc_rep db sb mb HG g s k
    (large_desc (grown sb s (g_n g + k)) (g_n g) k) pl H Hk Hk32 Hroom) as Hrep.
  assert (gwf sb (gh_large_alloc k g)) as Hwf' by (apply gh_large_alloc_wf; done || lia).
  split; [|split; [|split; [|split; [change SBSIZE with 65536; lia|]]]].
  - eapply eq_ind; [eapply Hrep; by apply large_desc_ok|].
    unfold upd_desc, put_desc, get_desc, upd_descs, with_sbs, large_desc.
    cbn [descs log smem avail_sb heaps roots t_caches rgs set_rgs plog].
    rewrite !lookup_insert_eq, !insert_insert_eq. done.
  - apply (settled_large g k); done || lia.
  - apply B_mod8.
  - apply (allocated_intro g s _ _ g s (t, 0)); try done.
    + intros w Hl. pose proof (live_below g _ _ Vwf Hl). lia.
    + by apply live_large_alloc.
    + unfold region_end. cbn [log upd_desc put_desc upd_descs with_sbs set_rgs rgs]. unfold grown.
      by rewrite rget_rput.
Qed.

(** ** [do_free] *)

(** The block at [p] was removed from the program's blocks. *)
Record freed (g : ghost) (s : state) (p : Z) (g' : ghost) (s' : state) : Prop := {
  fr_live : ∀ q w, live sb g' q w ↔ live sb g q w ∧ q ≠ p;
  fr_mem : ∀ q w a, live sb g q w → q ≠ p → q ≤ a < q + w →
    load8 (smem s') a = load8 (smem s) a;
  fr_roots : roots s' = roots s;
  fr_end : region_end s' = region_end s
}.

(** What [do_free] reads for a live pointer. *)
Lemma free_lookup g s i p :
  Inv db sb mb g s → (∃ x, g_kind g !! i = Some x) → B sb i ≤ p < B sb (i + 1) →
  (p =? 0) = false ∧ in_range (rgs s) SB_IDX p = true ∧ desc_lookup (rgs s) p = D db i ∧
  0 < i < MAX_DESC_AMOUNT.
Proof using HG.
  intros H [x Hx] Hp. pose proof (iv_wf _ _ _ _ _ _ _ _ _ _ H) as Hwf.
  pose proof (iv_rg _ _ _ _ _ _ _ _ _ _ H) as Hrg.
  assert (0 < i < MAX_DESC_AMOUNT) as Hi by (by eapply inv_kind_index).
  pose proof (kind_lt _ _ _ _ Hwf Hx) as Hn. pose proof (g_sb0 _ _ _ HG).
  unfold in_range. rewrite (rlookup_sb db sb mb _ Hrg), (region_curr_B db sb mb g s H).
  rewrite (desc_lookup_sb db sb mb HG (rgs s) Hrg i p) by (done || lia).
  unfold B in *. change SBSIZE with 65536 in *. split_and!; try done; try lia.
  rewrite (proj2 (Z.leb_le _ _)) by lia. apply Z.ltb_lt. lia.
Qed.

Lemma live_own g c i fl lk p m v q w a :
  gwf sb g → g_kind g !! i = Some (KSmall c fl lk) → p ∈ blocks sb i c →
  g_own g !! p = Some OLive → live sb g q w → q ≠ p → q ≤ a < q + w →
  load8 (pstore m p v) a = load8 m a.
Proof using.
  intros H Hi Hp Ho Hq Hne Ha. apply load8_store64_ne.
  assert (live sb g p (bs c)) as Hl by (left; eauto 10).
  destruct (bs_mc c (gw_cls _ _ H _ _ _ _ Hi)) as (? & _).
  destruct (live_disjoint g p (bs c) q w H Hl Hq); [done|lia|lia].
Qed.

Lemma bs_inj c c' : 1 ≤ c < MAX_SZ_IDX → 1 ≤ c' < MAX_SZ_IDX → bs c = bs c' → c = c'.
Proof using.
  intros Hc Hc' E. destruct (Z.lt_trichotomy c c') as [Hlt|[->|Hlt]]; [|done|].
  - pose proof (block_size_mono c c'). unfold bs in E. lia.
  - pose proof (block_size_mono c' c). unfold bs in E. lia.
Qed.

(** A live block of a small size lies in a superblock of its class. *)
Lemma live_small g i c p :
  gwf sb g → 1 ≤ c < MAX_SZ_IDX → p ∈ blocks sb i c → live sb g p (bs c) →
  ∃ fl lk, g_kind g !! i = Some (KSmall c fl lk) ∧ g_own g !! p = Some OLive.
Proof using.
  intros H Hc Hp [(j & c' & fl & lk & Hj & Hb & Ho & Ez)|(j & k & Hj & Ep & Ez)].
  - pose proof (gw_cls _ _ H _ _ _ _ Hj) as Hc'. apply bs_inj in Ez as <-; [|done..].
    assert (i = j) as -> by (by eapply (blocks_same sb i j c c)). eauto.
  - destruct (gw_large _ _ H _ _ Hj) as (Hk & _). destruct (bs_mc c Hc) as ([_ Hm] & _).
    change SBSIZE with 65536 in Ez. change MAX_SZ with 14336 in Hm. lia.
Qed.

Lemma do_free_small fuel g s t i c fl lk p :
  (length (g_cache g (t, c)) < fuel)%nat → Inv db sb mb g s → settled g →
  g_kind g !! i = Some (KSmall c fl lk) → p ∈ blocks sb i c → g_own g !! p = Some OLive →
  wp (do_free fuel t p) (λ _ s', ∃ g', Inv db sb mb g' s' ∧ settled g' ∧ freed g s p g' s') s.
Proof using HG.
  intros Hf H Hset Hi Hp Ho. pose proof H as [Vwf Vrg Vlen Vn Vreg Vmax Vsm Vlg Vav Vhs Vpt Vca].
  pose proof (gw_cls _ _ Vwf _ _ _ _ Hi) as Hc. pose proof (mc_small c Hc) as Hmc.
  destruct (free_lookup g s i p H ltac:(eauto) (blocks_range sb i c p Hc Hp)) as (E0 & Er & Edl & Hir).
  destruct (Vsm _ _ _ _ Hi) as [Hd _]. destruct (sc_facts c Hc) as (_ & _ & _ & _ & Ecb & _).
  destruct (desc_heap_idx_small db sb mb HG s i c fl (D db i) Vrg Hc eq_refl Hd) as [_ Eh].
  unfold do_free. rewrite E0. apply wp_bind, wp_get. wp_step. wp_step; [done|].
  rewrite Edl, Eh. replace (sc_idx (get_heap s c)) with c by (symmetry; apply Vhs; lia).
  rewrite (proj2 (Z.eqb_neq _ _)) by lia. wp_step. rewrite Ecb. fold (mc c).
  apply (wp_mono _ (λ _ s1, ∃ g1, Inv db sb mb g1 s1 ∧ settled g1 ∧ trans sb (t, c) g s g1 s1 ∧
    Z.of_nat (length (g_cache g1 (t, c))) < mc c)).
  { rewrite (bin_num db sb mb g s t c H). destruct (Z.leb_spec (mc c) (Z.of_nat (length (g_cache g (t, c))))).
    - eapply wp_mono; [by apply (flush_cache_loop_inv db sb mb HG fuel fuel g s t c)|].
      cbn beta. intros _ s1 (g1 & H1 & Hs1 & Ht1 & En). exists g1. rewrite En.
      split_and!; try done. cbn. lia.
    - wp_steps. exists g. split_and!; done. }
  intros _ s1 (g1 & H1 & Hs1 & Ht1 & Hlt). pose proof (iv_wf _ _ _ _ _ _ _ _ _ _ H1) as Hwf1.
  assert (live sb g1 p (bs c)) as Hl by (apply (tr_live _ _ _ _ _ _ Ht1); left; eauto 10).
  assert (∃ fl1 lk1, g_kind g1 !! i = Some (KSmall c fl1 lk1) ∧ g_own g1 !! p = Some OLive)
    as (fl1 & lk1 & Hi1 & Ho1) by (by apply live_small).
  eapply wp_mono; [by apply (push_block_inv g1 s1 t c p i fl1 lk1)|].
  cbn beta. intros _ s2 (v & Em & Ert & Erg & H2). exists (gh_push t c p g1).
  split; [done|]. split; [by apply (settled_kinds g1)|]. destruct Ht1 as [Tl Tc Tm Tr Te]. constructor.
  - intros q w. rewrite (live_push g1 t c p i fl1 lk1) by done. by rewrite Tl.
  - intros q w a Hq Hne Ha. rewrite Em, (live_own g1 c i fl1 lk1 p _ v q w) by (done || by apply Tl).
    by eapply Tm.
  - congruence.
  - unfold region_end in *. rewrite Erg. done.
Qed.

Lemma settled_large_free g i k : settled g → settled (gh_large_free i k g).
Proof using.
  intros [S1 S2]. split; cbn.
  - intros j. gsplit; [done|apply S1].
  - intros j c fl lk Hj. gsplit. by eapply S2.
Qed.

Lemma do_free_large fuel g s t i k :
  (1 ≤ fuel)%nat → Inv db sb mb g s → settled g → g_kind g !! i = Some (KLarge k) →
  wp (do_free fuel t (B sb i)) (λ _ s', ∃ g',
    Inv db sb mb g' s' ∧ settled g' ∧ freed g s (B sb i) g' s') s.
Proof using HG.
  intros Hf H Hset Hi. pose proof H as [Vwf Vrg Vlen Vn Vreg Vmax Vsm Vlg Vav Vhs Vpt Vca].
  destruct (free_lookup g s i (B sb i) H ltac:(eauto)) as (E0 & Er & Edl & Hir).
  { unfold B. change SBSIZE with 65536. lia. }
  destruct (Vlg _ _ Hi) as (Eh & Esb & Ebs & _). fold (get_desc s (D db i)) in Eh, Esb, Ebs.
  unfold do_free. rewrite E0. apply wp_bind, wp_get. wp_step. wp_step; [done|].
  rewrite Edl. change (get_desc s (D db i)) with (dget (descs s) (D db i)). rewrite Eh, Ebs.
  rewrite (superblock_get db sb mb HG (rgs s) i) by done.
  assert (CrossPtr_deref (rgs s) META_IDX HEAPS_OFFSET = heap_addr (rgs s) 0) as ->.
  { unfold CrossPtr_deref, translate, heap_addr. f_equal. lia. }
  rewrite (heap_index_addr db sb mb HG (rgs s) Vrg) by done.
  replace (sc_idx (get_heap s 0)) with 0 by (symmetry; by apply Vhs). cbn [Z.eqb].
  eapply wp_mono; [by apply (large_sb_retire_inv db sb mb HG fuel g)|].
  cbn beta. intros _ s' (ds & av & pl & -> & Hinv). exists (gh_large_free i k g).
  split; [done|]. split; [by apply settled_large_free|].
  constructor; try done. by apply live_large_free.
Qed.

(** Freeing null does nothing. *)
Lemma do_free_null fuel t s : do_free fuel t 0 s = Ok (tt, s).
Proof using. done. Qed.
End AllocSpec.
