(* ===== verification/InitSpec.v ===== *)
(** * A fresh heap satisfies the invariant *)

From Stdlib Require Import ZArith Lia.
From stdpp Require Import base gmap numbers functions list.
From S2P Require Import Prelude Mem Config Pptr SizeClass Region Meta MetaFacts TCache Heap BaseMeta Inv Ghost Rep Trans SbSpec CacheSpec.

Local Open Scope Z_scope.
#[local] Set Warnings "-clear-no-such-hyp".

(** The ghost view after construction: one expansion, superblock 0 unused, the
    others on the free list. *)
Definition ghost_init (n : Z) : ghost :=
  mkGhost n (mset KFree (seqZ 1 (n - 1)) ∅) ∅ (seqZ 1 (n - 1)) (λ _, []) (λ _, []).

Lemma ghost_init_wf sb n : 1 ≤ n → gwf sb (ghost_init n) ∧ settled (ghost_init n).
Proof.
  intros Hn. assert (∀ i k, g_kind (ghost_init n) !! i = Some k → k = KFree) as Hk.
  { intros i k Hi. cbn in Hi. by gsplit. }
  split; [constructor|split]; cbn.
  - intros i. gsplit; rewrite ?elem_of_seqZ in *.
    + split; [lia|eauto].
    + rewrite lookup_empty. split; [by intros [? ?]|lia].
  - apply NoDup_seqZ.
  - intros i. gsplit; [done|]. rewrite lookup_empty. done.
  - intros c. apply NoDup_nil_2.
  - intros c i. split; [set_solver|]. intros [fl Hi]. by apply Hk in Hi.
  - intros i c fl lk Hi. by apply Hk in Hi.
  - intros i k Hi. by apply Hk in Hi.
  - intros b. rewrite lookup_empty. split; [by intros [? ?]|].
    intros (i & c & fl & lk & Hi & _). by apply Hk in Hi.
  - intros i c fl lk Hi. by apply Hk in Hi.
  - intros i c fl lk Hi. by apply Hk in Hi.
  - intros tc. apply NoDup_nil_2.
  - intros t c b. rewrite lookup_empty. split; [set_solver|]. by intros [? _].
  - intros t c. lia.
  - intros i Hi. by apply Hk in Hi.
  - intros i c fl lk Hi. by apply Hk in Hi.
Qed.

Definition with_meta (hs : gmap Z ProcHeap) (rt : gmap Z Z) (pl : list pevent) (s : state) : state :=
  mkState (smem s) (descs s) (avail_sb s) hs rt (t_caches s) (rgs s) pl.

Lemma init_heaps_spec this l s :
  wp (init_heaps this l) (λ _ s', ∃ hs pl, s' = with_meta hs (roots s) pl s ∧
    ∀ c, hs !! c = if decide (c ∈ l) then Some (mkHeap 0 c) else heaps s !! c) s.
Proof.
  revert s. induction l as [|i l IH]; intros s; cbn [init_heaps foldr].
  - wp_steps. exists (heaps s), (plog s). split; [by destruct s|].
    intros c. by rewrite decide_False by set_solver.
  - unfold FLUSH. wp_steps. eapply wp_mono; [apply IH|]. cbn beta.
    intros _ s' (hs & pl & -> & Hhs). eexists hs, pl. split; [done|]. intros c. rewrite Hhs.
    cbn [heaps log put_heap upd_heaps].
    destruct (decide (c ∈ l)); [by rewrite decide_True by set_solver|].
    rewrite lookup_insert. destruct (decide (i = c)) as [->|].
    + by rewrite decide_True by set_solver.
    + by rewrite decide_False by set_solver.
Qed.

Lemma init_roots_spec this l s :
  wp (init_roots this l) (λ _ s', ∃ rt pl, s' = with_meta (heaps s) rt pl s ∧
    ∀ i, rt !! i = if decide (i ∈ l) then Some 0 else roots s !! i) s.
Proof.
  revert s. induction l as [|i l IH]; intros s; cbn [init_roots foldr].
  - wp_steps. exists (roots s), (plog s). split; [by destruct s|].
    intros c. by rewrite decide_False by set_solver.
  - unfold FLUSH. wp_steps. eapply wp_mono; [apply IH|]. cbn beta.
    intros _ s' (rt & pl & -> & Hrt). eexists rt, pl. split; [done|]. intros c. rewrite Hrt.
    cbn [roots log upd_roots put_root].
    destruct (decide (c ∈ l)); [by rewrite decide_True by set_solver|].
    rewrite lookup_insert. destruct (decide (i = c)) as [->|].
    + by rewrite decide_True by set_solver.
    + by rewrite decide_False by set_solver.
Qed.

(** What the constructor finds: the regions just created, empty caches. *)
Record fresh (db mb : Z) (s : state) : Prop := {
  fr_len : length (regions (rgs s)) = LAST_IDX;
  fr_addr : ∃ x, regions_address (rgs s) = [db; x; mb];
  fr_reg : region_at (rget (rgs s) SB_IDX) (base_addr (rget (rgs s) SB_IDX) + PAGESIZE);
  fr_caches : t_caches s = ∅
}.

(** The heap start: the first superblock boundary after the header page. *)
Definition heap_start (s : state) : Z :=
  align_up (base_addr (rget (rgs s) SB_IDX) + PAGESIZE) SBSIZE.

Section Init.
Context (db mb : Z) (s : state) (Hfr : fresh db mb s).
Let sb := heap_start s.
Context (HG : geom db sb mb).
Context (Hroom : sb + SB_REGION_EXPAND_SIZE ≤ region_end s)
        (Hmax : region_end s < sb + MAX_SB_REGION_SIZE).

Lemma expand_init :
  expand (rgs s) SB_IDX SBSIZE SB_REGION_EXPAND_SIZE =
    (1, Some sb, grown sb s EXPAND_SBS).
Proof using Hfr Hroom HG.
  unfold expand. change SBSIZE with (2 ^ 16) at 1.
  rewrite (nvm_alloc_alone _ _ 16 SB_REGION_EXPAND_SIZE (fr_reg _ _ _ Hfr)) by done.
  change (2 ^ 16) with SBSIZE. fold (heap_start s) sb. unfold region_end in Hroom.
  rewrite (proj2 (Z.leb_le _ _)) by done. unfold grown. done.
Qed.

Lemma expand_init_run fuel s2 :
  rgs s2 = rgs s →
  wp (expand_loop (S fuel) SB_IDX SBSIZE SB_REGION_EXPAND_SIZE)
    (λ r s', r = sb ∧ ∃ pl, s' = mkState (smem s2) (descs s2) (avail_sb s2) (heaps s2) (roots s2)
                                  (t_caches s2) (grown sb s EXPAND_SBS) pl) s2.
Proof using Hfr Hroom HG.
  intros E. cbn [expand_loop]. wp_steps. rewrite E, expand_init.
  unfold expand_flushes, FLUSH, FLUSHFENCE. cbn [Z.eqb Pos.eqb]. wp_steps; [done|].
  cbn [Z.eqb]. wp_steps. split; [done|]. eexists. done.
Qed.

(** The regions after the constructor moved the end and set the address. *)
Definition rg_init : Regions :=
  set_address (rput (grown sb s EXPAND_SBS) SB_IDX
    (__store_heap_start (rget (grown sb s EXPAND_SBS) SB_IDX) sb)) SB_IDX sb.

Lemma rg_init_ok :
  rg_at rg_init db sb mb ∧ length (regions rg_init) = LAST_IDX ∧
  region_at (rget rg_init SB_IDX) (B sb EXPAND_SBS) ∧
  base_addr (rget rg_init SB_IDX) ≤ sb ∧
  base_addr (rget rg_init SB_IDX) + FILESIZE (rget rg_init SB_IDX) = region_end s.
Proof using Hfr Hroom HG.
  destruct Hfr as [Hlen [x Haddr] (R1 & R2 & R3 & R4 & R5) Hca].
  assert (length (regions (grown sb s EXPAND_SBS)) = LAST_IDX) as Hlen'.
  { unfold grown, rput. cbn [regions]. by rewrite length_insert. }
  assert (rget rg_init SB_IDX = __store_heap_start (set_curr (rget (rgs s) SB_IDX)
    (to_pptr_off (B sb EXPAND_SBS) (base_addr (rget (rgs s) SB_IDX)))) sb) as Eg.
  { change (rget rg_init SB_IDX) with (rget (rput (grown sb s EXPAND_SBS) SB_IDX
      (__store_heap_start (rget (grown sb s EXPAND_SBS) SB_IDX) sb)) SB_IDX).
    rewrite rget_rput by done. unfold grown. by rewrite rget_rput. }
  rewrite Eg. split_and!.
  - unfold rg_at, rg_init, set_address, rput, grown. cbn. by rewrite Haddr.
  - unfold rg_init, set_address, rput. cbn [regions]. by rewrite length_insert.
  - unfold region_at. cbn. unfold region_end, addr_ok in *.
    assert (B sb EXPAND_SBS = sb + SB_REGION_EXPAND_SIZE) as -> by (unfold B; f_equal).
    destruct (align_up_spec (base_addr (rget (rgs s) SB_IDX) + PAGESIZE) SBSIZE ltac:(done)) as [? _].
    fold (heap_start s) sb in H. change SB_REGION_EXPAND_SIZE with 1073741824 in *.
    change PAGESIZE with 4096 in *. split_and!; done || lia.
  - cbn. destruct (align_up_spec (base_addr (rget (rgs s) SB_IDX) + PAGESIZE) SBSIZE ltac:(done)) as [? _].
    fold (heap_start s) sb in H. change PAGESIZE with 4096 in *. lia.
  - done.
Qed.

Lemma init_rep n s' :
  1 ≤ n → rg_at (rgs s') db sb mb → length (regions (rgs s')) = LAST_IDX →
  region_at (rget (rgs s') SB_IDX) (B sb n) →
  base_addr (rget (rgs s') SB_IDX) ≤ sb ∧ region_end s' < sb + MAX_SB_REGION_SIZE →
  (∀ c, 0 ≤ c < MAX_SZ_IDX → heaps s' !! c = Some (mkHeap 0 c)) → t_caches s' = ∅ →
  head_is (rgs s') (avail_sb s') (D db 1) →
  dchain db (dnext_free (descs s')) (D db 1) (seqZ 1 (n - 1)) →
  Inv db sb mb (ghost_init n) s'.
Proof using.
  intros Hn Hrg Hlen Hreg Hmx Hhs Hca Hav Hch. destruct (ghost_init_wf sb n Hn) as [Hwf _].
  assert (∀ i k, g_kind (ghost_init n) !! i = Some k → k = KFree) as Hk.
  { intros i k Hi. cbn in Hi. by gsplit. }
  constructor; try done.
  - intros i c fl lk Hi. by apply Hk in Hi.
  - intros i k Hi. by apply Hk in Hi.
  - eauto.
  - intros c Hc. by rewrite Hhs.
  - intros c Hc. exists 0. rewrite Hhs by lia. split; [|done]. cbn. done.
  - intros t c. rewrite Hca. done.
Qed.

(** [BaseMeta::BaseMeta] leaves a heap without live blocks: every superblock of
    the first expansion but superblock 0 is free, all roots are null. *)
Lemma BaseMeta_ctor_inv fuel this :
  (1 ≤ fuel)%nat →
  wp (BaseMeta_ctor fuel this) (λ _ s',
    Inv db sb mb (ghost_init EXPAND_SBS) s' ∧ region_end s' = region_end s ∧
    (∀ i, 0 ≤ i < MAX_ROOTS → get_root_raw s' i = 0) ∧ rgs s' = rg_init) s.
Proof using Hfr HG Hroom Hmax.
  intros Hf. destruct fuel as [|fuel]; [lia|]. destruct rg_init_ok as (G1 & G2 & G3 & G4 & G5).
  unfold BaseMeta_ctor. wp_steps. eapply wp_mono; [apply init_heaps_spec|].
  cbn beta. intros _ s1 (hs & pl1 & -> & Hhs). wp_steps. eapply wp_mono; [apply init_roots_spec|].
  cbn beta. intros _ s2 (rt & pl2 & -> & Hrt). wp_steps.
  eapply wp_mono; [by apply expand_init_run|]. cbn beta. intros r s3 (-> & pl3 & ->).
  unfold FLUSH, FLUSHFENCE. wp_steps. cbn [set_rgs log rgs].
  change (set_address _ SB_IDX sb) with rg_init.
  replace (u64 (sb + SBSIZE)) with (B sb 1).
  2:{ unfold B. symmetry. rewrite Z.mul_1_l. apply u64_small. destruct HG.
      change MAX_SB_REGION_SIZE with (2 ^ 40) in *. change SBSIZE with 65536. lia. }
  eapply wp_mono.
  { apply (organize_sb_list_spec db sb mb HG (S fuel) 1 (SB_REGION_EXPAND_SIZE / SBSIZE - 1) _ 0 []);
      [lia|done..| | |].
    all: try intros j Hj; set_solver. }
  cbn beta. intros _ s4 (ds & av & pl & -> & Hds & Hav & Hch). wp_steps.
  rewrite app_nil_r in Hch. change (SB_REGION_EXPAND_SIZE / SBSIZE - 1) with (EXPAND_SBS - 1) in Hch.
  split; [|split; [|split]].
  - apply init_rep; [done..| | | |done|exact Hch].
    + unfold region_end in *. cbn [with_sbs log set_rgs rgs].
      change (set_address _ SB_IDX sb) with rg_init. by rewrite G5.
    + intros c Hc. cbn. rewrite Hhs, decide_True; [done|]. apply elem_of_seqZ. lia.
    + cbn. apply Hfr.
  - unfold region_end at 1. cbn [with_sbs log set_rgs rgs].
    change (set_address _ SB_IDX sb) with rg_init. done.
  - intros i Hi. unfold get_root_raw. cbn. rewrite Hrt, decide_True; [done|].
    apply elem_of_seqZ. lia.
  - done.
Qed.
End Init.
