(* ===== verification/Refine.v ===== *)
(** * The allocator as an abstract data type

    [heap_rep L s]: the heap [s] is consistent and the program holds exactly the
    blocks of [L] (address to usable size). [Allocator] is the contract the
    functions built on top rely on; Ralloc is an instance. [astep] is the
    abstract machine of a well-behaved program on an allocator, and Ralloc
    simulates it. *)

From Stdlib Require Import ZArith Lia.
From stdpp Require Import base gmap numbers functions list.
From S2P Require Import Prelude Mem Config Pptr SizeClass Region Meta MetaFacts TCache Heap Inv Ghost Rep Trans SbSpec CacheSpec FlushSpec AllocSpec.

Local Open Scope Z_scope.
#[local] Set Warnings "-clear-no-such-hyp".

(** ** Abstract blocks *)

Definition in_blocks (L : gmap Z Z) (a : Z) : Prop := ∃ p z, L !! p = Some z ∧ p ≤ a < p + z.

(** Memory agrees on all blocks of [L]. *)
Definition same_on (L : gmap Z Z) (m m' : mem) : Prop :=
  ∀ a, in_blocks L a → load8 m' a = load8 m a.

(** [p, p+z) meets no block of [L]. *)
Definition apart (L : gmap Z Z) (p z : Z) : Prop :=
  ∀ q w, L !! q = Some w → q + w ≤ p ∨ p + z ≤ q.

(** The largest request served: the size of a large block is kept in 32 bits. *)
Definition MAX_REQUEST : Z := 2 ^ 32 - 2 * SBSIZE.

(** Fuel for every loop: more than the superblocks of a partial list and the
    blocks of a cache. *)
Definition enough_fuel : nat := Z.to_nat (MAX_SB_AMOUNT + 3).

(** ** The contract *)

Class Allocator := {
  al_rep : gmap Z Z → state → Prop;
  al_malloc : nat → nat → Z → M Z;
  al_free : nat → nat → Z → M unit;
  al_size : state → Z → Z;
  al_in_range : state → Z → bool;
  (** the heap cannot grow enough for a request *)
  al_full : state → Z → Prop;
  al_sizes : ∀ L s p z, al_rep L s → L !! p = Some z → 0 < p ∧ 8 ≤ z ∧ p + z ≤ 2 ^ 47;
  al_disjoint : ∀ L s p z, al_rep L s → L !! p = Some z → apart (delete p L) p z;
  al_size_ok : ∀ L s p z, al_rep L s → L !! p = Some z → al_size s p = z;
  al_in_range_ok : ∀ L s p z, al_rep L s → L !! p = Some z → al_in_range s p = true;
  al_malloc_ok : ∀ L s t size fuel, al_rep L s → 0 ≤ size ≤ MAX_REQUEST →
    (enough_fuel ≤ fuel)%nat →
    wpe (al_malloc fuel t size) (λ p s', ∃ z, size ≤ z ∧ p mod 8 = 0 ∧ apart L p z ∧
      al_rep (<[p := z]> L) s' ∧ same_on L (smem s) (smem s') ∧ roots s' = roots s)
      (al_full s size) s;
  al_free_ok : ∀ L s t p z fuel, al_rep L s → L !! p = Some z → (enough_fuel ≤ fuel)%nat →
    wp (al_free fuel t p) (λ _ s', al_rep (delete p L) s' ∧
      same_on (delete p L) (smem s) (smem s') ∧ roots s' = roots s) s;
  al_free_null : ∀ fuel t s, al_free fuel t 0 s = Ok (tt, s);
  al_write_ok : ∀ L s m', al_rep L s →
    (∀ a, ¬ in_blocks L a → load8 m' a = load8 (smem s) a) →
    al_rep L (upd_mem (λ _, m') s);
  al_log_ok : ∀ L s e, al_rep L s → al_rep L (log e s)
}.

(** ** Ralloc implements it *)

Section Ralloc.
Context (db sb mb : Z) (HG : geom db sb mb).

Definition heap_rep (L : gmap Z Z) (s : state) : Prop :=
  ∃ g, Inv db sb mb g s ∧ settled g ∧ ∀ p z, L !! p = Some z ↔ live sb g p z.

(** A request of [size] bytes needs an expansion that does not fit. *)
Definition heap_full (s : state) (size : Z) : Prop :=
  region_end s < curr_addr (rget (rgs s) SB_IDX) +
    (if MAX_SZ <? size then large_sbs size * SBSIZE else SB_REGION_EXPAND_SIZE).

Lemma rep_disjoint L s p z : heap_rep L s → L !! p = Some z → apart (delete p L) p z.
Proof using.
  intros (g & H & _ & HL) Hp q w Hq. apply lookup_delete_Some in Hq as [Hne Hq].
  rewrite HL in Hp, Hq. pose proof (iv_wf _ _ _ _ _ _ _ _ _ _ H) as Hwf.
  destruct (live_disjoint sb g p z q w Hwf Hp Hq Hne); lia.
Qed.

Lemma rep_sizes L s p z : heap_rep L s → L !! p = Some z → 0 < p ∧ 8 ≤ z ∧ p + z ≤ 2 ^ 47.
Proof using HG.
  intros (g & H & _ & HL) Hp. rewrite HL in Hp. pose proof (iv_wf _ _ _ _ _ _ _ _ _ _ H) as Hwf.
  assert (∃ i n, 1 ≤ i ∧ 1 ≤ n ∧ i + n ≤ g_n g ∧ B sb i ≤ p ∧ p + z ≤ B sb (i + n) ∧ 8 ≤ z)
    as (i & n & Hi & Hn & Hin & Hlo & Hhi & Hz).
  { destruct Hp as [(i & c & fl & lk & Hi & Hb & _ & ->)|(i & k & Hi & -> & ->)].
    - pose proof (gw_cls _ _ Hwf _ _ _ _ Hi) as Hc. pose proof (kind_lt _ _ _ _ Hwf Hi).
      apply elem_of_blocks in Hb as (n & Hn & ->). pose proof (blk_range sb i c n Hc Hn).
      destruct (bs_mc c Hc) as (? & _). exists i, 1. split_and!; lia.
    - pose proof (kind_lt _ _ _ _ Hwf Hi). destruct (gw_large _ _ Hwf _ _ Hi) as (? & _ & ? & _).
      exists i, k. rewrite B_add. change SBSIZE with 65536. split_and!; lia. }
  assert (0 < i + n < MAX_DESC_AMOUNT) as Hm by (eapply inv_index; [done|lia]).
  pose proof (B_ok db sb mb HG i) as B1. pose proof (B_ok db sb mb HG (i + n)) as B2.
  change MAX_SB_AMOUNT with MAX_DESC_AMOUNT in *. lia.
Qed.

(** [RP_malloc_size] and [RP_in_prange] on a held block. *)
Definition block_size_at (s : state) (ptr : Z) : Z :=
  dblock_size (get_desc s (desc_lookup (rgs s) ptr)).

Lemma rep_lookup L s p z :
  heap_rep L s → L !! p = Some z → block_size_at s p = z ∧ in_range (rgs s) SB_IDX p = true.
Proof using HG.
  intros (g & H & _ & HL) Hp. rewrite HL in Hp. pose proof (iv_wf _ _ _ _ _ _ _ _ _ _ H) as Hwf.
  unfold block_size_at. destruct Hp as [(i & c & fl & lk & Hi & Hb & _ & ->)|(i & k & Hi & -> & ->)].
  - pose proof (gw_cls _ _ Hwf _ _ _ _ Hi) as Hc.
    destruct (free_lookup db sb mb HG g s i p H ltac:(eauto) (blocks_range sb i c p Hc Hb))
      as (_ & -> & -> & _).
    destruct (iv_small _ _ _ _ _ _ _ _ _ _ H _ _ _ _ Hi) as [(_ & _ & E & _) _]. done.
  - destruct (free_lookup db sb mb HG g s i (B sb i) H ltac:(eauto)) as (_ & -> & -> & _).
    { unfold B. change SBSIZE with 65536. lia. }
    destruct (iv_large _ _ _ _ _ _ _ _ _ _ H _ _ Hi) as (_ & _ & E & _). done.
Qed.

(** From the ghost statements to the abstract ones. *)
Lemma allocated_rep L g s p z g' s' :
  (∀ q w, L !! q = Some w ↔ live sb g q w) → Inv db sb mb g' s' → settled g' →
  0 ≤ z → allocated sb g s p z g' s' →
  apart L p z ∧ heap_rep (<[p := z]> L) s' ∧ same_on L (smem s) (smem s') ∧ roots s' = roots s.
Proof using.
  intros HL H' Hs' Hz [Al Af Am Ar Ae]. split_and!; try done.
  - intros q w Hq. apply Af. by apply HL.
  - exists g'. split_and!; try done. intros q w. rewrite Al, <- HL.
    destruct (decide (p = q)) as [->|Hne].
    + rewrite lookup_insert_eq. split; [naive_solver|]. intros [Hq|[_ ->]]; [|done].
      assert (live sb g' q w) as Hw by (apply Al; left; by apply HL).
      assert (live sb g' q z) as Hw' by (apply Al; by right).
      rewrite (live_fun sb g' q w z); try done. by eapply iv_wf.
    + rewrite lookup_insert_ne by done. naive_solver.
  - intros a (q & w & Hq & Ha). apply (Am q w); [by apply HL|done].
Qed.

(** A partial list has fewer entries than there are superblocks. *)
Lemma part_fuel g s c fuel :
  Inv db sb mb g s → (enough_fuel ≤ fuel)%nat → (length (g_part g c) + 3 ≤ fuel)%nat.
Proof using.
  intros H Hf. pose proof (iv_wf _ _ _ _ _ _ _ _ _ _ H) as Hwf.
  assert (0 < g_n g < MAX_DESC_AMOUNT) as Hn
    by (eapply inv_index; [done|]; pose proof (iv_n _ _ _ _ _ _ _ _ _ _ H); lia).
  assert (length (g_part g c) ≤ length (seqZ 1 (g_n g - 1)))%nat as Hl.
  { apply submseteq_length, NoDup_submseteq; [apply (gw_part_nd _ _ Hwf)|].
    intros i [fl Hi]%(gw_part _ _ Hwf). apply elem_of_seqZ. apply (kind_lt sb) in Hi; [lia|done]. }
  rewrite length_seqZ in Hl. unfold enough_fuel in Hf.
  change MAX_SB_AMOUNT with MAX_DESC_AMOUNT in Hf. lia.
Qed.

Lemma cache_fuel g s tc fuel :
  Inv db sb mb g s → 1 ≤ tc.2 < MAX_SZ_IDX → (enough_fuel ≤ fuel)%nat →
  (length (g_cache g tc) < fuel)%nat.
Proof using.
  intros H Hc Hf. pose proof (iv_wf _ _ _ _ _ _ _ _ _ _ H) as Hwf. destruct tc as [t c].
  pose proof (gw_cache_len _ _ Hwf t c). pose proof (mc_small c Hc).
  unfold enough_fuel in Hf. change MAX_SB_AMOUNT with (2 ^ 24) in Hf. lia.
Qed.

(** The size of the block that serves a request. *)
Definition usable_size (size : Z) : Z :=
  if MAX_SZ <? size then align_up size SBSIZE else bs (get_sizeclass size).

Lemma ralloc_malloc_sized L s t size fuel :
  heap_rep L s → 0 ≤ size ≤ MAX_REQUEST → (enough_fuel ≤ fuel)%nat →
  wpe (do_malloc fuel t size) (λ p s', let z := usable_size size in
    size ≤ z ∧ p mod 8 = 0 ∧ apart L p z ∧
    heap_rep (<[p := z]> L) s' ∧ same_on L (smem s) (smem s') ∧ roots s' = roots s)
    (heap_full s size) s.
Proof using HG.
  intros (g & H & Hset & HL) Hsz Hf. apply (part_fuel g s (get_sizeclass size)) in Hf; [|done].
  unfold heap_full, usable_size. rewrite (region_curr_B db sb mb g s H).
  destruct (Z.ltb_spec MAX_SZ size) as [Hlt|Hle].
  - destruct fuel as [|fuel]; [lia|]. unfold MAX_REQUEST in Hsz.
    destruct (large_sbs_spec size Hlt) as (-> & Hk & _).
    eapply wpe_mono; [apply (do_malloc_large db sb mb HG fuel g); [lia|done|done]| |].
    + intros p s' (g' & H' & Hs' & Hm & Hz & Hal).
      split; [done|]. split; [done|]. apply (allocated_rep L g s p _ g' s'); try done.
      change SBSIZE with 65536. lia.
    + unfold has_room. rewrite B_add. lia.
  - eapply wpe_mono; [apply (do_malloc_small db sb mb HG fuel g); [lia|done..]| |].
    + intros p s' (g' & H' & Hs' & Hm & Hz & Hal).
      split; [done|]. split; [done|]. apply (allocated_rep L g s p _ g' s'); [done..|lia|done].
    + intros [_ [_ Hr]]. unfold has_room in Hr. rewrite B_add in Hr.
      change (EXPAND_SBS * SBSIZE) with SB_REGION_EXPAND_SIZE in Hr. lia.
Qed.

Lemma ralloc_malloc_ok L s t size fuel :
  heap_rep L s → 0 ≤ size ≤ MAX_REQUEST → (enough_fuel ≤ fuel)%nat →
  wpe (do_malloc fuel t size) (λ p s', ∃ z, size ≤ z ∧ p mod 8 = 0 ∧ apart L p z ∧
    heap_rep (<[p := z]> L) s' ∧ same_on L (smem s) (smem s') ∧ roots s' = roots s)
    (heap_full s size) s.
Proof using HG.
  intros H Hsz Hf. eapply wpe_mono; [by apply ralloc_malloc_sized| |done]. cbn beta zeta. eauto.
Qed.

(** [public_flush_cache] loops over the size classes. *)
Lemma public_flush_run fuel t cs L s :
  heap_rep L s → (enough_fuel ≤ fuel)%nat → (∀ c, c ∈ cs → 1 ≤ c < MAX_SZ_IDX) →
  wp (foldr (λ c k, flush_cache fuel t c;; k) (mret tt) cs) (λ _ s',
    heap_rep L s' ∧ same_on L (smem s) (smem s') ∧ roots s' = roots s ∧
    (∀ c, c ∈ cs → get_block_num s' t c = 0) ∧
    (∀ t' c', get_block_num s t' c' = 0 → get_block_num s' t' c' = 0)) s.
Proof using HG.
  intros H Hf Hcs. revert s H. induction cs as [|c cs IH]; intros s (g & H & Hset & HL); cbn [foldr].
  - wp_steps. split; [by exists g|]. split; [done|]. split; [done|]. split; [set_solver|done].
  - assert (1 ≤ c < MAX_SZ_IDX) as Hc by (apply Hcs; left).
    assert (length (g_cache g (t, c)) < fuel)%nat as Hcf by (by apply (cache_fuel g s (t, c))).
    apply wp_bind. unfold flush_cache.
    eapply wp_mono; [by apply (flush_cache_loop_inv db sb mb HG fuel fuel g s t c)|].
    cbn beta. intros _ s1 (g1 & H1 & Hset1 & [Tl Tc Tm Tr Te] & Ee).
    assert (∀ g s t c, Inv db sb mb g s → get_block_num s t c = Z.of_nat (length (g_cache g (t, c)))) as Hnum.
    { intros g' s' t' c' H'. apply (iv_cache _ _ _ _ _ _ _ _ _ _ H'). }
    assert (∀ t' c', get_block_num s t' c' = 0 → get_block_num s1 t' c' = 0) as Hkeep.
    { intros t' c'. rewrite (Hnum g s), (Hnum g1 s1) by done.
      destruct (decide ((t', c') = (t, c))) as [[= -> ->]|Hne]; [by rewrite Ee|by rewrite Tc]. }
    eapply wp_mono; [apply IH|].
    + intros c' Hc'. apply Hcs. by right.
    + exists g1. split; [done|]. split; [done|]. intros p z. by rewrite Tl.
    + cbn beta. intros _ s2 (H2 & Hs2 & Hr2 & Hz2 & Hk2). split; [done|].
      split; [|split; [congruence|split]].
      * intros a (p & z & Hp & Ha). rewrite Hs2 by (by exists p, z). apply HL in Hp. by eapply Tm.
      * intros c' [->|Hc']%elem_of_cons; [|by apply Hz2]. apply Hk2.
        rewrite (Hnum g1 s1) by done. by rewrite Ee.
      * auto.
Qed.

Lemma freed_rep L g s p g' s' :
  (∀ q w, L !! q = Some w ↔ live sb g q w) → Inv db sb mb g' s' → settled g' →
  freed sb g s p g' s' →
  heap_rep (delete p L) s' ∧ same_on (delete p L) (smem s) (smem s') ∧ roots s' = roots s.
Proof using.
  intros HL H' Hs' [Fl Fm Fr Fe]. split_and!; try done.
  - exists g'. split_and!; try done. intros q w. rewrite Fl, <- HL, lookup_delete_Some. naive_solver.
  - intros a (q & w & Hq & Ha). apply lookup_delete_Some in Hq as [Hne Hq].
    apply (Fm q w); [by apply HL|done|done].
Qed.

Lemma ralloc_free_ok L s t p z fuel :
  heap_rep L s → L !! p = Some z → (enough_fuel ≤ fuel)%nat →
  wp (do_free fuel t p) (λ _ s', heap_rep (delete p L) s' ∧
    same_on (delete p L) (smem s) (smem s') ∧ roots s' = roots s) s.
Proof using HG.
  intros (g & H & Hset & HL) Hp Hf. rewrite HL in Hp.
  destruct Hp as [(i & c & fl & lk & Hi & Hb & Ho & ->)|(i & k & Hi & -> & ->)].
  - apply (cache_fuel g s (t, c)) in Hf; [|done|by eapply gw_cls; [eapply iv_wf|]].
    eapply wp_mono; [by apply (do_free_small db sb mb HG fuel g s t i c fl lk)|].
    intros _ s' (g' & H' & Hs' & Hfr). by apply (freed_rep L g s p g' s').
  - apply (part_fuel g s 0) in Hf; [|done].
    eapply wp_mono; [apply (do_free_large db sb mb HG fuel g s t i k); [lia|done..]|].
    intros _ s' (g' & H' & Hs' & Hfr). by apply (freed_rep L g s _ g' s').
Qed.

Lemma ralloc_write_ok L s m' :
  heap_rep L s → (∀ a, ¬ in_blocks L a → load8 m' a = load8 (smem s) a) →
  heap_rep L (upd_mem (λ _, m') s).
Proof using.
  intros (g & H & Hset & HL) Hm. exists g. split_and!; try done.
  apply (user_write_inv db sb mb); [done|]. intros a Ha. apply Hm.
  intros (p & z & Hp & Hr). apply HL in Hp. by eapply Ha.
Qed.

Lemma ralloc_log_ok L s e : heap_rep L s → heap_rep L (log e s).
Proof using. done. Qed.
End Ralloc.

#[export] Instance Ralloc_allocator db sb mb (HG : geom db sb mb) : Allocator := {|
  al_rep := heap_rep db sb mb;
  al_malloc := do_malloc;
  al_free := do_free;
  al_size := block_size_at;
  al_in_range := λ s p, in_range (rgs s) SB_IDX p;
  al_full := heap_full;
  al_sizes := rep_sizes db sb mb HG;
  al_disjoint := rep_disjoint db sb mb;
  al_size_ok := λ L s p z H Hp, proj1 (rep_lookup db sb mb HG L s p z H Hp);
  al_in_range_ok := λ L s p z H Hp, proj2 (rep_lookup db sb mb HG L s p z H Hp);
  al_malloc_ok := ralloc_malloc_ok db sb mb HG;
  al_free_ok := ralloc_free_ok db sb mb HG;
  al_free_null := do_free_null;
  al_write_ok := ralloc_write_ok db sb mb;
  al_log_ok := ralloc_log_ok db sb mb
|}.
