(* ===== verification/Api.v ===== *)
(** * The allocation interface (src/ralloc.cpp)

    The functions of [ralloc.cpp] that call the allocator, written over the
    [Allocator] contract, and the roots. [ini] is the global flag
    [initialized]; [t] the calling thread. *)

From Stdlib Require Import ZArith Lia.
From stdpp Require Import base gmap numbers list.
From S2P Require Import Prelude Mem Config Pptr SizeClass Region Meta MetaFacts BaseMeta Refine.

Local Open Scope Z_scope.

Section Client.
Context {A : Allocator}.

Definition RP_malloc (ini : bool) (fuel t : nat) (sz : Z) : M Z :=
  st_assert ini;; al_malloc fuel t sz.

Definition RP_free (ini : bool) (fuel t : nat) (ptr : Z) : M unit :=
  st_assert ini;; al_free fuel t ptr.

Definition RP_malloc_size (ptr : Z) : M Z := st_gets (λ s, al_size s ptr).

Definition RP_realloc (ini : bool) (fuel t : nat) (ptr new_size : Z) : M Z :=
  if ptr =? 0 then RP_malloc ini fuel t new_size
  else
    s ← st_get;
    if negb (al_in_range s ptr) then mret 0
    else
      old_size ← RP_malloc_size ptr;
      if old_size =? new_size then mret ptr
      else
        new_ptr ← RP_malloc ini fuel t new_size;
        if new_ptr =? 0 then mret 0
        else
          st_mod (upd_mem (λ m, memcpy m new_ptr ptr (Z.to_nat old_size)));;
          FLUSH new_ptr;; FLUSHFENCE;;
          RP_free ini fuel t ptr;;
          mret new_ptr.

(** The product [num*size] is computed in [size_t]. *)
Definition RP_calloc (ini : bool) (fuel t : nat) (num size : Z) : M Z :=
  ptr ← RP_malloc ini fuel t (u64 (num * size));
  if ptr =? 0 then mret 0
  else
    real_size ← RP_malloc_size ptr;
    st_mod (upd_mem (λ m, memset m ptr 0 (Z.to_nat real_size)));;
    FLUSH ptr;; FLUSHFENCE;;
    mret ptr.

Definition RP_in_prange (s : state) (ptr : Z) : Z := if al_in_range s ptr then 1 else 0.
End Client.

(** [RP_region_range]: the code and the two addresses written; [None] where a
    pointer argument is null. *)
Definition RP_region_range (rg : Regions) (idx : nat) (start_addr end_addr : bool)
  : Z * option (Z * Z) :=
  if negb start_addr || negb end_addr || bool_decide (cur_idx rg ≤ idx)%nat then (1, None)
  else
    (0, Some (rlookup rg idx, u64 (rlookup rg idx + FILESIZE (rget rg idx)))).

(** ** Roots (BaseMeta::set_root and BaseMeta::get_root)

    [roots[i] = ptr] goes through the assignment from a pointer variable. *)
Definition set_root (ptr i : Z) : M Z :=
  st_assert (i <? MAX_ROOTS);;
  s ← st_get;
  let res := if CrossPtr_is_null (get_root_raw s i) then 0
             else CrossPtr_get (rgs s) SB_IDX (get_root_raw s i) in
  st_mod (put_root i (CrossPtr_assign (rgs s) SB_IDX ptr));;
  FLUSH (root_addr (rlookup (rgs s) META_IDX) i);; FLUSHFENCE;;
  mret res.

(** [roots_filter_func]: the type a root was last read with ([None]: empty
    function). *)
Definition filters := gmap Z nat.

Definition get_root (T : nat) (i : Z) (fs : filters) : M (Z * filters) :=
  st_assert (i <? MAX_ROOTS);;
  s ← st_get;
  mret (CrossPtr_get (rgs s) SB_IDX (get_root_raw s i), <[i := T]> fs).

(** ** Properties of the clients, from the contract *)

Section ClientSpec.
Context {A : Allocator}.

Lemma same_on_trans L m1 m2 m3 : same_on L m1 m2 → same_on L m2 m3 → same_on L m1 m3.
Proof. intros H1 H2 a Ha. by rewrite H2, H1. Qed.

Lemma same_on_mono (L L' : gmap Z Z) m m' : L' ⊆ L → same_on L m m' → same_on L' m m'.
Proof.
  intros Hs H a (p & z & Hp & Ha). apply H. exists p, z. split; [|done].
  by eapply lookup_weaken.
Qed.

(** Writes inside one block leave the others alone. *)
Lemma in_block_write L s p z (m' : mem) :
  al_rep L s → L !! p = Some z → (∀ a, ¬ p ≤ a < p + z → load8 m' a = load8 (smem s) a) →
  al_rep L (upd_mem (λ _, m') s) ∧ same_on (delete p L) (smem s) m'.
Proof.
  intros H Hp Hm. split.
  - apply al_write_ok; [done|]. intros a Ha. apply Hm. intros Hr. apply Ha. by exists p, z.
  - intros a (q & w & Hq & Ha). apply Hm. pose proof (al_disjoint L s p z H Hp q w Hq). lia.
Qed.

(** A new block is not one of the others. *)
Lemma apart_fresh L s p z : al_rep L s → 8 ≤ z → apart L p z → L !! p = None.
Proof.
  intros H Hz Hap. destruct (L !! p) as [w|] eqn:E; [|done].
  destruct (al_sizes L s p w H E) as (_ & ? & _). destruct (Hap p w E); lia.
Qed.

Lemma apart_same_on L p z m m' :
  0 < z → apart L p z → same_on (<[p := z]> L) m m' → same_on L m m'.
Proof.
  intros Hz Hap H a (q & w & Hq & Ha). apply H. destruct (decide (q = p)) as [->|Hne].
  - destruct (Hap p w Hq); lia.
  - exists q, w. by rewrite lookup_insert_ne.
Qed.

Lemma RP_calloc_spec L s t num size fuel :
  al_rep L s → 0 ≤ num → 0 ≤ size → num * size ≤ MAX_REQUEST → (enough_fuel ≤ fuel)%nat →
  wpe (RP_calloc true fuel t num size) (λ p s', ∃ z, num * size ≤ z ∧ apart L p z ∧
    al_rep (<[p := z]> L) s' ∧ same_on L (smem s) (smem s') ∧
    (∀ a, p ≤ a < p + z → load8 (smem s') a = 0)) (al_full s (num * size)) s.
Proof.
  intros H Hn Hs Hmax Hfuel. assert (0 ≤ num * size) as Hns by nia.
  unfold RP_calloc, RP_malloc.
  assert (MAX_REQUEST < 2 ^ 64) as Hmr by done. rewrite u64_small by lia.
  apply wpe_bind, wpe_bind, wp_wpe, wp_assert; [done|].
  eapply wpe_mono; [by apply (al_malloc_ok L); [|lia|]| |done]. cbn beta.
  intros p s1 (z & Hz & Hm & Hap & H1 & Hsame & Hr).
  assert (<[p := z]> L !! p = Some z) as Hp by apply lookup_insert_eq.
  destruct (al_sizes _ _ p z H1 Hp) as (Hp0 & Hz8 & _).
  rewrite (proj2 (Z.eqb_neq _ _)) by lia. apply wp_wpe. unfold RP_malloc_size, FLUSH, FLUSHFENCE.
  wp_steps. rewrite (al_size_ok _ _ p z H1 Hp). set (m' := memset (smem s1) p 0 (Z.to_nat z)).
  assert (∀ a, load8 m' a = if decide (p ≤ a < p + z) then 0 else load8 (smem s1) a) as Hset.
  { intros a. unfold m'. rewrite load8_memset, Z2Nat.id by lia. by case_decide. }
  destruct (in_block_write _ s1 p z m' H1 Hp) as [H2 Hs2];
    [intros a Ha; by rewrite Hset, decide_False|].
  exists z. split; [done|]. split; [done|]. split; [|split].
  - by do 2 apply al_log_ok.
  - apply (same_on_trans _ _ (smem s1)); [done|].
    rewrite delete_insert_id in Hs2 by (by eapply apart_fresh). done.
  - intros a Ha. cbn [smem log upd_mem]. fold m'. by rewrite Hset, decide_True.
Qed.

(** Growing: the contents move, the old block is given up, the other blocks are
    untouched. *)
Lemma RP_realloc_grow L s t p old new_size fuel :
  al_rep L s → L !! p = Some old → old < new_size ≤ MAX_REQUEST → (enough_fuel ≤ fuel)%nat →
  wpe (RP_realloc true fuel t p new_size) (λ q s', ∃ z, new_size ≤ z ∧ apart L q z ∧
    al_rep (<[q := z]> (delete p L)) s' ∧ same_on (delete p L) (smem s) (smem s') ∧
    (∀ k, 0 ≤ k < old → load8 (smem s') (q + k) = load8 (smem s) (p + k)))
    (al_full s new_size) s.
Proof.
  intros H Hp Hnew Hfuel. destruct (al_sizes _ _ p old H Hp) as (Hp0 & Hold & _).
  unfold RP_realloc. rewrite (proj2 (Z.eqb_neq _ _)) by lia. apply wpe_bind, wp_wpe, wp_get.
  rewrite (al_in_range_ok _ _ _ _ H Hp). cbn [negb]. apply wpe_bind, wp_wpe, wp_gets.
  rewrite (al_size_ok _ _ _ _ H Hp), (proj2 (Z.eqb_neq _ _)) by lia.
  unfold RP_malloc, RP_free. apply wpe_bind, wpe_bind, wp_wpe, wp_assert; [done|].
  eapply wpe_mono; [by apply (al_malloc_ok L); [|lia|]| |done]. cbn beta.
  intros q s1 (z & Hz & Hm & Hap & H1 & Hsame & Hr). set (L1 := <[q := z]> L) in *.
  assert (L1 !! q = Some z) as Hq by apply lookup_insert_eq.
  destruct (al_sizes _ _ q z H1 Hq) as (Hq0 & Hz8 & _).
  rewrite (proj2 (Z.eqb_neq _ _)) by lia. apply wp_wpe. unfold FLUSH, FLUSHFENCE. wp_steps; [done|].
  set (m' := memcpy (smem s1) q p (Z.to_nat old)).
  assert (q ≠ p) as Hne by (intros ->; destruct (Hap p old Hp); lia).
  assert (∀ a, load8 m' a = if decide (q ≤ a < q + old) then load8 (smem s1) (p + (a - q))
                            else load8 (smem s1) a) as Hcp.
  { intros a. unfold m'. rewrite load8_memcpy; rewrite Z2Nat.id by lia; [done|].
    destruct (Hap p old Hp); lia. }
  destruct (in_block_write _ s1 q z m' H1 Hq) as [H2 Hs2];
    [intros a Ha; rewrite Hcp, decide_False by lia; done|].
  unfold L1 in Hs2. rewrite delete_insert_id in Hs2 by (by eapply apart_fresh).
  assert (L1 !! p = Some old) as Hp1 by (unfold L1; by rewrite lookup_insert_ne).
  eapply wp_mono.
  { apply (al_free_ok L1 _ t p old fuel); [|done|done]. do 2 apply al_log_ok. apply H2. }
  cbn beta. intros _ s3 (H3 & Hs3 & _). wp_steps. exists z.
  assert (delete p L1 = <[q := z]> (delete p L)) as E3
    by (unfold L1; by rewrite delete_insert_ne).
  rewrite E3 in H3, Hs3. split; [done|]. split; [done|]. split; [done|]. split.
  - apply (same_on_trans _ _ (smem s1)); [eapply same_on_mono; [apply delete_subseteq|done]|].
    apply (same_on_trans _ _ m'); [eapply same_on_mono; [apply delete_subseteq|done]|].
    eapply apart_same_on; [|  |exact Hs3]; [lia|]. intros r w Hrw.
    apply lookup_delete_Some in Hrw as [_ Hrw]. by apply Hap.
  - intros k Hk. rewrite (Hs3 (q + k)).
    2:{ exists q, z. rewrite lookup_insert_eq. split; [done|]. lia. }
    change (load8 m' (q + k) = load8 (smem s) (p + k)).
    rewrite Hcp, decide_True by lia. replace (p + (q + k - q)) with (p + k) by lia.
    apply Hsame. exists p, old. split; [done|]. lia.
Qed.

(** Same size: nothing happens. Foreign pointer: null. *)
Lemma RP_realloc_same L s t p old fuel :
  al_rep L s → L !! p = Some old → RP_realloc true fuel t p old s = Ok (p, s).
Proof.
  intros H Hp. destruct (al_sizes _ _ p old H Hp) as (Hp0 & _).
  unfold RP_realloc. rewrite (proj2 (Z.eqb_neq _ _)) by lia.
  unfold mbind, st_mbind, st_bind, st_get, RP_malloc_size, st_gets.
  rewrite (al_in_range_ok _ _ _ _ H Hp). cbn [negb].
  by rewrite (al_size_ok _ _ _ _ H Hp), Z.eqb_refl.
Qed.
End ClientSpec.
