(* ===== verification/Roots.v ===== *)
(** * Persistent roots

    [BaseMeta::set_root] and [BaseMeta::get_root] on a consistent heap. *)

From Stdlib Require Import ZArith Lia.
From stdpp Require Import base gmap numbers functions list.
From S2P Require Import Prelude Mem Config Pptr SizeClass Region Meta MetaFacts TCache Heap BaseMeta Inv Ghost Rep Trans SbSpec CacheSpec FlushSpec AllocSpec Refine Api.

Local Open Scope Z_scope.
#[local] Set Warnings "-clear-no-such-hyp".

Lemma set_root_run db sb mb (HG : geom db sb mb) L s p z i T fs :
  heap_rep db sb mb L s → L !! p = Some z → 0 ≤ i < MAX_ROOTS →
  wp (set_root p i) (λ old s', old = CrossPtr_get (rgs s) SB_IDX (get_root_raw s i) ∧
    heap_rep db sb mb L s' ∧
    get_root T i fs s' = Ok ((p, <[i := T]> fs), s') ∧
    ∀ j, j ≠ i → get_root_raw s' j = get_root_raw s j) s.
Proof.
  intros Hrep Hp Hi. destruct (rep_sizes db sb mb HG L s p z Hrep Hp) as (Hp0 & Hz & Hmax).
  pose proof Hrep as (g & H & _ & HL). pose proof (iv_rg _ _ _ _ _ _ _ _ _ _ H) as Hrg.
  unfold set_root, FLUSH, FLUSHFENCE. wp_steps; [apply Z.ltb_lt; lia|].
  assert (CrossPtr_get (rgs s) SB_IDX (CrossPtr_assign (rgs s) SB_IDX p) = p) as Hget.
  { apply (cross_get_assign (rgs s)); [lia| |].
    - rewrite (rlookup_sb db sb mb _ Hrg). apply HL in Hp. pose proof (iv_wf _ _ _ _ _ _ _ _ _ _ H) as Hwf.
      destruct Hp as [(j & c & fl & lk & Hj & Hb & _ & _)|(j & k & Hj & -> & _)];
        pose proof (kind_lt _ _ _ _ Hwf Hj) as Hlt.
      + apply (blocks_range sb j c) in Hb; [|by eapply gw_cls].
        unfold B in Hb. change SBSIZE with 65536 in Hb. lia.
      + unfold B. change SBSIZE with 65536. lia.
    - rewrite (rlookup_sb db sb mb _ Hrg). destruct HG. change MAX_SB_REGION_SIZE with (2 ^ 40) in *. lia. }
  split; [|split; [|split]].
  - unfold CrossPtr_get. by destruct (CrossPtr_is_null (get_root_raw s i)).
  - destruct Hrep as (g2 & H2 & Hset & HL2). exists g2. split; [exact H2|]. by split.
  - unfold get_root, mbind, st_mbind, st_bind, st_assert, st_get. rewrite (proj2 (Z.ltb_lt _ _)) by lia.
    unfold get_root_raw. cbn [roots log upd_roots put_root rgs]. rewrite lookup_insert_eq. cbn [default from_option id].
    by rewrite Hget.
  - intros j Hne. unfold get_root_raw. cbn [roots log upd_roots put_root]. by rewrite lookup_insert_ne.
Qed.

Lemma get_root_value T i fs s p fs' s' :
  get_root T i fs s = Ok ((p, fs'), s') → CrossPtr_get (rgs s) SB_IDX (get_root_raw s i) = p.
Proof.
  unfold get_root, mbind, st_mbind, st_bind, st_assert, st_get. destruct (i <? MAX_ROOTS); [|done].
  by intros [= -> _ _].
Qed.
