(* ===== verification/Dirty.v ===== *)
(** * The dirty flag (BaseMeta::is_dirty, set_dirty, set_clean)

    The flag is a robust mutex kept in the metadata region: held while the heap is
    open, given up at exit. The mutex is the platform's. [RobustMutex] states what
    is relied on, all of it documented for a thread of one process: what it
    means for the caller that a call returned what it returned. What the mutex
    answers to the next process that maps the file is stated nowhere: the
    attribute is set robust but not PTHREAD_PROCESS_SHARED, so POSIX leaves it
    undefined, and every theorem about reopening takes the answer as a case. *)

From Stdlib Require Import ZArith Lia.
From stdpp Require Import base list.
From S2P Require Import Prelude.

Local Open Scope Z_scope.

Definition EAGAIN : Z := 11.
Definition EBUSY : Z := 16.
Definition EINVAL : Z := 22.
Definition EOWNERDEAD : Z := 130.

(** [pthread_mutex_*] on one robust mutex; [locked]: the calling thread holds it. The
    calls on the flag (opening, recovery, exit) are taken to be of one thread of the
    process: a robust mutex refuses to be unlocked by another. *)
Class RobustMutex := {
  mutex : Type;
  mx_init : mutex;                        (* pthread_mutex_init *)
  mx_trylock : mutex → Z * mutex;
  mx_unlock : mutex → mutex;
  mx_consistent : mutex → mutex;
  mx_reinit : mutex → mutex;              (* pthread_mutex_destroy, then init *)
  locked : mutex → Prop;
  mx_init_free : (mx_trylock mx_init).1 = 0;
  mx_reinit_free : ∀ m, (mx_trylock (mx_reinit m)).1 = 0;
  mx_trylock_acquired : ∀ m, (mx_trylock m).1 = 0 → locked (mx_trylock m).2;
  mx_trylock_dead : ∀ m, (mx_trylock m).1 = EOWNERDEAD → locked (mx_consistent (mx_trylock m).2);
  mx_trylock_busy : ∀ m, locked m → (mx_trylock m).1 = EBUSY ∧ locked (mx_trylock m).2;
  mx_unlock_free : ∀ m, locked m → (mx_trylock (mx_unlock m)).1 = 0
}.

Section Dirty.
Context {RM : RobustMutex}.

(** What [pthread_mutex_trylock] would answer. *)
Definition answer (m : mutex) : Z := (mx_trylock m).1.

(** The mutex is there for the taking. *)
Definition unlocked (m : mutex) : Prop := answer m = 0.

(** The answers [is_dirty] takes for the death of the previous owner. *)
Definition reports_dirty (m : mutex) : bool := (answer m =? EOWNERDEAD) || (answer m =? EINVAL).

(** The [default] case prints a message and exits. *)
Definition is_dirty (m : mutex) : outcome (bool * mutex) :=
  let s := (mx_trylock m).1 in
  let m' := (mx_trylock m).2 in
  if s =? EOWNERDEAD then Ok (true, mx_consistent m')
  else if s =? 0 then Ok (false, mx_unlock m')
  else if (s =? EBUSY) || (s =? EAGAIN) then Ok (false, m')
  else if s =? EINVAL then Ok (true, mx_reinit m')
  else Fail.

Definition set_dirty (m : mutex) : outcome mutex :=
  let s := (mx_trylock m).1 in
  if s =? EOWNERDEAD then Fail else Ok (mx_trylock m).2.

Definition set_clean (m : mutex) : mutex := mx_unlock m.

(** The part of [BaseMeta::restart] about the flag. *)
Definition recover_flag (m : mutex) : outcome (bool * mutex) :=
  match is_dirty m with
  | Ok (d, m') => match set_dirty m' with Ok m'' => Ok (d, m'') | Fail => Fail | NoFuel => NoFuel end
  | Fail => Fail
  | NoFuel => NoFuel
  end.

Lemma set_dirty_spec m :
  unlocked m ∨ locked m → ∃ m', set_dirty m = Ok m' ∧ locked m'.
Proof.
  unfold set_dirty. intros [H|H].
  - pose proof (mx_trylock_acquired m H) as Hl. unfold unlocked, answer in H. rewrite H. eauto.
  - destruct (mx_trylock_busy m H) as [-> H']. eauto.
Qed.

Lemma is_dirty_yes m :
  reports_dirty m = true → ∃ m', is_dirty m = Ok (true, m') ∧ (unlocked m' ∨ locked m').
Proof.
  unfold reports_dirty, is_dirty, answer. intros [H%Z.eqb_eq|H%Z.eqb_eq]%orb_true_iff.
  - rewrite H. eexists. split; [done|]. right. by apply mx_trylock_dead.
  - rewrite H. eexists. split; [done|]. left. apply mx_reinit_free.
Qed.

Lemma is_dirty_no m :
  unlocked m ∨ locked m → ∃ m', is_dirty m = Ok (false, m') ∧ (unlocked m' ∨ locked m').
Proof.
  unfold is_dirty. intros [H|H].
  - pose proof (mx_trylock_acquired m H) as Hl. unfold unlocked, answer in H. rewrite H.
    eexists. split; [done|]. left. by apply mx_unlock_free.
  - destruct (mx_trylock_busy m H) as [-> H']. eexists. split; [done|]. by right.
Qed.

Lemma recover_flag_yes m : reports_dirty m = true → ∃ m', recover_flag m = Ok (true, m') ∧ locked m'.
Proof.
  intros H. destruct (is_dirty_yes m H) as (m1 & E1 & H1). destruct (set_dirty_spec m1 H1) as (m2 & E2 & H2).
  exists m2. unfold recover_flag. by rewrite E1, E2.
Qed.

Lemma recover_flag_no m : unlocked m ∨ locked m → ∃ m', recover_flag m = Ok (false, m') ∧ locked m'.
Proof.
  intros H. destruct (is_dirty_no m H) as (m1 & E1 & H1). destruct (set_dirty_spec m1 H1) as (m2 & E2 & H2).
  exists m2. unfold recover_flag. by rewrite E1, E2.
Qed.

(** After giving it up the flag is free. *)
Lemma set_clean_spec m : locked m → unlocked (set_clean m).
Proof. apply mx_unlock_free. Qed.
End Dirty.

(** A mutex with this behaviour. *)
Inductive mx_state := MxFree | MxHeld | MxDead.

Definition simple_trylock (m : mx_state) : Z * mx_state :=
  match m with
  | MxFree => (0, MxHeld)
  | MxHeld => (EBUSY, MxHeld)
  | MxDead => (EOWNERDEAD, MxHeld)
  end.

Definition simple_mutex : RobustMutex.
Proof.
  refine (Build_RobustMutex mx_state MxFree simple_trylock (λ _, MxFree) (λ m, m) (λ _, MxFree)
    (eq MxHeld) _ _ _ _ _ _); first [done | by intros [] | by intros m <-].
Defined.
