(* ===== verification/GC.v ===== *)
(** * Recovery after a crash (GarbageCollection in src/BaseMeta.hpp, .cpp)

    Mark: from the roots, following the pointers that the filter function of each
    node's type reports. Sweep: rebuild descriptors, block free lists, partial
    lists and the superblock free list from the marked blocks. *)

From Stdlib Require Import ZArith Lia.
From stdpp Require Import base gmap numbers list sorting.
From S2P Require Import Prelude Mem Config Pptr SizeClass Region Meta MetaFacts TCache Heap BaseMeta Refine Api.

Local Open Scope Z_scope.

(** ** Mark *)

(** [marked_blk], and the two stacks [to_filter_node] and [to_filter_func],
    which are pushed and popped together: an address and the type whose filter
    function is to be called on it. *)
Record gc := mkGc { marked_blk : gset Z; to_filter : list (Z * nat) }.

Definition gc_init : gc := mkGc ∅ [].

(** [mark_func<T>(addr)]. *)
Definition mark_func (s : state) (T : nat) (addr : Z) (g : gc) : gc :=
  if negb (in_range (rgs s) SB_IDX addr) then g
  else if decide (addr ∈ marked_blk g) then g
  else mkGc ({[addr]} ∪ marked_blk g) ((addr, T) :: to_filter g).

(** Type 0 is [char]. The default [filter_func]: every byte offset of the block
    is read as a pptr. *)
Definition conservative_targets (s : state) (ptr : Z) : list Z :=
  let sz := dblock_size (get_desc s (desc_lookup (rgs s) ptr)) in
  filter (λ c, c ≠ 0) ((λ i, pload (smem s) (u64 (ptr + i))) <$> seqZ 0 sz).

Section Mark.
(** Specialisations of [filter_func] are the application's: for the types that
    have one, the typed pointers it passes to [mark_func], in order. *)
Context (user_filter : nat → option (state → Z → list (Z * nat))).

Definition filter_func (s : state) (T : nat) (ptr : Z) : list (Z * nat) :=
  match user_filter T with
  | Some f => f s ptr
  | None => (λ c, (c, 0%nat)) <$> conservative_targets s ptr
  end.

Definition mark_all (s : state) (l : list (Z * nat)) (g : gc) : gc :=
  foldl (λ g x, mark_func s x.2 x.1 g) g l.

(** The [for] over the roots; calling an empty [std::function] throws. *)
Fixpoint mark_roots (s : state) (fs : filters) (l : list Z) (g : gc) : outcome gc :=
  match l with
  | [] => Ok g
  | i :: l' =>
      if negb (CrossPtr_is_null (get_root_raw s i)) then
        match fs !! i with
        | None => Fail
        | Some T => mark_roots s fs l' (mark_func s T (CrossPtr_get (rgs s) SB_IDX (get_root_raw s i)) g)
        end
      else mark_roots s fs l' g
  end.

(** [while(!to_filter_node.empty())]. *)
Fixpoint mark_loop (fuel : nat) (s : state) (g : gc) : outcome gc :=
  match fuel with
  | O => NoFuel
  | S fuel' =>
      match to_filter g with
      | [] => Ok g
      | (node, T) :: rest =>
          mark_loop fuel' s (mark_all s (filter_func s T node) (mkGc (marked_blk g) rest))
      end
  end.

Definition mark (fuel : nat) (s : state) (fs : filters) : outcome gc :=
  match mark_roots s fs (seqZ 0 MAX_ROOTS) gc_init with
  | Ok g => mark_loop fuel s g
  | o => o
  end.
End Mark.

(** ** Sweep *)

(** The two [for] loops that put the blocks from [free_block] up to [stop] on the
    free list: memory, list head, [anchor.count]. *)
Fixpoint free_run (fuel : nat) (m : mem) (free_block stop bsz head cnt : Z) : outcome (mem * Z * Z) :=
  match fuel with
  | O => NoFuel
  | S fuel' =>
      if free_block <? stop then
        free_run fuel' (pstore m free_block head) (u64 (free_block + bsz)) stop bsz free_block
          (wrap 31 (cnt + 1))
      else Ok (m, head, cnt)
  end.

(** What the inner [while] computes for one superblock. *)
Record sweep_acc := mkAcc {
  sa_state : SuperblockState;     (* anchor.state *)
  sa_count : Z;                   (* anchor.count *)
  sa_head : Z;                    (* free_blocks_head *)
  sa_last : Z                     (* last_possible_free_block *)
}.

(** [curr_desc->heap->sc_idx]. *)
Definition desc_sc_idx (s : state) (desc : Z) : Z :=
  sc_idx (get_heap s (heap_index (rgs s) (CrossPtr_deref (rgs s) META_IDX (heap (get_desc s desc))))).

(** The inner [while]: the marked blocks of superblock [curr_sb]. *)
Fixpoint sweep_marks (fuel : nat) (curr_sb curr_desc : Z) (marks : list Z) (a : sweep_acc)
  : M (list Z * sweep_acc) :=
  match marks with
  | [] => mret ([], a)
  | b :: marks' =>
      if Z.shiftr curr_sb SB_SHIFT =? Z.shiftr b SB_SHIFT then
        s ← st_get;
        let d := get_desc s curr_desc in
        if negb (CrossPtr_is_null (heap d)) && (CrossPtr_get (rgs s) SB_IDX (superblock d) =? curr_sb) then
          if desc_sc_idx s curr_desc =? 0 then
            st_assert (maxcount d =? 1);;
            sweep_marks fuel curr_sb curr_desc marks'
              (mkAcc SB_FULL (sa_count a) (sa_head a) (sa_last a))
          else
            r ← st_lift (free_run fuel (smem s) (sa_last a) b (dblock_size d) (sa_head a) (sa_count a));
            st_mod (upd_mem (λ _, r.1.1));;
            sweep_marks fuel curr_sb curr_desc marks'
              (mkAcc SB_PARTIAL r.2 r.1.2 (u64 (b + dblock_size d)))
        else sweep_marks fuel curr_sb curr_desc marks' a
      else mret (marks, a)
  end.

(** One iteration of the outer [while]: next superblock, next descriptor,
    remaining marks, head of the new free list. *)
Definition sweep_step (fuel : nat) (curr_sb curr_desc : Z) (marks : list Z) (avail_head : Z)
  : M (Z * Z * list Z * Z) :=
  x ← sweep_marks fuel curr_sb curr_desc marks (mkAcc SB_EMPTY 0 0 curr_sb);
  let marks' := x.1 in
  let a := x.2 in
  if decide (sa_state a = SB_EMPTY) then
    construct_desc curr_desc;;
    next_free_store curr_desc avail_head;;
    mret (u64 (curr_sb + SBSIZE), u64 (curr_desc + DESCSIZE), marks', curr_desc)
  else
    s ← st_get;
    let d := get_desc s curr_desc in
    if desc_sc_idx s curr_desc =? 0 then
      next_free_store curr_desc 0;;
      next_partial_store curr_desc 0;;
      st_mod (upd_desc curr_desc (with_anchor (mkAnchor 0 0 SB_FULL)));;
      let curr_sb' := u64 (curr_sb + dblock_size d) in
      mret (curr_sb', desc_lookup (rgs s) curr_sb', marks', avail_head)
    else
      r ← st_lift (free_run fuel (smem s) (sa_last a)
                     (u64 (curr_sb + u32 (maxcount d * dblock_size d))) (dblock_size d)
                     (sa_head a) (sa_count a));
      st_mod (upd_mem (λ _, r.1.1));;
      let free_blocks_head := r.1.2 in
      let cnt := r.2 in
      (if cnt =? 0 then
         next_free_store curr_desc 0;;
         next_partial_store curr_desc 0;;
         st_mod (upd_desc curr_desc (with_anchor (mkAnchor (wrap 31 (maxcount d)) 0 SB_FULL)))
       else
         st_assert (negb (free_blocks_head =? 0));;
         st_assert (u64 (free_blocks_head - curr_sb) mod dblock_size d =? 0);;
         next_free_store curr_desc 0;;
         heap_push_partial fuel curr_desc;;
         st_mod (upd_desc curr_desc (with_anchor
           (mkAnchor (wrap 31 (u64 (free_blocks_head - curr_sb) / dblock_size d)) cnt SB_PARTIAL))));;
      mret (u64 (curr_sb + SBSIZE), u64 (curr_desc + DESCSIZE), marks', avail_head).

Fixpoint sweep_loop (n fuel : nat) (sb_end curr_sb curr_desc : Z) (marks : list Z) (avail_head : Z)
  : M (list Z * Z) :=
  match n with
  | O => st_nofuel
  | S n' =>
      if curr_sb <? sb_end then
        x ← sweep_step fuel curr_sb curr_desc marks avail_head;
        sweep_loop n' fuel sb_end x.1.1.1 x.1.1.2 x.1.2 x.2
      else mret (marks, avail_head)
  end.

(** [std::set<char*>] iterates in address order. *)
Definition sorted_marks (K : gset Z) : list Z := merge_sort Z.le (elements K).

(** The loop that empties the partial lists. *)
Definition gc_reset_heaps (l : list Z) (s : state) : state :=
  foldl (λ s i, put_heap i (mkHeap 0 (sc_idx (get_heap s i))) s) s l.

Definition sweep (fuel : nat) (K : gset Z) : M unit :=
  s ← st_get;
  let curr_sb := translate (rgs s) SB_IDX SBSIZE in
  let curr_desc := desc_lookup (rgs s) curr_sb in
  let sb_end := curr_addr (rget (rgs s) SB_IDX) in
  x ← sweep_loop fuel fuel sb_end curr_sb curr_desc (sorted_marks K) 0;
  st_mod (λ s, set_avail_sb (acpc_store (rgs s) DESC_IDX (PtrCnt x.2 0)) s);;
  st_assert (bool_decide (x.1 = [])).

(** [flush_region] and the loop over [base_md], which increments the address
    before each write-back. *)
Definition flush_lines (l : list Z) : M unit := foldr (λ a k, FLUSH a;; k) (mret tt) l.

Definition flush_region (idx : nat) : M unit :=
  rg ← st_gets rgs;
  flush_lines (flush_region_lines rg idx);; FLUSHFENCE.

Definition basemeta_lines (this : Z) : list Z :=
  (λ k, u64 (this + (k + 1) * CACHELINE_SIZE)) <$> seqZ 0 (SIZEOF_BASEMETA / CACHELINE_SIZE).

(** The first statements of [operator()]: the superblock free list and the partial
    lists are emptied. *)
Definition gc_start (s : state) : state :=
  gc_reset_heaps (seqZ 0 MAX_SZ_IDX) (set_avail_sb 0 s).

(** [GarbageCollection::operator()]. *)
Definition gc_run (user_filter : nat → option (state → Z → list (Z * nat))) (fuel : nat)
    (fs : filters) : M (gset Z) :=
  st_mod gc_start;;
  s ← st_get;
  g ← st_lift (mark user_filter fuel s fs);
  sweep fuel (marked_blk g);;
  flush_region DESC_IDX;;
  flush_region SB_IDX;;
  rg ← st_gets rgs;
  flush_lines (basemeta_lines (rlookup rg META_IDX));; FLUSHFENCE;;
  mret (marked_blk g).
