(* ===== verification/Process.v ===== *)
(** * A process: initialisation, recovery, exit (src/ralloc.cpp)

    [_RP_init] maps or creates the three files of a heap, [RP_recover] calls
    [BaseMeta::restart], and the destructors at exit write everything back and
    unmap. The globals of ralloc.cpp and the dirty mutex of [BaseMeta] are added
    to the state of the allocator. *)

From Stdlib Require Import ZArith Lia.
From stdpp Require Import base gmap numbers list.
From S2P Require Import Prelude Mem Config Pptr SizeClass Region Meta TCache Heap BaseMeta Api Dirty GC.

Local Open Scope Z_scope.

(** The files of a heap ([_desc], [_sb], [_basemd]), [None] where there is none,
    and the addresses [mmap] returns for them. *)
Definition heap_files := nat → option region_file.
Definition mappings := nat → option Z.

Section Process.
Context {RM : RobustMutex}.

Record world := mkWorld {
  w_state : state;             (* mapped memory, caches, _rgs *)
  w_mtx : mutex;               (* base_md->dirty_mtx *)
  w_init : bool;               (* initialized *)
  w_holder : option Z;         (* RP_init's static _holder: init_ret_val *)
  w_filters : filters          (* roots_filter_func *)
}.

(** An operation of the allocator, and one on the mutex. *)
Definition on_state {A} (m : M A) : ST world A := λ w,
  match m (w_state w) with
  | Ok (a, s') => Ok (a, mkWorld s' (w_mtx w) (w_init w) (w_holder w) (w_filters w))
  | Fail => Fail
  | NoFuel => NoFuel
  end.

Definition on_mutex {A} (f : mutex → outcome (A * mutex)) : ST world A := λ w,
  match f (w_mtx w) with
  | Ok (a, m') => Ok (a, mkWorld (w_state w) m' (w_init w) (w_holder w) (w_filters w))
  | Fail => Fail
  | NoFuel => NoFuel
  end.

Definition set_init (b : bool) (w : world) : world :=
  mkWorld (w_state w) (w_mtx w) b (w_holder w) (w_filters w).
Definition set_holder (r : Z) (w : world) : world :=
  mkWorld (w_state w) (w_mtx w) (w_init w) (Some r) (w_filters w).

Definition w_is_dirty : ST world bool := on_mutex is_dirty.
Definition w_set_dirty : ST world unit :=
  on_mutex (λ m, match set_dirty m with Ok m' => Ok (tt, m') | Fail => Fail | NoFuel => NoFuel end).
Definition w_set_clean : ST world unit := on_mutex (λ m, Ok (tt, set_clean m)).

(** ** Creating and opening regions *)

(** The write-backs of the two mapping functions for a fresh file, and of
    [__store_heap_start]. *)
Definition map_flushes (base : Z) : M unit :=
  FLUSH base;; FLUSH (u64 (base + 16));; FLUSHFENCE.

Definition store_flushes (base : Z) : M unit :=
  FLUSH (u64 (base + 8));; FLUSHFENCE.

(** The mapping functions write a zero to the last byte of the file. Of the bytes
    of a file only those of the superblock region are in the state; in the two
    other regions no object reaches the last byte. *)
Definition last_byte (r : RegionManager) (s : state) : state :=
  if bool_decide (cur_idx (rgs s) = SB_IDX)
  then upd_mem (λ m, store8 m (base_addr r + FILESIZE r - 1) 0) s else s.

(** [new RegionManager(file_path, size, p, imm_expand)]. *)
Definition new_RegionManager (file : option region_file) (addr : option Z) (size : Z)
    (p imm_expand : bool) (t0 : Z) : M RegionManager :=
  r ← st_lift (RegionManager_ctor file addr size p imm_expand t0);
  st_mod (last_byte r);;
  (match file with
   | Some _ => mret tt
   | None =>
       idx ← st_gets (λ s, cur_idx (rgs s));
       st_mod (log (WEnd idx (to_pptr_off (u64 (base_addr r + PAGESIZE)) (base_addr r))));;
       map_flushes (base_addr r);;
       if imm_expand then expand_flushes r 1 (log (WEnd idx (rf_curr (rfile r))));; store_flushes (base_addr r)
       else mret tt
   end);;
  mret r.

(** [Regions::create]: descriptor and superblock regions. *)
Definition create (file : option region_file) (addr : option Z) (size : Z)
    (p imm_expand : bool) (t0 : Z) : M unit :=
  mgr ← new_RegionManager file addr size p imm_expand t0;
  let restart := bool_decide (is_Some file) in
  st_mod (λ s, set_rgs (next_region (put_region (rgs s) mgr)
    (if imm_expand || restart then __fetch_heap_start mgr else 0)) s).

(** [Regions::create_for<T>]: [ctor] is the constructor of [T], run at the
    address of the object when the file is new. *)
Definition create_for (file : option region_file) (addr : option Z) (size : Z) (p : bool)
    (t0 : Z) (ctor : Z → ST world unit) : ST world Z :=
  mgr ← on_state (new_RegionManager file addr size p true t0);
  on_state (st_mod (λ s, set_rgs (put_region (rgs s) mgr) s));;
  let t := __fetch_heap_start mgr in
  (if bool_decide (is_Some file) then mret tt else ctor t);;
  on_state (st_mod (λ s, set_rgs (next_region (rgs s) t) s));;
  mret t.

(** The whole constructor of [BaseMeta]: the robust mutex is initialised and
    taken first. *)
Definition BaseMeta_new (fuel : nat) (this : Z) : ST world unit :=
  on_mutex (λ _, Ok (tt, mx_init));;
  w_set_dirty;;
  on_state (FLUSH (u64 (this + 8));; FLUSH (u64 (this + 16));; BaseMeta_ctor fuel this).

(** [_RP_init(_id, size)]; [files] and [maps] are what [_id] names. *)
Definition _RP_init (fuel : nat) (files : heap_files) (maps : mappings) (t0 size : Z) : ST world Z :=
  _ ← st_lift SizeClass_ctor;
  st_assert ((size <? MAX_SB_REGION_SIZE) && (MIN_SB_REGION_SIZE <=? size));;
  let num_sb := size / SBSIZE in
  let restart := bool_decide (is_Some (files META_IDX)) in
  on_state (st_mod (set_rgs Regions_ctor));;
  on_state (create (files DESC_IDX) (maps DESC_IDX) (num_sb * DESCSIZE) true true t0);;
  on_state (create (files SB_IDX) (maps SB_IDX) (num_sb * SBSIZE) true false t0);;
  create_for (files META_IDX) (maps META_IDX) SIZEOF_BASEMETA true t0 (BaseMeta_new fuel);;
  st_mod (set_init true);;
  mret (if restart then 1 else 0).

(** [RP_init]: the static holder is constructed by the first call only. *)
Definition RP_init (fuel : nat) (files : heap_files) (maps : mappings) (t0 size : Z) : ST world Z :=
  w ← st_get;
  match w_holder w with
  | Some r => mret r
  | None =>
      r ← _RP_init fuel files maps t0 size;
      st_mod (set_holder r);;
      mret r
  end.

(** ** Recovery *)

(** [BaseMeta::restart]. *)
Definition restart (user_filter : nat → option (state → Z → list (Z * nat))) (fuel : nat)
  : ST world bool :=
  ret ← w_is_dirty;
  fs ← st_gets w_filters;
  (if ret : bool then on_state (gc_run user_filter fuel fs;; mret tt) else mret tt);;
  on_state FLUSHFENCE;;
  w_set_dirty;;
  mret ret.

Definition RP_recover (user_filter : nat → option (state → Z → list (Z * nat))) (fuel : nat)
  : ST world Z :=
  ret ← restart user_filter fuel;
  mret (if ret : bool then 1 else 0).

(** ** Roots *)

(** [RP_set_root]: initialises a default heap of 5 GiB when the library is not. *)
Definition RP_set_root (fuel : nat) (files : heap_files) (maps : mappings) (t0 : Z) (ptr i : Z)
  : ST world Z :=
  ini ← st_gets w_init;
  (if ini : bool then mret 0 else RP_init fuel files maps t0 (5 * 1024 * 1024 * 1024));;
  on_state (set_root ptr i).

(** [RP_get_root<T>] and, with [T] the type 0 of [char], [RP_get_root_c]. *)
Definition RP_get_root (T : nat) (i : Z) : ST world Z := λ w,
  if w_init w then
    match get_root T i (w_filters w) (w_state w) with
    | Ok ((p, fs), s') => Ok (p, mkWorld s' (w_mtx w) (w_init w) (w_holder w) fs)
    | Fail => Fail
    | NoFuel => NoFuel
    end
  else Fail.

Definition RP_get_root_c : Z → ST world Z := RP_get_root 0.

(** ** Exit *)

(** [BaseMeta::writeback]. *)
Definition writeback : ST world unit :=
  on_state (rg ← st_gets rgs; flush_lines (basemeta_lines (rlookup rg META_IDX)));;
  on_state FLUSHFENCE;;
  w_set_clean.

(** [delete _rgs]: every region is closed; what stays are the files. *)
Definition close_flushes (r : RegionManager) : M unit :=
  FLUSHFENCE;; FLUSH (base_addr r);; FLUSHFENCE.

Definition Regions_dtor : M (list region_file) :=
  rg ← st_gets rgs;
  let open_regions := take (cur_idx rg) (regions rg) in
  foldr (λ r k, close_flushes r;; k) (mret tt) open_regions;;
  st_mod (set_rgs (mkRegions
    (replicate (cur_idx rg) null_region ++ drop (cur_idx rg) (regions rg))
    (replicate (cur_idx rg) 0 ++ drop (cur_idx rg) (regions_address rg)) 0));;
  mret (RegionManager_dtor <$> open_regions).

(** [~RallocHolder]. *)
Definition RallocHolder_dtor : ST world (list region_file) :=
  on_state (flush_region DESC_IDX);;
  on_state (flush_region SB_IDX);;
  writeback;;
  st_mod (set_init false);;
  on_state Regions_dtor.

(** [RP_close] does nothing. *)
Definition RP_close : ST world unit := mret tt.

(** The end of a thread: [~TCaches] calls [public_flush_cache], which checks
    [initialized]. *)
Definition TCaches_dtor (fuel : nat) (t : nat) : ST world unit :=
  ini ← st_gets w_init;
  if ini : bool then on_state (public_flush_cache fuel t) else mret tt.

(** [exit] from thread [t]: its thread-local caches are destroyed before the
    static holder. *)
Definition exit_process (fuel : nat) (t : nat) : ST world (list region_file) :=
  TCaches_dtor fuel t;;
  RallocHolder_dtor.
End Process.
