(* ===== verification/Keeps.v ===== *)
(** * What no operation changes

    [keeps P m]: whenever [m] returns, [P] still holds. Everything but the end
    pointers of the regions table (addresses, sizes, heap starts) is kept by all
    operations after construction, and so is every property of the class [Preserved]:
    the proof follows the text of the definitions, through the hints of the database
    [keeps]. *)

From Stdlib Require Import ZArith Lia.
From stdpp Require Import base gmap numbers list.
From S2P Require Import Prelude Mem Config Pptr SizeClass Region Meta TCache Heap BaseMeta Refine Api GC.

Local Open Scope Z_scope.

Definition keeps {S A} (P : S → Prop) (m : ST S A) : Prop :=
  ∀ s a s', P s → m s = Ok (a, s') → P s'.

Create HintDb keeps discriminated.
#[export] Hint Constants Opaque : keeps.

Section Rules.
Context {S : Type} (P : S → Prop).

Lemma keeps_ret {A} (a : A) : keeps P (mret (M := ST S) a).
Proof. by intros s b s' H [= <- <-]. Qed.

Lemma keeps_bind {A B} (m : ST S A) (f : A → ST S B) :
  keeps P m → (∀ a, keeps P (f a)) → keeps P (m ≫= f).
Proof.
  intros Hm Hf s b s' H E. unfold mbind, st_mbind, st_bind in E.
  destruct (m s) as [[a s1]| |] eqn:Em; try done. eapply Hf; [|exact E]. by eapply Hm.
Qed.

Lemma keeps_get : keeps P (@st_get S).
Proof. by intros s b s' H [= <- <-]. Qed.

Lemma keeps_get_bind {A} (f : S → ST S A) :
  (∀ s, P s → keeps P (f s)) → keeps P (st_get ≫= f).
Proof. intros Hf s a s' H E. eapply (Hf s H); [exact H|exact E]. Qed.

Lemma keeps_gets_bind {A B} (g : S → A) (f : A → ST S B) :
  (∀ s, P s → keeps P (f (g s))) → keeps P (st_gets g ≫= f).
Proof. intros Hf s a s' H E. eapply (Hf s H); [exact H|exact E]. Qed.

Lemma keeps_gets {A} (f : S → A) : keeps P (st_gets f).
Proof. by intros s b s' H [= <- <-]. Qed.

Lemma keeps_mod (f : S → S) : (∀ s, P s → P (f s)) → keeps P (st_mod f).
Proof. intros Hf s b s' H [= <- <-]. auto. Qed.

Lemma keeps_fail {A} : keeps P (@st_fail S A).
Proof. by intros s b s' H E. Qed.

Lemma keeps_nofuel {A} : keeps P (@st_nofuel S A).
Proof. by intros s b s' H E. Qed.

Lemma keeps_assert b : keeps P (@st_assert S b).
Proof. intros s a s' H E. unfold st_assert in E. by destruct b; simplify_eq. Qed.

Lemma keeps_lift {A} (o : outcome A) : keeps P (@st_lift S A o).
Proof. intros s a s' H E. unfold st_lift in E. by destruct o; simplify_eq. Qed.
End Rules.

#[export] Hint Resolve keeps_ret keeps_get keeps_gets keeps_fail keeps_nofuel
  keeps_assert keeps_lift : keeps.

(** Follow the text: binds, case distinctions, known operations. *)
Ltac keeps_tac :=
  repeat first
    [ progress intros
    | progress cbv zeta
    | solve [auto with keeps nocore]
    | lazymatch goal with
      | |- keeps _ (mbind _ _) => apply keeps_bind
      | |- keeps _ (match ?x with _ => _ end) => destruct x
      end ].

(** Unfold an operation, then follow its text. *)
Ltac keeps_op d := intros; unfold d; keeps_tac.

(** ** The primitives

    A property of the state that the stores of the allocator preserve. The places where
    a descriptor is formatted or an end pointer moves are steps of their own: in their
    middle a property of the write-backs need not hold. *)
Class Preserved (P : state → Prop) (t : nat) : Prop := {
  pv_mem f : keeps P (st_mod (upd_mem f));
  pv_bin c v : keeps P (st_mod (put_bin t c v));
  pv_avail v : keeps P (st_mod (set_avail_sb v));
  pv_flush a : keeps P (FLUSH a);
  pv_fence : keeps P FLUSHFENCE;
  pv_desc d f : (∀ x, pers (f x) = pers x) → keeps P (st_mod (upd_desc d f));
  pv_construct d : keeps P (construct_desc d);
  pv_list c o n : keeps P (partial_list_cas c o n);
  pv_small_expand fuel : (∀ a n, keeps P (organize_sb_list fuel a n)) → keeps P (small_sb_expand fuel);
  pv_expand fuel i al sz : keeps P (expand_loop fuel i al sz);
  pv_newsb fuel c : keeps P (small_sb_alloc fuel (sb_size (get_sizeclass_by_idx c))) → keeps P (malloc_from_newsb fuel t c);
  pv_large fuel sz : (∀ sbs, keeps P (alloc_large_block fuel sbs)) → (MAX_SZ <? sz) = true → keeps P (do_malloc fuel t sz)
}.

(** ** The operations *)

Section Ops.
Context (P : state → Prop) (t : nat) {K : Preserved P t}.
Abbreviation kept m := (keeps P m).

Lemma keeps_upd_mem f : kept (st_mod (upd_mem f)).
Proof using K. apply (pv_mem (t := t)). Qed.
Lemma keeps_bin c v : kept (st_mod (put_bin t c v)).
Proof using K. apply pv_bin. Qed.
Lemma keeps_set_avail v : kept (st_mod (set_avail_sb v)).
Proof using K. apply (pv_avail (t := t)). Qed.
Lemma keeps_FLUSH a : kept (FLUSH a).
Proof using K. apply (pv_flush (t := t)). Qed.
Lemma keeps_FLUSHFENCE : kept FLUSHFENCE.
Proof using K. apply (pv_fence (t := t)). Qed.
Lemma keeps_upd_desc d f : (∀ x, pers (f x) = pers x) → kept (st_mod (upd_desc d f)).
Proof using K. apply (pv_desc (t := t)). Qed.
Lemma keeps_construct_desc d : kept (construct_desc d).
Proof using K. apply (pv_construct (t := t)). Qed.
Lemma keeps_partial_list_cas c o n : kept (partial_list_cas c o n).
Proof using K. apply (pv_list (t := t)). Qed.
Lemma keeps_expand_loop fuel i al sz : kept (expand_loop fuel i al sz).
Proof using K. apply (pv_expand (t := t)). Qed.
#[local] Hint Resolve keeps_upd_mem keeps_bin keeps_set_avail keeps_FLUSH keeps_FLUSHFENCE keeps_construct_desc
  keeps_partial_list_cas keeps_expand_loop : keeps.

Lemma keeps_next_free_store d v : kept (next_free_store d v).
Proof using K. by apply keeps_upd_desc. Qed.
Lemma keeps_next_partial_store d v : kept (next_partial_store d v).
Proof using K. by apply keeps_upd_desc. Qed.
Lemma keeps_with_anchor d a : kept (st_mod (upd_desc d (with_anchor a))).
Proof using K. by apply keeps_upd_desc. Qed.
#[local] Hint Resolve keeps_next_free_store keeps_next_partial_store keeps_with_anchor : keeps.

Lemma keeps_push_block c b : kept (push_block t c b).
Proof. keeps_op push_block. Qed.
Lemma keeps_push_list c b n : kept (push_list t c b n).
Proof. keeps_op push_list. Qed.
Lemma keeps_pop_block c : kept (pop_block t c).
Proof. keeps_op pop_block. Qed.
Lemma keeps_pop_list c b n : kept (pop_list t c b n).
Proof. keeps_op pop_list. Qed.
Lemma keeps_avail_sb_cas o n : kept (avail_sb_cas o n).
Proof. keeps_op avail_sb_cas. Qed.
Lemma keeps_anchor_cas d o n : kept (anchor_cas d o n).
Proof. keeps_op anchor_cas. Qed.
#[local] Hint Resolve keeps_push_block keeps_push_list keeps_pop_block keeps_pop_list
  keeps_avail_sb_cas keeps_anchor_cas : keeps.

Lemma keeps_avail_push_loop fuel f l o : kept (avail_push_loop fuel f l o).
Proof. revert o. induction fuel as [|fuel IH]; intros o; cbn [avail_push_loop]; keeps_tac. Qed.
Lemma keeps_organize_loop n d : kept (organize_loop n d).
Proof. revert d. induction n as [|n IH]; intros d; cbn [organize_loop]; keeps_tac. Qed.
#[local] Hint Resolve keeps_avail_push_loop keeps_organize_loop : keeps.

Lemma keeps_organize_sb_list fuel a n : kept (organize_sb_list fuel a n).
Proof. keeps_op organize_sb_list. Qed.
Lemma keeps_small_sb_retire fuel a n : kept (small_sb_retire fuel a n).
Proof. keeps_op small_sb_retire. Qed.
Lemma keeps_small_sb_expand fuel : kept (small_sb_expand fuel).
Proof. apply (pv_small_expand (t := t)). apply keeps_organize_sb_list. Qed.
#[local] Hint Resolve keeps_organize_sb_list keeps_small_sb_retire keeps_small_sb_expand : keeps.

Lemma keeps_small_sb_alloc_loop fuel o : kept (small_sb_alloc_loop fuel o).
Proof. revert o. induction fuel as [|fuel IH]; intros o; cbn [small_sb_alloc_loop]; keeps_tac. Qed.
#[local] Hint Resolve keeps_small_sb_alloc_loop : keeps.

Lemma keeps_small_sb_alloc fuel sz : kept (small_sb_alloc fuel sz).
Proof. keeps_op small_sb_alloc. Qed.
Lemma keeps_alloc_large_block fuel sz : kept (alloc_large_block fuel sz).
Proof. intros. unfold alloc_large_block, large_sb_alloc, expand_get_large_sb. keeps_tac. Qed.
Lemma keeps_large_sb_retire fuel a sz : kept (large_sb_retire fuel a sz).
Proof. keeps_op large_sb_retire. Qed.
Lemma keeps_push_partial_loop fuel c d o : kept (push_partial_loop fuel c d o).
Proof. revert o. induction fuel as [|fuel IH]; intros o; cbn [push_partial_loop]; keeps_tac. Qed.
Lemma keeps_pop_partial_loop fuel c o : kept (pop_partial_loop fuel c o).
Proof. revert o. induction fuel as [|fuel IH]; intros o; cbn [pop_partial_loop]; keeps_tac. Qed.
Lemma keeps_reserve_loop fuel d a c m o : kept (reserve_loop fuel d a c m o).
Proof. revert o. induction fuel as [|fuel IH]; intros o; cbn [reserve_loop]; keeps_tac. Qed.
#[local] Hint Resolve keeps_small_sb_alloc keeps_alloc_large_block keeps_large_sb_retire
  keeps_push_partial_loop keeps_pop_partial_loop keeps_reserve_loop : keeps.

Lemma keeps_heap_push_partial fuel d : kept (heap_push_partial fuel d).
Proof. keeps_op heap_push_partial. Qed.
Lemma keeps_heap_pop_partial fuel c : kept (heap_pop_partial fuel c).
Proof. keeps_op heap_pop_partial. Qed.
#[local] Hint Resolve keeps_heap_push_partial keeps_heap_pop_partial : keeps.

Lemma keeps_malloc_from_partial fuel c : kept (malloc_from_partial fuel t c).
Proof. induction fuel as [|fuel IH]; cbn [malloc_from_partial]; keeps_tac. Qed.
Lemma keeps_malloc_from_newsb fuel c : kept (malloc_from_newsb fuel t c).
Proof. apply pv_newsb. apply keeps_small_sb_alloc. Qed.
#[local] Hint Resolve keeps_malloc_from_partial keeps_malloc_from_newsb : keeps.

Lemma keeps_fill_cache fuel c : kept (fill_cache fuel t c).
Proof. keeps_op fill_cache. Qed.
Lemma keeps_flush_anchor_loop fuel d a b tl i n o : kept (flush_anchor_loop fuel d a b tl i n o).
Proof. revert o. induction fuel as [|fuel IH]; intros o; cbn [flush_anchor_loop]; keeps_tac. Qed.
#[local] Hint Resolve keeps_fill_cache keeps_flush_anchor_loop : keeps.

Lemma keeps_flush_cache_step fuel c : kept (flush_cache_step fuel t c).
Proof. keeps_op flush_cache_step. Qed.
#[local] Hint Resolve keeps_flush_cache_step : keeps.
Lemma keeps_flush_cache fuel c : kept (flush_cache fuel t c).
Proof.
  unfold flush_cache. generalize fuel at 1. intros n.
  induction n as [|n IH]; cbn [flush_cache_loop]; keeps_tac.
Qed.
#[local] Hint Resolve keeps_flush_cache : keeps.

Lemma keeps_public_flush_cache fuel : kept (public_flush_cache fuel t).
Proof. unfold public_flush_cache. induction (seqZ _ _) as [|c l IH]; cbn [foldr]; keeps_tac. Qed.
Lemma keeps_do_malloc fuel sz : kept (do_malloc fuel t sz).
Proof.
  destruct (MAX_SZ <? sz) eqn:E; [apply pv_large; [apply keeps_alloc_large_block|done]|].
  unfold do_malloc. rewrite E. keeps_tac.
Qed.
Lemma keeps_do_free fuel p : kept (do_free fuel t p).
Proof. keeps_op do_free. Qed.
End Ops.

(** ** The fixed part of the regions *)

Definition fixed (r : RegionManager) : Z * Z * Z * Z * bool :=
  (FILESIZE r, base_addr r, rf_heap_start (rfile r), rf_size (rfile r), persist r).

Definition fixed_regs (rg : Regions) : list (Z * Z * Z * Z * bool) * list Z * nat :=
  (fixed <$> regions rg, regions_address rg, cur_idx rg).

Lemma fixed_rget rg rg' i : fixed_regs rg = fixed_regs rg' → fixed (rget rg i) = fixed (rget rg' i).
Proof.
  intros [= E _ _]. unfold rget. rewrite <- !(map_nth fixed). f_equal. exact E.
Qed.

(** Moving an end pointer changes nothing fixed. *)
Lemma fixed_rput rg i r raw :
  fixed r = fixed (rget rg i) → fixed_regs (rput rg i (set_curr r raw)) = fixed_regs rg.
Proof.
  intros Hr. unfold fixed_regs, rput. cbn [regions regions_address cur_idx]. f_equal. f_equal.
  rewrite list_fmap_insert. change (fixed (set_curr r raw)) with (fixed r). rewrite Hr. unfold rget.
  destruct (regions rg !! i) as [x|] eqn:Hx.
  - rewrite (nth_lookup_Some _ _ _ _ Hx). apply list_insert_id.
    rewrite list_lookup_fmap, Hx. done.
  - apply list_insert_ge. rewrite length_fmap. by apply lookup_ge_None.
Qed.

(** The fixed part is [F], and the caches of the threads other than [t] are [C]. *)
Section Fixed.
Context (F : list (Z * Z * Z * Z * bool) * list Z * nat) (t : nat) (C : gmap (nat * Z) TCacheBin).

Definition static (s : state) : Prop :=
  fixed_regs (rgs s) = F ∧ ∀ t' c, t' ≠ t → t_caches s !! (t', c) = C !! (t', c).

Lemma keeps_fields (f : state → state) :
  (∀ s, rgs (f s) = rgs s) → (∀ s, t_caches (f s) = t_caches s) → keeps static (st_mod f).
Proof. intros Hf Hc. apply keeps_mod. intros s. unfold static. by rewrite Hf, Hc. Qed.

Lemma keeps_put_bin c v : keeps static (st_mod (put_bin t c v)).
Proof.
  apply keeps_mod. intros s [H1 H2]. split; [exact H1|]. intros t' c' Hne.
  cbn [put_bin upd_caches t_caches]. rewrite lookup_insert_ne by congruence. by apply H2.
Qed.

Lemma keeps_curr i r raw s0 :
  static s0 → fixed r = fixed (rget (rgs s0) i) →
  keeps static (st_mod (λ s, put_end i (rput (rgs s) i (set_curr r raw)) s)).
Proof.
  intros [H0 _] Hr. apply keeps_mod. intros s [H HC]. split; [|exact HC]. cbn [rgs set_rgs put_end log].
  rewrite fixed_rput; [done|]. rewrite Hr. apply fixed_rget. congruence.
Qed.
#[local] Hint Extern 1 (keeps static (st_mod _)) => (apply keeps_fields; done) : keeps.
#[local] Hint Resolve keeps_put_bin : keeps.

Lemma static_flush a : keeps static (FLUSH a).
Proof. keeps_op FLUSH. Qed.
Lemma static_fence : keeps static FLUSHFENCE.
Proof. keeps_op FLUSHFENCE. Qed.
#[local] Hint Resolve static_flush static_fence : keeps.

Lemma static_construct d : keeps static (construct_desc d).
Proof. keeps_op construct_desc. Qed.
Lemma static_list c o n : keeps static (partial_list_cas c o n).
Proof. keeps_op partial_list_cas. Qed.
#[local] Hint Resolve static_construct static_list : keeps.

Lemma static_small_expand fuel :
  (∀ a n, keeps static (organize_sb_list fuel a n)) → keeps static (small_sb_expand fuel).
Proof.
  intros Ho. unfold small_sb_expand. apply keeps_get_bind. intros s H. cbv zeta.
  destruct (negb _); [keeps_tac|]. do 3 (apply keeps_bind; [auto with keeps|intros _]).
  destruct (atomic_pptr_cas _ _ _ _) as [[ok raw] cur].
  apply keeps_bind; [by apply (keeps_curr SB_IDX _ raw s)|]. intros _. keeps_tac.
Qed.

Lemma static_expand fuel i al sz : keeps static (expand_loop fuel i al sz).
Proof.
  induction fuel as [|fuel IH]; cbn [expand_loop]; [keeps_tac|].
  apply keeps_gets_bind. intros s H. unfold expand.
  destruct (__nvm_region_allocator _ _ _ _) as [[code o] raw].
  apply keeps_bind; [|intros _; keeps_tac]. unfold expand_flushes. destruct (_ =? _); [keeps_tac|].
  do 2 (apply keeps_bind; [auto with keeps|intros _]). apply keeps_bind; [|intros _; keeps_tac].
  apply keeps_mod. intros s1 [_ HC]. split; [|exact HC]. cbn [rgs set_rgs put_end log]. destruct H as [<- _].
  by rewrite fixed_rput.
Qed.

#[export] Instance static_preserved : Preserved static t.
Proof.
  constructor; intros.
  - auto with keeps.
  - apply keeps_put_bin.
  - auto with keeps.
  - apply static_flush.
  - apply static_fence.
  - auto with keeps.
  - apply static_construct.
  - apply static_list.
  - by apply static_small_expand.
  - apply static_expand.
  - unfold malloc_from_newsb, push_list. keeps_tac.
  - unfold do_malloc, FLUSH_LOCAL. rewrite H0. keeps_tac.
Qed.

Lemma static_set_root p i : keeps static (set_root p i).
Proof. keeps_op set_root. Qed.
End Fixed.

(** ** Emptying the caches leaves the table of regions alone *)
Section SameRegions.
Context (R : Regions).

Definition same_rgs (s : state) : Prop := rgs s = R.

Lemma same_fields (f : state → state) : (∀ s, rgs (f s) = rgs s) → keeps same_rgs (st_mod f).
Proof. intros Hf. apply keeps_mod. intros s. unfold same_rgs. by rewrite Hf. Qed.
#[local] Hint Extern 1 (keeps same_rgs (st_mod _)) => (apply same_fields; done) : keeps.

Lemma same_avail_push fuel f l o : keeps same_rgs (avail_push_loop fuel f l o).
Proof.
  revert o. induction fuel as [|fuel IH]; intros o; cbn [avail_push_loop]; [keeps_tac|].
  unfold avail_sb_cas, next_free_store, FLUSH. keeps_tac.
Qed.
Lemma same_anchor_loop fuel d a b tl i n o : keeps same_rgs (flush_anchor_loop fuel d a b tl i n o).
Proof.
  revert o. induction fuel as [|fuel IH]; intros o; cbn [flush_anchor_loop]; [keeps_tac|].
  unfold anchor_cas. keeps_tac.
Qed.
Lemma same_push_partial fuel c d o : keeps same_rgs (push_partial_loop fuel c d o).
Proof.
  revert o. induction fuel as [|fuel IH]; intros o; cbn [push_partial_loop]; [keeps_tac|].
  unfold partial_list_cas, next_partial_store. keeps_tac.
Qed.
#[local] Hint Resolve same_avail_push same_anchor_loop same_push_partial : keeps.

Lemma same_construct d : keeps same_rgs (construct_desc d).
Proof. unfold construct_desc, FLUSH, FLUSHFENCE. keeps_tac. Qed.
#[local] Hint Resolve same_construct : keeps.

Lemma same_flush_step fuel t c : keeps same_rgs (flush_cache_step fuel t c).
Proof.
  unfold flush_cache_step, pop_list, small_sb_retire, heap_push_partial. keeps_tac.
Qed.
#[local] Hint Resolve same_flush_step : keeps.

Lemma same_flush_loop n fuel t c : keeps same_rgs (flush_cache_loop n fuel t c).
Proof. induction n as [|n IH]; cbn [flush_cache_loop]; keeps_tac. Qed.
#[local] Hint Resolve same_flush_loop : keeps.

Lemma same_public_flush fuel t : keeps same_rgs (public_flush_cache fuel t).
Proof.
  unfold public_flush_cache, flush_cache. induction (seqZ _ _) as [|c l IH]; cbn [foldr]; keeps_tac.
Qed.
End SameRegions.
