(* ===== verification/GCMark.v ===== *)
(** * The mark phase computes reachability *)

From Stdlib Require Import ZArith Lia.
From stdpp Require Import base gmap numbers list.
From S2P Require Import Prelude Mem Config Pptr SizeClass Region Meta Refine Api GC.

Local Open Scope Z_scope.
#[local] Set Warnings "-clear-no-such-hyp".

Section MarkSpec.
Context (user_filter : nat → option (state → Z → list (Z * nat))).
Context (s : state) (fs : filters).

(** Reachable addresses, with the type they are reached at. *)
Inductive reach : Z → nat → Prop :=
| reach_root i T :
    0 ≤ i < MAX_ROOTS → CrossPtr_is_null (get_root_raw s i) = false → fs !! i = Some T →
    in_range (rgs s) SB_IDX (CrossPtr_get (rgs s) SB_IDX (get_root_raw s i)) = true →
    reach (CrossPtr_get (rgs s) SB_IDX (get_root_raw s i)) T
| reach_step a T b U :
    reach a T → (b, U) ∈ filter_func user_filter s T a → in_range (rgs s) SB_IDX b = true →
    reach b U.

(** Number of addresses in range. *)
Definition range_size : nat :=
  Z.to_nat (curr_addr (rget (rgs s) SB_IDX) - rlookup (rgs s) SB_IDX).

Lemma range_bound (X : gset Z) :
  (∀ a, a ∈ X → in_range (rgs s) SB_IDX a = true) → (size X ≤ range_size)%nat.
Proof.
  intros HX. set (sb := rlookup (rgs s) SB_IDX) in *.
  assert (X ⊆ list_to_set (seqZ sb (Z.of_nat range_size))) as Hs%subseteq_size.
  { intros a Ha. apply HX in Ha. unfold in_range in Ha. fold sb in Ha.
    destruct (Z.leb_spec sb a); [|done]. apply Z.ltb_lt in Ha.
    apply elem_of_list_to_set, elem_of_seqZ. unfold range_size. fold sb. lia. }
  rewrite size_list_to_set in Hs by apply NoDup_seqZ. rewrite length_seqZ in Hs. lia.
Qed.

(** What holds of the marked set and the stack: everything marked is reachable,
    in range, and its targets ([done] for nodes no longer on the stack) are
    marked. *)
Record mark_inv (g : gc) : Prop := {
  mi_reach : ∀ a, a ∈ marked_blk g → ∃ T, reach a T;
  mi_range : ∀ a, a ∈ marked_blk g → in_range (rgs s) SB_IDX a = true;
  mi_stack : ∀ a T, (a, T) ∈ to_filter g → a ∈ marked_blk g ∧ reach a T
}.

(** The targets of [a] seen as a [T] are marked. *)
Definition closed_at (g : gc) (a : Z) (T : nat) : Prop :=
  ∀ b U, (b, U) ∈ filter_func user_filter s T a → in_range (rgs s) SB_IDX b = true →
  b ∈ marked_blk g.

(** Every marked address was pushed with some type, and is on the stack or
    closed at that type. *)
Definition mark_closed (g : gc) : Prop :=
  ∀ a, a ∈ marked_blk g → ∃ T, reach a T ∧ ((a, T) ∈ to_filter g ∨ closed_at g a T).

Definition measure (g : gc) : nat :=
  (range_size - size (marked_blk g) + length (to_filter g))%nat.

Lemma mark_func_spec T a g :
  mark_inv g → reach a T ∨ in_range (rgs s) SB_IDX a = false →
  let g' := mark_func s T a g in
  mark_inv g' ∧ measure g' = measure g ∧ marked_blk g ⊆ marked_blk g' ∧
  (in_range (rgs s) SB_IDX a = true → a ∈ marked_blk g') ∧
  (∀ x, x ∈ to_filter g → x ∈ to_filter g') ∧
  (∀ b, b ∈ marked_blk g' → b ∈ marked_blk g ∨ reach b T ∧ (b, T) ∈ to_filter g').
Proof.
  intros H Hr. unfold mark_func. destruct (in_range (rgs s) SB_IDX a) eqn:Ein; cbn [negb].
  2:{ split_and!; try done. auto. }
  destruct Hr as [Hr|]; [|done]. case_decide as Ha.
  { split_and!; try done. auto. }
  destruct H as [H1 H2 H3].
  assert (∀ b, b ∈ {[a]} ∪ marked_blk g → in_range (rgs s) SB_IDX b = true) as Hin.
  { intros b [->%elem_of_singleton|Hb]%elem_of_union; auto. }
  split_and!; cbn.
  - constructor; cbn; [|done|].
    + intros b [->%elem_of_singleton|Hb]%elem_of_union; eauto.
    + intros b U [[= -> ->]|Hb]%elem_of_cons; [split; [set_solver|done]|].
      apply H3 in Hb. split; [set_solver|apply Hb].
  - apply range_bound in Hin. unfold measure. cbn.
    rewrite size_union, size_singleton in * by set_solver. lia.
  - set_solver.
  - set_solver.
  - intros x Hx. by right.
  - intros b [->%elem_of_singleton|Hb]%elem_of_union; [right|by left]. split; [done|left].
Qed.

Lemma mark_all_spec l g :
  mark_inv g → (∀ b U, (b, U) ∈ l → reach b U ∨ in_range (rgs s) SB_IDX b = false) →
  let g' := mark_all s l g in
  mark_inv g' ∧ measure g' = measure g ∧ marked_blk g ⊆ marked_blk g' ∧
  (∀ b U, (b, U) ∈ l → in_range (rgs s) SB_IDX b = true → b ∈ marked_blk g') ∧
  (∀ x, x ∈ to_filter g → x ∈ to_filter g') ∧
  (∀ b, b ∈ marked_blk g' → b ∈ marked_blk g ∨ ∃ U, reach b U ∧ (b, U) ∈ to_filter g').
Proof.
  revert g. induction l as [|[a T] l IH]; intros g H Hl; cbn [mark_all foldl].
  - split_and!; try done; [set_solver|auto].
  - change (foldl _ _ l) with (mark_all s l (mark_func s T a g)).
    destruct (mark_func_spec T a g H) as (H1 & Em & Hs & Ha & Hst & Hnew); [apply Hl; left|].
    destruct (IH (mark_func s T a g) H1) as (H2 & Em' & Hs' & Ha' & Hst' & Hnew').
    { intros b U Hb. apply Hl. by right. }
    split_and!; try done.
    + by rewrite Em'.
    + set_solver.
    + intros b U [[= -> ->]|Hb]%elem_of_cons Hi; [|by eapply Ha']. apply Hs'. by apply Ha.
    + auto.
    + intros b Hb. destruct (Hnew' b Hb) as [Hb'|?]; [|auto].
      destruct (Hnew b Hb') as [?|[? ?]]; eauto 6.
Qed.

(** Each iteration of the loop decreases the measure. *)
Lemma mark_loop_spec fuel g :
  (measure g < fuel)%nat → mark_inv g → mark_closed g →
  ∃ g', mark_loop user_filter fuel s g = Ok g' ∧ to_filter g' = [] ∧ mark_inv g' ∧
    mark_closed g' ∧ marked_blk g ⊆ marked_blk g'.
Proof.
  revert g. induction fuel as [|fuel IH]; intros g Hf H Hc; [lia|]. cbn [mark_loop].
  destruct (to_filter g) as [|[a T] rest] eqn:Est; [by exists g|].
  assert (reach a T) as Hra by (apply (mi_stack _ H); rewrite Est; left).
  destruct (mark_all_spec (filter_func user_filter s T a) (mkGc (marked_blk g) rest))
    as (H1 & Em & Hs & Ha & Hst & Hnew).
  { destruct H as [H1 H2 H3]. constructor; cbn; [done|done|]. intros b U Hb. apply H3.
    rewrite Est. by right. }
  { intros b U Hb. destruct (in_range (rgs s) SB_IDX b) eqn:E; [left|by right].
    by eapply reach_step. }
  destruct (IH (mark_all s (filter_func user_filter s T a) (mkGc (marked_blk g) rest)))
    as (g' & Er & En & H2 & Hc2 & Hs2).
  - rewrite Em. unfold measure in *. cbn [marked_blk to_filter]. rewrite Est in Hf. cbn in Hf. lia.
  - done.
  - intros b Hb. destruct (Hnew b Hb) as [Hb'|(U & Hr & Hu)]; [|eauto]. cbn in Hb'.
    destruct (Hc b Hb') as (U & Hr & Hcb). exists U. split; [done|].
    destruct Hcb as [Hin|Hcl].
    + rewrite Est in Hin. apply elem_of_cons in Hin as [[= -> ->]|Hin]; [right|left; auto].
      intros b' V Hb'' Hi. by eapply Ha.
    + right. intros b' V Hb'' Hi. apply Hs. cbn. by eapply Hcl.
  - exists g'. split_and!; try done. set_solver.
Qed.

Lemma mark_roots_spec l g :
  mark_inv g → mark_closed g → (∀ i, i ∈ l → 0 ≤ i < MAX_ROOTS) →
  (∀ i, i ∈ l → CrossPtr_is_null (get_root_raw s i) = false → is_Some (fs !! i)) →
  ∃ g', mark_roots s fs l g = Ok g' ∧ mark_inv g' ∧ mark_closed g' ∧ measure g' = measure g ∧
    marked_blk g ⊆ marked_blk g' ∧
    (∀ i, i ∈ l → CrossPtr_is_null (get_root_raw s i) = false →
      in_range (rgs s) SB_IDX (CrossPtr_get (rgs s) SB_IDX (get_root_raw s i)) = true →
      CrossPtr_get (rgs s) SB_IDX (get_root_raw s i) ∈ marked_blk g').
Proof.
  revert g. induction l as [|i l IH]; intros g H Hc Hl Hfs; cbn [mark_roots].
  { exists g. split_and!; try done. intros i Hi. set_solver. }
  destruct (CrossPtr_is_null (get_root_raw s i)) eqn:En; cbn [negb].
  - destruct (IH g H Hc) as (g' & Er & H1 & Hc1 & Em & Hs & Hm); [set_solver..|].
    exists g'. split_and!; try done. intros j [->|Hj]%elem_of_cons; [congruence|auto].
  - destruct (Hfs i) as [T ET]; [left|done|]. rewrite ET.
    set (a := CrossPtr_get (rgs s) SB_IDX (get_root_raw s i)) in *.
    destruct (mark_func_spec T a g H) as (H1 & Em & Hs & Ha & Hst & Hnew).
    { destruct (in_range (rgs s) SB_IDX a) eqn:E; [left|by right]. apply reach_root; try done.
      apply Hl. left. }
    destruct (IH (mark_func s T a g) H1) as (g' & Er & H2 & Hc2 & Em2 & Hs2 & Hm2); [|set_solver..|].
    { intros b Hb. destruct (Hnew b Hb) as [Hb'|[? ?]]; [|eauto].
      destruct (Hc b Hb') as (U & Hr & [Hin|Hcl]); exists U; (split; [done|]); [auto|].
      right. intros b' V Hb'' Hi. apply Hs. by eapply Hcl. }
    exists g'. split_and!; try done; [congruence|set_solver|].
    intros j [->|Hj]%elem_of_cons Hn Hi; [|auto]. apply Hs2. by apply Ha.
Qed.

Lemma mark_ok fuel :
  (range_size < fuel)%nat →
  (∀ i, 0 ≤ i < MAX_ROOTS → CrossPtr_is_null (get_root_raw s i) = false → is_Some (fs !! i)) →
  ∃ g, mark user_filter fuel s fs = Ok g ∧ to_filter g = [] ∧ mark_inv g ∧ mark_closed g ∧
    (∀ i, 0 ≤ i < MAX_ROOTS → CrossPtr_is_null (get_root_raw s i) = false →
      in_range (rgs s) SB_IDX (CrossPtr_get (rgs s) SB_IDX (get_root_raw s i)) = true →
      CrossPtr_get (rgs s) SB_IDX (get_root_raw s i) ∈ marked_blk g).
Proof.
  intros Hf Hfs. unfold mark.
  destruct (mark_roots_spec (seqZ 0 MAX_ROOTS) gc_init) as (g1 & -> & H1 & Hc1 & Em & _ & Hm).
  - constructor; cbn; set_solver.
  - intros a. cbn. set_solver.
  - intros i Hi. apply elem_of_seqZ in Hi. lia.
  - intros i Hi. apply elem_of_seqZ in Hi. apply Hfs. lia.
  - destruct (mark_loop_spec fuel g1) as (g2 & -> & En & H2 & Hc2 & Hs); [|done..|].
    { rewrite Em. unfold measure, gc_init. cbn. lia. }
    exists g2. split_and!; try done. intros i Hi Hn Hr. apply Hs, Hm; [|done..].
    apply elem_of_seqZ. lia.
Qed.

(** The set computed by [mark]: made of reachable addresses, containing the
    roots, and closed under the targets of each member at a type at which it is
    reachable. *)
Record marked_set (K : gset Z) : Prop := {
  mk_reach : ∀ a, a ∈ K → ∃ T, reach a T;
  mk_range : ∀ a, a ∈ K → in_range (rgs s) SB_IDX a = true;
  mk_roots : ∀ i, 0 ≤ i < MAX_ROOTS → CrossPtr_is_null (get_root_raw s i) = false →
    in_range (rgs s) SB_IDX (CrossPtr_get (rgs s) SB_IDX (get_root_raw s i)) = true →
    CrossPtr_get (rgs s) SB_IDX (get_root_raw s i) ∈ K;
  mk_closed : ∀ a, a ∈ K → ∃ T, reach a T ∧ ∀ b U,
    (b, U) ∈ filter_func user_filter s T a → in_range (rgs s) SB_IDX b = true → b ∈ K
}.

Lemma mark_set fuel :
  (range_size < fuel)%nat →
  (∀ i, 0 ≤ i < MAX_ROOTS → CrossPtr_is_null (get_root_raw s i) = false → is_Some (fs !! i)) →
  ∃ g, mark user_filter fuel s fs = Ok g ∧ marked_set (marked_blk g).
Proof.
  intros Hf Hfs. destruct (mark_ok fuel Hf Hfs) as (g & E & En & [H1 H2 H3] & Hc & Hr).
  exists g. split; [done|]. constructor; try done.
  intros a Ha. destruct (Hc a Ha) as (T & HT & [Hin|Hcl]); [rewrite En in Hin; set_solver|].
  exists T. split; [done|]. exact Hcl.
Qed.

(** When no address is reachable at two types, it is the reachable set. *)
Lemma marked_set_exact K :
  marked_set K → (∀ a T U, reach a T → reach a U → T = U) → ∀ a, a ∈ K ↔ ∃ T, reach a T.
Proof.
  intros [H1 H2 H3 H4] Huniq a. split; [apply H1|]. intros [T Hr].
  induction Hr as [i T Hi Hn Ef Hin|a T b U Hr IH Hb Hin]; [by apply H3|].
  destruct (H4 a IH) as (T' & Hr' & Hcl). rewrite (Huniq a T T' Hr Hr') in Hb. by eapply Hcl.
Qed.
End MarkSpec.
