(* ===== verification/GCSweep.v ===== *)
(** * The sweep phase rebuilds the heap

    From persisted descriptors and a set of marked blocks, [sweep] establishes the
    heap invariant with exactly the marked blocks in the hands of the program. *)

From Stdlib Require Import ZArith Lia.
From stdpp Require Import base gmap numbers functions list sorting.
From S2P Require Import Prelude Mem Config Pptr SizeClass Region Meta MetaFacts TCache Heap BaseMeta Inv Ghost Rep Trans SbSpec CacheSpec FlushSpec AllocSpec Refine Api GC.

Local Open Scope Z_scope.
#[local] Set Warnings "-clear-no-such-hyp".

(** ** Ghost transitions of the sweep *)

(** A held superblock becomes free. *)
Definition gh_release (i : Z) (g : ghost) : ghost :=
  mkGhost (g_n g) (<[i := KFree]> (g_kind g)) (g_own g) (i :: g_avail g) (g_part g) (g_cache g).

(** A held superblock is found in use for class [c], with free list [fl]. *)
Definition gh_carve (sb i c : Z) (fl : list Z) (g : ghost) : ghost :=
  mkGhost (g_n g) (<[i := KSmall c fl false]> (g_kind g))
    (mset OFree fl (mset OLive (blocks sb i c) (g_own g))) (g_avail g) (g_part g) (g_cache g).

Section SweepGhost.
Context (sb : Z).

Lemma gh_release_wf g i : gwf sb g → g_kind g !! i = Some KHeld → gwf sb (gh_release i g).
Proof using.
  intros H Hi. assert (i ∉ g_avail g) as Hni.
  { intros Ha. apply (gw_avail _ _ H) in Ha. congruence. }
  apply gwf_kinds; [done|..].
  - intros j c fl lk. gsplit; naive_solver.
  - intros j. gsplit; [|apply (gw_dom _ _ H)]. rewrite <- (gw_dom _ _ H), Hi. split; eauto.
  - apply NoDup_cons. split; [done|apply (gw_avail_nd _ _ H)].
  - intros j. rewrite elem_of_cons, (gw_avail _ _ H). gsplit; naive_solver.
  - intros j k Hj. gsplit. destruct (gw_large _ _ H _ _ Hj) as (?&?&?&Ht).
    repeat split; try done. intros j' Hj'. gsplit; [|by apply Ht]. by rewrite Ht in Hi.
Qed.

Lemma gh_carve_wf g i c fl :
  gwf sb g → g_kind g !! i = Some KHeld → 1 ≤ c < MAX_SZ_IDX →
  NoDup fl → (∀ b, b ∈ fl → b ∈ blocks sb i c) → gwf sb (gh_carve sb i c fl g).
Proof using.
  intros H Hi Hc Hnd Hsub.
  destruct (kinds_to_small sb g i c fl false KHeld H Hi) as (K1 & K2 & K3 & K4); try done.
  assert (∀ b, b ∈ blocks sb i c → g_own g !! b = None) as Hnone
    by (intros b; by apply (own_None sb g i c KHeld)).
  assert (∀ j c' fl' lk b, g_kind g !! j = Some (KSmall c' fl' lk) → b ∈ blocks sb i c →
            b ∈ blocks sb j c' → False) as Hdis.
  { intros j c' fl' lk b Hj Hb Hb'. assert (i = j) as ->; [|congruence].
    apply (blocks_same sb i j c c' b); try done. apply (gw_cls _ _ H _ _ _ _ Hj). }
  unfold gh_carve. gwf_start H; try done.
  - intros c' j. rewrite Wpart. gsplit; naive_solver.
  - intros b. gsplit.
    + split; [|eauto]. intros _. exists i, c, fl, false. gsplit. split; [done|by apply Hsub].
    + split; [|eauto]. intros _. exists i, c, fl, false. gsplit; done.
    + rewrite Wown. split; intros (j & c' & fl' & lk & Hj & Hb).
      * exists j, c', fl', lk. gsplit; done.
      * gsplit; [done|]. eauto 10.
  - intros j c' fl' lk Hj. gsplit; [done|eauto].
  - intros j c' fl' lk Hj b. gsplit; try naive_solver; try (by eapply Wfl);
      (split; [|naive_solver]); intros Hb; apply (Wfl _ _ _ _ Hj) in Hb as [_ Hb];
      exfalso; eauto.
  - intros t' c' b. rewrite Wcache. gsplit;
      [split; [|naive_solver]; intros [Ho _]; rewrite Hnone in Ho by auto; done..|].
    f_equiv. split; intros (j & fl' & lk & Hj & Hb).
    + exists j, fl', lk. gsplit; done.
    + gsplit; try done. eauto 10.
Qed.

Lemma live_release g i :
  gwf sb g → g_kind g !! i = Some KHeld → ∀ p z, live sb (gh_release i g) p z ↔ live sb g p z.
Proof using.
  intros H Hi. apply live_same; cbn; [done| |].
  - intros i' c' p _ _. gsplit; naive_solver.
  - apply large_insert; naive_solver.
Qed.

Lemma live_carve g i c fl :
  gwf sb g → g_kind g !! i = Some KHeld → 1 ≤ c < MAX_SZ_IDX →
  (∀ b, b ∈ fl → b ∈ blocks sb i c) → ∀ p z,
  live sb (gh_carve sb i c fl g) p z ↔
    live sb g p z ∨ (p ∈ blocks sb i c ∧ (p ∉ fl) ∧ z = bs c).
Proof using.
  intros H Hi Hc Hsub p z.
  assert (∀ j c' fl' lk b, g_kind g !! j = Some (KSmall c' fl' lk) → b ∈ blocks sb i c →
            b ∈ blocks sb j c' → False) as Hdis.
  { intros j c' fl' lk b Hj Hb Hb'. assert (i = j) as ->; [|congruence].
    apply (blocks_same sb i j c c' b); try done. apply (gw_cls _ _ H _ _ _ _ Hj). }
  unfold live, gh_carve. cbn. split.
  - intros [(j & c' & fl' & lk & Hj & Hb & Ho & ->)|(j & k & Hj & -> & ->)]; gsplit;
      try (by right); try (by exfalso; eauto); left; eauto 10.
  - intros [[(j & c' & fl' & lk & Hj & Hb & Ho & ->)|(j & k & Hj & -> & ->)]|(Hb & Hn & ->)].
    + left. exists j, c', fl', lk. gsplit; try done; exfalso; eauto.
    + right. exists j, k. gsplit; done.
    + left. exists i, c, fl, false. gsplit; done.
Qed.
End SweepGhost.

(** ** The free list of one superblock *)

Section Carve.
Context (db sb mb : Z) (HG : geom db sb mb) (K : gset Z).
Context (i c : Z) (Hi : 0 < i < MAX_DESC_AMOUNT) (Hc : 1 ≤ c < MAX_SZ_IDX).

(** The unmarked blocks below index [j], last one first. *)
Definition unmarked (j : Z) : list Z :=
  reverse (filter (λ b, b ∉ K) (blk sb i c <$> seqZ 0 j)).

Lemma unmarked_S j :
  0 ≤ j → unmarked (j + 1) =
    if decide (blk sb i c j ∈ K) then unmarked j else blk sb i c j :: unmarked j.
Proof using.
  intros Hj. unfold unmarked. rewrite seqZ_S, fmap_app, filter_app, reverse_app by done.
  rewrite Z.add_0_l. cbn [fmap list_fmap]. rewrite filter_cons, filter_nil.
  by repeat case_decide.
Qed.

Lemma elem_of_unmarked j b :
  b ∈ unmarked j ↔ (b ∉ K) ∧ ∃ k, 0 ≤ k < j ∧ b = blk sb i c k.
Proof using.
  unfold unmarked. rewrite elem_of_reverse, list_elem_of_filter, list_elem_of_fmap.
  f_equiv. split.
  - intros (k & -> & Hk%elem_of_seqZ). exists k. split; [lia|done].
  - intros (k & Hk & ->). exists k. split; [done|]. apply elem_of_seqZ. lia.
Qed.

Lemma blk_inj j k : blk sb i c j = blk sb i c k → j = k.
Proof using Hc. destruct (bs_mc c Hc) as (? & _). unfold blk. nia. Qed.

Lemma NoDup_unmarked j : NoDup (unmarked j).
Proof using Hc.
  unfold unmarked. rewrite reverse_Permutation. apply NoDup_filter, NoDup_fmap_2; [|apply NoDup_seqZ].
  intros x y. apply blk_inj.
Qed.

(** The state of the list under construction: blocks below [j] done. *)
Record fl_at (m0 m : mem) (j head cnt : Z) : Prop := {
  fa_range : 0 ≤ j ≤ mc c;
  fa_chain : chain m head (unmarked j);
  fa_nil : unmarked j = [] → head = 0;
  fa_cnt : cnt = Z.of_nat (length (unmarked j));
  fa_mem : ∀ a, (∀ b, b ∈ unmarked j → ¬ b ≤ a < b + 8) → load8 m a = load8 m0 a
}.

Lemma fl_at_0 m : fl_at m m 0 0 0.
Proof using Hc. pose proof (mc_small c Hc). by constructor; [lia|..]. Qed.

Lemma blk_ok k : 0 ≤ k ≤ mc c → addr_ok (blk sb i c k) ∧ 0 < blk sb i c k.
Proof using HG Hi Hc.
  intros Hk. pose proof (blk_range_weak sb i c k Hc Hk).
  apply (B_addr_ok db sb mb HG i); [change MAX_SB_AMOUNT with MAX_DESC_AMOUNT; lia|done].
Qed.

Lemma fl_at_head m0 m j head cnt : fl_at m0 m j head cnt → addr_ok head.
Proof using HG Hi Hc.
  intros [Hr Hch Hn _ _]. destruct (unmarked j) as [|b l] eqn:E.
  - rewrite Hn by done. unfold addr_ok. lia.
  - destruct Hch as [-> _]. assert (b ∈ unmarked j) as Hb by (rewrite E; left).
    apply elem_of_unmarked in Hb as (_ & k & Hk & ->). apply blk_ok. lia.
Qed.

(** A block that is not marked is pushed. *)
Lemma fl_at_push m0 m j head cnt :
  fl_at m0 m j head cnt → j < mc c → blk sb i c j ∉ K →
  fl_at m0 (pstore m (blk sb i c j) head) (j + 1) (blk sb i c j) (wrap 31 (cnt + 1)).
Proof using HG Hi Hc.
  intros H Hj Hm. pose proof (fl_at_head _ _ _ _ _ H) as Hh. destruct H as [Hr Hch Hn Hcnt Hmem].
  pose proof (mc_small c Hc). destruct (bs_mc c Hc) as (Hbs & _).
  assert (unmarked (j + 1) = blk sb i c j :: unmarked j) as E
    by (rewrite unmarked_S by lia; by rewrite decide_False).
  assert (length (unmarked j) ≤ Z.to_nat j)%nat as Hlen.
  { unfold unmarked. rewrite length_reverse. etrans; [apply length_filter|].
    by rewrite length_fmap, length_seqZ. }
  constructor; rewrite ?E.
  - lia.
  - cbn [chain]. split; [done|]. rewrite pload_pstore_eq by (done || apply blk_ok; lia).
    eapply chain_ext; [|done]. intros x (_ & k & Hk & ->)%elem_of_unmarked.
    apply pload_pstore_ne. unfold blk. nia.
  - done.
  - cbn [length]. unfold wrap. rewrite Z.mod_small; lia.
  - intros a Ha. unfold pstore. rewrite load8_store64_ne.
    + apply Hmem. intros b Hb. apply Ha. by right.
    + specialize (Ha (blk sb i c j) ltac:(left)). lia.
Qed.

Lemma fl_at_skip m0 m j head cnt :
  fl_at m0 m j head cnt → j < mc c → blk sb i c j ∈ K → fl_at m0 m (j + 1) head cnt.
Proof using.
  intros [Hr Hch Hn Hcnt Hmem] Hj Hm.
  assert (unmarked (j + 1) = unmarked j) as E by (rewrite unmarked_S by lia; by rewrite decide_True).
  constructor; rewrite ?E; try done. lia.
Qed.

Lemma blk_step j : 0 ≤ j < mc c → u64 (blk sb i c j + bs c) = blk sb i c (j + 1).
Proof using HG Hi Hc.
  intros Hj. replace (blk sb i c j + bs c) with (blk sb i c (j + 1)) by (unfold blk; ring).
  destruct (blk_ok (j + 1) ltac:(lia)) as [Hok _]. apply u64_small. unfold addr_ok in Hok. lia.
Qed.

(** [free_run] up to the next marked block (or the end). *)
Lemma free_run_spec fuel m0 m j j1 head cnt :
  fl_at m0 m j head cnt → j ≤ j1 ≤ mc c → (∀ k, j ≤ k < j1 → blk sb i c k ∉ K) →
  (Z.to_nat (j1 - j) < fuel)%nat →
  ∃ m' head' cnt', free_run fuel m (blk sb i c j) (blk sb i c j1) (bs c) head cnt =
    Ok (m', head', cnt') ∧ fl_at m0 m' j1 head' cnt'.
Proof using HG Hi Hc.
  revert m j head cnt. induction fuel as [|fuel IH]; intros m j head cnt H Hj Hun Hf; [lia|].
  destruct (bs_mc c Hc) as (Hbs & _). pose proof (fa_range _ _ _ _ _ H) as Hr. cbn [free_run].
  destruct (decide (j = j1)) as [->|Hne].
  - rewrite Z.ltb_irrefl. eauto.
  - rewrite (proj2 (Z.ltb_lt _ _)) by (unfold blk; nia). rewrite blk_step by lia.
    apply IH; [|lia| |lia].
    + apply fl_at_push; [done|lia|]. apply Hun. lia.
    + intros k Hk. apply Hun. lia.
Qed.
End Carve.

(** ** The marked blocks of one superblock *)

(** What a persisted descriptor says about superblock [i]. *)
Definition pers_small (i c : Z) (d : Descriptor) : Prop :=
  1 ≤ c < MAX_SZ_IDX ∧ heap d = u64 (HEAPS_OFFSET + c * CACHELINE_SIZE) ∧
  superblock d = u64 (i * SBSIZE) ∧ dblock_size d = bs c ∧ maxcount d = mc c.

Section SweepMarks.
Context (db sb mb : Z) (HG : geom db sb mb) (K : gset Z).

Lemma shift_B i b :
  (Z.shiftr (B sb i) SB_SHIFT =? Z.shiftr b SB_SHIFT) = true ↔ B sb i ≤ b < B sb (i + 1).
Proof using HG.
  pose proof (g_sbal _ _ _ HG) as Hal. unfold SB_SHIFT, B. change SBSIZE with (2 ^ 16) in *.
  rewrite !Z.shiftr_div_pow2 by lia. rewrite Z.div_add by lia.
  apply Z.mod_divide in Hal as [q ->]; [|lia]. rewrite Z.div_mul by lia. rewrite Z.eqb_eq.
  pose proof (Z.div_mod b (2 ^ 16) ltac:(lia)). pose proof (Z.mod_pos_bound b (2 ^ 16) ltac:(lia)). lia.
Qed.

(** What the sweep reads of a descriptor in use for small blocks. *)
Lemma pers_small_reads s i c :
  rg_at (rgs s) db sb mb → 0 < i < MAX_DESC_AMOUNT → pers_small i c (get_desc s (D db i)) →
  (∀ c, 0 ≤ c < MAX_SZ_IDX → sc_idx (get_heap s c) = c) →
  CrossPtr_is_null (heap (get_desc s (D db i))) = false ∧
  CrossPtr_get (rgs s) SB_IDX (superblock (get_desc s (D db i))) = B sb i ∧
  desc_sc_idx s (D db i) = c ∧ desc_heap_idx s (D db i) = c.
Proof using HG.
  intros Hrg Hi (Hc & Eh & Es & _) Hhs. split_and!.
  - rewrite Eh. unfold CrossPtr_is_null, HEAPS_OFFSET. change CACHELINE_SIZE with 64.
    change MAX_SZ_IDX with 40 in Hc. rewrite u64_small by lia. apply Z.eqb_neq. lia.
  - by apply (superblock_get db sb mb HG).
  - unfold desc_sc_idx, CrossPtr_deref. rewrite Eh.
    assert (translate (rgs s) META_IDX (u64 (HEAPS_OFFSET + c * CACHELINE_SIZE)) = heap_addr (rgs s) c) as ->.
    { unfold translate, heap_addr. unfold u64. rewrite Zplus_mod_idemp_r. f_equal. lia. }
    rewrite (heap_index_addr db sb mb HG (rgs s) Hrg) by lia. apply Hhs. lia.
  - unfold desc_heap_idx, CrossPtr_get, CrossPtr_is_null. rewrite Eh.
    unfold HEAPS_OFFSET. change CACHELINE_SIZE with 64. change MAX_SZ_IDX with 40 in Hc.
    rewrite u64_small by lia. rewrite (proj2 (Z.eqb_neq _ _)) by lia.
    assert (translate (rgs s) META_IDX (64 + c * 64) = heap_addr (rgs s) c) as ->.
    { unfold translate, heap_addr, HEAPS_OFFSET. change CACHELINE_SIZE with 64. f_equal. lia. }
    apply (heap_index_addr db sb mb HG (rgs s) Hrg). change MAX_SZ_IDX with 40. lia.
Qed.

Lemma sweep_marks_end fuel i cd rest a s :
  (∀ b, b ∈ rest → B sb (i + 1) ≤ b) → sweep_marks fuel (B sb i) cd rest a s = Ok ((rest, a), s).
Proof using HG.
  intros Hr. destruct rest as [|b rest]; [done|]. cbn [sweep_marks].
  destruct (Z.shiftr (B sb i) SB_SHIFT =? Z.shiftr b SB_SHIFT) eqn:E; [|done].
  apply shift_B in E. specialize (Hr b ltac:(left)). lia.
Qed.

Lemma sweep_marks_small fuel i c m0 ms rest j head cnt st s :
  rg_at (rgs s) db sb mb → 0 < i < MAX_DESC_AMOUNT → pers_small i c (get_desc s (D db i)) →
  (∀ c, 0 ≤ c < MAX_SZ_IDX → sc_idx (get_heap s c) = c) →
  (Z.to_nat (mc c) < fuel)%nat → fl_at sb K i c m0 (smem s) j head cnt →
  StronglySorted Z.lt ms →
  (∀ b, b ∈ ms → ∃ k, j ≤ k < mc c ∧ b = blk sb i c k) →
  (∀ k, j ≤ k < mc c → blk sb i c k ∈ K ↔ blk sb i c k ∈ ms) →
  (∀ b, b ∈ rest → B sb (i + 1) ≤ b) →
  ∃ m' j' head' cnt',
    sweep_marks fuel (B sb i) (D db i) (ms ++ rest) (mkAcc st cnt head (blk sb i c j)) s =
      Ok ((rest, mkAcc (match ms with [] => st | _ => SB_PARTIAL end) cnt' head' (blk sb i c j')),
          upd_mem (λ _, m') s) ∧
    fl_at sb K i c m0 m' j' head' cnt' ∧ (∀ k, j' ≤ k < mc c → blk sb i c k ∉ K).
Proof using HG.
  revert j head cnt st s. induction ms as [|b ms IH];
    intros j head cnt st s Hrg Hi Hd Hhs Hf Hfl Hss Hms HK Hrest.
  - exists (smem s), j, head, cnt. cbn [app]. rewrite sweep_marks_end by done.
    split; [by destruct s|]. split; [done|]. intros k Hk Hin. apply HK in Hin; [set_solver|lia].
  - pose proof Hd as (Hc & _ & _ & Ebs & _). apply StronglySorted_inv in Hss as [Hss Hlt].
    rewrite Forall_forall in Hlt. destruct (Hms b ltac:(left)) as (j1 & Hj1 & ->).
    destruct (pers_small_reads s i c Hrg Hi Hd Hhs) as (E1 & E2 & E3 & _).
    pose proof (blk_range sb i c j1 Hc ltac:(pose proof (fa_range _ _ _ _ _ _ _ _ _ Hfl); lia)) as Hr.
    destruct (bs_mc c Hc) as (Hbs & _). pose proof (fa_range _ _ _ _ _ _ _ _ _ Hfl) as Hj.
    assert (∀ k, j ≤ k < j1 → blk sb i c k ∉ K) as Hun.
    { intros k Hk Hin. apply HK in Hin; [|lia]. apply elem_of_cons in Hin as [E|Hin].
      - apply blk_inj in E; [lia|done].
      - apply Hlt in Hin. unfold blk in Hin. nia. }
    destruct (free_run_spec db sb mb HG K i c Hi Hc fuel m0 (smem s) j j1 head cnt)
      as (m1 & h1 & n1 & Erun & Hfl1); [done|lia|done|lia|].
    cbn [app sweep_marks]. rewrite (proj2 (shift_B i (blk sb i c j1))) by lia.
    unfold mbind, st_mbind, st_bind, st_get. rewrite E1, E2, E3, Z.eqb_refl. cbn [negb andb].
    rewrite (proj2 (Z.eqb_neq _ _)) by lia. unfold st_lift. cbn [sa_last sa_head sa_count].
    rewrite Ebs, Erun. unfold st_mod. cbn [fst snd]. rewrite (blk_step db sb mb HG i c Hi Hc) by lia.
    destruct (IH (j1 + 1) h1 n1 SB_PARTIAL (upd_mem (λ _, m1) s)) as (m' & j' & h' & n' & Er & Hfl' & Hun');
      try done.
    + apply fl_at_skip; [done|lia|]. apply HK; [lia|left].
    + intros b' Hb'. destruct (Hms b' ltac:(by right)) as (k & Hk & ->). exists k.
      apply Hlt in Hb'. split; [|done]. unfold blk in Hb'. nia.
    + intros k Hk. rewrite HK by lia. rewrite elem_of_cons. split; [|by right].
      intros [E|?]; [|done]. apply blk_inj in E; [lia|done].
    + exists m', j', h', n'. split; [|done].
      etrans; [exact Er|]. by destruct ms.
Qed.

Lemma sweep_marks_large fuel i k ms rest a s :
  rg_at (rgs s) db sb mb → 0 < i < MAX_DESC_AMOUNT → desc_large i k (get_desc s (D db i)) →
  (∀ c, 0 ≤ c < MAX_SZ_IDX → sc_idx (get_heap s c) = c) →
  (∀ b, b ∈ ms → B sb i ≤ b < B sb (i + 1)) → (∀ b, b ∈ rest → B sb (i + 1) ≤ b) →
  sweep_marks fuel (B sb i) (D db i) (ms ++ rest) a s =
    Ok ((rest, match ms with [] => a | _ => mkAcc SB_FULL (sa_count a) (sa_head a) (sa_last a) end), s) ∧
  desc_sc_idx s (D db i) = 0.
Proof using HG.
  intros Hrg Hi Hd Hhs Hms Hrest. pose proof Hd as (Eh & Es & _ & Em).
  assert (desc_sc_idx s (D db i) = 0) as E3.
  { unfold desc_sc_idx, CrossPtr_deref. rewrite Eh.
    assert (translate (rgs s) META_IDX HEAPS_OFFSET = heap_addr (rgs s) 0) as ->.
    { unfold translate, heap_addr. f_equal. lia. }
    rewrite (heap_index_addr db sb mb HG (rgs s) Hrg) by done. by apply Hhs. }
  split; [|done]. revert a. induction ms as [|b ms IH]; intros a; cbn [app].
  - by apply sweep_marks_end.
  - cbn [sweep_marks]. rewrite (proj2 (shift_B i b)) by (apply Hms; left).
    unfold mbind, st_mbind, st_bind, st_get. rewrite E3, Eh.
    rewrite (superblock_get db sb mb HG (rgs s) i) by done. rewrite Z.eqb_refl. cbn [negb andb].
    rewrite Em. change (negb (CrossPtr_is_null HEAPS_OFFSET) && true) with true. cbn iota.
    unfold st_assert. cbn [Z.eqb Pos.eqb]. rewrite IH by (intros b' Hb'; apply Hms; by right).
    by destruct ms.
Qed.
End SweepMarks.

(** ** The ghost view of a swept small superblock *)

Definition gh_swept (sb i c : Z) (fl : list Z) (g : ghost) : ghost :=
  match fl with
  | [] => gh_carve sb i c [] g
  | _ => gh_link i c fl (gh_carve sb i c fl g)
  end.

Definition nonempty {A} (l : list A) : bool := match l with [] => false | _ => true end.

Section SweptGhost.
Context (db sb mb : Z) (HG : geom db sb mb) (K : gset Z).
Context (i c : Z) (Hi : 0 < i < MAX_DESC_AMOUNT) (Hc : 1 ≤ c < MAX_SZ_IDX).

Lemma gh_swept_fields fl g :
  g_n (gh_swept sb i c fl g) = g_n g ∧ g_avail (gh_swept sb i c fl g) = g_avail g ∧
  g_cache (gh_swept sb i c fl g) = g_cache g ∧
  g_kind (gh_swept sb i c fl g) = <[i := KSmall c fl (nonempty fl)]> (g_kind g) ∧
  (∀ c', c' ≠ c → g_part (gh_swept sb i c fl g) c' = g_part g c') ∧
  g_part (gh_swept sb i c fl g) c = (if nonempty fl then i :: g_part g c else g_part g c).
Proof using.
  destruct fl as [|b fl]; cbn; split_and!; try done.
  - by rewrite insert_insert_eq.
  - intros c' Hne. by rewrite fn_lookup_insert_ne.
  - by rewrite fn_lookup_insert.
Qed.

Lemma gh_swept_wf fl g :
  gwf sb g → g_kind g !! i = Some KHeld → NoDup fl → (∀ b, b ∈ fl → b ∈ blocks sb i c) →
  gwf sb (gh_swept sb i c fl g).
Proof using Hc.
  intros H Hk Hnd Hsub. pose proof (gh_carve_wf sb g i c fl H Hk Hc Hnd Hsub) as Hw.
  destruct fl as [|b fl]; [done|]. apply gh_link_wf; [done|]. cbn. by rewrite lookup_insert_eq.
Qed.

Lemma live_swept fl g :
  gwf sb g → g_kind g !! i = Some KHeld → (∀ b, b ∈ fl → b ∈ blocks sb i c) → ∀ p z,
  live sb (gh_swept sb i c fl g) p z ↔
    live sb g p z ∨ (p ∈ blocks sb i c ∧ (p ∉ fl) ∧ z = bs c).
Proof using Hc.
  intros H Hk Hsub p z. rewrite <- (live_carve sb g i c fl H Hk Hc Hsub p z).
  destruct fl as [|b fl]; [done|]. apply (live_link sb _ i c _ false). cbn. by rewrite lookup_insert_eq.
Qed.

Lemma unmarked_in b : b ∈ unmarked sb K i c (mc c) → b ∈ blocks sb i c.
Proof using. rewrite elem_of_unmarked, elem_of_blocks. naive_solver. Qed.

(** Representation of the swept superblock. *)
Lemma swept_rep g m0 m ds ds' av hs hs' rg head cnt :
  let fl := unmarked sb K i c (mc c) in
  InvC db sb mb g m0 ds av hs ∅ rg → g_kind g !! i = Some KHeld → (∀ tc, g_cache g tc = []) →
  fl_at sb K i c m0 m (mc c) head cnt →
  (∀ j, j ≠ i → dget ds' (D db j) = dget ds (D db j)) →
  desc_small db sb mb i c fl (dget ds' (D db i)) →
  (∀ c', c' ≠ c → hs' !! c' = hs !! c') → sc_idx (default (mkHeap 0 0) (hs' !! c)) = c →
  (∃ p, head_is rg (partial_list (default (mkHeap 0 0) (hs' !! c))) p ∧
        dchain db (dnext_partial ds') p (if nonempty fl then i :: g_part g c else g_part g c)) →
  InvC db sb mb (gh_swept sb i c fl g) m ds' av hs' ∅ rg.
Proof using HG Hi Hc.
  intros fl H Hk Hca Hfl Hds Hd Hhs Hsc Hp. pose proof (iv_wf _ _ _ _ _ _ _ _ _ _ H) as Hwf.
  destruct Hfl as [Hr Hch Hn Hcnt Hmem]. fold fl in Hch, Hn, Hcnt, Hmem.
  destruct (gh_swept_fields fl g) as (F1 & F2 & F3 & F4 & F5 & F6).
  eapply (InvC_small db sb mb g _ m0 m ds ds' av hs hs' ∅ ∅ rg 0%nat i c fl (nonempty fl)); try done.
  - apply gh_swept_wf; [done|done|by apply (NoDup_unmarked sb K i c Hc)|apply unmarked_in].
  - intros k. congruence.
  - intros tc1 _. by rewrite F3.
  - destruct fl as [|b l]; [done|]. by destruct Hch as [-> Hch].
  - by rewrite F6.
  - rewrite F3, Hca. done.
  - intros j c' fl' lk' Hne Hj x Hx. apply (fl_subset sb g j c' fl' lk') in Hx as [_ Hx]; try done.
    apply pload_ext. intros a Ha. apply Hmem. intros b Hb Hab. apply unmarked_in in Hb.
    pose proof (gw_cls _ _ Hwf _ _ _ _ Hj) as Hc'.
    apply (block_outside sb i j c' x a Hc' Hne Hx Ha). destruct (bs_mc c Hc) as (Hbs & _).
    apply elem_of_blocks in Hb as (k & Hk' & ->). pose proof (blk_range sb i c k Hc Hk'). lia.
  - intros tc1 _ x Hx. rewrite Hca in Hx. set_solver.
Qed.
End SweptGhost.
