(* ===== verification/GCSpec.v ===== *)
(** * The sweep loop, and recovery as a whole *)

From Stdlib Require Import ZArith Lia.
From stdpp Require Import base gmap numbers functions list sorting.
From S2P Require Import Prelude Mem Config Pptr SizeClass Region Meta MetaFacts TCache Heap BaseMeta Inv Ghost Rep Trans SbSpec CacheSpec FlushSpec AllocSpec InitSpec Refine Api GC GCMark GCSweep.

Local Open Scope Z_scope.
#[local] Set Warnings "-clear-no-such-hyp".

(** A sorted list splits at any address. *)
Lemma split_marks (l : list Z) x :
  StronglySorted Z.lt l → ∃ ms rest, l = ms ++ rest ∧ (∀ b, b ∈ ms → b < x) ∧
    (∀ b, b ∈ rest → x ≤ b) ∧ StronglySorted Z.lt ms ∧ StronglySorted Z.lt rest.
Proof.
  induction l as [|a l IH]; intros Hs.
  - exists [], []. split_and!; try done; set_solver.
  - apply StronglySorted_inv in Hs as [Hs Hlt]. rewrite Forall_forall in Hlt.
    destruct (decide (a < x)).
    + destruct (IH Hs) as (ms & rest & -> & H1 & H2 & H3 & H4). exists (a :: ms), rest.
      split; [done|]. split; [set_solver|]. split; [done|]. split; [|done].
      constructor; [done|]. apply Forall_forall. set_solver.
    + assert (StronglySorted Z.lt (a :: l)) as Hs' by (constructor; [done|by apply Forall_forall]).
      exists [], (a :: l). split; [done|]. split; [set_solver|]. split; [|split; [constructor|done]].
      intros b [->|Hb]%elem_of_cons; [lia|]. apply Hlt in Hb. lia.
Qed.

Lemma sorted_lt (l : list Z) : StronglySorted Z.le l → NoDup l → StronglySorted Z.lt l.
Proof.
  induction 1 as [|a l Hs IH Hle]; intros Hnd; [constructor|]. apply NoDup_cons in Hnd as [Hni Hnd].
  constructor; [by apply IH|]. rewrite Forall_forall in *. intros b Hb. specialize (Hle b Hb).
  assert (a ≠ b) by (by intros ->). lia.
Qed.

Section SweepSpec.
Context (db sb mb : Z) (HG : geom db sb mb) (K : gset Z) (n : Z) (s0 : state).

(** A marked block as the persisted descriptors describe it: address and usable
    size. A large block has no mark inside but at its start. *)
Definition marked_at (a z : Z) : Prop :=
  (∃ i c, 1 ≤ i < n ∧ pers_small i c (get_desc s0 (D db i)) ∧ a ∈ blocks sb i c ∧ z = bs c) ∨
  (∃ i k, 1 ≤ i ∧ 1 ≤ k ∧ k * SBSIZE < 2 ^ 32 ∧ i + k ≤ n ∧ desc_large i k (get_desc s0 (D db i)) ∧
     a = B sb i ∧ z = k * SBSIZE ∧ ∀ b, b ∈ K → ¬ B sb (i + 1) ≤ b < B sb (i + k)).

(** What recovery relies on: the regions, the size-class indices and the
    persisted descriptors of the marked blocks. *)
Record recoverable : Prop := {
  rc_rg : rg_at (rgs s0) db sb mb;
  rc_len : length (regions (rgs s0)) = LAST_IDX;
  rc_n : 1 ≤ n;
  rc_reg : region_at (rget (rgs s0) SB_IDX) (B sb n);
  rc_max : base_addr (rget (rgs s0) SB_IDX) ≤ sb ∧ region_end s0 < B sb MAX_SB_AMOUNT;
  rc_hs : ∀ c, 0 ≤ c < MAX_SZ_IDX → sc_idx (get_heap s0 c) = c;
  rc_tc : t_caches s0 = ∅;
  rc_marks : ∀ a, a ∈ K → ∃ z, marked_at a z
}.

Context (HR : recoverable).

(** The state when all superblocks below [i] are done; [marks] is what remains
    of the marked blocks and [head] the new free list. *)
Record swept (i : Z) (marks : list Z) (head : Z) (g : ghost) (s : state) : Prop := {
  sw_inv : InvC db sb mb g (smem s) (descs s) (acpc_store (rgs s) DESC_IDX (PtrCnt head 0))
    (heaps s) (t_caches s) (grown sb s i);
  sw_i : 1 ≤ i ≤ n;
  sw_n : g_n g = i;
  sw_avail : dchain db (dnext_free (descs s)) head (g_avail g);
  sw_set : settled g;
  sw_cache : ∀ tc, g_cache g tc = [];
  sw_live : ∀ p z, live sb g p z ↔ p ∈ K ∧ p < B sb i ∧ marked_at p z;
  sw_ds : ∀ j, i ≤ j → get_desc s (D db j) = get_desc s0 (D db j);
  sw_mem : ∀ p z a, p ∈ K → marked_at p z → p ≤ a < p + z → load8 (smem s) a = load8 (smem s0) a;
  sw_rgs : rgs s = rgs s0;
  sw_roots : roots s = roots s0;
  sw_tc : t_caches s = ∅;
  sw_marks : ∀ a, a ∈ marks ↔ a ∈ K ∧ B sb i ≤ a;
  sw_sorted : StronglySorted Z.lt marks
}.

Lemma n_max : n < MAX_DESC_AMOUNT.
Proof using HR.
  destruct HR as [_ _ _ (_&_&_&_&Hr) [_ Hm] _ _ _]. unfold region_end, B in *.
  change SBSIZE with 65536 in *. change MAX_SB_AMOUNT with (2 ^ 24) in Hm.
  change MAX_DESC_AMOUNT with (2 ^ 24). lia.
Qed.

(** The regions with the end moved to superblock [i]. *)
Lemma grown_at s i :
  rgs s = rgs s0 → base_addr (rget (rgs s0) SB_IDX) ≤ B sb i → i ≤ n →
  rg_at (grown sb s i) db sb mb ∧ length (regions (grown sb s i)) = LAST_IDX ∧
  region_at (rget (grown sb s i) SB_IDX) (B sb i) ∧
  base_addr (rget (grown sb s i) SB_IDX) ≤ sb ∧
  base_addr (rget (grown sb s i) SB_IDX) + FILESIZE (rget (grown sb s i) SB_IDX) < B sb MAX_SB_AMOUNT.
Proof using HR.
  intros Es Hb Hi. destruct HR as [Hrg Hlen Hn (R1 & R2 & R3 & R4 & R5) [Hbase Hmax] _ _ _].
  unfold grown. rewrite Es, rget_rput by done. split_and!; try done.
  - cbn. by rewrite length_insert.
  - unfold region_at. cbn. split_and!; try done.
    assert (B sb i ≤ B sb n) by (unfold B; change SBSIZE with 65536; lia). lia.
Qed.

Lemma base_sb1 : base_addr (rget (rgs s0) SB_IDX) ≤ B sb 1.
Proof using HR. destruct (rc_max HR). unfold B. change SBSIZE with 65536. lia. Qed.

Lemma base_le i : 1 ≤ i → region_at (rget (grown sb s0 i) SB_IDX) (B sb i) →
  base_addr (rget (rgs s0) SB_IDX) ≤ B sb (i + 1).
Proof using HR.
  intros Hi (_ & _ & _ & _ & Hr). unfold grown in Hr. rewrite rget_rput in Hr by apply HR.
  cbn in Hr. unfold B in *. change SBSIZE with 65536 in *. lia.
Qed.

Lemma swept_base i marks head g s : swept i marks head g s → base_addr (rget (rgs s0) SB_IDX) ≤ B sb i.
Proof using HR.
  intros H. destruct (iv_region _ _ _ _ _ _ _ _ _ _ (sw_inv _ _ _ _ _ H)) as (_ & _ & _ & _ & Hr).
  unfold grown in Hr. rewrite (sw_rgs _ _ _ _ _ H) in Hr. rewrite rget_rput in Hr by apply HR.
  rewrite (sw_n _ _ _ _ _ H) in Hr. apply Hr.
Qed.

(** Superblock [i] enters the region, held. *)
Lemma swept_hold i marks head g s :
  swept i marks head g s → i < n →
  let g1 := gh_expand 1 g in
  InvC db sb mb g1 (smem s) (descs s) (acpc_store (rgs s) DESC_IDX (PtrCnt head 0))
    (heaps s) (t_caches s) (grown sb s (i + 1)) ∧
  g_kind g1 !! i = Some KHeld ∧ g_n g1 = i + 1 ∧ g_avail g1 = g_avail g ∧
  (∀ j, j ≠ i → g_kind g1 !! j = g_kind g !! j) ∧ (∀ p z, live sb g1 p z ↔ live sb g p z) ∧
  g_cache g1 = g_cache g ∧ g_part g1 = g_part g.
Proof using HR HG.
  intros H Hi g1. pose proof (swept_base _ _ _ _ _ H) as Hb. destruct H as [H Hir En Hav _ _ _ _ _ Er _ _ _ _].
  pose proof (iv_wf _ _ _ _ _ _ _ _ _ _ H) as Hwf.
  destruct (grown_at s (i + 1) Er) as (G1 & G2 & G3 & G4);
    [unfold B in *; change SBSIZE with 65536 in *; lia|lia|].
  assert (g_kind g1 !! i = Some KHeld) as Hk.
  { cbn. rewrite lookup_mset, decide_False by (rewrite elem_of_seqZ; lia). rewrite En.
    by rewrite lookup_insert_eq. }
  assert (∀ j, j ≠ i → g_kind g1 !! j = g_kind g !! j) as Hj.
  { intros j Hne. cbn. rewrite lookup_mset, decide_False by (rewrite elem_of_seqZ; lia). rewrite En.
    by rewrite lookup_insert_ne. }
  split_and!; try done; [|cbn; lia|by apply live_expand; [|lia|]].
  eapply (InvC_kinds db sb mb g g1 _ (descs s)); try done; cbn [g1 gh_expand g_n]; rewrite ?En; try done.
  - apply gh_expand_wf; [done|lia|lia].
  - lia.
  - intros j c fl lk Hkj. change (g_kind g1 !! j = Some (KSmall c fl lk)) in Hkj.
    destruct (decide (j = i)) as [->|Hne]; [congruence|]. by rewrite Hj in Hkj.
  - intros j k Hkj. change (g_kind g1 !! j = Some (KLarge k)) in Hkj.
    destruct (decide (j = i)) as [->|Hne]; [congruence|]. rewrite Hj in Hkj by done.
    by eapply (iv_large _ _ _ _ _ _ _ _ _ _ H).
  - destruct (iv_avail _ _ _ _ _ _ _ _ _ _ H) as (p & Hp & Hch). exists p. split; [|done].
    eapply head_is_ext; [|exact Hp]. done.
Qed.

(** The marks of superblock [i] and the others. *)
Lemma swept_split i marks head g s :
  swept i marks head g s → ∃ ms rest, marks = ms ++ rest ∧
    (∀ b, b ∈ ms ↔ b ∈ K ∧ B sb i ≤ b < B sb (i + 1)) ∧
    (∀ b, b ∈ rest ↔ b ∈ K ∧ B sb (i + 1) ≤ b) ∧
    StronglySorted Z.lt ms ∧ StronglySorted Z.lt rest.
Proof using.
  intros H. destruct (split_marks marks (B sb (i + 1)) (sw_sorted _ _ _ _ _ H))
    as (ms & rest & E & H1 & H2 & H3 & H4). exists ms, rest.
  assert (B sb i ≤ B sb (i + 1)) as Hle by (unfold B; change SBSIZE with 65536; lia).
  pose proof (sw_marks _ _ _ _ _ H) as Hm. split_and!; try done; intros b; specialize (Hm b);
    rewrite E, elem_of_app in Hm; specialize (H1 b); specialize (H2 b); naive_solver lia.
Qed.

Lemma next_sb i : 1 ≤ i < n → u64 (B sb i + SBSIZE) = B sb (i + 1) ∧ u64 (D db i + DESCSIZE) = D db (i + 1).
Proof using HG HR.
  intros Hi. pose proof n_max. split; [|by apply (D_next db sb mb HG); lia].
  rewrite <- (Z.mul_1_l SBSIZE), <- B_add. apply u64_small.
  pose proof (B_ok db sb mb HG (i + 1)) as HB. change MAX_SB_AMOUNT with MAX_DESC_AMOUNT in HB. lia.
Qed.

Lemma swept_head i marks head g s :
  swept i marks head g s → head = 0 ∨ ∃ j, 0 < j < MAX_DESC_AMOUNT ∧ head = D db j.
Proof using.
  intros H. eapply dchain_head; [|exact (sw_avail _ _ _ _ _ H)].
  eapply inv_avail_ok. exact (sw_inv _ _ _ _ _ H).
Qed.

Lemma head_store rg i : rg_at rg db sb mb → 0 < i < MAX_DESC_AMOUNT →
  head_is rg (acpc_store rg DESC_IDX (PtrCnt (D db i) 0)) (D db i).
Proof using HG.
  intros Hrg Hi. apply (acpc_store_range db sb mb HG rg (PtrCnt (D db i) 0)); [done|done|].
  right. eauto.
Qed.

(** Marks and live blocks when superblock [i] has no mark. *)
Lemma no_marks_live i p z :
  (∀ b, b ∈ K → ¬ B sb i ≤ b < B sb (i + 1)) →
  (p ∈ K ∧ p < B sb i ∧ marked_at p z) ↔ (p ∈ K ∧ p < B sb (i + 1) ∧ marked_at p z).
Proof using.
  intros Hn. specialize (Hn p). assert (B sb i ≤ B sb (i + 1)) by (unfold B; change SBSIZE with 65536; lia).
  split; intros (H1 & H2 & H3); split_and!; try done; [lia|]. destruct (decide (p < B sb i)); [done|].
  exfalso. apply Hn; [done|lia].
Qed.

(** A superblock without marks becomes free. *)
Lemma sweep_step_empty fuel i marks head g s :
  swept i marks head g s → i < n → (∀ b, b ∈ K → ¬ B sb i ≤ b < B sb (i + 1)) →
  wp (sweep_step fuel (B sb i) (D db i) marks head) (λ x s',
    x = (B sb (i + 1), D db (i + 1), marks, D db i) ∧
    ∃ g', swept (i + 1) marks (D db i) g' s') s.
Proof using HG HR.
  intros H Hi Hno. pose proof H as [Hinv Hir En Hav Hset Hca Hlive Hds Hmem Hrg Hrt Htc Hmk Hso].
  pose proof (swept_hold _ _ _ _ _ H Hi) as (H1 & Hk1 & En1 & Ea1 & Hj1 & Hl1 & Ec1 & Ep1).
  remember (gh_expand 1 g) as g1 eqn:Eg1. clear Eg1.
  destruct (next_sb i ltac:(lia)) as [E1 E2]. pose proof n_max as Hnm.
  assert (∀ b, b ∈ marks → B sb (i + 1) ≤ b) as Hrest.
  { intros b Hb. apply Hmk in Hb as [Hb Hbi]. specialize (Hno b Hb). lia. }
  pose proof (swept_head _ _ _ _ _ H) as Hhd. pose proof (iv_wf _ _ _ _ _ _ _ _ _ _ H1) as Hwf1.
  assert (addr_ok head) as Hhok.
  { destruct Hhd as [->|(j & Hj & ->)]; [unfold addr_ok; lia|]. apply (D_addr_ok db sb mb HG). lia. }
  unfold sweep_step. apply wp_bind, wp_spec. eexists _, _.
  split; [by apply (sweep_marks_end db sb mb HG)|]. cbn [fst snd sa_state]. rewrite decide_True by done.
  unfold construct_desc, FLUSH, FLUSHFENCE, next_free_store. wp_steps. rewrite E1, E2. split; [done|].
  exists (gh_release i g1). match goal with |- swept _ _ _ _ ?S => set (ds' := descs S) end.
  assert (∀ j, j ≠ i → dget ds' (D db j) = dget (descs s) (D db j)) as Hdj.
  { intros j Hne. cbn. by rewrite !dget_insert_ne by (intros ?%D_inj; congruence). }
  assert (dchain db (dnext_free ds') (D db i) (i :: g_avail g)) as Hch.
  { assert (dnext_free ds' (D db i) = head) as Enf.
    { apply (dnext_free_store db sb mb HG (<[D db i := Descriptor_ctor]> (descs s))); [lia|done]. }
    cbn [dchain]. split; [done|]. rewrite Enf. apply (dchain_ext db (dnext_free (descs s))); [|done]. intros j Hj. unfold dnext_free.
    rewrite Hdj; [done|]. intros ->. apply (gw_avail _ _ (iv_wf _ _ _ _ _ _ _ _ _ _ Hinv)) in Hj.
    apply (kind_lt sb) in Hj; [lia|by eapply iv_wf]. }
  constructor; try done.
  - pose proof H1 as [V1 V2 V3 V4 V5 V6 V7 V8 V9 V10 V11 V12].
    eapply (InvC_kinds db sb mb g1 _ _ (descs s)); try done.
    + by apply gh_release_wf.
    + intros j c fl lk Hj. cbn in Hj. gsplit. done.
    + intros j c fl lk Hj. cbn in Hj. gsplit. by apply Hdj.
    + intros j k Hj. cbn in Hj. gsplit. rewrite Hdj by done. by apply V8.
    + exists (D db i). cbn [gh_release g_avail]. rewrite Ea1. split; [|done].
      apply (head_store (grown sb s (i + 1))); [done|lia].
  - lia.
  - cbn [gh_release g_avail]. by rewrite Ea1.
  - apply (settled_set g _ i KFree); try done; [by cbn; rewrite lookup_insert_eq|].
    intros j Hj. left. cbn [gh_release g_kind]. rewrite lookup_insert_ne by done. by apply Hj1.
  - intros tc. change (g_cache g1 tc = []). by rewrite Ec1.
  - intros p z. rewrite live_release by done. rewrite Hl1, Hlive. by apply no_marks_live.
  - intros j Hj. rewrite <- Hds by lia. unfold get_desc at 1. change (default desc_zero (ds' !! D db j)) with (dget ds' (D db j)).
    apply Hdj. lia.
  - intros a. rewrite Hmk. split; [|intros [? ?]; split; [done|]].
    + intros [Ha ?]. split; [done|]. apply Hrest. by apply Hmk.
    + unfold B in *. change SBSIZE with 65536 in *. lia.
Qed.

(** The two readings of a descriptor exclude each other. *)
Lemma small_not_large i c k d : pers_small i c d → desc_large i k d → False.
Proof using.
  intros (Hc & Eh & _) (El & _). rewrite Eh in El. unfold HEAPS_OFFSET in El.
  change CACHELINE_SIZE with 64 in El. change MAX_SZ_IDX with 40 in Hc. rewrite u64_small in El by lia. lia.
Qed.

Lemma marked_at_large i k p z :
  desc_large i k (get_desc s0 (D db i)) → p ∈ K → B sb i ≤ p < B sb (i + 1) → marked_at p z →
  p = B sb i ∧ z = k * SBSIZE.
Proof using.
  intros Hd HpK Hp [(j & c & Hj & Hs & Hb & ->)|(j & k' & Hj & Hk & _ & _ & Hd' & -> & -> & _)].
  - destruct (Hs) as (Hc & _). pose proof (blocks_range sb j c p Hc Hb).
    assert (i = j) as -> by (by eapply (sb_unique sb i j p)). exfalso. by eapply small_not_large.
  - assert (i = j) as -> by (unfold B in *; change SBSIZE with 65536 in *; lia).
    split; [done|]. destruct Hd as (_ & _ & <- & _), Hd' as (_ & _ & <- & _). done.
Qed.

(** Assembling the invariant after a large block: superblocks [i] to [i + k - 1]
    are one block in use. *)
Lemma swept_large_next i k marks rest head g s m ds' hs' pl :
  swept i marks head g s → B sb i ∈ K → marked_at (B sb i) (k * SBSIZE) →
  desc_large i k (get_desc s0 (D db i)) → 1 ≤ k → i + k ≤ n → k * SBSIZE < 2 ^ 32 →
  (∀ b, b ∈ K → ¬ B sb (i + 1) ≤ b < B sb (i + k)) →
  (∀ b, b ∈ rest ↔ b ∈ K ∧ B sb (i + 1) ≤ b) → StronglySorted Z.lt rest →
  (∀ j, j ≠ i → dget ds' (D db j) = dget (descs s) (D db j)) → desc_large i k (dget ds' (D db i)) →
  m = smem s → hs' = heaps s →
  swept (i + k) rest head (gh_large_alloc k g)
    (mkState m ds' (avail_sb s) hs' (roots s) (t_caches s) (rgs s) pl).
Proof using HG HR.
  intros H HK Hat Hdl Hk Hikn Hk32 Hno Hrest Hso' Hdj Hdi -> ->.
  pose proof (swept_base _ _ _ _ _ H) as Hbase. pose proof (swept_head _ _ _ _ _ H) as Hhd.
  destruct H as [Hinv Hir En Hav Hset Hca Hlive Hds Hmem Hrg Hrt Htc Hmk Hso].
  pose proof (iv_wf _ _ _ _ _ _ _ _ _ _ Hinv) as Hwf. pose proof n_max as Hnm.
  assert (B sb i ≤ B sb (i + k)) as HBk by (unfold B; change SBSIZE with 65536; lia).
  assert (rg_at (rgs s) db sb mb) as Hrgs by (rewrite Hrg; apply HR).
  destruct (grown_at s (i + k) Hrg) as (G1 & G2 & G3 & G4); [lia|lia|].
  assert (dchain db (dnext_free ds') head (g_avail g)) as Hav'.
  { apply (dchain_ext db (dnext_free (descs s))); [|done]. intros j Hj.
    unfold dnext_free. rewrite Hdj; [done|]. intros ->. apply (gw_avail _ _ Hwf) in Hj.
    apply (kind_lt sb) in Hj; [lia|done]. }
  constructor; try done.
  - eapply (InvC_kinds db sb mb g _ _ (descs s)); try done.
    + apply gh_large_alloc_wf; done || lia.
    + cbn. lia.
    + cbn. by rewrite En.
    + intros j c fl lk Hj. cbn in Hj. gsplit. done.
    + intros j c fl lk Hj. cbn in Hj. gsplit. apply Hdj. congruence.
    + intros j k2 Hj. cbn in Hj. gsplit; [done|]. rewrite Hdj by congruence.
      by eapply (iv_large _ _ _ _ _ _ _ _ _ _ Hinv).
    + exists head. split; [|done].
      eapply head_is_ext; [|apply (acpc_store_range db sb mb HG (rgs s) (PtrCnt head 0))]; done.
  - lia.
  - cbn. lia.
  - apply (settled_large sb g k); [done|lia|done].
  - intros p z. rewrite live_large_alloc by (done || lia). rewrite Hlive, En. split.
    + intros [(H1 & H2 & H3)|[-> ->]]; (split; [done|]); (split; [|done]); [lia|].
      unfold B. change SBSIZE with 65536. lia.
    + intros (H1 & H2 & H3). destruct (decide (p < B sb i)) as [Hlt|Hge]; [by left|]. right.
      assert (p < B sb (i + 1)) as Hp1.
      { specialize (Hno p H1). lia. }
      by apply (marked_at_large i k); [| |lia|].
  - intros j Hj. rewrite <- Hds by lia. apply Hdj. lia.
  - intros a. rewrite Hrest. split; intros [Ha Hb]; (split; [done|]); specialize (Hno a Ha); [lia|].
    unfold B in *. change SBSIZE with 65536 in *. lia.
Qed.

(** A large block that is marked stays in use. *)
Lemma sweep_step_large fuel i k marks head g s :
  swept i marks head g s → B sb i ∈ K → marked_at (B sb i) (k * SBSIZE) →
  desc_large i k (get_desc s0 (D db i)) → 1 ≤ k → i + k ≤ n → k * SBSIZE < 2 ^ 32 →
  (∀ b, b ∈ K → ¬ B sb (i + 1) ≤ b < B sb (i + k)) →
  wp (sweep_step fuel (B sb i) (D db i) marks head) (λ x s',
    ∃ rest, x = (B sb (i + k), D db (i + k), rest, head) ∧ ∃ g', swept (i + k) rest head g' s') s.
Proof using HG HR.
  intros H HK Hat Hdl Hk Hikn Hk32 Hno. pose proof n_max as Hnm.
  destruct (swept_split _ _ _ _ _ H) as (ms & rest & -> & Hms & Hrest & _ & Hso').
  pose proof H as [Hinv Hir _ _ _ _ _ Hds _ Hrg _ _ _ _].
  assert (rg_at (rgs s) db sb mb) as Hrgs by (rewrite Hrg; apply HR).
  assert (desc_large i k (get_desc s (D db i))) as Hdl' by (by rewrite Hds by lia).
  destruct (sweep_marks_large db sb mb HG fuel i k ms rest (mkAcc SB_EMPTY 0 0 (B sb i)) s) as [Erun E3];
    try done; [lia|..].
  { intros c Hc. apply (iv_heaps _ _ _ _ _ _ _ _ _ _ Hinv c Hc). }
  { intros b Hb. by apply Hms in Hb as [_ ?]. }
  { intros b Hb. by apply Hrest in Hb as [_ ?]. }
  assert (ms ≠ []) as Hne.
  { intros ->. assert (B sb i ∈ ([] : list Z)) as Hin; [|set_solver]. apply Hms.
    split; [done|]. unfold B. change SBSIZE with 65536. lia. }
  unfold sweep_step. apply wp_bind, wp_spec. eexists _, _. split; [exact Erun|]. cbn [fst snd].
  destruct ms as [|b0 ms]; [done|]. cbn [sa_state]. rewrite decide_False by done.
  apply wp_bind, wp_get. rewrite E3. cbn [Z.eqb].
  unfold next_free_store, next_partial_store. wp_steps. destruct Hdl' as (Eh & Esb & Ebs & Emc).
  rewrite Ebs. replace (u64 (B sb i + k * SBSIZE)) with (B sb (i + k)).
  2:{ rewrite <- B_add. symmetry. apply u64_small.
      pose proof (B_ok db sb mb HG (i + k)) as HB. change MAX_SB_AMOUNT with MAX_DESC_AMOUNT in HB. lia. }
  rewrite (desc_lookup_B db sb mb HG) by (done || lia). exists rest. split; [done|].
  exists (gh_large_alloc k g). match goal with |- swept _ _ _ _ ?S =>
    change (swept (i + k) rest head (gh_large_alloc k g)
      (mkState (smem s) (descs S) (avail_sb s) (heaps s) (roots s) (t_caches s) (rgs s) (plog S))) end.
  apply (swept_large_next i k ((b0 :: ms) ++ rest)); try done.
  - intros j Hj. cbn. by rewrite !dget_insert_ne by (intros ?%D_inj; congruence).
  - match goal with |- desc_large _ _ (dget (descs ?S) _) => change (desc_large i k (get_desc S (D db i))) end.
    rewrite !get_desc_upd. exact (conj Eh (conj Esb (conj Ebs Emc))).
Qed.

(** The marks of a superblock in use for class [c] are blocks of it. *)
Lemma marked_at_small i c p z :
  pers_small i c (get_desc s0 (D db i)) → B sb i ≤ p < B sb (i + 1) → marked_at p z →
  p ∈ blocks sb i c ∧ z = bs c.
Proof using.
  intros Hs Hp [(j & c' & Hj & Hs' & Hb & ->)|(j & k' & Hj & Hk & _ & _ & Hd' & -> & -> & _)].
  - pose proof Hs' as (Hc' & _). pose proof (blocks_range sb j c' p Hc' Hb).
    assert (i = j) as <- by (by eapply (sb_unique sb i j p)).
    destruct Hs as (Hc & _ & _ & E & _), Hs' as (_ & _ & _ & E' & _).
    assert (c = c') as <- by (apply bs_inj; congruence). done.
  - assert (i = j) as <- by (unfold B in *; change SBSIZE with 65536 in *; lia).
    exfalso. by eapply small_not_large.
Qed.

(** What the first part of an iteration computes for a superblock in use for
    small blocks. *)
Lemma sweep_small_run fuel i c marks head g s :
  swept i marks head g s → i < n → pers_small i c (get_desc s0 (D db i)) →
  (∃ b, b ∈ K ∧ B sb i ≤ b < B sb (i + 1)) → (Z.to_nat (mc c) < fuel)%nat →
  ∃ rest m1 a m h cnt,
    sweep_marks fuel (B sb i) (D db i) marks (mkAcc SB_EMPTY 0 0 (B sb i)) s =
      Ok ((rest, a), upd_mem (λ _, m1) s) ∧
    sa_state a = SB_PARTIAL ∧
    free_run fuel m1 (sa_last a) (blk sb i c (mc c)) (bs c) (sa_head a) (sa_count a) = Ok (m, h, cnt) ∧
    fl_at sb K i c (smem s) m (mc c) h cnt ∧
    (∀ b, b ∈ rest ↔ b ∈ K ∧ B sb (i + 1) ≤ b) ∧ StronglySorted Z.lt rest.
Proof using HG HR.
  intros H Hi Hs [b0 [Hb0K Hb0]] Hf. pose proof n_max as Hnm.
  destruct (swept_split _ _ _ _ _ H) as (ms & rest & -> & Hms & Hrest & Hso1 & Hso2).
  pose proof H as [Hinv Hir En Hav Hset Hca Hlive Hds Hmem Hrg Hrt Htc Hmk Hso].
  pose proof Hs as (Hc & _).
  assert (rg_at (rgs s) db sb mb) as Hrgs by (rewrite Hrg; apply HR).
  assert (0 < i < MAX_DESC_AMOUNT) as Hi0 by lia.
  assert (∀ b, b ∈ ms → b ∈ blocks sb i c) as Hblk.
  { intros b Hb. apply Hms in Hb as [HbK Hb]. destruct (rc_marks HR b HbK) as [z Hz].
    by destruct (marked_at_small i c b z Hs Hb Hz). }
  destruct (sweep_marks_small db sb mb HG K fuel i c (smem s) ms rest 0 0 0 SB_EMPTY s)
    as (m1 & j1 & h1 & n1 & Er & Hfl1 & Hun); try done.
  - by rewrite Hds by lia.
  - intros c' Hc'. apply (iv_heaps _ _ _ _ _ _ _ _ _ _ Hinv c' Hc').
  - by apply fl_at_0.
  - intros b Hb. apply Hblk in Hb. by apply elem_of_blocks.
  - intros k Hk. rewrite Hms. pose proof (blk_range sb i c k Hc Hk). destruct (bs_mc c Hc) as (? & _).
    split; [|by intros [? _]]. intros ?. split; [done|lia].
  - intros b Hb. by apply Hrest in Hb as [_ ?].
  - pose proof (fa_range _ _ _ _ _ _ _ _ _ Hfl1) as Hj1.
    destruct (free_run_spec db sb mb HG K i c Hi0 Hc fuel (smem s) m1 j1 (mc c) h1 n1)
      as (m2 & h2 & n2 & Erun & Hfl2); [done|lia|done|lia|].
    assert (ms ≠ []) as Hne.
    { intros ->. assert (b0 ∈ ([] : list Z)) as Hin; [by apply Hms|set_solver]. }
    rewrite blk_0 in Er. eexists rest, m1, _, m2, h2, n2. split; [exact Er|].
    destruct ms; [done|]. cbn. split_and!; done.
Qed.

(** The blocks in use when superblock [i] of class [c] has been swept are the marked
    ones below the next... *)
Lemma swept_small_live i c marks head g s p z :
  swept i marks head g s → i < n → pers_small i c (get_desc s0 (D db i)) →
  live sb (gh_swept sb i c (unmarked sb K i c (mc c)) (gh_expand 1 g)) p z ↔
  p ∈ K ∧ p < B sb (i + 1) ∧ marked_at p z.
Proof using HG HR.
  intros H Hi Hs. pose proof H as [Hinv Hir _ _ _ _ Hlive _ _ _ _ _ _ _].
  destruct (swept_hold _ _ _ _ _ H Hi) as (H1 & Hk1 & _ & _ & _ & Hl1 & _).
  pose proof (iv_wf _ _ _ _ _ _ _ _ _ _ H1) as Hwf1. pose proof Hs as (Hc & _).
  rewrite live_swept by (done || apply unmarked_in). rewrite Hl1, Hlive.
  assert (B sb i ≤ B sb (i + 1)) by (unfold B; change SBSIZE with 65536; lia). split.
  - intros [(P1 & P2 & P3)|(P1 & P2 & ->)]; [split_and!; done || lia|].
    pose proof (blocks_range sb i c p Hc P1). split_and!; [|lia|].
    + destruct (decide (p ∈ K)) as [?|Hn]; [done|]. exfalso. apply P2.
      apply elem_of_unmarked. split; [done|]. by apply elem_of_blocks.
    + left. exists i, c. split_and!; done || lia.
  - intros (P1 & P2 & P3). destruct (decide (p < B sb i)); [by left|]. right.
    destruct (marked_at_small i c p z Hs ltac:(lia) P3) as [Pb ->]. split_and!; try done.
    intros Hu. by apply elem_of_unmarked in Hu as [? _].
Qed.

(** ...and the links written into its unmarked blocks are in no marked block. *)
Lemma swept_small_apart i c marks head g s p z a b :
  swept i marks head g s → i < n → pers_small i c (get_desc s0 (D db i)) →
  p ∈ K → marked_at p z → p ≤ a < p + z → b ∈ unmarked sb K i c (mc c) → ¬ b ≤ a < b + 8.
Proof using HG HR.
  intros H Hi Hs HpK Hpz Ha Hb Hab.
  destruct (swept_hold _ _ _ _ _ H Hi) as (H1 & Hk1 & _ & _ & _ & _ & Ec1 & _).
  pose proof (iv_wf _ _ _ _ _ _ _ _ _ _ H1) as Hwf1. pose proof Hs as (Hc & _).
  pose proof (sw_cache _ _ _ _ _ H) as Hca. set (fl := unmarked sb K i c (mc c)) in *.
  assert (∀ tc, g_cache (gh_expand 1 g) tc = []) as Hca1 by (intros tc; by rewrite Ec1).
  destruct (gh_swept_fields sb i c fl (gh_expand 1 g)) as (_ & _ & F3 & F4 & F5 & F6).
  destruct (decide (p < B sb (i + 1))) as [Hlt|Hge].
  - assert (gwf sb (gh_swept sb i c fl (gh_expand 1 g))) as Hwf2.
    { apply gh_swept_wf; [done|done|done|by apply (NoDup_unmarked sb K i c Hc)|apply unmarked_in]. }
    assert (g_kind (gh_swept sb i c fl (gh_expand 1 g)) !! i = Some (KSmall c fl (nonempty fl))) as Hki
      by (by rewrite F4, lookup_insert_eq).
    assert (g_own (gh_swept sb i c fl (gh_expand 1 g)) !! b = Some OFree) as Ho
      by (apply (gw_fl _ _ Hwf2 _ _ _ _ Hki); done).
    apply (owned_not_live sb (gh_swept sb i c fl (gh_expand 1 g)) i c fl (nonempty fl) b p z a Hwf2 Hki);
      [by apply unmarked_in in Hb|congruence| |done|done].
    by apply (swept_small_live i c marks head g s).
  - apply unmarked_in in Hb. apply elem_of_blocks in Hb as (k & Hk & ->).
    pose proof (blk_range sb i c k Hc Hk). destruct (bs_mc c Hc) as (? & _). lia.
Qed.

(** Assembling the invariant after a small superblock. *)
Lemma swept_small_next i c rest marks head g s m ds' hs' h cnt pl :
  let fl := unmarked sb K i c (mc c) in
  swept i marks head g s → i < n → pers_small i c (get_desc s0 (D db i)) →
  fl_at sb K i c (smem s) m (mc c) h cnt →
  (∀ b, b ∈ rest ↔ b ∈ K ∧ B sb (i + 1) ≤ b) → StronglySorted Z.lt rest →
  (∀ j, j ≠ i → dget ds' (D db j) = dget (descs s) (D db j)) →
  desc_small db sb mb i c fl (dget ds' (D db i)) →
  (∀ c', c' ≠ c → hs' !! c' = heaps s !! c') → sc_idx (default (mkHeap 0 0) (hs' !! c)) = c →
  (∃ p, head_is (rgs s) (partial_list (default (mkHeap 0 0) (hs' !! c))) p ∧
        dchain db (dnext_partial ds') p (if nonempty fl then i :: g_part g c else g_part g c)) →
  ∃ g', swept (i + 1) rest head g'
          (mkState m ds' (avail_sb s) hs' (roots s) (t_caches s) (rgs s) pl).
Proof using HG HR.
  intros fl H Hi Hs Hfl Hrest Hso' Hdj Hdi Hhs Hsc Hp. pose proof n_max as Hnm.
  pose proof H as [Hinv Hir En Hav Hset Hca Hlive Hds Hmem Hrg Hrt Htc Hmk Hso].
  pose proof (swept_hold _ _ _ _ _ H Hi) as (H1 & Hk1 & En1 & Ea1 & Hj1 & Hl1 & Ec1 & Ep1).
  pose proof (λ p z, swept_small_live i c marks head g s p z H Hi Hs) as Hl2.
  remember (gh_expand 1 g) as g1 eqn:Eg1. clear Eg1. pose proof Hs as (Hc & _).
  pose proof (iv_wf _ _ _ _ _ _ _ _ _ _ H1) as Hwf1. assert (0 < i < MAX_DESC_AMOUNT) as Hi0 by lia.
  assert (∀ tc, g_cache g1 tc = []) as Hca1 by (intros tc; by rewrite Ec1).
  destruct (gh_swept_fields sb i c fl g1) as (F1 & F2 & F3 & F4 & F5 & F6).
  rewrite Htc in H1. exists (gh_swept sb i c fl g1). constructor; try done.
  - cbn [smem descs avail_sb heaps t_caches rgs]. rewrite Htc.
    apply (swept_rep db sb mb HG K i c Hi0 Hc g1 (smem s) m (descs s) ds' _ (heaps s) hs' _ h cnt); try done.
    fold fl. rewrite Ep1. exact Hp.
  - lia.
  - by rewrite F1.
  - rewrite F2, Ea1. apply (dchain_ext db (dnext_free (descs s))); [|done]. intros j Hj.
    cbn [descs]. unfold dnext_free. rewrite Hdj; [done|]. intros ->.
    apply (gw_avail _ _ (iv_wf _ _ _ _ _ _ _ _ _ _ Hinv)) in Hj.
    apply (kind_lt sb) in Hj; [lia|by eapply iv_wf].
  - apply (settled_set g _ i (KSmall c fl (nonempty fl))); try done.
    + by rewrite F4, lookup_insert_eq.
    + intros ? ? ? [= <- <- <-]. destruct fl; cbn; naive_solver.
    + intros j Hj. left. rewrite F4, lookup_insert_ne by done. by apply Hj1.
  - intros tc. by rewrite F3.
  - intros j Hj. rewrite <- Hds by lia. apply Hdj. lia.
  - intros p z a HpK Hpz Ha. rewrite <- (Hmem p z a HpK Hpz Ha). cbn [smem].
    apply (fa_mem _ _ _ _ _ _ _ _ _ Hfl). intros b Hb. by apply (swept_small_apart i c marks head g s p z).
Qed.

(** The anchor written for a superblock with some blocks free. *)
Lemma anchor_partial i c m0 m h cnt b l :
  0 < i < MAX_DESC_AMOUNT → 1 ≤ c < MAX_SZ_IDX → unmarked sb K i c (mc c) = b :: l →
  fl_at sb K i c m0 m (mc c) h cnt → (∃ k, 0 ≤ k < mc c ∧ blk sb i c k ∈ K) →
  h = b ∧ 0 < h ∧ cnt ≠ 0 ∧ u64 (h - B sb i) mod bs c = 0 ∧
  anchor_rep sb i c (b :: l) (mkAnchor (wrap 31 (u64 (h - B sb i) / bs c)) cnt SB_PARTIAL).
Proof using HG.
  intros Hi Hc E [Hr Hch Hn Hcnt Hmem] (k0 & Hk0 & HK0). rewrite E in *. destruct Hch as [-> _].
  assert (b ∈ unmarked sb K i c (mc c)) as Hb by (rewrite E; left).
  pose proof (NoDup_unmarked sb K i c Hc (mc c)) as Hnd. rewrite E in Hnd.
  apply elem_of_unmarked in Hb as (HbK & k & Hk & ->).
  destruct (bs_mc c Hc) as (Hbs & _ & _ & Hmb). pose proof (mc_small c Hc) as Hmc.
  destruct (blk_ok db sb mb HG i c Hi Hc k ltac:(lia)) as [_ Hpos].
  replace (blk sb i c k - B sb i) with (k * bs c) by (unfold blk; lia).
  change SBSIZE with 65536 in *. rewrite u64_small by nia. rewrite Z.div_mul, Z.mod_mul by lia.
  assert (Z.of_nat (length (blk sb i c k :: l)) ≤ mc c) as Hle.
  { apply (fl_length_le sb i c); [done|done|]. intros x. rewrite <- E. apply unmarked_in. }
  assert (Z.of_nat (length (blk sb i c k :: l)) ≠ mc c) as Hne.
  { intros Hl. assert (blk sb i c k0 ∈ unmarked sb K i c (mc c)) as Hin.
    - rewrite E. apply (fl_full sb i c); try done.
      + intros x. rewrite <- E. apply unmarked_in.
      + apply elem_of_blocks. eauto.
    - by apply elem_of_unmarked in Hin as [? _]. }
  unfold wrap. rewrite Z.mod_small by lia. split; [done|]. split; [done|].
  split; [cbn [length] in Hcnt; lia|]. split; [done|]. split; cbn [avail astate count]; [lia|].
  rewrite (proj2 (Z.eqb_neq _ _)) by done. done || (split; [done|]; split; [lia|done]).
Qed.

(** What is left to do for superblock [i] of class [c], whose unmarked blocks are
    linked in memory [m] from [h] on: the descriptor of a full superblock... *)
Definition small_done (i c : Z) (rest : list Z) (head h cnt : Z) (m : mem) (marks : list Z)
    (g : ghost) (s : state) : Prop :=
  swept i marks head g s ∧ i < n ∧ pers_small i c (get_desc s0 (D db i)) ∧
  fl_at sb K i c (smem s) m (mc c) h cnt ∧
  (∀ b, b ∈ rest ↔ b ∈ K ∧ B sb (i + 1) ≤ b) ∧ StronglySorted Z.lt rest.

(** The partial lists hold superblocks below [i] only. *)
Lemma part_below i c marks head g s j : swept i marks head g s → j ∈ g_part g c → j < i.
Proof using.
  intros [Hinv _ En _ _ _ _ _ _ _ _ _ _ _] Hj.
  apply (gw_part _ _ (iv_wf _ _ _ _ _ _ _ _ _ _ Hinv)) in Hj as [fl Hj].
  apply (kind_lt sb) in Hj; [lia|by eapply iv_wf].
Qed.

Lemma sweep_small_full i c rest head h cnt m marks g s :
  small_done i c rest head h cnt m marks g s → unmarked sb K i c (mc c) = [] →
  wp (next_free_store (D db i) 0;; next_partial_store (D db i) 0;;
      st_mod (upd_desc (D db i) (with_anchor (mkAnchor (wrap 31 (mc c)) 0 SB_FULL))))
    (λ _ s', ∃ g', swept (i + 1) rest head g' s') (upd_mem (λ _, m) s).
Proof using HG HR.
  intros (H & Hi & Hs & Hfl & Hrest & Hso) Eu. pose proof (swept_small_next i c rest marks head g s m) as Hnext.
  pose proof H as [Hinv Hir En Hav Hset Hca Hlive Hds Hmem Hrg Hrt Htc Hmk Hso'].
  pose proof Hs as (Hc & Eh & Esb & Ebs & Emc). pose proof (mc_small c Hc) as Hmc.
  assert (get_desc s (D db i) = get_desc s0 (D db i)) as Ed by (apply Hds; lia).
  destruct (iv_part _ _ _ _ _ _ _ _ _ _ Hinv c Hc) as (p & Hp & Hch). rewrite Eu in Hnext.
  unfold next_free_store, next_partial_store. wp_steps.
  match goal with |- ∃ g', swept _ _ _ g' ?S =>
    change (∃ g', swept (i + 1) rest head g'
      (mkState m (descs S) (avail_sb s) (heaps s) (roots s) (t_caches s) (rgs s) (plog S))) end.
  assert (∀ j, j ≠ i → D db i ≠ D db j) as Hne by (intros j Hj ?%D_inj; congruence).
  eapply Hnext; try done.
  - intros j Hj. cbn. by rewrite !dget_insert_ne by auto.
  - match goal with |- desc_small _ _ _ _ _ _ (dget (descs ?S) _) =>
      change (desc_small db sb mb i c [] (get_desc S (D db i))) end.
    rewrite !get_desc_upd. change (get_desc (upd_mem (λ _, m) s) (D db i)) with (get_desc s (D db i)).
    rewrite Ed. split; [exact Eh|]. split; [exact Esb|]. split; [exact Ebs|]. split; [exact Emc|].
    change (anchor_rep sb i c [] (mkAnchor (wrap 31 (mc c)) 0 SB_FULL)).
    unfold anchor_rep, wrap. rewrite Z.mod_small by lia. split; [cbn [avail]; lia|done].
  - apply (iv_heaps _ _ _ _ _ _ _ _ _ _ Hinv). lia.
  - cbn [nonempty]. exists p. split; [exact Hp|].
    apply (dchain_ext db (dnext_partial (descs s))); [|done]. intros j Hj.
    apply (part_below _ _ _ _ _ _ _ H) in Hj. unfold dnext_partial. cbn.
    rewrite !dget_insert_ne; [done|..]; intros ->%D_inj; lia.
Qed.

(** ...and of one that has free blocks. *)
Lemma sweep_small_partial fuel i c rest head h cnt m marks g s b l :
  small_done i c rest head h cnt m marks g s → unmarked sb K i c (mc c) = b :: l → (1 ≤ fuel)%nat →
  anchor_rep sb i c (b :: l) (mkAnchor (wrap 31 (u64 (b - B sb i) / bs c)) cnt SB_PARTIAL) →
  wp (next_free_store (D db i) 0;; heap_push_partial fuel (D db i);;
      st_mod (upd_desc (D db i) (with_anchor (mkAnchor (wrap 31 (u64 (b - B sb i) / bs c)) cnt SB_PARTIAL))))
    (λ _ s', ∃ g', swept (i + 1) rest head g' s') (upd_mem (λ _, m) s).
Proof using HG HR.
  intros (H & Hi & Hs & Hfl & Hrest & Hso) Eu Hf Hanc.
  pose proof (swept_small_next i c rest marks head g s m) as Hnext. rewrite Eu in Hnext.
  pose proof H as [Hinv Hir En Hav Hset Hca Hlive Hds Hmem Hrg Hrt Htc Hmk Hso'].
  pose proof n_max as Hnm. assert (0 < i < MAX_DESC_AMOUNT) as Hi0 by lia.
  pose proof Hs as (Hc & Eh & Esb & Ebs & Emc).
  assert (rg_at (rgs s) db sb mb) as Hrgs by (rewrite Hrg; apply HR).
  assert (get_desc s (D db i) = get_desc s0 (D db i)) as Ed by (apply Hds; lia).
  destruct (iv_part _ _ _ _ _ _ _ _ _ _ Hinv c Hc) as (p & Hp & Hch).
  unfold next_free_store. apply wp_bind, wp_mod, wp_bind.
  match goal with |- wp _ _ ?S => set (s2 := S) end.
  assert (get_desc s2 (D db i) = with_next_free (atomic_pptr_store (D db i) 0) (get_desc s (D db i))) as Ed2
    by (unfold s2; by rewrite get_desc_upd).
  assert (i ∉ g_part g c) as Hni by (intros Hj; apply (part_below _ _ _ _ _ _ _ H) in Hj; lia).
  destruct (heap_push_partial_run db sb mb HG fuel s2 i c p) as (raw & plp & Hraw & Erun); try done.
  { apply (pers_small_reads db sb mb HG s2 i c); try done.
    - rewrite Ed2, Ed. done.
    - intros c' Hc'. apply (iv_heaps _ _ _ _ _ _ _ _ _ _ Hinv c' Hc'). }
  { eapply (dchain_head_ne db sb mb HG); done. }
  apply wp_spec. eexists _, _. split; [exact Erun|]. wp_steps.
  assert (∀ j, j ≠ i → D db i ≠ D db j) as Hne by (intros j Hj ?%D_inj; congruence).
  match goal with |- ∃ g', swept _ _ _ g' ?S =>
    change (∃ g', swept (i + 1) rest head g'
      (mkState m (descs S) (avail_sb s) (heaps S) (roots s) (t_caches s) (rgs s) (plog S))) end.
  eapply Hnext; try done.
  - intros j Hj. cbn. by rewrite !dget_insert_ne by auto.
  - match goal with |- desc_small _ _ _ _ _ _ (dget (descs ?S) _) =>
      change (desc_small db sb mb i c (b :: l) (get_desc S (D db i))) end.
    rewrite get_desc_upd. unfold get_desc. cbn [descs with_small].
    change (default desc_zero (?x !! ?k)) with (dget x k). rewrite dget_insert_eq.
    change (default desc_zero (descs s2 !! D db i)) with (get_desc s2 (D db i)). rewrite Ed2, Ed.
    split; [exact Eh|]. split; [exact Esb|]. split; [exact Ebs|]. split; [exact Emc|]. exact Hanc.
  - intros c' Hc'. cbn. by rewrite lookup_insert_ne.
  - cbn. rewrite lookup_insert_eq. cbn. apply (iv_heaps _ _ _ _ _ _ _ _ _ _ Hinv). lia.
  - cbn [nonempty]. cbn. rewrite lookup_insert_eq. exists (D db i). split; [exact Hraw|].
    match goal with |- _ ∧ dchain _ (dnext_partial ?d) _ _ =>
      change (dchain db (dnext_partial d) (D db i) (i :: g_part g c)) end.
    refine (dchain_ext db (dnext_partial (<[D db i := linked_desc db i p (get_desc s (D db i))]> (descs s))) _ _ _ _ _).
    2:{ apply (dchain_link db sb mb HG); try done. by eapply inv_part_ok. }
    intros j Hj. unfold dnext_partial. destruct (decide (j = i)) as [->|Hji].
    + rewrite !dget_insert_eq. unfold get_desc. cbn [descs with_small]. by rewrite lookup_insert_eq.
    + by rewrite !dget_insert_ne by auto.
Qed.

(** A superblock in use for small blocks. *)
Lemma sweep_step_small fuel i c marks head g s :
  swept i marks head g s → i < n → pers_small i c (get_desc s0 (D db i)) →
  (∃ b, b ∈ K ∧ B sb i ≤ b < B sb (i + 1)) → (Z.to_nat (mc c) < fuel)%nat →
  wp (sweep_step fuel (B sb i) (D db i) marks head) (λ x s',
    ∃ rest, x = (B sb (i + 1), D db (i + 1), rest, head) ∧ ∃ g', swept (i + 1) rest head g' s') s.
Proof using HG HR.
  intros H Hi Hs Hex Hf. destruct (sweep_small_run fuel i c marks head g s) as
    (rest & m1 & a & m & h & cnt & Er & Ea & Ef & Hfl & Hrest & Hso); try done.
  assert (small_done i c rest head h cnt m marks g s) as Hdone by (by split_and!).
  pose proof H as [Hinv Hir En Hav Hset Hca Hlive Hds Hmem Hrg Hrt Htc Hmk Hso'].
  pose proof n_max as Hnm. assert (0 < i < MAX_DESC_AMOUNT) as Hi0 by lia.
  pose proof Hs as (Hc & Eh & Esb & Ebs & Emc). pose proof (mc_small c Hc) as Hmc.
  assert (rg_at (rgs s) db sb mb) as Hrgs by (rewrite Hrg; apply HR).
  destruct (next_sb i ltac:(lia)) as [E1 E2].
  destruct (pers_small_reads db sb mb HG (upd_mem (λ _, m1) s) i c) as (_ & _ & E3 & _); try done.
  { change (pers_small i c (get_desc s (D db i))). by rewrite Hds by lia. }
  { intros c' Hc'. apply (iv_heaps _ _ _ _ _ _ _ _ _ _ Hinv c' Hc'). }
  assert (get_desc s (D db i) = get_desc s0 (D db i)) as Ed by (apply Hds; lia).
  unfold sweep_step. apply wp_bind, wp_spec. eexists _, _. split; [exact Er|]. cbn [fst snd].
  rewrite Ea, decide_False by done. apply wp_bind, wp_get. rewrite E3.
  rewrite (proj2 (Z.eqb_neq _ _)) by lia. apply wp_bind. eapply wp_lift.
  { change (get_desc (upd_mem (λ _, m1) s) (D db i)) with (get_desc s (D db i)).
    rewrite Ed, Ebs, Emc, (blk_addr db sb mb HG) by (done || lia). exact Ef. }
  apply wp_bind, wp_mod. cbn [fst snd].
  change (get_desc (upd_mem (λ _, m1) s) (D db i)) with (get_desc s (D db i)). rewrite Ed, Ebs, Emc.
  change (upd_mem (λ _, m) (upd_mem (λ _, m1) s)) with (upd_mem (λ _, m) s).
  apply wp_bind. apply (wp_mono _ (λ _ s', ∃ g', swept (i + 1) rest head g' s')).
  2:{ intros _ s' Hs'. apply wp_ret. exists rest. by rewrite E1, E2. }
  destruct (unmarked sb K i c (mc c)) as [|b l] eqn:Eu.
  - rewrite (fa_cnt _ _ _ _ _ _ _ _ _ Hfl), Eu. cbn [length Z.of_nat Z.eqb]. by eapply sweep_small_full.
  - assert (∃ k, 0 ≤ k < mc c ∧ blk sb i c k ∈ K) as Hmk0.
    { destruct Hex as (x & HxK & Hx). destruct (rc_marks HR x HxK) as [z Hz].
      destruct (marked_at_small i c x z Hs Hx Hz) as [Hxb _].
      apply elem_of_blocks in Hxb as (k & Hk & ->). eauto. }
    destruct (anchor_partial i c (smem s) m h cnt b l Hi0 Hc Eu Hfl Hmk0) as (-> & Hpos & Hcnt & Hmod & Hanc).
    rewrite (proj2 (Z.eqb_neq _ _)) by done. rewrite Hmod.
    apply wp_bind, wp_assert; [by rewrite (proj2 (Z.eqb_neq b 0)) by lia|].
    apply wp_bind, wp_assert; [done|]. apply (sweep_small_partial fuel i c rest head b cnt m marks g s b l); try done. lia.
Qed.

(** ** The whole sweep *)

Lemma B_le i j : i ≤ j → B sb i ≤ B sb j.
Proof using. unfold B. change SBSIZE with 65536. lia. Qed.

(** One iteration, whatever the superblock was used for. *)
Lemma sweep_step_any fuel i marks head g s :
  swept i marks head g s → i < n → 8192 < Z.of_nat fuel →
  wp (sweep_step fuel (B sb i) (D db i) marks head) (λ x s',
    ∃ i' rest head' g', i < i' ≤ n ∧ x = (B sb i', D db i', rest, head') ∧
      swept i' rest head' g' s') s.
Proof using HG HR.
  intros H Hi Hf. pose proof (sw_i _ _ _ _ _ H) as Hir.
  destruct (swept_split _ _ _ _ _ H) as (ms & rest & _ & Hms & _).
  destruct ms as [|b ms].
  - eapply wp_mono; [apply (sweep_step_empty fuel i marks head g s H Hi)|].
    + intros b HbK Hb. assert (b ∈ ([] : list Z)) as Hin by (by apply Hms). set_solver.
    + intros x s' (-> & g' & Hg'). exists (i + 1), marks, (D db i), g'. split_and!; done || lia.
  - destruct (proj1 (Hms b) ltac:(left)) as [HbK Hb]. destruct (rc_marks HR b HbK) as [z Hz].
    destruct Hz as [(j & c & Hj & Hs & Hbj & ->)|(j & k & Hj & Hk & Hk32 & Hjk & Hd & -> & -> & Hno)].
    + pose proof Hs as (Hc & _). pose proof (blocks_range sb j c b Hc Hbj).
      assert (i = j) as <- by (by eapply (sb_unique sb i j b)). pose proof (mc_small c Hc).
      eapply wp_mono; [apply (sweep_step_small fuel i c marks head g s H Hi Hs)|].
      * eauto.
      * lia.
      * intros x s' (rest' & -> & g' & Hg'). exists (i + 1), rest', head, g'. split_and!; done || lia.
    + assert (i = j) as <- by (unfold B in *; change SBSIZE with 65536 in *; lia).
      eapply wp_mono; [apply (sweep_step_large fuel i k marks head g s H HbK)|]; try done.
      * right. exists i, k. split_and!; done || lia.
      * intros x s' (rest' & -> & g' & Hg'). exists (i + k), rest', head, g'. split_and!; done || lia.
Qed.

Lemma sweep_loop_spec N fuel i marks head g s :
  swept i marks head g s → (Z.to_nat (n - i) < N)%nat → 8192 < Z.of_nat fuel →
  wp (sweep_loop N fuel (B sb n) (B sb i) (D db i) marks head) (λ x s',
    ∃ g', swept n x.1 x.2 g' s') s.
Proof using HG HR.
  revert i marks head g s. induction N as [|N IH]; intros i marks head g s H HN Hf; [lia|].
  pose proof (sw_i _ _ _ _ _ H) as Hi. cbn [sweep_loop]. destruct (decide (i = n)) as [->|Hne].
  - rewrite Z.ltb_irrefl. wp_steps. eauto.
  - rewrite (proj2 (Z.ltb_lt _ _)) by (unfold B; change SBSIZE with 65536; lia).
    apply wp_bind. eapply wp_mono; [apply (sweep_step_any fuel i marks head g s H); [lia|done]|].
    intros x s' (i' & rest & head' & g' & Hi' & -> & Hg'). cbn [fst snd].
    eapply IH; [done|lia|done].
Qed.

Lemma swept_nil marks head g s : swept n marks head g s → marks = [].
Proof using HR.
  intros H. destruct marks as [|b l]; [done|].
  destruct (proj1 (sw_marks _ _ _ _ _ H b) ltac:(left)) as [HbK Hb].
  assert (b < B sb n); [|lia]. destruct (rc_marks HR b HbK) as [z Hz].
  destruct Hz as [(j & c & Hj & (Hc & _) & Hbj & ->)|(j & k & Hj & Hk & _ & Hjk & Hd & -> & -> & _)].
  - pose proof (blocks_range sb j c b Hc Hbj). pose proof (B_le (j + 1) n). lia.
  - unfold B. change SBSIZE with 65536. lia.
Qed.

(** Before the first superblock: nothing is free, linked or in use. *)
Lemma swept_start :
  (∀ c, 1 ≤ c < MAX_SZ_IDX → partial_list (get_heap s0 c) = 0) →
  swept 1 (sorted_marks K) 0 (ghost_init 1) s0.
Proof using HG HR.
  intros Hpl. destruct (ghost_init_wf sb 1) as [Hwf Hset]; [done|].
  destruct (grown_at s0 1 eq_refl) as (G1 & G2 & G3 & G4); [apply base_sb1|apply HR|].
  assert (∀ i k, g_kind (ghost_init 1) !! i = Some k → False) as Hk.
  { intros i k Hi. apply (kind_lt sb) in Hi; [cbn in Hi; lia|done]. }
  assert (∀ raw, raw = 0 → head_is (grown sb s0 1) raw 0) as Hnull.
  { intros raw ->. split; [done|]. done. }
  constructor; try done; try (intros; exfalso; naive_solver).
  - constructor; try done; try (intros; exfalso; by eapply Hk).
    + exists 0. split; [|done]. apply (acpc_store_range db sb mb HG (rgs s0) (PtrCnt 0 0)); [apply HR|done|by left].
    + apply HR.
    + intros c Hc. exists 0. split; [|done]. apply Hnull. by apply Hpl.
    + intros t c. rewrite (rc_tc HR). done.
  - split; [done|apply HR].
  - intros p z. split.
    + intros [(i & c & fl & lk & Hi & _)|(i & k & Hi & _)]; exfalso; by eapply Hk.
    + intros (_ & Hp & [(j & c & Hj & (Hc & _) & Hb & ->)|(j & k & Hj & _ & _ & _ & _ & -> & _)]).
      * pose proof (blocks_range sb j c p Hc Hb). pose proof (B_le 1 j). lia.
      * pose proof (B_le 1 j). lia.
  - apply HR.
  - intros a. unfold sorted_marks. rewrite merge_sort_Permutation, elem_of_elements.
    split; [|by intros []]. intros Ha. split; [done|]. destruct (rc_marks HR a Ha) as [z Hz].
    destruct Hz as [(j & c & Hj & (Hc & _) & Hbj & ->)|(j & k & Hj & _ & _ & _ & _ & -> & _)].
    + pose proof (blocks_range sb j c a Hc Hbj). pose proof (B_le 1 j). lia.
    + apply B_le. lia.
  - apply sorted_lt.
    + apply (StronglySorted_merge_sort Z.le).
    + unfold sorted_marks. rewrite merge_sort_Permutation. apply NoDup_elements.
Qed.

(** The heap after a sweep: consistent, nothing cached, exactly the marked
    blocks in use, with the size their descriptors say and with their contents. *)
Record rebuilt (g : ghost) (s : state) : Prop := {
  rb_inv : Inv db sb mb g s;
  rb_set : settled g;
  rb_n : g_n g = n;
  rb_cache : ∀ tc, g_cache g tc = [];
  rb_live : ∀ p z, live sb g p z ↔ p ∈ K ∧ marked_at p z;
  rb_mem : ∀ p z a, live sb g p z → p ≤ a < p + z → load8 (smem s) a = load8 (smem s0) a;
  rb_rgs : rgs s = rgs s0;
  rb_roots : roots s = roots s0
}.

Lemma marked_below p z : marked_at p z → p < B sb n.
Proof using.
  intros [(j & c & Hj & (Hc & _) & Hb & _)|(j & k & Hj & Hk & _ & Hjk & _ & -> & _)].
  - pose proof (blocks_range sb j c p Hc Hb). pose proof (B_le (j + 1) n). lia.
  - unfold B. change SBSIZE with 65536. lia.
Qed.

Lemma swept_rebuilt marks head g s :
  swept n marks head g s →
  rebuilt g (set_avail_sb (acpc_store (rgs s) DESC_IDX (PtrCnt head 0)) s).
Proof using HG HR.
  intros H. pose proof H as [Hinv Hi En Hav Hset Hca Hlive Hds Hmem Hrg Hrt Htc _ _].
  assert (∀ p z, live sb g p z ↔ p ∈ K ∧ marked_at p z) as Hl.
  { intros p z. rewrite Hlive. split; [tauto|]. intros [? Hz]. pose proof (marked_below p z Hz). done. }
  constructor; try done.
  - unfold Inv. cbn [smem descs avail_sb heaps t_caches rgs set_avail_sb].
    eapply (InvC_kinds db sb mb g g _ (descs s)); try done; rewrite ?En, ?Hrg; try apply HR.
    + apply (iv_wf _ _ _ _ _ _ _ _ _ _ Hinv).
    + apply (iv_large _ _ _ _ _ _ _ _ _ _ Hinv).
    + exists head. split; [|done].
      apply (acpc_store_range db sb mb HG (rgs s0) (PtrCnt head 0)); [apply HR|done|by eapply swept_head].
  - intros p z a Hp Ha. apply Hl in Hp as [HpK Hz]. by eapply Hmem.
Qed.

(** Every step of the sweep succeeds, and the heap is rebuilt. *)
Theorem sweep_ok fuel :
  (∀ c, 1 ≤ c < MAX_SZ_IDX → partial_list (get_heap s0 c) = 0) →
  n ≤ Z.of_nat fuel → 8192 < Z.of_nat fuel →
  wp (sweep fuel K) (λ _ s, ∃ g, rebuilt g s) s0.
Proof using HG HR.
  intros Hpl Hn Hf. unfold sweep. pose proof n_max as Hnm. pose proof (rc_n HR) as Hn1.
  apply wp_bind, wp_get.
  assert (translate (rgs s0) SB_IDX SBSIZE = B sb 1) as ->.
  { unfold translate. rewrite (rlookup_sb db sb mb (rgs s0) (rc_rg HR)).
    pose proof (B_ok db sb mb HG 1 ltac:(done)) as HB. unfold B in *. rewrite Z.mul_1_l in *.
    apply u64_small. lia. }
  rewrite (desc_lookup_B db sb mb HG) by (apply HR || done).
  rewrite (region_at_curr _ _ (rc_reg HR)). apply wp_bind.
  eapply wp_mono; [apply (sweep_loop_spec fuel fuel 1 _ _ _ _ (swept_start Hpl)); lia|].
  intros [marks head] s (g & Hg). cbn [fst snd] in *. wp_steps.
  - apply bool_decide_eq_true. by eapply swept_nil.
  - exists g. by eapply swept_rebuilt.
Qed.
End SweepSpec.
