(* ===== verification/Recovery.v ===== *)
(** * Recovery as a whole

    What a crash leaves behind ([crash_image]) and what [GarbageCollection]
    makes of it: a consistent heap in which exactly the reachable blocks are in
    use, with their contents. *)

From Stdlib Require Import ZArith Lia.
From stdpp Require Import base gmap numbers functions list.
From S2P Require Import Prelude Mem Config Pptr SizeClass Region Meta MetaFacts TCache Heap BaseMeta Inv Ghost Rep Trans SbSpec CacheSpec FlushSpec AllocSpec InitSpec Refine Api GC GCMark GCSweep GCSpec.

Local Open Scope Z_scope.
#[local] Set Warnings "-clear-no-such-hyp".

Lemma reset_heaps_spec l s :
  ∃ hs pl, gc_reset_heaps l s =
      mkState (smem s) (descs s) (avail_sb s) hs (roots s) (t_caches s) (rgs s) pl ∧
    ∀ c, hs !! c = if decide (c ∈ l) then Some (mkHeap 0 (sc_idx (get_heap s c))) else heaps s !! c.
Proof.
  revert s. unfold gc_reset_heaps. induction l as [|i l IH]; intros s; cbn [foldl].
  - exists (heaps s), (plog s). split; [by destruct s|]. intros c. by rewrite decide_False by set_solver.
  - destruct (IH (put_heap i (mkHeap 0 (sc_idx (get_heap s i))) s)) as (hs & pl & E & Hhs). exists hs, pl.
    split; [exact E|]. intros c. rewrite Hhs. unfold get_heap at 1. cbn.
    destruct (decide (c = i)) as [->|Hne].
    + rewrite lookup_insert_eq. rewrite (decide_True (P := i ∈ i :: l)) by left. by case_decide.
    + rewrite lookup_insert_ne by done. fold (get_heap s c).
      destruct (decide (c ∈ l)); [rewrite decide_True by set_solver|rewrite decide_False by set_solver]; done.
Qed.

Lemma gc_start_spec s :
  ∃ hs pl, gc_start s = mkState (smem s) (descs s) 0 hs (roots s) (t_caches s) (rgs s) pl ∧
    ∀ c, 0 ≤ c < MAX_SZ_IDX → hs !! c = Some (mkHeap 0 (sc_idx (get_heap s c))).
Proof.
  destruct (reset_heaps_spec (seqZ 0 MAX_SZ_IDX) (set_avail_sb 0 s)) as (hs & pl & E & Hhs).
  exists hs, pl. split; [exact E|]. intros c Hc. rewrite Hhs, decide_True; [done|]. apply elem_of_seqZ. lia.
Qed.

Lemma gc_start_same s : rgs (gc_start s) = rgs s ∧ ∀ i, get_root_raw (gc_start s) i = get_root_raw s i.
Proof. destruct (gc_start_spec s) as (hs & pl & -> & _). by split. Qed.

(** ** A crash *)

(** The image [s'] found after a crash in state [s] with the blocks [L] in use,
    mapped where it was: the four fields of the descriptors of these blocks, the
    heaps' classes, the roots and the contents of the blocks survive; caches are
    gone; everything else (free lists, anchors, partial lists, other descriptors,
    the rest of the memory) is arbitrary. *)
Record crash_image (L : gmap Z Z) (s s' : state) : Prop := {
  ci_rgs : rgs s' = rgs s;
  ci_roots : ∀ i, get_root_raw s' i = get_root_raw s i;
  ci_tc : t_caches s' = ∅;
  ci_heaps : ∀ c, 0 ≤ c < MAX_SZ_IDX → sc_idx (get_heap s' c) = sc_idx (get_heap s c);
  ci_pers : ∀ p z, L !! p = Some z → let d := desc_lookup (rgs s) p in
    pers (get_desc s' d) = pers (get_desc s d);
  ci_mem : same_on L (smem s) (smem s')
}.

Section Recover.
Context (db sb mb : Z) (HG : geom db sb mb).

(** The descriptor of a block in use is found at its superblock's index. *)
Lemma crash_pers g L s s' p z i :
  Inv db sb mb g s → (∀ q w, L !! q = Some w ↔ live sb g q w) → crash_image L s s' →
  live sb g p z → (∃ k, g_kind g !! i = Some k) → B sb i ≤ p < B sb (i + 1) →
  let d := get_desc s (D db i) in let d' := get_desc s' (D db i) in
  heap d' = heap d ∧ superblock d' = superblock d ∧ dblock_size d' = dblock_size d ∧ maxcount d' = maxcount d.
Proof using HG.
  intros H HL Hcr Hp Hi Hr d d'. apply HL in Hp. apply pers_eq.
  destruct (free_lookup db sb mb HG g s i p H Hi Hr) as (_ & _ & E & _).
  pose proof (ci_pers _ _ _ Hcr p z Hp) as HP. cbn zeta in HP. by rewrite E in HP.
Qed.

Lemma crash_marked g L s s' p z (K : gset Z) :
  Inv db sb mb g s → (∀ q w, L !! q = Some w ↔ live sb g q w) → crash_image L s s' →
  (∀ a, a ∈ K → ∃ z, live sb g a z) →
  live sb g p z → marked_at db sb K (g_n g) (gc_start s') p z.
Proof using HG.
  intros H HL Hcr HK Hl. pose proof (iv_wf _ _ _ _ _ _ _ _ _ _ H) as Hwf.
  destruct (gc_start_spec s') as (hs & pl0 & E & _). unfold marked_at. rewrite E.
  pose proof Hl as [(i & c & fl & lk & Hi & Hb & Ho & ->)|(i & k & Hi & -> & ->)].
  - left. exists i, c. pose proof (kind_lt _ _ _ _ Hwf Hi) as Hlt. split; [done|]. split; [|done].
    pose proof (gw_cls _ _ Hwf _ _ _ _ Hi) as Hc.
    destruct (iv_small _ _ _ _ _ _ _ _ _ _ H _ _ _ _ Hi) as [(D1 & D2 & D3 & D4 & _) _].
    destruct (crash_pers g L s s' p (bs c) i H HL Hcr Hl ltac:(eauto) (blocks_range sb i c p Hc Hb))
      as (E1 & E2 & E3 & E4).
    split; [done|]. unfold get_desc in *. cbn [descs]. split_and!; etrans; (eassumption || done).
  - right. exists i, k. pose proof (kind_lt _ _ _ _ Hwf Hi) as Hlt.
    destruct (gw_large _ _ Hwf _ _ Hi) as (H1 & H2 & H3 & _). split_and!; try done; try lia.
    + destruct (iv_large _ _ _ _ _ _ _ _ _ _ H _ _ Hi) as (D1 & D2 & D3 & D4).
      destruct (crash_pers g L s s' (B sb i) (k * SBSIZE) i H HL Hcr Hl ltac:(eauto)) as (E1 & E2 & E3 & E4).
      { unfold B. change SBSIZE with 65536. lia. }
      unfold get_desc in *. split_and!; etrans; (eassumption || done).
    + intros b HbK [Hb1 Hb2]. destruct (HK b HbK) as [w Hw].
      assert (b ≠ B sb i) as Hne.
      { intros ->. unfold B in Hb1. change SBSIZE with 65536 in Hb1. lia. }
      rewrite B_add in Hb2.
      assert (0 < w) as Hw0.
      { destruct Hw as [(j & c & fl & lk & Hj & _ & _ & ->)|(j & k' & Hj & _ & ->)].
        - destruct (bs_mc c (gw_cls _ _ Hwf _ _ _ _ Hj)). lia.
        - destruct (gw_large _ _ Hwf _ _ Hj). change SBSIZE with 65536. lia. }
      unfold B in Hb1. change SBSIZE with 65536 in *.
      destruct (live_disjoint sb g b w (B sb i) (k * 65536) Hwf Hw Hl Hne);
        unfold B in *; change SBSIZE with 65536 in *; lia.
Qed.

Lemma crash_recoverable g L s s' (K : gset Z) :
  Inv db sb mb g s → (∀ q w, L !! q = Some w ↔ live sb g q w) →
  crash_image L s s' →
  (∀ a, a ∈ K → ∃ z, live sb g a z) → recoverable db sb mb K (g_n g) (gc_start s').
Proof using HG.
  intros H HL Hcr HK. destruct (gc_start_spec s') as (hs & pl0 & E & Hhs).
  pose proof (ci_rgs _ _ _ Hcr) as Er. constructor; rewrite ?E; cbn [rgs t_caches]; rewrite ?Er; try (by apply H); try done.
  - eapply iv_n; exact H.
  - intros c Hc. unfold get_heap. cbn [heaps]. rewrite Hhs by done. cbn.
    rewrite (ci_heaps _ _ _ Hcr c Hc). by apply (iv_heaps _ _ _ _ _ _ _ _ _ _ H).
  - apply Hcr.
  - intros a Ha. destruct (HK a Ha) as [z Hz]. exists z.
    pose proof (crash_marked g L s s' a z K H HL Hcr HK Hz) as Hm. rewrite E in Hm. exact Hm.
Qed.

(** Write-backs and fences change nothing but the log. *)
Lemma flush_lines_run l s : ∃ pl, flush_lines l s =
  Ok (tt, mkState (smem s) (descs s) (avail_sb s) (heaps s) (roots s) (t_caches s) (rgs s) pl).
Proof using.
  revert s. induction l as [|a l IH]; intros s; cbn [flush_lines foldr].
  - exists (plog s). by destruct s.
  - destruct (IH (log (EFlush a) s)) as [pl E]. exists pl. exact E.
Qed.

(** What recovery leaves of the blocks [L] when [K] is marked. *)
Definition survivors (K : gset Z) (L : gmap Z Z) : gmap Z Z := filter (λ pz, pz.1 ∈ K) L.

Lemma survivors_Some K L p z : survivors K L !! p = Some z ↔ p ∈ K ∧ L !! p = Some z.
Proof using. unfold survivors. rewrite map_lookup_filter_Some. cbn. naive_solver. Qed.

(** Recovery established: a consistent heap, nothing cached, and exactly the
    marked blocks in use, each with its size and contents. *)
Record recovered (L : gmap Z Z) (s : state) (K : gset Z) (s' : state) : Prop := {
  rd_rep : heap_rep db sb mb (survivors K L) s';
  rd_mem : same_on (survivors K L) (smem s) (smem s');
  rd_cache : ∀ t c, get_block_num s' t c = 0;
  rd_rgs : rgs s' = rgs s;
  rd_roots : ∀ i, get_root_raw s' i = get_root_raw s i
}.

Lemma recovered_log L s K m ds av hs rt tc rg pl pl' :
  recovered L s K (mkState m ds av hs rt tc rg pl) → recovered L s K (mkState m ds av hs rt tc rg pl').
Proof using. intros [H1 H2 H3 H4 H5]. constructor; done. Qed.

(** Sizes are determined by the persisted descriptors. *)
Lemma rebuilt_recovered g L s s' K g' s2 :
  Inv db sb mb g s → (∀ q w, L !! q = Some w ↔ live sb g q w) → crash_image L s s' →
  (∀ a, a ∈ K → ∃ z, live sb g a z) →
  rebuilt db sb mb K (g_n g) (gc_start s') g' s2 → recovered L s K s2.
Proof using HG.
  intros H HL Hcr HK [R1 R2 R3 R4 R5 R6 R7 R8]. destruct (gc_start_spec s') as (hs & pl0 & E & _).
  assert (∀ p z, live sb g' p z ↔ p ∈ K ∧ live sb g p z) as Hl.
  { intros p z. split.
    - intros Hp. pose proof Hp as [HpK Hm]%R5. split; [done|]. destruct (HK p HpK) as [w Hw].
      assert (live sb g' p w) as Hp' by (apply R5; split; [done|by eapply crash_marked]).
      rewrite (live_fun sb g' p z w); try done. eapply iv_wf; exact R1.
    - intros [HpK Hz]. apply R5. split; [done|]. by eapply crash_marked. }
  assert (∀ p z, survivors K L !! p = Some z ↔ live sb g' p z) as HS.
  { intros p z. rewrite survivors_Some, HL. symmetry. apply Hl. }
  constructor.
  - by exists g'.
  - intros a (p & z & Hp & Ha). rewrite (R6 p z a); [|by apply HS|done]. rewrite E. cbn [smem].
    apply (ci_mem _ _ _ Hcr). apply survivors_Some in Hp as [_ Hp]. by exists p, z.
  - intros t c. pose proof (proj1 (iv_cache _ _ _ _ _ _ _ _ _ _ R1 t c)) as Hn.
    rewrite R4 in Hn. exact Hn.
  - rewrite R7, E. apply Hcr.
  - intros i. unfold get_root_raw. rewrite R8, E. apply Hcr.
Qed.

(** Recovery from any image a crash may leave: if the reachable addresses are
    addresses of blocks in use, it succeeds, and keeps the marked ones. *)
Lemma gc_run_ok uf fs fuel L s s' :
  heap_rep db sb mb L s → crash_image L s s' →
  (∀ i, 0 ≤ i < MAX_ROOTS → CrossPtr_is_null (get_root_raw s i) = false → is_Some (fs !! i)) →
  (∀ a T, reach uf (gc_start s') fs a T → is_Some (L !! a)) →
  (enough_fuel ≤ fuel)%nat → (range_size (gc_start s') < fuel)%nat →
  wp (gc_run uf fuel fs) (λ K s2, marked_set uf (gc_start s') fs K ∧ recovered L s K s2) s'.
Proof using HG.
  intros (g & H & _ & HL) Hcr Hfs Hreach Hf1 Hf2. destruct (gc_start_spec s') as (hs & pl0 & E & Hhs).
  destruct (mark_set uf (gc_start s') fs fuel Hf2) as (gm & Em & HK).
  { intros i Hi Hn. apply Hfs; [done|]. by rewrite <- Hn, E, <- (ci_roots _ _ _ Hcr). }
  assert (∀ a, a ∈ marked_blk gm → ∃ z, live sb g a z) as Hlive.
  { intros a Ha. destruct (mk_reach _ _ _ _ HK a Ha) as [T HT]. destruct (Hreach a T HT) as [z Hz].
    exists z. by apply HL. }
  pose proof (crash_recoverable g L s s' (marked_blk gm) H HL Hcr Hlive) as HR.
  assert (0 < g_n g < MAX_DESC_AMOUNT) as Hn.
  { eapply inv_index; [done|]. pose proof (iv_n _ _ _ _ _ _ _ _ _ _ H). lia. }
  unfold gc_run. apply wp_bind, wp_mod.
  remember (gc_start s') as s1 eqn:E1. apply wp_bind, wp_get, wp_bind. eapply wp_lift; [exact Em|].
  apply wp_bind.
  eapply wp_mono.
  { apply (sweep_ok db sb mb HG _ _ _ HR).
    - intros c Hc. unfold get_heap. rewrite E. cbn [heaps]. by rewrite Hhs by lia.
    - unfold enough_fuel in Hf1. change MAX_SB_AMOUNT with MAX_DESC_AMOUNT in Hf1. lia.
    - unfold enough_fuel in Hf1. change MAX_SB_AMOUNT with (2 ^ 24) in Hf1. lia. }
  cbn beta. intros _ s2 (g' & Hg').
  rewrite E1 in Hg'.
  pose proof (rebuilt_recovered g L s s' _ g' s2 H HL Hcr Hlive Hg') as Hrec. clear E1.
  unfold flush_region, FLUSHFENCE. wp_steps.
  destruct (flush_lines_run (flush_region_lines (rgs s2) DESC_IDX) s2) as [pl1 E1].
  apply wp_spec. eexists _, _. split; [exact E1|]. wp_steps.
  match goal with |- wp (flush_lines ?l) _ ?S => destruct (flush_lines_run l S) as [pl2 E2] end.
  apply wp_spec. eexists _, _. split; [exact E2|]. wp_steps.
  match goal with |- wp (flush_lines ?l) _ ?S => destruct (flush_lines_run l S) as [pl3 E3] end.
  apply wp_spec. eexists _, _. split; [exact E3|]. wp_steps. split; [done|].
  destruct s2. exact (recovered_log _ _ _ _ _ _ _ _ _ _ _ _ Hrec).
Qed.
End Recover.
