(* ===== verification/Relocate.v ===== *)
(** * A heap mapped elsewhere

    The three files of a heap may be mapped at other addresses by the next
    process. Pptrs hold distances, [CrossPtr]s offsets from their region, so the
    bytes at the new addresses are a consistent heap again: the same one with all
    block addresses displaced, provided the superblock region keeps its alignment
    to a superblock. *)

From Stdlib Require Import ZArith Lia.
From stdpp Require Import base gmap numbers functions list.
From S2P Require Import Prelude Mem Config Pptr SizeClass Region Meta MetaFacts TCache Heap BaseMeta Inv Ghost Rep Trans SbSpec CacheSpec FlushSpec AllocSpec Refine.

Local Open Scope Z_scope.
#[local] Set Warnings "-clear-no-such-hyp".

#[export] Instance add_inj d : Inj eq eq (Z.add d).
Proof. intros x y. lia. Qed.

(** ** Displaced words *)

Lemma from_pptr_off_shift raw a d v :
  from_pptr_off raw a = v → v ≠ 0 → 0 ≤ d + v < 2 ^ 64 → from_pptr_off raw (d + a) = d + v.
Proof.
  unfold from_pptr_off. destruct (negb _ || _); [by intros <-|]. intros E Hv Hr.
  destruct (Z.odd raw); rewrite <- E in Hr |- *; unfold u64 in *.
  - rewrite <- (Z.mod_small _ _ Hr), Zplus_mod_idemp_r. f_equal. lia.
  - rewrite <- (Z.mod_small _ _ Hr), Zplus_mod_idemp_r. f_equal. lia.
Qed.

Lemma link_load_shift raw a d v :
  link_load a raw = v → 0 ≤ v → (v ≠ 0 → 0 < d + v < 2 ^ 64) →
  link_load (d + a) raw = if decide (v = 0) then 0 else d + v.
Proof.
  intros E Hv Hr. pose proof (link_load_val a raw ltac:(lia)) as Ev. rewrite E in Ev.
  case_decide as Hz.
  - rewrite Hz in E, Ev. unfold link_load in E |- *. rewrite Ev, Z.eqb_refl in E.
    unfold from_pptr_off. destruct (is_valid_pptr raw), (is_null_pptr raw); cbn in *; lia.
  - specialize (Hr Hz). unfold link_load.
    rewrite (from_pptr_off_shift raw a d v Ev Hz) by lia.
    by rewrite (proj2 (Z.eqb_neq (d + v) 0)) by lia.
Qed.

(** [m'] is [m] displaced by [d]. *)
Definition displaced (d : Z) (m m' : mem) : Prop := ∀ a, load8 m' (d + a) = load8 m a.

Lemma load_le_displaced d m m' n a : displaced d m m' → load_le n m' (d + a) = load_le n m a.
Proof.
  intros H. revert a. induction n as [|n IH]; intros a; cbn [load_le]; [done|].
  rewrite H, <- IH. by rewrite Z.add_assoc.
Qed.

Lemma pload_displaced d m m' a :
  displaced d m m' → pload m a ≠ 0 → 0 ≤ d + pload m a < 2 ^ 64 → pload m' (d + a) = d + pload m a.
Proof.
  intros H Hv Hr. unfold pload, load64. rewrite (load_le_displaced d m m') by done.
  by apply (from_pptr_off_shift _ a).
Qed.

Lemma chain_displaced d m m' b l :
  displaced d m m' → (∀ x, x ∈ l → x ≠ 0 ∧ 0 ≤ d + x < 2 ^ 64) →
  chain m b l → chain m' (d + b) (Z.add d <$> l).
Proof.
  intros Hm. revert b. induction l as [|x l IH]; intros b Hl; cbn [chain fmap list_fmap]; [done|].
  intros [-> Hc]. split; [done|]. destruct l as [|y l]; [done|].
  assert (pload m x = y) as Ey by (by destruct Hc).
  destruct (Hl y ltac:(set_solver)) as [Hy Hr].
  rewrite (pload_displaced d m m') by (rewrite ?Ey; done).
  apply IH; [|done]. intros z Hz. apply Hl. by right.
Qed.

(** ** Displaced lists of descriptors *)

Lemma D_shift dd db i : D (dd + db) i = dd + D db i.
Proof. unfold D. lia. Qed.

Lemma B_shift d sb i : B (d + sb) i = d + B sb i.
Proof. unfold B. lia. Qed.

Definition move_ptr (d p : Z) : Z := if decide (p = 0) then 0 else d + p.

Lemma dchain_displaced db dd nxt nxt' p l :
  (∀ i, i ∈ l → D db i ≠ 0 ∧ D (dd + db) i ≠ 0) →
  (∀ i, i ∈ l → (nxt (D db i) = 0 ∨ ∃ j, j ∈ l ∧ nxt (D db i) = D db j) →
    nxt' (D (dd + db) i) = move_ptr dd (nxt (D db i))) →
  dchain db nxt p l → dchain (dd + db) nxt' (move_ptr dd p) l.
Proof.
  revert p. induction l as [|i l IH]; intros p Hl Hn; cbn [dchain].
  { intros ->. unfold move_ptr. by rewrite decide_True. }
  intros [-> Hc]. destruct (Hl i ltac:(left)) as [Hi Hi'].
  assert (move_ptr dd (D db i) = D (dd + db) i) as ->
    by (unfold move_ptr; rewrite decide_False by done; by rewrite D_shift).
  split; [done|]. rewrite Hn; [|left|].
  - apply IH; [intros j Hj; apply Hl; by right| |done].
    intros j Hj Hx. apply Hn; [by right|]. destruct Hx as [?|(k & Hk & E)]; [by left|].
    right. exists k. split; [by right|done].
  - destruct l as [|j l]; cbn in Hc; [by left|]. destruct Hc as [E _]. right. exists j.
    split; [set_solver|done].
Qed.

Lemma head_displaced db sb mb db' sb' mb' rg rg' raw p :
  geom db sb mb → geom db' sb' mb' → rg_at rg db sb mb → rg_at rg' db' sb' mb' →
  head_is rg raw p → head_is rg' raw (move_ptr (db' - db) p).
Proof.
  intros HG HG' Hrg Hrg' [Hr E]. split; [done|]. unfold acpc_unpack in *. cbn [get_ptr] in *.
  unfold translate in *. rewrite (rlookup_desc db sb mb _ Hrg) in E.
  rewrite (rlookup_desc db' sb' mb' _ Hrg'). destruct HG, HG'.
  change MAX_DESC_REGION_SIZE with (2 ^ 30) in *. change MAX_DESC_OFFSET_MASK with (2 ^ 30 - 1) in *.
  rewrite (land_mask raw 30) in * by lia. pose proof (Z.mod_pos_bound raw (2 ^ 30) ltac:(lia)).
  unfold move_ptr. destruct (Z.eqb_spec (raw mod 2 ^ 30) 0) as [E0|E0].
  - subst p. by rewrite decide_True.
  - rewrite u64_small in * by lia. subst p. rewrite decide_False by lia. lia.
Qed.

(** ** The displaced ghost *)

Definition shift_kind (d : Z) (k : kind) : kind :=
  match k with KSmall c fl lk => KSmall c (Z.add d <$> fl) lk | _ => k end.

Definition gh_shift (d : Z) (g : ghost) : ghost :=
  mkGhost (g_n g) (shift_kind d <$> g_kind g) (kmap (Z.add d) (g_own g)) (g_avail g) (g_part g)
    (λ tc, Z.add d <$> g_cache g tc).

Lemma blocks_shift d sb i c : blocks (d + sb) i c = Z.add d <$> blocks sb i c.
Proof.
  unfold blocks. rewrite <- list_fmap_compose. apply list_fmap_ext. intros _ k _.
  cbn. unfold blk. rewrite B_shift. lia.
Qed.

Lemma elem_of_shift d (l : list Z) b : b ∈ Z.add d <$> l ↔ b - d ∈ l.
Proof.
  rewrite list_elem_of_fmap. split.
  - intros (x & -> & Hx). by replace (d + x - d) with x by lia.
  - intros H. exists (b - d). split; [lia|done].
Qed.

Lemma kind_shift d g i k' :
  g_kind (gh_shift d g) !! i = Some k' ↔ ∃ k, g_kind g !! i = Some k ∧ k' = shift_kind d k.
Proof.
  cbn. rewrite lookup_fmap. split.
  - intros (k & -> & Hk)%fmap_Some. by exists k.
  - intros (k & -> & ->). done.
Qed.

Lemma small_shift d g i c fl' lk :
  g_kind (gh_shift d g) !! i = Some (KSmall c fl' lk) ↔
  ∃ fl, g_kind g !! i = Some (KSmall c fl lk) ∧ fl' = Z.add d <$> fl.
Proof.
  rewrite kind_shift. split.
  - intros (k & Hk & E). destruct k; cbn in E; simplify_eq. eauto.
  - intros (fl & Hk & ->). by exists (KSmall c fl lk).
Qed.

Lemma other_shift d g i k :
  (∀ c fl lk, k ≠ KSmall c fl lk) → g_kind (gh_shift d g) !! i = Some k ↔ g_kind g !! i = Some k.
Proof.
  intros Hk. rewrite kind_shift. split.
  - intros (k0 & H0 & ->). destruct k0; try done. by destruct (Hk c (Z.add d <$> fl) lk).
  - intros H. exists k. split; [done|]. destruct k; try done. by destruct (Hk c fl lk).
Qed.

Lemma own_shift d g b : g_own (gh_shift d g) !! b = g_own g !! (b - d).
Proof.
  unfold gh_shift, g_own at 1. transitivity (kmap (M2 := gmap Z) (Z.add d) (g_own g) !! (d + (b - d))).
  - f_equal. lia.
  - by rewrite (lookup_kmap (M2 := gmap Z) (Z.add d)).
Qed.

Lemma gwf_shift d sb g : gwf sb g → gwf (d + sb) (gh_shift d g).
Proof.
  intros [W1 W2 W3 W4 W5 W6 W7 W8 W9 W10 W11 W12 W13]. constructor; try done.
  - intros i. cbn. rewrite lookup_fmap, fmap_is_Some. apply W1.
  - intros i. rewrite other_shift by done. apply W3.
  - intros c i. cbn [g_part gh_shift]. rewrite W5. split.
    + intros [fl H]. exists (Z.add d <$> fl). apply small_shift. eauto.
    + intros [fl' (fl & H & _)%small_shift]. eauto.
  - intros i c fl' lk (fl & H & _)%small_shift. eauto.
  - intros i k. rewrite other_shift by done. intros H. destruct (W7 i k H) as (? & ? & ? & Ht).
    split; [done|]. split; [done|]. split; [done|]. intros j Hj. apply other_shift; [done|]. auto.
  - intros b. rewrite own_shift, W8. split.
    + intros (i & c & fl & lk & H & Hb). exists i, c, (Z.add d <$> fl), lk.
      split; [apply small_shift; eauto|]. by rewrite blocks_shift, elem_of_shift.
    + intros (i & c & fl' & lk & (fl & H & _)%small_shift & Hb). exists i, c, fl, lk.
      split; [done|]. by rewrite blocks_shift, elem_of_shift in Hb.
  - intros i c fl' lk (fl & H & ->)%small_shift. apply (NoDup_fmap_2 _). eauto.
  - intros i c fl' lk (fl & H & ->)%small_shift b.
    rewrite elem_of_shift, own_shift, blocks_shift, elem_of_shift. by apply (W10 i c fl lk).
  - intros tc. cbn. apply (NoDup_fmap_2 _). apply W11.
  - intros t c b. cbn [g_cache gh_shift]. rewrite elem_of_shift, own_shift, W12.
    split; intros (H1 & i & fl & lk & H2 & H3); (split; [done|]).
    + exists i, (Z.add d <$> fl), lk. split; [apply small_shift; eauto|].
      by rewrite blocks_shift, elem_of_shift.
    + apply small_shift in H2 as (fl0 & H2 & _). exists i, fl0, lk.
      by rewrite blocks_shift, elem_of_shift in H3.
  - intros t c. cbn [g_cache gh_shift]. rewrite length_fmap. apply W13.
Qed.

Lemma settled_shift d g : settled g → settled (gh_shift d g).
Proof.
  intros [S1 S2]. split.
  - intros i. rewrite other_shift by done. apply S1.
  - intros i c fl' lk (fl & H & ->)%small_shift. rewrite (S2 i c fl lk H).
    by destruct fl.
Qed.

Lemma live_shift d sb g p z : live (d + sb) (gh_shift d g) p z ↔ live sb g (p - d) z.
Proof.
  unfold live. split.
  - intros [(i & c & fl' & lk & (fl & H & _)%small_shift & Hb & Ho & ->)|(i & k & Hi & -> & ->)].
    + left. exists i, c, fl, lk. rewrite blocks_shift, elem_of_shift in Hb.
      rewrite own_shift in Ho. done.
    + right. exists i, k. rewrite other_shift in Hi by done. rewrite B_shift.
      split; [done|]. split; [lia|done].
  - intros [(i & c & fl & lk & H & Hb & Ho & ->)|(i & k & Hi & Ep & ->)].
    + left. exists i, c, (Z.add d <$> fl), lk. rewrite blocks_shift, elem_of_shift, own_shift.
      split; [apply small_shift; eauto|done].
    + right. exists i, k. rewrite other_shift by done. rewrite B_shift.
      split; [done|]. split; [lia|done].
Qed.

(** ** The displaced heap *)

(** [s'] is the heap of [s] with the descriptor region displaced by [dd] and the
    superblock region by [d]: same bytes, same words in the metadata; what the
    caches hold is displaced too. *)
Record remapped (dd d : Z) (s s' : state) : Prop := {
  rm_mem : displaced d (smem s) (smem s');
  rm_desc : ∀ a, get_desc s' (dd + a) = get_desc s a;
  rm_avail : avail_sb s' = avail_sb s;
  rm_heaps : heaps s' = heaps s;
  rm_roots : roots s' = roots s;
  rm_caches : ∀ t c, get_block_num s' t c = get_block_num s t c ∧
    (0 < get_block_num s t c → peek_block s' t c = d + peek_block s t c)
}.

(** A region mapped at a distance [d] from where it was. *)
Definition moved_region (d : Z) (r r' : RegionManager) : Prop :=
  FILESIZE r' = FILESIZE r ∧ base_addr r' = d + base_addr r ∧ rfile r' = rfile r.

Lemma region_at_moved d r r' c :
  region_at r c → moved_region d r r' → 0 < base_addr r' → addr_ok (base_addr r' + FILESIZE r') →
  region_at r' (d + c).
Proof.
  intros (R1 & R2 & R3 & R4 & R5) (M1 & M2 & M3) Hb He. unfold region_at, addr_ok in *.
  rewrite M1, M2, M3 in *. split_and!; try lia. rewrite R4.
  rewrite !to_pptr_off_arith by (unfold addr_ok; lia).
  rewrite !(proj2 (Z.eqb_neq _ 0)) by lia.
  destruct (Z.ltb_spec (base_addr r) c), (Z.ltb_spec (d + base_addr r) (d + c)); lia.
Qed.

Section Reloc.
Context (db sb mb db' d mb' : Z) (HG : geom db sb mb) (HG' : geom db' (d + sb) mb').

Lemma anchor_shift i c fl a : anchor_rep sb i c fl a → anchor_rep (d + sb) i c (Z.add d <$> fl) a.
Proof using.
  intros [H1 H2]. split; [done|]. destruct fl as [|b fl]; cbn [fmap list_fmap length]; [done|].
  rewrite length_fmap. destruct H2 as (-> & H2 & H3). split; [|done].
  unfold blk. rewrite B_shift. lia.
Qed.

(** Block addresses stay addresses after the displacement. *)
Lemma block_moved g s i c b :
  Inv db sb mb g s → (∃ k, g_kind g !! i = Some k) → 1 ≤ c < MAX_SZ_IDX → b ∈ blocks sb i c →
  b ≠ 0 ∧ 0 ≤ d + b < 2 ^ 64.
Proof using HG HG'.
  intros H [k Hk] Hc Hb. pose proof (iv_wf _ _ _ _ _ _ _ _ _ _ H) as Hwf.
  pose proof (kind_lt _ _ _ _ Hwf Hk) as Hn. pose proof (blocks_range sb i c b Hc Hb) as Hr.
  assert (0 < i < MAX_DESC_AMOUNT) as Hi by (eapply inv_kind_index; [exact H|exact Hk]).
  change MAX_DESC_AMOUNT with MAX_SB_AMOUNT in Hi.
  destruct (B_addr_ok db sb mb HG i b) as [_ H0]; [lia|lia|].
  destruct (B_addr_ok db' (d + sb) mb' HG' i (d + b)) as [H1 _]; [lia|rewrite !B_shift; lia|].
  unfold addr_ok in H1. lia.
Qed.

Lemma chain_moved g s s' i c fl lk :
  Inv db sb mb g s → displaced d (smem s) (smem s') → g_kind g !! i = Some (KSmall c fl lk) →
  chain (smem s) (from_option id 0 (head fl)) fl →
  chain (smem s') (from_option id 0 (head (Z.add d <$> fl))) (Z.add d <$> fl).
Proof using HG HG'.
  intros H Hm Hk Hc. pose proof (iv_wf _ _ _ _ _ _ _ _ _ _ H) as Hwf.
  assert (chain (smem s') (d + from_option id 0 (head fl)) (Z.add d <$> fl)) as Hc'.
  { apply (chain_displaced d (smem s)); [done| |done]. intros x Hx.
    apply (gw_fl _ _ Hwf _ _ _ _ Hk) in Hx as [_ Hx].
    eapply block_moved; eauto. by eapply gw_cls. }
  destruct fl as [|b fl]; [done|exact Hc'].
Qed.

(** Descriptor lists stay lists. *)
Lemma links_moved (ds ds' : gmap Z Descriptor) (cell : Z → Z) (fld : Descriptor → Z) p l :
  (∀ a, cell (db' - db + a) = db' - db + cell a) → list_ok l → (∀ a, dget ds' (db' - db + a) = dget ds a) →
  dchain db (λ a, link_load (cell a) (fld (dget ds a))) p l →
  dchain db' (λ a, link_load (cell a) (fld (dget ds' a))) (move_ptr (db' - db) p) l.
Proof using HG HG'.
  intros Ho Hl Hds Hc. replace db' with (db' - db + db) at 1 by lia.
  assert (∀ i, i ∈ l → 0 < D db i < 2 ^ 47 ∧ 0 < D db' i < 2 ^ 47) as HD.
  { intros i Hi. specialize (Hl i Hi). split; [apply (D_ok db sb mb HG)|apply (D_ok db' _ mb' HG')]; lia. }
  eapply (dchain_displaced db (db' - db)); [| |exact Hc].
  - intros i Hi. destruct (HD i Hi). rewrite D_shift. unfold D in *. lia.
  - intros i Hi Hn. rewrite D_shift, Hds, Ho.
    unfold move_ptr. apply link_load_shift; [done| |].
    + destruct Hn as [->|(j & Hj & ->)]; [lia|]. destruct (HD j Hj). lia.
    + destruct Hn as [->|(j & Hj & ->)]; [done|]. destruct (HD j Hj).
      intros _. unfold D in *. lia.
Qed.

Lemma reloc_inv g s s' :
  Inv db sb mb g s → remapped (db' - db) d s s' →
  rg_at (rgs s') db' (d + sb) mb' → length (regions (rgs s')) = LAST_IDX →
  moved_region d (rget (rgs s) SB_IDX) (rget (rgs s') SB_IDX) → 0 < base_addr (rget (rgs s') SB_IDX) →
  Inv db' (d + sb) mb' (gh_shift d g) s'.
Proof using HG HG'.
  intros H [Mm Md Ma Mh _ Mc] Hrg Hlen Hmv Hb. pose proof H as [Vwf Vrg Vlen Vn Vreg Vmax Vsm Vlg Vav Vhs Vpt Vca].
  assert (db' - db + db = db') as Edb by lia.
  assert (∀ a, dget (descs s') (db' - db + a) = dget (descs s) a) as Md' by exact Md.
  assert (∀ i, dget (descs s') (D db' i) = dget (descs s) (D db i)) as HD.
  { intros i. rewrite <- Edb at 1. rewrite D_shift. apply Md'. }
  pose proof Hmv as (M1 & M2 & M3). constructor; try done.
  - by apply gwf_shift.
  - cbn [g_n gh_shift]. rewrite B_shift. eapply region_at_moved; [done..|].
    rewrite M1, M2. destruct Vmax as [_ Vmax]. pose proof (B_ok db' (d + sb) mb' HG' MAX_SB_AMOUNT ltac:(done)) as HB.
    rewrite B_shift in HB. unfold addr_ok. destruct Vreg as (R1 & R2 & R3 & _ & R5). rewrite M2 in Hb. unfold addr_ok in *. lia.
  - rewrite M1, M2, B_shift. destruct Vmax. split; lia.
  - intros i c fl' lk (fl & Hk & ->)%small_shift. destruct (Vsm _ _ _ _ Hk) as [(D1 & D2 & D3 & D4 & D5) Hch].
    split; [|by eapply chain_moved]. rewrite HD. split_and!; try done. by apply anchor_shift.
  - intros i k Hk. rewrite other_shift in Hk by done. rewrite HD. by apply Vlg.
  - destruct Vav as (p & Hp & Hch). exists (move_ptr (db' - db) p). rewrite Ma. split.
    + by eapply (head_displaced db sb mb).
    + apply (links_moved (descs s) (descs s') (λ a, a) next_free p); [done|exact (inv_avail_ok _ _ _ _ _ _ _ _ _ _ H)|done|done].
  - intros c Hc. rewrite Mh. by apply Vhs.
  - intros c Hc. destruct (Vpt c Hc) as (p & Hp & Hch). exists (move_ptr (db' - db) p). rewrite Mh. split.
    + by eapply (head_displaced db sb mb).
    + apply (links_moved (descs s) (descs s') (λ a, a + 8) next_partial p);
        [lia|exact (inv_part_ok _ _ _ _ _ _ _ _ _ _ c H)|done|done].
  - intros t c. destruct (Mc t c) as [En Eb].
    assert (get_block_num s t c = Z.of_nat (length (g_cache g (t, c))) ∧
      chain (smem s) (peek_block s t c) (g_cache g (t, c))) as [Hn Hch] by exact (Vca t c).
    change (get_block_num s' t c = Z.of_nat (length (g_cache (gh_shift d g) (t, c))) ∧
      chain (smem s') (peek_block s' t c) (g_cache (gh_shift d g) (t, c))).
    cbn [g_cache gh_shift]. rewrite length_fmap, En. split; [done|].
    destruct (g_cache g (t, c)) as [|b l] eqn:Ec; [done|]. rewrite <- Ec in *.
    rewrite Eb by (rewrite Hn, Ec; cbn [length]; lia).
    apply (chain_displaced d (smem s)); [done| |done]. intros x Hx.
    apply (gw_cache _ _ Vwf) in Hx as [_ (i & fl & lk & Hi & Hx)].
    eapply block_moved; eauto. by eapply gw_cls.
Qed.
(** The live blocks move with the superblock region. *)
Lemma reloc_rep L s s' :
  heap_rep db sb mb L s → remapped (db' - db) d s s' →
  rg_at (rgs s') db' (d + sb) mb' → length (regions (rgs s')) = LAST_IDX →
  moved_region d (rget (rgs s) SB_IDX) (rget (rgs s') SB_IDX) → 0 < base_addr (rget (rgs s') SB_IDX) →
  heap_rep db' (d + sb) mb' (kmap (Z.add d) L) s'.
Proof using HG HG'.
  intros (g & H & Hs & HL) Hm Hrg Hlen Hmv Hb. exists (gh_shift d g).
  split; [by eapply reloc_inv|]. split; [by apply settled_shift|]. intros p z.
  rewrite live_shift, <- HL. replace p with (d + (p - d)) at 1 by lia.
  by rewrite (lookup_kmap (M2 := gmap Z) (Z.add d)).
Qed.
End Reloc.
