(* ===== verification/ProcSpec.v ===== *)
(** * The life of a heap across processes

    Creating a heap, closing it at exit and opening it again, at the same or at
    other addresses. *)

From Stdlib Require Import ZArith Lia.
From stdpp Require Import base gmap numbers functions list.
From S2P Require Import Prelude Mem Config Pptr SizeClass Region Meta MetaFacts TCache Heap BaseMeta Inv Ghost Rep Trans SbSpec CacheSpec FlushSpec AllocSpec InitSpec Refine Api Dirty GC Process Keeps Recovery Relocate.

Local Open Scope Z_scope.
#[local] Set Warnings "-clear-no-such-hyp".

(** ** Regions as created *)

(** Sizes of the three regions of a heap of [size] bytes. *)
Definition region_size (size : Z) (i : nat) : Z :=
  match i with
  | 0%nat => size / SBSIZE * DESCSIZE
  | 1%nat => size / SBSIZE * SBSIZE
  | _ => SIZEOF_BASEMETA
  end.

Lemma region_filesize_room size :
  0 ≤ size → size + PAGESIZE < region_filesize size ≤ size + 2 * PAGESIZE.
Proof.
  intros H. unfold region_filesize. change PAGESIZE with 4096.
  pose proof (Z.div_mod size 4096 ltac:(lia)). pose proof (Z.mod_pos_bound size 4096 ltac:(lia)). lia.
Qed.

(** A page-aligned user-space mapping of [len] bytes. *)
Definition mapping_ok (a len : Z) : Prop := 0 < a ∧ a mod PAGESIZE = 0 ∧ a + len < 2 ^ 47.

Lemma page_64 a : a mod PAGESIZE = 0 → align_up (a + PAGESIZE) (2 ^ 6) = a + PAGESIZE.
Proof.
  change PAGESIZE with 4096. intros Ha. apply Z.mod_divide in Ha as [x ->]; [|lia].
  unfold align_up. change (2 ^ 6) with 64.
  replace (x * 4096 + 4096 + 64 - 1) with (63 + (x * 64 + 64) * 64) by lia.
  rewrite Z.div_add by lia. change (63 / 64) with 0. lia.
Qed.

(** A new region of which nothing is taken yet, and one taken as a whole. *)
Definition new_region (a size : Z) : RegionManager :=
  mkRegion (region_filesize size) a
    (RegionFile (to_pptr_off (a + PAGESIZE) a) 0 (region_filesize size)) true.

Definition full_region (a size : Z) : RegionManager :=
  mkRegion (region_filesize size) a
    (RegionFile (to_pptr_off (a + PAGESIZE + size) a) PAGESIZE (region_filesize size)) true.

Lemma new_region_at a size :
  mapping_ok a (region_filesize size) → 0 ≤ size → region_at (new_region a size) (a + PAGESIZE).
Proof.
  intros (Ha & _ & Hm) Hs. pose proof (region_filesize_room size Hs).
  change PAGESIZE with 4096 in *. unfold region_at, addr_ok. cbn. split_and!; try done; lia.
Qed.

Lemma ctor_new a size t0 :
  mapping_ok a (region_filesize size) → 0 ≤ size → size mod CACHELINE_SIZE = 0 →
  RegionManager_ctor None (Some a) size true false t0 = Ok (new_region a size).
Proof.
  intros (Ha & _ & Hm) Hs Hal. pose proof (region_filesize_room size Hs).
  unfold RegionManager_ctor. rewrite Hal. cbn. unfold new_region. do 3 f_equal.
  f_equal. apply u64_small. change PAGESIZE with 4096 in *. lia.
Qed.

Lemma ctor_full a size t0 :
  mapping_ok a (region_filesize size) → 0 < size < 2 ^ 62 → size mod CACHELINE_SIZE = 0 →
  RegionManager_ctor None (Some a) size true true t0 = Ok (full_region a size).
Proof.
  intros Hmap Hs Hal. pose proof (region_filesize_room size ltac:(lia)) as Hroom.
  pose proof (new_region_at a size Hmap ltac:(lia)) as Hat. destruct Hmap as (Ha & Hpg & Hm).
  unfold RegionManager_ctor. rewrite Hal. cbn [negb Z.eqb __map_persistent_region].
  rewrite (u64_small (a + PAGESIZE)) by (change PAGESIZE with 4096 in *; lia).
  fold (new_region a size). change CACHELINE_SIZE with (2 ^ 6).
  rewrite (nvm_alloc_alone _ _ 6 size Hat) by lia. rewrite page_64 by done.
  cbn [base_addr FILESIZE new_region]. rewrite (proj2 (Z.leb_le _ _)) by lia.
  cbn [Z.eqb default]. unfold __store_heap_start, set_curr, full_region. cbn.
  do 3 f_equal. rewrite Z.add_simpl_l. done.
Qed.

Lemma fetch_full a size :
  mapping_ok a (region_filesize size) → 0 ≤ size → __fetch_heap_start (full_region a size) = a + PAGESIZE.
Proof.
  intros (Ha & _ & Hm) Hs. pose proof (region_filesize_room size Hs).
  unfold __fetch_heap_start. cbn. change PAGESIZE with 4096 in *. rewrite u64_small by lia. lia.
Qed.

(** ** The world monad *)

Section World.
Context {RM : RobustMutex}.

Definition with_state (s : state) (w : world) : world :=
  mkWorld s (w_mtx w) (w_init w) (w_holder w) (w_filters w).

Lemma wp_on_state {A} (m : M A) Q w :
  wp m (λ a s', Q a (with_state s' w)) (w_state w) → wp (on_state m) Q w.
Proof.
  unfold wp, on_state, with_state. by destruct (m (w_state w)) as [[a s']| |].
Qed.

Lemma wp_flushes (m : M unit) Q s :
  (∃ pl, m s = Ok (tt, mkState (smem s) (descs s) (avail_sb s) (heaps s) (roots s) (t_caches s) (rgs s) pl)) →
  (∀ pl, Q tt (mkState (smem s) (descs s) (avail_sb s) (heaps s) (roots s) (t_caches s) (rgs s) pl)) →
  wp m Q s.
Proof. intros [pl E] HQ. apply wp_spec. eauto. Qed.
End World.

(** ** The table of regions of an open heap *)

Record wired (size : Z) (rg : Regions) : Prop := {
  wr_len : length (regions rg) = LAST_IDX;
  wr_addrs : length (regions_address rg) = LAST_IDX;
  wr_idx : cur_idx rg = LAST_IDX;
  wr_file : ∀ i, (i < LAST_IDX)%nat → persist (rget rg i) = true ∧
    FILESIZE (rget rg i) = region_filesize (region_size size i) ∧
    rf_size (rfile (rget rg i)) = FILESIZE (rget rg i);
  wr_start : ∀ i, (i < LAST_IDX)%nat → 0 ≤ rf_heap_start (rfile (rget rg i)) ∧
    rlookup rg i = base_addr (rget rg i) + rf_heap_start (rfile (rget rg i))
}.

(** It only depends on what no operation changes. *)
Lemma wired_fixed size rg rg' : fixed_regs rg = fixed_regs rg' → wired size rg → wired size rg'.
Proof.
  intros E [W1 W2 W3 W4 W5].
  assert (∀ i, fixed (rget rg i) = fixed (rget rg' i)) as Hf by (intros i; by apply fixed_rget).
  unfold fixed_regs in E. injection E as E1 E2 E3. constructor.
  - rewrite <- (length_fmap fixed), <- E1, length_fmap. done.
  - congruence.
  - congruence.
  - intros i Hi. destruct (W4 i Hi) as (? & ? & ?). specialize (Hf i). unfold fixed in Hf.
    injection Hf as F1 F2 F3 F4 F5. split_and!; congruence.
  - intros i Hi. destruct (W5 i Hi) as (? & ?). specialize (Hf i). unfold fixed in Hf.
    injection Hf as F1 F2 F3 F4 F5. unfold rlookup in *. rewrite <- E2. split; congruence.
Qed.

(** The metadata address plays no role while no superblock is in use. *)
Lemma init_meta db sb mb n rg s :
  Inv db sb 0 (ghost_init n) s → rg_at rg db sb mb → regions rg = regions (rgs s) →
  Inv db sb mb (ghost_init n) (set_rgs rg s).
Proof.
  intros [V1 V2 V3 V4 V5 V6 V7 V8 V9 V10 V11 V12] Hrg Hreg.
  assert (∀ i k, g_kind (ghost_init n) !! i = Some k → k = KFree) as Hk.
  { intros i k Hi. cbn in Hi. by gsplit. }
  assert (∀ i, rget rg i = rget (rgs s) i) as Hget by (intros i; unfold rget; by rewrite Hreg).
  assert (∀ raw p, head_is (rgs s) raw p → head_is rg raw p) as Hhd.
  { intros raw p. unfold head_is, acpc_unpack, translate.
    rewrite (rlookup_desc db sb mb rg Hrg), (rlookup_desc db sb 0 (rgs s) V2). done. }
  constructor; cbn [set_rgs smem descs avail_sb heaps t_caches rgs]; rewrite ?Hget; try done.
  - by rewrite Hreg.
  - destruct V9 as (p & Hp & Hc). exists p. split; [by apply Hhd|done].
  - intros c Hc. destruct (V11 c Hc) as (p & Hp & Hd). exists p. split; [by apply Hhd|done].
Qed.

Section Create.
Context {RM : RobustMutex}.

Definition relog (pl : list pevent) (s : state) : state :=
  mkState (smem s) (descs s) (avail_sb s) (heaps s) (roots s) (t_caches s) (rgs s) pl.

(** Creating a region of a fresh heap. *)
Lemma new_region_run a size (imm : bool) t0 Q s :
  mapping_ok a (region_filesize size) → 0 < size < 2 ^ 62 → size mod CACHELINE_SIZE = 0 →
  (∀ pl, Q (if imm then full_region a size else new_region a size)
     (relog pl (last_byte (if imm then full_region a size else new_region a size) s))) →
  wp (new_RegionManager None (Some a) size true imm t0) Q s.
Proof.
  intros Hm Hs Hal HQ. unfold new_RegionManager, map_flushes, FLUSH, FLUSHFENCE. apply wp_bind.
  destruct imm.
  - eapply wp_lift; [by apply ctor_full|]. unfold expand_flushes, store_flushes, FLUSH, FLUSHFENCE.
    change (1 =? -1) with false. change (1 =? 1) with true. cbn iota. wp_steps. apply HQ.
  - eapply wp_lift; [apply ctor_new; [done|lia|done]|]. wp_steps. apply HQ.
Qed.

(** The hypotheses on a new heap: room for the first expansion, and mappings in
    user space that leave the regions room to grow. *)
Record new_heap_ok (size a0 a1 a2 : Z) : Prop := {
  nh_size : MIN_SB_REGION_SIZE + SBSIZE ≤ size < MAX_SB_REGION_SIZE;
  nh_map0 : mapping_ok a0 (region_filesize (region_size size DESC_IDX));
  nh_map1 : mapping_ok a1 (region_filesize (region_size size SB_IDX));
  nh_map2 : mapping_ok a2 (region_filesize (region_size size META_IDX));
  nh_geom : geom (a0 + PAGESIZE) (align_up (a1 + PAGESIZE) SBSIZE) (a2 + PAGESIZE)
}.

Lemma region_size_bounds size :
  MIN_SB_REGION_SIZE + SBSIZE ≤ size < MAX_SB_REGION_SIZE →
  0 < size / SBSIZE * DESCSIZE < 2 ^ 62 ∧ size / SBSIZE * DESCSIZE mod CACHELINE_SIZE = 0 ∧
  MIN_SB_REGION_SIZE + SBSIZE ≤ size / SBSIZE * SBSIZE ≤ MAX_SB_REGION_SIZE - SBSIZE ∧
  size / SBSIZE * SBSIZE mod CACHELINE_SIZE = 0.
Proof.
  change MIN_SB_REGION_SIZE with (16384 * 65536). change SBSIZE with 65536.
  change MAX_SB_REGION_SIZE with (16777216 * 65536). change DESCSIZE with 64. change CACHELINE_SIZE with 64.
  intros Hs. pose proof (Z.div_mod size 65536 ltac:(lia)). pose proof (Z.mod_pos_bound size 65536 ltac:(lia)).
  split; [lia|]. split; [by apply Z.mod_mul|]. split; [lia|].
  replace (size / 65536 * 65536) with (size / 65536 * 1024 * 64) by lia. by apply Z.mod_mul.
Qed.

(** The table when the constructor of [BaseMeta] runs. *)
Definition created (size a0 a1 a2 : Z) : Regions :=
  mkRegions [full_region a0 (region_size size DESC_IDX); new_region a1 (region_size size SB_IDX);
             full_region a2 (region_size size META_IDX)] [a0 + PAGESIZE; 0; 0] META_IDX.

Section Created.
Context (size a0 a1 a2 : Z) (Hok : new_heap_ok size a0 a1 a2).
Context (s : state) (Hrgs : rgs s = created size a0 a1 a2) (Hca : t_caches s = ∅).

Lemma created_start : heap_start s = align_up (a1 + PAGESIZE) SBSIZE.
Proof using Hrgs. unfold heap_start. by rewrite Hrgs. Qed.

Lemma created_fresh : fresh (a0 + PAGESIZE) 0 s.
Proof using Hok Hrgs Hca.
  destruct Hok as [Hs _ H1 _ _]. destruct (region_size_bounds size Hs) as (_ & _ & S3 & _).
  constructor; rewrite ?Hrgs; try done.
  - by exists 0.
  - apply new_region_at; [done|]. change (region_size size SB_IDX) with (size / SBSIZE * SBSIZE).
    change SBSIZE with 65536 in *. change MIN_SB_REGION_SIZE with (2 ^ 30) in *. lia.
Qed.

(** The first expansion fits, and the region stays below the superblock limit. *)
Lemma created_room :
  heap_start s + SB_REGION_EXPAND_SIZE ≤ region_end s < heap_start s + MAX_SB_REGION_SIZE.
Proof using Hok Hrgs.
  destruct Hok as [Hs _ (H1 & _ & _) _ _]. destruct (region_size_bounds size Hs) as (_ & _ & S3 & _).
  rewrite created_start. unfold region_end. rewrite Hrgs.
  change (rget (created size a0 a1 a2) SB_IDX) with (new_region a1 (size / SBSIZE * SBSIZE)).
  cbn [base_addr FILESIZE new_region].
  destruct (align_up_spec (a1 + PAGESIZE) SBSIZE ltac:(done)) as [Ha _].
  pose proof (region_filesize_room (size / SBSIZE * SBSIZE)) as Hr.
  unfold SB_REGION_EXPAND_SIZE.
  change SBSIZE with 65536 in *. change MIN_SB_REGION_SIZE with 1073741824 in *.
  change MAX_SB_REGION_SIZE with (2 ^ 40) in *. change PAGESIZE with 4096 in *.
  specialize (Hr ltac:(lia)). lia.
Qed.

Lemma created_wired : wired size (next_region (rg_init s) (a2 + PAGESIZE)).
Proof using Hok Hrgs.
  destruct Hok as [Hs _ (H1 & _ & H1m) _ HG]. pose proof created_start as Est.
  destruct (align_up_spec (a1 + PAGESIZE) SBSIZE ltac:(done)) as [Ha _].
  unfold rg_init, grown. rewrite Hrgs, Est. constructor; try done.
  - intros i Hi. destruct i as [|[|[|?]]]; [done..|change LAST_IDX with 3%nat in Hi; lia].
  - intros i Hi. destruct i as [|[|[|?]]]; [done| |done|change LAST_IDX with 3%nat in Hi; lia].
    destruct HG. cbn. change PAGESIZE with 4096 in *. change MAX_SB_REGION_SIZE with (2 ^ 40) in *.
    rewrite u64_small by lia. split; lia.
Qed.
End Created.

(** The constructor of [BaseMeta] in a new heap. *)
Lemma BaseMeta_new_spec size a0 a1 a2 fuel this w :
  new_heap_ok size a0 a1 a2 → rgs (w_state w) = created size a0 a1 a2 → t_caches (w_state w) = ∅ →
  (1 ≤ fuel)%nat →
  wp (BaseMeta_new fuel this) (λ _ w', locked (w_mtx w') ∧ w_filters w' = w_filters w ∧
    Inv (a0 + PAGESIZE) (align_up (a1 + PAGESIZE) SBSIZE) 0 (ghost_init EXPAND_SBS) (w_state w') ∧
    (∀ i, 0 ≤ i < MAX_ROOTS → get_root_raw (w_state w') i = 0) ∧
    ∃ s, rgs s = created size a0 a1 a2 ∧ rgs (w_state w') = rg_init s) w.
Proof.
  intros Hok Hrgs Hca Hfuel. unfold BaseMeta_new, w_set_dirty, FLUSH.
  destruct (set_dirty_spec mx_init (or_introl mx_init_free)) as (m & Em & Hm).
  apply wp_bind. unfold on_mutex at 1, wp at 1. apply wp_bind. unfold on_mutex at 1, wp at 1.
  cbn [w_mtx]. rewrite Em. apply wp_on_state. cbn [w_state]. wp_steps.
  match goal with |- wp _ _ ?S => set (s := S) end.
  assert (rgs s = created size a0 a1 a2) as Hs by exact Hrgs.
  assert (t_caches s = ∅) as Hc by exact Hca.
  pose proof (created_room size a0 a1 a2 Hok s Hs) as [R1 R2].
  pose proof Hok as [_ _ _ _ HG]. rewrite <- (created_start size a0 a1 a2 s Hs) in HG |- *.
  eapply wp_mono.
  { eapply (BaseMeta_ctor_inv (a0 + PAGESIZE) 0 s); [by eapply created_fresh| |done..].
    by destruct HG; constructor. }
  cbn beta. intros _ s' (HI & _ & Hrt & Hg). cbn. eauto 10.
Qed.

(** A fresh heap has no live block. *)
Lemma ghost_init_live sb n p z : 1 ≤ n → ¬ live sb (ghost_init n) p z.
Proof.
  intros Hn. assert (∀ i k, g_kind (ghost_init n) !! i = Some k → k = KFree) as Hk.
  { intros i k Hi. cbn in Hi. by gsplit. }
  intros [(i & c & fl & lk & Hi & _)|(i & k & Hi & _)]; by apply Hk in Hi.
Qed.

Lemma ghost_init_rep db sb mb n s : 1 ≤ n → Inv db sb mb (ghost_init n) s → heap_rep db sb mb ∅ s.
Proof.
  intros Hn H. exists (ghost_init n). split; [done|]. split; [by apply (ghost_init_wf sb)|].
  intros p z. rewrite lookup_empty. split; [done|]. intros Hl. by apply ghost_init_live in Hl.
Qed.

(** [_RP_init] without files: an empty consistent heap, open and marked dirty. *)
Lemma RP_init_new fuel files maps t0 size a0 a1 a2 w :
  (∀ i, files i = None) → maps DESC_IDX = Some a0 → maps SB_IDX = Some a1 → maps META_IDX = Some a2 →
  new_heap_ok size a0 a1 a2 → t_caches (w_state w) = ∅ → (1 ≤ fuel)%nat →
  wp (_RP_init fuel files maps t0 size) (λ r w', r = 0 ∧ w_init w' = true ∧ locked (w_mtx w') ∧
    heap_rep (a0 + PAGESIZE) (align_up (a1 + PAGESIZE) SBSIZE) (a2 + PAGESIZE) ∅ (w_state w') ∧
    wired size (rgs (w_state w')) ∧
    (∀ i, 0 ≤ i < MAX_ROOTS → get_root_raw (w_state w') i = 0) ∧
    ∃ s, rgs s = created size a0 a1 a2 ∧ rgs (w_state w') = next_region (rg_init s) (a2 + PAGESIZE)) w.
Proof.
  intros Hfiles Hm0 Hm1 Hm2 [Hsize Hok0 Hok1 Hok2 HG] Hca Hfuel.
  destruct (region_size_bounds size Hsize) as (S1 & S2 & S3 & S4).
  assert (0 < size / SBSIZE * SBSIZE < 2 ^ 62) as S5.
  { change MAX_SB_REGION_SIZE with (2 ^ 40) in S3. change SBSIZE with 65536 in *.
    change MIN_SB_REGION_SIZE with (2 ^ 30) in S3. lia. }
  unfold _RP_init. apply wp_bind. eapply wp_lift; [exact ctor_ok|]. apply wp_bind, wp_assert.
  { apply andb_true_iff. rewrite Z.ltb_lt, Z.leb_le. change SBSIZE with 65536 in Hsize. lia. }
  rewrite !Hfiles, Hm0, Hm1, Hm2. cbn zeta.
  apply wp_bind, wp_on_state, wp_mod. cbn [with_state w_state].
  apply wp_bind, wp_on_state. unfold create. apply wp_bind.
  apply new_region_run; [done..|]. intros pl0. apply wp_mod. cbn [with_state w_state].
  apply wp_bind, wp_on_state, wp_bind.
  apply new_region_run; [done|done|done|].
  intros pl1. apply wp_mod. cbn [with_state w_state].
  apply wp_bind. unfold create_for. apply wp_bind, wp_on_state.
  apply new_region_run; [done..|]. intros pl2. cbn [with_state w_state].
  apply wp_bind, wp_on_state, wp_mod. cbn [with_state w_state w_mtx w_init w_holder w_filters].
  rewrite fetch_full by (done || (change (region_size size META_IDX) with SIZEOF_BASEMETA; done)).
  change (bool_decide (is_Some None)) with false. cbn iota.
  rewrite fetch_full by (done || lia). cbn [orb].
  match goal with |- wp _ _ (with_state ?S _) => set (s3 := S) end.
  apply wp_bind. eapply wp_mono; [by apply BaseMeta_new_spec|].
  cbn beta. intros _ w1 (Hmx & Hwi & HI & Hroots & Hrg1).
  destruct Hrg1 as (s0 & Hs0 & Hrg1).
  apply wp_bind, wp_on_state, wp_mod, wp_ret, wp_bind, wp_mod, wp_ret.
  cbn [set_init with_state w_state w_mtx w_init]. split_and!; try done.
  - eapply ghost_init_rep; [|eapply init_meta; [exact HI| |]].
    + done.
    + rewrite Hrg1. unfold rg_at, next_region, rg_init, grown, heap_start. by rewrite Hs0.
    + done.
  - rewrite Hrg1. by eapply created_wired.
  - exists s0. split; [done|]. by rewrite Hrg1.
Qed.

(** ** Opening an existing heap *)

(** [create] of an existing file. *)
Definition old_region (r : RegionManager) (a : Z) : RegionManager :=
  mkRegion (FILESIZE r) a (rfile r) true.

Lemma old_region_run r a size imm t0 Q s :
  size mod CACHELINE_SIZE = 0 → FILESIZE r = region_filesize size → rf_size (rfile r) = FILESIZE r →
  Q (old_region r a) (last_byte (old_region r a) s) → wp (new_RegionManager (Some (rfile r)) (Some a) size true imm t0) Q s.
Proof.
  intros Hal Hf Hs HQ. unfold new_RegionManager. apply wp_bind.
  eapply (wp_lift _ (old_region r a)).
  { unfold RegionManager_ctor. rewrite Hal. cbn [negb Z.eqb __remap_persistent_region].
    unfold old_region. by rewrite Hs, Hf, Z.eqb_refl. }
  apply wp_bind, wp_mod, wp_bind, wp_ret, wp_ret. exact HQ.
Qed.

(** The table after [_RP_init] on the files of [rg], mapped at [a]. *)
Definition reopened (rg : Regions) (a : nat → Z) : Regions :=
  let r i := old_region (rget rg i) (a i) in
  mkRegions [r DESC_IDX; r SB_IDX; r META_IDX]
    [__fetch_heap_start (r DESC_IDX); __fetch_heap_start (r SB_IDX); __fetch_heap_start (r META_IDX)] LAST_IDX.

(** The memory after the remap of the superblock region. *)
Definition remap_mem (rg : Regions) (a : nat → Z) (s : state) : state :=
  upd_mem (λ m, store8 m (a SB_IDX + FILESIZE (rget rg SB_IDX) - 1) 0) s.

Lemma RP_init_old fuel files maps t0 size rg a w :
  MIN_SB_REGION_SIZE + SBSIZE ≤ size < MAX_SB_REGION_SIZE → wired size rg →
  (∀ i, (i < LAST_IDX)%nat → files i = Some (rfile (rget rg i)) ∧ maps i = Some (a i)) →
  wp (_RP_init fuel files maps t0 size) (λ r w', r = 1 ∧
    w' = set_init true (with_state (set_rgs (reopened rg a) (remap_mem rg a (w_state w))) w)) w.
Proof.
  intros Hsize Hw Hf. destruct (region_size_bounds size Hsize) as (S1 & S2 & S3 & S4).
  unfold _RP_init. apply wp_bind. eapply wp_lift; [exact ctor_ok|]. apply wp_bind, wp_assert.
  { apply andb_true_iff. rewrite Z.ltb_lt, Z.leb_le. change SBSIZE with 65536 in Hsize. lia. }
  destruct (Hf DESC_IDX ltac:(unfold DESC_IDX, LAST_IDX; lia)) as [-> ->].
  destruct (Hf SB_IDX ltac:(unfold SB_IDX, LAST_IDX; lia)) as [-> ->].
  destruct (Hf META_IDX ltac:(unfold META_IDX, LAST_IDX; lia)) as [-> ->].
  destruct (wr_file _ _ Hw DESC_IDX ltac:(unfold DESC_IDX, LAST_IDX; lia)) as (_ & F0 & F0').
  destruct (wr_file _ _ Hw SB_IDX ltac:(unfold SB_IDX, LAST_IDX; lia)) as (_ & F1 & F1').
  destruct (wr_file _ _ Hw META_IDX ltac:(unfold META_IDX, LAST_IDX; lia)) as (_ & F2 & F2').
  cbn zeta. apply wp_bind, wp_on_state, wp_mod.
  apply wp_bind, wp_on_state. unfold create. apply wp_bind, old_region_run; [done..|]. apply wp_mod.
  apply wp_bind, wp_on_state, wp_bind, old_region_run; [done..|]. apply wp_mod.
  apply wp_bind. unfold create_for. apply wp_bind, wp_on_state, old_region_run; [done..|].
  cbn [w_state w_mtx w_init w_holder w_filters with_state].
  rewrite !orb_true_r. apply wp_bind, wp_on_state, wp_mod.
  apply wp_bind, wp_ret, wp_bind, wp_on_state, wp_mod, wp_ret, wp_bind, wp_mod, wp_ret.
  split; [done|]. reflexivity.
Qed.
End Create.
