(* ===== verification/Lifecycle.v ===== *)
(** * Closing a heap and opening it again

    The exit path of a process on a consistent heap, and what the next process
    finds when it maps the files, possibly elsewhere. *)

From Stdlib Require Import ZArith Lia.
From stdpp Require Import base gmap numbers functions list.
From S2P Require Import Prelude Mem Config Pptr SizeClass Region Meta MetaFacts TCache Heap BaseMeta Inv Ghost Rep Trans SbSpec CacheSpec FlushSpec AllocSpec Refine Api Dirty GC GCMark Process Keeps Recovery Relocate ProcSpec.

Local Open Scope Z_scope.
#[local] Set Warnings "-clear-no-such-hyp".

(** ** Operations that only write back *)

Definition logs_only {A} (m : M A) (a : A) : Prop := ∀ s, ∃ pl, m s = Ok (a, relog pl s).

Lemma logs_ret {A} (a : A) : logs_only (mret a) a.
Proof. intros s. exists (plog s). by destruct s. Qed.

Lemma logs_bind {A B} (m : M A) (f : A → M B) a b :
  logs_only m a → logs_only (f a) b → logs_only (m ≫= f) b.
Proof.
  intros Hm Hf s. destruct (Hm s) as [pl E]. destruct (Hf (relog pl s)) as [pl' E'].
  exists pl'. unfold mbind, st_mbind, st_bind. by rewrite E.
Qed.

Lemma logs_FLUSH a : logs_only (FLUSH a) tt.
Proof. intros s. by eexists. Qed.

Lemma logs_FLUSHFENCE : logs_only FLUSHFENCE tt.
Proof. intros s. by eexists. Qed.

Lemma logs_foldr {X} (f : X → M unit) (l : list X) :
  (∀ x, logs_only (f x) tt) → logs_only (foldr (λ x k, f x;; k) (mret tt) l) tt.
Proof.
  intros Hf. induction l as [|x l IH]; cbn [foldr]; [apply logs_ret|].
  eapply logs_bind; [apply Hf|exact IH].
Qed.

Lemma logs_flush_lines l : logs_only (flush_lines l) tt.
Proof. apply logs_foldr. apply logs_FLUSH. Qed.

Lemma logs_close r : logs_only (close_flushes r) tt.
Proof. repeat (eapply logs_bind; [apply logs_FLUSHFENCE || apply logs_FLUSH|]). apply logs_FLUSHFENCE. Qed.

Lemma wp_logs {A} (m : M A) a Q s : logs_only m a → (∀ pl, Q a (relog pl s)) → wp m Q s.
Proof. intros Hm HQ. destruct (Hm s) as [pl E]. apply wp_spec. eauto. Qed.

Lemma logs_flush_region idx : logs_only (flush_region idx) tt.
Proof.
  intros s. unfold flush_region. destruct (logs_flush_lines (flush_region_lines (rgs s) idx) s) as [pl E].
  eexists. unfold mbind, st_mbind, st_bind, st_gets. rewrite E. done.
Qed.

Lemma wp_keeps {S A} (P : S → Prop) (m : ST S A) Q s :
  wp m Q s → keeps P m → P s → wp m (λ a s', Q a s' ∧ P s') s.
Proof.
  intros H Hk Hs. apply wp_spec in H as (a & s' & E & HQ). apply wp_spec.
  exists a, s'. split; [done|]. split; [done|]. by eapply Hk.
Qed.

Section Lifecycle.
Context {RM : RobustMutex}.

(** ** Exit *)

(** The table once every region is closed. *)
Definition closed_table (rg : Regions) : Regions :=
  mkRegions (replicate (cur_idx rg) null_region ++ drop (cur_idx rg) (regions rg))
    (replicate (cur_idx rg) 0 ++ drop (cur_idx rg) (regions_address rg)) 0.

(** Constructing and destroying: the write-backs of the holder's destructor. *)
Lemma RallocHolder_dtor_run Q w :
  (∀ pl, Q (RegionManager_dtor <$> take (cur_idx (rgs (w_state w))) (regions (rgs (w_state w))))
    (mkWorld (set_rgs (closed_table (rgs (w_state w))) (relog pl (w_state w))) (set_clean (w_mtx w))
       false (w_holder w) (w_filters w))) →
  wp RallocHolder_dtor Q w.
Proof.
  intros HQ. unfold RallocHolder_dtor, writeback, Regions_dtor.
  apply wp_bind, wp_on_state, (wp_logs _ tt); [apply logs_flush_region|intros pl1].
  apply wp_bind, wp_on_state, (wp_logs _ tt); [apply logs_flush_region|intros pl2].
  apply wp_bind, wp_bind, wp_on_state, wp_bind, wp_gets, (wp_logs _ tt); [apply logs_flush_lines|intros pl3].
  apply wp_bind, wp_on_state, (wp_logs _ tt); [apply logs_FLUSHFENCE|intros pl4].
  unfold w_set_clean, on_mutex. unfold wp at 1. apply wp_bind, wp_mod.
  apply wp_on_state, wp_bind, wp_gets. apply wp_bind, (wp_logs _ tt).
  { apply logs_foldr. apply logs_close. }
  intros pl5. apply wp_bind, wp_mod, wp_ret. apply HQ.
Qed.

Section Exit.
Context (db sb mb : Z) (HG : geom db sb mb).

Lemma rep_cache_class L s t c : heap_rep db sb mb L s → ¬ 1 ≤ c < MAX_SZ_IDX → get_block_num s t c = 0.
Proof using.
  intros (g & H & _ & _) Hc. pose proof (iv_wf _ _ _ _ _ _ _ _ _ _ H) as Hwf.
  destruct (iv_cache _ _ _ _ _ _ _ _ _ _ H t c) as [Hn _].
  change (get_block_num s t c = Z.of_nat (length (g_cache g (t, c)))) in Hn. rewrite Hn.
  destruct (g_cache g (t, c)) as [|b l] eqn:E; [done|]. destruct Hc.
  assert (b ∈ g_cache g (t, c)) as Hb by (rewrite E; left).
  apply (gw_cache _ _ Hwf) in Hb as (_ & i & fl & lk & Hi & _). by eapply gw_cls.
Qed.

(** Bytes outside the superblocks do not matter. *)
Lemma mem_outside_inv g s m' :
  Inv db sb mb g s → (∀ x, sb ≤ x < B sb (g_n g) → load8 m' x = load8 (smem s) x) →
  Inv db sb mb g (upd_mem (λ _, m') s).
Proof using.
  intros H Hm. pose proof H as [Vwf Vrg Vlen Vn Vreg Vmax Vsm Vlg Vav Vhs Vpt Vca].
  assert (∀ i c fl lk x, g_kind g !! i = Some (KSmall c fl lk) → x ∈ blocks sb i c →
    pload m' x = pload (smem s) x) as Hx.
  { intros i c fl lk x Hi (k & Hk & ->)%elem_of_blocks. pose proof (gw_cls _ _ Vwf _ _ _ _ Hi) as Hc.
    pose proof (kind_lt _ _ _ _ Vwf Hi) as Hn. destruct (blk_range sb i c k Hc Hk). destruct (bs_mc c Hc).
    apply pload_ext. intros b Hb. apply Hm. unfold B in *. change SBSIZE with 65536 in *. lia. }
  constructor; try done; cbn [upd_mem smem descs avail_sb heaps t_caches rgs].
  - intros i c fl lk Hi. destruct (Vsm _ _ _ _ Hi) as [Hd Hch]. split; [done|].
    eapply chain_ext; [|done]. intros x Hxf. apply (fl_subset sb g i c fl lk) in Hxf as [_ Hb]; try done.
    by eapply Hx.
  - intros t c. destruct (Vca t c) as [Hn Hch]. split; [done|]. eapply chain_ext; [|done].
    intros x Hxc. apply (cache_block sb) in Hxc as (j & fl & lk & Hj & Hb); [|done]. by eapply Hx.
Qed.

(** The last byte of the superblock file: mapping the file again clears it. *)
Definition last_address (rg : Regions) : Z := base_addr (rget rg SB_IDX) + FILESIZE (rget rg SB_IDX) - 1.

(** No free block depends on it: the superblocks handed out end below it, or it
    belongs to a block in use. *)
Definition last_address_idle (L : gmap Z Z) (rg : Regions) : Prop :=
  curr_addr (rget rg SB_IDX) ≤ last_address rg ∨ in_blocks L (last_address rg).

Lemma last_address_rep L s :
  heap_rep db sb mb L s → last_address_idle L (rgs s) →
  heap_rep db sb mb L (upd_mem (λ m, store8 m (last_address (rgs s)) 0) s).
Proof using HG.
  intros H [Hc|Hin].
  - destruct H as (g & H & Hset & HL). exists g. split; [|by split].
    apply (mem_outside_inv g s (store8 (smem s) (last_address (rgs s)) 0)); [done|].
    intros x Hx. apply load8_store8_ne.
    rewrite (region_at_curr _ _ (iv_region _ _ _ _ _ _ _ _ _ _ H)) in Hc. lia.
  - apply (ralloc_write_ok db sb mb L s (store8 (smem s) (last_address (rgs s)) 0)); [done|].
    intros x Hx. apply load8_store8_ne. by intros <-.
Qed.

(** In particular where the file does not end at a superblock boundary. *)
Lemma uneven_end_idle L s :
  heap_rep db sb mb L s → (last_address (rgs s) + 1) mod SBSIZE ≠ 0 → last_address_idle L (rgs s).
Proof using HG.
  intros (g & H & _) Hs. left. pose proof (iv_region _ _ _ _ _ _ _ _ _ _ H) as Hreg.
  rewrite (region_at_curr _ _ Hreg). destruct Hreg as (_ & _ & _ & _ & _ & Hle).
  unfold last_address in *. rewrite Z.sub_add in Hs. apply Z.lt_le_pred. apply Z.le_neq. split; [exact Hle|].
  intros E. apply Hs. rewrite <- E. unfold B. rewrite Z_mod_plus_full. apply HG.
Qed.

(** The contents with that byte cleared. *)
Definition loaded (rg : Regions) (m : mem) (x : Z) : Z := if x =? last_address rg then 0 else load8 m x.

Lemma load8_cleared rg m x : load8 (store8 m (last_address rg) 0) x = loaded rg m x.
Proof using.
  unfold loaded. destruct (Z.eqb_spec x (last_address rg)) as [->|Hne]; [apply load8_store8_eq|].
  by apply load8_store8_ne.
Qed.

(** Whether a block of [L] holds an address. *)
Lemma in_blocks_dec L x : in_blocks L x ∨ ¬ in_blocks L x.
Proof using.
  destruct (decide (map_Exists (λ p z, p ≤ x < p + z) L)) as [He|Hn].
  - left. destruct He as (p & z & Hp & Hx). by exists p, z.
  - right. intros (p & z & Hp & Hx). apply Hn. by exists p, z.
Qed.

(** A consistent heap with the byte cleared as far as the blocks in use are
    concerned; where the byte lies in none, nothing need change. *)
Lemma cleared_rep L s :
  heap_rep db sb mb L s →
  ∃ m', heap_rep db sb mb L (upd_mem (λ _, m') s) ∧ ∀ x, in_blocks L x → load8 m' x = loaded (rgs s) (smem s) x.
Proof using HG.
  intros H. destruct (in_blocks_dec L (last_address (rgs s))) as [Hin|Hout].
  - exists (store8 (smem s) (last_address (rgs s)) 0). split; [apply last_address_rep; [done|by right]|].
    intros x _. apply load8_cleared.
  - exists (smem s). split; [by destruct s|]. intros x Hx. unfold loaded.
    destruct (Z.eqb_spec x (last_address (rgs s))) as [->|]; done.
Qed.

(** What [exit] leaves: all caches are empty, the table of regions, as it was, is
    closed and its first pages are in the files. *)
Record exited (L : gmap Z Z) (s : state) (files : list region_file) (w' : world) : Prop := {
  ex_rep : heap_rep db sb mb L (set_rgs (rgs s) (w_state w'));
  ex_mem : same_on L (smem s) (smem (w_state w'));
  ex_roots : roots (w_state w') = roots s;
  ex_cache : ∀ t c, get_block_num (w_state w') t c = 0;
  ex_files : files = rfile <$> take (cur_idx (rgs s)) (regions (rgs s));
  ex_mtx : unlocked (w_mtx w');
  ex_init : w_init w' = false
}.

Lemma exit_run L w t fuel :
  heap_rep db sb mb L (w_state w) → w_init w = true → locked (w_mtx w) → (enough_fuel ≤ fuel)%nat →
  (∀ t' c, t' ≠ t → get_block_num (w_state w) t' c = 0) →
  wp (exit_process fuel t) (λ files w', exited L (w_state w) files w') w.
Proof using HG.
  intros H Hi Hl Hf Ho. unfold exit_process, TCaches_dtor.
  apply wp_bind, wp_bind, wp_gets. rewrite Hi. apply wp_on_state.
  eapply wp_mono.
  { eapply (wp_keeps (same_rgs (rgs (w_state w)))); [|exact (same_public_flush _ _ _)|done].
    unfold public_flush_cache. apply (public_flush_run db sb mb HG fuel t _ L _ H Hf).
    intros c Hc. apply elem_of_seqZ in Hc. lia. }
  cbn beta. intros _ s1 ((H1 & Hm & Hr & Hc & Hk) & Hst). apply RallocHolder_dtor_run. intros pl.
  unfold same_rgs in Hst. cbn [w_state w_mtx with_state]. constructor; rewrite <- ?Hst; try done.
  - intros t' c. change (get_block_num s1 t' c = 0). destruct (decide (t' = t)) as [->|Hne]; [|auto].
    destruct (decide (1 ≤ c < MAX_SZ_IDX)) as [Hc'|Hc'].
    + apply Hc, elem_of_seqZ. lia.
    + by eapply rep_cache_class.
  - apply list_fmap_ext. intros _ r _. unfold RegionManager_dtor. by destruct (persist r).
  - by apply set_clean_spec.
Qed.
End Exit.

(** ** The next process *)

(** The descriptor and superblock regions displaced by [dd] and [d]; everything
    transient is gone. *)
Record image (dd d : Z) (s s' : state) : Prop := {
  im_mem : displaced d (smem s) (smem s');
  im_desc : ∀ a, get_desc s' (dd + a) = get_desc s a;
  im_avail : avail_sb s' = avail_sb s;
  im_heaps : heaps s' = heaps s;
  im_roots : roots s' = roots s;
  im_caches : t_caches s' = ∅
}.

Lemma image_remapped dd d s s' rg rg' :
  image dd d s s' → (∀ t c, get_block_num s t c = 0) → remapped dd d (set_rgs rg s) (set_rgs rg' s').
Proof.
  intros [I1 I2 I3 I4 I5 I6] Hc. constructor; try done. intros t c.
  change (get_block_num (set_rgs rg' s') t c) with (get_block_num s' t c).
  change (get_block_num (set_rgs rg s) t c) with (get_block_num s t c). rewrite Hc.
  unfold get_block_num, get_bin. rewrite I6, lookup_empty. done.
Qed.

(** The distance each region moved. *)
Definition moved_by (dd d dm : Z) (i : nat) : Z :=
  match i with 0%nat => dd | 1%nat => d | _ => dm end.

Lemma fixed_base rg rg' i : fixed_regs rg = fixed_regs rg' → base_addr (rget rg i) = base_addr (rget rg' i).
Proof. intros H. pose proof (fixed_rget _ _ i H) as E. unfold fixed in E. by injection E. Qed.

(** The files an exit leaves, by region. *)
Lemma wired_file size rg i :
  wired size rg → (i < LAST_IDX)%nat →
  (rfile <$> take (cur_idx rg) (regions rg)) !! i = Some (rfile (rget rg i)).
Proof.
  intros Hw Hi. rewrite (wr_idx _ _ Hw), list_lookup_fmap, lookup_take_lt by done.
  unfold rget. destruct (nth_lookup_or_length (regions rg) i null_region) as [->|Hl]; [done|].
  rewrite (wr_len _ _ Hw) in Hl. lia.
Qed.

(** The pointer of a root. *)
Definition root_value (s : state) (i : Z) : Z := CrossPtr_get (rgs s) SB_IDX (get_root_raw s i).

Section Reopen.
Context (db sb mb dd d dm : Z) (HG : geom db sb mb) (HG' : geom (dd + db) (d + sb) (dm + mb)).
Context (size : Z) (rg : Regions) (Hw : wired size rg) (Hrg : rg_at rg db sb mb).
Context (a : nat → Z).
Context (Ha : ∀ i, (i < LAST_IDX)%nat → a i = moved_by dd d dm i + base_addr (rget rg i)).

Lemma reopened_start i :
  (i < LAST_IDX)%nat → 0 ≤ moved_by dd d dm i + rlookup rg i < 2 ^ 64 →
  __fetch_heap_start (old_region (rget rg i) (a i)) = moved_by dd d dm i + rlookup rg i.
Proof using Hw Ha.
  intros Hi Hr. destruct (wr_start _ _ Hw i Hi) as [_ E]. unfold __fetch_heap_start.
  cbn [old_region rfile base_addr]. rewrite Ha by done. rewrite u64_small; lia.
Qed.

Lemma reopened_at : rg_at (reopened rg a) (dd + db) (d + sb) (dm + mb).
Proof using Hw Ha Hrg HG'.
  unfold rg_at, reopened. cbn [regions_address]. destruct HG'.
  change MAX_DESC_REGION_SIZE with (2 ^ 30) in *. change MAX_SB_REGION_SIZE with (2 ^ 40) in *.
  assert (rlookup rg 0 = db ∧ rlookup rg 1 = sb ∧ rlookup rg 2 = mb) as (E0 & E1 & E2).
  { unfold rlookup. by rewrite Hrg. }
  unfold DESC_IDX, SB_IDX, META_IDX, LAST_IDX in *.
  rewrite !reopened_start; unfold moved_by; unfold LAST_IDX; rewrite ?E0, ?E1, ?E2; done || lia.
Qed.

Lemma reopened_wired : wired size (reopened rg a).
Proof using Hw Ha Hrg HG'.
  pose proof reopened_at as Hat. destruct Hw as [_ _ _ W4 W5].
  assert (∀ i, (i < LAST_IDX)%nat → rget (reopened rg a) i = old_region (rget rg i) (a i)) as Hg.
  { intros i Hi. destruct i as [|[|[|?]]]; [done..|unfold LAST_IDX in Hi; lia]. }
  constructor; try done; intros i Hi; rewrite Hg by done.
  - split; [done|]. apply (W4 i Hi).
  - destruct (W5 i Hi) as [Hs E]. split; [done|]. cbn [base_addr old_region rfile]. rewrite Ha by done.
    assert (rlookup (reopened rg a) i = moved_by dd d dm i + rlookup rg i) as ->; [|lia].
    unfold rlookup. rewrite Hat, Hrg. destruct i as [|[|[|?]]]; [done..|unfold LAST_IDX in Hi; lia].
Qed.

Lemma reopened_root off p :
  CrossPtr_get rg SB_IDX off = p → 0 < p → 0 ≤ d + p < 2 ^ 64 → CrossPtr_get (reopened rg a) SB_IDX off = d + p.
Proof using Hw Ha Hrg HG'.
  intros E Hp Hd. unfold CrossPtr_get in *. destruct (CrossPtr_is_null off); [lia|].
  unfold translate in *. rewrite (rlookup_sb _ _ _ _ Hrg) in E. rewrite (rlookup_sb _ _ _ _ reopened_at).
  rewrite <- (u64_small (d + p)), <- E by done. unfold u64. rewrite Zplus_mod_idemp_r. f_equal. lia.
Qed.

Lemma a_sb : a SB_IDX = d + base_addr (rget rg SB_IDX).
Proof using Ha. apply (Ha SB_IDX). unfold SB_IDX, LAST_IDX. lia. Qed.

(** Clearing the byte before the files move, or after. *)
Lemma remap_displaced m m' :
  displaced d m m' → displaced d (store8 m (last_address rg) 0) (store8 m' (a SB_IDX + FILESIZE (rget rg SB_IDX) - 1) 0).
Proof using Ha.
  intros H x. rewrite load8_cleared. unfold loaded. rewrite a_sb. fold (last_address rg).
  replace (d + base_addr (rget rg SB_IDX) + FILESIZE (rget rg SB_IDX) - 1) with (d + last_address rg) by (unfold last_address; lia).
  destruct (Z.eqb_spec x (last_address rg)) as [->|Hne]; [apply load8_store8_eq|].
  rewrite load8_store8_ne by lia. apply H.
Qed.

Lemma remap_content s s' x :
  load8 (smem s') (d + x) = load8 (smem s) x →
  load8 (smem (remap_mem rg a s')) (d + x) = loaded rg (smem s) x.
Proof using Ha.
  intros H. cbn [remap_mem smem upd_mem]. unfold loaded. rewrite a_sb.
  replace (d + base_addr (rget rg SB_IDX) + FILESIZE (rget rg SB_IDX) - 1) with (d + last_address rg) by (unfold last_address; lia).
  destruct (Z.eqb_spec x (last_address rg)) as [->|Hne]; [apply load8_store8_eq|].
  rewrite load8_store8_ne by lia. done.
Qed.

Lemma reopened_rep L s s' :
  heap_rep db sb mb L (set_rgs rg s) → last_address_idle L rg →
  image dd d s s' → (∀ t c, get_block_num s t c = 0) → 0 < a SB_IDX →
  heap_rep (dd + db) (d + sb) (dm + mb) (kmap (Z.add d) L) (set_rgs (reopened rg a) (remap_mem rg a s')).
Proof using HG HG' Hw Ha Hrg.
  intros H Hidle Him Hc Hp.
  eapply (reloc_rep db sb mb (dd + db) d (dm + mb) HG HG');
    [exact (last_address_rep db sb mb HG L (set_rgs rg s) H Hidle)| | |done|..].
  - replace (dd + db - db) with dd by lia. destruct (image_remapped dd d s s' rg (reopened rg a) Him Hc) as [M1 M2 M3 M4 M5 M6].
    constructor; try done. by apply remap_displaced.
  - exact reopened_at.
  - split; [done|]. split; [exact a_sb|done].
  - exact Hp.
Qed.

(** ** After a crash *)

(** A live heap as it would look at the other addresses. *)
Definition move_bin (b : TCacheBin) : TCacheBin := mkBin (d + _block b) (_block_num b).

Definition move_state (rg' : Regions) (s : state) : state :=
  mkState (kmap (Z.add d) (smem s)) (kmap (Z.add dd) (descs s)) (avail_sb s) (heaps s) (roots s)
    (move_bin <$> t_caches s) rg' (plog s).

Lemma move_state_remapped rg' s : remapped dd d s (move_state rg' s).
Proof using.
  constructor; try done.
  - intros x. unfold load8. cbn [smem move_state]. by rewrite (lookup_kmap (M2 := gmap Z) (Z.add d)).
  - intros x. unfold get_desc. cbn [descs move_state]. by rewrite (lookup_kmap (M2 := gmap Z) (Z.add dd)).
  - intros t c. unfold get_block_num, peek_block, get_bin. cbn [t_caches move_state].
    rewrite lookup_fmap. destruct (t_caches s !! (t, c)) as [b|]; cbn; [done|]. split; [done|lia].
Qed.

Lemma moved_rep L s :
  heap_rep db sb mb L s → rgs s = rg → 0 < a SB_IDX →
  heap_rep (dd + db) (d + sb) (dm + mb) (kmap (Z.add d) L) (move_state (reopened rg a) s).
Proof using HG HG' Hw Ha Hrg.
  intros H Hs Hp. eapply (reloc_rep db sb mb (dd + db) d (dm + mb) HG HG'); [exact H| | |done|..].
  - replace (dd + db - db) with dd by lia. apply move_state_remapped.
  - exact reopened_at.
  - rewrite Hs. split; [done|]. split; [exact a_sb|done].
  - exact Hp.
Qed.

(** What a crash may leave of [s], displaced: the persisted words of the
    descriptors of blocks in use, the classes of the heaps, roots and contents. *)
Record crashed (L : gmap Z Z) (s s' : state) : Prop := {
  cr_roots : ∀ i, get_root_raw s' i = get_root_raw s i;
  cr_tc : t_caches s' = ∅;
  cr_heaps : ∀ c, 0 ≤ c < MAX_SZ_IDX → sc_idx (get_heap s' c) = sc_idx (get_heap s c);
  cr_pers : ∀ p z, L !! p = Some z → let x := desc_lookup rg p in
    pers (get_desc s' (dd + x)) = pers (get_desc s x);
  cr_mem : ∀ x, in_blocks L x → load8 (smem s') (d + x) = load8 (smem s) x
}.

Lemma rep_sb_index L s p z :
  heap_rep db sb mb L s → L !! p = Some z → ∃ i, 0 ≤ i < MAX_DESC_AMOUNT ∧ B sb i ≤ p < B sb (i + 1).
Proof using HG.
  intros (g & H & _ & HL) Hp. apply HL in Hp. pose proof (iv_wf _ _ _ _ _ _ _ _ _ _ H) as Hwf.
  destruct Hp as [(i & c & fl & lk & Hi & Hb & _)|(i & k & Hi & -> & _)]; exists i;
    (split; [enough (0 < i < MAX_DESC_AMOUNT) by lia; eapply inv_kind_index; [exact H|exact Hi]|]).
  - assert (1 ≤ c < MAX_SZ_IDX) as Hc by (by eapply gw_cls).
    apply (blocks_range sb i c p Hc) in Hb. unfold B in *. lia.
  - unfold B. change SBSIZE with 65536. lia.
Qed.

(** Blocks in use keep being addresses. *)
Lemma rep_moved_range L s p z :
  heap_rep db sb mb L s → L !! p = Some z → 0 < p ∧ 0 ≤ d + p < 2 ^ 64.
Proof using HG HG'.
  intros H Hp. destruct (rep_sb_index L s p z H Hp) as (i & Hi & Hr). destruct HG, HG'.
  change MAX_DESC_AMOUNT with (2 ^ 24) in Hi. unfold B in Hr.
  change MAX_SB_REGION_SIZE with (2 ^ 40) in *. change SBSIZE with (2 ^ 16) in *. lia.
Qed.

(** A root of the old heap, read in the new one. *)
Lemma reopened_root_value L s s' i :
  heap_rep db sb mb L s → fixed_regs (rgs s) = fixed_regs rg → (∀ i, get_root_raw s' i = get_root_raw s i) →
  is_Some (L !! root_value s i) → root_value (set_rgs (reopened rg a) s') i = d + root_value s i.
Proof using HG HG' Hw Ha Hrg.
  intros H Hf Hr [z Hz]. destruct (rep_moved_range L s _ z H Hz) as [Hp Hd].
  unfold root_value in *. change (get_root_raw (set_rgs _ s') i) with (get_root_raw s' i). rewrite Hr. cbn [rgs set_rgs].
  apply reopened_root; [|done|done].
  assert (regions_address (rgs s) = regions_address rg) as E by (unfold fixed_regs in Hf; congruence).
  unfold CrossPtr_get, translate, rlookup. by rewrite E.
Qed.

Lemma in_blocks_moved L x : in_blocks (kmap (Z.add d) L) x ↔ in_blocks L (x - d).
Proof using.
  split.
  - intros (p & z & Hp & Hx). apply (lookup_kmap_Some (M2 := gmap Z) (Z.add d)) in Hp as (q & -> & Hq).
    exists q, z. split; [done|lia].
  - intros (p & z & Hp & Hx). exists (d + p), z. split; [|lia].
    by rewrite (lookup_kmap (M2 := gmap Z) (Z.add d)).
Qed.

(** The image of a crash, mapped again, for a heap [m'] with the byte cleared. *)
Lemma crashed_image L s s' m' :
  heap_rep db sb mb L s → rgs s = rg → crashed L s s' →
  (∀ x, in_blocks L x → load8 m' x = loaded rg (smem s) x) →
  crash_image (kmap (Z.add d) L) (move_state (reopened rg a) (upd_mem (λ _, m') s))
    (set_rgs (reopened rg a) (remap_mem rg a s')).
Proof using HG HG' Hw Ha Hrg.
  intros H Hs [C1 C2 C3 C4 C5] Hm.
  pose proof (move_state_remapped (reopened rg a) (upd_mem (λ _, m') s)) as [M1 M2 _ _ _ _].
  constructor; try done.
  - intros p z Hp x. apply (lookup_kmap_Some (M2 := gmap Z) (Z.add d)) in Hp as (q & -> & Hq).
    destruct (rep_sb_index L s q z H Hq) as (i & Hi & Hr).
    assert (x = dd + desc_lookup rg q) as ->.
    { subst x. cbn [rgs move_state].
      rewrite (desc_lookup_sb (dd + db) (d + sb) (dm + mb) HG' _ reopened_at i); [|done|].
      - by rewrite (desc_lookup_sb db sb mb HG _ Hrg i), D_shift.
      - rewrite !B_shift. lia. }
    rewrite M2. exact (C4 q z Hq).
  - intros x Hx. apply in_blocks_moved in Hx. replace x with (d + (x - d)) by lia.
    rewrite M1. change (load8 (smem (remap_mem rg a s')) (d + (x - d)) = load8 m' (x - d)).
    rewrite Hm by done. apply remap_content. by apply C5.
Qed.
End Reopen.

(** ** Registering roots, recovering *)

(** A program that reads the roots of [rs], with the types it expects there. *)
Fixpoint get_roots (rs : list (Z * nat)) : ST world (list Z) :=
  match rs with
  | [] => mret []
  | (i, T) :: rs' => p ← RP_get_root T i; ps ← get_roots rs'; mret (p :: ps)
  end.

Definition add_filters (rs : list (Z * nat)) (fs : gmap Z nat) : gmap Z nat :=
  foldl (λ f iT, <[iT.1 := iT.2]> f) fs rs.

Lemma get_roots_run rs Q w :
  w_init w = true → (∀ i T, (i, T) ∈ rs → i < MAX_ROOTS) →
  Q ((λ iT, root_value (w_state w) iT.1) <$> rs)
    (mkWorld (w_state w) (w_mtx w) (w_init w) (w_holder w) (add_filters rs (w_filters w))) →
  wp (get_roots rs) Q w.
Proof.
  revert Q w. induction rs as [|[i T] rs IH]; intros Q w Hi Hr HQ; cbn [get_roots].
  - apply wp_ret. by destruct w.
  - apply wp_bind, wp_spec. eexists _, _. split.
    { unfold RP_get_root. rewrite Hi. unfold get_root, mbind, st_mbind, st_bind, st_assert, st_get.
      rewrite (proj2 (Z.ltb_lt _ _)) by (eapply Hr; left). done. }
    apply wp_bind, IH; [done|intros j U Hj; eapply Hr; by right|]. apply wp_ret. by rewrite Hi in HQ.
Qed.

Lemma recover_clean uf fuel Q w :
  unlocked (w_mtx w) →
  (∀ m pl, locked m → Q 0 (mkWorld (relog pl (w_state w)) m (w_init w) (w_holder w) (w_filters w))) →
  wp (RP_recover uf fuel) Q w.
Proof.
  intros Hu HQ. destruct (is_dirty_no (w_mtx w) (or_introl Hu)) as (m1 & E1 & Hm1).
  destruct (set_dirty_spec m1 Hm1) as (m2 & E2 & Hm2).
  unfold RP_recover, restart. apply wp_bind, wp_bind. unfold w_is_dirty, on_mutex. unfold wp at 1. rewrite E1.
  apply wp_bind, wp_gets. cbn iota. apply wp_bind, wp_ret, wp_bind, wp_on_state, (wp_logs _ tt).
  { apply logs_FLUSHFENCE. }
  intros pl. apply wp_bind. unfold w_set_dirty, on_mutex. unfold wp at 1. cbn [w_mtx with_state]. rewrite E2.
  apply wp_ret, wp_ret. by apply HQ.
Qed.

Lemma recover_dirty uf fuel Q w :
  reports_dirty (w_mtx w) = true →
  wp (gc_run uf fuel (w_filters w)) (λ _ s, ∀ m pl, locked m →
    Q 1 (mkWorld (relog pl s) m (w_init w) (w_holder w) (w_filters w))) (w_state w) →
  wp (RP_recover uf fuel) Q w.
Proof.
  intros Ho HQ. destruct (is_dirty_yes (w_mtx w) Ho) as (m1 & E1 & Hm1).
  destruct (set_dirty_spec m1 Hm1) as (m2 & E2 & Hm2).
  unfold RP_recover, restart. apply wp_bind, wp_bind. unfold w_is_dirty, on_mutex. unfold wp at 1. rewrite E1.
  apply wp_bind, wp_gets. cbn iota. apply wp_bind, wp_on_state, wp_bind.
  eapply wp_mono; [exact HQ|]. cbn beta. intros K s' HK. apply wp_ret.
  apply wp_bind, wp_on_state, (wp_logs _ tt); [apply logs_FLUSHFENCE|].
  intros pl. apply wp_bind. unfold w_set_dirty, on_mutex. unfold wp at 1. cbn [w_mtx with_state]. rewrite E2.
  apply wp_ret, wp_ret. by apply HK.
Qed.
End Lifecycle.
