(* ===== verification/Trace.v ===== *)
(** * Programs on an allocator

    [program] is the interface a program sees: calls of several threads, each
    chosen from the results of the earlier ones. [run] executes them whole, one after
    the other: calls of different threads do not overlap here. [astep] is the abstract
    machine (blocks of memory with contents); a run on any [Allocator] is a run of the
    abstract machine, as long as the program keeps the rules and the heap can grow. *)

From Stdlib Require Import ZArith Lia.
From stdpp Require Import base gmap numbers functions list.
From S2P Require Import Prelude Mem Config Pptr SizeClass Region Meta Refine.

Local Open Scope Z_scope.
#[local] Set Warnings "-clear-no-such-hyp".

(** [Write] and [Read] are the program's own accesses to a byte. *)
Inductive call :=
| Malloc (t : nat) (size : Z)
| Free (t : nat) (p : Z)
| Write (a v : Z)
| Read (a : Z).

(** A program: the next call, from the results so far (newest first). *)
Definition program : Type := list Z → call.

(** ** The abstract machine *)

Record astate := mkA { ablocks : gmap Z Z; amem : Z → Z }.

Definition agree_on (L : gmap Z Z) (f f' : Z → Z) : Prop := ∀ a, in_blocks L a → f' a = f a.

Inductive astep : astate → call → Z → astate → Prop :=
| astep_malloc L f t size p z f' :
    size ≤ z → p mod 8 = 0 → apart L p z → agree_on L f f' →
    astep (mkA L f) (Malloc t size) p (mkA (<[p := z]> L) f')
| astep_free L f t p z f' :
    L !! p = Some z → agree_on (delete p L) f f' →
    astep (mkA L f) (Free t p) 0 (mkA (delete p L) f')
| astep_free_null L f t : astep (mkA L f) (Free t 0) 0 (mkA L f)
| astep_write L f a v f' :
    in_blocks L a → (∀ b, in_blocks L b → f' b = if decide (b = a) then v mod 256 else f b) →
    astep (mkA L f) (Write a v) 0 (mkA L f')
| astep_read L f a : in_blocks L a → astep (mkA L f) (Read a) (f a) (mkA L f).

(** The rules: bounded requests, frees of blocks in use, accesses inside them. *)
Definition allowed (x : astate) (c : call) : Prop :=
  match c with
  | Malloc _ size => 0 ≤ size ≤ MAX_REQUEST
  | Free _ p => p = 0 ∨ is_Some (ablocks x !! p)
  | Write a _ | Read a => in_blocks (ablocks x) a
  end.

(** The abstract runs of [n] calls with results [rs]. *)
Inductive aruns (prog : program) : list Z → astate → list Z → astate → Prop :=
| aruns_nil rs x : aruns prog rs x rs x
| aruns_cons rs x r x1 rs' x' :
    astep x (prog rs) r x1 → aruns prog (r :: rs) x1 rs' x' → aruns prog rs x rs' x'.

(** A program keeps the rules from [x] on. *)
Definition behaves (prog : program) (rs : list Z) (x : astate) : Prop :=
  ∀ rs' x', aruns prog rs x rs' x' → allowed x' (prog rs').

Section Trace.
Context {A : Allocator}.

(** ** The concrete machine *)

Definition exec (fuel : nat) (c : call) : M Z :=
  match c with
  | Malloc t size => al_malloc fuel t size
  | Free t p => al_free fuel t p;; mret 0
  | Write a v => st_mod (upd_mem (λ m, store8 m a v));; mret 0
  | Read a => st_gets (λ s, load8 (smem s) a)
  end.

Fixpoint run (fuel n : nat) (prog : program) (rs : list Z) : M (list Z) :=
  match n with
  | O => mret rs
  | S n' => r ← exec fuel (prog rs); run fuel n' prog (r :: rs)
  end.

(** The concrete state represents the abstract one. *)
Definition refines (x : astate) (s : state) : Prop :=
  al_rep (ablocks x) s ∧ ∀ a, in_blocks (ablocks x) a → load8 (smem s) a = amem x a.

(** The program's next call is a request that the heap has no room for. *)
Definition stuck_at (prog : program) (rs : list Z) (s : state) : Prop :=
  ∃ t size, prog rs = Malloc t size ∧ al_full s size.

Lemma same_on_agree (L : gmap Z Z) m m' f :
  (∀ a, in_blocks L a → load8 m a = f a) → same_on L m m' → agree_on L f (load8 m').
Proof. intros Hf Hs a Ha. rewrite Hs, Hf; done. Qed.

Lemma in_blocks_delete L p a : in_blocks (delete p L) a → in_blocks L a.
Proof. intros (q & w & Hq & Ha). apply lookup_delete_Some in Hq as [_ Hq]. by exists q, w. Qed.

(** One call is one abstract step. *)
Lemma exec_simulates fuel x s c :
  refines x s → allowed x c → (enough_fuel ≤ fuel)%nat →
  wpe (exec fuel c) (λ r s', ∃ x', astep x c r x' ∧ refines x' s')
    (∃ t size, c = Malloc t size ∧ al_full s size) s.
Proof.
  destruct x as [L f]. intros [Hrep Hf] Hc Hfuel. cbn [ablocks amem] in *.
  destruct c as [t size|t p|a v|a]; cbn [exec allowed ablocks] in *.
  - eapply wpe_mono; [by apply (al_malloc_ok L)| |].
    + intros p s' (z & Hz & Hm & Hap & H' & Hs & _).
      exists (mkA (<[p := z]> L) (load8 (smem s'))). split; [|done].
      constructor; [done|done|done|]. by apply (same_on_agree L (smem s)).
    + intros Hful. by exists t, size.
  - apply wp_wpe. destruct Hc as [->|[z Hz]].
    + apply wp_bind, wp_spec. eexists _, _. split; [apply al_free_null|]. wp_steps.
      exists (mkA L f). split; [constructor|done].
    + apply wp_bind. eapply wp_mono; [by apply (al_free_ok L s t p z)|].
      intros _ s' (H' & Hs & _). wp_steps. exists (mkA (delete p L) (load8 (smem s'))).
      split; [|done]. apply (astep_free L f t p z); [done|].
      apply (same_on_agree _ (smem s)); [|done]. intros a Ha. by apply Hf, (in_blocks_delete L p).
  - apply wp_wpe. wp_steps. exists (mkA L (load8 (store8 (smem s) a v))).
    assert (∀ b, load8 (store8 (smem s) a v) b = if decide (b = a) then v mod 256 else load8 (smem s) b) as Hst.
    { intros b. case_decide as E; [subst; apply load8_store8_eq|by apply load8_store8_ne]. }
    split; [constructor; [done|]|split; [|done]].
    + intros b Hb. rewrite Hst. case_decide; [done|]. by apply Hf.
    + apply (al_write_ok L s (store8 (smem s) a v)); [done|]. intros b Hb. rewrite Hst.
      case_decide as E; [by subst|done].
  - apply wp_wpe. wp_steps. exists (mkA L f). split; [|done]. rewrite Hf by done. by constructor.
Qed.

Lemma behaves_step prog rs x r x' :
  behaves prog rs x → astep x (prog rs) r x' → behaves prog (r :: rs) x'.
Proof. intros H Hs rs' x'' Hr. apply H. by econstructor. Qed.

Lemma run_S fuel n prog rs s r s' :
  exec fuel (prog rs) s = Ok (r, s') → run fuel (S n) prog rs s = run fuel n prog (r :: rs) s'.
Proof. intros E. cbn [run]. unfold mbind, st_mbind, st_bind. by rewrite E. Qed.

(** A run ends as the abstract machine allows, or stops at the first request
    without room. *)
Lemma run_simulates fuel n prog rs x s :
  refines x s → behaves prog rs x → (enough_fuel ≤ fuel)%nat →
  wpe (run fuel n prog rs) (λ rs' s', ∃ x', aruns prog rs x rs' x' ∧ length rs' = (n + length rs)%nat ∧
    refines x' s')
    (∃ k rs' s', (k < n)%nat ∧ run fuel k prog rs s = Ok (rs', s') ∧ stuck_at prog rs' s') s.
Proof.
  intros Hx Hb Hfuel. revert rs x s Hx Hb. induction n as [|n IH]; intros rs x s Hx Hb.
  - apply wp_wpe. cbn [run]. wp_steps. exists x. split_and!; [constructor|done..].
  - pose proof (exec_simulates fuel x s (prog rs) Hx (Hb _ _ (aruns_nil _ _ _)) Hfuel) as He.
    unfold wpe in He |- *. destruct (exec fuel (prog rs) s) as [[r s']| |] eqn:Ee; [|cbn [run]|done].
    + destruct He as (x' & Hs & Hx'). rewrite (run_S _ _ _ _ _ _ _ Ee).
      specialize (IH (r :: rs) x' s' Hx' (behaves_step _ _ _ _ _ Hb Hs)). unfold wpe in IH.
      destruct (run fuel n prog (r :: rs) s') as [[rs' s'']| |]; [|..|done].
      * destruct IH as (x'' & Hr & Hl & Hx''). exists x''. split; [by econstructor|].
        split; [|done]. rewrite Hl. cbn. lia.
      * destruct IH as (k & rs' & s'' & Hk & Er & Hst). exists (S k), rs', s''. split; [lia|].
        split; [|done]. by rewrite (run_S _ _ _ _ _ _ _ Ee).
    + unfold mbind, st_mbind, st_bind. rewrite Ee. exists 0%nat, rs, s. split; [lia|].
      split; [done|]. exact He.
Qed.
End Trace.
