(* ===== verification/Sample.v ===== *)
(** * A concrete heap

    A heap of 4 GiB with its regions at fixed addresses, as [BaseMeta]'s
    constructor leaves it: the inputs at which the properties are instantiated. *)

From Stdlib Require Import ZArith Lia.
From stdpp Require Import base gmap numbers functions list.
From S2P Require Import Prelude Mem Config Pptr SizeClass Region Meta MetaFacts TCache Heap BaseMeta Inv Ghost Rep Trans SbSpec CacheSpec FlushSpec AllocSpec InitSpec Refine Api Roots GC GCMark Keeps Recovery ProcSpec.

Local Open Scope Z_scope.

(** The final state and the result of a computation that succeeds. *)
Definition state_after {A} (m : M A) (s : state) : state :=
  match m s with Ok (_, s') => s' | _ => s end.

Definition result_of {A} (m : M A) (d : A) (s : state) : A :=
  match m s with Ok (a, _) => a | _ => d end.

Lemma wp_after {A} (m : M A) (d : A) Q s : wp m Q s → Q (result_of m d s) (state_after m s).
Proof. unfold wp, result_of, state_after. by destruct (m s) as [[a s']| |]. Qed.

Definition sample_db : Z := 2 ^ 32 + PAGESIZE.
Definition sample_mb : Z := 2 ^ 33 + PAGESIZE.
Definition sample_base : Z := 2 ^ 40.
Definition sample_size : Z := 2 ^ 32.

(** The state in which the constructor starts. *)
Definition sample_fresh : state :=
  mkState ∅ ∅ 0 ∅ ∅ ∅
    (mkRegions [full_region (2 ^ 32) (region_size sample_size DESC_IDX);
                new_region sample_base (region_size sample_size SB_IDX);
                full_region (2 ^ 33) (region_size sample_size META_IDX)] [sample_db; 0; sample_mb] LAST_IDX) [].

Definition sample_sb : Z := heap_start sample_fresh.

Definition sample_heap : state := state_after (BaseMeta_ctor 1 sample_mb) sample_fresh.

Lemma sample_fresh_ok : fresh sample_db sample_mb sample_fresh.
Proof.
  constructor; [done|by exists 0|by split_and!|done].
Qed.

Lemma sample_geom : geom sample_db sample_sb sample_mb.
Proof. by constructor. Qed.

Lemma sample_heap_inv :
  Inv sample_db sample_sb sample_mb (ghost_init EXPAND_SBS) sample_heap ∧
  region_end sample_heap = region_end sample_fresh ∧
  (∀ i, 0 ≤ i < MAX_ROOTS → get_root_raw sample_heap i = 0) ∧ rgs sample_heap = rg_init sample_fresh.
Proof.
  pose proof (BaseMeta_ctor_inv sample_db sample_mb sample_fresh sample_fresh_ok sample_geom
    ltac:(done) ltac:(done) 1 sample_mb ltac:(lia)) as H.
  apply (wp_after _ tt) in H. exact H.
Qed.

Lemma sample_heap_rep : heap_rep sample_db sample_sb sample_mb ∅ sample_heap.
Proof. apply (ghost_init_rep _ _ _ EXPAND_SBS); [done|]. apply sample_heap_inv. Qed.

(** There is room for a small request. *)
Lemma sample_room size : 0 ≤ size ≤ MAX_SZ → ¬ heap_full sample_heap size.
Proof.
  intros Hs. unfold heap_full. destruct sample_heap_inv as (H & -> & _).
  rewrite (region_curr_B _ _ _ _ _ H). cbn [g_n ghost_init].
  rewrite (proj2 (Z.ltb_ge _ _)) by lia. by vm_compute.
Qed.

(** After [do_malloc(100)] by thread 0. *)
Definition sample_ptr : Z := result_of (do_malloc enough_fuel 0 100) 0 sample_heap.
Definition sample_heap1 : state := state_after (do_malloc enough_fuel 0 100) sample_heap.

Lemma sample_malloc_run :
  ∃ z, 100 ≤ z ∧ z ≤ 65536 ∧ heap_rep sample_db sample_sb sample_mb {[sample_ptr := z]} sample_heap1 ∧
    roots sample_heap1 = roots sample_heap.
Proof.
  assert (0 ≤ 100 ≤ MAX_SZ) as Hsz by done.
  assert (0 ≤ 100 ≤ MAX_REQUEST) as Hrq by done.
  assert (usable_size 100 ≤ 65536) as Hmax by (vm_compute; discriminate).
  pose proof (wp_after _ 0 _ _ (wpe_wp _ _ _ _ (ralloc_malloc_sized _ _ _ sample_geom ∅ sample_heap
    0%nat 100 enough_fuel sample_heap_rep Hrq (Nat.le_refl _)) (sample_room 100 Hsz))) as H.
  destruct H as (Hz & _ & _ & Hrep & _ & Hr). exists (usable_size 100). exact (conj Hz (conj Hmax (conj Hrep Hr))).
Qed.

Lemma sample_malloc_exact :
  ∃ z, 100 ≤ z ∧ z ≤ 65536 ∧ heap_rep sample_db sample_sb sample_mb {[sample_ptr := z]} sample_heap1.
Proof. destruct sample_malloc_run as (z & Hz & Hm & H & _). exists z. exact (conj Hz (conj Hm H)). Qed.

Lemma sample_malloc :
  ∃ z, 100 ≤ z ∧ heap_rep sample_db sample_sb sample_mb {[sample_ptr := z]} sample_heap1.
Proof. destruct sample_malloc_exact as (z & Hz & _ & H). exists z. exact (conj Hz H). Qed.

(** Root 3 set to the block, and what a crash leaves of it. *)
Definition sample_rooted : state := state_after (set_root sample_ptr 3) sample_heap1.

Definition sample_crashed : state :=
  mkState (smem sample_rooted) (descs sample_rooted) 77 (heaps sample_rooted) (roots sample_rooted)
    ∅ (rgs sample_rooted) [].

Lemma sample_root_run :
  ∃ z, heap_rep sample_db sample_sb sample_mb {[sample_ptr := z]} sample_rooted ∧
    CrossPtr_get (rgs sample_rooted) SB_IDX (get_root_raw sample_rooted 3) = sample_ptr ∧
    ∀ j, 0 ≤ j < MAX_ROOTS → j ≠ 3 → get_root_raw sample_rooted j = 0.
Proof.
  assert (0 ≤ 3 < MAX_ROOTS) as H3 by done.
  destruct sample_malloc_run as (z & _ & _ & Hrep & Hr). exists z.
  pose proof (wp_after _ 0 _ _ (set_root_run _ _ _ sample_geom _ _ sample_ptr z 3 1 ∅ Hrep
    (lookup_singleton_eq _ _) H3)) as (_ & H1 & H2 & Hj).
  split; [exact H1|]. split.
  - exact (get_root_value _ _ _ _ _ _ _ H2).
  - intros j Hjr Hne. unfold sample_rooted. rewrite Hj by exact Hne.
    destruct sample_heap_inv as (_ & _ & H0 & _). unfold get_root_raw. rewrite Hr. by apply H0.
Qed.

Lemma sample_crash_image z : crash_image {[sample_ptr := z]} sample_rooted sample_crashed.
Proof. constructor; try reflexivity. intros a _. reflexivity. Qed.

(** The regions of the heap, and the caches of the other threads. *)
Lemma sample_wired_init : wired sample_size (rg_init sample_fresh).
Proof.
  constructor; try (by vm_compute); intros i Hi; destruct i as [|[|[|i]]];
    try (by vm_compute); exfalso; unfold LAST_IDX in Hi; lia.
Qed.

Lemma keeps_after {A} (P : state → Prop) (m : M A) s : keeps P m → P s → P (state_after m s).
Proof. intros Hk Hs. unfold state_after. destruct (m s) as [[a s']| |] eqn:E; [by eapply Hk|done..]. Qed.

Lemma sample_static : static (fixed_regs (rg_init sample_fresh)) 0 (t_caches sample_heap) sample_rooted.
Proof.
  apply (keeps_after (static _ _ _) (set_root sample_ptr 3) sample_heap1); [apply static_set_root|].
  apply (keeps_after (static _ _ _) (do_malloc enough_fuel 0 100) sample_heap); [apply (keeps_do_malloc _ _)|].
  destruct sample_heap_inv as (_ & _ & _ & E). split; [by rewrite E|]. intros t' c _. reflexivity.
Qed.

Lemma sample_wired : wired sample_size (rgs sample_rooted).
Proof. apply (wired_fixed _ (rg_init sample_fresh)); [symmetry; apply sample_static|apply sample_wired_init]. Qed.

Lemma sample_other_caches t c : t ≠ 0%nat → get_block_num sample_rooted t c = 0.
Proof.
  intros Ht. destruct sample_static as [_ H]. unfold get_block_num, get_bin. rewrite (H t c Ht).
  destruct sample_heap_inv as (HI & _). exact (proj1 (iv_cache _ _ _ _ _ _ _ _ _ _ HI t c)).
Qed.

(** Type 1 has no pointers. *)
Definition demo_filter (T : nat) : option (state → Z → list (Z * nat)) :=
  match T with 1%nat => Some (λ _ _, []) | _ => None end.

Lemma demo_reach s i p a T :
  CrossPtr_get (rgs s) SB_IDX (get_root_raw s i) = p →
  (∀ j, 0 ≤ j < MAX_ROOTS → j ≠ i → get_root_raw s j = 0) →
  reach demo_filter s {[i := 1%nat]} a T → a = p ∧ T = 1%nat.
Proof.
  intros Hp Hz. induction 1 as [j T Hj Hn Ef Hin|a T b U Hr [-> ->] Hb Hin].
  - apply lookup_singleton_Some in Ef as [<- <-]. done.
  - by apply elem_of_nil in Hb.
Qed.
