(* ===== verification/AnchorRace.v ===== *)
(** * One superblock under concurrency

    The anchor of a small superblock while any number of threads flush blocks
    into it ([flush_cache]), take its free blocks ([malloc_from_partial]), retire
    it ([small_sb_retire]) and start it anew ([malloc_from_newsb]), possibly for
    another size class. A thread is between two of its accesses to shared memory;
    the accesses of all threads interleave, and a weak compare-and-swap may fail
    without reason. The anchor carries no counter. The lists of descriptors
    themselves, with their own interleavings, are in Treiber.v: here a push or a pop
    of the descriptor is one step. *)

From Stdlib Require Import ZArith Lia.
From stdpp Require Import base gmap numbers list.
From S2P Require Import Prelude Mem Config Pptr SizeClass Region Meta MetaFacts.
From S2P Require Import TCache Heap Inv SbSpec CacheSpec FlushSpec.

Local Open Scope Z_scope.
#[local] Set Warnings "-clear-no-such-hyp".

(** What [flush_cache] keeps in local variables while it updates the anchor: the
    class, the address of the superblock, the run of blocks it has removed from
    the cache ([head] is its first element, [tail] its last, [block_count] its
    length) and the index of the head. *)
Record flush_vars := mkFlush { fv_c : Z; fv_sb : Z; fv_run : list Z; fv_idx : Z }.

Definition fv_tail (f : flush_vars) : Z := default 0 (last (fv_run f)).
Definition fv_count (f : flush_vars) : Z := Z.of_nat (length (fv_run f)).

(** The local variables of [malloc_from_partial]. *)
Record take_vars := mkTake { tv_maxcount : Z; tv_bsz : Z; tv_sb : Z }.

(** Where a thread is. *)
Inductive apc :=
| FlushLoad (f : flush_vars)
| FlushLink (f : flush_vars) (oldanchor : Anchor)
| FlushCas (f : flush_vars) (oldanchor newanchor : Anchor)
| PushPartial
| TakeLoad (c : Z)
| TakeTry (c : Z) (v : take_vars) (oldanchor : Anchor)
| Retire (sbaddr size : Z)
| RetirePush
| NewSb (c : Z)
| NewAnchor (c : Z).

(** The superblock and its descriptor, the lists the descriptor is on (the partial
    lists by class, and how many times it is on the list of free superblocks), the
    threads, and who has which block: a block without an entry belongs to the
    superblock. *)
Record srace := mkSrace {
  a_mem : mem;
  a_desc : Descriptor;
  a_partial : list Z;
  a_free : nat;
  a_pc : gmap nat apc;
  a_own : gmap Z nat
}.

Definition a_anchor (s : srace) : Anchor := anchor (a_desc s).

Definition at_pc (t : nat) (p : apc) (s : srace) : srace :=
  mkSrace (a_mem s) (a_desc s) (a_partial s) (a_free s) (<[t := p]> (a_pc s)) (a_own s).
Definition at_rest (t : nat) (s : srace) : srace :=
  mkSrace (a_mem s) (a_desc s) (a_partial s) (a_free s) (delete t (a_pc s)) (a_own s).
Definition with_mem (m : mem) (s : srace) : srace :=
  mkSrace m (a_desc s) (a_partial s) (a_free s) (a_pc s) (a_own s).
Definition with_desc (d : Descriptor) (s : srace) : srace :=
  mkSrace (a_mem s) d (a_partial s) (a_free s) (a_pc s) (a_own s).
Definition with_lists (l : list Z) (n : nat) (s : srace) : srace :=
  mkSrace (a_mem s) (a_desc s) l n (a_pc s) (a_own s).
Definition with_own (o : gmap Z nat) (s : srace) : srace :=
  mkSrace (a_mem s) (a_desc s) (a_partial s) (a_free s) (a_pc s) o.

(** The blocks of a list of [n] linked blocks. *)
Fixpoint walk (m : mem) (b : Z) (n : nat) : list Z :=
  match n with
  | O => []
  | S n' => b :: walk m (pload m b) n'
  end.

Definition give_to (t : nat) (l : list Z) (o : gmap Z nat) : gmap Z nat :=
  foldr (λ b o, <[b := t]> o) o l.
Definition take_from (l : list Z) (o : gmap Z nat) : gmap Z nat :=
  foldr (λ b o, delete b o) o l.

(** A run as [gather] finds it: each block links to the next one. *)
Fixpoint linked (m : mem) (l : list Z) : bool :=
  match l with
  | x :: (y :: _) as l' => (pload m x =? y) && linked m l'
  | _ => true
  end.

(** A list without the first occurrence of an element. *)
Fixpoint remove_one (c : Z) (l : list Z) : list Z :=
  match l with
  | [] => []
  | x :: l' => if x =? c then l' else x :: remove_one c l'
  end.

(** What an idle thread may start to do: write a byte of a block it has; give a
    block to another thread; flush a run of its blocks; pop the descriptor from
    the partial list of a class, or from the list of free superblocks for a class;
    or make its next step, in which a compare-and-swap may fail spuriously. *)
Inductive act :=
| Write (b off v : Z)
| Give (b : Z) (t' : nat)
| StartFlush (run : list Z)
| PopPartial (c : Z)
| PopFree (c : Z)
| Advance (spurious : bool).

Section Steps.
Context (rg : Regions) (this : Z).

(** The class of the blocks, through [desc->heap]. *)
Definition class_of (s : srace) : Z := heap_index rg (CrossPtr_get rg META_IDX (heap (a_desc s))).

(** [cache->pop_list], [desc->superblock] and [compute_idx]. *)
Definition start_flush (t : nat) (run : list Z) (s : srace) : outcome srace :=
  let c := class_of s in
  let sbaddr := CrossPtr_get rg SB_IDX (superblock (a_desc s)) in
  match compute_idx sbaddr (from_option id 0 (head run)) c with
  | Ok idx => Ok (at_pc t (FlushLoad (mkFlush c sbaddr run idx)) s)
  | Fail => Fail
  | NoFuel => NoFuel
  end.

(** The body of the loop: link the tail, compute the new anchor. *)
Definition flush_link (t : nat) (f : flush_vars) (oldanchor : Anchor) (s : srace) : outcome srace :=
  let next := u64 (fv_sb f + u32 (avail oldanchor * block_size (get_sizeclass_by_idx (fv_c f)))) in
  let mcount := maxcount (a_desc s) in
  if count oldanchor <? mcount then
    Ok (at_pc t (FlushCas f oldanchor (flush_newanchor oldanchor (fv_idx f) (fv_count f) mcount))
          (with_mem (pstore (a_mem s) (fv_tail f) next) s))
  else Fail.

(** The compare-and-swap of the loop and what follows a success: the assertions,
    then the superblock is retired, pushed on the partial list, or left. *)
Definition flush_cas (t : nat) (f : flush_vars) (oldanchor newanchor : Anchor) (spurious : bool)
    (s : srace) : outcome srace :=
  if decide (a_anchor s = oldanchor ∧ spurious = false) then
    let mcount := block_num (get_sizeclass_by_idx (fv_c f)) in
    let s1 := with_own (take_from (fv_run f) (a_own s)) (with_desc (with_anchor newanchor (a_desc s)) s) in
    if ((avail oldanchor <? mcount) || bool_decide (astate oldanchor = SB_FULL))
       && (avail newanchor <? mcount) && (count newanchor <? mcount) then
      if decide (astate oldanchor = SB_FULL) then
        if decide (astate newanchor = SB_EMPTY) then Ok (at_pc t (Retire (fv_sb f) SBSIZE) s1)
        else Ok (at_pc t PushPartial s1)
      else Ok (at_rest t s1)
    else Fail
  else Ok (at_pc t (FlushLink f (a_anchor s)) s).

(** The reservation loop of [malloc_from_partial] and, after a success, the blocks
    that go to the cache. *)
Definition take_try (t : nat) (c : Z) (v : take_vars) (oldanchor : Anchor) (spurious : bool)
    (s : srace) : outcome srace :=
  if decide (astate oldanchor = SB_EMPTY) then
    Ok (at_pc t (Retire (tv_sb v) (sb_size (get_sizeclass_by_idx c))) s)
  else if decide (astate oldanchor = SB_PARTIAL) then
    let newanchor := set_astate (set_avail (set_count oldanchor 0) (tv_maxcount v)) SB_FULL in
    if decide (a_anchor s = oldanchor ∧ spurious = false) then
      if avail oldanchor <? tv_maxcount v then
        let block := u64 (tv_sb v + u32 (avail oldanchor * tv_bsz v)) in
        Ok (at_rest t
              (with_own (give_to t (walk (a_mem s) block (Z.to_nat (count oldanchor))) (a_own s))
                 (with_desc (with_anchor newanchor (a_desc s)) s)))
      else Fail
    else Ok (at_pc t (TakeTry c v (a_anchor s)) s)
  else Fail.

(** [small_sb_retire]: the descriptor is constructed anew; its lookup must find
    the descriptor of this superblock. *)
Definition retire (t : nat) (sbaddr size : Z) (s : srace) : outcome srace :=
  if (size =? SBSIZE) && (desc_lookup rg sbaddr =? this) then
    Ok (at_pc t RetirePush (with_desc Descriptor_ctor s))
  else Fail.

(** [malloc_from_newsb]: the fields and the links; then the anchor, and all blocks
    are in the cache. *)
Definition new_sb (t : nat) (c : Z) (s : srace) : outcome srace :=
  let sc := get_sizeclass_by_idx c in
  let sbaddr := sb_lookup rg this in
  let d := with_superblock (CrossPtr_assign rg SB_IDX sbaddr)
             (with_maxcount (block_num sc)
                (with_block_size (block_size sc)
                   (with_heap (CrossPtr_assign rg META_IDX (heap_addr rg c)) (a_desc s)))) in
  Ok (at_pc t (NewAnchor c)
        (with_mem (init_blocks (a_mem s) sbaddr (block_size sc) (block_num sc)) (with_desc d s))).

Definition new_anchor (t : nat) (c : Z) (s : srace) : outcome srace :=
  let mcount := block_num (get_sizeclass_by_idx c) in
  let an := set_astate (set_count (set_avail (Anchor_of_word 0) mcount) 0) SB_FULL in
  Ok (at_rest t
        (with_own (give_to t (walk (a_mem s) (sb_lookup rg this) (Z.to_nat mcount)) (a_own s))
           (with_desc (with_anchor an (a_desc s)) s))).

(** One step of thread [t]; [None] when the action is not possible. *)
Definition astep (t : nat) (a : act) (s : srace) : option (outcome srace) :=
  match a_pc s !! t, a with
  | None, Write b off v =>
      if decide (a_own s !! b = Some t ∧ 0 ≤ off < dblock_size (a_desc s))
      then Some (Ok (with_mem (store8 (a_mem s) (b + off) v) s)) else None
  | None, Give b t' =>
      if decide (a_own s !! b = Some t) then Some (Ok (with_own (<[b := t']> (a_own s)) s)) else None
  | None, StartFlush run =>
      if decide (run ≠ [] ∧ NoDup run ∧ Forall (λ b, a_own s !! b = Some t) run
                 ∧ linked (a_mem s) run = true)
      then Some (start_flush t run s) else None
  | None, PopPartial c =>
      if decide (c ∈ a_partial s)
      then Some (Ok (at_pc t (TakeLoad c) (with_lists (remove_one c (a_partial s)) (a_free s) s)))
      else None
  | None, PopFree c =>
      if decide (1 ≤ c < MAX_SZ_IDX ∧ (0 < a_free s)%nat)
      then Some (Ok (at_pc t (NewSb c) (with_lists (a_partial s) (a_free s - 1) s))) else None
  | Some p, Advance spurious =>
      Some match p with
      | FlushLoad f => Ok (at_pc t (FlushLink f (a_anchor s)) s)
      | FlushLink f oldanchor => flush_link t f oldanchor s
      | FlushCas f oldanchor newanchor => flush_cas t f oldanchor newanchor spurious s
      | PushPartial => Ok (at_rest t (with_lists (class_of s :: a_partial s) (a_free s) s))
      | TakeLoad c =>
          let d := a_desc s in
          let v := mkTake (maxcount d) (dblock_size d) (CrossPtr_get rg SB_IDX (superblock d)) in
          Ok (at_pc t (TakeTry c v (a_anchor s)) s)
      | TakeTry c v oldanchor => take_try t c v oldanchor spurious s
      | Retire sbaddr size => retire t sbaddr size s
      | RetirePush => Ok (at_rest t (with_lists (a_partial s) (S (a_free s)) s))
      | NewSb c => new_sb t c s
      | NewAnchor c => new_anchor t c s
      end
  | _, _ => None
  end.

(** A run of steps; it ends at the first failed assertion. *)
Fixpoint aruns (tr : list (nat * act)) (s : srace) : option (outcome srace) :=
  match tr with
  | [] => Some (Ok s)
  | (t, a) :: tr' =>
      match astep t a s with
      | Some (Ok s') => aruns tr' s'
      | r => r
      end
  end.

(** A free superblock with a constructed descriptor. *)
Definition free_sb (m : mem) : srace := mkSrace m Descriptor_ctor [] 1 ∅ ∅.
End Steps.

(** ** Lists of blocks *)

Lemma linked_frame m m' l : (∀ b, b ∈ l → pload m' b = pload m b) → linked m' l = linked m l.
Proof.
  induction l as [|x l IH]; intros H; [done|]. cbn [linked]. destruct l as [|y l]; [done|].
  rewrite H by set_solver. f_equal. apply IH. set_solver.
Qed.

(** The link of the last block of a run is free. *)
Lemma linked_frame_last m m' l x :
  (∀ b, b ∈ l → pload m' b = pload m b) → linked m' (l ++ [x]) = linked m (l ++ [x]).
Proof.
  induction l as [|y l IH]; intros H; [done|]. cbn [app linked].
  destruct (l ++ [x]) as [|z l'] eqn:E; [done|]. rewrite H by set_solver. f_equal. apply IH. set_solver.
Qed.

Lemma linked_chain m l x fl b :
  linked m (l ++ [x]) = true → head (l ++ [x]) = Some b → chain m (pload m x) fl →
  chain m b ((l ++ [x]) ++ fl).
Proof.
  revert b. induction l as [|y l IH]; intros b Hl Hh Hc.
  - cbn in Hh. injection Hh as <-. cbn. done.
  - cbn in Hh. injection Hh as <-. cbn [app chain]. split; [done|].
    cbn [app linked] in Hl. destruct (l ++ [x]) as [|z l'] eqn:E; [by destruct l|].
    apply andb_true_iff in Hl as [Hz%Z.eqb_eq Hl]. rewrite Hz. by apply IH.
Qed.

Lemma walk_chain m b l : chain m b l → walk m b (length l) = l.
Proof.
  revert b. induction l as [|x l IH]; intros b; cbn; [done|]. intros [-> H]. f_equal. by apply IH.
Qed.

Lemma give_to_lookup t l o b :
  give_to t l o !! b = if decide (b ∈ l) then Some t else o !! b.
Proof.
  induction l as [|x l IH]; cbn [give_to foldr]; [done|]. fold (give_to t l o).
  destruct (decide (b = x)) as [->|Hne].
  - rewrite lookup_insert_eq. by rewrite decide_True by left.
  - rewrite lookup_insert_ne, IH by done. destruct (decide (b ∈ l)), (decide (b ∈ x :: l)); set_solver.
Qed.

Lemma take_from_lookup l (o : gmap Z nat) b :
  take_from l o !! b = if decide (b ∈ l) then None else o !! b.
Proof.
  induction l as [|x l IH]; cbn [take_from foldr]; [done|]. fold (take_from l o).
  destruct (decide (b = x)) as [->|Hne].
  - rewrite lookup_delete_eq. by rewrite decide_True by left.
  - rewrite lookup_delete_ne, IH by done. destruct (decide (b ∈ l)), (decide (b ∈ x :: l)); set_solver.
Qed.

Lemma tail_split f : fv_run f ≠ [] → ∃ l, fv_run f = l ++ [fv_tail f].
Proof.
  intros Hne. unfold fv_tail. destruct (fv_run f) as [|x l] using rev_ind; [done|].
  exists l. by rewrite last_snoc.
Qed.
(** ** The invariant *)

(** Where the descriptor is: on a partial list, on the list of free superblocks, in
    the hands of a thread, or nowhere, as that of a full superblock. *)
Inductive place := OnPartial | OnFree | With (t : nat) | Nowhere.

(** The threads that have it. *)
Definition has_desc (p : apc) : bool :=
  match p with FlushLoad _ | FlushLink _ _ | FlushCas _ _ _ => false | _ => true end.

Section Invariant.
Context (db sb mb : Z) (HG : geom db sb mb) (rg : Regions) (Hrg : rg_at rg db sb mb).
Context (i : Z) (Hi : 0 < i < MAX_DESC_AMOUNT).

(** In use for class [c] with free list [fl]. *)
Record sb_ok (m : mem) (d : Descriptor) (own : gmap Z nat) (c : Z) (fl : list Z) : Prop := {
  so_c : 1 ≤ c < MAX_SZ_IDX;
  so_desc : desc_small db sb mb i c fl d;
  so_chain : chain m (from_option id 0 (head fl)) fl;
  so_nd : NoDup fl;
  so_fl : ∀ b, b ∈ fl ↔ b ∈ blocks sb i c ∧ own !! b = None;
  so_own : ∀ b t, own !! b = Some t → b ∈ blocks sb i c
}.

(** The run of a flushing thread, and any anchor it may have seen. *)
Definition run_ok (m : mem) (own : gmap Z nat) (t : nat) (c : Z) (f : flush_vars) : Prop :=
  fv_c f = c ∧ fv_sb f = B sb i ∧ NoDup (fv_run f) ∧ (∀ b, b ∈ fv_run f → own !! b = Some t) ∧
  linked m (fv_run f) = true ∧ head (fv_run f) = Some (blk sb i c (fv_idx f)) ∧ 0 ≤ fv_idx f < mc c.

Definition old_ok (c : Z) (a : Anchor) : Prop := 0 ≤ avail a ≤ mc c ∧ 0 ≤ count a < mc c.

(** The anchor a thread that has the descriptor may have seen: as long as it has
    it, the superblock is not full, and once empty it stays so. *)
Definition seen_ok (c : Z) (fl : list Z) (a : Anchor) : Prop :=
  astate a = SB_PARTIAL ∨ (astate a = SB_EMPTY ∧ Z.of_nat (length fl) = mc c).

Definition apc_ok (m : mem) (d : Descriptor) (own : gmap Z nat) (ph : option (Z * list Z)) (pl : place)
    (t : nat) (p : apc) : Prop :=
  match p with
  | FlushLoad f => ∃ c fl, ph = Some (c, fl) ∧ run_ok m own t c f
  | FlushLink f a => ∃ c fl, ph = Some (c, fl) ∧ run_ok m own t c f ∧ old_ok c a
  | FlushCas f a a' => ∃ c fl, ph = Some (c, fl) ∧ run_ok m own t c f ∧ old_ok c a ∧
      pload m (fv_tail f) = u64 (B sb i + u32 (avail a * bs c)) ∧
      a' = flush_newanchor a (fv_idx f) (fv_count f) (mc c)
  | PushPartial => ∃ c fl, ph = Some (c, fl) ∧ pl = With t
  | TakeLoad c => ∃ fl, ph = Some (c, fl) ∧ pl = With t
  | TakeTry c v a => ∃ fl, ph = Some (c, fl) ∧ pl = With t ∧
      v = mkTake (mc c) (bs c) (B sb i) ∧ seen_ok c fl a
  | Retire x z => ∃ c fl, ph = Some (c, fl) ∧ pl = With t ∧ Z.of_nat (length fl) = mc c ∧
      x = B sb i ∧ z = SBSIZE
  | RetirePush => ph = None ∧ pl = With t
  | NewSb c => ph = None ∧ pl = With t ∧ 1 ≤ c < MAX_SZ_IDX
  | NewAnchor c => ph = None ∧ pl = With t ∧ 1 ≤ c < MAX_SZ_IDX ∧
      chain m (B sb i) (blocks sb i c) ∧ ∀ a, anchor_rep sb i c [] a → desc_small db sb mb i c [] (with_anchor a d)
  end.

Definition lists_ok (s : srace) (ph : option (Z * list Z)) (pl : place) : Prop :=
  a_partial s = match pl, ph with OnPartial, Some (c, _) => [c] | _, _ => [] end ∧
  a_free s = match pl with OnFree => 1%nat | _ => 0%nat end.

Record ainv (s : srace) (ph : option (Z * list Z)) (pl : place) : Prop := {
  ai_lists : lists_ok s ph pl;
  ai_phase : match ph with
             | None => a_own s = ∅ ∧ (pl = OnFree ∨ ∃ t, pl = With t)
             | Some (c, fl) => sb_ok (a_mem s) (a_desc s) (a_own s) c fl ∧
                 (pl = Nowhere ↔ fl = []) ∧ pl ≠ OnFree
             end;
  ai_pc : ∀ t p, a_pc s !! t = Some p → apc_ok (a_mem s) (a_desc s) (a_own s) ph pl t p;
  ai_with : ∀ t, pl = With t → ∃ p, a_pc s !! t = Some p ∧ has_desc p = true
}.


(** ** Framing *)

(** What a thread relies on is not changed by the steps of the others. *)
Lemma run_ok_frame m m' own own' t c f :
  run_ok m own t c f →
  (∀ b, own !! b = Some t → own' !! b = Some t ∧ pload m' b = pload m b) → run_ok m' own' t c f.
Proof using.
  intros (? & ? & ? & Ho & Hl & ? & ?) Hf. repeat (split; [done|]). split; [|split; [|done]].
  - intros b Hb. by apply Hf, Ho.
  - rewrite <- Hl. apply linked_frame. intros b Hb. by apply Hf, Ho.
Qed.

Lemma apc_frame m d own c fl pl m' d' own' fl' pl' t p :
  apc_ok m d own (Some (c, fl)) pl t p →
  (∀ b, own !! b = Some t → own' !! b = Some t ∧ pload m' b = pload m b) →
  (pl = With t → pl' = With t ∧ (Z.of_nat (length fl) = mc c → Z.of_nat (length fl') = mc c)) →
  apc_ok m' d' own' (Some (c, fl')) pl' t p.
Proof using.
  intros Hp Hf Hpl. destruct p as [f|f a|f a a'| |c'|c' v a|x z| |c'|c']; cbn [apc_ok] in *.
  - destruct Hp as (c0 & fl0 & [= <- <-] & Hr). exists c, fl'. split; [done|]. by eapply run_ok_frame.
  - destruct Hp as (c0 & fl0 & [= <- <-] & Hr & Ha). exists c, fl'. split; [done|]. split; [|done].
    by eapply run_ok_frame.
  - destruct Hp as (c0 & fl0 & [= <- <-] & Hr & Ha & Hn & Ea). exists c, fl'. split; [done|].
    split; [by eapply run_ok_frame|]. split; [done|]. split; [|done]. rewrite <- Hn. apply Hf.
    destruct Hr as (_ & _ & _ & Ho & _ & Hh & _). apply Ho.
    destruct (tail_split f) as [l ->]; [by destruct (fv_run f)|]. apply elem_of_app. right. left.
  - destruct Hp as (c0 & fl0 & [= <- <-] & Ep). exists c, fl'. split; [done|]. by apply Hpl.
  - destruct Hp as (fl0 & [= <- <-] & Ep). exists fl'. split; [done|]. by apply Hpl.
  - destruct Hp as (fl0 & [= <- <-] & Ep & Ev & Hs). exists fl'. split; [done|].
    destruct (Hpl Ep) as [-> Hlen]. split_and!; try done. destruct Hs as [Hs|[Hs Hl]]; [by left|].
    right. auto.
  - destruct Hp as (c0 & fl0 & [= <- <-] & Ep & Hl & Hx). exists c, fl'. split; [done|].
    destruct (Hpl Ep) as [-> Hlen]. auto.
  - by destruct Hp.
  - by destruct Hp.
  - by destruct Hp.
Qed.

(** A step of thread [t] on a superblock that stays in use. *)
Lemma ainv_step s c fl pl t m' d' part' free' pc' own' fl' pl' :
  ainv s (Some (c, fl)) pl →
  sb_ok m' d' own' c fl' → (pl' = Nowhere ↔ fl' = []) → pl' ≠ OnFree →
  part' = match pl' with OnPartial => [c] | _ => [] end → free' = 0%nat →
  (∀ u, u ≠ t → pc' !! u = a_pc s !! u) →
  (∀ u b, u ≠ t → a_own s !! b = Some u → own' !! b = Some u ∧ pload m' b = pload (a_mem s) b) →
  (∀ u, u ≠ t → pl = With u → pl' = With u ∧ (Z.of_nat (length fl) = mc c → Z.of_nat (length fl') = mc c)) →
  (∀ u, u ≠ t → pl' = With u → pl = With u) →
  (∀ p, pc' !! t = Some p → apc_ok m' d' own' (Some (c, fl')) pl' t p) →
  (pl' = With t → ∃ p, pc' !! t = Some p ∧ has_desc p = true) →
  ainv (mkSrace m' d' part' free' pc' own') (Some (c, fl')) pl'.
Proof using.
  intros [Hl (Hsb & Hpl & Hfr) Hpc Hw] Hsb' Hpl' Hfr' -> -> Epc Hf Hp1 Hp2 Ht Hwt. constructor.
  - split; cbn; [done|]. by destruct pl'.
  - done.
  - cbn [a_pc a_mem a_desc a_own]. intros u p Hu. destruct (decide (u = t)) as [->|Hne]; [by apply Ht|].
    rewrite Epc in Hu by done. apply (apc_frame (a_mem s) (a_desc s) (a_own s) c fl pl); [by apply Hpc| |].
    + intros b Hb. by apply (Hf u).
    + by apply Hp1.
  - cbn [a_pc]. intros u Eu. destruct (decide (u = t)) as [->|Hne]; [by apply Hwt|].
    rewrite Epc by done. by apply Hw, Hp2.
Qed.

(** Steps that change only where the thread is. *)
Lemma ainv_local s c fl pl t p :
  ainv s (Some (c, fl)) pl → apc_ok (a_mem s) (a_desc s) (a_own s) (Some (c, fl)) pl t p →
  (pl = With t → has_desc p = true) → ainv (at_pc t p s) (Some (c, fl)) pl.
Proof using.
  intros H Hp Hh. pose proof H as [[El1 El2] (Hsb & Hpl & Hfr) Hpc Hw].
  apply (ainv_step s c fl pl t); try done.
  - by destruct pl.
  - intros u Hu. cbn. by rewrite lookup_insert_ne.
  - intros p'. cbn. rewrite lookup_insert_eq. by intros [= <-].
  - intros E. exists p. cbn. rewrite lookup_insert_eq. auto.
Qed.

(** Blocks of the superblock. *)
Lemma blk_aligned c b : 1 ≤ c < MAX_SZ_IDX → b ∈ blocks sb i c → b mod 8 = 0.
Proof using HG. intros. by apply (blocks_aligned db sb mb HG i c). Qed.

Lemma block_ok c b : 1 ≤ c < MAX_SZ_IDX → b ∈ blocks sb i c → addr_ok b.
Proof using HG Hi.
  intros Hc Hb. pose proof (blocks_range sb i c b Hc Hb).
  apply (B_addr_ok db sb mb HG i); [|lia]. change MAX_SB_AMOUNT with MAX_DESC_AMOUNT. lia.
Qed.

(** A byte of one block is no byte of another. *)
Lemma pload_other_block c m b off v x :
  1 ≤ c < MAX_SZ_IDX → b ∈ blocks sb i c → x ∈ blocks sb i c → x ≠ b → 0 ≤ off < bs c →
  pload (store8 m (b + off) v) x = pload m x.
Proof using.
  intros Hc (k & Hk & ->)%elem_of_blocks (j & Hj & ->)%elem_of_blocks Hne Hoff.
  destruct (bs_mc c Hc) as (? & _). apply pload_ext. intros a Ha. apply load8_store8_ne.
  unfold blk in *. assert (k ≠ j) by (intros ->; done). nia.
Qed.

(** The free list together with a run somebody has. *)
Lemma sb_ok_run m d own c fl run :
  sb_ok m d own c fl → NoDup run → (∀ b, b ∈ run → ∃ t, own !! b = Some t) →
  NoDup (run ++ fl) ∧ run ++ fl ⊆ blocks sb i c ∧ Z.of_nat (length (run ++ fl)) ≤ mc c.
Proof using.
  intros [Hc _ _ Hnd Hfl Hown] Hn Ho.
  assert (NoDup (run ++ fl)) as Hnd'.
  { apply NoDup_app. split; [done|]. split; [|done]. intros b Hb Hb'. apply Hfl in Hb' as [_ Hb'].
    destruct (Ho b Hb). congruence. }
  assert (run ++ fl ⊆ blocks sb i c) as Hsub.
  { intros b [Hb|Hb]%elem_of_app; [|by apply Hfl]. destruct (Ho b Hb). by eapply Hown. }
  split_and!; try done. by apply (fl_length_le sb i c).
Qed.

(** The class, the superblock and the anchor as the code reads them. *)
Lemma sb_ok_reads s c fl :
  sb_ok (a_mem s) (a_desc s) (a_own s) c fl →
  class_of rg s = c ∧ CrossPtr_get rg SB_IDX (superblock (a_desc s)) = B sb i ∧
  maxcount (a_desc s) = mc c ∧ dblock_size (a_desc s) = bs c ∧ anchor_rep sb i c fl (a_anchor s).
Proof using HG Hi Hrg.
  intros [Hc (Hh & Hs & Hb & Hm & Ha) _ _ _ _]. split_and!; try done.
  - unfold class_of. rewrite Hh. unfold CrossPtr_get, CrossPtr_is_null, HEAPS_OFFSET.
    change CACHELINE_SIZE with 64. change MAX_SZ_IDX with 40 in Hc.
    rewrite u64_small by lia. rewrite (proj2 (Z.eqb_neq _ _)) by lia.
    assert (translate rg META_IDX (64 + c * 64) = heap_addr rg c) as ->.
    { unfold translate, heap_addr, HEAPS_OFFSET. change CACHELINE_SIZE with 64. f_equal. lia. }
    apply (heap_index_addr db sb mb HG rg Hrg). change MAX_SZ_IDX with 40. lia.
  - by apply (superblock_get db sb mb HG).
Qed.

Lemma anchor_rep_old c fl a : 1 ≤ c < MAX_SZ_IDX → anchor_rep sb i c fl a →
  Z.of_nat (length fl) ≤ mc c → old_ok c a.
Proof using.
  intros Hc [Hav Ha] Hl. destruct (bs_mc c Hc) as (_ & _ & Hmc & _). split; [done|].
  destruct fl as [|b fl]; [destruct Ha as [_ ->]; lia|]. destruct Ha as (_ & _ & Ha).
  destruct (Z.eqb_spec (Z.of_nat (length (b :: fl))) (mc c)) as [E|E]; destruct Ha as [_ ->]; lia.
Qed.

Lemma anchor_rep_seen c fl a : anchor_rep sb i c fl a → fl ≠ [] → seen_ok c fl a.
Proof using.
  intros [_ Ha] Hne. destruct fl as [|b fl]; [done|]. destruct Ha as (_ & _ & Ha).
  unfold seen_ok. destruct (Z.eqb_spec (Z.of_nat (length (b :: fl))) (mc c)) as [E|E]; destruct Ha as [-> _]; auto.
Qed.
End Invariant.
