(* ===== verification/AnchorSpec.v ===== *)
(** * Steps on one superblock

    Every step of AnchorRace.v keeps the invariant, fails no assertion and touches
    no block of another thread. *)

From Stdlib Require Import ZArith Lia.
From stdpp Require Import base gmap numbers list.
From S2P Require Import Prelude Mem Config Pptr SizeClass Region Meta MetaFacts.
From S2P Require Import TCache Heap Inv SbSpec CacheSpec FlushSpec AnchorRace.

Local Open Scope Z_scope.
#[local] Set Warnings "-clear-no-such-hyp".

(** Thread [t] takes only blocks nobody has and takes none from another thread. *)
Definition honest (t : nat) (s s' : srace) : Prop :=
  (∀ b u, a_own s !! b = Some u → u ≠ t → a_own s' !! b = Some u) ∧
  (∀ b u, a_own s !! b = None → a_own s' !! b = Some u → u = t).

Lemma honest_same t s s' : a_own s' = a_own s → honest t s s'.
Proof. intros E. unfold honest. rewrite E. split; [auto|congruence]. Qed.

Section Steps.
Context (db sb mb : Z) (HG : geom db sb mb) (rg : Regions) (Hrg : rg_at rg db sb mb).
Context (i : Z) (Hi : 0 < i < MAX_DESC_AMOUNT).

Local Abbreviation ainv := (ainv db sb mb i).
Local Abbreviation sb_ok := (sb_ok db sb mb i).

Definition step_ok (t : nat) (s : srace) (r : outcome srace) : Prop :=
  ∃ s' ph' pl', r = Ok s' ∧ ainv s' ph' pl' ∧ honest t s s'.

(** The invariant, taken apart for a thread that can only be at a superblock in
    use. *)
Lemma ainv_use s c fl pl : ainv s (Some (c, fl)) pl →
  sb_ok (a_mem s) (a_desc s) (a_own s) c fl ∧ 1 ≤ c < MAX_SZ_IDX ∧ (pl = Nowhere ↔ fl = []) ∧ pl ≠ OnFree.
Proof using. intros [_ (H & ? & ?) _ _]. split; [done|]. split; [apply H|done]. Qed.

Lemma own_in_use s ph pl b u : ainv s ph pl → a_own s !! b = Some u →
  ∃ c fl, ph = Some (c, fl) ∧ b ∈ blocks sb i c.
Proof using.
  intros [_ H _ _] Hb. destruct ph as [[c fl]|].
  - exists c, fl. split; [done|]. eapply so_own; [apply H|done].
  - destruct H as [E _]. rewrite E, lookup_empty in Hb. done.
Qed.

Lemma idle_elsewhere s ph pl t : ainv s ph pl → a_pc s !! t = None → pl ≠ With t.
Proof using. intros [_ _ _ Hw] Ht E. destruct (Hw t E) as (p & Hp & _). congruence. Qed.

Lemma flusher_elsewhere s ph pl t p : ainv s ph pl → a_pc s !! t = Some p → has_desc p = false → pl ≠ With t.
Proof using. intros [_ _ _ Hw] Ht Hp E. destruct (Hw t E) as (p' & Hp' & ?). congruence. Qed.

(** ** The program *)

Lemma write_ok t b off v s ph pl :
  ainv s ph pl → a_pc s !! t = None → a_own s !! b = Some t → 0 ≤ off < dblock_size (a_desc s) →
  step_ok t s (Ok (with_mem (store8 (a_mem s) (b + off) v) s)).
Proof using HG Hi Hrg.
  intros H Ht Hb Hoff. destruct (own_in_use _ _ _ _ _ H Hb) as (c & fl & -> & Hbc).
  destruct (ainv_use _ _ _ _ H) as (Hs & Hc & Hpl & Hfr).
  destruct (sb_ok_reads db sb mb HG rg Hrg i Hi s c fl Hs) as (_ & _ & _ & Ebs & _). rewrite Ebs in Hoff.
  pose proof (idle_elsewhere _ _ _ _ H Ht) as Hnt. pose proof H as [[El1 El2] _ _ _].
  assert (∀ x, x ∈ blocks sb i c → x ≠ b → pload (store8 (a_mem s) (b + off) v) x = pload (a_mem s) x) as Hm
    by (intros; by apply (pload_other_block sb i c)).
  eexists _, (Some (c, fl)), pl. split; [done|]. split; [|by apply honest_same].
  apply (ainv_step db sb mb i s c fl pl t); try done.
  - destruct Hs as [S1 S2 S3 S4 S5 S6]. constructor; try done. apply (chain_ext (a_mem s)); [|done].
    intros x Hx. apply S5 in Hx as [Hx Hn]. apply Hm; [done|]. congruence.
  - by destruct pl.
  - intros u x Hu Hx. split; [done|]. apply Hm; [by eapply so_own|]. congruence.
  - intros p Hp. cbn in Hp. congruence.
Qed.

Lemma give_ok t b t' s ph pl :
  ainv s ph pl → a_pc s !! t = None → a_own s !! b = Some t →
  step_ok t s (Ok (with_own (<[b := t']> (a_own s)) s)).
Proof using Hi.
  intros H Ht Hb. destruct (own_in_use _ _ _ _ _ H Hb) as (c & fl & -> & Hbc).
  destruct (ainv_use _ _ _ _ H) as (Hs & Hc & Hpl & Hfr).
  pose proof (idle_elsewhere _ _ _ _ H Ht) as Hnt. pose proof H as [[El1 El2] _ _ _].
  eexists _, (Some (c, fl)), pl. split; [done|]. split.
  - apply (ainv_step db sb mb i s c fl pl t); try done.
    + destruct Hs as [S1 S2 S3 S4 S5 S6]. constructor; try done.
      * intros x. rewrite S5. destruct (decide (x = b)) as [->|Hne].
        -- rewrite lookup_insert_eq, Hb. naive_solver.
        -- by rewrite lookup_insert_ne.
      * intros x u [[<- _]|[_ Hx]]%lookup_insert_Some; [done|by eapply S6].
    + by destruct pl.
    + intros u x Hu Hx. split; [|done]. rewrite lookup_insert_ne; [done|congruence].
    + intros p Hp. cbn in Hp. congruence.
  - split; cbn; intros x u Hx.
    + intros Hu. rewrite lookup_insert_ne; [done|congruence].
    + intros Hx'. rewrite lookup_insert_ne in Hx' by congruence. congruence.
Qed.

(** ** Flushing *)

Lemma start_flush_ok t run s ph pl :
  ainv s ph pl → a_pc s !! t = None → run ≠ [] → NoDup run →
  Forall (λ b, a_own s !! b = Some t) run → linked (a_mem s) run = true →
  step_ok t s (start_flush rg t run s).
Proof using HG Hi Hrg.
  intros H Ht Hne Hnd Ho Hl. rewrite Forall_forall in Ho.
  destruct run as [|b run]; [done|]. destruct (own_in_use _ _ _ b t H) as (c & fl & -> & Hbc); [apply Ho; left|].
  destruct (ainv_use _ _ _ _ H) as (Hs & Hc & Hpl & Hfr).
  destruct (sb_ok_reads db sb mb HG rg Hrg i Hi s c fl Hs) as (Ec & Esb & _).
  apply elem_of_blocks in Hbc as (k & Hk & ->). unfold start_flush. cbn [head from_option id].
  rewrite Ec, Esb, (compute_idx_blk sb) by done.
  eexists _, (Some (c, fl)), pl. split; [done|]. split; [|by apply honest_same].
  apply ainv_local; [done| |].
  - exists c, fl. split; [done|]. split_and!; cbn; try done; lia.
  - intros E. exfalso. by apply (idle_elsewhere _ _ _ _ H Ht).
Qed.

Lemma flush_load_ok t f s ph pl :
  ainv s ph pl → a_pc s !! t = Some (FlushLoad f) →
  step_ok t s (Ok (at_pc t (FlushLink f (a_anchor s)) s)).
Proof using HG Hi Hrg.
  intros H Ht. destruct (ai_pc _ _ _ _ _ _ _ H _ _ Ht) as (c & fl & -> & Hr).
  destruct (ainv_use _ _ _ _ H) as (Hs & Hc & Hpl & Hfr).
  destruct (sb_ok_reads db sb mb HG rg Hrg i Hi s c fl Hs) as (_ & _ & _ & _ & Ha).
  eexists _, (Some (c, fl)), pl. split; [done|]. split; [|by apply honest_same].
  apply ainv_local; [done| |].
  - exists c, fl. split_and!; try done; try apply Hr. eapply anchor_rep_old; try done.
    eapply (sb_ok_run db sb mb i _ _ _ c fl []); [done|constructor|set_solver].
  - intros E. exfalso. by eapply (flusher_elsewhere _ _ _ _ _ H Ht).
Qed.

(** A run and its tail. *)
Lemma run_tail m own t c f :
  run_ok sb i m own t c f → ∃ l, fv_run f = l ++ [fv_tail f] ∧ (fv_tail f ∉ l) ∧ own !! fv_tail f = Some t.
Proof using.
  intros (_ & _ & Hnd & Ho & _ & Hh & _). destruct (tail_split f) as [l El]; [by destruct (fv_run f)|].
  exists l. split; [done|]. rewrite El in Hnd, Ho. apply NoDup_app in Hnd as (_ & Hd & _). split.
  - intros Hin. by apply (Hd _ Hin), list_elem_of_singleton.
  - apply Ho, elem_of_app. right. left.
Qed.

Lemma flush_link_ok t f a s ph pl :
  ainv s ph pl → a_pc s !! t = Some (FlushLink f a) → step_ok t s (flush_link t f a s).
Proof using HG Hi Hrg.
  intros H Ht. destruct (ai_pc _ _ _ _ _ _ _ H _ _ Ht) as (c & fl & -> & Hr & Ha).
  destruct (ainv_use _ _ _ _ H) as (Hs & Hc & Hpl & Hfr).
  destruct (sb_ok_reads db sb mb HG rg Hrg i Hi s c fl Hs) as (_ & _ & Emc & _).
  pose proof (flusher_elsewhere _ _ _ _ _ H Ht eq_refl) as Hnt. pose proof H as [[El1 El2] _ _ _].
  destruct (run_tail _ _ _ _ _ Hr) as (l & El & Hl & Htl). pose proof Hr as (Ec & Esb & Hnd & Ho & Hlk & Hh & Hx).
  unfold flush_link. rewrite Emc, (proj2 (Z.ltb_lt _ _)) by apply Ha. rewrite Ec, Esb. fold (bs c).
  set (v := u64 _). assert (addr_ok v) as Hv.
  { unfold v. rewrite (blk_addr db sb mb HG) by (lia || apply Ha || done).
    pose proof (blk_range_weak sb i c (avail a) Hc (proj1 Ha)).
    apply (B_addr_ok db sb mb HG i); [|done]. change MAX_SB_AMOUNT with MAX_DESC_AMOUNT. lia. }
  assert (fv_tail f ∈ blocks sb i c) as Htb by (by eapply so_own).
  pose proof (block_ok db sb mb HG i Hi c _ Hc Htb) as Hto.
  pose proof (blk_aligned db sb mb HG i c _ Hc Htb) as Hta.
  assert (∀ x, x ∈ blocks sb i c → x ≠ fv_tail f → pload (pstore (a_mem s) (fv_tail f) v) x = pload (a_mem s) x) as Hm.
  { intros x Hxb Hne. apply pload_pstore_aligned; [done| |done]. by apply (blk_aligned db sb mb HG i c). }
  eexists _, (Some (c, fl)), pl. split; [done|]. split; [|by apply honest_same].
  apply (ainv_step db sb mb i s c fl pl t); try done.
  - destruct Hs as [S1 S2 S3 S4 S5 S6]. constructor; try done. apply (chain_ext (a_mem s)); [|done].
    intros x Hxf. apply S5 in Hxf as [Hxb Hn]. apply Hm; [done|]. congruence.
  - by destruct pl.
  - intros u Hu. cbn. by rewrite lookup_insert_ne.
  - intros u x Hu Hxo. split; [done|]. apply Hm; [by eapply so_own|]. congruence.
  - intros p. cbn. rewrite lookup_insert_eq. intros [= <-]. exists c, fl. split; [done|].
    split; [|split; [done|]; split; [|done]].
    + split_and!; try done; [|lia..]. rewrite <- Hlk, El. apply linked_frame_last. intros x Hxl.
      apply Hm; [|by intros ->]. eapply so_own; [done|]. apply Ho. rewrite El. apply elem_of_app. by left.
    + by apply (pload_pstore_eq (a_mem s) (fv_tail f) v).
Qed.

(** The run becomes the front of the free list; the assertions of [flush_cache] on
    the replaced and the new anchor. *)
Lemma flushed_sb_ok s t c fl f a a' :
  sb_ok (a_mem s) (a_desc s) (a_own s) c fl → run_ok sb i (a_mem s) (a_own s) t c f → a_anchor s = a →
  pload (a_mem s) (fv_tail f) = u64 (B sb i + u32 (avail a * bs c)) →
  a' = flush_newanchor a (fv_idx f) (fv_count f) (mc c) →
  ((avail a <? mc c) || bool_decide (astate a = SB_FULL)) && (avail a' <? mc c) && (count a' <? mc c) = true ∧
  sb_ok (a_mem s) (with_anchor a' (a_desc s)) (take_from (fv_run f) (a_own s)) c (fv_run f ++ fl) ∧
  (astate a = SB_FULL ↔ fl = []) ∧
  (astate a' = SB_EMPTY ↔ Z.of_nat (length (fv_run f ++ fl)) = mc c).
Proof using HG Hi Hrg.
  intros Hs Hr Ecur Hn Ea'. pose proof (so_c _ _ _ _ _ _ _ _ _ Hs) as Hc.
  destruct (sb_ok_reads db sb mb HG rg Hrg i Hi s c fl Hs) as (_ & _ & _ & _ & Hrep). rewrite Ecur in Hrep.
  destruct (run_tail _ _ _ _ _ Hr) as (l & El & _ & _). pose proof Hr as (_ & _ & Hnd & Ho & Hlk & Hh & Hx).
  destruct (sb_ok_run db sb mb i _ _ _ c fl (fv_run f) Hs Hnd) as (Hnd' & _ & Hlen); [eauto|].
  assert (fv_run f ≠ []) as Hrne by (by destruct (fv_run f)).
  destruct (flush_anchor_rep sb i c fl a (fv_idx f) (fv_run f) Hc Hrep Hx Hrne Hh Hlen)
    as (_ & Hrep' & Hfull & Hemp). fold (fv_count f) in Hrep', Hemp. rewrite <- Ea' in Hrep', Hemp.
  destruct (anchor_next db sb mb HG i c fl a Hc Hi Hrep) as [_ Hnext]. cbn zeta in Hnext. rewrite <- Hn in Hnext.
  split; [|split; [|done]].
  - destruct (anchor_rep_old sb i c _ a' Hc Hrep' Hlen) as [_ Hca]. destruct (fv_run f) as [|r0 r1] eqn:Er; [done|].
    destruct Hrep' as (_ & _ & Hav' & _). rewrite (proj2 (Z.ltb_lt (avail a') (mc c))) by done.
    rewrite (proj2 (Z.ltb_lt (count a') (mc c))) by lia. rewrite !andb_true_r.
    apply orb_true_iff. destruct fl as [|b fl']; [right; by apply bool_decide_eq_true, Hfull|left].
    destruct Hrep as (_ & _ & ? & _). by apply Z.ltb_lt.
  - destruct Hs as [S1 (D1 & D2 & D3 & D4 & _) S3 S4 S5 S6]. constructor; try done.
    + rewrite El. apply linked_chain; [by rewrite <- El| |].
      * rewrite <- El. by destruct (fv_run f).
      * destruct fl as [|b fl']; [done|]. by rewrite (Hnext ltac:(done)).
    + intros x. rewrite elem_of_app, S5, take_from_lookup.
      destruct (decide (x ∈ fv_run f)) as [Hxr|Hxr]; [|naive_solver].
      split; [|by left]. intros _. split; [|done]. by eapply S6, Ho.
    + intros x u. rewrite take_from_lookup. destruct (decide _); [done|]. apply S6.
Qed.

(** The compare-and-swap of a flush: it may succeed whatever happened to the anchor
    since it was loaded, as long as its value is the same. *)
Lemma flush_cas_ok t f a a' spurious s ph pl :
  ainv s ph pl → a_pc s !! t = Some (FlushCas f a a') → step_ok t s (flush_cas t f a a' spurious s).
Proof using HG Hi Hrg.
  intros H Ht. destruct (ai_pc _ _ _ _ _ _ _ H _ _ Ht) as (c & fl & -> & Hr & Ha & Hn & Ea').
  destruct (ainv_use _ _ _ _ H) as (Hs & Hc & Hpl & Hfr).
  pose proof (flusher_elsewhere _ _ _ _ _ H Ht eq_refl) as Hnt. pose proof H as [[El1 El2] _ _ _].
  destruct (run_tail _ _ _ _ _ Hr) as (l & El & _ & _). pose proof Hr as (Ec & Esb & Hnd & Ho & _).
  destruct (sb_ok_run db sb mb i _ _ _ c fl (fv_run f) Hs Hnd) as (_ & _ & Hlen); [eauto|].
  assert (fv_run f ≠ []) as Hrne by (rewrite El; by destruct l).
  unfold flush_cas. destruct (decide _) as [[Ecur _]|Hfail].
  2:{ destruct (sb_ok_reads db sb mb HG rg Hrg i Hi s c fl Hs) as (_ & _ & _ & _ & Hrep).
      eexists _, (Some (c, fl)), pl. split; [done|]. split; [|by apply honest_same].
      apply ainv_local; [done| |done]. exists c, fl. split; [done|]. split; [done|].
      apply (anchor_rep_old sb i c fl _ Hc Hrep). rewrite length_app in Hlen. lia. }
  destruct (flushed_sb_ok s t c fl f a a' Hs Hr Ecur Hn Ea') as (Hassert & Hs' & Hfull & Hemp).
  rewrite Ec. fold (mc c). rewrite Hassert. set (own' := take_from (fv_run f) (a_own s)) in *.
  set (pl' := if decide (astate a = SB_FULL) then With t else pl).
  set (pc' := if decide (astate a = SB_FULL) then
     <[t := if decide (astate a' = SB_EMPTY) then Retire (B sb i) SBSIZE else PushPartial]> (a_pc s)
     else delete t (a_pc s)).
  eexists (mkSrace (a_mem s) (with_anchor a' (a_desc s)) (a_partial s) (a_free s) pc' own'),
    (Some (c, fv_run f ++ fl)), pl'.
  split; [unfold pc'; rewrite Esb; by repeat destruct (decide _)|]. split.
  2:{ split; cbn [a_own]; intros x u; unfold own'; rewrite take_from_lookup;
      destruct (decide (x ∈ fv_run f)) as [Hxr|]; try congruence. rewrite (Ho x Hxr). congruence. }
  assert (fl = [] → pl = Nowhere) as Hnw by (by intros ->; apply Hpl).
  apply (ainv_step db sb mb i s c fl pl t); try done.
  - split; [|by destruct (fv_run f)]. unfold pl'. destruct (decide _) as [E|E]; [done|]. intros ->.
    exfalso. by apply E, Hfull, Hpl.
  - unfold pl'. by destruct (decide _).
  - unfold pl'. rewrite El1. destruct (decide _) as [E%Hfull|E]; [|by destruct pl]. by rewrite Hnw.
  - by destruct pl.
  - intros u Hu. unfold pc'. destruct (decide _); [by rewrite lookup_insert_ne|by rewrite lookup_delete_ne].
  - intros u x Hu Hxo. split; [|done]. unfold own'. rewrite take_from_lookup, decide_False; [done|].
    intros Hxr%Ho. congruence.
  - intros u Hu Epl. unfold pl'. destruct (decide _) as [E%Hfull%Hnw|E]; [congruence|]. split; [done|].
    rewrite length_app in *. destruct (fv_run f); cbn [length] in *; [done|lia].
  - intros u Hu. unfold pl'. destruct (decide _); [congruence|done].
  - intros p. unfold pc', pl'. destruct (decide _) as [E|E]; [|by rewrite lookup_delete_eq].
    rewrite lookup_insert_eq. intros [= <-]. destruct (decide _) as [Em|Em]; cbn [apc_ok].
    + exists c, (fv_run f ++ fl). by apply Hemp in Em.
    + by exists c, (fv_run f ++ fl).
  - unfold pc', pl'. destruct (decide _) as [E|E]; [|done]. intros _. rewrite lookup_insert_eq. eexists.
    split; [done|]. by destruct (decide _).
Qed.

Lemma push_partial_ok t s ph pl :
  ainv s ph pl → a_pc s !! t = Some PushPartial →
  step_ok t s (Ok (at_rest t (with_lists (class_of rg s :: a_partial s) (a_free s) s))).
Proof using HG Hi Hrg.
  intros H Ht. destruct (ai_pc _ _ _ _ _ _ _ H _ _ Ht) as (c & fl & -> & ->).
  destruct (ainv_use _ _ _ _ H) as (Hs & Hc & Hpl & Hfr). pose proof H as [[El1 El2] _ _ _].
  destruct (sb_ok_reads db sb mb HG rg Hrg i Hi s c fl Hs) as (-> & _). rewrite El1.
  eexists _, (Some (c, fl)), OnPartial. split; [done|]. split; [|by apply honest_same].
  apply (ainv_step db sb mb i s c fl (With t) t); try done.
  - split; [done|]. intros E%Hpl. done.
  - intros u Hu. cbn. by rewrite lookup_delete_ne.
  - congruence.
  - intros p. cbn. by rewrite lookup_delete_eq.
Qed.

(** ** Taking the free blocks *)

Lemma pop_partial_ok t c s ph pl :
  ainv s ph pl → a_pc s !! t = None → c ∈ a_partial s →
  step_ok t s (Ok (at_pc t (TakeLoad c) (with_lists (remove_one c (a_partial s)) (a_free s) s))).
Proof using Hi.
  intros H Ht Hin. pose proof H as [[El1 El2] _ _ _]. rewrite El1 in *.
  assert (∃ fl, pl = OnPartial ∧ ph = Some (c, fl)) as (fl & -> & ->).
  { destruct pl; try by apply elem_of_nil in Hin. destruct ph as [[c' fl]|]; [|by apply elem_of_nil in Hin].
    apply list_elem_of_singleton in Hin as ->. by exists fl. }
  destruct (ainv_use _ _ _ _ H) as (Hs & Hc & Hpl & Hfr). cbn [remove_one]. rewrite Z.eqb_refl.
  eexists _, (Some (c, fl)), (With t). split; [done|]. split; [|by apply honest_same].
  apply (ainv_step db sb mb i s c fl OnPartial t); try done.
  - split; [done|]. intros E%Hpl. done.
  - intros u Hu. cbn. by rewrite lookup_insert_ne.
  - congruence.
  - intros p. cbn. rewrite lookup_insert_eq. intros [= <-]. by exists fl.
  - intros _. cbn. rewrite lookup_insert_eq. by eexists.
Qed.

(** The anchor seen by the thread that has the descriptor. *)
Lemma with_seen s c fl t : ainv s (Some (c, fl)) (With t) → seen_ok c fl (a_anchor s).
Proof using HG Hi Hrg.
  intros H. destruct (ainv_use _ _ _ _ H) as (Hs & Hc & Hpl & Hfr).
  destruct (sb_ok_reads db sb mb HG rg Hrg i Hi s c fl Hs) as (_ & _ & _ & _ & Hrep).
  apply (anchor_rep_seen sb i c fl _ Hrep). intros E%Hpl. done.
Qed.

Lemma take_load_ok t c s ph pl :
  ainv s ph pl → a_pc s !! t = Some (TakeLoad c) →
  let d := a_desc s in
  let v := mkTake (maxcount d) (dblock_size d) (CrossPtr_get rg SB_IDX (superblock d)) in
  step_ok t s (Ok (at_pc t (TakeTry c v (a_anchor s)) s)).
Proof using HG Hi Hrg.
  intros H Ht d v. destruct (ai_pc _ _ _ _ _ _ _ H _ _ Ht) as (fl & -> & ->).
  destruct (ainv_use _ _ _ _ H) as (Hs & Hc & Hpl & Hfr).
  destruct (sb_ok_reads db sb mb HG rg Hrg i Hi s c fl Hs) as (_ & E1 & E2 & E3 & _).
  eexists _, (Some (c, fl)), (With t). split; [done|]. split; [|by apply honest_same].
  apply ainv_local; [done| |done]. exists fl. split_and!; try done; [|by eapply with_seen].
  unfold v, d. by rewrite E1, E2, E3.
Qed.

(** A partial superblock becomes full and its whole free list goes to the thread. *)
Lemma taken_sb_ok m d own c fl a t :
  sb_ok m d own c fl → anchor d = a → astate a = SB_PARTIAL →
  Z.of_nat (length fl) = count a ∧ fl ≠ [] ∧ blk sb i c (avail a) = from_option id 0 (head fl) ∧ avail a < mc c ∧
  sb_ok m (with_anchor (set_astate (set_avail (set_count a 0) (mc c)) SB_FULL) d) (give_to t fl own) c [].
Proof using.
  intros [S1 (D1 & D2 & D3 & D4 & D5) S3 S4 S5 S6] Ea Hp. rewrite Ea in D5. destruct D5 as [Hav Hfl].
  pose proof (mc_small c S1) as Hmc. destruct (bs_mc c S1) as (_ & _ & ? & _).
  destruct fl as [|b fl]; [destruct Hfl; congruence|]. destruct Hfl as (Eb & Hlt & Hfl).
  assert (count a = Z.of_nat (length (b :: fl))) as Ecnt.
  { destruct (_ =? _) in Hfl; destruct Hfl; congruence. }
  split; [done|]. split; [done|]. split; [done|]. split; [done|]. constructor; try done.
  - repeat (split; [done|]). split; [|done]. cbn [anchor with_anchor avail set_astate set_avail set_count]. unfold wrap.
    rewrite Z.mod_small by lia. lia.
  - constructor.
  - intros x. rewrite give_to_lookup. split; [by intros ?%elem_of_nil|]. intros [Hx Hn]. exfalso.
    destruct (decide _) as [|Hnin]; [done|]. by apply Hnin, S5.
  - intros x u. rewrite give_to_lookup. destruct (decide _) as [Hx|]; [|apply S6]. intros _. by apply S5.
Qed.

Lemma take_try_ok t c v a spurious s ph pl :
  ainv s ph pl → a_pc s !! t = Some (TakeTry c v a) → step_ok t s (take_try t c v a spurious s).
Proof using HG Hi Hrg.
  intros H Ht. destruct (ai_pc _ _ _ _ _ _ _ H _ _ Ht) as (fl & -> & -> & -> & Hseen).
  destruct (ainv_use _ _ _ _ H) as (Hs & Hc & Hpl & Hfr). pose proof H as [[El1 El2] _ _ _].
  destruct (sc_facts c Hc) as (_ & _ & Esz & _). unfold take_try. rewrite Esz. cbn [tv_sb tv_maxcount tv_bsz].
  destruct (decide (astate a = SB_EMPTY)) as [Ee|Ee].
  { eexists _, (Some (c, fl)), (With t). split; [done|]. split; [|by apply honest_same].
    apply ainv_local; [done| |done]. exists c, fl. destruct Hseen as [|[_ ?]]; [congruence|done]. }
  rewrite decide_True by (destruct Hseen as [|[? _]]; done).
  assert (astate a = SB_PARTIAL) as Hp by (destruct Hseen as [|[? _]]; done).
  destruct (decide (a_anchor s = a ∧ spurious = false)) as [[Ecur _]|Hfail].
  2:{ eexists _, (Some (c, fl)), (With t). split; [done|]. split; [|by apply honest_same].
      apply ainv_local; [done| |done]. exists fl. split_and!; try done. by eapply with_seen. }
  destruct (taken_sb_ok _ _ _ c fl a t Hs Ecur Hp) as (Elen & Hne & Eb & Hlt & Hs').
  rewrite (proj2 (Z.ltb_lt _ _)) by done. pose proof (anchor_rep_old sb i c fl a Hc) as Hold.
  destruct (sb_ok_reads db sb mb HG rg Hrg i Hi s c fl Hs) as (_ & _ & _ & _ & Hrep). rewrite Ecur in Hrep.
  rewrite (blk_addr db sb mb HG) by (lia || done || (destruct Hrep; lia)). rewrite Eb, <- Elen, Nat2Z.id.
  rewrite (walk_chain _ _ fl) by apply Hs.
  eexists _, (Some (c, [])), Nowhere. split; [done|]. split.
  - apply (ainv_step db sb mb i s c fl (With t) t); try done.
    + intros u Hu. cbn. by rewrite lookup_delete_ne.
    + intros u x Hu Hx. split; [|done]. cbn [a_own with_own]. rewrite give_to_lookup, decide_False; [done|].
      intros Hin%(so_fl _ _ _ _ _ _ _ _ _ Hs). destruct Hin. congruence.
    + congruence.
    + intros p. cbn. by rewrite lookup_delete_eq.
  - split; cbn [a_own at_rest with_own]; intros x u Hx; rewrite give_to_lookup;
      destruct (decide (x ∈ fl)) as [Hin|]; try done.
    + apply (so_fl _ _ _ _ _ _ _ _ _ Hs) in Hin as [_ ?]. congruence.
    + congruence.
    + congruence.
Qed.

(** ** Retiring and starting anew *)

(** When the superblock is empty or not in use, only the thread that has the
    descriptor is at it. *)
Lemma alone s c fl t u :
  ainv s (Some (c, fl)) (With t) → Z.of_nat (length fl) = mc c → u ≠ t →
  a_own s = ∅ ∧ a_pc s !! u = None.
Proof using.
  intros H Hlen Hu. destruct (ainv_use _ _ _ _ H) as (Hs & Hc & _).
  assert (∀ b, a_own s !! b = None) as Hn.
  { intros b. destruct (a_own s !! b) as [w|] eqn:E; [|done]. exfalso.
    pose proof (so_own _ _ _ _ _ _ _ _ _ Hs _ _ E) as Hb.
    assert (b ∈ fl) as Hin.
    { apply (fl_full sb i c fl b Hc (so_nd _ _ _ _ _ _ _ _ _ Hs)); try done. intros x Hx.
      by apply (so_fl _ _ _ _ _ _ _ _ _ Hs). }
    apply (so_fl _ _ _ _ _ _ _ _ _ Hs) in Hin as [_ ?]. congruence. }
  split; [by apply map_empty|]. destruct (a_pc s !! u) as [p|] eqn:Hp; [|done]. exfalso.
  pose proof (ai_pc _ _ _ _ _ _ _ H _ _ Hp) as Hok.
  assert (∀ f, run_ok sb i (a_mem s) (a_own s) u c f → False) as Hno.
  { intros f Hr. destruct (run_tail _ _ _ _ _ Hr) as (_ & _ & _ & Ho). by rewrite Hn in Ho. }
  destruct p as [f|f a|f a a'| |c'|c' v a|x z| |c'|c']; cbn [apc_ok] in Hok.
  - destruct Hok as (? & ? & [= <- <-] & Hr). by eapply Hno.
  - destruct Hok as (? & ? & [= <- <-] & Hr & _). by eapply Hno.
  - destruct Hok as (? & ? & [= <- <-] & Hr & _). by eapply Hno.
  - destruct Hok as (? & ? & _ & [= ->]). done.
  - destruct Hok as (? & _ & [= ->]). done.
  - destruct Hok as (? & _ & [= ->] & _). done.
  - destruct Hok as (? & ? & _ & [= ->] & _). done.
  - by destruct Hok.
  - by destruct Hok.
  - by destruct Hok.
Qed.

Lemma alone_unused s pl u p : ainv s None pl → a_pc s !! u = Some p → pl = With u.
Proof using.
  intros H Hp. pose proof (ai_pc _ _ _ _ _ _ _ H _ _ Hp) as Hok.
  destruct p as [f|f a|f a a'| |c'|c' v a|x z| |c'|c']; cbn [apc_ok] in Hok;
    first [by destruct Hok as (? & ? & [=] & _) | by destruct Hok as (? & [=] & _) | apply Hok].
Qed.

Lemma ainv_unused s pl t :
  a_own s = ∅ → lists_ok s None pl → pl = OnFree ∨ pl = With t → (∀ u, u ≠ t → a_pc s !! u = None) →
  (∀ p, a_pc s !! t = Some p → pl = With t ∧ has_desc p = true ∧
     apc_ok db sb mb i (a_mem s) (a_desc s) (a_own s) None pl t p) →
  (pl = With t → is_Some (a_pc s !! t)) → ainv s None pl.
Proof using.
  intros Eo Hl Hpl Hother Hp Hw. constructor; [done| | |].
  - split; [done|]. destruct Hpl as [->| ->]; eauto.
  - intros u p Hu. destruct (decide (u = t)) as [->|Hne]; [by apply Hp|]. rewrite Hother in Hu; done.
  - intros u ->. destruct Hpl as [|[= ->]]; [done|]. destruct (Hw eq_refl) as [p E]. exists p.
    split; [done|]. by apply Hp.
Qed.

Lemma retire_ok t x z s ph pl :
  ainv s ph pl → a_pc s !! t = Some (Retire x z) → step_ok t s (retire rg (D db i) t x z s).
Proof using HG Hi Hrg.
  intros H Ht. destruct (ai_pc _ _ _ _ _ _ _ H _ _ Ht) as (c & fl & -> & -> & Hlen & -> & ->).
  pose proof H as [[El1 El2] _ _ _]. unfold retire.
  rewrite (desc_lookup_sb db sb mb HG rg Hrg i) by (rewrite ?B_add; change SBSIZE with 65536; lia).
  rewrite !Z.eqb_refl. cbn [andb].
  assert (a_own s = ∅) as Eo by (apply (alone s c fl t (S t)); done || lia).
  eexists _, None, (With t). split; [done|]. split; [|by apply honest_same].
  apply (ainv_unused _ _ t); try done; cbn [a_pc at_pc with_desc].
  - by right.
  - intros u Hu. rewrite lookup_insert_ne by done. by apply (alone s c fl t u).
  - rewrite lookup_insert_eq. by intros p [= <-].
  - rewrite lookup_insert_eq. eauto.
Qed.

Lemma retire_push_ok t s ph pl :
  ainv s ph pl → a_pc s !! t = Some RetirePush →
  step_ok t s (Ok (at_rest t (with_lists (a_partial s) (S (a_free s)) s))).
Proof using.
  intros H Ht. destruct (ai_pc _ _ _ _ _ _ _ H _ _ Ht) as (-> & ->).
  pose proof H as [[El1 El2] [Eo _] _ _]. rewrite El2.
  eexists _, None, OnFree. split; [done|]. split; [|by apply honest_same].
  apply (ainv_unused _ _ t); try done; cbn [a_pc at_rest with_lists].
  - by left.
  - intros u Hu. rewrite lookup_delete_ne by done. destruct (a_pc s !! u) as [p|] eqn:E; [|done].
    pose proof (alone_unused _ _ _ _ H E). congruence.
  - rewrite lookup_delete_eq. done.
Qed.

Lemma pop_free_ok t c s ph pl :
  ainv s ph pl → a_pc s !! t = None → 1 ≤ c < MAX_SZ_IDX → (0 < a_free s)%nat →
  step_ok t s (Ok (at_pc t (NewSb c) (with_lists (a_partial s) (a_free s - 1) s))).
Proof using.
  intros H Ht Hc Hf. pose proof H as [[El1 El2] Hph _ _].
  assert (pl = OnFree) as -> by (destruct pl; done || lia).
  destruct ph as [[c' fl]|]; [by destruct Hph as (_ & _ & ?)|]. destruct Hph as [Eo _]. rewrite El2.
  eexists _, None, (With t). split; [done|]. split; [|by apply honest_same].
  apply (ainv_unused _ _ t); try done; cbn [a_pc at_pc with_lists].
  - by right.
  - intros u Hu. rewrite lookup_insert_ne by done. destruct (a_pc s !! u) as [p|] eqn:E; [|done].
    by pose proof (alone_unused _ _ _ _ H E).
  - rewrite lookup_insert_eq. by intros p [= <-].
  - rewrite lookup_insert_eq. eauto.
Qed.

Lemma new_sb_ok t c s ph pl :
  ainv s ph pl → a_pc s !! t = Some (NewSb c) → step_ok t s (new_sb rg (D db i) t c s).
Proof using HG Hi Hrg.
  intros H Ht. destruct (ai_pc _ _ _ _ _ _ _ H _ _ Ht) as (-> & -> & Hc).
  pose proof H as [[El1 El2] [Eo _] _ _]. unfold new_sb. rewrite (sb_lookup_D db sb mb HG rg Hrg) by lia.
  fold (bs c) (mc c). eexists _, None, (With t). split; [done|]. split; [|by apply honest_same].
  apply (ainv_unused _ _ t); try done; cbn [a_pc at_pc with_mem with_desc].
  - by right.
  - intros u Hu. rewrite lookup_insert_ne by done. destruct (a_pc s !! u) as [p|] eqn:E; [|done].
    pose proof (alone_unused _ _ _ _ H E). congruence.
  - rewrite lookup_insert_eq. intros p [= <-]. split; [done|]. split; [done|]. split; [done|]. split; [done|].
    split; [done|]. split.
    + apply (init_blocks_spec db sb mb HG); [done|lia].
    + intros a Ha. pose proof (newsb_desc_small db sb mb HG rg i c (a_desc s) Hrg Hc) as (D1 & D2 & D3 & D4 & _).
      by split_and!.
  - rewrite lookup_insert_eq. eauto.
Qed.

Lemma new_anchor_ok t c s ph pl :
  ainv s ph pl → a_pc s !! t = Some (NewAnchor c) → step_ok t s (new_anchor rg (D db i) t c s).
Proof using HG Hi Hrg.
  intros H Ht. destruct (ai_pc _ _ _ _ _ _ _ H _ _ Ht) as (-> & -> & Hc & Hch & Hd).
  pose proof H as [[El1 El2] [Eo _] _ _]. unfold new_anchor. rewrite (sb_lookup_D db sb mb HG rg Hrg) by lia.
  fold (mc c). set (an := set_astate _ _).
  assert (anchor_rep sb i c [] an) as Han
    by (apply (newsb_desc_small db sb mb HG rg i c (a_desc s) Hrg Hc)).
  assert (walk (a_mem s) (B sb i) (Z.to_nat (mc c)) = blocks sb i c) as ->.
  { rewrite <- (length_blocks sb i c). by apply walk_chain. }
  eexists _, (Some (c, [])), Nowhere. split; [done|]. split.
  - constructor; [done| | |done].
    + split; [|done]. constructor; try done.
      * by apply Hd.
      * constructor.
      * intros b. cbn [a_own at_rest with_own]. rewrite give_to_lookup. split; [by intros ?%elem_of_nil|].
        intros [Hb Hn]. by rewrite decide_True in Hn.
      * intros b u. cbn [a_own at_rest with_own]. rewrite give_to_lookup, Eo, lookup_empty. by destruct (decide _).
    + cbn [a_pc at_rest with_own with_desc]. intros u p [Hu E]%lookup_delete_Some.
      pose proof (alone_unused _ _ _ _ H E). congruence.
  - split; cbn [a_own at_rest with_own]; intros b u; rewrite give_to_lookup, Eo, lookup_empty; [done|].
    intros _. destruct (decide _); [|done]. congruence.
Qed.

(** ** All steps *)

Theorem astep_ok t a s ph pl r :
  ainv s ph pl → astep rg (D db i) t a s = Some r → step_ok t s r.
Proof using HG Hi Hrg.
  intros H. unfold astep. destruct (a_pc s !! t) as [p|] eqn:Ht; destruct a as [b off v|b t'|run|c|c|sp]; try done.
  - intros [= <-]. destruct p as [f|f a|f a a'| |c'|c' v a|x z| |c'|c'].
    + by eapply flush_load_ok.
    + by eapply flush_link_ok.
    + by eapply flush_cas_ok.
    + by eapply push_partial_ok.
    + by eapply take_load_ok.
    + by eapply take_try_ok.
    + by eapply retire_ok.
    + by eapply retire_push_ok.
    + by eapply new_sb_ok.
    + by eapply new_anchor_ok.
  - destruct (decide _) as [[Hb Ho]|]; [|done]. intros [= <-]. by eapply write_ok.
  - destruct (decide _) as [Hb|]; [|done]. intros [= <-]. by eapply give_ok.
  - destruct (decide _) as [(H1 & H2 & H3 & H4)|]; [|done]. intros [= <-]. by eapply start_flush_ok.
  - destruct (decide _) as [Hc|]; [|done]. intros [= <-]. by eapply pop_partial_ok.
  - destruct (decide _) as [[Hc Hf]|]; [|done]. intros [= <-]. by eapply pop_free_ok.
Qed.

(** Runs. *)
Lemma aruns_ok tr s ph pl r :
  ainv s ph pl → aruns rg (D db i) tr s = Some r → ∃ s' ph' pl', r = Ok s' ∧ ainv s' ph' pl'.
Proof using HG Hi Hrg.
  revert s ph pl. induction tr as [|[t a] tr IH]; intros s ph pl H; cbn [aruns].
  - intros [= <-]. eauto.
  - destruct (astep rg (D db i) t a s) as [r'|] eqn:E; [|done].
    destruct (astep_ok _ _ _ _ _ _ H E) as (s1 & ph1 & pl1 & -> & H1 & _). by eapply IH.
Qed.

Lemma free_sb_ok m : ainv (free_sb m) None OnFree.
Proof using.
  constructor.
  - done.
  - split; [done|by left].
  - intros t p. cbn. by rewrite lookup_empty.
  - done.
Qed.

(** ** Progress

    A thread that runs alone, without spurious failures, is at rest after at most
    six steps: its compare-and-swap fails at most once, for a stale anchor. *)
Definition rank (s : srace) (t : nat) : nat :=
  match a_pc s !! t with
  | None => 0
  | Some (FlushLoad _) => 5
  | Some (FlushLink _ a) => if decide (a_anchor s = a) then 4 else 6
  | Some (FlushCas _ a _) => if decide (a_anchor s = a) then 3 else 5
  | Some PushPartial => 1
  | Some (TakeLoad _) => 4
  | Some (TakeTry _ _ a) => if decide (a_anchor s = a) then 3 else 4
  | Some (Retire _ _) => 2
  | Some RetirePush => 1
  | Some (NewSb _) => 2
  | Some (NewAnchor _) => 1
  end.

Lemma rank_at_pc t p s : rank (at_pc t p s) t =
  match p with
  | FlushLoad _ => 5
  | FlushLink _ a => if decide (a_anchor s = a) then 4 else 6
  | FlushCas _ a _ => if decide (a_anchor s = a) then 3 else 5
  | PushPartial => 1
  | TakeLoad _ => 4
  | TakeTry _ _ a => if decide (a_anchor s = a) then 3 else 4
  | Retire _ _ => 2
  | RetirePush => 1
  | NewSb _ => 2
  | NewAnchor _ => 1
  end%nat.
Proof using. unfold rank. cbn [a_pc at_pc]. rewrite lookup_insert_eq. by destruct p. Qed.

Lemma rank_at_rest t s : rank (at_rest t s) t = 0%nat.
Proof using. unfold rank. cbn [a_pc at_rest]. by rewrite lookup_delete_eq. Qed.

Lemma rank_decreases t s s' p :
  a_pc s !! t = Some p → astep rg (D db i) t (Advance false) s = Some (Ok s') → (rank s' t < rank s t)%nat.
Proof using Hi.
  intros Hp. unfold astep. rewrite Hp. intros [= E]. unfold rank at 2. rewrite Hp.
  destruct p as [f|f a|f a a'| |c|c v a|x z| |c|c].
  - injection E as <-. rewrite rank_at_pc, decide_True by done. lia.
  - unfold flush_link in E. destruct (_ <? _); [|done]. injection E as <-. rewrite rank_at_pc.
    change (a_anchor (with_mem ?m s)) with (a_anchor s). destruct (decide _); lia.
  - unfold flush_cas in E. destruct (decide (a_anchor s = a ∧ false = false)) as [[-> _]|Hn].
    + rewrite decide_True by done. destruct (_ && _); [|done].
      repeat destruct (decide _); injection E as <-; rewrite ?rank_at_pc, ?rank_at_rest; lia.
    + injection E as <-. rewrite rank_at_pc, decide_True by done. destruct (decide _); [naive_solver|lia].
  - injection E as <-. rewrite rank_at_rest. lia.
  - injection E as <-. rewrite rank_at_pc, decide_True by done. lia.
  - unfold take_try in E. destruct (decide (astate a = SB_EMPTY)).
    { injection E as <-. rewrite rank_at_pc. destruct (decide _); lia. }
    destruct (decide (astate a = SB_PARTIAL)); [|done].
    destruct (decide (a_anchor s = a ∧ false = false)) as [[-> _]|Hn].
    + rewrite decide_True by done. destruct (_ <? _); [|done]. injection E as <-. rewrite rank_at_rest. lia.
    + injection E as <-. rewrite rank_at_pc, decide_True by done. destruct (decide _); [naive_solver|lia].
  - unfold retire in E. destruct (_ && _); [|done]. injection E as <-. rewrite rank_at_pc. lia.
  - injection E as <-. rewrite rank_at_rest. lia.
  - unfold new_sb in E. injection E as <-. rewrite rank_at_pc. lia.
  - unfold new_anchor in E. injection E as <-. rewrite rank_at_rest. lia.
Qed.

Lemma finishes_alone t k s ph pl :
  ainv s ph pl → (rank s t ≤ k)%nat →
  ∃ n s', (n ≤ k)%nat ∧ aruns rg (D db i) (replicate n (t, Advance false)) s = Some (Ok s') ∧ a_pc s' !! t = None.
Proof using HG Hi Hrg.
  revert s ph pl. induction k as [|k IH]; intros s ph pl H Hk.
  - exists 0%nat, s. split; [lia|]. split; [done|]. unfold rank in Hk.
    destruct (a_pc s !! t) as [[]|]; try done; try (destruct (decide _)); lia.
  - destruct (a_pc s !! t) as [p|] eqn:Hp.
    2:{ exists 0%nat, s. split; [lia|]. done. }
    assert (∃ r, astep rg (D db i) t (Advance false) s = Some r) as [r E]
      by (unfold astep; rewrite Hp; eauto).
    destruct (astep_ok _ _ _ _ _ _ H E) as (s1 & ph1 & pl1 & -> & H1 & _).
    pose proof (rank_decreases _ _ _ _ Hp E).
    destruct (IH s1 ph1 pl1 H1 ltac:(lia)) as (n & s' & Hn & Er & Hr).
    exists (S n), s'. split; [lia|]. split; [|done]. cbn [replicate aruns]. by rewrite E.
Qed.

Lemma rank_bound s t : (rank s t ≤ 6)%nat.
Proof using. unfold rank. destruct (a_pc s !! t) as [[]|]; try (destruct (decide _)); lia. Qed.
End Steps.
