(* ===== verification/Persist.v ===== *)
(** * Which stores a crash leaves

    Stores reach the persistent memory when their cache line is evicted, at any time, or
    at the latest when a write-back of the line is followed by a fence. A cell has a
    latest value and, in the log of stores, write-backs and fences, a list of values
    that the memory can hold after a crash; every cell is chosen on its own. A cell is
    written at once, and [written] says which cells hold, whatever the crash chooses,
    what recovery needs. *)

From Stdlib Require Import ZArith Lia.
From stdpp Require Import base gmap numbers list.
From S2P Require Import Prelude Mem Config Pptr SizeClass Region Meta TCache Heap BaseMeta.

Local Open Scope Z_scope.
#[local] Set Warnings "-clear-no-such-hyp".

Definition cache_line (a : Z) : Z := a / CACHELINE_SIZE.

(** ** One cell

    [stored]: what a store puts in the cell; [start]: what it held before the log. *)

Section Cell.
Context {V : Type} (stored : pevent → option V) (line : Z) (start : V).

(** The value of the cell. *)
Fixpoint latest (l : list pevent) : V :=
  match l with
  | [] => start
  | (EFlush _ | EFlushLocal | EFence) :: l' => latest l'
  | e :: l' => match stored e with Some v => v | None => latest l' end
  end.

(** The values a crash can leave; [fenced]: a fence comes later. *)
Fixpoint possible (fenced : bool) (l : list pevent) : list V :=
  match l with
  | [] => [start]
  | EFence :: l' => possible true l'
  | EFlushLocal :: l' => possible fenced l'
  | EFlush a :: l' => if fenced && (cache_line a =? line) then [latest l'] else possible fenced l'
  | e :: l' => match stored e with Some v => v :: possible fenced l' | None => possible fenced l' end
  end.

Lemma latest_possible b l : latest l ∈ possible b l.
Proof using.
  revert b. induction l as [|e l IH]; intros b; [left|].
  destruct e; cbn; try (destruct (stored _); [left|apply IH]); try apply IH.
  destruct (_ && _); [left|apply IH].
Qed.

Lemma possible_fenced b l v : v ∈ possible true l → v ∈ possible b l.
Proof using.
  destruct b; [done|]. induction l as [|e l IH]; [done|].
  destruct e; cbn; try (destruct (stored _); [rewrite !elem_of_cons|]; naive_solver); try naive_solver.
  destruct (_ =? _); [|done]. intros ->%list_elem_of_singleton. apply latest_possible.
Qed.

(** Whatever the crash leaves looks like the latest value. *)
Definition stable {W} (fenced : bool) (f : V → W) (l : list pevent) : Prop :=
  ∀ v, v ∈ possible fenced l → f v = f (latest l).

Lemma stable_start {W} b (f : V → W) : stable b f [].
Proof using. by intros v ->%list_elem_of_singleton. Qed.

Definition is_store (e : pevent) : bool := match e with EFlush _ | EFlushLocal | EFence => false | _ => true end.

(** What is certain once a fence comes is certain after the fence. *)
Lemma stable_fence {W} b (f : V → W) l : stable true f l → stable b f (EFence :: l).
Proof using. done. Qed.

Lemma stable_weaken {W} b (f : V → W) l : stable b f l → stable true f l.
Proof using. intros H v Hv. by apply H, possible_fenced. Qed.

Lemma stable_wait {W} b (f : V → W) e l : is_store e = false → stable b f l → stable b f (e :: l).
Proof using.
  intros He H. destruct e; try done.
  - intros v. cbn. destruct (_ && _); [by intros ->%list_elem_of_singleton|apply H].
  - by apply stable_fence, (stable_weaken b).
Qed.

Lemma stable_flush {W} (f : V → W) a l : cache_line a = line → stable true f (EFlush a :: l).
Proof using. intros E v. cbn. rewrite (proj2 (Z.eqb_eq _ _) E). by intros ->%list_elem_of_singleton. Qed.

(** A store that changes nothing of interest, and one elsewhere. *)
Lemma latest_wait e l : is_store e = false → latest (e :: l) = latest l.
Proof using. by destruct e. Qed.

Lemma latest_store e l v : is_store e = true → stored e = Some v → latest (e :: l) = v.
Proof using. intros He E. destruct e; try done; cbn; by rewrite E. Qed.

Lemma latest_other e l : stored e = None → latest (e :: l) = latest l.
Proof using. intros E. destruct e; cbn; by rewrite ?E. Qed.

Lemma stable_store {W} b (f : V → W) e l v :
  is_store e = true → stored e = Some v → stable b f l → f v = f (latest l) → stable b f (e :: l).
Proof using.
  intros He E H Hv w. unfold stable. rewrite (latest_store e l v) by done.
  destruct e; try done; cbn; rewrite E, elem_of_cons; (intros [->|Hw]; [done|by rewrite (H w Hw)]).
Qed.

Lemma stable_other {W} b (f : V → W) e l : is_store e = true → stored e = None → stable b f l → stable b f (e :: l).
Proof using. intros He E H w. rewrite latest_other by done. destruct e; try done; cbn; rewrite E; apply H. Qed.
End Cell.

(** ** The cells of the metadata *)

Definition to_desc (d : Z) (e : pevent) : option Descriptor :=
  match e with WDesc d' v => if decide (d' = d) then Some v else None | _ => None end.
Definition to_heap (c : Z) (e : pevent) : option ProcHeap :=
  match e with WHeap c' v => if decide (c' = c) then Some v else None | _ => None end.
Definition to_root (i : Z) (e : pevent) : option Z :=
  match e with WRoot i' v => if decide (i' = i) then Some v else None | _ => None end.
Definition to_end (index : nat) (e : pevent) : option Z :=
  match e with WEnd index' raw => if decide (index' = index) then Some raw else None | _ => None end.

(** The persistent metadata: descriptors, heaps, roots, the end pointers of regions. *)
Record nvm := mkNvm {
  n_desc : Z → Descriptor;
  n_heap : Z → ProcHeap;
  n_root : Z → Z;
  n_end : nat → Z
}.

(** The metadata as the processor sees it. *)
Definition get_end (s : state) (i : nat) : Z := rf_curr (rfile (rget (rgs s) i)).
Definition snapshot (s : state) : nvm := mkNvm (get_desc s) (get_heap s) (get_root_raw s) (get_end s).

(** The cache lines of the heaps, the roots and the end pointers. *)
Record lines := mkLines { l_heap : Z → Z; l_root : Z → Z; l_end : nat → Z }.

Definition lines_of (rg : Regions) : lines :=
  mkLines (λ c, cache_line (heap_addr rg c)) (λ i, cache_line (root_addr (rlookup rg META_IDX) i))
    (λ index, cache_line (base_addr (rget rg index))).

(** A descriptor that says that its superblock is one of small blocks: its heap is
    neither null nor [heaps[0]]. *)
Definition formatted (x : Descriptor) : Prop := heap x ≠ 0 ∧ heap x ≠ HEAPS_OFFSET.

Inductive cell := CDesc (d : Z) | CHeap (c : Z) | CRoot (i : Z) | CEnd (index : nat).

#[export] Instance cell_eq_dec : EqDecision cell.
Proof. solve_decision. Defined.

Section Metadata.
Context (ls : lines) (N : nvm).

(** What a crash with log [l] can leave, when the log started with [N]. *)
Record may_leave (l : list pevent) (N' : nvm) : Prop := {
  ml_desc : ∀ d, n_desc N' d ∈ possible (to_desc d) (cache_line d) (n_desc N d) false l;
  ml_heap : ∀ c, n_heap N' c ∈ possible (to_heap c) (l_heap ls c) (n_heap N c) false l;
  ml_root : ∀ i, n_root N' i ∈ possible (to_root i) (l_root ls i) (n_root N i) false l;
  ml_end : ∀ i, n_end N' i ∈ possible (to_end i) (l_end ls i) (n_end N i) false l
}.

(** The log tells what is in memory, and recovery finds what it needs (when [b] holds,
    after the next fence): the format of the superblocks of small blocks, the classes
    of the heaps, the roots and the end pointers, all but the cell [D]. *)
Record written (b : bool) (D : option cell) (s : state) : Prop := {
  wn_desc_now : ∀ d, latest (to_desc d) (n_desc N d) (plog s) = get_desc s d;
  wn_heap_now : ∀ c, latest (to_heap c) (n_heap N c) (plog s) = get_heap s c;
  wn_root_now : ∀ i, latest (to_root i) (n_root N i) (plog s) = get_root_raw s i;
  wn_end_now : ∀ i, D ≠ Some (CEnd i) → latest (to_end i) (n_end N i) (plog s) = get_end s i;
  wn_desc : ∀ d, formatted (get_desc s d) → D ≠ Some (CDesc d) →
    stable (to_desc d) (cache_line d) (n_desc N d) b pers (plog s);
  wn_heap : ∀ c, D ≠ Some (CHeap c) → stable (to_heap c) (l_heap ls c) (n_heap N c) b sc_idx (plog s);
  wn_root : ∀ i, D ≠ Some (CRoot i) → stable (to_root i) (l_root ls i) (n_root N i) b id (plog s);
  wn_end : ∀ i, D ≠ Some (CEnd i) → stable (to_end i) (l_end ls i) (n_end N i) b id (plog s)
}.

(** A log that starts here. *)
Lemma written_start b D s :
  plog s = [] → (∀ d, n_desc N d = get_desc s d) → (∀ c, n_heap N c = get_heap s c) →
  (∀ i, n_root N i = get_root_raw s i) → (∀ i, n_end N i = get_end s i) → written b D s.
Proof using. intros E E1 E2 E3 E4. constructor; intros; rewrite E; cbn [latest]; first [apply stable_start|by rewrite ?E1, ?E2, ?E3, ?E4]. Qed.

(** A crash may leave everything. *)
Lemma may_leave_latest b s : written b None s → may_leave (plog s) (snapshot s).
Proof using.
  intros [H2 H3 H4 H5 _ _ _ _]. constructor; cbn [snapshot n_desc n_heap n_root n_end]; intros x;
    [rewrite <- H2|rewrite <- H3|rewrite <- H4|rewrite <- H5 by done]; apply latest_possible.
Qed.

Section Steps.
Context (b : bool) (D : option cell).

(** *** Write-backs and fences *)
Lemma written_wait s e : is_store e = false → written b D s → written b D (log e s).
Proof using.
  intros He [H2 H3 H4 H5 H6 H7 H8 H9].
  constructor; intros; cbn [plog log]; rewrite ?latest_wait by done; try (apply stable_wait; [done|]); auto.
Qed.

Lemma written_weaken s : written b D s → written true D s.
Proof using. intros [H2 H3 H4 H5 H6 H7 H8 H9]. constructor; intros; try (apply (stable_weaken _ _ _ b)); auto. Qed.

Lemma written_fence s : written true D s → written b D (log EFence s).
Proof using.
  intros [H2 H3 H4 H5 H6 H7 H8 H9]. constructor; intros; cbn [plog log]; first [apply stable_fence|rewrite latest_wait by done]; auto.
Qed.

Lemma written_except s x : written b None s → written b (Some x) s.
Proof using. intros [H2 H3 H4 H5 H6 H7 H8 H9]. constructor; auto. Qed.

(** *** What is not metadata *)
Lemma written_ext s s' :
  (∀ i, D ≠ Some (CEnd i) → get_end s' i = get_end s i) →
  descs s' = descs s → heaps s' = heaps s → roots s' = roots s → plog s' = plog s →
  written b D s → written b D s'.
Proof using.
  intros E1 E2 E3 E4 E5 [H2 H3 H4 H5 H6 H7 H8 H9]. unfold get_desc, get_heap, get_root_raw in *.
  constructor; unfold get_desc, get_heap, get_root_raw in *; intros; rewrite ?E1, ?E2, ?E3, ?E4, ?E5 by done;
    rewrite ?E2 in *; auto.
Qed.

Lemma written_upd_mem f s : written b D s → written b D (upd_mem f s).
Proof using. by apply written_ext. Qed.
Lemma written_put_bin t c v s : written b D s → written b D (put_bin t c v s).
Proof using. by apply written_ext. Qed.
Lemma written_set_rgs g s :
  (∀ i, D ≠ Some (CEnd i) → rf_curr (rfile (rget g i)) = get_end s i) → written b D s → written b D (set_rgs g s).
Proof using. intros Hg. by apply written_ext. Qed.
Lemma written_set_avail v s : written b D s → written b D (set_avail_sb v s).
Proof using. by apply written_ext. Qed.

(** *** Descriptors *)
Lemma get_desc_put d d' v s : get_desc (put_desc d v s) d' = if decide (d = d') then v else get_desc s d'.
Proof using.
  unfold get_desc. cbn. destruct (decide (d = d')) as [<-|Hne]; [by rewrite lookup_insert_eq|by rewrite lookup_insert_ne].
Qed.

(** A store that leaves the format as it is, or formats no superblock of small blocks,
    or is not looked at. *)
Lemma written_put_desc s d v :
  pers v = pers (get_desc s d) ∨ ¬ formatted v ∨ D = Some (CDesc d) → written b D s → written b D (put_desc d v s).
Proof using.
  intros Hv [H2 H3 H4 H5 H6 H7 H8 H9]. constructor; try done; intros x; try (intros Hx; apply stable_other; [done..|by auto]).
  - rewrite get_desc_put. cbn. destruct (decide (d = x)); [done|apply H2].
  - intros Hx Hd. rewrite get_desc_put in Hx. destruct (decide (d = x)) as [<-|Hne].
    + destruct Hv as [Hv|[Hv|Hv]]; [|done|done].
      apply (stable_store _ _ _ _ _ _ _ v); [done|cbn; by rewrite decide_True| |by rewrite H2].
      apply H6; [|done]. destruct (pers_eq _ _ Hv) as (E & _). unfold formatted in *. by rewrite <- E.
    + apply stable_other; [done|cbn; by rewrite decide_False|]. by apply H6.
Qed.

Lemma written_upd_desc s d f :
  (∀ x, pers (f x) = pers x) ∨ D = Some (CDesc d) → written b D s → written b D (upd_desc d f s).
Proof using. intros Hf. apply written_put_desc. destruct Hf as [Hf| ->]; [by left|by right; right]. Qed.

(** *** Heaps, roots, end pointers *)
Lemma written_put_heap s c v :
  sc_idx v = sc_idx (get_heap s c) ∨ D = Some (CHeap c) → written b D s → written b D (put_heap c v s).
Proof using.
  intros Hv [H2 H3 H4 H5 H6 H7 H8 H9]. constructor; try done; intros x; try (intros Hx; apply stable_other; [done..|by auto]).
  - unfold get_heap. cbn. destruct (decide (c = x)) as [<-|Hne]; [by rewrite lookup_insert_eq|].
    rewrite lookup_insert_ne by done. apply H3.
  - intros Hx. destruct (decide (c = x)) as [<-|Hne].
    + destruct Hv as [Hv|Hv]; [|done].
      apply (stable_store _ _ _ _ _ _ _ v); [done|cbn; by rewrite decide_True|by apply H7|by rewrite H3].
    + apply stable_other; [done|cbn; by rewrite decide_False|by apply H7].
Qed.

Lemma written_put_root s i v : D = Some (CRoot i) → written b D s → written b D (put_root i v s).
Proof using.
  intros Hv [H2 H3 H4 H5 H6 H7 H8 H9]. constructor; try done; intros x; try (intros Hx; apply stable_other; [done..|by auto]).
  - unfold get_root_raw. cbn. destruct (decide (i = x)) as [<-|Hne]; [by rewrite lookup_insert_eq|].
    rewrite lookup_insert_ne by done. apply H4.
  - intros Hx. apply stable_other; [done|cbn; rewrite decide_False by congruence; done|by apply H8].
Qed.

(** Only the log: the end pointer of the region in construction. *)
Lemma written_log_end s i raw : D = Some (CEnd i) → written b D s → written b D (log (WEnd i raw) s).
Proof using.
  intros Hv [H2 H3 H4 H5 H6 H7 H8 H9]. constructor; try done; intros x; try (intros Hx; apply stable_other; [done..|by auto]).
  - intros Hx. cbn. rewrite decide_False by congruence. by apply H5.
  - intros Hx. apply stable_other; [done|cbn; rewrite decide_False by congruence; done|by apply H9].
Qed.
End Steps.

Lemma rget_rput_ne g i j r : i ≠ j → rget (rput g i r) j = rget g j.
Proof using. intros Hne. unfold rget, rput. cbn. rewrite !nth_lookup. by rewrite list_lookup_insert_ne. Qed.

Lemma written_put_end b i r s :
  written b (Some (CEnd i)) s → written b (Some (CEnd i)) (put_end i (rput (rgs s) i r) s).
Proof using.
  intros H. unfold put_end. apply written_log_end; [done|]. revert H. apply written_ext; try done.
  intros j Hj. unfold get_end. cbn [rgs set_rgs]. rewrite rget_rput_ne by congruence. done.
Qed.

(** *** A write-back of the cell that is not looked at *)
Lemma written_flush_desc s d : written true (Some (CDesc d)) s → written true None (log (EFlush d) s).
Proof using.
  intros H%(written_wait _ _ _ (EFlush d)); [|done]. destruct H as [H2 H3 H4 H5 H6 H7 H8 H9].
  constructor; auto. intros d' Hf _. destruct (decide (d = d')) as [<-|Hne]; [by apply stable_flush|].
  apply H6; congruence.
Qed.

Lemma written_flush_heap s c a :
  cache_line a = l_heap ls c → written true (Some (CHeap c)) s → written true None (log (EFlush a) s).
Proof using.
  intros Ea H%(written_wait _ _ _ (EFlush a)); [|done]. destruct H as [H2 H3 H4 H5 H6 H7 H8 H9].
  constructor; auto. intros c' _. destruct (decide (c = c')) as [<-|Hne]; [by apply stable_flush|].
  apply H7; congruence.
Qed.

Lemma written_flush_root s i a :
  cache_line a = l_root ls i → written true (Some (CRoot i)) s → written true None (log (EFlush a) s).
Proof using.
  intros Ea H%(written_wait _ _ _ (EFlush a)); [|done]. destruct H as [H2 H3 H4 H5 H6 H7 H8 H9].
  constructor; auto. intros j _. destruct (decide (i = j)) as [<-|Hne]; [by apply stable_flush|].
  apply H8; congruence.
Qed.

Lemma written_flush_end s i a :
  cache_line a = l_end ls i → latest (to_end i) (n_end N i) (plog s) = get_end s i →
  written true (Some (CEnd i)) s → written true None (log (EFlush a) s).
Proof using.
  intros Ea Ei H%(written_wait _ _ _ (EFlush a)); [|done]. destruct H as [H2 H3 H4 H5 H6 H7 H8 H9].
  constructor; auto; intros j _; (destruct (decide (i = j)) as [<-|Hne]; [|by (apply H5 || apply H9); congruence]).
  - done.
  - by apply stable_flush.
Qed.

(** The end pointer of the region in construction is known again. *)
Lemma written_restore b s i :
  latest (to_end i) (n_end N i) (plog s) = get_end s i → stable (to_end i) (l_end ls i) (n_end N i) b id (plog s) →
  written b (Some (CEnd i)) s → written b None s.
Proof using.
  intros E1 E2 [H2 H3 H4 H5 H6 H7 H8 H9]. constructor; auto;
    (intros j _; destruct (decide (i = j)) as [<-|Hne]; [done|(apply H5 || apply H9); congruence]).
Qed.

(** *** Combinations *)

(** A root is written and written back. *)
Lemma written_root s i v a :
  cache_line a = l_root ls i → written true None s → written true None (log (EFlush a) (put_root i v s)).
Proof using. intros Ea H. apply (written_flush_root _ i); [done|]. apply written_put_root; [done|]. by apply written_except. Qed.

Lemma written_heap s c v a :
  cache_line a = l_heap ls c → written true None s → written true None (log (EFlush a) (put_heap c v s)).
Proof using. intros Ea H. apply (written_flush_heap _ c); [done|]. apply written_put_heap; [by right|]. by apply written_except. Qed.

(** An end pointer moves and is written back. *)
Lemma written_end_moved s i r a :
  cache_line a = l_end ls i → written true None s →
  written true None (log (EFlush a) (put_end i (rput (rgs s) i r) s)).
Proof using.
  intros Ea H. apply (written_flush_end _ i); [done| |by apply written_put_end, written_except].
  cbn. by rewrite decide_True.
Qed.

(** It is stored where it is: the store need not be written back. *)
Lemma written_end_same b s i :
  written b None s → written b None (put_end i (rput (rgs s) i (set_curr (rget (rgs s) i) (get_end s i))) s).
Proof using.
  intros H. set (r := set_curr _ _).
  assert (get_end (put_end i (rput (rgs s) i r) s) i = get_end s i) as Er.
  { unfold get_end, rget, rput. cbn. rewrite !nth_lookup. destruct (decide (i < length (regions (rgs s)))%nat) as [Hi|Hi].
    - rewrite list_lookup_insert_eq by done. subst r. unfold get_end, rget. by rewrite nth_lookup.
    - by rewrite list_insert_ge by lia. }
  pose proof (written_put_end b i r s (written_except _ _ _ H)) as [H2 H3 H4 H5 H6 H7 H8 H9].
  constructor; auto; intros j _; (destruct (decide (i = j)) as [<-|Hne]; [|by (apply H5 || apply H9); congruence]).
  - cbn. by rewrite decide_True.
  - eapply (stable_store _ _ _ _ _ _ _ _); [done|cbn; by rewrite decide_True|by apply (wn_end _ _ _ H)|].
    etrans; [exact Er|]. symmetry. by apply (wn_end_now _ _ _ H).
Qed.
End Metadata.
