(* ===== verification/Durable.v ===== *)
(** * Every operation leaves the metadata durable

    The stores that recovery relies on are followed by a write-back and a fence before
    the operation that makes them returns: [durable] is kept by the operations, by
    recovery, and established by the constructor. *)

From Stdlib Require Import ZArith Lia.
From stdpp Require Import base gmap numbers list.
From S2P Require Import Prelude Mem Config Pptr SizeClass Region Meta TCache Heap BaseMeta Refine Api GC Keeps Persist.

Local Open Scope Z_scope.
#[local] Set Warnings "-clear-no-such-hyp".

Lemma bind_inv {S A B} (m : ST S A) (f : A → ST S B) s b s' :
  (m ≫= f) s = Ok (b, s') → ∃ a s1, m s = Ok (a, s1) ∧ f a s1 = Ok (b, s').
Proof.
  unfold mbind, st_mbind, st_bind. intros E. destruct (m s) as [[a s1]| |] eqn:Em; try done. by exists a, s1.
Qed.

Lemma st_mod_inv {S} (f : S → S) s x s' : st_mod f s = Ok (x, s') → s' = f s.
Proof. by intros [= _ <-]. Qed.

Lemma st_lift_inv {S A} (o : outcome A) (s : S) x s' : st_lift o s = Ok (x, s') → s' = s.
Proof. unfold st_lift. by destruct o; intros E; [injection E|..]. Qed.

(** Running an operation forward. *)
Section Run.
Context {S A B : Type}.
Lemma run_get (f : S → ST S B) s : (st_get ≫= f) s = f s s.
Proof. done. Qed.
Lemma run_gets (g : S → A) (f : A → ST S B) s : (st_gets g ≫= f) s = f (g s) s.
Proof. done. Qed.
Lemma run_mod (g : S → S) (f : unit → ST S B) s : (st_mod g ≫= f) s = f tt (g s).
Proof. done. Qed.
Lemma run_assert b (f : unit → ST S B) s : (st_assert b ≫= f) s = if b then f tt s else Fail.
Proof. by destruct b. Qed.
Lemma run_ret (a : A) (f : A → ST S B) s : (mret a ≫= f) s = f a s.
Proof. done. Qed.
Lemma run_assoc {C} (m : ST S A) (f : A → ST S B) (g : B → ST S C) s : ((m ≫= f) ≫= g) s = (m ≫= λ a, f a ≫= g) s.
Proof. unfold mbind, st_mbind, st_bind. by destruct (m s) as [[]| |]. Qed.
End Run.
Ltac run_in E := repeat (rewrite ?run_assoc, ?run_get, ?run_gets, ?run_mod, ?run_assert, ?run_ret in E; cbv beta in E).

Lemma not_formatted_ctor : ¬ formatted Descriptor_ctor.
Proof. by intros [H _]. Qed.

(** A large block formats nothing of small blocks: its heap is [heaps[0]]. *)
Lemma heap0_offset g : CrossPtr_assign g META_IDX (heap_addr g 0) = HEAPS_OFFSET.
Proof.
  unfold CrossPtr_assign, untranslate, heap_addr. change (0 * CACHELINE_SIZE) with 0. rewrite Z.add_0_r.
  unfold u64, wrap. rewrite Zminus_mod_idemp_l. by replace (_ + _ - _) with HEAPS_OFFSET by lia.
Qed.

(** ** The operations *)

Section Ops.
Context (ls : lines) (N : nvm) (rg : Regions) (b : bool).
Context (Hends : ∀ i, cache_line (base_addr (rget rg i)) = l_end ls i).
Implicit Types (D : option cell) (t : nat).

(** The regions are the ones of [rg] up to end pointers, and the metadata is written. *)
Definition kept_written D (s : state) : Prop := fixed_regs (rgs s) = fixed_regs rg ∧ written ls N b D s.

Lemma keeps_wait D e : is_store e = false → keeps (kept_written D) (st_mod (log e)).
Proof using. intros He. apply keeps_mod. intros s [Hr H]. split; [done|]. by apply written_wait. Qed.

Lemma keeps_volatile D (f : state → state) :
  (∀ s, rgs (f s) = rgs s ∧ descs (f s) = descs s ∧ heaps (f s) = heaps s ∧ roots (f s) = roots s ∧ plog (f s) = plog s) →
  keeps (kept_written D) (st_mod f).
Proof using.
  intros Hf. apply keeps_mod. intros s [Hr H]. destruct (Hf s) as (E & E2 & E3 & E4 & E5). split; [congruence|].
  revert H. apply written_ext; try done. intros i _. unfold get_end. by rewrite E.
Qed.

Lemma keeps_format D d f : (∀ x, pers (f x) = pers x) ∨ D = Some (CDesc d) → keeps (kept_written D) (st_mod (upd_desc d f)).
Proof using. intros Hf. apply keeps_mod. intros s [Hr H]. split; [done|]. by apply written_upd_desc. Qed.

Lemma written_construct D d : keeps (kept_written D) (construct_desc d).
Proof using.
  unfold construct_desc. apply keeps_bind; [|intros _; apply keeps_bind; [|intros _]]; [|by apply keeps_wait..].
  apply keeps_mod. intros s [Hr H]. split; [done|]. apply written_put_desc; [|done]. right. left. apply not_formatted_ctor.
Qed.

Lemma written_list D c o n : keeps (kept_written D) (partial_list_cas c o n).
Proof using.
  intros s a s' [Hr H] E. unfold partial_list_cas in E. run_in E. destruct (acpc_cas_strong _ _ _ _) as [[x raw] e].
  run_in E. injection E as <- <-. split; [done|]. apply written_put_heap; [by left|done].
Qed.

(** The end pointer moves, between two write-backs. *)
Lemma kept_end_line s i : kept_written None s → cache_line (base_addr (rget (rgs s) i)) = l_end ls i.
Proof using Hends.
  intros [Hr _]. rewrite <- Hends. pose proof (fixed_rget _ _ i Hr) as E. unfold fixed in E. by injection E as _ -> _ _ _.
Qed.

Lemma kept_end_moved s i raw a :
  cache_line a = l_end ls i → kept_written None s →
  kept_written None (log EFence (log (EFlush a) (put_end i (rput (rgs s) i (set_curr (rget (rgs s) i) raw)) s))).
Proof using.
  intros Ea [Hr H]. split; [cbn [rgs log put_end set_rgs]; by rewrite fixed_rput|].
  apply written_fence, written_end_moved; [done|]. by apply (written_weaken _ _ b).
Qed.

Lemma kept_end_same s i :
  kept_written None s →
  kept_written None (put_end i (rput (rgs s) i (set_curr (rget (rgs s) i) (rf_curr (rfile (rget (rgs s) i))))) s).
Proof using. intros [Hr H]. split; [cbn [rgs log put_end set_rgs]; by rewrite fixed_rput|]. by apply written_end_same. Qed.

Lemma kept_wait s e : is_store e = false → kept_written None s → kept_written None (log e s).
Proof using. intros He [Hr H]. split; [done|]. by apply written_wait. Qed.

Lemma written_small_expand fuel :
  (∀ a n, keeps (kept_written None) (organize_sb_list fuel a n)) → keeps (kept_written None) (small_sb_expand fuel).
Proof using Hends.
  intros Ho s a s' H E. unfold small_sb_expand, FLUSH, FLUSHFENCE in E. run_in E. cbv zeta in E.
  destruct (negb (get_ptr _ =? 0)); [by injection E as <- <-|]. run_in E. destruct (negb _); [|done].
  pose proof (kept_end_line _ SB_IDX H) as El.
  set (r := rget (rgs s) SB_IDX) in *. set (s1 := log EFence (log (EFlush (base_addr r)) s)) in *.
  assert (kept_written None s1) as H1 by (by do 2 (apply kept_wait; [done|])).
  destruct (atomic_pptr_cas _ _ _ _) as [[ok raw] cur] eqn:Ec. run_in E. destruct ok.
  - run_in E. pose proof (kept_end_moved s1 SB_IDX raw _ El H1) as H2.
    apply bind_inv in E as (x & s3 & E1 & E). pose proof (Ho _ _ _ _ _ H2 E1) as H3. run_in E.
    apply bind_inv in E as ([] & s4 & E2 & E). injection E as <- <-. by eapply written_construct.
  - injection E as <- <-. unfold atomic_pptr_cas in Ec. destruct (_ =? _) in Ec; [done|]. injection Ec as <- <-.
    exact (kept_end_same s1 SB_IDX H1).
Qed.

Lemma written_expand_loop fuel i al sz : keeps (kept_written None) (expand_loop fuel i al sz).
Proof using Hends.
  induction fuel as [|fuel IH]; intros s a s' H E; [done|]. cbn [expand_loop] in E. unfold expand, expand_flushes, FLUSH, FLUSHFENCE in E.
  pose proof (kept_end_line _ i H) as El.
  run_in E. set (r := rget (rgs s) i) in *. destruct (__nvm_region_allocator r _ al sz) as [[code o] raw] eqn:En.
  destruct (Z.eqb_spec code (-1)) as [->|Hc]; [by run_in E|]. run_in E.
  set (s1 := log EFence (log (EFlush (base_addr r)) s)) in *.
  assert (kept_written None s1) as H1 by (by do 2 (apply kept_wait; [done|])).
  destruct (region_bump r al sz) as [[res next]|] eqn:Eb; unfold __nvm_region_allocator in En; rewrite Eb in En; [|by injection En].
  destruct (atomic_pptr_cas _ _ _ _) as [[ok raw'] cur] eqn:Ec. destruct ok; injection En as <- <- <-.
  - cbn [Z.eqb] in E. run_in E. injection E as <- <-. exact (kept_end_moved s1 i raw' _ El H1).
  - unfold atomic_pptr_cas in Ec. destruct (_ =? _) in Ec; [done|]. injection Ec as <- _.
    cbn [Z.eqb] in E. run_in E. exact (IH _ _ _ (kept_end_same s1 i H1) E).
Qed.

(** The superblock is formatted, written back and fenced before it is used. *)
Lemma written_newsb t fuel c :
  keeps (kept_written None) (small_sb_alloc fuel (sb_size (get_sizeclass_by_idx c))) →
  keeps (kept_written None) (malloc_from_newsb fuel t c).
Proof using.
  intros Ha s a s' H E. unfold malloc_from_newsb, push_list, FLUSH, FLUSHFENCE in E.
  apply bind_inv in E as (sbaddr & s1 & E1 & E). pose proof (Ha _ _ _ H E1) as [Hr H1]. run_in E.
  destruct (negb _); [|done]. run_in E. set (d := desc_lookup (rgs s1) sbaddr) in *.
  destruct (_ =? 0) in E; [|done]. run_in E. repeat (destruct (_ : bool) in E; [|done]; run_in E). injection E as <- <-.
  split; [done|]. apply written_fence, written_flush_desc, (written_weaken _ _ b).
  apply written_upd_desc; [by right|]. apply written_put_bin, written_upd_mem.
  repeat (apply written_upd_desc; [by right|]). by apply written_except.
Qed.

Lemma kept_large_step s d f :
  heap (f (get_desc s d)) = HEAPS_OFFSET → kept_written None s → kept_written None (upd_desc d f s).
Proof using. intros Hf [Hr H]. split; [done|]. apply written_put_desc; [|done]. right. left. by intros [_ H']. Qed.

Lemma written_large t fuel size :
  (∀ sbs, keeps (kept_written None) (alloc_large_block fuel sbs)) → (MAX_SZ <? size) = true →
  keeps (kept_written None) (do_malloc fuel t size).
Proof using.
  intros Ha Hsz s a s' H E. unfold do_malloc, FLUSH_LOCAL, FLUSHFENCE in E. rewrite Hsz in E.
  apply bind_inv in E as (sbs & s0 & E0 & E). assert (s0 = s) as -> by (unfold st_lift in E0; by destruct (round_up _ _); simplify_eq).
  apply bind_inv in E as (ptr & s1 & E1 & E). pose proof (Ha _ _ _ _ H E1) as H1. run_in E.
  destruct (negb _); [|done]. run_in E. injection E as <- <-. do 2 (apply kept_wait; [done|]).
  assert (∀ f s, (∀ x, heap (f x) = heap x) → heap (get_desc s (desc_lookup (rgs s1) ptr)) = HEAPS_OFFSET →
    heap (get_desc (upd_desc (desc_lookup (rgs s1) ptr) f s) (desc_lookup (rgs s1) ptr)) = HEAPS_OFFSET) as Hk.
  { intros f s2 Hf Hs2. unfold upd_desc. by rewrite get_desc_put, decide_True, Hf. }
  assert (∀ s, heap (get_desc (upd_desc (desc_lookup (rgs s1) ptr)
    (with_heap (CrossPtr_assign (rgs s1) META_IDX (heap_addr (rgs s1) 0))) s) (desc_lookup (rgs s1) ptr)) = HEAPS_OFFSET) as H0.
  { intros s2. unfold upd_desc. rewrite get_desc_put, decide_True by done. apply heap0_offset. }
  do 4 (apply kept_large_step; [repeat (apply Hk; [done|]); apply H0|]).
  apply kept_large_step; [apply heap0_offset|done].
Qed.

#[export] Instance written_preserved t : Preserved (kept_written None) t.
Proof using Hends.
  constructor.
  - intros f. by apply keeps_volatile.
  - intros c v. by apply keeps_volatile.
  - intros v. by apply keeps_volatile.
  - intros a. by apply keeps_wait.
  - by apply keeps_wait.
  - intros d f Hf. apply keeps_format. by left.
  - apply written_construct.
  - apply written_list.
  - apply written_small_expand.
  - apply written_expand_loop.
  - apply written_newsb.
  - apply written_large.
Qed.
End Ops.

(** ** The metadata of a heap in use *)

(** Between operations, whatever a crash leaves is what recovery needs: the log since
    the metadata was [N], in the regions [rg]. *)
Definition durable (rg : Regions) (N : nvm) : state → Prop := kept_written (lines_of rg) N rg false None.

Section Durable.
Context (rg : Regions) (N : nvm).

#[export] Instance durable_preserved t : Preserved (durable rg N) t.
Proof using. by apply written_preserved. Qed.

(** The process starts with the metadata that is in the files. *)
Lemma durable_start s : plog s = [] → durable (rgs s) (snapshot s) s.
Proof using. intros E. split; [done|]. by apply written_start. Qed.

(** A root is written, written back and fenced. *)
Lemma durable_set_root p i : keeps (durable rg N) (set_root p i).
Proof using.
  intros s a s' [Hr H] E. unfold set_root, FLUSH, FLUSHFENCE in E. run_in E. destruct (_ <? _); [|done]. run_in E.
  injection E as <- <-. split; [done|]. apply written_fence, written_root; [|by apply (written_weaken _ _ false)].
  injection Hr as _ E _. unfold rlookup. cbn [lines_of l_root]. unfold rlookup. by rewrite E.
Qed.

(** *** Recovery *)

Lemma durable_reset_heaps l s : durable rg N s → durable rg N (gc_reset_heaps l s).
Proof using.
  revert s. induction l as [|i l IH]; intros s [Hr H]; cbn [gc_reset_heaps foldl]; [done|].
  apply IH. split; [done|]. apply written_put_heap; [by left|done].
Qed.

Lemma durable_gc_start : keeps (durable rg N) (st_mod gc_start).
Proof using.
  apply keeps_mod. intros s [Hr H]. unfold gc_start. apply durable_reset_heaps. split; [done|]. by apply written_set_avail.
Qed.

#[local] Hint Extern 1 (keeps (durable rg N) (st_mod (upd_mem _))) => apply (keeps_upd_mem _ 0) : keeps.
#[local] Hint Extern 1 (keeps (durable rg N) (st_mod (upd_desc _ (with_anchor _)))) => apply (keeps_with_anchor _ 0) : keeps.
#[local] Hint Extern 1 (keeps (durable rg N) (next_free_store _ _)) => apply (keeps_next_free_store _ 0) : keeps.
#[local] Hint Extern 1 (keeps (durable rg N) (next_partial_store _ _)) => apply (keeps_next_partial_store _ 0) : keeps.
#[local] Hint Extern 1 (keeps (durable rg N) (construct_desc _)) => apply (keeps_construct_desc _ 0) : keeps.
#[local] Hint Extern 1 (keeps (durable rg N) (heap_push_partial _ _)) => apply (keeps_heap_push_partial _ 0) : keeps.
#[local] Hint Extern 1 (keeps (durable rg N) (FLUSH _)) => apply (keeps_FLUSH _ 0) : keeps.
#[local] Hint Extern 1 (keeps (durable rg N) FLUSHFENCE) => apply (keeps_FLUSHFENCE _ 0) : keeps.

Lemma durable_sweep_marks fuel sb d marks a : keeps (durable rg N) (sweep_marks fuel sb d marks a).
Proof using.
  revert a. induction marks as [|x marks IH]; intros a; cbn [sweep_marks]; [keeps_tac|].
  destruct (_ =? _); [|keeps_tac]. apply keeps_bind; [keeps_tac|intros s]. cbv zeta. destruct (_ && _); [|apply IH].
  destruct (_ =? 0); (apply keeps_bind; [keeps_tac|intros ?]); [apply IH|].
  apply keeps_bind; [keeps_tac|intros _]. apply IH.
Qed.

Lemma durable_sweep_step fuel sb d marks h : keeps (durable rg N) (sweep_step fuel sb d marks h).
Proof using.
  unfold sweep_step. apply keeps_bind; [apply durable_sweep_marks|intros x]. cbv zeta. keeps_tac.
Qed.

Lemma durable_sweep_loop n fuel e sb d marks h : keeps (durable rg N) (sweep_loop n fuel e sb d marks h).
Proof using.
  revert sb d marks h. induction n as [|n IH]; intros; cbn [sweep_loop]; [keeps_tac|].
  destruct (_ <? _); [|keeps_tac]. apply keeps_bind; [apply durable_sweep_step|intros x]. apply IH.
Qed.

Lemma durable_sweep fuel K : keeps (durable rg N) (sweep fuel K).
Proof using.
  unfold sweep. apply keeps_bind; [keeps_tac|intros s]. cbv zeta. apply keeps_bind; [apply durable_sweep_loop|intros x].
  apply keeps_bind; [|intros _; keeps_tac]. apply keeps_volatile. by intros.
Qed.

Lemma durable_flush_lines l : keeps (durable rg N) (flush_lines l).
Proof using. induction l as [|a l IH]; cbn [flush_lines foldr]; [keeps_tac|]. apply keeps_bind; [keeps_tac|intros _; apply IH]. Qed.

Lemma durable_flush_region i : keeps (durable rg N) (flush_region i).
Proof using. unfold flush_region. apply keeps_bind; [keeps_tac|intros r]. apply keeps_bind; [apply durable_flush_lines|intros _; keeps_tac]. Qed.

Lemma durable_gc_run uf fuel fs : keeps (durable rg N) (gc_run uf fuel fs).
Proof using.
  unfold gc_run. apply keeps_bind; [apply durable_gc_start|intros _]. apply keeps_bind; [keeps_tac|intros s].
  apply keeps_bind; [keeps_tac|intros g]. apply keeps_bind; [apply durable_sweep|intros _].
  do 2 (apply keeps_bind; [apply durable_flush_region|intros _]). apply keeps_bind; [keeps_tac|intros r].
  apply keeps_bind; [apply durable_flush_lines|intros _]. keeps_tac.
Qed.
End Durable.
