(* ===== verification/Crash.v ===== *)
(** * Crashes between operations

    A run of operations, the memory that a crash after it can leave, and what the next
    process finds there. *)

From Stdlib Require Import ZArith Lia.
From stdpp Require Import base gmap numbers functions list.
From S2P Require Import Prelude Mem Config Pptr SizeClass Region Meta MetaFacts TCache Heap BaseMeta Inv Ghost Rep Trans SbSpec CacheSpec FlushSpec AllocSpec Refine Api GC Process Keeps Recovery ProcSpec Lifecycle Persist Durable.

Local Open Scope Z_scope.
#[local] Set Warnings "-clear-no-such-hyp".

(** ** Runs *)

(** What the threads of a process call, recovery included; [OpStore] is a store of the
    program. *)
Inductive op :=
| OpMalloc (t : nat) (size : Z)
| OpFree (t : nat) (p : Z)
| OpFlush (t : nat)
| OpRoot (p i : Z)
| OpStore (a v : Z)
| OpRecover (user_filter : nat → option (state → Z → list (Z * nat))) (fs : filters).

Definition do_op (fuel : nat) (o : op) : M unit :=
  match o with
  | OpMalloc t size => do_malloc fuel t size;; mret tt
  | OpFree t p => do_free fuel t p
  | OpFlush t => public_flush_cache fuel t
  | OpRoot p i => set_root p i;; mret tt
  | OpStore a v => st_mod (upd_mem (λ m, store8 m a v))
  | OpRecover uf fs => gc_run uf fuel fs;; mret tt
  end.

Definition do_ops (fuel : nat) (l : list op) : M unit := foldr (λ o k, do_op fuel o;; k) (mret tt) l.

Lemma durable_op rg N fuel o : keeps (durable rg N) (do_op fuel o).
Proof.
  destruct o; cbn [do_op]; try (apply keeps_bind; [|intros _; apply keeps_ret]).
  - apply (keeps_do_malloc _ t).
  - apply (keeps_do_free _ t).
  - apply (keeps_public_flush_cache _ t).
  - apply durable_set_root.
  - apply (keeps_upd_mem _ 0).
  - apply durable_gc_run.
Qed.

Lemma durable_ops rg N fuel l : keeps (durable rg N) (do_ops fuel l).
Proof.
  induction l as [|o l IH]; cbn [do_ops foldr]; [apply keeps_ret|].
  apply keeps_bind; [apply durable_op|intros _; exact IH].
Qed.

(** ** The next process *)

(** The program has written back its blocks; the metadata is [N']. *)
Record after_crash (dd d : Z) (L : gmap Z Z) (N' : nvm) (s s' : state) : Prop := {
  ac_desc : ∀ x, get_desc s' (dd + x) = n_desc N' x;
  ac_heap : ∀ c, get_heap s' c = n_heap N' c;
  ac_root : ∀ i, get_root_raw s' i = n_root N' i;
  ac_tc : t_caches s' = ∅;
  ac_mem : ∀ x, in_blocks L x → load8 (smem s') (d + x) = load8 (smem s) x
}.

(** Blocks of at most [MAX_SZ] bytes. *)
Definition all_small (L : gmap Z Z) : Prop := ∀ p z, L !! p = Some z → z ≤ MAX_SZ.

Section Crash.
Context (db sb mb : Z) (HG : geom db sb mb).

(** The descriptor of a small block is formatted. *)
Lemma small_formatted L s p z :
  heap_rep db sb mb L s → L !! p = Some z → z ≤ MAX_SZ → formatted (get_desc s (desc_lookup (rgs s) p)).
Proof using HG.
  intros (g & H & _ & HL) Hp Hz. apply HL in Hp. pose proof (iv_wf _ _ _ _ _ _ _ _ _ _ H) as Hwf.
  destruct Hp as [(i & c & fl & lk & Hi & Hb & _)|(i & k & Hi & _ & ->)].
  - pose proof (gw_cls _ _ Hwf _ _ _ _ Hi) as Hc.
    destruct (free_lookup db sb mb HG g s i p H ltac:(eauto) (blocks_range sb i c p Hc Hb)) as (_ & _ & -> & _).
    destruct (iv_small _ _ _ _ _ _ _ _ _ _ H _ _ _ _ Hi) as [(E & _) _].
    unfold formatted. unfold get_desc, dget in *. rewrite E. unfold HEAPS_OFFSET.
    change MAX_SZ_IDX with 40 in Hc. change CACHELINE_SIZE with 64. rewrite u64_small by lia. lia.
  - destruct (gw_large _ _ Hwf _ _ Hi) as (? & _). change MAX_SZ with 14336 in Hz. change SBSIZE with 65536 in Hz. lia.
Qed.

(** Whatever [D] is not certain must be as it is in [s]. *)
Lemma crash_written dd d L rg N N' D s s' :
  heap_rep db sb mb L s → all_small L → written (lines_of rg) N false D s →
  (∀ x, D ≠ Some (CDesc x)) → (∀ c, D ≠ Some (CHeap c)) → (∀ i, D = Some (CRoot i) → n_root N' i = get_root_raw s i) →
  may_leave (lines_of rg) N (plog s) N' → after_crash dd d L N' s s' → crashed dd d (rgs s) L s s'.
Proof using HG.
  intros H HL [H2 H3 H4 H5 H6 H7 H8 H9] Hd Hc Hr [M1 M2 M3 M4] [A1 A2 A3 A4 A5]. constructor; try done.
  - intros i. rewrite A3. destruct (decide (D = Some (CRoot i))) as [E|Hn]; [by apply Hr|].
    rewrite <- H4. by apply (H8 i).
  - intros c _. rewrite A2, <- H3. by apply (H7 c).
  - intros p z Hp x. rewrite A1, <- (H2 x). apply (H6 x); [|by apply Hd|done]. by apply (small_formatted L s p z); [| |eapply HL].
Qed.

Lemma crash_durable dd d L rg N N' s s' :
  heap_rep db sb mb L s → all_small L → durable rg N s → may_leave (lines_of rg) N (plog s) N' →
  after_crash dd d L N' s s' →
  crashed dd d (rgs s) L s s' ∧ ∀ i, n_end N' i = get_end s i.
Proof using HG.
  intros H HL [Hr Hw] HN Ha. split; [by eapply crash_written|].
  intros i. rewrite <- (wn_end_now _ _ _ _ _ Hw) by done. by apply (wn_end _ _ _ _ _ Hw i), HN.
Qed.

(** *** Inside [set_root] *)

(** Before the fence the root may be the old or the new one. *)
Lemma root_store_leaves ls N i v l N' :
  may_leave ls N (WRoot i v :: l) N' → n_root N' i = v ∨ may_leave ls N l N'.
Proof using.
  intros [M1 M2 M3 M4]. pose proof (M3 i) as Hi. cbn [possible to_root] in Hi. rewrite decide_True in Hi by done.
  apply elem_of_cons in Hi as [Hi|Hi]; [by left|right]. constructor; [done|done| |done].
  intros j. destruct (decide (i = j)) as [<-|Hne]; [done|]. pose proof (M3 j) as Hj. cbn [possible to_root] in Hj.
  by rewrite decide_False in Hj.
Qed.

Lemma flush_leaves ls N a l N' : may_leave ls N (EFlush a :: l) N' → may_leave ls N l N'.
Proof using. by intros [M1 M2 M3 M4]. Qed.

Lemma suffix_within {A} (l l0 : list A) e : suffix l (e :: l0) → l = e :: l0 ∨ suffix l l0.
Proof using. intros [[|x k] E]; cbn in E; [by left|right]. injection E as _ ->. by exists k. Qed.

(** A crash at any point of the run of [set_root]. *)
Lemma set_root_crash dd d L rg N s p i old s' l N' s2 :
  heap_rep db sb mb L s → heap_rep db sb mb L s' → all_small L → durable rg N s → set_root p i s = Ok (old, s') →
  suffix l (plog s') → suffix (plog s) l → may_leave (lines_of rg) N l N' → after_crash dd d L N' s s2 →
  crashed dd d (rgs s) L s s2 ∨ crashed dd d (rgs s) L s' s2.
Proof using HG.
  intros H H' HL Hd E Hl Hl0 HN Ha. pose proof (durable_set_root _ _ _ _ _ _ _ Hd E) as Hd'.
  unfold set_root, FLUSH, FLUSHFENCE in E. run_in E. destruct (_ <? _); [|done]. run_in E. injection E as <- <-.
  set (v := CrossPtr_assign _ _ _) in *. set (a := root_addr _ _) in *.
  assert (after_crash dd d L N' (log EFence (log (EFlush a) (put_root i v s))) s2) as Ha' by (by destruct Ha).
  assert (written (lines_of rg) N false (Some (CRoot i)) (put_root i v s)) as Hw.
  { apply written_put_root; [done|]. apply written_except, Hd. }
  assert (may_leave (lines_of rg) N (plog (put_root i v s)) N' → n_root N' i = v →
    crashed dd d (rgs s) L (log EFence (log (EFlush a) (put_root i v s))) s2) as Hnew.
  { intros HN' Hv. assert (crashed dd d (rgs s) L (put_root i v s) s2) as [C1 C2 C3 C4 C5]; [|by constructor].
    eapply (crash_written dd d L rg N N' (Some (CRoot i)) (put_root i v s)); try done.
    - intros j [= ->]. rewrite Hv. unfold get_root_raw. cbn. by rewrite lookup_insert_eq.
    - by destruct Ha. }
  cbn [plog log put_root upd_roots] in Hl. apply suffix_within in Hl as [->|Hl].
  { right. exact (proj1 (crash_durable dd d L rg N N' _ _ H' HL Hd' HN Ha')). }
  assert (may_leave (lines_of rg) N (WRoot i v :: plog s) N' → crashed dd d (rgs s) L s s2 ∨
    crashed dd d (rgs s) L (log EFence (log (EFlush a) (put_root i v s))) s2) as Hmid.
  { intros HN'. destruct (root_store_leaves _ _ _ _ _ _ HN') as [Hv|HN2]; [right; by apply Hnew|left].
    exact (proj1 (crash_durable dd d L rg N N' _ _ H HL Hd HN2 Ha)). }
  apply suffix_within in Hl as [->|Hl]; [by apply Hmid, (flush_leaves _ _ a)|].
  apply suffix_within in Hl as [->|Hl]; [by apply Hmid|].
  assert (l = plog s) as ->.
  { apply (anti_symm suffix); done. }
  left. exact (proj1 (crash_durable dd d L rg N N' _ _ H HL Hd HN Ha)).
Qed.

(** A crash after its return: the root has reached the memory. *)
Lemma set_root_crash_after dd d L rg N s p i old s' N' s2 :
  heap_rep db sb mb L s' → all_small L → durable rg N s → set_root p i s = Ok (old, s') →
  may_leave (lines_of rg) N (plog s') N' → after_crash dd d L N' s s2 →
  crashed dd d (rgs s) L s' s2 ∧ n_root N' i = get_root_raw s' i.
Proof using HG.
  intros H' HL Hd E HN Ha. pose proof (durable_set_root _ _ _ _ _ _ _ Hd E) as Hd'.
  assert (rgs s' = rgs s ∧ smem s' = smem s) as [Er Em].
  { unfold set_root, FLUSH, FLUSHFENCE in E. run_in E. destruct (_ <? _); [|done]. run_in E. by injection E as <- <-. }
  assert (after_crash dd d L N' s' s2) as Ha' by (destruct Ha; constructor; try done; by rewrite Em).
  destruct (crash_durable dd d L rg N N' _ _ H' HL Hd' HN Ha') as [Hc _]. rewrite Er in Hc.
  split; [done|]. rewrite <- (ac_root _ _ _ _ _ _ Ha i). apply (cr_roots _ _ _ _ _ _ Hc).
Qed.
End Crash.
