(* ===== verification/DurableInit.v ===== *)
(** * A new heap is durable

    The constructors write the classes of the heaps, the roots and the end pointers of
    the three regions back; the last fence of [BaseMeta]'s constructor completes it. *)

From Stdlib Require Import ZArith Lia.
From stdpp Require Import base gmap numbers functions list.
From S2P Require Import Prelude Mem Config Pptr SizeClass Region Meta MetaFacts TCache Heap BaseMeta Inv Ghost Rep Trans SbSpec AllocSpec InitSpec Refine Api Dirty GC Process Keeps ProcSpec Persist Durable.

Local Open Scope Z_scope.
#[local] Set Warnings "-clear-no-such-hyp".

(** ** The constructor of [BaseMeta] *)

Section Ctor.
Context (ls : lines) (N : nvm) (this : Z).
Context (Hheap : ∀ c, cache_line (u64 (this + HEAPS_OFFSET + c * CACHELINE_SIZE)) = l_heap ls c).
Context (Hroot : ∀ i, cache_line (root_addr this i) = l_root ls i).

Lemma written_init_heaps rg l : keeps (kept_written ls N rg true None) (init_heaps this l).
Proof using Hheap.
  induction l as [|c l IH]; cbn [init_heaps foldr]; [apply keeps_ret|].
  intros s a s' [Hr H] E. unfold FLUSH in E. run_in E. refine (IH _ a s' _ E). split; [done|]. by apply written_heap.
Qed.

Lemma written_init_roots rg l : keeps (kept_written ls N rg true None) (init_roots this l).
Proof using Hroot.
  induction l as [|i l IH]; cbn [init_roots foldr]; [apply keeps_ret|].
  intros s a s' [Hr H] E. unfold FLUSH in E. run_in E. refine (IH _ a s' _ E). split; [done|]. by apply written_root.
Qed.

(** The fields of a region that its lines depend on. *)
Lemma fixed_base_line rg rg' :
  fixed_regs rg = fixed_regs rg' → (∀ i, cache_line (base_addr (rget rg' i)) = l_end ls i) →
  ∀ i, cache_line (base_addr (rget rg i)) = l_end ls i.
Proof using.
  intros Hf H i. rewrite <- H. pose proof (fixed_rget _ _ i Hf) as E. unfold fixed in E. by injection E as _ -> _ _ _.
Qed.

Lemma rget_same_base rg i r j :
  base_addr r = base_addr (rget rg i) → base_addr (rget (rput rg i r) j) = base_addr (rget rg j).
Proof using.
  intros Hr. unfold rget, rput in *. cbn [regions]. rewrite !nth_lookup. rewrite nth_lookup in Hr.
  destruct (decide (i = j)) as [<-|Hne]; [|by rewrite list_lookup_insert_ne].
  destruct (decide (i < length (regions rg))%nat) as [Hi|Hi]; [by rewrite list_lookup_insert_eq|].
  by rewrite list_insert_ge by lia.
Qed.

Lemma rget_same_end rg i r j :
  rf_curr (rfile r) = rf_curr (rfile (rget rg i)) → rf_curr (rfile (rget (rput rg i r) j)) = rf_curr (rfile (rget rg j)).
Proof using.
  intros Hr. unfold rget, rput in *. cbn [regions]. rewrite !nth_lookup. rewrite nth_lookup in Hr.
  destruct (decide (i = j)) as [<-|Hne]; [|by rewrite list_lookup_insert_ne].
  destruct (decide (i < length (regions rg))%nat) as [Hi|Hi]; [by rewrite list_lookup_insert_eq|].
  by rewrite list_insert_ge by lia.
Qed.

(** The text of the constructor, over arbitrary bounds. *)
Definition ctor_text (fuel : nat) (l1 l2 : list Z) (al sz n : Z) : M unit :=
  rg ← st_gets rgs;
  st_mod (set_avail_sb (acpc_ctor rg DESC_IDX 0 0));;
  init_heaps this l1;;
  init_roots this l2;;
  start ← expand_loop fuel SB_IDX al sz;
  st_mod (λ s, set_rgs (rput (rgs s) SB_IDX (__store_heap_start (rget (rgs s) SB_IDX) start)) s);;
  r ← st_gets (λ s, rget (rgs s) SB_IDX);
  FLUSH (u64 (base_addr r + 8));; FLUSHFENCE;;
  st_mod (λ s, set_rgs (set_address (rgs s) SB_IDX start) s);;
  organize_sb_list fuel (u64 (start + SBSIZE)) n;;
  FLUSHFENCE.

Lemma ctor_text_written fuel l1 l2 al sz n s a s' :
  (∀ i, cache_line (base_addr (rget (rgs s) i)) = l_end ls i) → written ls N true None s →
  ctor_text fuel l1 l2 al sz n s = Ok (a, s') → written ls N false None s'.
Proof using Hheap Hroot.
  intros Hb H E. unfold ctor_text, FLUSH, FLUSHFENCE in E. run_in E.
  assert (kept_written ls N (rgs s) true None (set_avail_sb (acpc_ctor (rgs s) DESC_IDX 0 0) s)) as H0
    by (split; [done|by apply written_set_avail]).
  apply bind_inv in E as ([] & s1 & E1 & E). pose proof (written_init_heaps _ _ _ _ _ H0 E1) as H1.
  apply bind_inv in E as ([] & s2 & E2 & E). pose proof (written_init_roots _ _ _ _ _ H1 E2) as H2.
  apply bind_inv in E as (start & s3 & E3 & E).
  pose proof (written_expand_loop ls N (rgs s) true Hb _ _ _ _ _ _ _ H2 E3) as [Hr3 H3]. run_in E.
  pose proof (fixed_base_line _ _ Hr3 Hb) as Hb3.
  match type of E with (organize_sb_list _ _ _ ≫= _) ?S = _ => set (s4 := S) in * end.
  assert (kept_written ls N (rgs s4) true None s4) as H4.
  { split; [reflexivity|]. subst s4. apply written_set_rgs; [intros i _; reflexivity|].
    do 2 (apply written_wait; [reflexivity|]). apply written_set_rgs; [|exact H3].
    intros i _. apply rget_same_end. reflexivity. }
  assert (∀ i, cache_line (base_addr (rget (rgs s4) i)) = l_end ls i) as Hb4.
  { intros i. rewrite <- Hb3. f_equal. apply rget_same_base. reflexivity. }
  apply bind_inv in E as ([] & s5 & E5 & E).
  pose proof (keeps_organize_sb_list _ 0 (K := written_preserved ls N (rgs s4) true Hb4 0) _ _ _ _ _ _ H4 E5) as [_ H5].
  injection E as <- <-. by apply written_fence.
Qed.

Lemma ctor_text_eq fuel :
  BaseMeta_ctor fuel this = ctor_text fuel (seqZ 0 MAX_SZ_IDX) (seqZ 0 MAX_ROOTS) SBSIZE SB_REGION_EXPAND_SIZE
    (SB_REGION_EXPAND_SIZE / SBSIZE - 1).
Proof using. unfold BaseMeta_ctor, ctor_text. reflexivity. Qed.

Lemma BaseMeta_ctor_written fuel s a s' :
  (∀ i, cache_line (base_addr (rget (rgs s) i)) = l_end ls i) → written ls N true None s →
  BaseMeta_ctor fuel this s = Ok (a, s') → written ls N false None s'.
Proof using Hheap Hroot.
  rewrite ctor_text_eq. apply ctor_text_written.
Qed.
End Ctor.

(** ** Creating the regions *)

Section Create.
Context (ls : lines) (N : nvm).

(** What [new RegionManager] of a new file mapped at [a] leaves, for region [i] of the
    table: the end pointer of [r] is in the file. *)
Record region_in_file (i : nat) (a : Z) (r : RegionManager) (s s' : state) : Prop := {
  rif_base : base_addr r = a;
  rif_rgs : rgs s' = rgs s;
  rif_now : latest (to_end i) (n_end N i) (plog s') = rf_curr (rfile r);
  rif_end : stable (to_end i) (l_end ls i) (n_end N i) false id (plog s');
  rif_rest : written ls N false (Some (CEnd i)) s'
}.

Lemma last_byte_written b D r s : written ls N b D s → written ls N b D (last_byte r s).
Proof using. unfold last_byte. destruct (bool_decide _); [apply written_upd_mem|done]. Qed.

Lemma last_byte_rgs r s : rgs (last_byte r s) = rgs s.
Proof using. unfold last_byte. by destruct (bool_decide _). Qed.

Lemma new_region_written a size imm t0 s r s' :
  cache_line a = l_end ls (cur_idx (rgs s)) → written ls N false None s →
  new_RegionManager None (Some a) size true imm t0 s = Ok (r, s') →
  region_in_file (cur_idx (rgs s)) a r s s'.
Proof using.
  intros Ha H E. unfold new_RegionManager, map_flushes, store_flushes, expand_flushes, FLUSH, FLUSHFENCE in E.
  apply bind_inv in E as (r0 & s0 & E0 & E). unfold st_lift in E0.
  destruct (RegionManager_ctor None (Some a) size true imm t0) as [r1| |] eqn:Er; [|done..].
  injection E0 as -> ->. change (1 =? -1) with false in E. change (1 =? 1) with true in E.
  pose proof (last_byte_written _ _ r0 s0 (written_except _ _ _ _ (CEnd (cur_idx (rgs s0))) H)) as H0.
  pose proof (last_byte_rgs r0 s0) as Erg. unfold RegionManager_ctor in Er. destruct (negb _); [done|].
  cbn [__map_persistent_region] in Er. set (i := cur_idx (rgs s0)) in *. set (sb := last_byte r0 s0) in *.
  assert (cur_idx (rgs sb) = i) as Ei by (by rewrite Erg).
  destruct imm.
  - destruct (__nvm_region_allocator _ _ _ _) as [[code o] raw]. destruct (code =? 0); [done|]. injection Er as <-.
    run_in E. fold sb in E. rewrite Ei in E. injection E as <- <-. constructor; [done|done| | |].
    + cbn. by rewrite decide_True.
    + cbn [plog log]. do 2 (apply stable_wait; [done|]). by apply stable_fence, stable_flush.
    + do 4 (apply written_wait; [done|]). apply written_log_end; [done|]. do 5 (apply written_wait; [done|]).
      by apply written_log_end.
  - injection Er as <-. run_in E. fold sb in E. rewrite Ei in E. injection E as <- <-. constructor; [done|done| | |].
    + cbn. by rewrite decide_True.
    + cbn [plog log]. apply stable_fence. apply stable_wait; [done|]. by apply stable_flush.
    + do 3 (apply written_wait; [done|]). by apply written_log_end.
Qed.

(** The region is put in the table. *)
Lemma rget_put_region g r j :
  (cur_idx g < length (regions g))%nat →
  rget (put_region g r) j = if decide (cur_idx g = j) then r else rget g j.
Proof using.
  intros Hi. unfold rget, put_region. cbn [regions]. rewrite !nth_lookup.
  destruct (decide (cur_idx g = j)) as [<-|Hne]; [by rewrite list_lookup_insert_eq|by rewrite list_lookup_insert_ne].
Qed.

Lemma put_region_written a r s s' g :
  (cur_idx (rgs s) < length (regions (rgs s)))%nat → (∀ j, rget g j = rget (put_region (rgs s) r) j) →
  region_in_file (cur_idx (rgs s)) a r s s' → written ls N false None (set_rgs g s').
Proof using.
  intros Hi Hg [Hb Hr Hn He H]. apply (written_restore _ _ _ _ (cur_idx (rgs s))); [|done|].
  - etrans; [exact Hn|]. unfold get_end. cbn [rgs set_rgs]. rewrite Hg, rget_put_region by done. by rewrite decide_True.
  - apply written_set_rgs; [|done]. intros j Hj. unfold get_end. rewrite Hr, Hg, rget_put_region by done.
    by rewrite decide_False by congruence.
Qed.

(** What the steps of [_RP_init] carry along: [n] regions are in the table, at [bases]. *)
Record opened (n : nat) (bases : nat → Z) (s : state) : Prop := {
  op_len : length (regions (rgs s)) = LAST_IDX;
  op_base : ∀ j, base_addr (rget (rgs s) j) = if decide (j < n)%nat then bases j else 0;
  op_written : written ls N false None s
}.

Lemma opened_put n bases r s s' g :
  (n < LAST_IDX)%nat → cur_idx (rgs s) = n → opened n bases s → region_in_file (cur_idx (rgs s)) (bases n) r s s' →
  regions g = regions (put_region (rgs s) r) → opened (S n) bases (set_rgs g s').
Proof using.
  intros Hn Ho [Hl Hb H] Hr Eg. assert (∀ j, rget g j = rget (put_region (rgs s) r) j) as Hg.
  { intros j. unfold rget. by rewrite Eg. }
  assert (cur_idx (rgs s) < length (regions (rgs s)))%nat as Hi by lia.
  constructor; [| |by eapply put_region_written].
  - cbn [rgs set_rgs]. rewrite Eg. unfold put_region. cbn [regions]. by rewrite length_insert.
  - intros j. cbn [rgs set_rgs]. rewrite Hg, rget_put_region by done. rewrite Ho.
    destruct (decide (n = j)) as [<-|Hne]; [rewrite decide_True by lia; apply Hr|].
    rewrite Hb. destruct (decide (j < n)%nat); [by rewrite decide_True by lia|by rewrite decide_False by lia].
Qed.

Lemma create_opened n bases size imm t0 s x s' :
  (n < LAST_IDX)%nat → cache_line (bases n) = l_end ls n → cur_idx (rgs s) = n → opened n bases s →
  create None (Some (bases n)) size true imm t0 s = Ok (x, s') → cur_idx (rgs s') = S n ∧ opened (S n) bases s'.
Proof using.
  intros Hn Hl Ei Ho E. unfold create in E. apply bind_inv in E as (r & s1 & E1 & E). injection E as <- <-.
  rewrite <- Ei in Hl at 2.
  pose proof (new_region_written _ _ _ _ _ _ _ Hl (op_written _ _ _ Ho) E1) as Hr.
  pose proof (rif_rgs _ _ _ _ _ Hr) as Er.
  split; [cbn; by rewrite Er, Ei|]. eapply opened_put; [done|done|exact Ho|exact Hr|]. cbn. by rewrite Er.
Qed.
End Create.

(** ** A new heap *)

Section World.
Context {RM : RobustMutex}.

Lemma on_state_inv {A} (m : M A) w a w' :
  on_state m w = Ok (a, w') → m (w_state w) = Ok (a, w_state w').
Proof. unfold on_state. destruct (m (w_state w)) as [[x s]| |]; [|done..]. by intros [= <- <-]. Qed.

Lemma on_mutex_inv {A} (f : mutex → outcome (A * mutex)) w a w' :
  on_mutex f w = Ok (a, w') → w_state w' = w_state w.
Proof. unfold on_mutex. destruct (f (w_mtx w)) as [[x s]| |]; [|done..]. by intros [= <- <-]. Qed.

Lemma new_region_ctor file addr size p imm t0 s r s' :
  new_RegionManager file addr size p imm t0 s = Ok (r, s') → RegionManager_ctor file addr size p imm t0 = Ok r.
Proof.
  unfold new_RegionManager. intros E. apply bind_inv in E as (r0 & s0 & E0 & E). unfold st_lift in E0.
  destruct (RegionManager_ctor _ _ _ _ _ _) as [r1| |]; [|done..]. injection E0 as -> ->. run_in E.
  apply bind_inv in E as ([] & s2 & _ & E). by injection E as <- <-.
Qed.

(** The bases of the three regions. *)
Definition three (a0 a1 a2 : Z) (i : nat) : Z :=
  match i with 0%nat => a0 | 1%nat => a1 | 2%nat => a2 | _ => 0 end.

Lemma three_base a0 a1 a2 j : (if decide (j < LAST_IDX)%nat then three a0 a1 a2 j else 0) = three a0 a1 a2 j.
Proof. destruct (decide _) as [|H]; [done|]. destruct j as [|[|[|]]]; [unfold LAST_IDX in H; lia..|done]. Qed.

Section New.
Context (size a0 a1 a2 : Z) (Hok : new_heap_ok size a0 a1 a2) (ls : lines) (N : nvm).
Context (Hheap : ∀ c, cache_line (u64 (a2 + PAGESIZE + HEAPS_OFFSET + c * CACHELINE_SIZE)) = l_heap ls c).
Context (Hroot : ∀ i, cache_line (root_addr (a2 + PAGESIZE) i) = l_root ls i).
Context (Hend : ∀ i, cache_line (three a0 a1 a2 i) = l_end ls i).

Lemma BaseMeta_new_written fuel w x w' :
  opened ls N LAST_IDX (three a0 a1 a2) (w_state w) → BaseMeta_new fuel (a2 + PAGESIZE) w = Ok (x, w') →
  written ls N false None (w_state w').
Proof using Hheap Hroot Hend.
  intros [Hl Hb H] E. unfold BaseMeta_new, w_set_dirty in E.
  apply bind_inv in E as ([] & w1 & E1 & E). apply on_mutex_inv in E1.
  apply bind_inv in E as ([] & w2 & E2 & E). apply on_mutex_inv in E2.
  apply on_state_inv in E. rewrite E2, E1 in E. unfold FLUSH in E. run_in E.
  eapply (BaseMeta_ctor_written ls N (a2 + PAGESIZE) Hheap Hroot); [| |exact E].
  - intros i. cbn [rgs log]. by rewrite Hb, three_base.
  - do 2 (apply written_wait; [done|]). by apply (written_weaken _ _ false).
Qed.

Lemma create_for_written fuel t0 w x w' :
  cur_idx (rgs (w_state w)) = META_IDX → opened ls N META_IDX (three a0 a1 a2) (w_state w) →
  create_for None (Some a2) SIZEOF_BASEMETA true t0 (BaseMeta_new fuel) w = Ok (x, w') →
  written ls N false None (w_state w').
Proof using Hok Hheap Hroot Hend.
  intros Ei Ho E. unfold create_for in E. apply bind_inv in E as (r & w1 & E1 & E). apply on_state_inv in E1.
  pose proof (new_region_ctor _ _ _ _ _ _ _ _ _ E1) as Er.
  rewrite ctor_full in Er by (done || apply Hok). injection Er as <-.
  assert (cache_line a2 = l_end ls (cur_idx (rgs (w_state w)))) as Ha by (by rewrite Ei, <- Hend).
  pose proof (new_region_written ls N _ _ _ _ _ _ _ Ha (op_written _ _ _ _ _ Ho) E1) as Hr.
  apply bind_inv in E as ([] & w2 & E2 & E). apply on_state_inv, st_mod_inv in E2.
  rewrite fetch_full in E by (done || apply Hok). change (bool_decide (is_Some None)) with false in E. cbn iota in E.
  apply bind_inv in E as ([] & w3 & E3 & E).
  apply BaseMeta_new_written in E3.
  2:{ rewrite E2. rewrite (rif_rgs _ _ _ _ _ _ _ Hr).
      eapply (opened_put ls N META_IDX); [unfold META_IDX, LAST_IDX; lia|done|exact Ho|exact Hr|done]. }
  apply bind_inv in E as ([] & w4 & E4 & E). apply on_state_inv, st_mod_inv in E4. injection E as <- <-.
  rewrite E4. apply written_set_rgs; [|done]. intros i _. reflexivity.
Qed.

Lemma RP_init_written fuel files maps t0 w x w' :
  (∀ i, files i = None) → maps DESC_IDX = Some a0 → maps SB_IDX = Some a1 → maps META_IDX = Some a2 →
  written ls N false None (set_rgs Regions_ctor (w_state w)) →
  _RP_init fuel files maps t0 size w = Ok (x, w') → written ls N false None (w_state w').
Proof using Hok Hheap Hroot Hend.
  intros Hf M0 M1 M2 H E. unfold _RP_init in E. rewrite !Hf, M0, M1, M2 in E.
  apply bind_inv in E as (sc & w0 & E0 & E). apply st_lift_inv in E0 as ->.
  run_in E. destruct (_ && _); [|done]. cbv zeta in E.
  apply bind_inv in E as ([] & w1 & E1 & E). apply on_state_inv, st_mod_inv in E1.
  assert (opened ls N 0 (three a0 a1 a2) (w_state w1)) as H1.
  { rewrite E1. constructor; [done| |done]. intros j. rewrite decide_False by lia.
    destruct j as [|[|[|j]]]; [done..|]. unfold rget. cbn. by destruct j. }
  assert (cur_idx (rgs (w_state w1)) = 0%nat) as I1 by (by rewrite E1).
  apply bind_inv in E as ([] & w2 & E2 & E). apply on_state_inv in E2.
  apply (create_opened ls N 0 (three a0 a1 a2)) in E2 as [I2 H2]; [|unfold LAST_IDX; lia|done..].
  apply bind_inv in E as ([] & w3 & E3 & E). apply on_state_inv in E3.
  apply (create_opened ls N 1 (three a0 a1 a2)) in E3 as [I3 H3]; [|unfold LAST_IDX; lia|done..].
  apply bind_inv in E as (t & w4 & E4 & E). apply create_for_written in E4; [|done..].
  run_in E. injection E as <- <-. exact E4.
Qed.
End New.

(** [_RP_init] of a new heap leaves its metadata durable. *)
Lemma RP_init_durable fuel files maps t0 size a0 a1 a2 w :
  (∀ i, files i = None) → maps DESC_IDX = Some a0 → maps SB_IDX = Some a1 → maps META_IDX = Some a2 →
  new_heap_ok size a0 a1 a2 → t_caches (w_state w) = ∅ → (1 ≤ fuel)%nat → plog (w_state w) = [] →
  wp (_RP_init fuel files maps t0 size) (λ _ w',
    durable (rgs (w_state w')) (snapshot (set_rgs Regions_ctor (w_state w))) (w_state w')) w.
Proof.
  intros Hf M0 M1 M2 Hok Hc Hfu Hl. set (N := snapshot _).
  pose proof (RP_init_new fuel files maps t0 size a0 a1 a2 w Hf M0 M1 M2 Hok Hc Hfu) as Hn.
  unfold wp in Hn |- *. destruct (_RP_init fuel files maps t0 size w) as [[x w']| |] eqn:E; [|done..].
  destruct Hn as (_ & _ & _ & _ & _ & _ & s & Hs & Hg). split; [reflexivity|].
  assert (written (lines_of (rgs (w_state w'))) N false None (set_rgs Regions_ctor (w_state w))) as H0.
  { apply written_start; [exact Hl|reflexivity..]. }
  refine (RP_init_written size a0 a1 a2 Hok (lines_of (rgs (w_state w'))) N _ _ _ fuel files maps t0 w x w' Hf M0 M1 M2 H0 E).
  - intros c. rewrite Hg. unfold rg_init, grown. rewrite Hs. reflexivity.
  - intros c. rewrite Hg. unfold rg_init, grown. rewrite Hs. reflexivity.
  - intros i. rewrite Hg. unfold rg_init, grown. rewrite Hs. destruct i as [|[|[|i]]]; [reflexivity..|].
    unfold rget. cbn. by destruct i.
Qed.
End World.
