(* ===== verification/PropsHeap.v ===== *)
(** * Properties of the allocator

    The contract of [do_malloc], [do_free] and the functions built on them, each
    with an instance at the concrete heap of Sample.v. *)

From Stdlib Require Import ZArith Lia.
From stdpp Require Import base gmap numbers functions list.
From S2P Require Import Prelude Mem Config Pptr SizeClass Region Meta MetaFacts TCache Heap BaseMeta Inv Ghost Rep Trans SbSpec CacheSpec FlushSpec AllocSpec InitSpec Refine Api Roots Trace ProcSpec Sample.

Local Open Scope Z_scope.
#[local] Set Warnings "-clear-no-such-hyp".

(** ** Allocation and deallocation *)

(** C1. [do_malloc], with fuel that covers every loop: unless the heap has no room
    for the request, it returns a block of the size of its class (rounded up to
    superblocks when large), 8-aligned, apart from every block in use; those keep
    their contents, and the heap stays consistent. *)
Theorem do_malloc_correct db sb mb (HG : geom db sb mb) L s t size fuel :
  heap_rep db sb mb L s → 0 ≤ size ≤ MAX_REQUEST → (enough_fuel ≤ fuel)%nat →
  wpe (do_malloc fuel t size) (λ p s', let z := usable_size size in
    size ≤ z ∧ p mod 8 = 0 ∧ apart L p z ∧
    heap_rep db sb mb (<[p := z]> L) s' ∧ same_on L (smem s) (smem s') ∧ roots s' = roots s)
    (heap_full s size) s.
Proof. by apply ralloc_malloc_sized. Qed.

Lemma do_malloc_correct_witness :
  wp (do_malloc enough_fuel 3 1000) (λ p s', apart ∅ p 1024 ∧
    heap_rep sample_db sample_sb sample_mb {[p := 1024]} s') sample_heap.
Proof.
  refine (wp_mono _ _ _ _ (wpe_wp _ _ _ _ (do_malloc_correct _ _ _ sample_geom ∅ sample_heap 3 1000
    enough_fuel sample_heap_rep ltac:(split; discriminate) (Nat.le_refl _))
    (sample_room 1000 ltac:(split; discriminate))) _).
  assert (usable_size 1000 = 1024) as E by (vm_compute; reflexivity).
  cbn zeta. rewrite E. intros p s' (_ & _ & Hap & Hrep & _). exact (conj Hap Hrep).
Defined.

(** C2. [do_free] of a block in use by any thread succeeds (whatever caches and
    lists it goes through), removes exactly that block, and leaves the contents of
    the others. *)
Theorem do_free_correct db sb mb (HG : geom db sb mb) L s t p z fuel :
  heap_rep db sb mb L s → L !! p = Some z → (enough_fuel ≤ fuel)%nat →
  wp (do_free fuel t p) (λ _ s', heap_rep db sb mb (delete p L) s' ∧
    same_on (delete p L) (smem s) (smem s') ∧ roots s' = roots s) s.
Proof. by apply ralloc_free_ok. Qed.

Lemma do_free_correct_witness :
  wp (do_free enough_fuel 5 sample_ptr) (λ _ s',
    heap_rep sample_db sample_sb sample_mb ∅ s') sample_heap1.
Proof.
  destruct sample_malloc as (z & _ & Hrep).
  refine (wp_mono _ _ _ _ (do_free_correct _ _ _ sample_geom _ _ 5 sample_ptr z enough_fuel
    Hrep (lookup_singleton_eq _ _) (Nat.le_refl _)) _).
  intros _ s' (H & _). rewrite delete_singleton_eq in H. exact H.
Defined.

(** ** Programs *)

(** C3. Ralloc refines the abstract allocator, one whole call after the other: a
    sequence of calls that a program makes from any threads, none of them overlapping
    another, each chosen from the results of the earlier ones, and that keeps the rules
    (frees only blocks in use, accesses only inside them), is a run of the machine
    whose state is a set of disjoint blocks with contents, result by result; it can
    only stop at a request without room. *)
Theorem run_refines db sb mb (HG : geom db sb mb) fuel n prog x s :
  heap_rep db sb mb (ablocks x) s → (∀ a, in_blocks (ablocks x) a → load8 (smem s) a = amem x a) →
  behaves prog [] x → (enough_fuel ≤ fuel)%nat →
  let A := Ralloc_allocator db sb mb HG in
  wpe (run (A := A) fuel n prog []) (λ rs s', ∃ x', aruns prog [] x rs x' ∧ length rs = n ∧
    heap_rep db sb mb (ablocks x') s' ∧
    ∀ a, in_blocks (ablocks x') a → load8 (smem s') a = amem x' a)
    (∃ k rs s' t size, (k < n)%nat ∧ run (A := A) fuel k prog [] s = Ok (rs, s') ∧
       prog rs = Malloc t size ∧ heap_full s' size) s.
Proof.
  intros Hrep Hmem Hb Hf A.
  eapply wpe_mono; [apply (run_simulates (A := A) fuel n prog [] x s (conj Hrep Hmem) Hb Hf)| |].
  - intros rs s' (x' & Hr & Hl & Hrep' & Hmem'). exists x'. cbn [length] in Hl.
    split; [done|]. split; [lia|]. done.
  - intros (k & rs & s' & Hk & Er & t & size & Ep & Hfull). by exists k, rs, s', t, size.
Qed.

(** Thread 0 allocates 64 bytes and writes the first one; thread 1 reads it and
    frees the block. *)
Definition sample_prog (rs : list Z) : call :=
  match rs with
  | [] => Malloc 0 64
  | [p] => Write p 7
  | [_; p] => Read p
  | [_; _; p] => Free 1 p
  | _ => Free 1 0
  end.

Lemma aruns_length prog rs x rs' x' : aruns prog rs x rs' x' → (length rs ≤ length rs')%nat.
Proof. induction 1; cbn in *; lia. Qed.

Lemma sample_prog_behaves : behaves sample_prog [] (mkA ∅ (λ _, 0)).
Proof.
  intros rs x Hr. inversion Hr as [|? ? p x1 ? ? S1 R1]; subst; [by vm_compute|].
  inversion S1 as [L f t size p' z f' Hz Hm Hap Hag| | | | ]; subst. rewrite insert_empty in R1.
  assert (in_blocks {[p := z]} p) as Hin.
  { exists p, z. rewrite lookup_singleton_eq. split; [done|lia]. }
  inversion R1 as [|? ? r2 x2 ? ? S2 R2]; subst; [done|]. inversion S2; subst.
  inversion R2 as [|? ? r3 x3 ? ? S3 R3]; subst; [done|]. inversion S3; subst.
  inversion R3 as [|? ? r4 x4 ? ? S4 R4]; subst; [right; cbn; rewrite lookup_singleton_eq; eauto|].
  apply aruns_length in R4. by destruct rs as [|? [|? [|? [|? rs]]]]; cbn in R4; try lia; left.
Qed.

Lemma run_refines_witness :
  let A := Ralloc_allocator _ _ _ sample_geom in
  wpe (run (A := A) enough_fuel 4 sample_prog []) (λ rs s', ∃ x',
    aruns sample_prog [] (mkA ∅ (λ _, 0)) rs x' ∧ heap_rep sample_db sample_sb sample_mb (ablocks x') s')
    (∃ k rs s' t size, (k < 4)%nat ∧ run (A := A) enough_fuel k sample_prog [] sample_heap = Ok (rs, s') ∧
       sample_prog rs = Malloc t size ∧ heap_full s' size) sample_heap.
Proof.
  refine (wpe_mono _ _ _ _ _ _ (run_refines _ _ _ sample_geom enough_fuel 4 sample_prog (mkA ∅ (λ _, 0))
    sample_heap sample_heap_rep _ sample_prog_behaves (Nat.le_refl _)) _ (λ E, E)).
  - intros a (p & z & Hp & _). cbn [ablocks] in Hp. rewrite lookup_empty in Hp. discriminate Hp.
  - intros rs s' (x' & Hr & _ & Hrep & _). exists x'. exact (conj Hr Hrep).
Defined.

(** ** Cache flush, construction *)

(** C19. [public_flush_cache] returns every block cached by the thread to its
    superblock: its caches end empty, no other cache grows from empty, and the
    program's blocks and roots are untouched. *)
Theorem public_flush_cache_correct db sb mb (HG : geom db sb mb) L s t fuel :
  heap_rep db sb mb L s → (enough_fuel ≤ fuel)%nat →
  wp (public_flush_cache fuel t) (λ _ s', heap_rep db sb mb L s' ∧
    same_on L (smem s) (smem s') ∧ roots s' = roots s ∧
    (∀ c, 1 ≤ c < MAX_SZ_IDX → get_block_num s' t c = 0) ∧
    (∀ t' c, get_block_num s t' c = 0 → get_block_num s' t' c = 0)) s.
Proof.
  intros H Hf. unfold public_flush_cache.
  eapply wp_mono; [apply (public_flush_run db sb mb HG fuel t _ L s H Hf)|].
  - intros c Hc. apply elem_of_seqZ in Hc. lia.
  - cbn beta. intros _ s' (H1 & H2 & H3 & H4 & H5).
    split; [done|]. split; [done|]. split; [done|]. split; [|done]. intros c Hc. apply H4, elem_of_seqZ. lia.
Qed.

Lemma public_flush_cache_correct_witness :
  wp (public_flush_cache enough_fuel 0) (λ _ s',
    ∀ c, 1 ≤ c < MAX_SZ_IDX → get_block_num s' 0 c = 0) sample_heap1.
Proof.
  destruct sample_malloc as (z & _ & Hrep).
  refine (wp_mono _ _ _ _ (public_flush_cache_correct _ _ _ sample_geom _ _ 0 enough_fuel
    Hrep (Nat.le_refl _)) _).
  intros _ s' (_ & _ & _ & H & _). exact H.
Defined.

(** C20. [BaseMeta]'s constructor, on fresh regions with room for the first
    expansion, succeeds and yields a consistent heap without blocks in use and with
    all roots null; the superblock region then starts at the first superblock
    boundary behind the header page. *)
Theorem BaseMeta_ctor_correct db mb s fuel this :
  fresh db mb s → geom db (heap_start s) mb →
  heap_start s + SB_REGION_EXPAND_SIZE ≤ region_end s →
  region_end s < heap_start s + MAX_SB_REGION_SIZE → (1 ≤ fuel)%nat →
  wp (BaseMeta_ctor fuel this) (λ _ s', heap_rep db (heap_start s) mb ∅ s' ∧
    rlookup (rgs s') SB_IDX = heap_start s ∧
    ∀ i, 0 ≤ i < MAX_ROOTS → get_root_raw s' i = 0) s.
Proof.
  intros Hfr HG Hroom Hmax Hf.
  eapply wp_mono; [by apply (BaseMeta_ctor_inv db mb s Hfr HG Hroom Hmax)|].
  cbn beta. intros _ s' (H & _ & Hr & _). split; [by apply (ghost_init_rep _ _ _ EXPAND_SBS)|].
  split; [|done]. by apply (rlookup_sb db _ mb), H.
Qed.

Lemma BaseMeta_ctor_correct_witness :
  wp (BaseMeta_ctor 1 sample_mb) (λ _ s',
    heap_rep sample_db sample_sb sample_mb ∅ s') sample_fresh.
Proof.
  refine (wp_mono _ _ _ _ (BaseMeta_ctor_correct sample_db sample_mb sample_fresh 1 sample_mb
    sample_fresh_ok sample_geom _ _ _) _).
  - vm_compute. discriminate.
  - vm_compute. reflexivity.
  - exact (le_n 1).
  - intros _ s' (H & _). exact H.
Defined.

(** ** Queries and safety *)

(** For a block in use, [RP_malloc_size] reads its size and [RP_in_prange]
    answers 1. *)
Theorem malloc_size_correct db sb mb (HG : geom db sb mb) L s p z :
  heap_rep db sb mb L s → L !! p = Some z →
  let A := Ralloc_allocator db sb mb HG in
  RP_malloc_size (A := A) p s = Ok (z, s) ∧ RP_in_prange (A := A) s p = 1.
Proof.
  intros H Hp A. destruct (rep_lookup db sb mb HG L s p z H Hp) as [E1 E2].
  unfold RP_malloc_size, RP_in_prange, st_gets. cbn [al_size al_in_range A Ralloc_allocator].
  by rewrite E1, E2.
Qed.

Lemma malloc_size_correct_witness :
  ∃ z, 100 ≤ z ∧
    RP_malloc_size (A := Ralloc_allocator _ _ _ sample_geom) sample_ptr sample_heap1 = Ok (z, sample_heap1).
Proof.
  destruct sample_malloc as (z & Hz & Hrep). exists z. split; [exact Hz|].
  exact (proj1 (malloc_size_correct _ _ _ sample_geom _ _ sample_ptr z Hrep (lookup_singleton_eq _ _))).
Defined.

(** In a consistent heap the blocks in use are disjoint, non-null, at least a
    word long and inside user-space addresses. *)
Theorem blocks_disjoint db sb mb (HG : geom db sb mb) L s p z q w :
  heap_rep db sb mb L s → L !! p = Some z → L !! q = Some w →
  (p = q ∧ z = w ∨ p + z ≤ q ∨ q + w ≤ p) ∧ 0 < p ∧ 8 ≤ z ∧ p + z ≤ 2 ^ 47.
Proof.
  intros H Hp Hq. split; [|by apply (rep_sizes db sb mb HG L s)].
  destruct (decide (p = q)) as [->|Hne]; [left; split; congruence|right].
  pose proof (rep_disjoint db sb mb L s p z H Hp q w) as Hd.
  rewrite lookup_delete_ne in Hd by done. specialize (Hd Hq). lia.
Qed.

Lemma blocks_disjoint_witness : 0 < sample_ptr.
Proof.
  destruct sample_malloc as (z & _ & Hrep).
  exact (proj1 (proj2 (blocks_disjoint _ _ _ sample_geom _ _ sample_ptr z sample_ptr z Hrep
    (lookup_singleton_eq _ _) (lookup_singleton_eq _ _)))).
Defined.

(** A large request that the superblock region has no room for stops in the
    assertion of [expand_get_large_sb]. *)
Theorem do_malloc_large_oom db sb mb (HG : geom db sb mb) L s t size fuel :
  heap_rep db sb mb L s → MAX_SZ < size ≤ MAX_REQUEST → heap_full s size →
  do_malloc (S fuel) t size s = Fail.
Proof.
  intros (g & H & _) [Hlo Hhi] Hfull. destruct (large_sbs_spec size Hlo) as (E & Hk & Hsz).
  unfold MAX_REQUEST in Hhi. change SBSIZE with 65536 in *.
  unfold heap_full in Hfull. rewrite (proj2 (Z.ltb_lt _ _) Hlo) in Hfull.
  rewrite (region_curr_B db sb mb g s H) in Hfull. unfold do_malloc.
  rewrite (proj2 (Z.ltb_lt _ _) Hlo). change SBSIZE with (2 ^ 16).
  rewrite round_up_spec by lia. change (2 ^ 16) with 65536. rewrite E.
  unfold mbind, st_mbind, st_bind, st_lift. change SBSIZE with 65536 in Hfull.
  pose proof (alloc_large_block_oom db sb mb HG fuel g s (large_sbs size) H Hk) as Ho.
  unfold has_room in Ho. rewrite B_add in Ho. change SBSIZE with 65536 in Ho.
  rewrite Ho by lia. done.
Qed.

Lemma do_malloc_large_oom_witness :
  do_malloc 1 0 4000000000 sample_heap = Fail.
Proof.
  refine (do_malloc_large_oom _ _ _ sample_geom ∅ sample_heap 0 4000000000 0 sample_heap_rep _ _).
  - split; [reflexivity|discriminate].
  - unfold heap_full. destruct sample_heap_inv as (H & E & _). rewrite E.
    rewrite (region_curr_B _ _ _ _ _ H). vm_compute. reflexivity.
Defined.

(** ** Functions built on the allocator *)

(** C23. [RP_calloc], when the product does not wrap: a new block of at least
    [num*size] bytes, all of it zero, the other blocks untouched. *)
Theorem RP_calloc_correct {A : Allocator} L s t num size fuel :
  al_rep L s → 0 ≤ num → 0 ≤ size → num * size ≤ MAX_REQUEST → (enough_fuel ≤ fuel)%nat →
  wpe (RP_calloc true fuel t num size) (λ p s', ∃ z, num * size ≤ z ∧ apart L p z ∧
    al_rep (<[p := z]> L) s' ∧ same_on L (smem s) (smem s') ∧
    (∀ a, p ≤ a < p + z → load8 (smem s') a = 0)) (al_full s (num * size)) s.
Proof. by apply RP_calloc_spec. Qed.

Lemma RP_calloc_correct_witness :
  let A := Ralloc_allocator _ _ _ sample_geom in
  wp (RP_calloc (A := A) true enough_fuel 0 10 20) (λ p s', ∃ z, 200 ≤ z ∧
    ∀ a, p ≤ a < p + z → load8 (smem s') a = 0) sample_heap.
Proof.
  refine (wp_mono _ _ _ _ (wpe_wp _ _ _ _ (RP_calloc_correct (A := Ralloc_allocator _ _ _ sample_geom)
    ∅ sample_heap 0 10 20 enough_fuel sample_heap_rep ltac:(discriminate) ltac:(discriminate)
    ltac:(discriminate) (Nat.le_refl _)) (sample_room 200 ltac:(split; discriminate))) _).
  intros p s' (z & Hz & _ & _ & _ & H). exists z. exact (conj Hz H).
Defined.

(** C24. [RP_realloc] of a block in use to a larger size: a new block with the old
    contents in front; the old block is given up and the others are untouched. *)
Theorem RP_realloc_grow_correct {A : Allocator} L s t p old new_size fuel :
  al_rep L s → L !! p = Some old → old < new_size ≤ MAX_REQUEST → (enough_fuel ≤ fuel)%nat →
  wpe (RP_realloc true fuel t p new_size) (λ q s', ∃ z, new_size ≤ z ∧ apart L q z ∧
    al_rep (<[q := z]> (delete p L)) s' ∧ same_on (delete p L) (smem s) (smem s') ∧
    (∀ k, 0 ≤ k < old → load8 (smem s') (q + k) = load8 (smem s) (p + k)))
    (al_full s new_size) s.
Proof. by apply RP_realloc_grow. Qed.

Lemma RP_realloc_grow_correct_witness :
  let A := Ralloc_allocator _ _ _ sample_geom in
  ∃ z, wpe (RP_realloc (A := A) true enough_fuel 0 sample_ptr (z + 1)) (λ q s', ∃ z', z + 1 ≤ z' ∧
    heap_rep sample_db sample_sb sample_mb (<[q := z']> (delete sample_ptr {[sample_ptr := z]})) s')
    (heap_full sample_heap1 (z + 1)) sample_heap1.
Proof.
  destruct sample_malloc_exact as (z & Hz & Hmax & Hrep). exists z.
  refine (wpe_mono _ _ _ _ _ _ (RP_realloc_grow_correct (A := Ralloc_allocator _ _ _ sample_geom)
    _ sample_heap1 0 sample_ptr z (z + 1) enough_fuel Hrep (lookup_singleton_eq _ _) _
    (Nat.le_refl _)) _ (λ E, E)).
  - unfold MAX_REQUEST. change SBSIZE with 65536. lia.
  - intros q s' (z' & Hz' & _ & Hr & _). exists z'. exact (conj Hz' Hr).
Defined.

(** C33. Roots: a non-null block pointer stored with [set_root] (which returns the
    previous root) is what [get_root] returns, other roots keep their value, and
    the heap stays consistent. *)
Theorem root_roundtrip db sb mb (HG : geom db sb mb) L s p z i T fs :
  heap_rep db sb mb L s → L !! p = Some z → 0 ≤ i < MAX_ROOTS →
  wp (set_root p i) (λ old s', old = CrossPtr_get (rgs s) SB_IDX (get_root_raw s i) ∧
    heap_rep db sb mb L s' ∧
    get_root T i fs s' = Ok ((p, <[i := T]> fs), s') ∧
    ∀ j, j ≠ i → get_root_raw s' j = get_root_raw s j) s.
Proof. by apply set_root_run. Qed.

Lemma root_roundtrip_witness :
  wp (set_root sample_ptr 5) (λ _ s', get_root 1 5 ∅ s' = Ok ((sample_ptr, <[5 := 1%nat]> ∅), s')) sample_heap1.
Proof.
  destruct sample_malloc as (z & _ & Hrep).
  refine (wp_mono _ _ _ _ (root_roundtrip _ _ _ sample_geom _ _ sample_ptr z 5 1 ∅ Hrep
    (lookup_singleton_eq _ _) _) _).
  - split; [discriminate|reflexivity].
  - intros old s' (_ & _ & H & _). exact H.
Defined.
