(* ===== verification/PropsTypes.v ===== *)
(** * Properties of pointers, lists, regions and size classes

    Position-independent and counted pointers, the anchor word, the lock-free
    lists and the region allocator under interleaving, the address arithmetic
    between superblocks and descriptors, and the size-class tables. *)

From Stdlib Require Import ZArith Lia.
From stdpp Require Import base gmap numbers list.
From S2P Require Import Prelude Mem Config Pptr SizeClass Region RegionRace Meta MetaFacts Heap Inv SbSpec Treiber AnchorRace AnchorSpec.

Local Open Scope Z_scope.
#[local] Set Warnings "-clear-no-such-hyp".

(** Regions for the instances. *)
Definition demo_rg : Regions := mkRegions [] [2 ^ 32; 2 ^ 40; 2 ^ 33] 3.

Lemma demo_geom : geom (2 ^ 32) (2 ^ 40) (2 ^ 33).
Proof. constructor; vm_compute; (reflexivity || discriminate). Qed.

(** ** Lists and regions under interleaving *)

(** C21. The superblock free list and the partial lists as threads push and pop
    single descriptors concurrently, and write as they like to the links of those they
    own, with fewer than 2^34 pushes: the list stays well linked and
    without duplicates, no descriptor is both on it and owned by a thread, none
    appears or gets lost, and a pusher never finds its own descriptor at the head
    (the assertion of [heap_push_partial]). *)
Theorem lockfree_list_safe db sb mb (HG : geom db sb mb) rg (Hrg : rg_at rg db sb mb) l n s s' :
  kinv db rg l 0 s → ksteps rg n s s' → n < 2 ^ 34 →
  ∃ l' p, NoDup l' ∧ dchain db (k_link s') p l' ∧ k_load rg s' = PtrCnt p n ∧
    (∀ i, i ∈ l' → k_own s' !! D db i = None) ∧
    (∀ d, tracked db l' s' d ↔ tracked db l s d) ∧
    (∀ t d oh, k_pc s' !! t = Some (PushLink d oh) → k_own s' !! d = Some t ∧ get_ptr oh ≠ d).
Proof.
  intros H Hst Hn. destruct (ksteps_inv db sb mb HG rg Hrg l 0 n s s' H Hst) as (l' & H' & T); [lia|].
  destruct (kinv_head db sb mb HG rg Hrg _ _ _ H') as (p & _ & Hch & _ & El). exists l', p.
  split; [apply H'|]. split; [done|]. split; [exact El|].
  split; [by intros i Hi; destruct (ki_ok _ _ _ _ _ H' i Hi)|]. split; [done|].
  intros t d oh Ht. by destruct (ki_pc _ _ _ _ _ H' _ _ Ht) as (? & ? & ?).
Qed.

(** Descriptor 1 is pushed by thread 0 onto an empty list. *)
Definition demo_stack : stack := mkStack 0 ∅ ∅ {[D (2 ^ 32) 1 := 0%nat]}.

Lemma demo_stack_inv : kinv (2 ^ 32) demo_rg [] 0 demo_stack.
Proof.
  constructor.
  - done.
  - by exists 0.
  - constructor.
  - set_solver.
  - intros d t Hd. cbn [k_own demo_stack] in Hd. apply lookup_singleton_Some in Hd as [<- _]. by exists 1.
  - intros t p Hp. cbn [k_pc demo_stack] in Hp. by rewrite lookup_empty in Hp.
Qed.

Definition demo_stack1 : stack :=
  mkStack 0 ∅ (<[0%nat := PushLink (D (2 ^ 32) 1) (PtrCnt 0 0)]> ∅) (k_own demo_stack).

Definition demo_stack2 : stack :=
  mkStack 0 (<[D (2 ^ 32) 1 := atomic_pptr_store (D (2 ^ 32) 1) 0]> ∅)
    (<[0%nat := PushCas (D (2 ^ 32) 1) (PtrCnt 0 0)]> (k_pc demo_stack1)) (k_own demo_stack).

Definition demo_stack' : stack :=
  mkStack (acpc_store demo_rg DESC_IDX (PtrCnt (D (2 ^ 32) 1) 1)) (k_next demo_stack2)
    (delete 0%nat (k_pc demo_stack2)) (delete (D (2 ^ 32) 1) (k_own demo_stack)).

Lemma demo_push : ksteps demo_rg 1 demo_stack demo_stack'.
Proof.
  assert (kstep demo_rg 0 demo_stack demo_stack1) as H1.
  { exact (push_load demo_rg demo_stack 0 (D (2 ^ 32) 1) eq_refl (lookup_singleton_eq _ _)). }
  assert (kstep demo_rg 0 demo_stack1 demo_stack2) as H2.
  { exact (push_link demo_rg demo_stack1 0 (D (2 ^ 32) 1) (PtrCnt 0 0) (lookup_insert_eq _ _ _)). }
  assert (kstep demo_rg 1 demo_stack2 demo_stack') as H3.
  { refine (push_cas demo_rg demo_stack2 0 (D (2 ^ 32) 1) (PtrCnt 0 0) false _ (PtrCnt 0 0)
      (lookup_insert_eq _ _ _) _). vm_compute. reflexivity. }
  exact (ksteps_more _ 0 1 _ _ _ (ksteps_more _ 0 0 _ _ _ (ksteps_more _ 0 0 _ _ _
    (ksteps_refl _ _) H1) H2) H3).
Qed.

Lemma lockfree_list_safe_witness :
  ∃ l' p, dchain (2 ^ 32) (k_link demo_stack') p l' ∧ k_load demo_rg demo_stack' = PtrCnt p 1.
Proof.
  destruct (lockfree_list_safe _ _ _ demo_geom demo_rg eq_refl [] 1 demo_stack demo_stack'
    demo_stack_inv demo_push eq_refl) as (l' & p & _ & H1 & H2 & _).
  exists l', p. exact (conj H1 H2).
Defined.

(** C4. A small superblock, from a free one with a constructed descriptor, under any
    interleaving of threads that flush blocks into it, take its free blocks, retire
    it and start it anew for any size class, with weak compare-and-swaps and an
    anchor without a counter: no assertion fails; the descriptor is on at most one
    list, once, and on the list of free superblocks only when nobody has a block;
    while somebody has one, each block is either somebody's or on the list that
    the anchor heads; a step takes no block from another thread and gives the
    stepping thread only blocks that nobody has; and a thread left alone finishes
    within six steps. *)
Theorem anchor_race_safe db sb mb (HG : geom db sb mb) rg (Hrg : rg_at rg db sb mb)
    i (Hi : 0 < i < MAX_DESC_AMOUNT) m tr r :
  aruns rg (D db i) tr (free_sb m) = Some r →
  ∃ s, r = Ok s ∧
    (length (a_partial s) + a_free s ≤ 1)%nat ∧ ((0 < a_free s)%nat → a_own s = ∅) ∧
    (∀ b t, a_own s !! b = Some t → ∃ c fl, 1 ≤ c < MAX_SZ_IDX ∧ anchor_rep sb i c fl (a_anchor s) ∧
       chain (a_mem s) (from_option id 0 (head fl)) fl ∧ NoDup fl ∧
       ∀ x, (x ∈ fl ↔ x ∈ blocks sb i c ∧ a_own s !! x = None) ∧ (is_Some (a_own s !! x) → x ∈ blocks sb i c)) ∧
    (∀ t a r', astep rg (D db i) t a s = Some r' → ∃ s', r' = Ok s' ∧ honest t s s') ∧
    (∀ t, ∃ n s', (n ≤ 6)%nat ∧ aruns rg (D db i) (replicate n (t, Advance false)) s = Some (Ok s') ∧
       a_pc s' !! t = None).
Proof.
  intros E. destruct (aruns_ok db sb mb HG rg Hrg i Hi tr _ _ _ _ (free_sb_ok db sb mb i m) E)
    as (s & ph & pl & -> & H). pose proof H as [[El1 El2] Hph _ _]. exists s. split; [done|].
  split; [|split; [|split; [|split]]].
  - rewrite El1, El2. destruct pl; cbn; try lia. destruct ph as [[c fl]|]; cbn; lia.
  - rewrite El2. destruct pl; try lia. destruct ph as [[c fl]|]; [by destruct Hph as (_ & _ & ?)|by destruct Hph].
  - intros b t Hb. destruct ph as [[c fl]|]; [|destruct Hph as [Eo _]; by rewrite Eo, lookup_empty in Hb].
    destruct Hph as ([S1 (_ & _ & _ & _ & S2) S3 S4 S5 S6] & _). exists c, fl. split_and!; try done; try lia.
    intros x. split; [apply S5|]. intros [u Hu]. by eapply S6.
  - intros t a r' Ea. destruct (astep_ok db sb mb HG rg Hrg i Hi _ _ _ _ _ _ H Ea) as (s' & _ & _ & -> & _ & Hh).
    by exists s'.
  - intros t. by apply (finishes_alone db sb mb HG rg Hrg i Hi t 6 s ph pl H), rank_bound.
Qed.

(** Superblock 1 for the largest class, of four blocks: thread 0 starts it and gives
    a block to thread 1; both flush from the full superblock, thread 1 loses and
    tries again; then thread 1 takes the superblock from the partial list, and
    thread 0 makes it empty before thread 1 reserves: thread 1 retires it. *)
Definition race_blk (k : Z) : Z := blk (2 ^ 40) 1 39 k.
Definition race_go (t : nat) (n : nat) : list (nat * act) := replicate n (t, Advance false).
Definition race_trace : list (nat * act) :=
  [(0%nat, PopFree 39)] ++ race_go 0 2 ++ [(0%nat, Give (race_blk 1) 1%nat); (1%nat, StartFlush [race_blk 1])] ++
  race_go 1 2 ++ [(0%nat, StartFlush [race_blk 0])] ++ race_go 0 4 ++ race_go 1 3 ++ [(1%nat, PopPartial 39)] ++
  race_go 1 1 ++ [(0%nat, StartFlush [race_blk 2; race_blk 3])] ++ race_go 0 3 ++ race_go 1 4.

Lemma anchor_race_safe_witness :
  ∃ s, aruns demo_rg (D (2 ^ 32) 1) race_trace (free_sb ∅) = Some (Ok s) ∧ a_free s = 1%nat ∧ a_own s = ∅.
Proof.
  destruct (aruns demo_rg (D (2 ^ 32) 1) race_trace (free_sb ∅)) as [r|] eqn:E; [|vm_compute in E; discriminate E].
  destruct (anchor_race_safe _ _ _ demo_geom demo_rg eq_refl 1 (conj eq_refl eq_refl) ∅ race_trace r E)
    as (s & -> & _ & Hfree & _). exists s. split; [reflexivity|].
  assert (a_free s = 1%nat) as Ef by (vm_compute in E; injection E as <-; reflexivity).
  split; [exact Ef|]. apply Hfree. rewrite Ef. apply Nat.lt_0_1.
Defined.

(** C22. [__nvm_region_allocator] called by any number of threads, interleaved
    between load and compare-and-swap: the areas it hands out lie inside the file
    and never overlap. *)
Theorem region_areas_disjoint r c x :
  region_at r c → race_steps (mkRace r ∅ []) x →
  (∀ i j a b a' b', rc_areas x !! i = Some (a, b) → rc_areas x !! j = Some (a', b') → i ≠ j →
     b ≤ a' ∨ b' ≤ a) ∧
  (∀ a b, (a, b) ∈ rc_areas x → base_addr r ≤ a ∧ a < b ∧ b ≤ base_addr r + FILESIZE r).
Proof.
  intros H Hs. destruct (race_steps_inv _ _ _ _ _ (race_start_inv r c H) Hs) as (c' & _ & [I1 I2 I3 I4 I5]).
  destruct I3 as (_ & _ & _ & _ & Hr). rewrite I1, I2 in Hr. split.
  - intros i j a b a' b' Hi Hj Hne. by eapply stacked_disjoint.
  - intros a b Hin. destruct (stacked_in _ _ _ _ _ I5 Hin) as (? & ? & ?). lia.
Qed.

Definition demo_region : RegionManager :=
  mkRegion (2 ^ 20) (2 ^ 40) (RegionFile (to_pptr_off (2 ^ 40 + 4096) (2 ^ 40)) 0 (2 ^ 20)) true.

Definition demo_race : race :=
  mkRace (set_curr demo_region (to_pptr_off (2 ^ 40 + 65600) (2 ^ 40)))
    (delete 0%nat (<[0%nat := mkPending demo_region (2 ^ 16) 64]> ∅))
    [(2 ^ 40 + 65536, 2 ^ 40 + 65600)].

Lemma region_areas_disjoint_witness :
  rc_areas demo_race = [(2 ^ 40 + 65536, 2 ^ 40 + 65600)] ∧ 2 ^ 40 + 65600 ≤ 2 ^ 40 + 2 ^ 20.
Proof.
  split; [reflexivity|].
  refine (proj2 (proj2 (proj2 (region_areas_disjoint demo_region (2 ^ 40 + 4096) demo_race _ _)
    (2 ^ 40 + 65536) (2 ^ 40 + 65600) (list_elem_of_here _ _)))).
  - repeat split; vm_compute; (reflexivity || discriminate).
  - eapply race_more; [eapply race_more; [apply race_refl|]|].
    + apply (race_load demo_region ∅ [] 0 16 64); split; (reflexivity || discriminate).
    + refine (race_cas demo_region _ [] 0 (mkPending demo_region (2 ^ 16) 64) 1 (Some (2 ^ 40 + 65536)) _
        (lookup_insert_eq _ _ _) _). vm_compute. reflexivity.
Defined.

(** ** Position-independent pointers *)

(** C28. A [pptr] to a user-space address decodes to it, is recognised as valid,
    tests as null exactly for the null pointer, and fits in 64 bits. *)
Theorem pptr_roundtrip v p :
  addr_ok v → addr_ok p →
  from_pptr_off (to_pptr_off v p) p = v ∧ is_valid_pptr (to_pptr_off v p) = true ∧
  (is_null_pptr (to_pptr_off v p) = true ↔ v = 0) ∧ 0 ≤ to_pptr_off v p < 2 ^ 64.
Proof.
  intros Hv Hp. split; [by apply from_to_pptr|]. split; [|split; [|by apply to_pptr_range]].
  - rewrite to_pptr_off_arith by done. unfold addr_ok in *. destruct (Z.eqb_spec v 0); [done|].
    destruct (Z.ltb_spec p v); by rewrite is_valid_pptr_arith by (unfold PPTR_PATTERN_POS, PPTR_PATTERN_NEG; lia).
  - unfold is_null_pptr. rewrite Z.eqb_eq. split; [|by intros ->].
    intros E. rewrite <- (from_to_pptr v p) by done. by rewrite E.
Qed.

Lemma pptr_roundtrip_witness : from_pptr_off (to_pptr_off 4096 8192) 8192 = 4096.
Proof. refine (proj1 (pptr_roundtrip 4096 8192 _ _)); split; (discriminate || reflexivity). Defined.

(** C29. Position independence: when cell and target are mapped [d] bytes away, the
    unchanged word decodes to the moved target, and null stays null; copying a cell
    to another address keeps its target. *)
Theorem pptr_relocation v p d p' :
  addr_ok v → addr_ok p → addr_ok p' → 0 ≤ v + d < 2 ^ 64 →
  from_pptr_off (to_pptr_off v p) (p + d) = (if v =? 0 then 0 else v + d) ∧
  from_pptr_off (pptr_copy p' p (to_pptr_off v p)) p' = v.
Proof.
  intros Hv Hp Hp' Hd. split.
  - destruct (Z.eqb_spec v 0) as [->|]; [done|]. by apply from_to_pptr_shift.
  - unfold pptr_copy. rewrite (from_to_pptr v p) by done. by apply from_to_pptr.
Qed.

Lemma pptr_relocation_witness : from_pptr_off (to_pptr_off 4096 8192) (8192 + 1000) = 5096.
Proof.
  refine (proj1 (pptr_relocation 4096 8192 1000 0 _ _ _ _)); split; (discriminate || reflexivity).
Defined.

(** [atomic_pptr]'s compare-and-swap on a cell that holds [c]: it succeeds
    exactly when [c] is the expected pointer and then holds the desired one;
    otherwise the cell is unchanged and the caller learns [c]. *)
Theorem atomic_pptr_cas_correct p c expected desired :
  addr_ok p → addr_ok c → addr_ok expected → addr_ok desired →
  atomic_pptr_cas p (atomic_pptr_store p c) expected desired =
    if decide (c = expected) then (true, atomic_pptr_store p desired, expected)
    else (false, atomic_pptr_store p c, c).
Proof.
  intros Hp Hc He Hd. unfold atomic_pptr_store. case_decide as E.
  - subst c. by apply cas_same.
  - by apply cas_other.
Qed.

Lemma atomic_pptr_cas_correct_witness :
  atomic_pptr_cas 64 (atomic_pptr_store 64 4096) 0 128 = (false, atomic_pptr_store 64 4096, 4096).
Proof. apply (atomic_pptr_cas_correct 64 4096 0 128); split; (discriminate || reflexivity). Defined.

(** ** Counted pointers and the anchor *)

(** C30. The head of a lock-free list: loading what was stored gives the pointer and
    the counter modulo 2^34; every 64-bit content is the encoding of what it
    loads as. *)
Theorem counted_ptr_roundtrip db sb mb (HG : geom db sb mb) rg (Hrg : rg_at rg db sb mb) p cnt raw :
  (p = 0 ∨ ∃ i, 0 < i < MAX_DESC_AMOUNT ∧ p = D db i) → 0 ≤ cnt → 0 ≤ raw < 2 ^ 64 →
  acpc_load rg DESC_IDX (acpc_store rg DESC_IDX (PtrCnt p cnt)) = PtrCnt p (cnt mod 2 ^ 34) ∧
  acpc_store rg DESC_IDX (acpc_load rg DESC_IDX raw) = raw.
Proof.
  intros Hp Hc Hr. split; [|by apply (acpc_pack_unpack db sb mb HG rg Hrg raw Hr)].
  unfold acpc_load, acpc_store. cbn [get_ptr get_counter]. destruct Hp as [->|(i & Hi & ->)].
  - by apply (acpc_unpack_null db sb mb HG rg Hrg).
  - by apply (acpc_unpack_pack db sb mb HG rg Hrg).
Qed.

Lemma counted_ptr_roundtrip_witness :
  acpc_load demo_rg DESC_IDX (acpc_store demo_rg DESC_IDX (PtrCnt (D (2 ^ 32) 7) (2 ^ 34 + 5))) =
    PtrCnt (D (2 ^ 32) 7) 5.
Proof.
  refine (proj1 (counted_ptr_roundtrip _ _ _ demo_geom demo_rg eq_refl _ (2 ^ 34 + 5) 0 _ _ _)).
  - right. exists 7. split; [split; reflexivity|reflexivity].
  - discriminate.
  - split; [discriminate|reflexivity].
Defined.

(** C31. Compare-and-swap on a counted pointer holding [(p, c)]: it succeeds exactly
    when the expected pointer is [p] and the expected counter is [c] modulo 2^34
    (so a head that was popped and pushed back in between is detected until the
    counter wraps); on failure the caller learns [(p, c mod 2^34)]. *)
Theorem counted_cas_correct db sb mb (HG : geom db sb mb) rg (Hrg : rg_at rg db sb mb) p c q k new :
  (p = 0 ∨ ∃ i, 0 < i < MAX_DESC_AMOUNT ∧ p = D db i) →
  (q = 0 ∨ ∃ i, 0 < i < MAX_DESC_AMOUNT ∧ q = D db i) → 0 ≤ c → 0 ≤ k →
  acpc_cas_strong rg DESC_IDX (acpc_store rg DESC_IDX (PtrCnt p c)) (PtrCnt q k) new =
    if decide (p = q ∧ c mod 2 ^ 34 = k mod 2 ^ 34) then (true, acpc_store rg DESC_IDX new, PtrCnt q k)
    else (false, acpc_store rg DESC_IDX (PtrCnt p c), PtrCnt p (c mod 2 ^ 34)).
Proof.
  intros Hp Hq Hc Hk. unfold acpc_cas_strong, acpc_cas_gen, acpc_store. cbn [get_ptr get_counter].
  assert (∀ x n, (x = 0 ∨ ∃ i, 0 < i < MAX_DESC_AMOUNT ∧ x = D db i) → 0 ≤ n →
    acpc_unpack rg DESC_IDX (acpc_pack rg DESC_IDX x n) = PtrCnt x (n mod 2 ^ 34)) as Hu.
  { intros x n [->|(i & Hi & ->)] Hn; [by apply (acpc_unpack_null db sb mb HG rg Hrg)|].
    by apply (acpc_unpack_pack db sb mb HG rg Hrg). }
  rewrite andb_true_r. destruct (Z.eqb_spec (acpc_pack rg DESC_IDX p c) (acpc_pack rg DESC_IDX q k)) as [E|E].
  - assert (PtrCnt p (c mod 2 ^ 34) = PtrCnt q (k mod 2 ^ 34)) as [= -> Ec] by (rewrite <- !Hu by done; by rewrite E).
    by rewrite decide_True.
  - rewrite decide_False; [by rewrite Hu|]. intros [-> Ec]. apply E.
    rewrite <- (acpc_pack_wrap rg q c), <- (acpc_pack_wrap rg q k) by done. by rewrite Ec.
Qed.

Lemma counted_cas_correct_witness :
  (acpc_cas_strong demo_rg DESC_IDX (acpc_store demo_rg DESC_IDX (PtrCnt 0 (2 ^ 34))) (PtrCnt 0 0) (PtrCnt 0 1)).1.1 = true.
Proof.
  rewrite (counted_cas_correct _ _ _ demo_geom demo_rg eq_refl 0 (2 ^ 34) 0 0 (PtrCnt 0 1)
    (or_introl eq_refl) (or_introl eq_refl) ltac:(discriminate) ltac:(discriminate)).
  rewrite decide_True by (split; reflexivity). reflexivity.
Defined.

(** The 64-bit anchor word: 31-bit [avail] and [count] and the 2-bit state are
    recovered from it, for every anchor whose fields are in range. *)
Theorem anchor_roundtrip a :
  anchor_ok a → Anchor_of_word (anchor_word a) = a ∧ 0 ≤ anchor_word a < 2 ^ 64.
Proof. intros H. split; [by apply anchor_of_word_word|by apply anchor_word_range]. Qed.

Lemma anchor_roundtrip_witness :
  Anchor_of_word (anchor_word (mkAnchor 5 8191 SB_PARTIAL)) = mkAnchor 5 8191 SB_PARTIAL.
Proof. refine (proj1 (anchor_roundtrip _ _)). repeat split; (discriminate || reflexivity). Defined.

(** ** Superblocks, descriptors, size classes *)

(** Superblocks and descriptors correspond: any address inside superblock [i]
    leads to descriptor [i], and that descriptor back to the superblock. *)
Theorem lookup_inverse db sb mb (HG : geom db sb mb) rg (Hrg : rg_at rg db sb mb) i p :
  0 ≤ i < MAX_DESC_AMOUNT → B sb i ≤ p < B sb (i + 1) →
  desc_lookup rg p = D db i ∧ sb_lookup rg (desc_lookup rg p) = B sb i.
Proof.
  intros Hi Hp. rewrite (desc_lookup_sb db sb mb HG rg Hrg i p Hi Hp). split; [done|].
  by apply (sb_lookup_D db sb mb HG rg Hrg).
Qed.

Lemma lookup_inverse_witness : sb_lookup demo_rg (desc_lookup demo_rg (2 ^ 40 + 70000)) = B (2 ^ 40) 1.
Proof.
  refine (proj2 (lookup_inverse _ _ _ demo_geom demo_rg eq_refl 1 _ _ _));
    split; (discriminate || reflexivity).
Defined.

(** After a restart the superblock region is only page-aligned. When its new
    address is not a multiple of the superblock size, the last byte of superblock 1
    is looked up in the descriptor of superblock 2. *)
Theorem restart_misaligned db sb mb rg :
  rg_at rg db sb mb → 0 < sb → sb + 3 * SBSIZE < 2 ^ 47 → 0 < db → db + 2 ^ 30 < 2 ^ 47 →
  sb mod SBSIZE ≠ 0 → desc_lookup rg (B sb 2 - 1) = D db 2.
Proof.
  intros Hrg Hsb Hmax Hdb Hdmax Hmod. unfold desc_lookup, rlookup. rewrite Hrg. cbn [nth SB_IDX DESC_IDX].
  unfold B. change SBSIZE with 65536 in *. change SB_SHIFT with 16.
  rewrite !Z.shiftr_div_pow2 by lia. change (2 ^ 16) with 65536.
  pose proof (Z.div_mod sb 65536 ltac:(lia)). pose proof (Z.mod_pos_bound sb 65536 ltac:(lia)).
  assert ((sb + 2 * 65536 - 1) / 65536 = sb / 65536 + 2) as ->.
  { symmetry. apply (Z.div_unique _ _ _ (sb mod 65536 - 1)); lia. }
  replace (sb / 65536 + 2 - sb / 65536) with 2 by lia. unfold D. change DESCSIZE with 64.
  rewrite (u64_small 2) by lia. apply u64_small. lia.
Qed.

Lemma restart_misaligned_witness :
  desc_lookup (mkRegions [] [2 ^ 32; 2 ^ 40 + 4096; 2 ^ 33] 3) (B (2 ^ 40 + 4096) 2 - 1) = D (2 ^ 32) 2.
Proof.
  refine (restart_misaligned (2 ^ 32) (2 ^ 40 + 4096) (2 ^ 33)
    (mkRegions [] [2 ^ 32; 2 ^ 40 + 4096; 2 ^ 33] 3) eq_refl _ _ _ _ _);
    (reflexivity || (vm_compute; discriminate)).
Defined.

(** C26. The constructor of [SizeClass] terminates and fills its table so that every
    small request gets the smallest class that is large enough. *)
Theorem size_class_least size :
  0 ≤ size ≤ MAX_SZ →
  ∃ tab, SizeClass_ctor = Ok tab ∧ let c := get_sizeclass_in tab size in
    1 ≤ c < MAX_SZ_IDX ∧ size ≤ block_size (get_sizeclass_by_idx c) ∧
    ∀ c', 1 ≤ c' < MAX_SZ_IDX → size ≤ block_size (get_sizeclass_by_idx c') → c ≤ c'.
Proof.
  intros Hs. exists sizeclass_lookup. split; [apply ctor_ok|].
  destruct (get_sizeclass_in_facts sizeclass_lookup size) as (Hc & Hfit & Hleast).
  { by apply ctor_spec_all. }
  cbn zeta. set (c := get_sizeclass_in sizeclass_lookup size) in *.
  split; [done|]. split; [done|]. intros c' Hc' Hfit'.
  destruct (Z.le_gt_cases c c') as [|Hgt]; [done|]. destruct Hleast as [?|Hlt]; [lia|].
  destruct (decide (c' = c - 1)) as [->|Hne]; [lia|].
  pose proof (block_size_mono c' (c - 1)). lia.
Qed.

Lemma size_class_least_witness : ∃ tab, SizeClass_ctor = Ok tab ∧ get_sizeclass_in tab 100 ≤ 11.
Proof.
  assert (1 ≤ 11 < MAX_SZ_IDX) as H1 by done.
  assert (100 ≤ block_size (get_sizeclass_by_idx 11)) as H2 by (vm_compute; discriminate).
  assert (0 ≤ 100 ≤ MAX_SZ) as H3 by done.
  destruct (size_class_least 100 H3) as (tab & E & _ & _ & Hl).
  exists tab. exact (conj E (Hl 11 H1 H2)).
Defined.

(** C27. [compute_idx] on an address inside a superblock: the division through the
    switch over the classes equals the division by the class's block size, all its
    assertions hold, and it is the inverse of the block's address. *)
Theorem compute_idx_correct superblock block c k :
  1 ≤ c < MAX_SZ_IDX → superblock ≤ block < superblock + SBSIZE →
  compute_idx superblock block c = Ok ((block - superblock) / block_size (get_sizeclass_by_idx c)) ∧
  (block = superblock + k * block_size (get_sizeclass_by_idx c) → compute_idx superblock block c = Ok k).
Proof.
  intros Hc Hb. split; [by apply compute_idx_div|]. intros ->.
  rewrite compute_idx_div by done. destruct (sc_facts c Hc) as (? & _).
  rewrite Z.add_simpl_l, Z.div_mul by lia. done.
Qed.

Lemma compute_idx_correct_witness : compute_idx 65536 (65536 + 7 * 8) 1 = Ok 7.
Proof.
  refine (proj2 (compute_idx_correct 65536 (65536 + 7 * 8) 1 7 _ _) _).
  - split; (discriminate || reflexivity).
  - split; (discriminate || reflexivity).
  - vm_compute. reflexivity.
Defined.

(** ** Regions *)

(** [__nvm_region_allocator] by a thread alone, for the alignments and sizes it
    is called with: the aligned area behind the current end when it fits in the
    file, and otherwise a refusal that changes nothing. *)
Theorem region_allocator_alone r c k size :
  region_at r c → 3 ≤ k < 48 → 0 < size < 2 ^ 62 →
  let start := align_up c (2 ^ k) in
  match __nvm_region_allocator r (rf_curr (rfile r)) (2 ^ k) size with
  | (code, o, raw) =>
      if start + size <=? base_addr r + FILESIZE r
      then code = 1 ∧ o = Some start ∧ region_at (set_curr r raw) (start + size)
      else code = -1 ∧ o = None ∧ raw = rf_curr (rfile r)
  end ∧ c ≤ start < c + 2 ^ k ∧ start mod 2 ^ k = 0.
Proof.
  intros H Hk Hs start. assert (0 < 2 ^ k) as Hp by (apply Z.pow_pos_nonneg; lia).
  destruct (align_up_spec c (2 ^ k) Hp) as [Hst Hmod]. fold start in Hst, Hmod.
  rewrite (nvm_alloc_alone r c k size H Hk Hs). fold start. split; [|by split].
  destruct (Z.leb_spec (start + size) (base_addr r + FILESIZE r)); [|done].
  split; [done|]. split; [done|]. apply (region_at_set_curr r c); [done|].
  destruct H as (_ & _ & _ & _ & ?). lia.
Qed.

Lemma region_allocator_alone_witness :
  __nvm_region_allocator demo_region (rf_curr (rfile demo_region)) 65536 64 =
    (1, Some (2 ^ 40 + 65536), to_pptr_off (2 ^ 40 + 65600) (2 ^ 40)).
Proof.
  pose proof (region_allocator_alone demo_region (2 ^ 40 + 4096) 16 64) as [H _].
  - repeat split; vm_compute; (reflexivity || discriminate).
  - split; (reflexivity || discriminate).
  - split; reflexivity.
  - vm_compute in H |- *. reflexivity.
Defined.

(** Storing a null pointer in a root with [CrossPtr]'s assignment (instead of
    [nullptr]) stores minus the region's address: the root does not test as null,
    reads as null only while the region stays where it is, and reads as the
    displacement after the region is mapped elsewhere. *)
Theorem null_assignment_not_null rg rg' idx :
  0 < rlookup rg idx < 2 ^ 64 → 0 ≤ rlookup rg' idx - rlookup rg idx < 2 ^ 64 →
  let off := CrossPtr_assign rg idx 0 in
  CrossPtr_is_null off = false ∧ CrossPtr_get rg idx off = 0 ∧
  CrossPtr_get rg' idx off = rlookup rg' idx - rlookup rg idx.
Proof.
  intros Hb Hb' off. assert (off = 2 ^ 64 - rlookup rg idx) as Eoff.
  { unfold off, CrossPtr_assign, untranslate, u64. rewrite <- (Z.mod_add _ 1) by lia.
    rewrite Z.mod_small by lia. lia. }
  assert (CrossPtr_is_null off = false) as Hn by (apply Z.eqb_neq; lia).
  split; [done|]. unfold CrossPtr_get. rewrite Hn. unfold translate, u64. rewrite Eoff. split.
  - replace (rlookup rg idx + (2 ^ 64 - rlookup rg idx)) with (1 * 2 ^ 64) by lia. by apply Z.mod_mul.
  - replace (rlookup rg' idx + (2 ^ 64 - rlookup rg idx))
      with ((rlookup rg' idx - rlookup rg idx) + 1 * 2 ^ 64) by lia.
    rewrite Z.mod_add by lia. apply Z.mod_small. lia.
Qed.

Lemma null_assignment_not_null_witness :
  CrossPtr_is_null (CrossPtr_assign demo_rg SB_IDX 0) = false.
Proof.
  refine (proj1 (null_assignment_not_null demo_rg (mkRegions [] [0; 2 ^ 41; 0] 3) SB_IDX _ _));
    split; (reflexivity || discriminate).
Defined.
