(* ===== verification/PropsRecovery.v ===== *)
(** * Properties of recovery

    What the mark phase computes, what garbage collection makes of a crashed
    heap, and when the dirty flag asks for it. *)

From Stdlib Require Import ZArith Lia.
From stdpp Require Import base gmap numbers functions list.
From S2P Require Import Prelude Mem Config Pptr SizeClass Region Meta MetaFacts TCache Heap BaseMeta Inv SbSpec Refine Api Roots Dirty GC GCMark Recovery Sample.

Local Open Scope Z_scope.
#[local] Set Warnings "-clear-no-such-hyp".

(** C5. Garbage collection after a crash: when every non-null root has a filter and
    everything reachable is the address of a block that was in use, it succeeds on
    whatever the crash left of the transient data; the marked blocks, which contain
    the roots and are closed under the filters, are in use again with their sizes
    and contents, every other block is free, nothing is cached, roots are kept. *)
Theorem gc_run_correct db sb mb (HG : geom db sb mb) uf fs fuel L s s' :
  heap_rep db sb mb L s → crash_image L s s' →
  (∀ i, 0 ≤ i < MAX_ROOTS → CrossPtr_is_null (get_root_raw s i) = false → is_Some (fs !! i)) →
  (∀ a T, reach uf (gc_start s') fs a T → is_Some (L !! a)) →
  (enough_fuel ≤ fuel)%nat → (range_size (gc_start s') < fuel)%nat →
  wp (gc_run uf fuel fs) (λ K s2, marked_set uf (gc_start s') fs K ∧
    heap_rep db sb mb (survivors K L) s2 ∧ same_on (survivors K L) (smem s) (smem s2) ∧
    (∀ t c, get_block_num s2 t c = 0) ∧ ∀ i, get_root_raw s2 i = get_root_raw s i) s'.
Proof.
  intros H Hcr Hfs Hr Hf1 Hf2. eapply wp_mono; [by apply (gc_run_ok db sb mb HG uf fs fuel L s s')|].
  intros K s2 (HK & [R1 R2 R3 R4 R5]). split; [done|]. split; [done|]. split; [done|]. by split.
Qed.

(** The heap of the sample with root 3 set, and what a crash leaves of it. *)
Lemma sample_crash : ∃ s s' p z,
  heap_rep sample_db sample_sb sample_mb {[p := z]} s ∧ crash_image {[p := z]} s s' ∧
  CrossPtr_get (rgs s) SB_IDX (get_root_raw s 3) = p ∧
  (∀ j, 0 ≤ j < MAX_ROOTS → j ≠ 3 → get_root_raw s j = 0) ∧ p = sample_ptr ∧ s' = sample_crashed.
Proof.
  destruct sample_root_run as (z & Hrep & Hp & Hz). exists sample_rooted, sample_crashed, sample_ptr, z.
  split; [exact Hrep|]. split; [apply sample_crash_image|]. split; [exact Hp|]. split; [exact Hz|]. split; reflexivity.
Qed.

(** Only the block at root 3 is reachable. *)
Lemma crash_reach L s s' p a T :
  crash_image L s s' → CrossPtr_get (rgs s) SB_IDX (get_root_raw s 3) = p →
  (∀ j, 0 ≤ j < MAX_ROOTS → j ≠ 3 → get_root_raw s j = 0) →
  reach demo_filter (gc_start s') {[3 := 1%nat]} a T → a = p ∧ T = 1%nat.
Proof.
  intros [C1 C2 _ _ _ _] Hp Hz. destruct (gc_start_same s') as [E1 E2]. apply demo_reach.
  - by rewrite E1, E2, C1, C2.
  - intros j Hj Hne. rewrite E2, C2. by apply Hz.
Qed.

Lemma gc_run_correct_witness :
  ∃ fuel z, wp (gc_run demo_filter fuel {[3 := 1%nat]}) (λ K s2, ∀ p, p ∈ K → p = sample_ptr ∧
    heap_rep sample_db sample_sb sample_mb (survivors K {[sample_ptr := z]}) s2) sample_crashed.
Proof.
  destruct sample_crash as (s & s' & p & z & Hrep & Hcr & Hp & Hz & <- & <-).
  pose proof (crash_reach {[p := z]} s s' p) as Hreach.
  exists (Nat.max enough_fuel (S (range_size (gc_start s')))), z.
  refine (wp_mono _ _ _ _ (gc_run_correct _ _ _ sample_geom demo_filter {[3 := 1%nat]} _
    {[p := z]} s s' Hrep Hcr _ _ (Nat.le_max_l _ _) (Nat.le_max_r _ _)) _).
  - intros i Hi Hn. destruct (Z.eq_dec i 3) as [->|Hne]; [exists 1%nat; apply lookup_singleton_eq|].
    rewrite (Hz i Hi Hne) in Hn. discriminate Hn.
  - intros a T HT. destruct (Hreach a T Hcr Hp Hz HT) as [-> _]. exists z. apply lookup_singleton_eq.
  - intros K s2 (HK & H2 & _) q Hin. destruct (mk_reach _ _ _ _ HK q Hin) as [T HT].
    exact (conj (proj1 (Hreach q T Hcr Hp Hz HT)) H2).
Defined.

(** C6. The mark phase terminates, with fuel for the addresses of the superblock
    region, and, when no address is reachable at two types, marks exactly the
    addresses reachable from the roots by following the filters inside the region. *)
Theorem mark_exact uf s fs fuel :
  (range_size s < fuel)%nat →
  (∀ i, 0 ≤ i < MAX_ROOTS → CrossPtr_is_null (get_root_raw s i) = false → is_Some (fs !! i)) →
  (∀ a T U, reach uf s fs a T → reach uf s fs a U → T = U) →
  ∃ g, mark uf fuel s fs = Ok g ∧ to_filter g = [] ∧ ∀ a, a ∈ marked_blk g ↔ ∃ T, reach uf s fs a T.
Proof.
  intros Hf Hfs Hu. destruct (mark_ok uf s fs fuel Hf Hfs) as (g & E & En & _).
  destruct (mark_set uf s fs fuel Hf Hfs) as (g' & E' & HK). rewrite E in E'. injection E' as <-.
  exists g. split; [done|]. split; [done|]. by apply marked_set_exact.
Qed.

Lemma mark_exact_witness :
  ∃ fuel g, mark demo_filter fuel sample_crashed {[3 := 1%nat]} = Ok g ∧
    ∀ a, a ∈ marked_blk g → a = sample_ptr.
Proof.
  destruct sample_root_run as (z & Hrep & Hp & Hz).
  assert (∀ a T, reach demo_filter sample_crashed {[3 := 1%nat]} a T → a = sample_ptr ∧ T = 1%nat)
    as Hreach.
  { intros a T. apply demo_reach; [exact Hp|exact Hz]. }
  exists (S (range_size sample_crashed)).
  refine (match mark_exact demo_filter sample_crashed {[3 := 1%nat]} _ (Nat.lt_succ_diag_r _) _ _ with
    | ex_intro _ g (conj E (conj _ HK)) => ex_intro _ g (conj E _) end).
  - intros i Hi Hn. destruct (Z.eq_dec i 3) as [->|Hne]; [exists 1%nat; apply lookup_singleton_eq|].
    change (get_root_raw sample_crashed i) with (get_root_raw sample_rooted i) in Hn.
    rewrite (Hz i Hi Hne) in Hn. discriminate Hn.
  - intros a T U HT HU. rewrite (proj2 (Hreach a T HT)). symmetry. exact (proj2 (Hreach a U HU)).
  - intros b Hb. destruct (proj1 (HK b) Hb) as [T HT]. exact (proj1 (Hreach b T HT)).
Defined.

(** C7. The dirty flag in one thread of one process, whatever [pthread_mutex_trylock] answers on the
    mutex found in the file. On EOWNERDEAD and EINVAL recovery is told that the
    heap is dirty; on success, and when this thread holds the mutex already, that
    it is clean; in all these cases nothing aborts and the flag is held afterwards,
    so that asking again says clean, and so it does after the flag is given up.
    EBUSY and EAGAIN say clean without taking the flag; any other answer ends the
    process; [set_dirty] aborts exactly on EOWNERDEAD. *)
Theorem dirty_flag_correct {RM : RobustMutex} m :
  (reports_dirty m = true ∨ unlocked m ∨ locked m → ∃ m',
    recover_flag m = Ok (reports_dirty m, m') ∧ locked m' ∧
    (∃ m2, recover_flag m' = Ok (false, m2) ∧ locked m2) ∧
    (∃ m3, recover_flag (set_clean m') = Ok (false, m3) ∧ locked m3)) ∧
  (answer m = EBUSY ∨ answer m = EAGAIN → is_dirty m = Ok (false, (mx_trylock m).2)) ∧
  (answer m ∉ [0; EAGAIN; EBUSY; EINVAL; EOWNERDEAD] → recover_flag m = Fail) ∧
  (set_dirty m = Fail ↔ answer m = EOWNERDEAD).
Proof.
  split; [|split; [|split]].
  - intros H.
    assert (∃ m', recover_flag m = Ok (reports_dirty m, m') ∧ locked m') as (m' & E & Hl).
    { destruct (reports_dirty m) eqn:Er; [by apply recover_flag_yes|].
      apply recover_flag_no. by destruct H as [[=]|H]. }
    exists m'. split; [done|]. split; [done|]. split; [apply recover_flag_no; by right|].
    apply recover_flag_no. left. by apply set_clean_spec.
  - unfold is_dirty. fold (answer m). by intros [->| ->].
  - rewrite !not_elem_of_cons. intros (H0 & H1 & H2 & H3 & H4 & _). unfold recover_flag, is_dirty. fold (answer m).
    rewrite !(proj2 (Z.eqb_neq _ _)) by done. done.
  - unfold set_dirty. fold (answer m). destruct (Z.eqb_spec (answer m) EOWNERDEAD); naive_solver.
Qed.

Lemma dirty_flag_correct_witness :
  ∃ m', recover_flag (RM := simple_mutex) MxDead = Ok (true, m') ∧
    ∃ m2, recover_flag (RM := simple_mutex) m' = Ok (false, m2).
Proof.
  destruct (proj1 (dirty_flag_correct (RM := simple_mutex) MxDead) (or_introl eq_refl)) as (m' & E & _ & (m2 & E2 & _) & _).
  exists m'. split; [exact E|]. exists m2. exact E2.
Defined.
