(* ===== verification/PropsProcess.v ===== *)
(** * Properties of the life of a heap

    Creating a heap, closing it at exit and opening it elsewhere, reopening after
    a crash, the errors of opening. *)

From Stdlib Require Import ZArith Lia.
From stdpp Require Import base gmap numbers functions list.
From S2P Require Import Prelude Mem Config Pptr SizeClass Region Meta MetaFacts TCache Heap BaseMeta Inv Ghost Rep Trans SbSpec CacheSpec FlushSpec AllocSpec InitSpec Refine Api Roots Dirty GC GCMark Process Keeps Recovery Relocate ProcSpec Lifecycle Sample.

Local Open Scope Z_scope.
#[local] Set Warnings "-clear-no-such-hyp".

(** C8. [RP_init] of a new heap, with mappings that leave room, returns 0 and
    establishes a consistent heap without blocks in use and with all roots null,
    open and marked dirty, whatever the indeterminate local of the region
    constructor held; a second call, whatever it is given, changes nothing and
    returns the same. *)
Theorem RP_init_correct {RM : RobustMutex} fuel fuel2 files files2 maps maps2 t0 size size2 a0 a1 a2 w :
  (∀ i, files i = None) → maps DESC_IDX = Some a0 → maps SB_IDX = Some a1 → maps META_IDX = Some a2 →
  new_heap_ok size a0 a1 a2 → t_caches (w_state w) = ∅ → w_holder w = None → (1 ≤ fuel)%nat →
  wp (RP_init fuel files maps t0 size) (λ r w', r = 0 ∧ w_init w' = true ∧ locked (w_mtx w') ∧
    heap_rep (a0 + PAGESIZE) (align_up (a1 + PAGESIZE) SBSIZE) (a2 + PAGESIZE) ∅ (w_state w') ∧
    wired size (rgs (w_state w')) ∧
    (∀ i, 0 ≤ i < MAX_ROOTS → get_root_raw (w_state w') i = 0) ∧
    RP_init fuel2 files2 maps2 t0 size2 w' = Ok (0, w')) w.
Proof.
  intros H1 H2 H3 H4 H5 H6 Hh H7. unfold RP_init at 1. apply wp_bind, wp_get. rewrite Hh. apply wp_bind.
  eapply wp_mono; [by eapply RP_init_new|]. cbn beta. intros r w1 (-> & Hi & Hl & Hr & Hw & Hz & _).
  apply wp_bind, wp_mod, wp_ret. by split_and!.
Qed.

Definition demo_maps (d : Z) (i : nat) : option Z :=
  match i with 0%nat => Some (2 ^ 32 + d) | 1%nat => Some (2 ^ 40 + d) | _ => Some (2 ^ 42 + d) end.

Definition empty_world : world (RM := simple_mutex) :=
  mkWorld (RM := simple_mutex) (mkState ∅ ∅ 0 ∅ ∅ ∅ Regions_ctor []) MxFree false None ∅.

Lemma demo_new_heap : new_heap_ok (2 ^ 32) (2 ^ 32) (2 ^ 40) (2 ^ 42).
Proof. constructor; by split_and! || by constructor. Qed.

Lemma RP_init_correct_witness :
  wp (RP_init (RM := simple_mutex) 1 (λ _, None) (demo_maps 0) 77 (2 ^ 32)) (λ r w', r = 0 ∧ w_init w' = true) empty_world.
Proof.
  refine (wp_mono _ _ _ _ (RP_init_correct (RM := simple_mutex) 1 1 (λ _, None) (λ _, None) (demo_maps 0) (demo_maps 0) 77
    (2 ^ 32) 0 (2 ^ 32) (2 ^ 40) (2 ^ 42) empty_world _ _ _ _ demo_new_heap _ _ _) _); try done.
  cbn beta. intros r w' H. exact (conj (proj1 H) (proj1 (proj2 H))).
Defined.

(** ** Closing and reopening *)

Section Statements.
Context {RM : RobustMutex}.

(** The files [fs] of a heap last mapped at the bases of [rg], now mapped at a
    distance [dd], [d], [dm] from there. *)
Definition mapped_again (dd d dm : Z) (rg : Regions) (maps : mappings) : Prop :=
  ∀ i, (i < LAST_IDX)%nat → ∃ a, maps i = Some a ∧ 0 < a ∧ a = moved_by dd d dm i + base_addr (rget rg i).

(** [main] of the next process. *)
Definition reopen uf fuel (files : heap_files) (maps : mappings) (t0 size : Z) (rs : list (Z * nat))
  : ST world (Z * list Z * Z) :=
  r ← _RP_init fuel files maps t0 size;
  ps ← get_roots rs;
  dirty ← RP_recover uf fuel;
  mret (r, ps, dirty).
End Statements.

(** C9. Closing and reopening: after [exit] of the last thread, which holds the flag, a process that maps
    the files anywhere, with the superblock region aligned to a superblock, and
    whose first [pthread_mutex_trylock] on the flag succeeds, finds the heap clean
    and consistent: the same blocks in use, each displaced with its region, with
    the same sizes, and every root that pointed to a block pointing to the
    displaced block. The contents are the same but for the last byte of the
    superblock file, which reads 0 if it lies in a block. Assumed: no free block
    holds that byte, that is, the superblocks handed out end below it or it lies in
    a block in use. *)
Theorem reopen_after_exit {RM : RobustMutex} db sb mb dd d dm (HG : geom db sb mb)
    (HG' : geom (dd + db) (d + sb) (dm + mb)) L w t fuel size uf rs :
  let rg := rgs (w_state w) in
  heap_rep db sb mb L (w_state w) → wired size rg → w_init w = true → locked (w_mtx w) →
  (∀ t' c, t' ≠ t → get_block_num (w_state w) t' c = 0) →
  MIN_SB_REGION_SIZE + SBSIZE ≤ size < MAX_SB_REGION_SIZE → last_address_idle L rg →
  (enough_fuel ≤ fuel)%nat →
  (∀ i T, (i, T) ∈ rs → i < MAX_ROOTS ∧ is_Some (L !! root_value (w_state w) i)) →
  wp (exit_process fuel t) (λ files w1, unlocked (w_mtx w1) ∧ ∀ w2 maps t0,
    image dd d (w_state w1) (w_state w2) → unlocked (w_mtx w2) → mapped_again dd d dm rg maps →
    wp (reopen uf fuel (λ i, files !! i) maps t0 size rs) (λ x w3,
      x = (1, (λ iT, d + root_value (w_state w) iT.1) <$> rs, 0) ∧
      heap_rep (dd + db) (d + sb) (dm + mb) (kmap (Z.add d) L) (w_state w3) ∧
      (∀ a, in_blocks L a →
        load8 (smem (w_state w3)) (d + a) = if a =? last_address rg then 0 else load8 (smem (w_state w)) a) ∧
      wired size (rgs (w_state w3)) ∧ w_init w3 = true ∧ locked (w_mtx w3)) w2) w.
Proof.
  intros rg H Hw Hi Hl Ho Hsz Hidle Hf Hrs. eapply wp_mono; [by apply (exit_run db sb mb HG L)|]. cbn beta.
  intros files w1 [X1 X2 X3 X4 X6 X7 X8]. fold rg in X1, X6. split; [done|]. intros w2 maps t0 Him Hmx Hmaps.
  set (a := λ i, moved_by dd d dm i + base_addr (rget rg i)).
  assert (rg_at rg db sb mb) as Hrg by (destruct X1 as (g & HI & _); exact (iv_rg _ _ _ _ _ _ _ _ _ _ HI)).
  unfold reopen. apply wp_bind. eapply wp_mono.
  { apply (RP_init_old fuel _ maps t0 size rg a); [done|done|]. intros i Hlt. split.
    - rewrite X6. by eapply wired_file.
    - destruct (Hmaps i Hlt) as (x & E & _ & Ex). rewrite E. by rewrite Ex. }
  cbn beta. intros r w3 (-> & ->). apply wp_bind, get_roots_run; [done| |].
  { intros i T HiT. by destruct (Hrs i T HiT). }
  assert (∀ i T, (i, T) ∈ rs → root_value (set_rgs (reopened rg a) (remap_mem rg a (w_state w2))) i = d + root_value (w_state w) i)
    as Hroots.
  { intros i T HiT. apply (reopened_root_value db sb mb dd d dm HG HG' size rg Hw Hrg a (λ _ _, eq_refl) L); [done|done| |by eapply Hrs].
    intros j. change (get_root_raw (remap_mem rg a (w_state w2)) j) with (get_root_raw (w_state w2) j).
    unfold get_root_raw. rewrite (im_roots _ _ _ _ Him). congruence. }
  apply wp_bind, recover_clean; cbn [w_mtx set_init with_state]; [done|].
  intros m pl Hm. apply wp_ret. cbn [w_state w_mtx w_init set_init with_state].
  split; [|split; [|split; [|split; [|split]]]]; try done.
  - f_equal. f_equal. apply list_fmap_ext. intros k [i T] Hk. eapply Hroots. by eapply list_elem_of_lookup_2.
  - assert (heap_rep (dd + db) (d + sb) (dm + mb) (kmap (Z.add d) L)
      (set_rgs (reopened rg a) (remap_mem rg a (w_state w2))))
      as (g & HI & Hgs); [|by exists g].
    eapply (reopened_rep db sb mb); try done. by destruct (Hmaps SB_IDX ltac:(unfold SB_IDX, LAST_IDX; lia)) as (x & _ & Hx & ->).
  - intros x Hx. change (load8 (smem (remap_mem rg a (w_state w2))) (d + x) = loaded rg (smem (w_state w)) x).
    rewrite (remap_content dd d dm rg a (λ _ _, eq_refl) (w_state w1) (w_state w2) x (im_mem _ _ _ _ Him x)).
    unfold loaded. destruct (x =? last_address rg); [done|]. by apply X2.
  - by eapply reopened_wired.
Qed.

(** The world of the sample heap, and where it is mapped next. *)
Definition sample_world : world (RM := simple_mutex) :=
  mkWorld (RM := simple_mutex) sample_rooted MxHeld true (Some 0) ∅.

Definition moved_maps (rg : Regions) : mappings :=
  λ i, Some (moved_by (2 ^ 36) (2 ^ 42) (2 ^ 37) i + base_addr (rget rg i)).

Lemma sample_classes c : c ∈ seqZ 1 (MAX_SZ_IDX - 1) → 1 ≤ c < MAX_SZ_IDX.
Proof. intros Hc%elem_of_seqZ. change MAX_SZ_IDX with 40 in *. lia. Qed.

Lemma moved_geom : geom (2 ^ 36 + sample_db) (2 ^ 42 + sample_sb) (2 ^ 37 + sample_mb).
Proof. by constructor. Qed.

Lemma moved_maps_ok : mapped_again (2 ^ 36) (2 ^ 42) (2 ^ 37) (rgs sample_rooted) (moved_maps (rgs sample_rooted)).
Proof.
  intros i Hi. eexists. split; [reflexivity|]. split; [|reflexivity].
  rewrite (fixed_base _ _ i (proj1 sample_static)). destruct i as [|[|[|i]]]; [by vm_compute..|exfalso; unfold LAST_IDX in Hi; lia].
Qed.

(** The memory of the next process. *)
Definition next_state (dd d : Z) (s : state) : state :=
  let s' := move_state dd d Regions_ctor s in
  mkState (smem s') (descs s') (avail_sb s') (heaps s') (roots s') ∅ Regions_ctor [].

Lemma next_state_image dd d s : image dd d s (next_state dd d s).
Proof.
  destruct (move_state_remapped dd d Regions_ctor s) as [M1 M2 M3 M4 M5 _]. by constructor.
Qed.

Lemma sample_size_ok : MIN_SB_REGION_SIZE + SBSIZE ≤ sample_size < MAX_SB_REGION_SIZE.
Proof. by split. Qed.

Lemma sample_idle L :
  heap_rep sample_db sample_sb sample_mb L sample_rooted → last_address_idle L (rgs sample_rooted).
Proof.
  intros H. apply (uneven_end_idle _ _ _ sample_geom L _ H).
  pose proof (fixed_rget _ _ SB_IDX (proj1 sample_static)) as E. unfold last_address.
  assert (base_addr (rget (rgs sample_rooted) SB_IDX) = base_addr (rget (rg_init sample_fresh) SB_IDX)) as -> by (unfold fixed in E; congruence).
  assert (FILESIZE (rget (rgs sample_rooted) SB_IDX) = FILESIZE (rget (rg_init sample_fresh) SB_IDX)) as -> by (unfold fixed in E; congruence).
  vm_compute. discriminate.
Qed.

Lemma sample_root_in z :
  CrossPtr_get (rgs sample_rooted) SB_IDX (get_root_raw sample_rooted 3) = sample_ptr →
  is_Some (({[sample_ptr := z]} : gmap Z Z) !! root_value sample_rooted 3).
Proof. unfold root_value. intros ->. exists z. apply lookup_singleton_eq. Qed.

Lemma reopen_after_exit_witness :
  ∃ z, wp (exit_process (RM := simple_mutex) enough_fuel 0) (λ files w1,
    wp (reopen (RM := simple_mutex) demo_filter enough_fuel (λ i, files !! i) (moved_maps (rgs sample_rooted)) 0
         sample_size [(3, 1%nat)]) (λ x w3,
      x = (1, [2 ^ 42 + sample_ptr], 0) ∧
      heap_rep (2 ^ 36 + sample_db) (2 ^ 42 + sample_sb) (2 ^ 37 + sample_mb)
        (kmap (Z.add (2 ^ 42)) {[sample_ptr := z]}) (w_state w3))
      (mkWorld (RM := simple_mutex) (next_state (2 ^ 36) (2 ^ 42) (w_state w1)) (w_mtx w1) false None ∅))
    sample_world.
Proof.
  destruct sample_root_run as (z & Hrep & Hp & _). exists z.
  refine (wp_mono _ _ _ _ (reopen_after_exit (RM := simple_mutex) _ _ _ (2 ^ 36) (2 ^ 42) (2 ^ 37) sample_geom moved_geom
    {[sample_ptr := z]} sample_world 0%nat enough_fuel sample_size demo_filter [(3, 1%nat)] Hrep sample_wired
    eq_refl eq_refl sample_other_caches sample_size_ok (sample_idle _ Hrep) (Nat.le_refl _) _) _).
  - intros i T [= -> ->]%list_elem_of_singleton. exact (conj eq_refl (sample_root_in z Hp)).
  - cbn beta. intros files w1 [Hu H].
    refine (wp_mono _ _ _ _ (H (mkWorld (RM := simple_mutex) (next_state (2 ^ 36) (2 ^ 42) (w_state w1))
      (w_mtx w1) false None ∅) _ 0 (next_state_image _ _ _) Hu moved_maps_ok) _).
    intros x w3 (-> & H3 & _). exact (conj (f_equal (λ p, (1, [2 ^ 42 + p], 0)) Hp) H3).
Defined.

Lemma add_filters_keep rs (fs : gmap Z nat) i : is_Some (fs !! i) → is_Some (add_filters rs fs !! i).
Proof.
  unfold add_filters. revert fs. induction rs as [|[k U] rs IH]; intros fs H; cbn [foldl fst snd]; [done|].
  apply IH. destruct (decide (k = i)) as [->|Hne]; [by rewrite lookup_insert_eq|by rewrite lookup_insert_ne].
Qed.

Lemma add_filters_Some rs (fs : gmap Z nat) i : i ∈ rs.*1 → is_Some (add_filters rs fs !! i).
Proof.
  revert fs. induction rs as [|[j T] rs IH]; intros fs Hi; cbn [fmap list_fmap fst] in Hi.
  { by apply elem_of_nil in Hi. }
  apply elem_of_cons in Hi as [->|Hi]; [|by apply IH].
  apply (add_filters_keep rs (<[j := T]> fs)). by rewrite lookup_insert_eq.
Qed.

(** C10. Reopening after a crash: whatever the crash left of the transient data, a
    process that maps the files again, anywhere aligned, reads every root with a
    type and calls [RP_recover], and to which the flag's mutex answers that its
    owner died (or that it is invalid), rebuilds the heap: the blocks in use are
    the displaced blocks that are marked (the reachable ones), with their sizes;
    everything else is free and nothing is cached. The contents of these blocks
    are kept but for the last byte of the superblock file, which mapping the file
    again clears and which reads 0 if it lies in one of them. *)
Theorem reopen_after_crash {RM : RobustMutex} db sb mb dd d dm (HG : geom db sb mb)
    (HG' : geom (dd + db) (d + sb) (dm + mb)) L w w2 fuel size uf rs maps t0 :
  let rg := rgs (w_state w) in
  let s2 := let a := λ i, moved_by dd d dm i + base_addr (rget rg i) in
    set_rgs (reopened rg a) (remap_mem rg a (w_state w2)) in
  heap_rep db sb mb L (w_state w) → wired size rg →
  MIN_SB_REGION_SIZE + SBSIZE ≤ size < MAX_SB_REGION_SIZE → (enough_fuel ≤ fuel)%nat →
  crashed dd d rg L (w_state w) (w_state w2) → reports_dirty (w_mtx w2) = true → w_filters w2 = ∅ →
  mapped_again dd d dm rg maps →
  (∀ i T, (i, T) ∈ rs → i < MAX_ROOTS) →
  (∀ i, 0 ≤ i < MAX_ROOTS → CrossPtr_is_null (get_root_raw (w_state w) i) = false → i ∈ rs.*1) →
  (∀ a T, reach uf (gc_start s2) (add_filters rs ∅) a T → is_Some (L !! (a - d))) →
  (range_size (gc_start s2) < fuel)%nat →
  wp (reopen uf fuel (λ i, Some (rfile (rget rg i))) maps t0 size rs) (λ x w3, ∃ K,
    x = (1, (λ iT, root_value s2 iT.1) <$> rs, 1) ∧
    marked_set uf (gc_start s2) (add_filters rs ∅) K ∧
    let L' := survivors K (kmap (Z.add d) L) in
    heap_rep (dd + db) (d + sb) (dm + mb) L' (w_state w3) ∧
    (∀ a, in_blocks L' (d + a) →
      load8 (smem (w_state w3)) (d + a) = if a =? last_address rg then 0 else load8 (smem (w_state w)) a) ∧
    (∀ t c, get_block_num (w_state w3) t c = 0) ∧ wired size (rgs (w_state w3)) ∧ locked (w_mtx w3)) w2.
Proof.
  intros rg s2 H Hw Hsz Hf Hcr Hmx Hfl Hmaps Hrs Hnn Hreach Hfr.
  assert (rg_at rg db sb mb) as Hrg by (destruct H as (g & HI & _); exact (iv_rg _ _ _ _ _ _ _ _ _ _ HI)).
  unfold reopen. apply wp_bind. eapply wp_mono.
  { apply (RP_init_old fuel _ maps t0 size rg (λ i, moved_by dd d dm i + base_addr (rget rg i))); [done|done|].
    intros i Hlt. split; [done|]. destruct (Hmaps i Hlt) as (x & E & _ & Ex). by rewrite E, Ex. }
  cbn beta. intros r w3 (-> & ->). apply wp_bind, get_roots_run; [done|done|].
  cbn [w_state w_mtx w_init w_holder w_filters set_init with_state]. rewrite Hfl.
  set (a := λ i, moved_by dd d dm i + base_addr (rget rg i)) in *.
  assert (0 < a SB_IDX) as Hpos
    by (destruct (Hmaps SB_IDX ltac:(unfold SB_IDX, LAST_IDX; lia)) as (x & _ & Hx & ->); done).
  destruct (cleared_rep db sb mb HG L _ H) as (m' & H' & Hm').
  pose proof (crashed_image db sb mb dd d dm HG HG' size rg Hw Hrg a (λ _ _, eq_refl) L _ _ m' H eq_refl Hcr Hm') as Himg.
  pose proof (moved_rep db sb mb dd d dm HG HG' size rg Hw Hrg a (λ _ _, eq_refl) L _ H' eq_refl Hpos) as Hrep.
  apply wp_bind, recover_dirty; cbn [w_mtx w_state w_filters w_init w_holder]; [done|].
  eapply wp_mono; [apply (gc_run_ok _ _ _ HG' uf _ fuel _ _ _ Hrep Himg); [| |done|done]|].
  - intros i Hi Hn. apply add_filters_Some. by apply Hnn.
  - intros x T HT. destruct (Hreach x T HT) as [z Hz]. exists z. replace x with (d + (x - d)) by lia.
    by rewrite (lookup_kmap (M2 := gmap Z) (Z.add d)).
  - cbn beta. intros K s3 (HK & [R1 R2 R3 R4 R5]) m pl Hm. apply wp_ret. exists K.
    split; [done|]. split; [done|]. split; [|split; [|split; [|split]]]; try done.
    + intros x Hx. cbn [relog smem w_state]. rewrite R2 by done.
      rewrite (rm_mem _ _ _ _ (move_state_remapped dd d (reopened rg a) (upd_mem (λ _, m') (w_state w))) x).
      apply Hm'. destruct Hx as (p & z & Hp & Hx). apply survivors_Some in Hp as [_ Hp].
      rewrite <- (Z.add_simpl_l d x). apply in_blocks_moved. by exists p, z.
    + cbn [w_state relog rgs]. rewrite R4. by apply (reopened_wired db sb mb dd d dm HG' size rg Hw Hrg a).
Qed.

(** A crash that only lost the caches and the free list of superblocks. *)
Lemma next_state_crashed dd d rg L s s' :
  smem s' = smem s → descs s' = descs s → roots s' = roots s → heaps s' = heaps s →
  crashed dd d rg L s (next_state dd d s').
Proof.
  intros E1 E2 E3 E4. destruct (next_state_image dd d s') as [M1 M2 M3 M4 M5 M6].
  constructor; [intros i; unfold get_root_raw; congruence|done| | |].
  - intros c _. unfold get_heap. by rewrite M4, E4.
  - intros p w _ x. rewrite M2. unfold get_desc. by rewrite E2.
  - intros x _. rewrite M1. by rewrite E1.
Qed.

Lemma root_value_eq s i : root_value s i = CrossPtr_get (rgs s) SB_IDX (get_root_raw s i).
Proof. done. Qed.

Lemma gc_start_roots s i :
  get_root_raw (gc_start s) i = get_root_raw s i ∧ root_value (gc_start s) i = root_value s i.
Proof. destruct (gc_start_spec s) as (hs & pl0 & -> & _). by split. Qed.

(** When root 3 alone is set, only the displaced block is reachable in the next
    process. *)
Lemma moved_reach db sb mb dd d dm (HG : geom db sb mb) (HG' : geom (dd + db) (d + sb) (dm + mb)) size L s s' p a T :
  heap_rep db sb mb L s → wired size (rgs s) → (∀ i, get_root_raw s' i = get_root_raw s i) →
  root_value s 3 = p → is_Some (L !! p) →
  (∀ j, 0 ≤ j < MAX_ROOTS → j ≠ 3 → get_root_raw s j = 0) →
  reach demo_filter (gc_start (set_rgs (reopened (rgs s) (λ i, moved_by dd d dm i + base_addr (rget (rgs s) i))) s'))
    {[3 := 1%nat]} a T → a = d + p.
Proof.
  intros Hrep Hw Er <- HL Hz. set (s2 := set_rgs _ s').
  assert (rg_at (rgs s) db sb mb) as Hrg by (destruct Hrep as (g & HI & _); exact (iv_rg _ _ _ _ _ _ _ _ _ _ HI)).
  intros Hr. apply (demo_reach (gc_start s2) 3 (d + root_value s 3)) in Hr; [by destruct Hr| |].
  - rewrite <- root_value_eq, (proj2 (gc_start_roots s2 3)).
    by apply (reopened_root_value db sb mb dd d dm HG HG' size (rgs s) Hw Hrg _ (λ _ _, eq_refl) L).
  - intros j Hj Hne. rewrite (proj1 (gc_start_roots s2 j)). change (get_root_raw s2 j) with (get_root_raw s' j). rewrite Er.
    by apply Hz.
Qed.

Lemma sample_crashed_moved z :
  crashed (2 ^ 36) (2 ^ 42) (rgs sample_rooted) {[sample_ptr := z]} sample_rooted
    (next_state (2 ^ 36) (2 ^ 42) sample_crashed).
Proof. apply next_state_crashed; unfold sample_crashed; cbn [smem descs roots heaps]; reflexivity. Qed.

Lemma reopen_after_crash_witness :
  ∃ fuel z w2, wp (reopen (RM := simple_mutex) demo_filter fuel
      (λ i, Some (rfile (rget (rgs sample_rooted) i))) (moved_maps (rgs sample_rooted)) 0 sample_size [(3, 1%nat)])
    (λ x w3, x.2 = 1 ∧ ∃ K, heap_rep (2 ^ 36 + sample_db) (2 ^ 42 + sample_sb) (2 ^ 37 + sample_mb)
      (survivors K (kmap (Z.add (2 ^ 42)) {[sample_ptr := z]})) (w_state w3)) w2.
Proof.
  destruct sample_root_run as (z & Hrep & Hp & Hz).
  set (w2 := mkWorld (RM := simple_mutex) (next_state (2 ^ 36) (2 ^ 42) sample_crashed) MxDead false None ∅).
  set (a := λ i, moved_by (2 ^ 36) (2 ^ 42) (2 ^ 37) i + base_addr (rget (rgs sample_rooted) i)).
  set (s2 := set_rgs (reopened (rgs sample_rooted) a) (remap_mem (rgs sample_rooted) a (w_state w2))).
  exists (Nat.max enough_fuel (S (range_size (gc_start s2)))), z, w2.
  refine (wp_mono _ _ _ _ (reopen_after_crash (RM := simple_mutex) _ _ _ (2 ^ 36) (2 ^ 42) (2 ^ 37) sample_geom moved_geom
    {[sample_ptr := z]} sample_world w2 _ sample_size demo_filter [(3, 1%nat)] _ 0 Hrep sample_wired
    sample_size_ok (Nat.le_max_l _ _) (sample_crashed_moved z) eq_refl eq_refl moved_maps_ok _ _ _ (Nat.le_max_r _ _)) _).
  - intros i T [= -> ->]%list_elem_of_singleton. exact eq_refl.
  - intros i Hi Hn. destruct (Z.eq_dec i 3) as [->|Hne]; [left|].
    change (w_state sample_world) with sample_rooted in Hn. rewrite (Hz i Hi Hne) in Hn. discriminate Hn.
  - intros x T HT. rewrite (moved_reach _ _ _ _ _ _ sample_geom moved_geom sample_size {[sample_ptr := z]} sample_rooted
      (remap_mem (rgs sample_rooted) a (next_state (2 ^ 36) (2 ^ 42) sample_crashed)) sample_ptr x T Hrep sample_wired (λ i, eq_refl (get_root_raw sample_rooted i)) Hp
      (ex_intro _ z (lookup_singleton_eq _ _)) Hz HT). exists z.
    replace (2 ^ 42 + sample_ptr - 2 ^ 42) with sample_ptr by (symmetry; apply Z.add_simpl_l). apply lookup_singleton_eq.
  - cbn beta. intros x w3 (K & -> & _ & H3 & _). split; [reflexivity|]. exists K. exact H3.
Defined.

(** The constructor of a region either fails or yields a region. *)
Lemma new_RegionManager_cases file addr size p imm t0 s :
  (RegionManager_ctor file addr size p imm t0 = Fail ∧ new_RegionManager file addr size p imm t0 s = Fail) ∨
  ∃ r s', RegionManager_ctor file addr size p imm t0 = Ok r ∧ new_RegionManager file addr size p imm t0 s = Ok (r, s').
Proof.
  unfold new_RegionManager. destruct (RegionManager_ctor file addr size p imm t0) as [r| |] eqn:E.
  - right. exists r. destruct file as [f|]; [by eexists|]. destruct imm; by eexists.
  - left. split; [done|]. done.
  - exfalso. unfold RegionManager_ctor, __remap_persistent_region, __remap_transient_region,
      __map_persistent_region, __map_transient_region in E. by repeat case_match.
Qed.

Lemma create_cases file addr size p imm t0 s :
  (RegionManager_ctor file addr size p imm t0 = Fail ∧ create file addr size p imm t0 s = Fail) ∨
  RegionManager_ctor file addr size p imm t0 ≠ Fail ∧ ∃ s', create file addr size p imm t0 s = Ok (tt, s').
Proof.
  unfold create, mbind, st_mbind, st_bind.
  destruct (new_RegionManager_cases file addr size p imm t0 s) as [[E ->]|(r & s' & E & ->)]; [by left|].
  right. split; [by rewrite E|]. by eexists.
Qed.

(** A region that cannot be opened: not mapped, or its file has another size. *)
Definition cannot_open (file : option region_file) (addr : option Z) (size : Z) : Prop :=
  addr = None ∨ ∃ f, file = Some f ∧ rf_size f ≠ region_filesize size.

Lemma cannot_open_ctor file addr size imm t0 :
  cannot_open file addr size → RegionManager_ctor file addr size true imm t0 = Fail.
Proof.
  unfold RegionManager_ctor. destruct (negb _); [done|]. intros [->|(f & -> & Hne)].
  - by destruct file.
  - unfold __remap_persistent_region. destruct addr; [|done]. by rewrite (proj2 (Z.eqb_neq _ _)).
Qed.

Lemma bind_ok {S A B} (m : ST S A) (f : A → ST S B) s a s' : m s = Ok (a, s') → (m ≫= f) s = f a s'.
Proof. intros E. unfold mbind, st_mbind, st_bind. by rewrite E. Qed.

Lemma bind_fail {S A B} (m : ST S A) (f : A → ST S B) s : m s = Fail → (m ≫= f) s = Fail.
Proof. intros E. unfold mbind, st_mbind, st_bind. by rewrite E. Qed.

(** The regions that [_RP_init] opens first fail, or the next one is opened. *)
Lemma on_create_cases {RM : RobustMutex} {B} file addr size p imm t0 (f : unit → ST world B) w :
  (on_state (create file addr size p imm t0) ≫= f) w = Fail ∨
  RegionManager_ctor file addr size p imm t0 ≠ Fail ∧
  ∃ w', (on_state (create file addr size p imm t0) ≫= f) w = f tt w'.
Proof.
  destruct (create_cases file addr size p imm t0 (w_state w)) as [[_ E]|(Hc & s' & E)].
  - left. apply bind_fail. unfold on_state. by rewrite E.
  - right. split; [done|]. eexists. apply bind_ok. unfold on_state. by rewrite E.
Qed.

(** C14. Opening a heap fails when the size is not in the supported range, when any
    of the three regions cannot be mapped and when the file of any of them exists
    with another size than the one asked for. *)
Theorem RP_init_errors {RM : RobustMutex} fuel files maps t0 size w :
  (size < MIN_SB_REGION_SIZE ∨ MAX_SB_REGION_SIZE ≤ size ∨
   ∃ i, (i < LAST_IDX)%nat ∧ cannot_open (files i) (maps i) (region_size size i)) →
  _RP_init fuel files maps t0 size w = Fail.
Proof.
  intros H. unfold _RP_init.
  assert (st_lift SizeClass_ctor w = Ok (sizeclass_lookup, w)) as E by (unfold st_lift; by rewrite ctor_ok).
  rewrite (bind_ok _ _ _ _ _ E). clear E.
  destruct ((size <? MAX_SB_REGION_SIZE) && (MIN_SB_REGION_SIZE <=? size)) eqn:Es; [|by apply bind_fail].
  apply andb_true_iff in Es as [E1%Z.ltb_lt E2%Z.leb_le].
  destruct H as [H|[H|(i & Hi & Ho)]]; [lia..|]. rewrite (bind_ok _ _ w tt w) by done. cbn zeta.
  rewrite (bind_ok (on_state (st_mod (set_rgs Regions_ctor))) _ w tt (with_state (set_rgs Regions_ctor (w_state w)) w)) by done.
  destruct (on_create_cases (files DESC_IDX) (maps DESC_IDX) (size / SBSIZE * DESCSIZE) true true t0
    (λ _, on_state (create (files SB_IDX) (maps SB_IDX) (size / SBSIZE * SBSIZE) true false t0);;
      create_for (files META_IDX) (maps META_IDX) SIZEOF_BASEMETA true t0 (BaseMeta_new fuel);;
      st_mod (set_init true);; mret (if bool_decide (is_Some (files META_IDX)) then 1 else 0))
    (with_state (set_rgs Regions_ctor (w_state w)) w)) as [E|(N0 & w1 & ->)]; [exact E|].
  destruct (on_create_cases (files SB_IDX) (maps SB_IDX) (size / SBSIZE * SBSIZE) true false t0
    (λ _, create_for (files META_IDX) (maps META_IDX) SIZEOF_BASEMETA true t0 (BaseMeta_new fuel);;
      st_mod (set_init true);; mret (if bool_decide (is_Some (files META_IDX)) then 1 else 0)) w1) as [E|(N1 & w2 & ->)];
    [exact E|].
  destruct i as [|[|[|i]]]; [| | |unfold LAST_IDX in Hi; lia].
  - destruct N0. by apply cannot_open_ctor.
  - destruct N1. by apply cannot_open_ctor.
  - apply bind_fail. unfold create_for. apply bind_fail. unfold on_state.
    destruct (new_RegionManager_cases (files META_IDX) (maps META_IDX) SIZEOF_BASEMETA true true t0 (w_state w2))
      as [[_ ->]|(r & s' & E & _)]; [done|]. by rewrite cannot_open_ctor in E.
Qed.

Lemma RP_init_errors_witness :
  _RP_init (RM := simple_mutex) 1 (λ _, None) (λ i, match i with 2%nat => None | _ => Some (2 ^ 40) end) 0 (2 ^ 32)
    empty_world = Fail.
Proof.
  apply RP_init_errors. right. right. exists META_IDX. split; [apply Nat.lt_succ_diag_r|by left].
Defined.

(** C15. Opening existing files returns 1 and changes one byte: the last byte of the
    superblock file is zero afterwards. That byte can belong to a superblock: in a
    file mapped 8 KiB below a superblock boundary, the superblocks handed out by
    the expansion reach the end of the file. *)
Theorem remap_clears_last_byte {RM : RobustMutex} fuel files maps t0 size rg a w base :
  MIN_SB_REGION_SIZE + SBSIZE ≤ size < MAX_SB_REGION_SIZE → wired size rg →
  (∀ i, (i < LAST_IDX)%nat → files i = Some (rfile (rget rg i)) ∧ maps i = Some (a i)) →
  mapping_ok base (region_filesize SB_REGION_EXPAND_SIZE) → (base + 2 * PAGESIZE) mod SBSIZE = 0 →
  wp (_RP_init fuel files maps t0 size) (λ r w', r = 1 ∧
    let last := a SB_IDX + FILESIZE (rget rg SB_IDX) - 1 in
    load8 (smem (w_state w')) last = 0 ∧
    ∀ x, x ≠ last → load8 (smem (w_state w')) x = load8 (smem (w_state w)) x) w ∧
  let r := new_region base SB_REGION_EXPAND_SIZE in
  ∃ x raw, __nvm_region_allocator r (rf_curr (rfile r)) SBSIZE SB_REGION_EXPAND_SIZE = (1, Some x, raw) ∧
    x mod SBSIZE = 0 ∧ x + SB_REGION_EXPAND_SIZE = base_addr r + FILESIZE r.
Proof.
  intros Hsz Hw Hf Hm Ha. split.
  - eapply wp_mono; [by apply (RP_init_old fuel files maps t0 size rg a)|]. cbn beta. intros r w' (-> & ->).
    split; [done|]. split; [|intros x Hx].
    + exact (load8_store8_eq _ _ _).
    + by apply load8_store8_ne.
  - intros r. assert (align_up (base + PAGESIZE) SBSIZE = base + 2 * PAGESIZE) as Eal.
    { unfold align_up. change SBSIZE with 65536 in *. change PAGESIZE with 4096 in *.
      pose proof (Z.div_mod (base + 2 * 4096) 65536 ltac:(lia)).
      replace (base + 4096 + 65536 - 1) with (61439 + (base + 2 * 4096) / 65536 * 65536) by lia.
      rewrite Z.div_add by lia. change (61439 / 65536) with 0. lia. }
    exists (base + 2 * PAGESIZE), (to_pptr_off (base + 2 * PAGESIZE + SB_REGION_EXPAND_SIZE) base).
    split; [|split; [done|]].
    2:{ change (base_addr r + FILESIZE r) with (base + (SB_REGION_EXPAND_SIZE + 2 * PAGESIZE)). lia. }
    change SBSIZE with (2 ^ 16) at 1.
    rewrite (nvm_alloc_alone r (base + PAGESIZE) 16 SB_REGION_EXPAND_SIZE) by (done || by apply new_region_at).
    change (2 ^ 16) with SBSIZE. rewrite Eal. unfold r, new_region. cbn [base_addr FILESIZE].
    change (region_filesize SB_REGION_EXPAND_SIZE) with (SB_REGION_EXPAND_SIZE + 2 * PAGESIZE).
    by rewrite (proj2 (Z.leb_le _ _)) by lia.
Qed.

Lemma remap_clears_last_byte_witness :
  let rg := rg_init sample_fresh in
  wp (_RP_init (RM := simple_mutex) 1 (λ i, Some (rfile (rget rg i))) (λ i, Some (base_addr (rget rg i))) 0 sample_size)
    (λ r w', r = 1) empty_world.
Proof.
  cbv zeta. refine (wp_mono _ _ _ _ (proj1 (remap_clears_last_byte (RM := simple_mutex) 1 _ _ 0 sample_size
    (rg_init sample_fresh) (λ i, base_addr (rget (rg_init sample_fresh) i)) empty_world (2 ^ 40 - 8192)
    sample_size_ok sample_wired_init (λ i _, conj eq_refl eq_refl) _ eq_refl)) _).
  - repeat split.
  - intros r w' [H _]. exact H.
Defined.
