(* ===== verification/PropsPersist.v ===== *)
(** * Properties of persistence

    The metadata is durable from the construction of a heap on and across all
    operations, so that a crash between operations leaves what recovery needs; large
    blocks are the exception. What the exit of a process writes back. *)

From Stdlib Require Import ZArith Lia.
From stdpp Require Import base gmap numbers functions list.
From S2P Require Import Prelude Mem Config Pptr SizeClass Region Meta MetaFacts TCache Heap BaseMeta Inv Ghost Rep Trans SbSpec CacheSpec FlushSpec AllocSpec InitSpec Refine Api Roots Dirty GC GCMark Process Keeps Recovery Relocate ProcSpec Lifecycle Sample Persist Durable Crash DurableInit PropsProcess.

Local Open Scope Z_scope.
#[local] Set Warnings "-clear-no-such-hyp".

(** ** A crash between operations *)

(** C11. A crash between operations: stores reach the memory in any order that the
    write-backs and fences leave open. After any run of the operations of any threads,
    recovery included, on a heap with durable metadata the metadata is durable again;
    and if the blocks in use are small and the program has written them back, every
    image that the crash may leave has the format of their superblocks, the classes of
    the heaps, the roots and the end pointers: it is one that a process can reopen and
    recover. *)
Theorem crash_between_operations db sb mb (HG : geom db sb mb) fuel ops rg N s0 s L dd d N' s' :
  durable rg N s0 → do_ops fuel ops s0 = Ok (tt, s) →
  heap_rep db sb mb L s → all_small L →
  may_leave (lines_of rg) N (plog s) N' → after_crash dd d L N' s s' →
  durable rg N s ∧ crashed dd d (rgs s) L s s' ∧ ∀ i, n_end N' i = get_end s i.
Proof.
  intros H0 E H HL HN Hs'. pose proof (durable_ops _ _ _ _ _ _ _ H0 E) as Hd.
  split; [done|]. by eapply (crash_durable db sb mb HG).
Qed.

Lemma run_after {A} (m : M A) (d : A) Q s : wp m Q s → m s = Ok (result_of m d s, state_after m s).
Proof. unfold wp, result_of, state_after. by destruct (m s) as [[a s']| |]. Qed.

Lemma sample_heap_durable : durable (rg_init sample_fresh) (snapshot sample_fresh) sample_heap.
Proof.
  destruct sample_heap_inv as (_ & _ & _ & E). split; [by rewrite E|].
  pose proof (BaseMeta_ctor_inv sample_db sample_mb sample_fresh sample_fresh_ok sample_geom
    ltac:(done) ltac:(done) 1 sample_mb ltac:(lia)) as Hc. pose proof (run_after _ tt _ _ Hc) as Er.
  eapply (BaseMeta_ctor_written _ _ sample_mb); [| | | |exact Er].
  - intros c. reflexivity.
  - intros i. reflexivity.
  - intros i. destruct i as [|[|[|i]]]; reflexivity.
  - apply written_start; reflexivity.
Qed.

Definition sample_ops : list op := [OpMalloc 0 100; OpRoot sample_ptr 3].

Lemma sample_rooted_rep :
  heap_rep sample_db sample_sb sample_mb {[sample_ptr := usable_size 100]} sample_rooted ∧
  do_ops enough_fuel sample_ops sample_heap = Ok (tt, sample_rooted).
Proof.
  assert (0 ≤ 100 ≤ MAX_SZ) as Hsz by done. assert (0 ≤ 100 ≤ MAX_REQUEST) as Hrq by done. assert (0 ≤ 3 < MAX_ROOTS) as H3 by done.
  pose proof (wpe_wp _ _ _ _ (ralloc_malloc_sized _ _ _ sample_geom ∅ sample_heap
    0%nat 100 enough_fuel sample_heap_rep Hrq (Nat.le_refl _)) (sample_room 100 Hsz)) as Hm.
  assert (do_malloc enough_fuel 0 100 sample_heap = Ok (sample_ptr, sample_heap1)) as Em by exact (run_after _ 0 _ _ Hm).
  apply (wp_after _ 0) in Hm. destruct Hm as (_ & _ & _ & Hrep & _ & _).
  assert (heap_rep sample_db sample_sb sample_mb {[sample_ptr := usable_size 100]} sample_heap1) as Hrep1 by exact Hrep.
  clear Hrep. pose proof (set_root_run _ _ _ sample_geom _ _ sample_ptr _ 3 1 ∅ Hrep1 (lookup_singleton_eq _ _) H3) as Hr.
  pose proof (run_after _ 0 _ _ Hr) as Ert. apply (wp_after _ 0) in Hr. destruct Hr as (_ & H1 & _).
  split; [exact H1|].
  unfold do_ops, sample_ops. cbn [foldr do_op].
  rewrite run_assoc, (bind_ok _ _ _ _ _ Em). cbv beta. rewrite run_ret, run_assoc, (bind_ok _ _ _ _ _ Ert). reflexivity.
Qed.

Lemma single_small p z : z ≤ MAX_SZ → all_small {[p := z]}.
Proof. intros Hz q w [<- <-]%lookup_singleton_Some. exact Hz. Qed.

Lemma next_after_crash dd d L s s' :
  smem s' = smem s → descs s' = descs s → roots s' = roots s → heaps s' = heaps s →
  after_crash dd d L (snapshot s) s (next_state dd d s').
Proof.
  intros E1 E2 E3 E4. destruct (next_state_image dd d s') as [M1 M2 X M4 M3 M6].
  constructor; cbn [snapshot n_desc n_heap n_root]; [intros x|intros c|intros i|done|intros x _; by rewrite M1, E1].
  - rewrite M2. unfold get_desc. by rewrite E2.
  - unfold get_heap. by rewrite M4, E4.
  - unfold get_root_raw. by rewrite M3, E3.
Qed.

Lemma sample_after_crash L :
  after_crash (2 ^ 36) (2 ^ 42) L (snapshot sample_rooted) sample_rooted (next_state (2 ^ 36) (2 ^ 42) sample_crashed).
Proof. apply next_after_crash; unfold sample_crashed; cbn [smem descs roots heaps]; reflexivity. Qed.

Lemma crash_between_operations_witness :
  crashed (2 ^ 36) (2 ^ 42) (rgs sample_rooted) {[sample_ptr := usable_size 100]} sample_rooted
    (next_state (2 ^ 36) (2 ^ 42) sample_crashed).
Proof.
  destruct sample_rooted_rep as [Hrep Hops].
  pose proof (durable_ops _ _ _ _ _ _ _ sample_heap_durable Hops) as [_ Hw].
  assert (usable_size 100 ≤ MAX_SZ) as Hz by (vm_compute; discriminate).
  exact (proj1 (proj2 (crash_between_operations _ _ _ sample_geom enough_fuel sample_ops (rg_init sample_fresh)
    (snapshot sample_fresh) sample_heap sample_rooted {[sample_ptr := usable_size 100]} (2 ^ 36) (2 ^ 42)
    (snapshot sample_rooted) (next_state (2 ^ 36) (2 ^ 42) sample_crashed) sample_heap_durable Hops Hrep
    (single_small _ _ Hz) (may_leave_latest _ _ _ _ Hw) (sample_after_crash _)))).
Defined.

(** C12. [set_root] and crashes: on a heap whose metadata is durable it succeeds, and
    wherever in its run a crash comes (the log [l] is between the ones before and after
    it), whatever image the crash leaves is one of the heap before or of the heap after
    the call: the old root or the new one, and nothing in between. From its return
    on it is the heap after the call: the new root has been written back, and no
    image has the old one. *)
Theorem set_root_crash_atomic db sb mb (HG : geom db sb mb) L s rg N p z i :
  heap_rep db sb mb L s → all_small L → durable rg N s → L !! p = Some z → 0 ≤ i < MAX_ROOTS →
  wp (set_root p i) (λ _ s', heap_rep db sb mb L s' ∧ root_value s' i = p ∧
    ∀ l dd d N' s2, suffix l (plog s') → suffix (plog s) l → may_leave (lines_of rg) N l N' →
      after_crash dd d L N' s s2 →
      (crashed dd d (rgs s) L s s2 ∨ crashed dd d (rgs s) L s' s2) ∧
      (l = plog s' → crashed dd d (rgs s) L s' s2 ∧ n_root N' i = get_root_raw s' i)) s.
Proof.
  intros H HL Hd Hp Hi. pose proof (set_root_run db sb mb HG L s p z i 1 ∅ H Hp Hi) as Hr.
  unfold wp in Hr |- *. destruct (set_root p i s) as [[old s']| |] eqn:E; [|done..].
  destruct Hr as (_ & H' & Hg & _). split; [done|]. split; [by eapply get_root_value|].
  intros l dd d N' s2 Hl Hl0 HN Ha. split; [by eapply (set_root_crash db sb mb HG dd d L rg N s p i old s' l N')|].
  intros ->. by eapply (set_root_crash_after db sb mb HG dd d L rg N s p i old s' N').
Qed.

Lemma sample_heap1_durable : ∃ s p z, z ≤ MAX_SZ ∧
  heap_rep sample_db sample_sb sample_mb {[p := z]} s ∧
  durable (rg_init sample_fresh) (snapshot sample_fresh) s ∧ s = sample_heap1 ∧ p = sample_ptr.
Proof.
  assert (0 ≤ 100 ≤ MAX_SZ) as Hsz by done. assert (0 ≤ 100 ≤ MAX_REQUEST) as Hrq by done.
  pose proof (wpe_wp _ _ _ _ (ralloc_malloc_sized _ _ _ sample_geom ∅ sample_heap
    0%nat 100 enough_fuel sample_heap_rep Hrq (Nat.le_refl _)) (sample_room 100 Hsz)) as Hm.
  assert (do_malloc enough_fuel 0 100 sample_heap = Ok (sample_ptr, sample_heap1)) as Em by exact (run_after _ 0 _ _ Hm).
  apply (wp_after _ 0) in Hm. destruct Hm as (_ & _ & _ & Hrep & _ & _).
  exists sample_heap1, sample_ptr, (usable_size 100). split; [vm_compute; discriminate|]. split; [exact Hrep|].
  split; [exact (keeps_do_malloc _ 0 _ _ _ _ _ sample_heap_durable Em)|]. split; reflexivity.
Qed.

Lemma set_root_crash_atomic_witness :
  ∃ z, wp (set_root sample_ptr 3) (λ _ s', root_value s' 3 = sample_ptr ∧
    ∀ l N' s2, suffix l (plog s') → suffix (plog sample_heap1) l →
      may_leave (lines_of (rg_init sample_fresh)) (snapshot sample_fresh) l N' →
      after_crash 0 0 {[sample_ptr := z]} N' sample_heap1 s2 →
      (crashed 0 0 (rgs sample_heap1) {[sample_ptr := z]} sample_heap1 s2 ∨
       crashed 0 0 (rgs sample_heap1) {[sample_ptr := z]} s' s2) ∧
      (l = plog s' → crashed 0 0 (rgs sample_heap1) {[sample_ptr := z]} s' s2 ∧
        n_root N' 3 = get_root_raw s' 3)) sample_heap1.
Proof.
  destruct sample_heap1_durable as (s & p & z & Hz & Hrep & Hd & <- & <-). exists z.
  assert (0 ≤ 3 < MAX_ROOTS) as H3 by (split; [discriminate|reflexivity]).
  pose proof (set_root_crash_atomic sample_db sample_sb sample_mb sample_geom {[p := z]} s (rg_init sample_fresh)
    (snapshot sample_fresh) p z 3 Hrep (single_small p z Hz) Hd (lookup_singleton_eq p z) H3) as Hw.
  refine (wp_mono _ _ _ _ Hw _).
  cbn beta. intros old s' (_ & Hv & H). split; [exact Hv|].
  intros l N' s2 Hl Hs HN Ha. exact (H l 0 0 N' s2 Hl Hs HN Ha).
Defined.

(** C13. Where durability starts: [RP_init] of a new heap leaves the metadata durable,
    whatever was in the files and whatever the crash picks from what was written since;
    opening existing files writes nothing, and the metadata found there is durable. *)
Theorem RP_init_leaves_durable {RM : RobustMutex} fuel files maps t0 size w :
  plog (w_state w) = [] →
  (∀ a0 a1 a2, (∀ i, files i = None) → maps DESC_IDX = Some a0 → maps SB_IDX = Some a1 → maps META_IDX = Some a2 →
    new_heap_ok size a0 a1 a2 → t_caches (w_state w) = ∅ → (1 ≤ fuel)%nat →
    wp (_RP_init fuel files maps t0 size) (λ _ w',
      durable (rgs (w_state w')) (snapshot (set_rgs Regions_ctor (w_state w))) (w_state w')) w) ∧
  (∀ rg a, MIN_SB_REGION_SIZE + SBSIZE ≤ size < MAX_SB_REGION_SIZE → wired size rg →
    (∀ i, (i < LAST_IDX)%nat → files i = Some (rfile (rget rg i)) ∧ maps i = Some (a i)) →
    wp (_RP_init fuel files maps t0 size) (λ _ w',
      durable (rgs (w_state w')) (snapshot (w_state w')) (w_state w')) w).
Proof.
  intros Hl. split.
  - intros a0 a1 a2 Hf M0 M1 M2 Hok Hc Hfu. exact (RP_init_durable fuel files maps t0 size a0 a1 a2 w Hf M0 M1 M2 Hok Hc Hfu Hl).
  - intros rg a Hsz Hw Hf. eapply wp_mono; [by apply (RP_init_old fuel files maps t0 size rg a)|].
    cbn beta. intros r w' (_ & ->). by apply durable_start.
Qed.

Lemma RP_init_leaves_durable_witness :
  wp (_RP_init (RM := simple_mutex) 1 (λ _, None) (demo_maps 0) 77 (2 ^ 32)) (λ _ w',
    durable (rgs (w_state w')) (snapshot (set_rgs Regions_ctor (w_state empty_world))) (w_state w')) empty_world.
Proof.
  refine (proj1 (RP_init_leaves_durable (RM := simple_mutex) 1 (λ _, None) (demo_maps 0) 77 (2 ^ 32) empty_world eq_refl)
    (2 ^ 32) (2 ^ 40) (2 ^ 42) _ _ _ _ demo_new_heap _ _); done.
Defined.

(** ** Large blocks *)

(** The memory after a crash that lost the stores to the descriptor at [d]. *)
Definition lost_desc (d : Z) (x : Descriptor) (s : state) : nvm :=
  mkNvm (λ d', if decide (d' = d) then x else get_desc s d') (get_heap s) (get_root_raw s) (get_end s).

Lemma lost_desc_possible ls N b d x s :
  written ls N b None s → x ∈ possible (to_desc d) (cache_line d) (n_desc N d) false (plog s) →
  may_leave ls N (plog s) (lost_desc d x s).
Proof.
  intros H Hx. destruct (may_leave_latest _ _ _ _ H) as [M1 M2 M3 M4]. constructor; [|done..].
  intros d'. cbn [lost_desc n_desc]. destruct (decide (d' = d)) as [->|]; [done|apply M1].
Qed.

(** Stores without a write-back since [x] was written back. *)
Section Unflushed.
Context (d : Z) (x start : Descriptor).
Abbreviation can_be b l := (x ∈ possible (to_desc d) (cache_line d) start b l).

Lemma unflushed_base l : can_be true (EFence :: EFlush d :: WDesc d x :: l).
Proof using.
  cbn [possible]. rewrite Z.eqb_refl. cbn [andb]. rewrite (latest_store _ _ _ _ x); [by left|done|]. cbn. by rewrite decide_True.
Qed.

Lemma unflushed_store v l : can_be true l → can_be true (WDesc d v :: l).
Proof using. intros H. cbn [possible to_desc]. rewrite decide_True by done. by right. Qed.

Lemma unflushed_end l : can_be true l → can_be false (EFence :: EFlushLocal :: l).
Proof using. done. Qed.
End Unflushed.

Lemma plog_log e s : plog (log e s) = e :: plog s.
Proof. done. Qed.
Lemma plog_put_desc d v s : plog (put_desc d v s) = WDesc d v :: plog s.
Proof. done. Qed.
Lemma plog_upd_desc d f s : plog (upd_desc d f s) = WDesc d (f (get_desc s d)) :: plog s.
Proof. done. Qed.

Lemma get_desc_log e s d : get_desc (log e s) d = get_desc s d.
Proof. done. Qed.
Lemma heap_upd_desc d f s : heap (get_desc (upd_desc d f s) d) = heap (f (get_desc s d)).
Proof. unfold upd_desc. by rewrite get_desc_put, decide_True. Qed.

(** What [do_malloc] of a large block does to the descriptor at [d]: the constructor of
    the expansion, then the fields. *)
Definition large_stores (d heap0 sbs sup : Z) (s1 : state) : state :=
  log EFence (log EFlushLocal
    (upd_desc d (with_anchor (mkAnchor 0 0 SB_FULL)) (upd_desc d (with_superblock sup)
      (upd_desc d (with_maxcount 1) (upd_desc d (with_block_size sbs) (upd_desc d (with_heap heap0)
        (log EFence (log (EFlush d) (put_desc d Descriptor_ctor s1))))))))).

Lemma large_run fuel t size s p s' :
  (MAX_SZ <? size) = true → do_malloc fuel t size s = Ok (p, s') →
  ∃ s1 sbs sup, s' = large_stores (desc_lookup (rgs s1) p) (CrossPtr_assign (rgs s1) META_IDX (heap_addr (rgs s1) 0)) sbs sup s1.
Proof.
  intros Hsz E. unfold do_malloc in E. rewrite Hsz in E.
  apply bind_inv in E as (sbs & s0 & _ & E).
  apply bind_inv in E as (q & s2 & E1 & E). unfold alloc_large_block, large_sb_alloc, expand_get_large_sb in E1.
  apply bind_inv in E1 as (q' & s1 & _ & E1). unfold construct_desc, FLUSH, FLUSHFENCE in E1. run_in E1.
  injection E1 as <- <-. unfold FLUSH_LOCAL, FLUSHFENCE in E. run_in E. destruct (negb _); [|done]. run_in E.
  injection E as <- <-. by exists s1, sbs, (CrossPtr_assign (rgs s1) SB_IDX q').
Qed.

Lemma large_stores_rgs d h sbs sup s1 : rgs (large_stores d h sbs sup s1) = rgs s1.
Proof. done. Qed.

Lemma heap_with_anchor v x : heap (with_anchor v x) = heap x.
Proof. done. Qed.
Lemma heap_with_superblock v x : heap (with_superblock v x) = heap x.
Proof. done. Qed.
Lemma heap_with_maxcount v x : heap (with_maxcount v x) = heap x.
Proof. done. Qed.
Lemma heap_with_block_size v x : heap (with_block_size v x) = heap x.
Proof. done. Qed.

Lemma large_stores_heap d h sbs sup s1 : heap (get_desc (large_stores d h sbs sup s1) d) = h.
Proof.
  unfold large_stores. rewrite !get_desc_log, heap_upd_desc, heap_with_anchor, heap_upd_desc, heap_with_superblock.
  by rewrite heap_upd_desc, heap_with_maxcount, heap_upd_desc, heap_with_block_size, heap_upd_desc.
Qed.

Lemma large_stores_lost d h sbs sup s1 start :
  Descriptor_ctor ∈ possible (to_desc d) (cache_line d) start false (plog (large_stores d h sbs sup s1)).
Proof.
  unfold large_stores. rewrite !plog_log, !plog_upd_desc, !plog_log, plog_put_desc.
  apply unflushed_end. do 5 apply unflushed_store. apply unflushed_base.
Qed.

(** C25. The descriptor of a large block is not durable: [do_malloc] of a large block
    writes back the address of its local variable and not the descriptor. When it has
    returned, the descriptor says that it is one of a large block, but a crash can
    leave the descriptor as its constructor left it, with a null heap: the block is
    not recognised, and recovery puts its superblock on the free list. *)
Theorem large_block_not_durable fuel t size rg N s p s' :
  durable rg N s → MAX_SZ < size → do_malloc fuel t size s = Ok (p, s') →
  let d := desc_lookup (rgs s') p in
  heap (get_desc s' d) = HEAPS_OFFSET ∧
  ∃ N', may_leave (lines_of rg) N (plog s') N' ∧ n_desc N' d = Descriptor_ctor ∧
    CrossPtr_is_null (heap (n_desc N' d)) = true.
Proof.
  intros H Hsz%Z.ltb_lt E. pose proof (keeps_do_malloc _ t _ _ _ _ _ H E) as [_ Hw].
  destruct (large_run _ _ _ _ _ _ Hsz E) as (s1 & sbs & sup & ->). rewrite large_stores_rgs. cbv zeta.
  split; [rewrite large_stores_heap; apply heap0_offset|].
  exists (lost_desc (desc_lookup (rgs s1) p) Descriptor_ctor (large_stores (desc_lookup (rgs s1) p)
    (CrossPtr_assign (rgs s1) META_IDX (heap_addr (rgs s1) 0)) sbs sup s1)).
  split; [eapply lost_desc_possible; [exact Hw|apply large_stores_lost]|].
  cbn [lost_desc n_desc]. by rewrite decide_True.
Qed.

Lemma sample_room_large : ¬ heap_full sample_heap 100000.
Proof.
  unfold heap_full. destruct sample_heap_inv as (H & -> & _).
  rewrite (region_curr_B _ _ _ _ _ H). cbn [g_n ghost_init]. by vm_compute.
Qed.

Lemma large_block_not_durable_witness :
  ∃ p s' N', may_leave (lines_of (rg_init sample_fresh)) (snapshot sample_fresh) (plog s') N' ∧
    heap (get_desc s' (desc_lookup (rgs s') p)) = HEAPS_OFFSET ∧
    CrossPtr_is_null (heap (n_desc N' (desc_lookup (rgs s') p))) = true.
Proof.
  assert (0 ≤ 100000 ≤ MAX_REQUEST) as Hrq by done.
  pose proof (run_after _ 0 _ _ (wpe_wp _ _ _ _ (ralloc_malloc_sized _ _ _ sample_geom ∅ sample_heap
    0%nat 100000 enough_fuel sample_heap_rep Hrq (Nat.le_refl _)) sample_room_large)) as E.
  destruct (large_block_not_durable enough_fuel 0%nat 100000 _ _ _ _ _ sample_heap_durable eq_refl E)
    as (H1 & N' & H2 & _ & H3).
  eexists _, _, N'. exact (conj H2 (conj H1 H3)).
Defined.

(** ** Writing back the metadata *)

Lemma flush_lines_log l s s' x : flush_lines l s = Ok (x, s') → plog s' = reverse (EFlush <$> l) ++ plog s.
Proof.
  revert s. induction l as [|a l IH]; intros s E; cbn [flush_lines foldr] in E; [by injection E as _ <-|].
  unfold FLUSH in E. run_in E. rewrite (IH _ E). cbn [fmap list_fmap]. rewrite reverse_cons, <- app_assoc. done.
Qed.

Lemma basemeta_line this l :
  0 ≤ this → this mod CACHELINE_SIZE = 0 → this + SIZEOF_BASEMETA + CACHELINE_SIZE ≤ 2 ^ 64 →
  l ∈ cache_line <$> basemeta_lines this ↔ this / CACHELINE_SIZE < l ≤ this / CACHELINE_SIZE + SIZEOF_BASEMETA / CACHELINE_SIZE.
Proof.
  intros H0 Ha Hm. change SIZEOF_BASEMETA with 10816 in *. unfold basemeta_lines, cache_line.
  change SIZEOF_BASEMETA with 10816. change CACHELINE_SIZE with 64 in *. change (10816 / 64) with 169.
  pose proof (Z.div_mod this 64 ltac:(lia)) as E. rewrite Ha in E. set (q := this / 64) in *.
  assert (∀ k, 0 ≤ k < 169 → u64 (this + (k + 1) * 64) / 64 = q + k + 1) as Hk.
  { intros k Hk. rewrite u64_small by lia. replace (this + (k + 1) * 64) with ((q + k + 1) * 64) by lia. apply Z.div_mul. lia. }
  rewrite list_elem_of_fmap. split.
  - intros (x & -> & (k & -> & Hx%elem_of_seqZ)%list_elem_of_fmap). rewrite Hk by lia. lia.
  - intros Hl. exists (u64 (this + (l - q - 1 + 1) * 64)). split; [rewrite Hk; lia|].
    apply list_elem_of_fmap. exists (l - q - 1). split; [done|]. apply elem_of_seqZ. lia.
Qed.

(** The cache line of an object inside [BaseMeta]. *)
Lemma inner_line this off :
  0 ≤ this → this mod CACHELINE_SIZE = 0 → this + SIZEOF_BASEMETA + CACHELINE_SIZE ≤ 2 ^ 64 →
  CACHELINE_SIZE ≤ off < SIZEOF_BASEMETA → cache_line (u64 (this + off)) ∈ cache_line <$> basemeta_lines this.
Proof.
  intros H0 Ha Hm Ho. apply basemeta_line; [done..|]. change SIZEOF_BASEMETA with 10816 in *. unfold cache_line.
  change CACHELINE_SIZE with 64 in *. change (10816 / 64) with 169. rewrite u64_small by lia.
  pose proof (Z.div_mod this 64 ltac:(lia)) as E. rewrite Ha in E.
  replace (this + off) with (off + this / 64 * 64) by lia. rewrite Z.div_add by lia.
  pose proof (Z.div_mod off 64 ltac:(lia)). pose proof (Z.mod_pos_bound off 64 ltac:(lia)). lia.
Qed.

(** C32. What [writeback] writes back at exit: the loop increments the address before
    each write-back. The lines of all heaps and all roots are written back and fenced,
    and the line behind the object; its first line, with [avail_sb] and the dirty
    mutex, is not. *)
Theorem writeback_lines {RM : RobustMutex} w x w' :
  let this := rlookup (rgs (w_state w)) META_IDX in
  0 ≤ this → this mod CACHELINE_SIZE = 0 → this + SIZEOF_BASEMETA + CACHELINE_SIZE ≤ 2 ^ 64 →
  writeback w = Ok (x, w') →
  ∃ l, plog (w_state w') = EFence :: reverse (EFlush <$> l) ++ plog (w_state w) ∧
    (∀ c, 0 ≤ c < MAX_SZ_IDX → cache_line (heap_addr (rgs (w_state w)) c) ∈ cache_line <$> l) ∧
    (∀ i, 0 ≤ i < MAX_ROOTS → cache_line (root_addr this i) ∈ cache_line <$> l) ∧
    (cache_line this ∉ cache_line <$> l) ∧ cache_line (this + SIZEOF_BASEMETA) ∈ cache_line <$> l.
Proof.
  intros this H0 Ha Hm E. exists (basemeta_lines this). split; [|split; [|split; [|split]]].
  - unfold writeback in E. apply bind_inv in E as ([] & w1 & E1 & E). apply on_state_inv in E1. run_in E1.
    apply bind_inv in E as ([] & w2 & E2 & E). apply on_state_inv, st_mod_inv in E2.
    unfold w_set_clean in E. apply on_mutex_inv in E. rewrite E, E2. cbn [plog log]. f_equal. by eapply flush_lines_log.
  - intros c Hc. unfold heap_addr. fold this. rewrite <- Z.add_assoc. apply inner_line; [done..|].
    change SIZEOF_BASEMETA with 10816. unfold HEAPS_OFFSET. change CACHELINE_SIZE with 64. change MAX_SZ_IDX with 40 in Hc. lia.
  - intros i Hi. unfold root_addr. rewrite <- Z.add_assoc. apply inner_line; [done..|].
    change SIZEOF_BASEMETA with 10816. change ROOTS_OFFSET with 2624. change CACHELINE_SIZE with 64. change MAX_ROOTS with 1024 in Hi. lia.
  - rewrite basemeta_line by done. unfold cache_line. lia.
  - rewrite basemeta_line by done. unfold cache_line. change SIZEOF_BASEMETA with (169 * CACHELINE_SIZE).
    rewrite Z.div_add, Z.div_mul by done. lia.
Qed.

Definition demo_held : world (RM := simple_mutex) :=
  mkWorld (RM := simple_mutex) (mkState ∅ ∅ 0 ∅ ∅ ∅ (mkRegions [] [0; 0; PAGESIZE] LAST_IDX) []) MxHeld true None ∅.

Lemma writeback_lines_witness :
  ∃ w' l, writeback (RM := simple_mutex) demo_held = Ok (tt, w') ∧
    plog (w_state w') = EFence :: reverse (EFlush <$> l) ++ [] ∧ (cache_line PAGESIZE ∉ cache_line <$> l).
Proof.
  destruct (writeback_lines (RM := simple_mutex) demo_held tt _ ltac:(discriminate) eq_refl ltac:(discriminate) eq_refl)
    as (l & H1 & _ & _ & H2 & _).
  eexists _, l. split; [|exact (conj H1 H2)]. reflexivity.
Defined.
