(* ===== verification/OldQueue.v ===== *)
(** * The queue of partial superblocks (old/queue.h, old/pmmalloc.c)

    The intrusive first-in first-out queue of the C allocator that preceded
    Ralloc. The queue always holds at least one node; a dummy node, part of the
    queue structure, is put in whenever the last element would have to leave.
    Executed by one thread between the others: the compare-and-swaps compare. *)

From Stdlib Require Import ZArith Lia.
From stdpp Require Import base gmap numbers list.
From S2P Require Import Prelude.

Local Open Scope Z_scope.
#[local] Set Warnings "-clear-no-such-hyp".

(** [aba_t]: a pointer and a counter of 64 bits each. *)
Record aba_t := Aba { aptr : Z; ocount : Z }.

#[export] Instance aba_eq_dec : EqDecision aba_t.
Proof. solve_decision. Defined.

(** [lf_fifo_queue_t]; the [next] word of the dummy node is with the others. *)
Record lf_fifo_queue_t := mkFifo { has_dummy : Z; head : aba_t; tail : aba_t }.

(** The queue and the [next] words of all nodes, by address of the node. *)
Record qstate := mkQ { fifo : lf_fifo_queue_t; nexts : gmap Z aba_t }.

Definition QM := ST qstate.

Definition qnext (s : qstate) (p : Z) : aba_t := default (Aba 0 0) (nexts s !! p).
Definition set_next (p : Z) (a : aba_t) (s : qstate) : qstate := mkQ (fifo s) (<[p := a]> (nexts s)).
Definition set_fifo (q : lf_fifo_queue_t) (s : qstate) : qstate := mkQ q (nexts s).
Definition set_head (a : aba_t) (s : qstate) : qstate :=
  set_fifo (mkFifo (has_dummy (fifo s)) a (tail (fifo s))) s.
Definition set_tail (a : aba_t) (s : qstate) : qstate :=
  set_fifo (mkFifo (has_dummy (fifo s)) (head (fifo s)) a) s.
Definition set_has_dummy (v : Z) (s : qstate) : qstate :=
  set_fifo (mkFifo v (head (fifo s)) (tail (fifo s))) s.

(** [WideCAS] on the head, the tail and the [next] word of a node, and the
    compare-and-swap on [has_dummy]. *)
Definition cas_head (old new : aba_t) : QM bool := λ s,
  if decide (head (fifo s) = old) then Ok (true, set_head new s) else Ok (false, s).
Definition cas_tail (old new : aba_t) : QM bool := λ s,
  if decide (tail (fifo s) = old) then Ok (true, set_tail new s) else Ok (false, s).
Definition cas_next (p : Z) (old new : aba_t) : QM bool := λ s,
  if decide (qnext s p = old) then Ok (true, set_next p new s) else Ok (false, s).
Definition cas_has_dummy (old new : Z) : QM bool := λ s,
  if decide (has_dummy (fifo s) = old) then Ok (true, set_has_dummy new s) else Ok (false, s).

Section Fifo.
Context (dummy : Z).   (* &queue->dummy *)

Definition lf_fifo_init (s : qstate) : qstate :=
  set_next dummy (Aba 0 0) (set_fifo (mkFifo 1 (Aba dummy 0) (Aba dummy 0)) s).

(** The loop of [lf_fifo_enqueue]: returns the tail behind which the element was
    linked. *)
Fixpoint enqueue_loop (fuel : nat) (element : Z) : QM aba_t :=
  match fuel with
  | O => st_nofuel
  | S fuel' =>
      tl ← st_gets (λ s, tail (fifo s));
      last_node ← st_gets (λ s, qnext s (aptr tl));
      now ← st_gets (λ s, tail (fifo s));
      if decide (tl = now) then
        if aptr last_node =? 0 then
          ok ← cas_next (aptr tl) last_node (Aba element (u64 (ocount last_node + 1)));
          if ok : bool then mret tl else enqueue_loop fuel' element
        else
          cas_tail tl (Aba (aptr last_node) (u64 (ocount tl + 1)));;
          enqueue_loop fuel' element
      else enqueue_loop fuel' element
  end.

Definition lf_fifo_enqueue (fuel : nat) (element : Z) : QM unit :=
  st_mod (set_next element (Aba 0 0));;
  tl ← enqueue_loop fuel element;
  cas_tail tl (Aba element (u64 (ocount tl + 1)));;
  mret tt.

(** [if(atomic_compare_exchange_strong(&queue->has_dummy,&zero,1)) enqueue]. *)
Definition put_dummy (fuel : nat) : QM unit :=
  ok ← cas_has_dummy 0 1;
  if ok : bool then lf_fifo_enqueue fuel dummy else mret tt.

(** The two nested loops: both [continue]s restart the dequeue. *)
Fixpoint lf_fifo_dequeue (fuel : nat) : QM Z :=
  match fuel with
  | O => st_nofuel
  | S fuel' =>
      hd ← st_gets (λ s, head (fifo s));
      tl ← st_gets (λ s, tail (fifo s));
      next ← st_gets (λ s, aptr (qnext s (aptr hd)));
      now ← st_gets (λ s, head (fifo s));
      if decide (hd = now) then
        if aptr hd =? aptr tl then
          if next =? 0 then
            if negb (aptr hd =? dummy) then put_dummy fuel';; lf_fifo_dequeue fuel'
            else mret 0
          else
            cas_tail tl (Aba next (u64 (ocount tl + 1)));;
            lf_fifo_dequeue fuel'
        else
          ok ← cas_head hd (Aba next (u64 (ocount hd + 1)));
          if ok : bool then
            st_mod (λ s, set_next (aptr hd) (Aba 0 (ocount (qnext s (aptr hd)))) s);;
            if aptr hd =? dummy then
              st_mod (set_has_dummy 0);;
              put_dummy fuel';;
              lf_fifo_dequeue fuel'
            else mret (aptr hd)
          else lf_fifo_dequeue fuel'
      else lf_fifo_dequeue fuel'
  end.

(** ** The nodes of a queue *)

(** [l] is linked by [next] words, the last one null. *)
Fixpoint qlinked (nx : gmap Z aba_t) (l : list Z) : Prop :=
  match l with
  | [] => True
  | x :: l' =>
      aptr (default (Aba 0 0) (nx !! x)) = from_option id 0 (list.head l') ∧ qlinked nx l'
  end.

Record qlist (s : qstate) (l : list Z) : Prop := {
  ql_head : list.head l = Some (aptr (head (fifo s)));
  ql_tail : last l = Some (aptr (tail (fifo s)));
  ql_link : qlinked (nexts s) l;
  ql_nodup : NoDup l;
  ql_nonnull : 0 ∉ l
}.

Definition dummy_flag (s : qstate) (l : list Z) : Prop :=
  has_dummy (fifo s) = if decide (dummy ∈ l) then 1 else 0.

(** The elements: the nodes but the dummy. *)
Definition elements (l : list Z) : list Z := filter (λ x, x ≠ dummy) l.

(** The abstract queue. *)
Definition queue_rep (s : qstate) (n l : list Z) : Prop :=
  qlist s n ∧ dummy_flag s n ∧ elements n = l ∧ dummy ≠ 0.

(** Nodes outside [n] keep their [next] word. *)
Definition same_next (n : list Z) (s s' : qstate) : Prop := ∀ x, x ∉ n → nexts s' !! x = nexts s !! x.

Lemma qlinked_ext nx nx' l :
  (∀ x, x ∈ l → nx' !! x = nx !! x) → qlinked nx l → qlinked nx' l.
Proof using.
  induction l as [|x l IH]; intros H; cbn [qlinked]; [done|].
  intros [E Hl]. rewrite (H x) by left. split; [done|]. apply IH; [|done].
  intros y Hy. apply H. by right.
Qed.

Lemma qlinked_last nx l x : qlinked nx (l ++ [x]) → aptr (default (Aba 0 0) (nx !! x)) = 0.
Proof using. induction l as [|y l IH]; cbn; [by intros [? _]|]. intros [_ H]. by apply IH. Qed.

(** Linking a node behind the last one. *)
Lemma qlinked_snoc nx l x e a b :
  qlinked nx (l ++ [x]) → NoDup (l ++ [x]) → e ∉ l ++ [x] →
  aptr a = e → aptr b = 0 → qlinked (<[x := a]> (<[e := b]> nx)) ((l ++ [x]) ++ [e]).
Proof using.
  intros Hl Hnd He Ha Hb. induction l as [|y l IH]; cbn [app qlinked list.head from_option] in *.
  - assert (x ≠ e) by set_solver. rewrite lookup_insert_eq, lookup_insert_ne, lookup_insert_eq by done.
    by split_and!.
  - destruct Hl as [E Hl]. apply NoDup_cons in Hnd as [Hy Hnd].
    assert (y ≠ x ∧ y ≠ e) as [H1 H2] by (split; set_solver).
    rewrite !lookup_insert_ne by done. split; [|apply IH; [done|done|set_solver]].
    rewrite E. by destruct l.
Qed.

Lemma enqueue_run fuel s n e Q :
  qlist s n → e ≠ 0 → e ∉ n →
  (∀ s', qlist s' (n ++ [e]) → has_dummy (fifo s') = has_dummy (fifo s) → same_next (n ++ [e]) s s' → Q tt s') →
  wp (lf_fifo_enqueue (S fuel) e) Q s.
Proof using.
  intros [Hh Ht Hl Hnd Hnn] He Hen HQ. destruct n as [|y n _] using rev_ind; [done|].
  rewrite last_snoc in Ht. injection Ht as Ht.
  assert (aptr (qnext s y) = 0) as Hy by (by eapply qlinked_last).
  assert (y ≠ e) as Hne by set_solver.
  unfold lf_fifo_enqueue. wp_steps. cbn [enqueue_loop]. wp_steps.
  cbn [fifo set_next]. rewrite decide_True by done. rewrite <- Ht.
  assert (qnext (set_next e (Aba 0 0) s) y = qnext s y) as Ey
    by (unfold qnext; cbn [nexts set_next]; by rewrite lookup_insert_ne).
  rewrite Ey, Hy. change (0 =? 0) with true. cbn iota. apply wp_bind. unfold cas_next. unfold wp at 1.
  rewrite Ey, decide_True by done. wp_steps. unfold cas_tail, wp. cbn [fifo set_next].
  rewrite decide_True by done. apply HQ.
  - constructor; cbn [fifo nexts set_next set_tail set_fifo head tail aptr].
    + rewrite <- Hh. by destruct n.
    + by rewrite last_snoc.
    + apply qlinked_snoc; done.
    + apply NoDup_app. split; [done|]. split; [set_solver|apply NoDup_singleton].
    + set_solver.
  - done.
  - intros x Hx. cbn [nexts set_next set_tail set_fifo]. rewrite !lookup_insert_ne by set_solver. done.
Qed.

Lemma elements_nodup_cons x l : x ≠ dummy → elements (x :: l) = x :: elements l.
Proof using. intros H. unfold elements. by rewrite filter_cons_True. Qed.

Lemma elements_dummy l : elements (dummy :: l) = elements l.
Proof using. unfold elements. rewrite filter_cons_False; [done|]. by intros []. Qed.

Lemma elements_app l k : elements (l ++ k) = elements l ++ elements k.
Proof using. apply filter_app. Qed.

(** Inserting the dummy. *)
Lemma put_dummy_run fuel s n Q :
  qlist s n → dummy ≠ 0 → dummy ∉ n → has_dummy (fifo s) = 0 →
  (∀ s', qlist s' (n ++ [dummy]) → dummy_flag s' (n ++ [dummy]) → same_next (n ++ [dummy]) s s' → Q tt s') →
  wp (put_dummy (S fuel)) Q s.
Proof using.
  intros Hq Hd Hn Hf HQ. unfold put_dummy. apply wp_bind. unfold cas_has_dummy. unfold wp at 1.
  rewrite decide_True by done. apply (enqueue_run _ _ n); [by destruct Hq; constructor|done|done|].
  intros s' Hq' Hh Hs. apply HQ; [done| |].
  - unfold dummy_flag. rewrite Hh, decide_True by set_solver. done.
  - intros x Hx. by rewrite Hs.
Qed.

(** One iteration with at least two nodes: the first one leaves. *)
Lemma dequeue_pop fuel s x y n Q :
  qlist s (x :: y :: n) →
  (∀ s1, qlist s1 (y :: n) → has_dummy (fifo s1) = has_dummy (fifo s) → same_next [x] s s1 →
    wp (if x =? dummy then st_mod (set_has_dummy 0);; put_dummy fuel;; lf_fifo_dequeue fuel else mret x) Q s1) →
  wp (lf_fifo_dequeue (S fuel)) Q s.
Proof using.
  intros [Hh Ht Hl Hnd Hnn] HQ. cbn in Hh. injection Hh as Hh.
  destruct Hl as [Ex Hl]. cbn in Ex. apply NoDup_cons in Hnd as [Hx Hnd].
  assert (aptr (tail (fifo s)) ≠ x) as Htx.
  { intros <-. apply Hx. rewrite last_cons_cons in Ht. by apply last_Some_elem_of in Ht. }
  cbn [lf_fifo_dequeue]. wp_steps. rewrite decide_True by done. rewrite <- Hh.
  rewrite (proj2 (Z.eqb_neq _ _)) by congruence. apply wp_bind. unfold cas_head. unfold wp at 1.
  rewrite decide_True by done. wp_steps. assert (aptr (qnext s x) = y) as -> by exact Ex. cbn [fifo].
  apply HQ.
  - constructor; cbn [fifo nexts set_next set_head set_fifo head tail aptr]; try done.
    + eapply qlinked_ext; [|done]. intros z Hz. rewrite lookup_insert_ne by (intros ->; done). done.
    + set_solver.
  - done.
  - intros z Hz. cbn [nexts set_next set_head set_fifo]. rewrite lookup_insert_ne by set_solver. done.
Qed.

Definition dequeued (l : list Z) : Z * list Z :=
  match l with [] => (0, []) | x :: l' => (x, l') end.

Lemma same_next_trans m1 m2 m3 s1 s2 s3 :
  same_next m1 s1 s2 → same_next m2 s2 s3 → m1 ⊆ m3 → m2 ⊆ m3 → same_next m3 s1 s3.
Proof using. intros H1 H2 L1 L2 x Hx. rewrite H2, H1; [done| |]; set_solver. Qed.

(** Dequeue of a queue whose first node is an element, of two nodes or more. *)
Lemma dequeue_element fuel s x y n Q :
  qlist s (x :: y :: n) → x ≠ dummy →
  (∀ s', qlist s' (y :: n) → has_dummy (fifo s') = has_dummy (fifo s) → same_next [x] s s' → Q x s') →
  wp (lf_fifo_dequeue (S fuel)) Q s.
Proof using.
  intros Hq Hx HQ. eapply dequeue_pop; [done|]. intros s1 H1 H2 H3.
  rewrite (proj2 (Z.eqb_neq _ _)) by done. apply wp_ret. by apply HQ.
Qed.

Lemma flag_zero s n : dummy_flag s n → dummy ∉ n → has_dummy (fifo s) = 0.
Proof using. unfold dummy_flag. intros -> H. by rewrite decide_False. Qed.

Lemma dequeue_run fuel s n l Q :
  queue_rep s n l → (3 ≤ fuel)%nat →
  (∀ r s' n' l', (r, l') = dequeued l → queue_rep s' n' l' → n' ⊆ n ++ [dummy] →
    same_next (n ++ [dummy]) s s' → Q r s') →
  wp (lf_fifo_dequeue fuel) Q s.
Proof using.
  intros (Hq & Hf & <- & Hd) Hfu HQ. destruct fuel as [|[|[|fuel]]]; [lia..|]. clear Hfu.
  destruct n as [|x [|y n]]; [by destruct Hq|..].
  - destruct (decide (x = dummy)) as [->|Hx].
    + pose proof Hq as [Hh Ht Hl Hnd Hnn]. cbn in Hh, Ht. injection Hh as Hh. injection Ht as Ht.
      destruct Hl as [Ex _]. cbn in Ex. cbn [lf_fifo_dequeue]. wp_steps.
      rewrite decide_True by done. rewrite <- Hh, <- Ht, Z.eqb_refl. unfold qnext. rewrite Ex.
      change (0 =? 0) with true. cbn iota. cbn [negb]. apply wp_ret.
      rewrite elements_dummy in HQ. apply (HQ _ s [dummy] []); [done| |set_solver|done].
      split; [exact Hq|]. split; [done|]. split; [|done].
      by rewrite elements_dummy.
    + rewrite elements_nodup_cons in HQ by done. cbn in HQ.
      assert (has_dummy (fifo s) = 0) as Hz by (apply (flag_zero s [x] Hf); intros ->%list_elem_of_singleton; done).
      pose proof Hq as [Hh Ht [Ex _] Hnd Hnn]. cbn in Hh, Ht, Ex. injection Hh as Hh. injection Ht as Ht.
      cbn [lf_fifo_dequeue]. wp_steps. rewrite decide_True by done. rewrite <- Hh, <- Ht, Z.eqb_refl.
      unfold qnext. rewrite Ex. change (0 =? 0) with true. cbn iota.
      rewrite (proj2 (Z.eqb_neq _ _)) by done. cbn [negb]. apply wp_bind.
      assert (dummy ∉ [x]) as Hnx by (intros ->%list_elem_of_singleton; done).
      apply (put_dummy_run (S fuel) s [x] _ Hq Hd Hnx Hz). intros s1 H1 F1 N1.
      apply (dequeue_element (S fuel) s1 x dummy [] _ H1 Hx). intros s2 H2 F2 N2.
      apply (HQ _ s2 [dummy] []); [done| |set_solver|].
      * split; [done|]. split; [|split; [by rewrite elements_dummy|done]].
        unfold dummy_flag in *. rewrite F2, F1. rewrite !decide_True by set_solver. done.
      * eapply same_next_trans; [exact N1|exact N2|set_solver|set_solver].
  - destruct (decide (x = dummy)) as [->|Hx].
    + pose proof (ql_nodup _ _ Hq) as Hnd. apply NoDup_cons in Hnd as [Hdn Hnd].
      rewrite elements_dummy, elements_nodup_cons in HQ by set_solver. cbn in HQ.
      eapply dequeue_pop; [done|]. intros s1 H1 _ N1. rewrite Z.eqb_refl. wp_steps.
      apply (put_dummy_run _ _ (y :: n)); [by destruct H1; constructor|done|done|done|]. intros s2 H2 F2 N2.
      destruct (n ++ [dummy]) as [|z n'] eqn:En; [by destruct n|].
      assert (y :: n ++ [dummy] = y :: z :: n') as En' by (by rewrite En). cbn [app] in H2, F2. rewrite En' in H2, F2.
      apply (dequeue_element _ s2 y z n' _ H2); [by intros ->; apply Hdn; left|]. intros s3 H3 F3 N3.
      apply (HQ _ s3 (z :: n') (elements n)); [done| | |].
      * split; [done|]. rewrite <- En in *. split; [|split; [|done]].
        -- unfold dummy_flag in *. rewrite F3, F2. rewrite !decide_True by set_solver. done.
        -- by rewrite elements_app, elements_dummy, app_nil_r.
      * rewrite <- En. set_solver.
      * eapply same_next_trans; [exact N1| |set_solver|reflexivity].
        eapply same_next_trans; [exact N2|exact N3| |]; rewrite <- ?En; set_solver.
    + rewrite elements_nodup_cons in HQ by done. cbn in HQ.
      apply (dequeue_element _ s x y n _ Hq Hx). intros s1 H1 F1 N1.
      apply (HQ _ s1 (y :: n) (elements (y :: n))); [done| |set_solver|].
      * split; [done|]. split; [|done]. unfold dummy_flag in *. rewrite F1, Hf.
        destruct (decide (dummy ∈ y :: n)); [by rewrite decide_True by set_solver|by rewrite decide_False by set_solver].
      * intros q Hq'. apply N1. set_solver.
Qed.

Lemma enqueue_rep fuel s n l e Q :
  queue_rep s n l → e ≠ 0 → e ∉ n → e ≠ dummy → (1 ≤ fuel)%nat →
  (∀ s', queue_rep s' (n ++ [e]) (l ++ [e]) → same_next (n ++ [e]) s s' → Q tt s') →
  wp (lf_fifo_enqueue fuel e) Q s.
Proof using.
  intros (Hq & Hf & <- & Hd) He Hn Hed Hfu HQ. destruct fuel as [|fuel]; [lia|].
  apply (enqueue_run _ s n); [done..|]. intros s' Hq' Hh Hs. apply HQ; [|done].
  split; [done|]. split; [|split; [|done]].
  - unfold dummy_flag in *. rewrite Hh, Hf.
    destruct (decide (dummy ∈ n)); [by rewrite decide_True by set_solver|by rewrite decide_False by set_solver].
  - by rewrite elements_app, elements_nodup_cons.
Qed.

Lemma fifo_init_rep s : dummy ≠ 0 → queue_rep (lf_fifo_init s) [dummy] [].
Proof using.
  intros Hd. split; [constructor; cbn; try done|].
  - by rewrite lookup_insert_eq.
  - apply NoDup_singleton.
  - set_solver.
  - split; [by unfold dummy_flag; rewrite decide_True by set_solver|]. by rewrite elements_dummy.
Qed.

(** ** Runs *)

Inductive qop := Enqueue (e : Z) | Dequeue.

(** A sequence of operations, and the results of its dequeues. *)
Fixpoint qrun (fuel : nat) (ops : list qop) : QM (list Z) :=
  match ops with
  | [] => mret []
  | Enqueue e :: ops' => lf_fifo_enqueue fuel e;; qrun fuel ops'
  | Dequeue :: ops' => r ← lf_fifo_dequeue fuel; rs ← qrun fuel ops'; mret (r :: rs)
  end.

Fixpoint fifo_run (l : list Z) (ops : list qop) : list Z :=
  match ops with
  | [] => []
  | Enqueue e :: ops' => fifo_run (l ++ [e]) ops'
  | Dequeue :: ops' => (dequeued l).1 :: fifo_run ((dequeued l).2) ops'
  end.

(** Elements are never in the queue twice. *)
Fixpoint fresh_ops (l : list Z) (ops : list qop) : Prop :=
  match ops with
  | [] => True
  | Enqueue e :: ops' => e ≠ 0 ∧ e ≠ dummy ∧ ¬ (e ∈ l) ∧ fresh_ops (l ++ [e]) ops'
  | Dequeue :: ops' => fresh_ops ((dequeued l).2) ops'
  end.

Lemma elements_in n e : e ≠ dummy → e ∉ elements n → e ∉ n.
Proof using. intros He H Hn. apply H. by apply list_elem_of_filter. Qed.

Lemma qrun_ok fuel ops s n l :
  queue_rep s n l → fresh_ops l ops → (3 ≤ fuel)%nat →
  wp (qrun fuel ops) (λ rs _, rs = fifo_run l ops) s.
Proof using.
  revert s n l. induction ops as [|[e|] ops IH]; intros s n l Hq Hfr Hfu; cbn [qrun fifo_run fresh_ops] in *.
  - by apply wp_ret.
  - destruct Hfr as (H1 & H2 & H3 & H4). apply wp_bind. pose proof Hq as (_ & _ & El & _).
    apply (enqueue_rep fuel s n l); [done|done|rewrite <- El in H3; by apply elements_in|done|lia|].
    intros s' Hq' _. by eapply IH.
  - apply wp_bind, (dequeue_run fuel s n l); [done..|]. intros r s' n' l' E Hq' _ _. apply wp_bind.
    rewrite <- E in *. eapply wp_mono; [by eapply IH|]. cbn beta. intros rs s2 ->. by apply wp_ret.
Qed.
End Fifo.
