(* ===== verification/OldMalloc.v ===== *)
(** * The C allocator that preceded Ralloc (old/pmmalloc.c, old/pmmalloc.h)

    A lock-free allocator in the style of Michael: blocks with a header, one
    anchor per superblock, per-thread heaps with an active superblock whose free
    blocks are handed out by credits. Executed by one thread between the others;
    the compare-and-swaps compare. Results of [mmap] are a list of the state. *)

From Stdlib Require Import ZArith Lia.
From stdpp Require Import base gmap numbers list.
From S2P Require Import Prelude Mem OldQueue.

Local Open Scope Z_scope.

Definition TYPE_SIZE : Z := 4.
Definition PTR_SIZE : Z := 8.
Definition HEADER_SIZE : Z := TYPE_SIZE + PTR_SIZE.
Definition LARGE : Z := 120.
Definition SMALL : Z := 121.
Definition PAGESIZE : Z := 4096.
Definition SBSIZE : Z := 16 * PAGESIZE.
Definition ACTIVE : Z := 0.
Definition FULL : Z := 1.
Definition PARTIAL : Z := 2.
Definition EMPTY : Z := 3.
Definition MAXCREDITS : Z := 64.
Definition GRANULARITY : Z := 8.

(** [anchor], with the truncation of its bit fields on assignment. *)
Record anchor := Anchor { avail : Z; count : Z; astate : Z; tag : Z }.

Definition set_avail (v : Z) (a : anchor) : anchor := Anchor (v mod 2 ^ 24) (count a) (astate a) (tag a).
Definition set_count (v : Z) (a : anchor) : anchor := Anchor (avail a) (v mod 2 ^ 24) (astate a) (tag a).
Definition set_state (v : Z) (a : anchor) : anchor := Anchor (avail a) (count a) (v mod 2 ^ 2) (tag a).
Definition set_tag (v : Z) (a : anchor) : anchor := Anchor (avail a) (count a) (astate a) (v mod 2 ^ 14).

#[export] Instance anchor_eq_dec : EqDecision anchor.
Proof. solve_decision. Defined.

(** [struct Descriptor], aligned to 64 bytes; its queue word is in [nexts]. *)
Record descriptor := mkDesc {
  d_anchor : anchor;
  d_Next : Z;
  d_sb : Z;
  d_heap : Z;
  d_sz : Z;
  d_maxcount : Z
}.

Definition sizeof_descriptor : Z := 64.
Definition DESCSBSIZE : Z := 1024 * sizeof_descriptor.

(** [active]: a descriptor address without its 6 low bits, and credits. *)
Record active := Active { a_ptr : Z; credits : Z }.

#[export] Instance active_eq_dec : EqDecision active.
Proof. solve_decision. Defined.

Definition no_active : active := Active 0 0.

(** [struct Procheap]; [sc] is the index of the size class it points to. *)
Record procheap := mkProcheap { h_active : active; h_partial : Z; h_sc : Z }.

(** [sizeclasses]: block sizes; all superblocks have [SBSIZE] bytes. *)
Definition sizeclasses : list Z :=
  [ 8; 16; 24; 32; 40; 48; 56; 64; 72; 80; 88; 96; 104; 112; 120; 128;
   136; 144; 152; 160; 168; 176; 184; 192; 200; 208; 216; 224; 232; 240; 248; 256;
   264; 272; 280; 288; 296; 304; 312; 320; 328; 336; 344; 352; 360; 368; 376; 384;
   392; 400; 408; 416; 424; 432; 440; 448; 456; 464; 472; 480; 488; 496; 504; 512;
   520; 528; 536; 544; 552; 560; 568; 576; 584; 592; 600; 608; 616; 624; 632; 640;
   648; 656; 664; 672; 680; 688; 696; 704; 712; 720; 728; 736; 744; 752; 760; 768;
   776; 784; 792; 800; 808; 816; 824; 832; 840; 848; 856; 864; 872; 880; 888; 896;
   904; 912; 920; 928; 936; 944; 952; 960; 968; 976; 984; 992; 1000; 1008; 1016; 1024;
   1032; 1040; 1048; 1056; 1064; 1072; 1080; 1088; 1096; 1104; 1112; 1120; 1128; 1136; 1144; 1152;
   1160; 1168; 1176; 1184; 1192; 1200; 1208; 1216; 1224; 1232; 1240; 1248; 1256; 1264; 1272; 1280;
   1288; 1296; 1304; 1312; 1320; 1328; 1336; 1344; 1352; 1360; 1368; 1376; 1384; 1392; 1400; 1408;
   1416; 1424; 1432; 1440; 1448; 1456; 1464; 1472; 1480; 1488; 1496; 1504; 1512; 1520; 1528; 1536;
   1544; 1552; 1560; 1568; 1576; 1584; 1592; 1600; 1608; 1616; 1624; 1632; 1640; 1648; 1656; 1664;
   1672; 1680; 1688; 1696; 1704; 1712; 1720; 1728; 1736; 1744; 1752; 1760; 1768; 1776; 1784; 1792;
   1800; 1808; 1816; 1824; 1832; 1840; 1848; 1856; 1864; 1872; 1880; 1888; 1896; 1904; 1912; 1920;
   1928; 1936; 1944; 1952; 1960; 1968; 1976; 1984; 1992; 2000; 2008; 2016; 2024; 2032; 2040; 2048].

Definition sc_sz (i : Z) : Z := nth (Z.to_nat i) sizeclasses 0.
Definition sc_sbsize (i : Z) : Z := SBSIZE.

(** Distance of two size classes, and of the dummy node in one. *)
Definition sizeof_sizeclass : Z := 96.
Definition dummy_offset : Z := 16.

(** What is written back: an address, or one of the static variables. *)
Inductive location := At (a : Z) | LPartial (i : Z) | LQueueHead | LInitFlag | LHeaps (i : Z).

Inductive pm_event := EvFlush (l : location) | EvFence | EvFree (p : Z).

(** Offsets of fields. *)
Definition off_Anchor : Z := 16.
Definition off_Next : Z := 24.
Definition off_sb : Z := 32.
Definition off_heap : Z := 40.
Definition off_sz : Z := 48.
Definition off_maxcount : Z := 52.
Definition off_Active : Z := 0.
Definition off_Partial : Z := 8.
Definition off_sc : Z := 16.

Record pmstate := mkPm {
  pm_mem : mem;                        (* superblocks and large blocks *)
  pm_descs : gmap Z descriptor;        (* by address *)
  pm_nexts : gmap Z aba_t;             (* queue words of descriptors and dummies *)
  pm_fifos : gmap Z lf_fifo_queue_t;   (* sizeclasses[i].Partial *)
  pm_procs : gmap Z procheap;          (* by address *)
  pm_heaps : gmap (nat * Z) Z;         (* thread-local heaps[i] *)
  pm_avail : Z * Z;                    (* queue_head: DescAvail, tag *)
  pm_init_flag : Z;
  pm_supply : list (option Z);         (* what mmap returns, None for MAP_FAILED *)
  pm_mapped : gmap Z Z;                (* mappings: address, length *)
  pm_log : list pm_event
}.

Definition PM := ST pmstate.

Definition pm_upd_mem (f : mem → mem) (s : pmstate) : pmstate :=
  mkPm (f (pm_mem s)) (pm_descs s) (pm_nexts s) (pm_fifos s) (pm_procs s) (pm_heaps s) (pm_avail s)
    (pm_init_flag s) (pm_supply s) (pm_mapped s) (pm_log s).
Definition pm_upd_descs (f : gmap Z descriptor → gmap Z descriptor) (s : pmstate) : pmstate :=
  mkPm (pm_mem s) (f (pm_descs s)) (pm_nexts s) (pm_fifos s) (pm_procs s) (pm_heaps s) (pm_avail s)
    (pm_init_flag s) (pm_supply s) (pm_mapped s) (pm_log s).
Definition pm_set_queue (i : Z) (q : qstate) (s : pmstate) : pmstate :=
  mkPm (pm_mem s) (pm_descs s) (nexts q) (<[i := fifo q]> (pm_fifos s)) (pm_procs s) (pm_heaps s) (pm_avail s)
    (pm_init_flag s) (pm_supply s) (pm_mapped s) (pm_log s).
Definition pm_upd_procs (f : gmap Z procheap → gmap Z procheap) (s : pmstate) : pmstate :=
  mkPm (pm_mem s) (pm_descs s) (pm_nexts s) (pm_fifos s) (f (pm_procs s)) (pm_heaps s) (pm_avail s)
    (pm_init_flag s) (pm_supply s) (pm_mapped s) (pm_log s).
Definition pm_set_heap (t : nat) (i a : Z) (s : pmstate) : pmstate :=
  mkPm (pm_mem s) (pm_descs s) (pm_nexts s) (pm_fifos s) (pm_procs s) (<[(t, i) := a]> (pm_heaps s)) (pm_avail s)
    (pm_init_flag s) (pm_supply s) (pm_mapped s) (pm_log s).
Definition pm_set_avail (q : Z * Z) (s : pmstate) : pmstate :=
  mkPm (pm_mem s) (pm_descs s) (pm_nexts s) (pm_fifos s) (pm_procs s) (pm_heaps s) q
    (pm_init_flag s) (pm_supply s) (pm_mapped s) (pm_log s).
Definition pm_set_init (v : Z) (s : pmstate) : pmstate :=
  mkPm (pm_mem s) (pm_descs s) (pm_nexts s) (pm_fifos s) (pm_procs s) (pm_heaps s) (pm_avail s)
    v (pm_supply s) (pm_mapped s) (pm_log s).
Definition pm_emit (e : pm_event) (s : pmstate) : pmstate :=
  mkPm (pm_mem s) (pm_descs s) (pm_nexts s) (pm_fifos s) (pm_procs s) (pm_heaps s) (pm_avail s)
    (pm_init_flag s) (pm_supply s) (pm_mapped s) (e :: pm_log s).

Definition zero_desc : descriptor := mkDesc (Anchor 0 0 0 0) 0 0 0 0 0.
Definition pm_desc (s : pmstate) (d : Z) : descriptor := default zero_desc (pm_descs s !! d).
Definition pm_proc (s : pmstate) (h : Z) : procheap := default (mkProcheap no_active 0 0) (pm_procs s !! h).

Definition upd_desc (d : Z) (f : descriptor → descriptor) : PM unit :=
  st_mod (λ s, pm_upd_descs <[d := f (pm_desc s d)]> s).
Definition upd_proc (h : Z) (f : procheap → procheap) : PM unit :=
  st_mod (λ s, pm_upd_procs <[h := f (pm_proc s h)]> s).

Definition with_anchor (a : anchor) (d : descriptor) : descriptor :=
  mkDesc a (d_Next d) (d_sb d) (d_heap d) (d_sz d) (d_maxcount d).
Definition with_Next (p : Z) (d : descriptor) : descriptor :=
  mkDesc (d_anchor d) p (d_sb d) (d_heap d) (d_sz d) (d_maxcount d).
Definition with_sb (p : Z) (d : descriptor) : descriptor :=
  mkDesc (d_anchor d) (d_Next d) p (d_heap d) (d_sz d) (d_maxcount d).
Definition with_heap (p : Z) (d : descriptor) : descriptor :=
  mkDesc (d_anchor d) (d_Next d) (d_sb d) p (d_sz d) (d_maxcount d).
Definition with_sz (v : Z) (d : descriptor) : descriptor :=
  mkDesc (d_anchor d) (d_Next d) (d_sb d) (d_heap d) (u32 v) (d_maxcount d).
Definition with_maxcount (v : Z) (d : descriptor) : descriptor :=
  mkDesc (d_anchor d) (d_Next d) (d_sb d) (d_heap d) (d_sz d) (u32 v).

Definition FLUSH_AT (l : location) : PM unit := st_mod (pm_emit (EvFlush l)).
Definition FLUSH (a : Z) : PM unit := FLUSH_AT (At a).
Definition FLUSHFENCE : PM unit := st_mod (pm_emit EvFence).

Definition load_word (a : Z) : PM Z := st_gets (λ s, load64 (pm_mem s) a).
Definition store_word (a v : Z) : PM unit := st_mod (pm_upd_mem (λ m, store64 m a v)).
Definition load_char (a : Z) : PM Z := st_gets (λ s, load8 (pm_mem s) a).
Definition store_char (a v : Z) : PM unit := st_mod (pm_upd_mem (λ m, store8 m a v)).

(** ** Compare-and-swap *)

Definition cas_active (h : Z) (old new : active) : PM bool := λ s,
  if decide (h_active (pm_proc s h) = old)
  then Ok (true, pm_upd_procs <[h := mkProcheap new (h_partial (pm_proc s h)) (h_sc (pm_proc s h))]> s)
  else Ok (false, s).
Definition cas_partial (h old new : Z) : PM bool := λ s,
  if decide (h_partial (pm_proc s h) = old)
  then Ok (true, pm_upd_procs <[h := mkProcheap (h_active (pm_proc s h)) new (h_sc (pm_proc s h))]> s)
  else Ok (false, s).
Definition cas_anchor (d : Z) (old new : anchor) : PM bool := λ s,
  if decide (d_anchor (pm_desc s d) = old)
  then Ok (true, pm_upd_descs <[d := with_anchor new (pm_desc s d)]> s)
  else Ok (false, s).
Definition cas_avail (old new : Z * Z) : PM bool := λ s,
  if decide (pm_avail s = old) then Ok (true, pm_set_avail new s) else Ok (false, s).
Definition cas_init (old new : Z) : PM bool := λ s,
  if decide (pm_init_flag s = old) then Ok (true, pm_set_init new s) else Ok (false, s).

(** ** Mappings *)

(** A new anonymous mapping reads as zero. *)
Definition outside (a len : Z) {A} (m : gmap Z A) : gmap Z A := filter (λ kv, kv.1 < a ∨ a + len ≤ kv.1) m.

Definition map_range (a len : Z) (s : pmstate) : pmstate :=
  mkPm (outside a len (pm_mem s)) (outside a len (pm_descs s)) (outside a len (pm_nexts s)) (pm_fifos s)
    (outside a len (pm_procs s)) (pm_heaps s) (pm_avail s) (pm_init_flag s) (drop 1 (pm_supply s))
    (<[a := len]> (pm_mapped s)) (pm_log s).

Definition mmap (len : Z) : PM (option Z) := λ s,
  match pm_supply s with
  | Some a :: _ => Ok (Some a, map_range a len s)
  | _ => Ok (None, s)
  end.

(** [munmap] of a whole mapping; an address that is not page-aligned is refused
    with [EINVAL], which no caller looks at. *)
Definition munmap (a len : Z) : PM unit := λ s,
  if negb (a mod PAGESIZE =? 0) then Ok (tt, s)
  else if decide (pm_mapped s !! a = Some len)
  then Ok (tt, mkPm (pm_mem s) (pm_descs s) (pm_nexts s) (pm_fifos s) (pm_procs s) (pm_heaps s) (pm_avail s)
                 (pm_init_flag s) (pm_supply s) (delete a (pm_mapped s)) (pm_log s))
  else Fail.

(** [AllocNewSB] exits when there is no mapping. *)
Definition AllocNewSB (size : Z) : PM Z :=
  r ← mmap size;
  match r with
  | Some a => if a =? 0 then st_fail else mret a
  | None => st_fail
  end.

(** ** Descriptors *)

(** The loop of [organize_desc_list], [n] rounds from [ptr]; then the last entry. *)
Fixpoint organize_desc_loop (n : nat) (ptr stride : Z) : PM Z :=
  match n with
  | O => mret ptr
  | S n' =>
      let ptr' := u64 (ptr + stride) in
      upd_desc ptr' (with_Next (u64 (ptr' + stride)));;
      FLUSH (ptr' + off_Next);;
      organize_desc_loop n' ptr' stride
  end.

(** The first [Next] is computed on a [descriptor*], in units of descriptors. *)
Definition organize_desc_list (start cnt stride : Z) : PM unit :=
  upd_desc start (with_Next (u64 (start + stride * sizeof_descriptor)));;
  FLUSH (start + off_Next);;
  ptr ← organize_desc_loop (Z.to_nat (cnt - 2)) start stride;
  let ptr' := u64 (ptr + stride) in
  upd_desc ptr' (with_Next 0);;
  FLUSH (ptr' + off_Next).

(** [organize_list]: blocks 1 to [cnt - 2] get the index of their successor. *)
Fixpoint organize_loop (n : nat) (i ptr stride : Z) : PM unit :=
  match n with
  | O => mret tt
  | S n' =>
      let ptr' := u64 (ptr + stride) in
      store_word ptr' (u64 (i + 1));;
      FLUSH ptr';;
      organize_loop n' (i + 1) ptr' stride
  end.

Definition organize_list (start cnt stride : Z) : PM unit :=
  organize_loop (Z.to_nat (cnt - 2)) 1 start stride.

Fixpoint DescAlloc (fuel : nat) : PM Z :=
  match fuel with
  | O => st_nofuel
  | S fuel' =>
      old ← st_gets pm_avail;
      if negb (old.1 =? 0) then
        next ← st_gets (λ s, d_Next (pm_desc s (old.1)));
        FLUSHFENCE;;
        ok ← cas_avail old (next, u64 (old.2 + 1));
        if ok : bool then FLUSH_AT LQueueHead;; FLUSHFENCE;; mret (old.1) else DescAlloc fuel'
      else
        desc ← AllocNewSB DESCSBSIZE;
        organize_desc_list desc (DESCSBSIZE / sizeof_descriptor) sizeof_descriptor;;
        next ← st_gets (λ s, d_Next (pm_desc s desc));
        FLUSHFENCE;;
        ok ← cas_avail old (next, u64 (old.2 + 1));
        if ok : bool then FLUSH_AT LQueueHead;; FLUSHFENCE;; mret desc
        else munmap desc DESCSBSIZE;; DescAlloc fuel'
  end.

Fixpoint DescRetire_loop (fuel : nat) (desc : Z) : PM unit :=
  match fuel with
  | O => st_nofuel
  | S fuel' =>
      old ← st_gets pm_avail;
      upd_desc desc (with_Next (old.1));;
      FLUSH (desc + off_Next);;
      FLUSHFENCE;;
      ok ← cas_avail old (desc, u64 (old.2 + 1));
      if ok : bool then mret tt else DescRetire_loop fuel' desc
  end.

Definition DescRetire (fuel : nat) (desc : Z) : PM unit :=
  DescRetire_loop fuel desc;; FLUSH_AT LQueueHead;; FLUSHFENCE.

Section PmMalloc.
Context (sizeclasses_addr : Z).   (* &sizeclasses *)

Definition dummy_addr (i : Z) : Z := sizeclasses_addr + i * sizeof_sizeclass + dummy_offset.

(** An operation of the queue of size class [i]. *)
Definition on_queue {A} (i : Z) (m : QM A) : PM A := λ s,
  match m (mkQ (default (mkFifo 0 (Aba 0 0) (Aba 0 0)) (pm_fifos s !! i)) (pm_nexts s)) with
  | Ok (a, q) => Ok (a, pm_set_queue i q s)
  | Fail => Fail
  | NoFuel => NoFuel
  end.

Definition sizeclass_init : PM unit :=
  foldr (λ i k, on_queue i (st_mod (lf_fifo_init (dummy_addr i)));; FLUSH_AT (LPartial i);;  k)
    (mret tt) (seqZ 0 (2048 / GRANULARITY)).

Definition pm_init : PM unit := sizeclass_init.

(** ** Partial superblocks *)

Definition ListGetPartial (fuel : nat) (sc : Z) : PM Z :=
  on_queue sc (lf_fifo_dequeue (dummy_addr sc) fuel).

Definition ListPutPartial (fuel : nat) (desc : Z) : PM unit :=
  sc ← st_gets (λ s, h_sc (pm_proc s (d_heap (pm_desc s desc))));
  on_queue sc (lf_fifo_enqueue fuel desc).

Fixpoint ListRemoveEmptyDesc (fuel : nat) (sc num_non_empty : Z) : PM unit :=
  match fuel with
  | O => st_nofuel
  | S fuel' =>
      desc ← ListGetPartial fuel' sc;
      if desc =? 0 then mret tt
      else
        sb ← st_gets (λ s, d_sb (pm_desc s desc));
        if sb =? 0 then DescRetire fuel' desc;; ListRemoveEmptyDesc fuel' sc num_non_empty
        else
          on_queue sc (lf_fifo_enqueue fuel' desc);;
          if 2 <=? num_non_empty + 1 then mret tt
          else ListRemoveEmptyDesc fuel' sc (num_non_empty + 1)
  end.

Definition RemoveEmptyDesc (fuel : nat) (heap desc : Z) : PM unit :=
  FLUSHFENCE;;
  ok ← cas_partial heap desc 0;
  FLUSH (heap + off_Partial);;
  FLUSHFENCE;;
  if ok : bool then DescRetire fuel desc
  else sc ← st_gets (λ s, h_sc (pm_proc s heap)); ListRemoveEmptyDesc fuel sc 0.

(** The loop re-reads what the compare-and-swap found. *)
Fixpoint HeapGetPartial_loop (fuel : nat) (heap desc : Z) : PM Z :=
  match fuel with
  | O => st_nofuel
  | S fuel' =>
      if desc =? 0 then
        sc ← st_gets (λ s, h_sc (pm_proc s heap)); ListGetPartial fuel' sc
      else
        FLUSHFENCE;;
        ok ← cas_partial heap desc 0;
        if ok : bool then FLUSH (heap + off_Partial);; FLUSHFENCE;; mret desc
        else cur ← st_gets (λ s, h_partial (pm_proc s heap)); HeapGetPartial_loop fuel' heap cur
  end.

Definition HeapGetPartial (fuel : nat) (heap : Z) : PM Z :=
  desc ← st_gets (λ s, h_partial (pm_proc s heap));
  HeapGetPartial_loop fuel heap desc.

Fixpoint HeapPutPartial_loop (fuel : nat) (desc prev : Z) : PM Z :=
  match fuel with
  | O => st_nofuel
  | S fuel' =>
      FLUSHFENCE;;
      heap ← st_gets (λ s, d_heap (pm_desc s desc));
      ok ← cas_partial heap prev desc;
      if ok : bool then mret prev
      else cur ← st_gets (λ s, h_partial (pm_proc s heap)); HeapPutPartial_loop fuel' desc cur
  end.

Definition HeapPutPartial (fuel : nat) (desc : Z) : PM unit :=
  heap ← st_gets (λ s, d_heap (pm_desc s desc));
  prev0 ← st_gets (λ s, h_partial (pm_proc s heap));
  prev ← HeapPutPartial_loop fuel desc prev0;
  FLUSH (heap + off_Partial);;
  FLUSHFENCE;;
  if negb (prev =? 0) then ListPutPartial fuel prev else mret tt.

(** ** Allocation of small blocks *)

(** [UpdateActive]: install the superblock, or return the credits. *)
Fixpoint return_credits (fuel : nat) (desc morecredits : Z) (old : anchor) : PM unit :=
  match fuel with
  | O => st_nofuel
  | S fuel' =>
      FLUSHFENCE;;
      ok ← cas_anchor desc old (set_state PARTIAL (set_count (count old + morecredits) old));
      if ok : bool then mret tt
      else cur ← st_gets (λ s, d_anchor (pm_desc s desc)); return_credits fuel' desc morecredits cur
  end.

Definition make_active (desc cr : Z) : active := Active (Z.shiftr desc 6 mod 2 ^ 58) (cr mod 2 ^ 6).

Definition UpdateActive (fuel : nat) (heap desc morecredits : Z) : PM unit :=
  FLUSHFENCE;;
  ok ← cas_active heap no_active (make_active desc (morecredits - 1));
  FLUSH (heap + off_Active);;
  FLUSHFENCE;;
  if ok : bool then mret tt
  else
    old ← st_gets (λ s, d_anchor (pm_desc s desc));
    return_credits fuel desc morecredits old;;
    FLUSH (desc + off_Anchor);;
    FLUSHFENCE;;
    HeapPutPartial fuel desc.

Definition mask_credits (a : active) : Z := Z.shiftl (a_ptr a) 6.

(** The header of a small block; the result points behind it. *)
Definition put_header (addr desc : Z) : PM Z :=
  store_char addr SMALL;;
  store_word (addr + TYPE_SIZE) desc;;
  FLUSH addr;;
  FLUSH (addr + TYPE_SIZE);;
  FLUSHFENCE;;
  mret (addr + TYPE_SIZE + PTR_SIZE).

(** [MallocFromActive], first step: the active word before the reservation. *)
Fixpoint reserve_active (fuel : nat) (heap : Z) (old : active) : PM (option active) :=
  match fuel with
  | O => st_nofuel
  | S fuel' =>
      if decide (old = no_active) then mret None
      else
        FLUSHFENCE;;
        ok ← cas_active heap old
          (if credits old =? 0 then no_active else Active (a_ptr old) ((credits old - 1) mod 2 ^ 6));
        if ok : bool then mret (Some old)
        else cur ← st_gets (λ s, h_active (pm_proc s heap)); reserve_active fuel' heap cur
  end.

(** Address of a block: [avail] is an unsigned bit field times an unsigned int. *)
Definition block_addr (d : descriptor) (a : anchor) : Z := u64 (d_sb d + u32 (avail a * d_sz d)).

(** Second step: the block, the anchor before, and the credits taken. *)
Fixpoint pop_active (fuel : nat) (desc : Z) (cr : Z) (old : anchor) : PM (Z * anchor * Z) :=
  match fuel with
  | O => st_nofuel
  | S fuel' =>
      d ← st_gets (λ s, pm_desc s desc);
      let addr := block_addr d old in
      next ← load_word addr;
      let popped := set_tag (tag old + 1) (set_avail (u32 next) old) in
      let morecredits := if (cr =? 0) && negb (count old =? 0) then Z.min (count old) MAXCREDITS else 0 in
      let new :=
        if cr =? 0 then
          if count old =? 0 then set_state FULL popped
          else set_count (count old - morecredits) popped
        else popped in
      FLUSHFENCE;;
      ok ← cas_anchor desc old new;
      if ok : bool then mret (addr, old, morecredits)
      else cur ← st_gets (λ s, d_anchor (pm_desc s desc)); pop_active fuel' desc cr cur
  end.

Definition MallocFromActive (fuel : nat) (heap : Z) : PM Z :=
  old ← st_gets (λ s, h_active (pm_proc s heap));
  r ← reserve_active fuel heap old;
  match r with
  | None => mret 0
  | Some oldactive =>
      FLUSH (heap + off_Active);;
      FLUSHFENCE;;
      let desc := mask_credits oldactive in
      olda ← st_gets (λ s, d_anchor (pm_desc s desc));
      x ← pop_active fuel desc (credits oldactive) olda;
      let '(addr, oldanchor, morecredits) := x in
      FLUSH (desc + off_Anchor);;
      FLUSHFENCE;;
      (if (credits oldactive =? 0) && (0 <? count oldanchor)
       then UpdateActive fuel heap desc morecredits else mret tt);;
      put_header addr desc
  end.

(** [MallocFromPartial]: reserve blocks; an empty superblock's descriptor is
    retired and the search starts again. *)
Fixpoint reserve_partial (fuel : nat) (desc : Z) (old : anchor) : PM (option Z) :=
  match fuel with
  | O => st_nofuel
  | S fuel' =>
      if astate old =? EMPTY then DescRetire fuel' desc;; mret None
      else
        let morecredits := u64 (Z.min (count old - 1) MAXCREDITS) in
        FLUSHFENCE;;
        ok ← cas_anchor desc old
          (set_state (if 0 <? morecredits then ACTIVE else FULL) (set_count (count old - (morecredits + 1)) old));
        if ok : bool then mret (Some morecredits)
        else cur ← st_gets (λ s, d_anchor (pm_desc s desc)); reserve_partial fuel' desc cur
  end.

Fixpoint pop_partial (fuel : nat) (desc : Z) (old : anchor) : PM Z :=
  match fuel with
  | O => st_nofuel
  | S fuel' =>
      d ← st_gets (λ s, pm_desc s desc);
      let addr := block_addr d old in
      next ← load_word addr;
      FLUSHFENCE;;
      ok ← cas_anchor desc old (set_tag (tag old + 1) (set_avail next old));
      if ok : bool then mret addr
      else cur ← st_gets (λ s, d_anchor (pm_desc s desc)); pop_partial fuel' desc cur
  end.

Fixpoint MallocFromPartial (fuel : nat) (heap : Z) : PM Z :=
  match fuel with
  | O => st_nofuel
  | S fuel' =>
      desc ← HeapGetPartial fuel' heap;
      if desc =? 0 then mret 0
      else
        upd_desc desc (with_heap heap);;
        FLUSH (desc + off_heap);;
        old ← st_gets (λ s, d_anchor (pm_desc s desc));
        r ← reserve_partial fuel' desc old;
        match r with
        | None => MallocFromPartial fuel' heap
        | Some morecredits =>
            FLUSH (desc + off_Anchor);;
            FLUSHFENCE;;
            old2 ← st_gets (λ s, d_anchor (pm_desc s desc));
            addr ← pop_partial fuel' desc old2;
            FLUSH (desc + off_Anchor);;
            FLUSHFENCE;;
            (if 0 <? morecredits then UpdateActive fuel' heap desc morecredits else mret tt);;
            put_header addr desc
        end
  end.

Definition MallocFromNewSB (fuel : nat) (heap : Z) : PM Z :=
  sc ← st_gets (λ s, h_sc (pm_proc s heap));
  desc ← DescAlloc fuel;
  sb ← AllocNewSB (sc_sbsize sc);
  upd_desc desc (with_sb sb);;
  upd_desc desc (with_heap heap);;
  upd_desc desc (λ d, with_anchor (set_avail 1 (d_anchor d)) d);;
  upd_desc desc (with_sz (sc_sz sc));;
  upd_desc desc (λ d, with_maxcount (sc_sbsize sc / d_sz d) d);;
  FLUSH (desc + off_sb);; FLUSH (desc + off_heap);; FLUSH (desc + off_sz);; FLUSH (desc + off_maxcount);;
  d ← st_gets (λ s, pm_desc s desc);
  organize_list sb (d_maxcount d) (d_sz d);;
  let newactive := make_active desc (Z.min (d_maxcount d - 1) MAXCREDITS - 1) in
  upd_desc desc (λ d, with_anchor (set_state ACTIVE
    (set_count (Z.max (d_maxcount d - 1 - (credits newactive + 1)) 0) (d_anchor d))) d);;
  FLUSH (desc + off_Anchor);;
  FLUSHFENCE;;
  ok ← cas_active heap no_active newactive;
  if ok : bool then
    FLUSH (heap + off_Active);;
    put_header sb desc
  else
    FLUSH (heap + off_Active);;
    FLUSHFENCE;;
    munmap sb (sc_sbsize sc);;
    DescRetire fuel desc;;
    mret 0.

(** ** The interface *)

(** [find_heap]: 0 for a large block; the index of the last size class is one
    past the end of both arrays. *)
Definition find_heap (t : nat) (sz0 : Z) : PM Z :=
  let sz := u64 (sz0 + HEADER_SIZE) in
  if 2048 <? sz then mret 0
  else
    let i := sz / GRANULARITY in
    st_assert (i <? 2048 / GRANULARITY);;
    heap ← st_gets (λ s, default 0 (pm_heaps s !! (t, i)));
    if heap =? 0 then
      r ← mmap 24;
      match r with
      | None => st_fail     (* writes to MAP_FAILED *)
      | Some h =>
          upd_proc h (λ _, mkProcheap no_active 0 i);;
          FLUSH (h + off_Partial);; FLUSH (h + off_sc);;
          st_mod (pm_set_heap t i h);;
          FLUSH_AT (LHeaps i);;
          FLUSHFENCE;;
          mret h
      end
    else mret heap.

Definition alloc_large_block (sz : Z) : PM Z :=
  let len := u64 (sz + HEADER_SIZE) in
  r ← mmap len;
  match r with
  | None => st_fail
  | Some addr =>
      store_char addr LARGE;;
      store_word (addr + TYPE_SIZE) len;;
      FLUSH addr;;
      FLUSH (addr + TYPE_SIZE);;
      FLUSHFENCE;;
      mret (addr + TYPE_SIZE + PTR_SIZE)
  end.

(** The loop that initialises the library once; where the compare-and-swap fails
    the flag is set. *)
Definition ensure_init : PM unit :=
  flag ← st_gets pm_init_flag;
  if flag =? 0 then
    FLUSHFENCE;;
    ok ← cas_init 0 1;
    if ok : bool then pm_init;; FLUSH_AT LInitFlag;; FLUSHFENCE else mret tt
  else mret tt.

Fixpoint malloc_loop (fuel : nat) (heap : Z) : PM Z :=
  match fuel with
  | O => st_nofuel
  | S fuel' =>
      a1 ← MallocFromActive fuel' heap;
      if negb (a1 =? 0) then mret a1 else
      a2 ← MallocFromPartial fuel' heap;
      if negb (a2 =? 0) then mret a2 else
      a3 ← MallocFromNewSB fuel' heap;
      if negb (a3 =? 0) then mret a3 else malloc_loop fuel' heap
  end.

Definition PM_malloc (fuel : nat) (t : nat) (sz : Z) : PM Z :=
  ensure_init;;
  heap ← find_heap t sz;
  if heap =? 0 then alloc_large_block sz else malloc_loop fuel heap.

(** [PM_free]: push the block; the anchors before and after. *)
Fixpoint free_loop (fuel : nat) (desc ptr sb : Z) (old : anchor) : PM (anchor * anchor * Z) :=
  match fuel with
  | O => st_nofuel
  | S fuel' =>
      store_word ptr (avail old);;
      d ← st_gets (λ s, pm_desc s desc);
      let new1 := set_avail (u64 (ptr - sb) / d_sz d) old in
      let new2 := if astate old =? FULL then set_state PARTIAL new1 else new1 in
      let is_empty := count old =? u32 (d_maxcount d - 1) in
      let new := if is_empty then set_state EMPTY new2 else set_count (count new2 + 1) new2 in
      FLUSHFENCE;;
      ok ← cas_anchor desc old new;
      if ok : bool then mret (old, new, if is_empty then d_heap d else 0)
      else cur ← st_gets (λ s, d_anchor (pm_desc s desc)); free_loop fuel' desc ptr sb cur
  end.

Definition PM_free (fuel : nat) (ptr0 : Z) : PM unit :=
  ensure_init;;
  if ptr0 =? 0 then mret tt
  else
    let ptr := u64 (ptr0 - HEADER_SIZE) in
    c ← load_char ptr;
    if negb (c =? LARGE) && negb (c =? SMALL) then st_mod (pm_emit (EvFree ptr0))
    else if c =? LARGE then len ← load_word (ptr + TYPE_SIZE); munmap ptr len
    else
      desc ← load_word (ptr + TYPE_SIZE);
      sb ← st_gets (λ s, d_sb (pm_desc s desc));
      old ← st_gets (λ s, d_anchor (pm_desc s desc));
      x ← free_loop fuel desc ptr sb old;
      let '(oldanchor, newanchor, heap) := x in
      FLUSH (desc + off_Anchor);;
      FLUSHFENCE;;
      if astate newanchor =? EMPTY then
        sc ← st_gets (λ s, h_sc (pm_proc s heap));
        munmap sb (sc_sbsize sc);;
        RemoveEmptyDesc fuel heap desc
      else if astate oldanchor =? FULL then HeapPutPartial fuel desc
      else mret tt.

(** Products of [size_t] wrap. *)
Definition PM_calloc (fuel : nat) (t : nat) (nmemb size : Z) : PM Z :=
  ptr ← PM_malloc fuel t (u64 (nmemb * size));
  if ptr =? 0 then mret 0
  else st_mod (pm_upd_mem (λ m, memset m ptr 0 (Z.to_nat (u64 (nmemb * size)))));; mret ptr.

Definition PM_valloc (size : Z) : PM Z := st_fail.

Definition PM_memalign (fuel : nat) (t : nat) (boundary size : Z) : PM Z :=
  p ← PM_malloc fuel t (Z.land (u64 (size + boundary - 1)) (u64 (Z.lnot (boundary - 1))));
  if p =? 0 then mret 0
  else mret (Z.land (u64 (p + boundary - 1)) (u64 (Z.lnot (boundary - 1)))).

Definition PM_posix_memalign (fuel : nat) (t : nat) (alignment size : Z) : PM (Z * Z) :=
  p ← PM_memalign fuel t alignment size;
  mret (p, if negb (p =? 0) then 0 else -1).

(** [memcpy], whose ranges have to lie in the pages of mappings: an access to another
    page is a fault. *)
Definition page_up (n : Z) : Z := (n + PAGESIZE - 1) / PAGESIZE * PAGESIZE.
Definition accessible (maps : gmap Z Z) (b : Z) : bool :=
  bool_decide (map_Exists (λ a len, a ≤ b < a + page_up len) maps).
Definition range_accessible (maps : gmap Z Z) (p n : Z) : bool := forallb (accessible maps) (seqZ p n).

Definition checked_memcpy (dst src n : Z) : PM unit :=
  maps ← st_gets pm_mapped;
  st_assert (range_accessible maps src n && range_accessible maps dst n);;
  st_mod (pm_upd_mem (λ m, memcpy m dst src (Z.to_nat n))).

Definition PM_realloc (fuel : nat) (t : nat) (object size : Z) : PM Z :=
  if object =? 0 then PM_malloc fuel t size
  else if size =? 0 then PM_free fuel object;; mret 0
  else
    let header := u64 (object - HEADER_SIZE) in
    c ← load_char header;
    if c =? LARGE then
      ret ← PM_malloc fuel t size;
      len ← load_word (header + TYPE_SIZE);
      checked_memcpy ret object len;;
      len2 ← load_word (header + TYPE_SIZE);
      munmap object len2;;
      mret ret
    else
      desc ← load_word (header + TYPE_SIZE);
      sz ← st_gets (λ s, d_sz (pm_desc s desc));
      if size <=? u64 (sz - HEADER_SIZE) then mret object
      else
        ret ← PM_malloc fuel t size;
        checked_memcpy ret object (u64 (sz - HEADER_SIZE));;
        PM_free fuel object;;
        mret ret.
End PmMalloc.
