(* ===== verification/OldDesc.v ===== *)
(** * Descriptors, heaps and large blocks of the old allocator

    The free list of descriptors, the choice of a size class, and blocks that are
    mapped directly. *)

From Stdlib Require Import ZArith Lia.
From stdpp Require Import base gmap numbers list.
From S2P Require Import Prelude Mem OldQueue OldMalloc.

Local Open Scope Z_scope.
#[local] Set Warnings "-clear-no-such-hyp".

(** A state that differs in descriptors and log only. *)
Definition with_descs (ds : gmap Z descriptor) (lg : list pm_event) (s : pmstate) : pmstate :=
  mkPm (pm_mem s) ds (pm_nexts s) (pm_fifos s) (pm_procs s) (pm_heaps s) (pm_avail s)
    (pm_init_flag s) (pm_supply s) (pm_mapped s) lg.

Definition dget (ds : gmap Z descriptor) (d : Z) : descriptor := default zero_desc (ds !! d).

(** The list [l] of descriptors, linked by [Next] from [p]. *)
Fixpoint dlinked (ds : gmap Z descriptor) (p : Z) (l : list Z) : Prop :=
  match l with
  | [] => p = 0
  | d :: l' => p = d ∧ d ≠ 0 ∧ dlinked ds (d_Next (dget ds d)) l'
  end.

Lemma dlinked_ext ds ds' p l :
  (∀ d, d ∈ l → d_Next (dget ds' d) = d_Next (dget ds d)) → dlinked ds p l → dlinked ds' p l.
Proof.
  revert p. induction l as [|d l IH]; intros p H; cbn [dlinked]; [done|].
  intros (-> & Hd & Hl). split; [done|]. split; [done|]. rewrite (H d) by left.
  apply IH; [|done]. intros x Hx. apply H. by right.
Qed.

Lemma pm_dget_eq ds d x : dget (<[d := x]> ds) d = x.
Proof. unfold dget. by rewrite lookup_insert_eq. Qed.

Lemma pm_dget_ne ds d d' x : d ≠ d' → dget (<[d := x]> ds) d' = dget ds d'.
Proof. intros H. unfold dget. by rewrite lookup_insert_ne. Qed.

(** ** [organize_desc_list] *)

(** [ds'] is [ds] with [Next] of the [n] entries behind [ptr] pointing one on. *)
Definition linked_run (ds ds' : gmap Z descriptor) (ptr stride n : Z) : Prop :=
  (∀ k, 1 ≤ k ≤ n → d_Next (dget ds' (ptr + k * stride)) = ptr + (k + 1) * stride) ∧
  (∀ d, (∀ k, 1 ≤ k ≤ n → d ≠ ptr + k * stride) → ds' !! d = ds !! d).

Lemma organize_desc_loop_spec n ptr stride s :
  0 < stride → 0 ≤ ptr → ptr + (Z.of_nat n + 1) * stride < 2 ^ 64 →
  wp (organize_desc_loop n ptr stride) (λ r s', r = ptr + Z.of_nat n * stride ∧
    ∃ ds lg, s' = with_descs ds lg s ∧ linked_run (pm_descs s) ds ptr stride (Z.of_nat n)) s.
Proof.
  revert ptr s. induction n as [|n IH]; intros ptr s Hs Hp Hb; cbn [organize_desc_loop].
  - apply wp_ret. split; [lia|]. exists (pm_descs s), (pm_log s). split; [by destruct s|].
    split; [lia|done].
  - rewrite !(u64_small (ptr + stride)) by lia. rewrite u64_small by lia.
    unfold upd_desc, FLUSH, FLUSH_AT. wp_steps.
    eapply wp_mono; [apply IH; lia|]. cbn beta. intros r s' (-> & ds & lg & -> & H1 & H2).
    split; [lia|]. exists ds, lg. split; [done|]. cbn [pm_descs pm_emit pm_upd_descs] in H2. split.
    + intros k Hk. destruct (decide (k = 1)) as [->|Hne].
      * unfold dget. rewrite H2 by (intros j Hj; nia). rewrite Z.mul_1_l, lookup_insert_eq. cbn. lia.
      * replace (ptr + k * stride) with (ptr + stride + (k - 1) * stride) by lia. rewrite H1 by lia. lia.
    + intros d Hd. rewrite H2.
      * rewrite lookup_insert_ne; [done|]. intros <-. apply (Hd 1); lia.
      * intros k Hk. intros ->. apply (Hd (k + 1)); lia.
Qed.

(** The list a new block of [cnt] descriptors leaves behind its first entry starts
    [stride] descriptors further on. *)
Lemma organize_desc_list_spec start cnt stride s :
  2 ≤ cnt → 0 < stride < cnt → 0 < start → start + (cnt + 1) * stride < 2 ^ 64 → stride = sizeof_descriptor →
  wp (organize_desc_list start cnt stride) (λ _ s', ∃ ds lg, s' = with_descs ds lg s ∧
    dlinked ds (d_Next (dget ds start)) ((λ k, start + k * stride) <$> seqZ stride (cnt - stride)) ∧
    ∀ d, (∀ k, 0 ≤ k < cnt → d ≠ start + k * stride) → ds !! d = pm_descs s !! d) s.
Proof.
  intros Hc Hst Hp Hb ->. change sizeof_descriptor with 64 in *. unfold organize_desc_list, upd_desc, FLUSH, FLUSH_AT. wp_steps.
  eapply wp_mono; [apply organize_desc_loop_spec; lia|]. rewrite Z2Nat.id by lia.
  cbn beta. intros r s' (-> & ds & lg & -> & H1 & H2). wp_steps. cbn [pm_descs pm_emit pm_upd_descs] in *.
  rewrite u64_small by lia. set (q := start + (cnt - 2) * 64 + 64).
  eexists (<[q := _]> ds), _. split; [reflexivity|].
  assert (∀ k, 0 ≤ k < cnt - 1 → start + k * 64 ≠ q) as Hq by (intros k Hk; unfold q; lia).
  split.
  - rewrite pm_dget_ne by (intros E; apply (Hq 0); lia).
    assert (d_Next (dget ds start) = start + 64 * 64) as ->.
    { unfold dget. rewrite H2 by (intros k Hk; lia). rewrite lookup_insert_eq. cbn. change sizeof_descriptor with 64. apply u64_small. lia. }
    assert (∀ n j, 1 ≤ j → j + Z.of_nat n = cnt → (0 < n)%nat →
      dlinked (<[q := with_Next 0 (pm_desc (with_descs ds lg (pm_emit (EvFlush (At (start + off_Next)))
        (pm_upd_descs <[start := with_Next (u64 (start + 64 * 64)) (pm_desc s start)]> s))) q)]> ds)
        (start + j * 64) ((λ k, start + k * 64) <$> seqZ j (Z.of_nat n))) as Hgen.
    { intros n. induction n as [|n IH]; intros j Hj He Hn; [lia|].
      rewrite (seqZ_cons j) by lia. cbn [fmap list_fmap dlinked]. split; [done|]. split; [lia|].
      replace (Z.pred (Z.of_nat (S n))) with (Z.of_nat n) by lia. destruct n as [|n].
      - cbn. assert (start + j * 64 = q) as -> by (unfold q; lia). by rewrite pm_dget_eq.
      - rewrite pm_dget_ne by (intros E; apply (Hq j); [lia|done]).
        rewrite H1 by lia. apply IH; lia. }
    specialize (Hgen (Z.to_nat (cnt - 64)) 64). rewrite Z2Nat.id in Hgen by lia. apply Hgen; lia.
  - intros d Hd. rewrite lookup_insert_ne by (intros <-; apply (Hd (cnt - 1)); unfold q; lia).
    rewrite H2 by (intros k Hk; apply Hd; lia). rewrite lookup_insert_ne; [done|].
    intros <-. apply (Hd 0); lia.
Qed.

(** ** [DescAlloc] and [DescRetire] *)

(** Close a goal by a hypothesis about all logs. *)
Ltac any_log HQ := match goal with |- _ ?S => exact (HQ (pm_log S)) end.

(** The free descriptors. *)
Definition desc_list (s : pmstate) (l : list Z) : Prop := dlinked (pm_descs s) (pm_avail s).1 l.

Lemma DescRetire_run fuel d s Q :
  (∀ lg, Q tt (pm_set_avail (d, u64 ((pm_avail s).2 + 1))
    (with_descs (<[d := with_Next ((pm_avail s).1) (pm_desc s d)]> (pm_descs s)) lg s))) →
  wp (DescRetire (S fuel) d) Q s.
Proof.
  intros HQ. unfold DescRetire. cbn [DescRetire_loop]. unfold upd_desc, FLUSH, FLUSH_AT, FLUSHFENCE. wp_steps.
  unfold cas_avail. unfold wp at 1. cbn [pm_avail pm_emit pm_upd_descs]. rewrite decide_True by done. wp_steps.
  any_log HQ.
Qed.

Lemma DescRetire_list fuel d l s :
  desc_list s l → d ≠ 0 → d ∉ l →
  wp (DescRetire (S fuel) d) (λ _ s', desc_list s' (d :: l)) s.
Proof.
  intros Hl Hd Hn. apply DescRetire_run. intros lg. unfold desc_list.
  cbn [pm_avail pm_set_avail pm_descs with_descs dlinked fst]. split; [done|]. split; [done|].
  rewrite pm_dget_eq. cbn [with_Next d_Next]. eapply dlinked_ext; [|exact Hl].
  intros x Hx. rewrite pm_dget_ne; [done|]. by intros ->.
Qed.

Lemma DescAlloc_list fuel d l s Q :
  desc_list s (d :: l) →
  (∀ lg, Q d (pm_set_avail (d_Next (pm_desc s d), u64 ((pm_avail s).2 + 1)) (with_descs (pm_descs s) lg s))) →
  wp (DescAlloc (S fuel)) Q s.
Proof.
  intros (E & Hd & Hl) HQ. cbn [DescAlloc]. unfold FLUSHFENCE, FLUSH_AT. wp_steps.
  rewrite E, (proj2 (Z.eqb_neq d 0)) by done. cbn [negb]. wp_steps.
  unfold cas_avail. unfold wp at 1. cbn [pm_avail pm_emit]. rewrite decide_True by done. wp_steps. any_log HQ.
Qed.

(** A block of descriptors mapped at [a]. *)
Definition desc_block (a : Z) : list Z := (λ k, a + k * sizeof_descriptor) <$> seqZ 64 960.

Lemma DescAlloc_new fuel a sup s Q :
  (pm_avail s).1 = 0 → pm_supply s = Some a :: sup → 0 < a → a + DESCSBSIZE + PAGESIZE < 2 ^ 64 →
  (∀ ds lg nx, let s1 := map_range a DESCSBSIZE s in
    dlinked ds nx (desc_block a) →
    (∀ d, (∀ k, 0 ≤ k < 1024 → d ≠ a + k * sizeof_descriptor) → ds !! d = pm_descs s1 !! d) →
    Q a (pm_set_avail (nx, u64 ((pm_avail s).2 + 1)) (with_descs ds lg s1))) →
  wp (DescAlloc (S fuel)) Q s.
Proof.
  intros E0 Hsup Ha Hb HQ. cbn [DescAlloc]. unfold FLUSHFENCE, FLUSH_AT. wp_steps.
  rewrite E0. change (0 =? 0) with true. cbn [negb]. unfold AllocNewSB. wp_steps.
  unfold mmap. unfold wp at 1. rewrite Hsup. rewrite (proj2 (Z.eqb_neq a 0)) by lia. wp_steps.
  change (DESCSBSIZE / sizeof_descriptor) with 1024. change DESCSBSIZE with 65536 in *. change PAGESIZE with 4096 in *.
  eapply wp_mono.
  { apply organize_desc_list_spec; try done; change sizeof_descriptor with 64; lia. }
  cbn beta. intros _ s' (ds & lg & -> & H1 & H2). wp_steps. unfold cas_avail. unfold wp at 1.
  cbn [pm_avail pm_emit with_descs map_range]. rewrite decide_True by done. wp_steps.
  match goal with |- _ ?S => exact (HQ ds (pm_log S) _ H1 H2) end.
Qed.

(** ** Block sizes *)

Lemma sc_sz_all : forallb (λ i, sc_sz i =? 8 * (i + 1)) (seqZ 0 256) = true.
Proof. by vm_compute. Qed.

Lemma sc_sz_eq i : 0 ≤ i < 256 → sc_sz i = 8 * (i + 1).
Proof.
  intros Hi. pose proof sc_sz_all as H. rewrite forallb_forall in H.
  apply Z.eqb_eq, H. apply list_elem_of_In, elem_of_seqZ. lia.
Qed.

(** Blocks of a superblock. *)
Definition sc_max (i : Z) : Z := SBSIZE / sc_sz i.

Lemma sc_max_all : forallb (λ i, (32 <=? sc_max i) && (sc_max i <=? 4096) && (sc_max i * sc_sz i <=? SBSIZE)) (seqZ 1 255) = true.
Proof. by vm_compute. Qed.

Lemma sc_max_bounds i : 1 ≤ i < 256 → 32 ≤ sc_max i ≤ 4096 ∧ sc_max i * sc_sz i ≤ SBSIZE.
Proof.
  intros Hi. pose proof sc_max_all as H. rewrite forallb_forall in H.
  assert (i ∈ seqZ 1 255) as Hin by (apply elem_of_seqZ; lia).
  specialize (H i (proj1 (list_elem_of_In _ _) Hin)). apply andb_prop in H as [[H1 H2]%andb_prop H3]. lia.
Qed.
