(* ===== verification/OldLarge.v ===== *)
(** * Blocks of the old allocator that are mapped directly

    A request of more than 2036 bytes gets a mapping of its own, whose first 12
    bytes are the header. *)

From Stdlib Require Import ZArith Lia.
From stdpp Require Import base gmap numbers list.
From S2P Require Import Prelude Mem OldQueue OldMalloc OldDesc.

Local Open Scope Z_scope.

Definition with_log (lg : list pm_event) (s : pmstate) : pmstate := with_descs (pm_descs s) lg s.

(** The header of a large block at [a]. *)
Definition large_header (m : mem) (a len : Z) : Prop := load8 m a = LARGE ∧ load64 m (a + TYPE_SIZE) = len.

Definition put_large (a len : Z) (m : mem) : mem := store64 (store8 m a LARGE) (a + TYPE_SIZE) len.

Definition unmapped (a : Z) (s : pmstate) : pmstate :=
  mkPm (pm_mem s) (pm_descs s) (pm_nexts s) (pm_fifos s) (pm_procs s) (pm_heaps s) (pm_avail s)
    (pm_init_flag s) (pm_supply s) (delete a (pm_mapped s)) (pm_log s).

Lemma put_large_header a len m : 0 ≤ len < 2 ^ 64 → large_header (put_large a len m) a len.
Proof.
  intros H. unfold large_header, put_large. change TYPE_SIZE with 4. split.
  - rewrite load8_store64_ne by lia. apply load8_store8_eq.
  - rewrite load64_store64_eq. by apply u64_small.
Qed.

Lemma put_large_outside a len m b : b < a ∨ a + HEADER_SIZE ≤ b → load8 (put_large a len m) b = load8 m b.
Proof.
  change HEADER_SIZE with 12. intros H. unfold put_large. change TYPE_SIZE with 4.
  rewrite load8_store64_ne by lia. by rewrite load8_store8_ne by lia.
Qed.

Lemma large_header_ext m m' a len :
  (∀ b, a ≤ b < a + HEADER_SIZE → load8 m' b = load8 m b) → large_header m a len → large_header m' a len.
Proof.
  change HEADER_SIZE with 12. intros H (H1 & H2). unfold large_header. change TYPE_SIZE with 4 in *.
  split; [rewrite H by lia; done|]. rewrite <- H2. apply load64_ext. intros b Hb. apply H. lia.
Qed.

(** A new mapping reads as zero, and the rest of the memory is as it was. *)
Lemma load8_outside a len (m : mem) b :
  load8 (outside a len m) b = if decide (a ≤ b < a + len) then 0 else load8 m b.
Proof.
  unfold load8, outside. case_decide as Hb.
  - replace (filter _ m !! b) with (@None Z); [done|]. symmetry. apply map_lookup_filter_None. right.
    intros v _ [H|H]; cbn in H; lia.
  - f_equal. f_equal. apply option_eq. intros v. rewrite map_lookup_filter_Some. cbn. split; [by intros [H _]|].
    intros H. split; [done|]. lia.
Qed.

Lemma find_heap_large t sz s : 2036 < sz < 2 ^ 64 - HEADER_SIZE → find_heap t sz s = Ok (0, s).
Proof.
  change HEADER_SIZE with 12. intros H. unfold find_heap. change HEADER_SIZE with 12.
  rewrite u64_small by lia. by rewrite (proj2 (Z.ltb_lt _ _)) by lia.
Qed.

Section Large.
Context (sca : Z).

Lemma ensure_init_done s : pm_init_flag s ≠ 0 → ensure_init sca s = Ok (tt, s).
Proof.
  intros H. unfold ensure_init, mbind, st_mbind, st_bind, st_gets.
  by rewrite (proj2 (Z.eqb_neq _ _)).
Qed.

Lemma wp_ensure_init Q s : pm_init_flag s ≠ 0 → Q tt s → wp (ensure_init sca) Q s.
Proof. intros H HQ. unfold wp. by rewrite ensure_init_done. Qed.

Lemma PM_malloc_large fuel t sz s a sup Q :
  pm_init_flag s ≠ 0 → 2036 < sz < 2 ^ 64 - HEADER_SIZE → pm_supply s = Some a :: sup →
  (∀ lg, Q (a + HEADER_SIZE)
    (with_log lg (pm_upd_mem (put_large a (sz + HEADER_SIZE)) (map_range a (sz + HEADER_SIZE) s)))) →
  wp (PM_malloc sca fuel t sz) Q s.
Proof.
  intros Hi Hsz Hsup HQ. unfold PM_malloc. apply wp_bind, wp_ensure_init; [done|]. apply wp_bind.
  unfold wp at 1. rewrite find_heap_large by done. cbn [Z.eqb]. unfold alloc_large_block.
  change HEADER_SIZE with 12 in *. rewrite u64_small by lia. apply wp_bind. unfold mmap. unfold wp at 1. rewrite Hsup.
  unfold store_char, store_word, FLUSH, FLUSH_AT, FLUSHFENCE. wp_steps.
  change (a + TYPE_SIZE + PTR_SIZE) with (a + 4 + 8). replace (a + 4 + 8) with (a + 12) by lia. any_log HQ.
Qed.

Lemma PM_free_large fuel a len s Q :
  pm_init_flag s ≠ 0 → 0 ≤ a → a + HEADER_SIZE < 2 ^ 64 → a mod PAGESIZE = 0 → large_header (pm_mem s) a len →
  pm_mapped s !! a = Some len → Q tt (unmapped a s) → wp (PM_free sca fuel (a + HEADER_SIZE)) Q s.
Proof.
  change HEADER_SIZE with 12. intros Hi Ha Hb Hal (H1 & H2) Hm HQ. unfold PM_free. change HEADER_SIZE with 12.
  apply wp_bind, wp_ensure_init; [done|]. rewrite (proj2 (Z.eqb_neq (a + 12) 0)) by lia.
  replace (a + 12 - 12) with a by lia. rewrite u64_small by lia. unfold load_char. wp_steps. rewrite H1.
  cbn [Z.eqb Pos.eqb LARGE SMALL negb andb]. unfold load_word. wp_steps. rewrite H2.
  unfold munmap, wp. rewrite Hal. cbn [Z.eqb negb]. by rewrite decide_True.
Qed.

(** [PM_realloc] of a large block, up to the copy. *)
Lemma PM_realloc_large_run fuel t a len sz s b sup :
  pm_init_flag s ≠ 0 → 0 ≤ a → a + HEADER_SIZE < 2 ^ 64 → large_header (pm_mem s) a len →
  2036 < sz < 2 ^ 64 - HEADER_SIZE → pm_supply s = Some b :: sup → a + HEADER_SIZE ≤ b ∨ b + sz + HEADER_SIZE ≤ a →
  ∃ lg, PM_realloc sca fuel t (a + HEADER_SIZE) sz s =
    (checked_memcpy (b + HEADER_SIZE) (a + HEADER_SIZE) len;;
     len2 ← load_word (a + TYPE_SIZE); munmap (a + HEADER_SIZE) len2;; mret (b + HEADER_SIZE))
    (with_log lg (pm_upd_mem (put_large b (sz + HEADER_SIZE)) (map_range b (sz + HEADER_SIZE) s))).
Proof.
  intros Hi Ha Hb Hh Hsz Hsup Hd. change HEADER_SIZE with 12 in *.
  assert (wp (PM_malloc sca fuel t sz) (λ p s', p = b + 12 ∧ ∃ lg,
    s' = with_log lg (pm_upd_mem (put_large b (sz + 12)) (map_range b (sz + 12) s))) s) as Hm.
  { eapply PM_malloc_large; [done|change HEADER_SIZE with 12; lia|exact Hsup|]. eauto. }
  apply wp_spec in Hm as (p & s' & E & -> & lg & ->). exists lg. unfold PM_realloc. change HEADER_SIZE with 12.
  rewrite (proj2 (Z.eqb_neq (a + 12) 0)), (proj2 (Z.eqb_neq sz 0)) by lia.
  replace (a + 12 - 12) with a by lia. rewrite u64_small by lia.
  unfold load_char at 1, mbind at 1, st_mbind at 1, st_bind at 1, st_gets at 1. rewrite (proj1 Hh).
  change (LARGE =? LARGE) with true. cbn match. unfold mbind at 1, st_mbind at 1, st_bind at 1. rewrite E.
  unfold mbind at 1, st_mbind at 1, st_bind at 1.
  assert (large_header (put_large b (sz + 12) (outside b (sz + 12) (pm_mem s))) a len) as [_ Hl].
  { eapply large_header_ext; [|exact Hh]. change HEADER_SIZE with 12. intros c Hc.
    rewrite put_large_outside by (change HEADER_SIZE with 12; lia). by rewrite load8_outside, decide_False by lia. }
  unfold load_word at 1, st_gets at 1. cbn [pm_mem with_log with_descs pm_upd_mem map_range]. by rewrite Hl.
Qed.

(** The object of a large block is not page-aligned, so that [munmap] refuses it. *)
Lemma munmap_object a len s : a mod PAGESIZE = 0 → munmap (a + HEADER_SIZE) len s = Ok (tt, s).
Proof.
  intros Hal. unfold munmap. replace ((a + HEADER_SIZE) mod PAGESIZE) with 12; [done|].
  change PAGESIZE with 4096 in *. change HEADER_SIZE with 12. by rewrite Z.add_mod, Hal by lia.
Qed.

Lemma page_up_bounds n : 0 ≤ n → n ≤ page_up n < n + 4096.
Proof.
  intros Hn. unfold page_up. change PAGESIZE with 4096. pose proof (Z.div_mod (n + 4096 - 1) 4096 ltac:(lia)).
  pose proof (Z.mod_pos_bound (n + 4096 - 1) 4096 ltac:(lia)). lia.
Qed.

(** Which copies fault. *)
Lemma range_accessible_true maps p n :
  range_accessible maps p n = true ↔ ∀ x, p ≤ x < p + n → ∃ a len, maps !! a = Some len ∧ a ≤ x < a + page_up len.
Proof.
  unfold range_accessible. rewrite forallb_forall. split.
  - intros H x Hx. specialize (H x). rewrite <- list_elem_of_In, elem_of_seqZ in H. specialize (H Hx).
    apply bool_decide_eq_true in H as (a & len & ? & ?). eauto.
  - intros H x Hx%list_elem_of_In%elem_of_seqZ. apply bool_decide_eq_true. by apply H.
Qed.

Lemma range_in_mapping maps a len p n :
  maps !! a = Some len → a ≤ p → p + n ≤ a + page_up len → range_accessible maps p n = true.
Proof. intros Hm Hp Hn. apply range_accessible_true. intros x Hx. exists a, len. split; [done|lia]. Qed.

Lemma range_fault maps p n x : p ≤ x < p + n → accessible maps x = false → range_accessible maps p n = false.
Proof.
  intros Hx Hf. apply not_true_iff_false. rewrite range_accessible_true. intros H.
  apply bool_decide_eq_false in Hf. apply Hf. destruct (H x Hx) as (a & len & ? & ?). by exists a, len.
Qed.
End Large.
