(* ===== verification/OldRun.v ===== *)
(** * Runs of the old allocator's operations on one superblock

    What the functions that take blocks from a superblock and give them back do to
    the state, as explicit final states (up to the log), by cases of the anchor. *)

From Stdlib Require Import ZArith Lia.
From stdpp Require Import base gmap numbers list.
From S2P Require Import Prelude Mem OldQueue OldMalloc OldDesc OldLarge.

Local Open Scope Z_scope.
#[local] Set Warnings "-clear-no-such-hyp".

(** A state that differs in memory, descriptors, heaps and log. *)
Definition st_upd (m : mem) (ds : gmap Z descriptor) (ps : gmap Z procheap) (lg : list pm_event) (s : pmstate) : pmstate :=
  mkPm m ds (pm_nexts s) (pm_fifos s) ps (pm_heaps s) (pm_avail s) (pm_init_flag s) (pm_supply s) (pm_mapped s) lg.

Lemma emit_upd e s : pm_emit e s = st_upd (pm_mem s) (pm_descs s) (pm_procs s) (e :: pm_log s) s.
Proof. done. Qed.
Lemma mem_upd f s : pm_upd_mem f s = st_upd (f (pm_mem s)) (pm_descs s) (pm_procs s) (pm_log s) s.
Proof. done. Qed.
Lemma descs_upd f s : pm_upd_descs f s = st_upd (pm_mem s) (f (pm_descs s)) (pm_procs s) (pm_log s) s.
Proof. done. Qed.
Lemma procs_upd f s : pm_upd_procs f s = st_upd (pm_mem s) (pm_descs s) (f (pm_procs s)) (pm_log s) s.
Proof. done. Qed.
Lemma log_upd lg s : with_log lg s = st_upd (pm_mem s) (pm_descs s) (pm_procs s) lg s.
Proof. done. Qed.
Lemma upd_upd m ds ps lg m' ds' ps' lg' s : st_upd m ds ps lg (st_upd m' ds' ps' lg' s) = st_upd m ds ps lg s.
Proof. done. Qed.
Lemma pm_desc_upd m ds ps lg s d : pm_desc (st_upd m ds ps lg s) d = dget ds d.
Proof. done. Qed.
Lemma pm_proc_upd m ds ps lg s h : pm_proc (st_upd m ds ps lg s) h = default (mkProcheap no_active 0 0) (ps !! h).
Proof. done. Qed.
Lemma pm_desc_get s d : pm_desc s d = dget (pm_descs s) d.
Proof. done. Qed.

(** Bring a state into the form [st_upd m ds ps lg s]. *)
Ltac st_norm :=
  repeat (progress (rewrite ?emit_upd, ?mem_upd, ?descs_upd, ?procs_upd, ?log_upd, ?upd_upd, ?pm_desc_upd, ?pm_proc_upd;
    cbn [pm_mem pm_descs pm_nexts pm_fifos pm_procs pm_heaps pm_avail pm_init_flag pm_supply pm_mapped pm_log st_upd])).

Ltac wp_norm := repeat (wp_step; st_norm; rewrite ?pm_dget_eq, ?insert_insert_eq).

Ltac any_log0 HQ := match goal with |- _ ?x ?S => exact (HQ (pm_log S)) end.

Definition set_active (a : active) (P : procheap) : procheap := mkProcheap a (h_partial P) (h_sc P).
Definition set_partial (d : Z) (P : procheap) : procheap := mkProcheap (h_active P) d (h_sc P).

(** The header of a small block at [a]. *)
Definition small_header (m : mem) (a d : Z) : Prop := load8 m a = SMALL ∧ load64 m (a + TYPE_SIZE) = d.
Definition put_small (a d : Z) (m : mem) : mem := store64 (store8 m a SMALL) (a + TYPE_SIZE) d.

Lemma put_small_header a d m : 0 ≤ d < 2 ^ 64 → small_header (put_small a d m) a d.
Proof.
  intros H. unfold small_header, put_small. change TYPE_SIZE with 4. split.
  - rewrite load8_store64_ne by lia. apply load8_store8_eq.
  - rewrite load64_store64_eq. by apply u64_small.
Qed.

Lemma put_small_outside a d m b : b < a ∨ a + HEADER_SIZE ≤ b → load8 (put_small a d m) b = load8 m b.
Proof.
  change HEADER_SIZE with 12. intros H. unfold put_small. change TYPE_SIZE with 4.
  rewrite load8_store64_ne by lia. by rewrite load8_store8_ne by lia.
Qed.

Lemma small_header_ext m m' a d :
  (∀ b, a ≤ b < a + HEADER_SIZE → load8 m' b = load8 m b) → small_header m a d → small_header m' a d.
Proof.
  change HEADER_SIZE with 12. intros H (H1 & H2). unfold small_header. change TYPE_SIZE with 4 in *.
  split; [rewrite H by lia; done|]. rewrite <- H2. apply load64_ext. intros b Hb. apply H. lia.
Qed.

Lemma put_header_run a d s Q :
  (∀ lg, Q (a + HEADER_SIZE) (with_log lg (pm_upd_mem (put_small a d) s))) → wp (put_header a d) Q s.
Proof.
  intros HQ. unfold put_header, store_char, store_word, FLUSH, FLUSH_AT, FLUSHFENCE. wp_steps.
  change (a + TYPE_SIZE + PTR_SIZE) with (a + 4 + 8). replace (a + 4 + 8) with (a + HEADER_SIZE) by (change HEADER_SIZE with 12; lia).
  any_log0 HQ.
Qed.

(** ** Taking a block from the active superblock *)

Lemma make_active_ne d c : 0 < d < 2 ^ 64 → d mod 64 = 0 → make_active d c ≠ no_active.
Proof.
  intros Hd Hm. unfold make_active, no_active. intros [= E _]. rewrite Z.shiftr_div_pow2 in E by lia.
  change (2 ^ 6) with 64 in E. pose proof (Z.div_mod d 64 ltac:(lia)). rewrite Hm in H.
  rewrite Z.mod_small in E by lia. lia.
Qed.

Lemma make_active_desc d c : 0 ≤ d < 2 ^ 64 → d mod 64 = 0 → mask_credits (make_active d c) = d.
Proof.
  intros Hd Hm. unfold make_active, mask_credits. cbn [a_ptr]. rewrite Z.shiftr_div_pow2, Z.shiftl_mul_pow2 by lia.
  change (2 ^ 6) with 64. pose proof (Z.div_mod d 64 ltac:(lia)). rewrite Hm in H.
  rewrite Z.mod_small by lia. lia.
Qed.

Lemma make_active_credits d c : 0 ≤ c < 64 → credits (make_active d c) = c.
Proof. intros H. unfold make_active. cbn [credits]. by apply Z.mod_small. Qed.

(** Credits after one is used, and how many come from the count. *)
Definition next_active (d c n : Z) : active :=
  if 0 <? c then make_active d (c - 1)
  else if n =? 0 then no_active else make_active d (Z.min n MAXCREDITS - 1).
Definition next_count (c n : Z) : Z := if 0 <? c then n else n - Z.min n MAXCREDITS.
Definition next_state (c n st : Z) : Z := if 0 <? c then st else if n =? 0 then FULL else st.

(** The anchor without its first block. *)
Definition popped (A : anchor) (next count st : Z) : anchor := Anchor (next mod 2 ^ 24) count st ((tag A + 1) mod 2 ^ 14).

Lemma reserve_active_run fuel h d c s Q :
  h_active (pm_proc s h) = make_active d c → 0 < d < 2 ^ 64 → d mod 64 = 0 → 0 ≤ c < 64 →
  (∀ lg, Q (Some (make_active d c)) (st_upd (pm_mem s) (pm_descs s)
     (<[h := set_active (if c =? 0 then no_active else make_active d (c - 1)) (pm_proc s h)]> (pm_procs s)) lg s)) →
  wp (reserve_active (S fuel) h (make_active d c)) Q s.
Proof.
  intros Ha Hd Hm Hc HQ. cbn [reserve_active]. rewrite decide_False by (by apply make_active_ne).
  unfold FLUSHFENCE, FLUSH_AT. wp_steps. unfold cas_active. unfold wp at 1.
  change (pm_proc (pm_emit EvFence s) h) with (pm_proc s h). rewrite decide_True by done. wp_steps.
  rewrite make_active_credits by done.
  replace (Active (a_ptr (make_active d c)) ((c - 1) mod 2 ^ 6)) with (make_active d (c - 1)) by done.
  any_log0 HQ.
Qed.

(** [desc] with its anchor replaced. *)
Definition put_anchor (d : Z) (A : anchor) (s : pmstate) : gmap Z descriptor := <[d := with_anchor A (pm_desc s d)]> (pm_descs s).

Lemma pop_active_run fuel d c s A next Q :
  d_anchor (pm_desc s d) = A → 0 ≤ c → 0 ≤ count A < 2 ^ 24 → 0 ≤ astate A < 4 → next = load64 (pm_mem s) (block_addr (pm_desc s d) A) →
  (∀ lg, Q (block_addr (pm_desc s d) A, A, if (c =? 0) && negb (count A =? 0) then Z.min (count A) MAXCREDITS else 0)
    (st_upd (pm_mem s) (put_anchor d (popped A next (next_count c (count A)) (next_state c (count A) (astate A))) s)
      (pm_procs s) lg s)) →
  wp (pop_active (S fuel) d c A) Q s.
Proof.
  intros HA Hc Hn Hst En HQ. cbn [pop_active]. unfold FLUSHFENCE, FLUSH_AT, load_word. wp_steps.
  rewrite <- En. unfold cas_anchor. unfold wp at 1.
  change (pm_desc (pm_emit EvFence s) d) with (pm_desc s d). rewrite decide_True by done. wp_steps.
  match goal with |- Q ?x (pm_upd_descs <[d := with_anchor ?B _]> _) =>
    replace B with (popped A next (next_count c (count A)) (next_state c (count A) (astate A))) end; [any_log0 HQ|].
  unfold popped, next_count, next_state, set_avail, set_tag, set_count, set_state. change MAXCREDITS with 64. cbn [avail count astate tag].
  assert (u32 next mod 2 ^ 24 = next mod 2 ^ 24) as -> by (unfold u32; apply Z.mod_mod_divide; by exists (2 ^ 8)).
  destruct (Z.eqb_spec c 0) as [->|Hc0]; [|by rewrite (proj2 (Z.ltb_lt 0 c)) by lia].
  cbn [Z.ltb Z.compare]. destruct (Z.eqb_spec (count A) 0) as [E|Hne]; cbn [negb andb].
  - by rewrite E.
  - rewrite (Z.mod_small (count A - _)) by lia. done.
Qed.

Lemma UpdateActive_run fuel h d mc s Q :
  h_active (pm_proc s h) = no_active →
  (∀ lg, Q tt (st_upd (pm_mem s) (pm_descs s)
     (<[h := set_active (make_active d (mc - 1)) (pm_proc s h)]> (pm_procs s)) lg s)) →
  wp (UpdateActive fuel h d mc) Q s.
Proof.
  intros Ha HQ. unfold UpdateActive, FLUSH, FLUSHFENCE, FLUSH_AT. wp_steps. unfold cas_active. unfold wp at 1.
  change (pm_proc (pm_emit EvFence s) h) with (pm_proc s h). rewrite decide_True by done. wp_steps. any_log0 HQ.
Qed.

Lemma MallocFromActive_run fuel h d c s A next Q :
  h_active (pm_proc s h) = make_active d c → 0 < d < 2 ^ 64 → d mod 64 = 0 → 0 ≤ c < 64 →
  d_anchor (pm_desc s d) = A → 0 ≤ count A < 2 ^ 24 → 0 ≤ astate A < 4 →
  next = load64 (pm_mem s) (block_addr (pm_desc s d) A) →
  (∀ lg, Q (block_addr (pm_desc s d) A + HEADER_SIZE)
    (st_upd (put_small (block_addr (pm_desc s d) A) d (pm_mem s))
      (put_anchor d (popped A next (next_count c (count A)) (next_state c (count A) (astate A))) s)
      (<[h := set_active (next_active d c (count A)) (pm_proc s h)]> (pm_procs s)) lg s)) →
  wp (MallocFromActive (S fuel) h) Q s.
Proof.
  intros Ha Hd Hm Hc HA Hn Hst En HQ. unfold MallocFromActive, FLUSH, FLUSHFENCE, FLUSH_AT. wp_steps.
  rewrite Ha. apply reserve_active_run; [done..|]. intros lg1. wp_steps. st_norm.
  rewrite (make_active_desc d c ltac:(lia) Hm), (make_active_credits d c Hc).
  rewrite <- pm_desc_get, HA. apply (pop_active_run _ _ _ _ A next).
  { st_norm. exact HA. } { lia. } { exact Hn. } { exact Hst. } { exact En. }
  intros lg2. wp_steps. unfold put_anchor in *. st_norm. rewrite <- pm_desc_get.
  assert (Z.eqb c 0 = negb (0 <? c)) as Ec by (destruct (Z.eqb_spec c 0), (Z.ltb_spec 0 c); lia || done).
  unfold next_active in HQ. rewrite Ec in *. destruct (0 <? c); cbn [negb andb] in *.
  - wp_steps. apply put_header_run. intros lg4. exact (HQ lg4).
  - destruct (Z.ltb_spec 0 (count A)) as [Hpos|Hz].
    + rewrite (proj2 (Z.eqb_neq _ _)) in * by lia. cbn [negb]. apply UpdateActive_run.
      { st_norm. rewrite lookup_insert_eq. done. }
      intros lg3. apply put_header_run. intros lg4. specialize (HQ lg4).
      st_norm. rewrite lookup_insert_eq. cbn [default from_option id]. rewrite insert_insert_eq. exact HQ.
    + wp_steps. apply put_header_run. intros lg4. specialize (HQ lg4).
      rewrite (proj2 (Z.eqb_eq _ _)) in HQ by lia. exact HQ.
Qed.

Lemma MallocFromActive_none fuel h s Q :
  h_active (pm_proc s h) = no_active → Q 0 s → wp (MallocFromActive (S fuel) h) Q s.
Proof.
  intros Ha HQ. unfold MallocFromActive. wp_steps. rewrite Ha. cbn [reserve_active]. rewrite decide_True by done.
  by wp_steps.
Qed.

(** ** Taking a block from a partial superblock *)

Lemma wp_on_queue {A} i (m : QM A) s Q :
  wp m (λ a q, Q a (pm_set_queue i q s)) (mkQ (default (mkFifo 0 (Aba 0 0) (Aba 0 0)) (pm_fifos s !! i)) (pm_nexts s)) →
  wp (on_queue i m) Q s.
Proof. unfold wp, on_queue. by destruct (m _) as [[a q]| |]. Qed.

(** What is reserved when the superblock is taken: [MAXCREDITS] blocks at most,
    and the block returned. *)
Definition reserved (n : Z) : Z := Z.min (n - 1) MAXCREDITS.
Definition reserved_state (n : Z) : Z := if 0 <? reserved n then ACTIVE else FULL.

Lemma pop_partial_run fuel d s A next Q :
  d_anchor (pm_desc s d) = A → next = load64 (pm_mem s) (block_addr (pm_desc s d) A) →
  (∀ lg, Q (block_addr (pm_desc s d) A)
    (st_upd (pm_mem s) (put_anchor d (popped A next (count A) (astate A)) s) (pm_procs s) lg s)) →
  wp (pop_partial (S fuel) d A) Q s.
Proof.
  intros HA En HQ. cbn [pop_partial]. unfold FLUSHFENCE, FLUSH_AT, load_word. wp_steps.
  rewrite <- En. unfold cas_anchor. unfold wp at 1.
  change (pm_desc (pm_emit EvFence s) d) with (pm_desc s d). rewrite decide_True by done. wp_steps. any_log0 HQ.
Qed.

Lemma reserve_partial_run fuel d s A Q :
  d_anchor (pm_desc s d) = A → astate A ≠ EMPTY → 1 ≤ count A < 2 ^ 24 →
  (∀ lg, Q (Some (reserved (count A)))
    (st_upd (pm_mem s) (put_anchor d (Anchor (avail A) (count A - (reserved (count A) + 1)) (reserved_state (count A)) (tag A)) s)
      (pm_procs s) lg s)) →
  wp (reserve_partial (S fuel) d A) Q s.
Proof.
  intros HA Hst Hn HQ. cbn [reserve_partial]. rewrite (proj2 (Z.eqb_neq _ _)) by done.
  unfold FLUSHFENCE, FLUSH_AT. wp_steps.
  change (Z.min (count A - 1) MAXCREDITS) with (reserved (count A)).
  assert (0 ≤ reserved (count A) ≤ 64) as Hr by (unfold reserved; change MAXCREDITS with 64; lia).
  rewrite u64_small by lia. unfold cas_anchor. unfold wp at 1.
  change (pm_desc (pm_emit EvFence s) d) with (pm_desc s d). rewrite decide_True by done. wp_steps.
  unfold set_state, set_count. cbn [avail count astate tag].
  rewrite (Z.mod_small (count A - _)) by (unfold reserved in *; change MAXCREDITS with 64 in *; lia).
  replace ((if 0 <? reserved (count A) then ACTIVE else FULL) mod 2 ^ 2) with (reserved_state (count A))
    by (unfold reserved_state; by destruct (0 <? _)). any_log0 HQ.
Qed.

Lemma wp_bind_inv {S A B} (m : ST S A) (f : A → ST S B) Q s :
  wp (m ≫= f) Q s → wp m (λ a s', wp (f a) Q s') s.
Proof. unfold wp, mbind, st_mbind, st_bind. by destruct (m s) as [[a s']| |]. Qed.

Section Partial.
Context (sca : Z).

Lemma MallocFromPartial_step fuel h s Q :
  wp (HeapGetPartial sca (S fuel) h) (λ d s1, let D := pm_desc s1 d in let A := d_anchor D in
    (d = 0 → Q 0 s1) ∧
    (d ≠ 0 → astate A = EMPTY → ∀ lg,
      wp (DescRetire fuel d;; MallocFromPartial sca (S fuel) h) Q
        (st_upd (pm_mem s1) (<[d := with_heap h D]> (pm_descs s1)) (pm_procs s1) lg s1)) ∧
    (d ≠ 0 → astate A ≠ EMPTY → 1 ≤ count A < 2 ^ 24 ∧ h_active (pm_proc s1 h) = no_active ∧
      ∀ lg, let a := block_addr D A in Q (a + HEADER_SIZE)
        (st_upd (put_small a d (pm_mem s1))
          (<[d := with_anchor (popped A (load64 (pm_mem s1) a) (count A - (reserved (count A) + 1)) (reserved_state (count A)))
             (with_heap h D)]> (pm_descs s1))
          (if 0 <? reserved (count A) then <[h := set_active (make_active d (reserved (count A) - 1)) (pm_proc s1 h)]> (pm_procs s1)
           else pm_procs s1) lg s1))) s →
  wp (MallocFromPartial sca (S (S fuel)) h) Q s.
Proof.
  intros H. remember (S fuel) as f1 eqn:Ef. cbn [MallocFromPartial]. subst f1. apply wp_bind.
  eapply wp_mono; [exact H|]. clear s H. cbn beta zeta.
  intros d s (H0 & HE & HP). destruct (Z.eqb_spec d 0) as [->|Hd]; [wp_steps; by apply H0|].
  specialize (HE Hd). specialize (HP Hd). unfold upd_desc, FLUSH, FLUSHFENCE, FLUSH_AT. wp_steps. st_norm.
  rewrite pm_dget_eq. cbn [d_anchor with_heap].
  destruct (decide (astate (d_anchor (pm_desc s d)) = EMPTY)) as [E|Hne].
  - specialize (HE E). cbn [reserve_partial]. rewrite E. change (EMPTY =? EMPTY) with true. cbn iota.
    apply wp_bind. eapply wp_mono; [exact (wp_bind_inv _ _ _ _ (HE _))|]. cbn beta. intros _ s2 H2. wp_steps. exact H2.
  - destruct (HP Hne) as (Hn & Ha & HQ). clear HP HE.
    apply reserve_partial_run; [st_norm; by rewrite pm_dget_eq|done|done|]. intros lg1. wp_steps.
    unfold put_anchor. st_norm. rewrite !pm_dget_eq, insert_insert_eq. cbn [d_anchor with_anchor].
    eapply (pop_partial_run _ _ _ _ (load64 (pm_mem s) (block_addr (pm_desc s d) (d_anchor (pm_desc s d))))).
    { st_norm. by rewrite pm_dget_eq. } { st_norm. by rewrite pm_dget_eq. }
    intros lg2. wp_steps. unfold put_anchor. st_norm. rewrite !pm_dget_eq, insert_insert_eq.
    destruct (0 <? reserved (count (d_anchor (pm_desc s d)))) eqn:Er.
    + apply UpdateActive_run; [st_norm; exact Ha|]. intros lg3. apply put_header_run. intros lg4. exact (HQ lg4).
    + wp_steps. apply put_header_run. intros lg4. exact (HQ lg4).
Qed.
End Partial.

(** ** A new superblock *)

(** Blocks 1 to [n] of a superblock at [a] hold the index of their successor. *)
Definition counted_mem (m m' : mem) (a sz i n : Z) : Prop :=
  (∀ k, 1 ≤ k ≤ n → load64 m' (a + k * sz) = i + k) ∧
  (∀ b, b < a + sz ∨ a + (n + 1) * sz ≤ b → load8 m' b = load8 m b).

Lemma organize_loop_run n i ptr stride s Q :
  0 ≤ ptr → 8 ≤ stride → ptr + (Z.of_nat n + 1) * stride < 2 ^ 64 → 0 ≤ i → i + Z.of_nat n < 2 ^ 32 →
  (∀ m lg, counted_mem (pm_mem s) m ptr stride i (Z.of_nat n) → Q tt (st_upd m (pm_descs s) (pm_procs s) lg s)) →
  wp (organize_loop n i ptr stride) Q s.
Proof.
  revert i ptr s Q. induction n as [|n IH]; intros i ptr s Q Hp Hs Hb Hi Hib HQ; cbn [organize_loop].
  - apply wp_ret. specialize (HQ (pm_mem s) (pm_log s)). destruct s. apply HQ. split; [lia|done].
  - rewrite (u64_small (ptr + stride)), (u64_small (i + 1)) by lia. unfold store_word, FLUSH, FLUSH_AT. wp_steps. st_norm.
    apply IH; [lia..|]. intros m lg [H1 H2]. st_norm. apply HQ. cbn [pm_mem st_upd] in *. split.
    + intros k Hk. destruct (decide (k = 1)) as [->|Hne].
      * rewrite (load64_ext _ (store64 (pm_mem s) (ptr + stride) (i + 1))) by (intros b Hb'; apply H2; lia).
        rewrite Z.mul_1_l, load64_store64_eq. apply u64_small. lia.
      * replace (ptr + k * stride) with (ptr + stride + (k - 1) * stride) by lia. rewrite H1 by lia. lia.
    + intros b Hb'. rewrite H2 by lia. apply load8_store64_ne. lia.
Qed.

(** The descriptor of a new superblock of class [i] at [a]. *)
Definition new_desc (a h i : Z) (D : descriptor) : descriptor :=
  mkDesc (Anchor 1 (sc_max i - 1 - Z.min (sc_max i - 1) MAXCREDITS) ACTIVE (tag (d_anchor D))) (d_Next D) a h (sc_sz i) (sc_max i).

Lemma MallocFromNewSB_run fuel h s i Q :
  h_sc (pm_proc s h) = i → 1 ≤ i < 256 →
  wp (DescAlloc fuel) (λ d s1, ∃ a sup, pm_supply s1 = Some a :: sup ∧ 0 < a ∧ a + SBSIZE < 2 ^ 63 ∧
    let s2 := map_range a SBSIZE s1 in h_active (pm_proc s2 h) = no_active ∧
    ∀ m lg, counted_mem (pm_mem s2) m a (sc_sz i) 1 (sc_max i - 2) →
      Q (a + HEADER_SIZE) (st_upd (put_small a d m) (<[d := new_desc a h i (pm_desc s2 d)]> (pm_descs s2))
        (<[h := set_active (make_active d (Z.min (sc_max i - 1) MAXCREDITS - 1)) (pm_proc s2 h)]> (pm_procs s2)) lg s2)) s →
  wp (MallocFromNewSB fuel h) Q s.
Proof.
  intros Hsc Hi H. unfold MallocFromNewSB. wp_steps. rewrite Hsc. clear Hsc. eapply wp_mono; [exact H|]. clear s H.
  cbn beta. intros d s1 (a & sup & Hsup & Ha & Hb & Hact & HQ). unfold AllocNewSB. wp_steps.
  change (sc_sbsize i) with SBSIZE. unfold mmap. unfold wp at 1. rewrite Hsup. rewrite (proj2 (Z.eqb_neq a 0)) by lia.
  unfold upd_desc, FLUSH, FLUSHFENCE, FLUSH_AT. set (s2 := map_range a SBSIZE s1) in *. clearbody s2. wp_norm.
  cbn [d_sz d_maxcount d_anchor d_Next d_sb d_heap with_anchor with_sz with_sb with_heap with_maxcount].
  pose proof (sc_max_bounds i Hi) as [Hm1 Hm2]. pose proof (sc_sz_eq i ltac:(lia)) as Hz.
  rewrite (u32_small (sc_sz i)) by lia. fold (sc_max i). rewrite (u32_small (sc_max i)) by lia.
  apply organize_loop_run; [lia|lia|change SBSIZE with 65536 in *; nia|lia|lia|].
  intros m lg. rewrite Z2Nat.id by lia. st_norm. intros Hm. wp_norm.
  unfold cas_active. unfold wp at 1. st_norm. rewrite decide_True by exact Hact. wp_steps. st_norm.
  apply put_header_run. intros lg2. st_norm.
  assert (0 ≤ Z.min (sc_max i - 1) MAXCREDITS - 1 < 64) as Hcr by (change MAXCREDITS with 64; lia).
  specialize (HQ m lg2 Hm).
  match goal with |- Q _ (st_upd _ (<[d := ?D]> _) _ _ _) => replace D with (new_desc a h i (pm_desc s2 d)) end; [exact HQ|].
  unfold new_desc, with_anchor, with_heap, with_sb, with_sz, with_maxcount, set_state, set_count, set_avail.
  rewrite ?make_active_credits by done. rewrite <- ?pm_desc_get.
  cbn [avail count astate tag d_anchor d_Next d_sb d_heap d_sz d_maxcount].
  rewrite !(u32_small (sc_sz i)), !(u32_small (sc_max i)) by lia.
  f_equal. f_equal. change MAXCREDITS with 64. rewrite Z.max_l by lia. rewrite Z.mod_small by lia. lia.
Qed.

(** ** Giving a block back *)

Definition pushed (D : descriptor) (p : Z) : anchor :=
  let A := d_anchor D in
  let e := count A =? u32 (d_maxcount D - 1) in
  Anchor ((u64 (p - d_sb D) / d_sz D) mod 2 ^ 24) (if e then count A else count A + 1)
    (if e then EMPTY else if astate A =? FULL then PARTIAL else astate A) (tag A).

Lemma free_loop_run fuel d p s D Q :
  pm_desc s d = D → 0 ≤ count (d_anchor D) < 2 ^ 24 - 1 →
  (∀ lg, Q (d_anchor D, pushed D p, if count (d_anchor D) =? u32 (d_maxcount D - 1) then d_heap D else 0)
    (st_upd (store64 (pm_mem s) p (avail (d_anchor D))) (<[d := with_anchor (pushed D p) D]> (pm_descs s)) (pm_procs s) lg s)) →
  wp (free_loop (S fuel) d p (d_sb D) (d_anchor D)) Q s.
Proof.
  intros <- Hn HQ. cbn [free_loop]. unfold store_word, FLUSHFENCE, FLUSH_AT. wp_steps. st_norm.
  rewrite <- !pm_desc_get. unfold cas_anchor. unfold wp at 1. st_norm. rewrite <- !pm_desc_get. rewrite decide_True by done.
  wp_steps. st_norm.
  match goal with |- Q (_, ?B, _) _ => replace B with (pushed (pm_desc s d) p) end; [any_log0 HQ|].
  unfold pushed, set_state, set_count, set_avail.
  destruct (count (d_anchor (pm_desc s d)) =? _); destruct (astate (d_anchor (pm_desc s d)) =? FULL);
    cbn [avail count astate tag]; try done; by rewrite (Z.mod_small (_ + 1)) by lia.
Qed.
