(* ===== verification/OldInv.v ===== *)
(** * The invariant of the old allocator

    [pghost] says what each mapping is for and, for each descriptor in use, which
    blocks of its superblock are free and how many are reserved by credits.
    [PInv] relates a state to it. *)

From Stdlib Require Import ZArith Lia.
From stdpp Require Import base gmap numbers functions list.
From S2P Require Import Prelude Mem OldQueue OldMalloc OldDesc OldLarge OldRun.

Local Open Scope Z_scope.
#[local] Set Warnings "-clear-no-such-hyp".

(** ** Ghost state *)

(** [SActive c]: its heap's active superblock, with [c + 1] blocks reserved. *)
Inductive skind := SActive (c : Z) | SPartial | SFull | SEmpty.

Record sbinfo := SbInfo { b_base : Z; b_cls : Z; b_heap : Z; b_free : list Z; b_kind : skind }.

Inductive role := RDesc | RHeap (i : Z) | RSb (d : Z) | RLarge (n : Z).

Definition role_len (r : role) : Z :=
  match r with RDesc => DESCSBSIZE | RHeap _ => 24 | RSb _ => SBSIZE | RLarge n => n end.

Record pghost := PGhost {
  p_role : gmap Z role;     (* by address of the mapping *)
  p_sb : gmap Z sbinfo;     (* by address of the descriptor *)
  p_free : list Z;          (* free descriptors *)
  p_queue : Z → list Z      (* partial superblocks of a size class *)
}.

Definition set_sb (d : Z) (b : sbinfo) (g : pghost) : pghost :=
  PGhost (p_role g) (<[d := b]> (p_sb g)) (p_free g) (p_queue g).

Definition held (k : skind) : Z := match k with SActive c => c + 1 | _ => 0 end.

Definition kind_ok (b : sbinfo) : Prop :=
  match b_kind b with
  | SActive c => 0 ≤ c < 64 ∧ c + 1 ≤ Z.of_nat (length (b_free b))
  | SPartial => 1 ≤ Z.of_nat (length (b_free b)) < sc_max (b_cls b)
  | SFull => b_free b = []
  | SEmpty => True
  end.

Definition listed (k : skind) : Prop := k = SPartial ∨ k = SEmpty.

(** Two mappings do not meet. *)
Definition apart_maps (a n b m : Z) : Prop := a + n ≤ b ∨ b + m ≤ a.

Section Inv.
Context (sca : Z).

(** The static array of size classes. *)
Definition static_size : Z := 256 * sizeof_sizeclass.

Definition mappable (a n : Z) : Prop :=
  0 < a ∧ a mod PAGESIZE = 0 ∧ a + n ≤ 2 ^ 47 ∧ apart_maps a n sca static_size.

Record pwf (g : pghost) : Prop := {
  w_range : ∀ a r, p_role g !! a = Some r → mappable a (role_len r);
  w_sep : ∀ a r b r', p_role g !! a = Some r → p_role g !! b = Some r' → a ≠ b → apart_maps a (role_len r) b (role_len r');
  w_heap : ∀ h i, p_role g !! h = Some (RHeap i) → 1 ≤ i < 256;
  w_large : ∀ a n, p_role g !! a = Some (RLarge n) → 2048 < n;
  w_cls : ∀ d b, p_sb g !! d = Some b → 1 ≤ b_cls b < 256;
  w_owner : ∀ d b, p_sb g !! d = Some b → p_role g !! b_heap b = Some (RHeap (b_cls b));
  w_base : ∀ d b, p_sb g !! d = Some b → 0 < b_base b ∧ (b_kind b ≠ SEmpty → p_role g !! b_base b = Some (RSb d));
  w_fl : ∀ d b, p_sb g !! d = Some b → NoDup (b_free b) ∧ ∀ k, k ∈ b_free b → 0 ≤ k < sc_max (b_cls b);
  w_kind : ∀ d b, p_sb g !! d = Some b → kind_ok b;
  w_desc : ∀ d, d ∈ p_free g ∨ is_Some (p_sb g !! d) →
    ∃ a k, p_role g !! a = Some RDesc ∧ 0 ≤ k < 1024 ∧ d = a + k * sizeof_descriptor;
  w_free : NoDup (p_free g) ∧ ∀ d, d ∈ p_free g → p_sb g !! d = None;
  w_queue : ∀ i d, d ∈ p_queue g i → ∃ b, p_sb g !! d = Some b ∧ b_cls b = i ∧ listed (b_kind b)
}.

(** The free list [fl] of blocks of a superblock, linked from index [p]. *)
Fixpoint flinked (m : mem) (base sz p : Z) (fl : list Z) : Prop :=
  match fl with
  | [] => True
  | i :: fl' => p = i ∧ flinked m base sz (load64 m (base + i * sz)) fl'
  end.

Definition kind_code (k : skind) : Z :=
  match k with SActive _ => ACTIVE | SPartial => PARTIAL | SFull => FULL | SEmpty => EMPTY end.

Definition blk (b : sbinfo) (k : Z) : Z := b_base b + k * sc_sz (b_cls b).

(** The fields that describe a superblock in use. *)
Record sb_fields (m : mem) (d : Z) (D : descriptor) (b : sbinfo) : Prop := {
  f_sz : d_sz D = sc_sz (b_cls b);
  f_max : d_maxcount D = sc_max (b_cls b);
  f_count : count (d_anchor D) = Z.of_nat (length (b_free b)) - held (b_kind b);
  f_avail : 0 ≤ avail (d_anchor D) < 2 ^ 24;
  f_link : flinked m (b_base b) (sc_sz (b_cls b)) (avail (d_anchor D)) (b_free b);
  f_head : ∀ k, 0 ≤ k < sc_max (b_cls b) → k ∉ b_free b → small_header m (blk b k) d
}.

Definition sb_rep (m : mem) (d : Z) (D : descriptor) (b : sbinfo) : Prop :=
  d_sb D = b_base b ∧ d_heap D = b_heap b ∧ astate (d_anchor D) = kind_code (b_kind b) ∧
  (b_kind b ≠ SEmpty → sb_fields m d D b).

(** What the heap of class [i] at [h] refers to. *)
Definition proc_rep (g : pghost) (h i : Z) (P : procheap) : Prop :=
  h_sc P = i ∧
  (h_active P = no_active ∨ ∃ d c b, h_active P = make_active d c ∧ p_sb g !! d = Some b ∧
    b_kind b = SActive c ∧ b_heap b = h) ∧
  (h_partial P = 0 ∨ ∃ b, p_sb g !! h_partial P = Some b ∧ listed (b_kind b) ∧ b_heap b = h ∧
    h_partial P ∉ p_queue g i).

Definition qst (s : pmstate) (i : Z) : qstate :=
  mkQ (default (mkFifo 0 (Aba 0 0) (Aba 0 0)) (pm_fifos s !! i)) (pm_nexts s).

(** [X]: the mappings. *)
Record PInvX (X : gmap Z Z) (g : pghost) (s : pmstate) : Prop := {
  pi_wf : pwf g;
  pi_flag : pm_init_flag s ≠ 0;
  pi_map : pm_mapped s = X;
  pi_sb : ∀ d b, p_sb g !! d = Some b → ∃ D, pm_descs s !! d = Some D ∧ sb_rep (pm_mem s) d D b;
  pi_large : ∀ a n, p_role g !! a = Some (RLarge n) → large_header (pm_mem s) a n;
  pi_proc : ∀ h i, p_role g !! h = Some (RHeap i) → proc_rep g h i (pm_proc s h);
  pi_tls : ∀ t i h, pm_heaps s !! (t, i) = Some h → p_role g !! h = Some (RHeap i);
  pi_queue : ∀ i, 0 ≤ i < 256 → ∃ n, queue_rep (dummy_addr sca i) (qst s i) n (p_queue g i);
  pi_free : desc_list s (p_free g)
}.

Definition PInv (g : pghost) (s : pmstate) : Prop := PInvX (role_len <$> p_role g) g s.

(** The blocks the program holds. *)
Definition small_live (g : pghost) (d : Z) (b : sbinfo) (k : Z) : Prop :=
  p_sb g !! d = Some b ∧ b_kind b ≠ SEmpty ∧ 0 ≤ k < sc_max (b_cls b) ∧ k ∉ b_free b.

Definition plive (g : pghost) (p z : Z) : Prop :=
  (∃ d b k, small_live g d b k ∧ p = blk b k + HEADER_SIZE ∧ z = sc_sz (b_cls b) - HEADER_SIZE) ∨
  (∃ a n, p_role g !! a = Some (RLarge n) ∧ p = a + HEADER_SIZE ∧ z = n - HEADER_SIZE).

(** ** Where things are *)

Lemma desc_where g d : pwf g → d ∈ p_free g ∨ is_Some (p_sb g !! d) →
  0 < d < 2 ^ 47 ∧ d mod 64 = 0 ∧ ∀ i, 0 ≤ i < 256 → d ≠ dummy_addr sca i.
Proof.
  intros W Hd. destruct (w_desc g W d Hd) as (a & k & Ha & Hk & ->). destruct (w_range g W a _ Ha) as (H1 & H2 & H3 & H4).
  cbn [role_len] in *. change sizeof_descriptor with 64 in *. change DESCSBSIZE with 65536 in *. change PAGESIZE with 4096 in *.
  unfold apart_maps, static_size, dummy_addr in *. change sizeof_sizeclass with 96 in *. change dummy_offset with 16.
  split; [lia|]. split; [|lia]. rewrite Z.mod_add by lia. pose proof (Z.div_mod a 4096 ltac:(lia)) as E.
  rewrite H2 in E. replace a with (0 + a / 4096 * 64 * 64) by lia. by rewrite Z.mod_add.
Qed.

Lemma base_where g d b : pwf g → p_sb g !! d = Some b → b_kind b ≠ SEmpty →
  p_role g !! b_base b = Some (RSb d) ∧ 0 < b_base b ∧ b_base b + SBSIZE ≤ 2 ^ 47 ∧ b_base b mod PAGESIZE = 0.
Proof.
  intros W Hd Hk. destruct (w_base g W d b Hd) as [_ Hb]. specialize (Hb Hk).
  destruct (w_range g W _ _ Hb) as (H1 & H2 & H3 & _). done.
Qed.

Lemma blk_in g d b k : pwf g → p_sb g !! d = Some b → 0 ≤ k < sc_max (b_cls b) →
  b_base b ≤ blk b k ∧ blk b k + sc_sz (b_cls b) ≤ b_base b + SBSIZE ∧ 16 ≤ sc_sz (b_cls b).
Proof.
  intros W Hd Hk. pose proof (w_cls g W d b Hd) as Hc. pose proof (sc_max_bounds _ Hc) as [_ Hm].
  pose proof (sc_sz_eq (b_cls b) ltac:(lia)) as Hz. unfold blk. nia.
Qed.

Lemma blk_eq b k : 1 ≤ b_cls b < 256 → blk b k = b_base b + k * (8 * (b_cls b + 1)).
Proof. intros H. unfold blk. by rewrite sc_sz_eq by lia. Qed.

Lemma fl_bound (fl : list Z) n : NoDup fl → (∀ k, k ∈ fl → 0 ≤ k < n) → 0 ≤ n → Z.of_nat (length fl) ≤ n.
Proof.
  intros Hnd Hr Hn. assert (length fl ≤ length (seqZ 0 n))%nat as H.
  { apply submseteq_length, NoDup_submseteq; [done|]. intros k Hk. apply elem_of_seqZ. specialize (Hr k Hk). lia. }
  rewrite length_seqZ in H. lia.
Qed.

(** Mappings of different use do not meet. *)
Lemma bases_apart g d b d' b' : pwf g → p_sb g !! d = Some b → p_sb g !! d' = Some b' →
  b_kind b ≠ SEmpty → b_kind b' ≠ SEmpty → d ≠ d' → apart_maps (b_base b) SBSIZE (b_base b') SBSIZE.
Proof.
  intros W H H' K K' Hne. destruct (base_where g d b W H K) as (R & _). destruct (base_where g d' b' W H' K') as (R' & _).
  apply (w_sep g W _ _ _ _ R R'). intros E. rewrite E in R. congruence.
Qed.

Lemma base_large g d b a n : pwf g → p_sb g !! d = Some b → b_kind b ≠ SEmpty → p_role g !! a = Some (RLarge n) →
  apart_maps (b_base b) SBSIZE a n.
Proof.
  intros W H K Ha. destruct (base_where g d b W H K) as (R & _). apply (w_sep g W _ _ _ _ R Ha). intros E. congruence.
Qed.

Lemma blocks_apart g d b k d' b' k' : pwf g → small_live g d b k → p_sb g !! d' = Some b' → b_kind b' ≠ SEmpty →
  0 ≤ k' < sc_max (b_cls b') → (d, k) ≠ (d', k') → apart_maps (blk b k) (sc_sz (b_cls b)) (blk b' k') (sc_sz (b_cls b')).
Proof.
  intros W (H & K & Hk & _) H' K' Hk' Hne. pose proof (blk_in g d b k W H Hk). pose proof (blk_in g d' b' k' W H' Hk').
  destruct (decide (d = d')) as [->|Hd].
  - assert (b' = b) as -> by congruence. assert (k ≠ k') as Hkk by congruence. unfold apart_maps, blk in *. nia.
  - pose proof (bases_apart g d b d' b' W H H' K K' Hd). unfold apart_maps in *. lia.
Qed.

(** ** Framing *)

Lemma flinked_ext m m' base sz p fl :
  (∀ i, i ∈ fl → load64 m' (base + i * sz) = load64 m (base + i * sz)) → flinked m base sz p fl → flinked m' base sz p fl.
Proof.
  revert p. induction fl as [|i fl IH]; intros p H; cbn [flinked]; [done|]. intros [-> Hl]. split; [done|].
  rewrite (H i) by left. apply IH; [|done]. intros j Hj. apply H. by right.
Qed.

Lemma sb_fields_ext g d b m m' D : pwf g → p_sb g !! d = Some b →
  (∀ x, b_base b ≤ x < b_base b + SBSIZE → load8 m' x = load8 m x) → sb_fields m d D b → sb_fields m' d D b.
Proof.
  intros W Hd Hm [F1 F2 F3 F4 F5 F6]. constructor; try done.
  - eapply flinked_ext; [|exact F5]. intros i Hi. apply load64_ext. intros x Hx. apply Hm.
    destruct (w_fl g W d b Hd) as [_ Hr]. pose proof (blk_in g d b i W Hd (Hr i Hi)) as Hb. unfold blk in Hb. lia.
  - intros k Hk Hn. eapply small_header_ext; [|by apply F6]. change HEADER_SIZE with 12. intros x Hx. apply Hm.
    pose proof (blk_in g d b k W Hd Hk) as Hb. lia.
Qed.

(** A superblock changes: the memory of its superblock, its descriptor, heaps. *)
Lemma PInv_upd g s d b b' m ps lg D :
  PInv g s → p_sb g !! d = Some b → b_kind b ≠ SEmpty → b_base b' = b_base b → pwf (set_sb d b' g) →
  (∀ x, x < b_base b ∨ b_base b + SBSIZE ≤ x → load8 m x = load8 (pm_mem s) x) → sb_rep m d D b' →
  (∀ h i, p_role g !! h = Some (RHeap i) → proc_rep (set_sb d b' g) h i (default (mkProcheap no_active 0 0) (ps !! h))) →
  PInv (set_sb d b' g) (st_upd m (<[d := D]> (pm_descs s)) ps lg s).
Proof.
  intros H Hd K Eb W' Hm HD Hps. pose proof (pi_wf _ _ _ H) as W. constructor; try done; cbn [pm_mem pm_descs st_upd].
  - apply H.
  - apply H.
  - intros d2 b2 H2. destruct (decide (d = d2)) as [<-|Hne].
    + cbn in H2. rewrite lookup_insert_eq in H2. injection H2 as <-. exists D. by rewrite lookup_insert_eq.
    + cbn in H2. rewrite lookup_insert_ne in H2 by done. destruct (pi_sb _ _ _ H d2 b2 H2) as (D2 & E2 & R1 & R2 & R3 & R4).
      exists D2. rewrite lookup_insert_ne by done. split; [done|]. split_and!; [done..|]. intros K2.
      eapply sb_fields_ext; [exact W|exact H2| |by apply R4]. intros x Hx. apply Hm.
      pose proof (bases_apart g d b d2 b2 W Hd H2 K K2 Hne). unfold apart_maps in *. lia.
  - intros a n Ha. eapply large_header_ext; [|by apply (pi_large _ _ _ H)]. change HEADER_SIZE with 12. intros x Hx. apply Hm.
    pose proof (base_large g d b a n W Hd K Ha). pose proof (w_large g W a n Ha). unfold apart_maps in *. lia.
  - apply H.
  - apply H.
  - eapply dlinked_ext; [|exact (pi_free _ _ _ H)]. cbn [pm_descs st_upd]. intros x Hx. rewrite pm_dget_ne; [done|]. intros <-.
    destruct (w_free g W) as [_ Hf]. rewrite (Hf d Hx) in Hd. done.
Qed.
End Inv.
