(* ===== verification/OldTake.v ===== *)
(** * Taking blocks from superblocks of the old allocator

    [MallocFromActive] keeps the invariant and gives the program one more block. *)

From Stdlib Require Import ZArith Lia.
From stdpp Require Import base gmap numbers functions list.
From S2P Require Import Prelude Mem OldQueue OldMalloc OldDesc OldLarge OldRun OldInv.

Local Open Scope Z_scope.
#[local] Set Warnings "-clear-no-such-hyp".

Section Take.
Context (sca : Z).

(** The program gets the block [p] of [z] bytes. *)
Record taken (g : pghost) (s : pmstate) (p z : Z) (g' : pghost) (s' : pmstate) : Prop := {
  tk_live : ∀ q w, plive g' q w ↔ plive g q w ∨ (q = p ∧ w = z);
  tk_apart : ∀ q w, plive g q w → apart_maps q w p z;
  tk_mem : ∀ q w x, plive g q w → q ≤ x < q + w → load8 (pm_mem s') x = load8 (pm_mem s) x;
  tk_mod : p mod 8 = 4;
  tk_pos : 0 < p
}.

Lemma pwf_set_sb g d b b' :
  pwf sca g → p_sb g !! d = Some b → b_base b' = b_base b → b_cls b' = b_cls b →
  p_role g !! b_heap b' = Some (RHeap (b_cls b)) → kind_ok b' →
  NoDup (b_free b') → (∀ k, k ∈ b_free b' → 0 ≤ k < sc_max (b_cls b)) →
  b_kind b ≠ SEmpty → (∀ i, d ∈ p_queue g i → listed (b_kind b')) → pwf sca (set_sb d b' g).
Proof.
  intros W Hd Eb Ec Hh Hk Hnd Hfl Hne Hq.
  assert (∀ d2 b2, p_sb (set_sb d b' g) !! d2 = Some b2 → (d2 = d ∧ b2 = b') ∨ (d2 ≠ d ∧ p_sb g !! d2 = Some b2)) as Hcase.
  { intros d2 b2. cbn. destruct (decide (d = d2)) as [<-|Hd2]; [rewrite lookup_insert_eq; intros [= <-]; auto|].
    rewrite lookup_insert_ne by done. auto. }
  constructor; try apply W.
  - intros d2 b2 [[-> ->]|[_ H2]]%Hcase; [rewrite Ec; by apply (w_cls sca g W d)|by apply (w_cls sca g W d2)].
  - intros d2 b2 [[-> ->]|[_ H2]]%Hcase; [by rewrite Ec|]. by apply (w_owner sca g W) with d2.
  - intros d2 b2 [[-> ->]|[_ H2]]%Hcase; [|by apply (w_base sca g W)]. rewrite Eb. destruct ((w_base sca g W) d b Hd) as [H1 H2].
    split; [done|]. intros _. by apply H2.
  - intros d2 b2 [[-> ->]|[_ H2]]%Hcase; [by rewrite Ec|]. by apply (w_fl sca g W) with d2.
  - intros d2 b2 [[-> ->]|[_ H2]]%Hcase; [done|]. by apply (w_kind sca g W) with d2.
  - intros d2 [H2|[b2 H2]]; [by apply (w_desc sca g W); left|]. apply (w_desc sca g W). right.
    apply Hcase in H2 as [[-> _]|[_ H2]]; [by exists b|by exists b2].
  - destruct (w_free sca g W) as [F1 F2]. split; [done|]. intros x Hx. cbn. rewrite lookup_insert_ne; [by apply F2|].
    intros <-. rewrite (F2 d Hx) in Hd. done.
  - intros i d2 H2. destruct ((w_queue sca g W) i d2 H2) as (b2 & H3 & H4 & H5). cbn.
    destruct (decide (d = d2)) as [<-|Hd2]; [|exists b2; by rewrite lookup_insert_ne].
    exists b'. rewrite lookup_insert_eq. split; [done|]. split; [|by apply (Hq i)]. rewrite Ec. congruence.
Qed.

Lemma make_active_inj d c d' c' : 0 ≤ d < 2 ^ 64 → d mod 64 = 0 → 0 ≤ d' < 2 ^ 64 → d' mod 64 = 0 →
  make_active d c = make_active d' c' → d = d'.
Proof.
  intros H1 H2 H3 H4 E. rewrite <- (make_active_desc d c H1 H2), <- (make_active_desc d' c' H3 H4). by rewrite E.
Qed.

(** A heap that does not refer to the superblock. *)
Lemma proc_rep_unref g h i P d b' :
  proc_rep g h i P → (∀ c, h_active P ≠ make_active d c) → h_partial P ≠ d → proc_rep (set_sb d b' g) h i P.
Proof.
  intros (H1 & H2 & H3) Ha Hp. split; [done|]. split.
  - destruct H2 as [H2|(d2 & c & b & E & Hd & Hk)]; [by left|]. right. exists d2, c, b. split; [done|]. split; [|done].
    cbn. rewrite lookup_insert_ne; [done|]. intros <-. by apply (Ha c).
  - destruct H3 as [H3|(b & Hd & Hk)]; [by left|]. right. exists b. split; [|done]. cbn. by rewrite lookup_insert_ne.
Qed.

(** The active superblock of a heap, and its owner. *)
Lemma active_ref g h i P d c b :
  pwf sca g → proc_rep g h i P → p_sb g !! d = Some b → h_active P = make_active d c →
  b_heap b = h ∧ ∃ c', b_kind b = SActive c' ∧ make_active d c = make_active d c'.
Proof.
  intros W (_ & H2 & _) Hd E. destruct (desc_where sca g d W) as (D1 & D2 & _); [right; by exists b|].
  destruct H2 as [H2|(d2 & c2 & b2 & E2 & Hd2 & Hk2 & Hh2)].
  - rewrite E in H2. by apply make_active_ne in H2; [|lia|].
  - destruct (desc_where sca g d2 W) as (F1 & F2 & _); [right; by exists b2|].
    assert (d = d2) as <- by (apply (make_active_inj d c d2 c2); [lia|done|lia|done|congruence]).
    assert (b2 = b) as -> by congruence. split; [done|]. exists c2. split; [done|congruence].
Qed.

Lemma block_addr_blk g d b D k : pwf sca g → p_sb g !! d = Some b → b_kind b ≠ SEmpty →
  d_sb D = b_base b → d_sz D = sc_sz (b_cls b) → avail (d_anchor D) = k → 0 ≤ k < sc_max (b_cls b) →
  block_addr D (d_anchor D) = blk b k.
Proof.
  intros W Hd K E1 E2 E3 Hk. unfold block_addr. rewrite E1, E2, E3.
  pose proof (blk_in sca g d b k W Hd Hk) as Hb. destruct (base_where sca g d b W Hd K) as (_ & B1 & B2 & _).
  unfold blk in *. change SBSIZE with 65536 in *. assert (0 ≤ k * sc_sz (b_cls b)) as H0 by nia.
  rewrite u32_small by lia. apply u64_small. lia.
Qed.

(** The fields after the first free block is taken. *)
Lemma take_fields g d b b' D D' k fl m next :
  pwf sca g → p_sb g !! d = Some b → sb_fields m d D b → b_free b = k :: fl →
  b_base b' = b_base b → b_cls b' = b_cls b → b_free b' = fl → 0 < d < 2 ^ 64 →
  d_sz D' = d_sz D → d_maxcount D' = d_maxcount D → next = load64 m (blk b k) →
  avail (d_anchor D') = next mod 2 ^ 24 → count (d_anchor D') = Z.of_nat (length fl) - held (b_kind b') →
  sb_fields (put_small (blk b k) d m) d D' b'.
Proof.
  intros W Hd [F1 F2 F3 F4 F5 F6] Efl Eb Ec Efl' Hdr E1 E2 En E3 E4.
  destruct (w_fl sca g W d b Hd) as [Hnd Hr]. rewrite Efl in *. apply NoDup_cons in Hnd as [Hk Hnd].
  assert (0 ≤ k < sc_max (b_cls b)) as Hkr by (apply Hr; left). destruct F5 as [Eav Hl].
  pose proof (w_cls sca g W d b Hd) as Hc. pose proof (sc_max_bounds _ Hc) as [Hmx _].
  assert (∀ j, 0 ≤ j < sc_max (b_cls b) → j ≠ k → ∀ x, blk b j ≤ x < blk b j + sc_sz (b_cls b) →
    load8 (put_small (blk b k) d m) x = load8 m x) as Hother.
  { intros j Hj Hjk x Hx. apply put_small_outside. change HEADER_SIZE with 12.
    pose proof (blk_in sca g d b k W Hd Hkr). pose proof (blk_in sca g d b j W Hd Hj). unfold blk in *. nia. }
  constructor; rewrite ?Eb, ?Ec, ?Efl'; try congruence.
  - rewrite E3. apply Z.mod_pos_bound. lia.
  - rewrite E3, En. apply flinked_ext with m.
    + intros j Hj. assert (0 ≤ j < sc_max (b_cls b)) as Hjr by (apply Hr; by right).
      apply load64_ext. intros x Hx. pose proof (blk_in sca g d b j W Hd Hjr). apply (Hother j Hjr); [by intros ->|].
      unfold blk in *. lia.
    + fold (blk b k) in Hl. destruct fl as [|j fl]; [done|]. destruct Hl as [Hj Hl].
      assert (0 ≤ j < sc_max (b_cls b)) as Hjr by (apply Hr; right; left).
      rewrite Hj. rewrite Z.mod_small by lia. by split.
  - intros j Hj Hjn. assert (blk b' j = blk b j) as -> by (unfold blk; by rewrite Eb, Ec).
    destruct (decide (j = k)) as [->|Hjk]; [apply put_small_header; lia|].
    eapply small_header_ext; [|apply F6; [exact Hj|]].
    + change HEADER_SIZE with 12. intros x Hx. pose proof (blk_in sca g d b j W Hd Hj). apply (Hother j Hj Hjk). lia.
    + intros [?|?]%elem_of_cons; done.
Qed.

Lemma blk_mod8 g d b k : pwf sca g → p_sb g !! d = Some b → b_kind b ≠ SEmpty → 0 ≤ k → (blk b k + HEADER_SIZE) mod 8 = 4.
Proof.
  intros W Hd K Hk. destruct (base_where sca g d b W Hd K) as (_ & _ & _ & Hm).
  rewrite (blk_eq b k (w_cls sca g W d b Hd)). change HEADER_SIZE with 12. change PAGESIZE with 4096 in Hm.
  pose proof (Z.div_mod (b_base b) 4096 ltac:(lia)) as E. rewrite Hm in E.
  replace (b_base b + k * (8 * (b_cls b + 1)) + 12) with (4 + (b_base b / 4096 * 512 + k * (b_cls b + 1) + 1) * 8) by lia.
  by rewrite Z.mod_add.
Qed.

Lemma taken_small g s d b b' k fl s' :
  pwf sca g → p_sb g !! d = Some b → b_kind b ≠ SEmpty → b_kind b' ≠ SEmpty →
  b_base b' = b_base b → b_cls b' = b_cls b → b_free b = k :: fl → b_free b' = fl →
  pm_mem s' = put_small (blk b k) d (pm_mem s) →
  taken g s (blk b k + HEADER_SIZE) (sc_sz (b_cls b) - HEADER_SIZE) (set_sb d b' g) s'.
Proof.
  intros W Hd K K' Eb Ec Efl Efl' Em. destruct (w_fl sca g W d b Hd) as [Hnd Hr]. rewrite Efl in *.
  apply NoDup_cons in Hnd as [Hk Hnd]. assert (0 ≤ k < sc_max (b_cls b)) as Hkr by (apply Hr; left).
  pose proof (blk_in sca g d b k W Hd Hkr) as Hin. destruct (base_where sca g d b W Hd K) as (Hrole & Hb0 & Hb1 & _).
  assert (∀ j, blk b' j = blk b j) as Hblk by (intros j; unfold blk; by rewrite Eb, Ec).
  assert (∀ q w, plive g q w → apart_maps q w (blk b k + HEADER_SIZE) (sc_sz (b_cls b) - HEADER_SIZE) ∧
    apart_maps q w (blk b k) HEADER_SIZE) as Hap.
  { change HEADER_SIZE with 12 in *. intros q w [(d2 & b2 & k2 & Hl & -> & ->)|(a & n & Ha & -> & ->)].
    - assert ((d2, k2) ≠ (d, k)) as Hne.
      { intros [= -> ->]. destruct Hl as (H2 & _ & _ & Hn). assert (b2 = b) as -> by congruence. apply Hn. rewrite Efl. left. }
      pose proof (blocks_apart sca g d2 b2 k2 d b k W Hl Hd K Hkr Hne) as H. destruct Hl as (H2 & _ & H3 & _).
      pose proof (blk_in sca g d2 b2 k2 W H2 H3). unfold apart_maps in *. change HEADER_SIZE with 12 in *. lia.
    - pose proof (base_large sca g d b a n W Hd K Ha) as H. pose proof (w_large sca g W a n Ha).
      unfold apart_maps in *. change HEADER_SIZE with 12 in *. lia. }
  constructor.
  - intros q w. unfold plive, small_live. split.
    + intros [(d2 & b2 & k2 & (H2 & H3 & H4 & H5) & -> & ->)|H]; [|left; by right]. cbn in H2.
      destruct (decide (d = d2)) as [<-|Hne].
      * rewrite lookup_insert_eq in H2. injection H2 as <-. rewrite Hblk, Ec in *. rewrite Efl' in H5.
        destruct (decide (k2 = k)) as [->|Hkk]; [by right|]. left. left. exists d, b, k2. split; [|done].
        rewrite Efl. split; [done|]. split; [done|]. split; [done|]. by apply not_elem_of_cons.
      * rewrite lookup_insert_ne in H2 by done. left. left. by exists d2, b2, k2.
    + intros [[(d2 & b2 & k2 & (H2 & H3 & H4 & H5) & -> & ->)|H]|[-> ->]]; [|by right|].
      * left. cbn. destruct (decide (d = d2)) as [<-|Hne].
        -- assert (b2 = b) as -> by congruence. exists d, b', k2. rewrite lookup_insert_eq, Hblk, Ec, Efl'.
           split; [|done]. split; [done|]. split; [done|]. split; [done|]. rewrite Efl in H5.
           by apply not_elem_of_cons in H5 as [_ H5].
        -- exists d2, b2, k2. by rewrite lookup_insert_ne.
      * left. exists d, b', k. cbn. rewrite lookup_insert_eq, Hblk, Ec, Efl'. split; [|done]. split; [done|]. split; [done|]. by split.
  - intros q w Hl. by apply Hap.
  - intros q w x Hl Hx. rewrite Em. apply put_small_outside. destruct (Hap q w Hl) as [_ H]. unfold apart_maps in H.
    change HEADER_SIZE with 12 in *. lia.
  - apply (blk_mod8 g d b k W Hd K). lia.
  - change HEADER_SIZE with 12. lia.
Qed.

(** The first free block of [d] goes to the program; [h] owns the superblock. *)
Lemma PInv_take g s d b k fl kd h ps lg D D' :
  PInv sca g s → p_sb g !! d = Some b → b_kind b ≠ SEmpty → b_free b = k :: fl → sb_fields (pm_mem s) d D b →
  p_role g !! h = Some (RHeap (b_cls b)) → (∀ j, d ∉ p_queue g j) →
  let b' := SbInfo (b_base b) (b_cls b) h fl kd in
  kind_ok b' → kd ≠ SEmpty → d_sb D' = b_base b → d_heap D' = h → astate (d_anchor D') = kind_code kd →
  d_sz D' = d_sz D → d_maxcount D' = d_maxcount D → avail (d_anchor D') = load64 (pm_mem s) (blk b k) mod 2 ^ 24 →
  count (d_anchor D') = Z.of_nat (length fl) - held kd →
  (∀ h i, p_role g !! h = Some (RHeap i) → proc_rep (set_sb d b' g) h i (default (mkProcheap no_active 0 0) (ps !! h))) →
  let s' := st_upd (put_small (blk b k) d (pm_mem s)) (<[d := D']> (pm_descs s)) ps lg s in
  PInv sca (set_sb d b' g) s' ∧ taken g s (blk b k + HEADER_SIZE) (sc_sz (b_cls b) - HEADER_SIZE) (set_sb d b' g) s'.
Proof.
  intros H Hd K Efl F Hh Hq b' Hko K' E1 E2 E3 E4 E5 E6 E7 Hps s'. pose proof (pi_wf _ _ _ _ H) as W.
  destruct (desc_where sca g d W) as (D1 & D2 & _); [right; by exists b|].
  destruct (w_fl sca g W d b Hd) as [Hnd Hr]. rewrite Efl in Hnd, Hr. apply NoDup_cons in Hnd as [Hk Hnd].
  assert (0 ≤ k < sc_max (b_cls b)) as Hkr by (apply Hr; left). split.
  - apply (PInv_upd sca g s d b b'); [done|done|done|done| | | |done].
    + apply (pwf_set_sb g d b b' W Hd); try done.
      * intros j Hj. apply Hr. by right.
      * intros j Hj. by apply Hq in Hj.
    + intros x Hx. apply put_small_outside. pose proof (blk_in sca g d b k W Hd Hkr). change HEADER_SIZE with 12. lia.
    + split; [done|]. split; [done|]. split; [done|].
      intros _. eapply (take_fields g d b b' D); try done. lia.
  - by apply (taken_small g s d b b' k fl).
Qed.

(** ** The active superblock *)

(** The kind of an active superblock that is left after taking a block with [c]
    credits and [n] further free blocks. *)
Definition next_kind (c n : Z) : skind :=
  if 0 <? c then SActive (c - 1) else if n =? 0 then SFull else SActive (Z.min n MAXCREDITS - 1).

Lemma next_kind_ok d b k fl c n :
  b_kind b = SActive c → b_free b = k :: fl → 0 ≤ c < MAXCREDITS → Z.of_nat (length (k :: fl)) = n + c + 1 → 0 ≤ n →
  Z.of_nat (length (k :: fl)) ≤ sc_max (b_cls b) →
  let b' := SbInfo (b_base b) (b_cls b) d fl (next_kind c n) in
  held (next_kind c n) + next_count c n = Z.of_nat (length fl) ∧ kind_ok b' ∧ next_kind c n ≠ SEmpty.
Proof.
  intros Hk Efl Hc Hlen Hn Hmx b'. unfold b', kind_ok, next_count, next_kind. cbn [b_kind b_free b_cls length] in *.
  change MAXCREDITS with 64 in *. destruct (Z.ltb_spec 0 c); [|destruct (Z.eqb_spec n 0)]; cbn [held].
  - split; [lia|]. split; [lia|done].
  - split; [lia|]. split; [destruct fl; [done|cbn in *; lia]|done].
  - split; [lia|]. split; [lia|done].
Qed.

(** The heaps once a block of the active superblock has been taken. *)
Lemma active_procs g s d b fl c n :
  PInv sca g s → p_sb g !! d = Some b → b_kind b = SActive c → p_role g !! b_heap b = Some (RHeap (b_cls b)) →
  let b' := SbInfo (b_base b) (b_cls b) (b_heap b) fl (next_kind c n) in
  let ps := <[b_heap b := set_active (next_active d c n) (pm_proc s (b_heap b))]> (pm_procs s) in
  ∀ h2 i2, p_role g !! h2 = Some (RHeap i2) →
    proc_rep (set_sb d b' g) h2 i2 (default (mkProcheap no_active 0 0) (ps !! h2)).
Proof.
  intros H Hd Hk Hh b' ps h2 i2 Hh2. pose proof (pi_wf _ _ _ _ H) as W.
  destruct (desc_where sca g d W) as (D1 & _); [right; by exists b|].
  pose proof (pi_proc _ _ _ _ H h2 i2 Hh2) as HP2. unfold ps.
  assert (∀ b2, p_sb g !! d = Some b2 → listed (b_kind b2) → False) as Hnl.
  { intros b2 Hb2. assert (b2 = b) as -> by congruence. rewrite Hk. by intros [?|?]. }
  destruct (decide (h2 = b_heap b)) as [->|Hne].
  - assert (i2 = b_cls b) as -> by congruence. rewrite lookup_insert_eq. cbn [default from_option id].
    split; [apply HP2|]. split.
    + unfold next_active, set_active, b', next_kind. cbn [h_active]. destruct (0 <? c) eqn:E0.
      * right. exists d, (c - 1). eexists. split; [done|]. split; [cbn; by rewrite lookup_insert_eq|]. by split.
      * destruct (n =? 0) eqn:E1; [by left|]. right. exists d, (Z.min n MAXCREDITS - 1). eexists. split; [done|].
        split; [cbn; by rewrite lookup_insert_eq|]. by split.
    + destruct (proj2 (proj2 HP2)) as [?|(b2 & Hb2 & Hl2 & Hh3 & Hq2)]; [by left|]. right. exists b2.
      split; [|done]. cbn. rewrite lookup_insert_ne; [done|]. intros Ex. rewrite <- Ex in Hb2. by apply (Hnl b2).
  - rewrite lookup_insert_ne by done. fold (pm_proc s h2). apply proc_rep_unref; [done|..].
    + intros c2 Ex. destruct (active_ref g h2 i2 _ d c2 b W HP2 Hd Ex) as [? _]. congruence.
    + intros Ex. destruct (proj2 (proj2 HP2)) as [E2|(b2 & Hb2 & Hl2 & _)].
      * rewrite E2 in Ex. lia.
      * rewrite Ex in Hb2. by apply (Hnl b2).
Qed.

Lemma MallocFromActive_spec fuel g s h i Q :
  PInv sca g s → p_role g !! h = Some (RHeap i) →
  (h_active (pm_proc s h) = no_active → Q 0 s) →
  (∀ p s' g', PInv sca g' s' → taken g s p (sc_sz i - HEADER_SIZE) g' s' → Q p s') →
  wp (MallocFromActive (S fuel) h) Q s.
Proof.
  intros H Hh H0 HQ. pose proof (pi_wf _ _ _ _ H) as W. pose proof (pi_proc _ _ _ _ H h i Hh) as HP.
  destruct (proj1 (proj2 HP)) as [E|(d & c & b & E & Hd & Hk & Hhb)]; [apply MallocFromActive_none; auto|].
  destruct (desc_where sca g d W) as (D1 & D2 & _); [right; by exists b|].
  pose proof (w_kind sca g W d b Hd) as Hko. unfold kind_ok in Hko. rewrite Hk in Hko. destruct Hko as [Hc Hlen].
  assert (b_kind b ≠ SEmpty) as K by (by rewrite Hk). destruct (pi_sb _ _ _ _ H d b Hd) as (D & ED & R1 & R2 & R3 & R4).
  pose proof (R4 K) as F. pose proof F as [F1 F2 F3 F4 F5 F6].
  pose proof (w_cls sca g W d b Hd) as Hcl. pose proof (sc_max_bounds _ Hcl) as [Hmx _].
  destruct (w_fl sca g W d b Hd) as [Hnd Hr]. pose proof (fl_bound (b_free b) (sc_max (b_cls b)) Hnd Hr ltac:(lia)) as Hlb.
  destruct (b_free b) as [|k fl] eqn:Efl; [cbn in Hlen; lia|]. destruct F5 as [Eav Hl].
  assert (0 ≤ k < sc_max (b_cls b)) as Hkr by (apply Hr; left).
  assert (pm_desc s d = D) as Ed by (unfold pm_desc; by rewrite ED).
  assert (block_addr D (d_anchor D) = blk b k) as Eb by (by apply (block_addr_blk g d)).
  rewrite Hk in F3. cbn [held] in F3. assert (b_cls b = i) as Ei.
  { pose proof (w_owner sca g W d b Hd) as Ho. rewrite Hhb, Hh in Ho. congruence. }
  set (n := count (d_anchor D)) in *.
  destruct (next_kind_ok h b k fl c n) as (Hcnt & Hko & K'); try done; [lia|cbn [length] in *; lia|].
  apply (MallocFromActive_run fuel h d c s (d_anchor D) (load64 (pm_mem s) (blk b k))).
  { exact E. } { lia. } { exact D2. } { exact Hc. } { by rewrite Ed. } { fold n. cbn [length] in *. lia. }
  { rewrite R3. by rewrite Hk. } { by rewrite Ed, Eb. }
  intros lg. unfold put_anchor. rewrite !Ed, Eb. subst i h.
  match goal with |- Q _ (st_upd _ (<[d := ?D']> _) ?ps _ _) =>
    destruct (PInv_take g s d b k fl (next_kind c n) (b_heap b) ps lg D D') as [HI HT]; try done end.
  { intros j Hj. destruct (w_queue sca g W j d Hj) as (b2 & Hb2 & _ & Hl2). assert (b2 = b) as -> by congruence.
    rewrite Hk in Hl2. by destruct Hl2. }
  { cbn. unfold next_state, next_kind. rewrite R3, Hk. fold n. destruct (0 <? c); [done|]. by destruct (n =? 0). }
  { cbn. fold n. lia. }
  { by apply active_procs. }
  by apply (HQ _ _ _ HI).
Qed.
End Take.
