(* ===== verification/OldPartial.v ===== *)
(** * Partial superblocks of the old allocator

    The slot of a heap, the queue of a size class, and [MallocFromPartial]. *)

From Stdlib Require Import ZArith Lia.
From stdpp Require Import base gmap numbers functions list.
From S2P Require Import Prelude Mem OldQueue OldMalloc OldDesc OldLarge OldRun OldInv OldTake.

Local Open Scope Z_scope.
#[local] Set Warnings "-clear-no-such-hyp".

Definition set_queue (i : Z) (l : list Z) (g : pghost) : pghost :=
  PGhost (p_role g) (p_sb g) (p_free g) (<[i := l]> (p_queue g)).

Definition retire_sb (d : Z) (g : pghost) : pghost :=
  PGhost (p_role g) (delete d (p_sb g)) (d :: p_free g) (p_queue g).

Section Partial.
Context (sca : Z).

(** ** Framing *)

Lemma PInv_procs g s ps lg :
  PInv sca g s → (∀ h i, p_role g !! h = Some (RHeap i) → proc_rep g h i (default (mkProcheap no_active 0 0) (ps !! h))) →
  PInv sca g (st_upd (pm_mem s) (pm_descs s) ps lg s).
Proof. intros [] Hp. by constructor. Qed.

Lemma PInv_log g s lg : PInv sca g s → PInv sca g (with_log lg s).
Proof. intros []. by constructor. Qed.

Lemma queue_rep_ext dummy q q' n l :
  queue_rep dummy q n l → fifo q' = fifo q → (∀ x, x ∈ n → nexts q' !! x = nexts q !! x) → queue_rep dummy q' n l.
Proof.
  intros ([H1 H2 H3 H4 H5] & Hf & He & Hd) Ef Hn. split; [|split; [|done]].
  - constructor; rewrite ?Ef; try done. by eapply qlinked_ext.
  - unfold dummy_flag in *. by rewrite Ef.
Qed.

Lemma queue_nodes dummy q n l x : queue_rep dummy q n l → x ∈ n → x = dummy ∨ x ∈ l.
Proof.
  intros (_ & _ & <- & _) Hx. destruct (decide (x = dummy)); [by left|]. right.
  unfold elements. by apply list_elem_of_filter.
Qed.

Lemma queue_NoDup dummy q n l : queue_rep dummy q n l → NoDup l.
Proof. intros (H & _ & <- & _). apply NoDup_filter, (ql_nodup _ _ H). Qed.

Lemma dummy_inj i j : dummy_addr sca i = dummy_addr sca j → i = j.
Proof. unfold dummy_addr. change sizeof_sizeclass with 96. lia. Qed.

(** A queue operation of class [i] that touches the words of [nodes] only. *)
Lemma PInv_queue g s i q nodes n l :
  PInv sca g s → 0 ≤ i < 256 → queue_rep (dummy_addr sca i) q n l → same_next nodes (qst s i) q →
  (∀ x, x ∈ nodes → x = dummy_addr sca i ∨ ∃ b, p_sb g !! x = Some b ∧ b_cls b = i) →
  (∀ d, d ∈ l → ∃ b, p_sb g !! d = Some b ∧ b_cls b = i ∧ listed (b_kind b)) →
  (∀ h, p_role g !! h = Some (RHeap i) → h_partial (pm_proc s h) ≠ 0 → h_partial (pm_proc s h) ∉ l) →
  PInv sca (set_queue i l g) (pm_set_queue i q s).
Proof.
  intros H Hi Hq Hsame Hnodes Hl Hslot. pose proof (pi_wf _ _ _ _ H) as W. constructor; try apply H.
  - constructor; try apply W. intros j d. cbn. destruct (decide (i = j)) as [<-|Hne].
    + rewrite fn_lookup_insert. apply Hl.
    + rewrite fn_lookup_insert_ne by done. apply (w_queue sca g W).
  - intros h j Hh. destruct (pi_proc _ _ _ _ H h j Hh) as (P1 & P2 & P3). split; [done|]. split; [done|].
    change (pm_proc (pm_set_queue i q s) h) with (pm_proc s h).
    destruct P3 as [P3|(b & Hb & Hk & Hhb & Hn)]; [by left|]. right. exists b. split_and!; try done. cbn.
    destruct (decide (i = j)) as [<-|Hne]; [|by rewrite fn_lookup_insert_ne].
    rewrite fn_lookup_insert. apply Hslot; [done|]. intros E. rewrite E in Hb.
    destruct (desc_where sca g 0 W) as [? _]; [right; by exists b|lia].
  - intros j Hj. cbn. unfold qst. cbn [pm_fifos pm_nexts pm_set_queue].
    destruct (decide (i = j)) as [<-|Hne].
    + rewrite lookup_insert_eq, fn_lookup_insert. exists n. eapply queue_rep_ext; [exact Hq|done|done].
    + rewrite lookup_insert_ne, fn_lookup_insert_ne by done. destruct (pi_queue _ _ _ _ H j Hj) as [nj Hqj].
      exists nj. eapply queue_rep_ext; [exact Hqj|done|]. intros x Hx. apply (Hsame x). intros Hxn.
      destruct (queue_nodes _ _ _ _ _ Hqj Hx) as [->|Hxj]; destruct (Hnodes _ Hxn) as [E|(b & Hb & Hc)].
      * apply dummy_inj in E. done.
      * destruct (desc_where sca g (dummy_addr sca j) W) as (_ & _ & Hd); [right; by exists b|]. by apply (Hd j).
      * destruct (w_queue sca g W j x Hxj) as (b & Hb & _).
        destruct (desc_where sca g x W) as (_ & _ & Hd); [right; by exists b|]. by apply (Hd i).
      * destruct (w_queue sca g W j x Hxj) as (b' & Hb' & Hc' & _). congruence.
Qed.

(** Retiring the descriptor of an empty superblock that nothing refers to. *)
Lemma PInv_retire g s d b D t lg :
  PInv sca g s → p_sb g !! d = Some b → b_kind b = SEmpty →
  (∀ h i, p_role g !! h = Some (RHeap i) → h_partial (pm_proc s h) ≠ d) → (∀ j, d ∉ p_queue g j) →
  PInv sca (retire_sb d g) (pm_set_avail (d, t) (with_descs (<[d := with_Next (pm_avail s).1 D]> (pm_descs s)) lg s)).
Proof.
  intros H Hd K Hs Hq. pose proof (pi_wf _ _ _ _ H) as W.
  assert (∀ d2 b2, p_sb (retire_sb d g) !! d2 = Some b2 → d2 ≠ d ∧ p_sb g !! d2 = Some b2) as Hcase.
  { intros d2 b2. cbn. intros [H1 H2]%lookup_delete_Some. done. }
  constructor; try apply H.
  - constructor; try apply W.
    + intros d2 b2 [_ H2]%Hcase. by apply (w_cls sca g W d2).
    + intros d2 b2 [_ H2]%Hcase. by apply (w_owner sca g W d2).
    + intros d2 b2 [_ H2]%Hcase. by apply (w_base sca g W d2).
    + intros d2 b2 [_ H2]%Hcase. by apply (w_fl sca g W d2).
    + intros d2 b2 [_ H2]%Hcase. by apply (w_kind sca g W d2).
    + intros d2 [H2|[b2 H2]].
      * cbn in H2. apply elem_of_cons in H2 as [->|H2]; apply (w_desc sca g W); [right; by exists b|by left].
      * apply Hcase in H2 as [_ H2]. apply (w_desc sca g W). right. by exists b2.
    + destruct (w_free sca g W) as [F1 F2]. split.
      * apply NoDup_cons. split; [|done]. intros Hin. rewrite (F2 d Hin) in Hd. done.
      * intros x [->|Hx]%elem_of_cons; cbn; [by rewrite lookup_delete_eq|]. apply lookup_delete_None. right. by apply F2.
    + intros j x Hx. destruct (w_queue sca g W j x Hx) as (b2 & H2 & H3). exists b2. split; [|done]. cbn.
      rewrite lookup_delete_ne; [done|]. intros <-. by apply (Hq j).
  - intros d2 b2 [Hne H2]%Hcase. destruct (pi_sb _ _ _ _ H d2 b2 H2) as (D2 & E2 & R). exists D2. split; [|done].
    cbn. by rewrite lookup_insert_ne.
  - intros h j Hh. pose proof (pi_proc _ _ _ _ H h j Hh) as HP. pose proof HP as (P1 & P2 & P3).
    change (pm_proc (pm_set_avail _ _) h) with (pm_proc s h). split; [done|]. split.
    + destruct P2 as [P2|(d2 & c & b2 & E & H2 & H3)]; [by left|]. right. exists d2, c, b2. split; [done|]. split; [|done].
      cbn. rewrite lookup_delete_ne; [done|]. intros <-. destruct H3 as [H3 _]. congruence.
    + destruct P3 as [P3|(b2 & H2 & H3)]; [by left|]. right. exists b2. split; [|done]. cbn.
      rewrite lookup_delete_ne; [done|]. intros E. by apply (Hs h j Hh).
  - unfold desc_list. cbn [pm_descs pm_avail pm_set_avail with_descs fst]. cbn [p_free retire_sb dlinked].
    destruct (desc_where sca g d W) as (D1 & _); [right; by exists b|]. split; [done|]. split; [lia|].
    rewrite pm_dget_eq. cbn [d_Next with_Next]. eapply dlinked_ext; [|exact (pi_free _ _ _ _ H)]. intros x Hx.
    rewrite pm_dget_ne; [done|]. intros <-. destruct (w_free sca g W) as [_ F2]. rewrite (F2 d Hx) in Hd. done.
Qed.

(** ** [HeapGetPartial] *)

(** Superblocks in the slot and the queue of a heap. *)
Definition waiting (g : pghost) (s : pmstate) (h i : Z) : nat :=
  (if decide (h_partial (pm_proc s h) = 0) then 0 else 1) + length (p_queue g i).

(** The blocks in use, their contents, and the mappings are as before. *)
Record quiet (g : pghost) (s : pmstate) (h : Z) (g' : pghost) (s' : pmstate) : Prop := {
  qu_role : p_role g' = p_role g;
  qu_live : ∀ q w, plive g' q w ↔ plive g q w;
  qu_mem : pm_mem s' = pm_mem s;
  qu_supply : pm_supply s' = pm_supply s;
  qu_active : h_active (pm_proc s' h) = h_active (pm_proc s h)
}.

Lemma quiet_trans g1 s1 g2 s2 g3 s3 h : quiet g1 s1 h g2 s2 → quiet g2 s2 h g3 s3 → quiet g1 s1 h g3 s3.
Proof.
  intros [A1 A2 A3 A4 A5] [B1 B2 B3 B4 B5]. constructor; try congruence. intros q w. by rewrite B2.
Qed.

Lemma plive_ext g g' q w : p_role g' = p_role g → p_sb g' = p_sb g → plive g' q w ↔ plive g q w.
Proof. intros E1 E2. unfold plive, small_live. by rewrite E1, E2. Qed.

(** A superblock that was taken out: nothing refers to it. *)
Definition loose (g : pghost) (s : pmstate) (i d : Z) : Prop :=
  ∃ b, p_sb g !! d = Some b ∧ b_cls b = i ∧ listed (b_kind b) ∧
    (∀ h j, p_role g !! h = Some (RHeap j) → h_partial (pm_proc s h) ≠ d) ∧ ∀ j, d ∉ p_queue g j.

Lemma ListGetPartial_spec fuel g s i Q :
  PInv sca g s → 0 ≤ i < 256 → (3 ≤ fuel)%nat →
  (∀ r q l, (r, l) = dequeued (p_queue g i) → let s' := pm_set_queue i q s in let g' := set_queue i l g in
    PInv sca g' s' → (r ≠ 0 → loose g' s' i r) → (r = 0 ↔ p_queue g i = []) → Q r s') →
  wp (ListGetPartial sca fuel i) Q s.
Proof.
  intros H Hi Hf HQ. pose proof (pi_wf _ _ _ _ H) as W. unfold ListGetPartial.
  destruct (pi_queue _ _ _ _ H i Hi) as [n Hq].
  apply wp_on_queue. fold (qst s i). apply (dequeue_run _ fuel _ n (p_queue g i)); [exact Hq|done|].
  intros r q n' l Er Hq' Hsub Hsame.
  assert (∀ d, d ∈ l → d ∈ p_queue g i) as Hl.
  { intros d Hd. destruct (p_queue g i) as [|x l0]; injection Er as -> ->; [done|by right]. }
  assert (∀ h j d, p_role g !! h = Some (RHeap j) → d ∈ p_queue g i → h_partial (pm_proc s h) ≠ d) as Hslot.
  { intros h j d Hh Hd Ex. destruct (w_queue sca g W i d Hd) as (b & Hb & Hc & Hk).
    destruct (desc_where sca g d W) as (X1 & _); [right; by exists b|].
    destruct (pi_proc _ _ _ _ H h j Hh) as (_ & _ & [E0|(b2 & Hb2 & _ & Hhb2 & Hn)]); [lia|].
    rewrite Ex in *. assert (b2 = b) as -> by congruence. pose proof (w_owner sca g W d b Hb) as Ho.
    rewrite Hhb2, Hh in Ho. apply Hn. congruence. }
  apply (HQ r q l Er).
  - apply (PInv_queue g s i q (n ++ [dummy_addr sca i]) n' l); [done|done|done|exact Hsame| | |].
    + intros x Hx. apply elem_of_app in Hx as [Hx|Hx]; [|apply list_elem_of_singleton in Hx; by left].
      destruct (queue_nodes _ _ _ _ _ Hq Hx) as [->|Hx2]; [by left|]. right.
      destruct (w_queue sca g W i x Hx2) as (b & Hb & Hc & _). by exists b.
    + intros d Hd. apply (w_queue sca g W). by apply Hl.
    + intros h2 Hh2 _ Hin. by apply (Hslot h2 i _ Hh2 (Hl _ Hin)).
  - intros Hr. destruct (p_queue g i) as [|x l0] eqn:Eq; injection Er as -> ->; [done|].
    destruct (w_queue sca g W i x) as (b & Hb & Hc & Hk); [rewrite Eq; left|].
    pose proof (queue_NoDup _ _ _ _ Hq) as Hnd. apply NoDup_cons in Hnd as [Hx Hnd].
    exists b. split_and!; try done.
    + intros h2 j Hh2. by apply (Hslot h2 j x Hh2); left.
    + intros j. cbn. destruct (decide (i = j)) as [<-|Hij]; [by rewrite fn_lookup_insert|].
      rewrite fn_lookup_insert_ne by done. intros Hin. destruct (w_queue sca g W j x Hin) as (b2 & Hb2 & Hc2 & _). congruence.
  - destruct (p_queue g i) as [|x l0] eqn:Eq; injection Er as -> ->; [done|].
    destruct (w_queue sca g W i x) as (b & Hb & _); [rewrite Eq; left|].
    destruct (desc_where sca g x W) as (X1 & _); [right; by exists b|]. split; [lia|done].
Qed.

(** A superblock that nothing refers to is put at the end of the queue. *)
Lemma enqueue_spec fuel g s i x Q :
  PInv sca g s → 0 ≤ i < 256 → loose g s i x → (1 ≤ fuel)%nat →
  (∀ q, PInv sca (set_queue i (p_queue g i ++ [x]) g) (pm_set_queue i q s) → Q tt (pm_set_queue i q s)) →
  wp (on_queue i (lf_fifo_enqueue fuel x)) Q s.
Proof.
  intros H Hi (b & Hb & Hc & Hk & Hs & Hnq) Hf HQ. pose proof (pi_wf _ _ _ _ H) as W.
  destruct (pi_queue _ _ _ _ H i Hi) as [n Hq]. destruct (desc_where sca g x W) as (X1 & _ & X2); [right; by exists b|].
  apply wp_on_queue. fold (qst s i). apply (enqueue_rep (dummy_addr sca i) fuel _ n (p_queue g i)).
  { exact Hq. } { lia. } { intros Hx. destruct (queue_nodes _ _ _ _ _ Hq Hx) as [->|Hx2]; [by apply (X2 i)|by apply (Hnq i)]. }
  { by apply X2. } { done. }
  intros q Hq' Hsame. apply HQ. apply (PInv_queue g s i q (n ++ [x]) (n ++ [x]) _); [done|done|done|exact Hsame|..].
  - intros y Hy. apply elem_of_app in Hy as [Hy|Hy].
    + destruct (queue_nodes _ _ _ _ _ Hq Hy) as [->|Hy2]; [by left|]. right.
      destruct (w_queue sca g W i y Hy2) as (b2 & Hb2 & Hc2 & _). by exists b2.
    + apply list_elem_of_singleton in Hy as ->. right. by exists b.
  - intros y Hy. apply elem_of_app in Hy as [Hy|Hy]; [by apply (w_queue sca g W)|].
    apply list_elem_of_singleton in Hy as ->. by exists b.
  - intros h2 Hh2 Hne Hin. apply elem_of_app in Hin as [Hin|Hin].
    + destruct (pi_proc _ _ _ _ H h2 i Hh2) as (_ & _ & [?|(b2 & _ & _ & _ & Hn)]); done.
    + apply list_elem_of_singleton in Hin. by apply (Hs h2 i).
Qed.

Lemma HeapGetPartial_spec fuel g s h i Q :
  PInv sca g s → p_role g !! h = Some (RHeap i) → (4 ≤ fuel)%nat →
  (∀ d g' s', PInv sca g' s' → quiet g s h g' s' →
    (d = 0 ∨ (d ≠ 0 ∧ loose g' s' i d ∧ (waiting g' s' h i < waiting g s h i)%nat)) → Q d s') →
  wp (HeapGetPartial sca fuel h) Q s.
Proof.
  intros H Hh Hf HQ. destruct fuel as [|fuel]; [lia|]. pose proof (pi_wf _ _ _ _ H) as W.
  pose proof (pi_proc _ _ _ _ H h i Hh) as HP. pose proof HP as (P1 & P2 & P3).
  pose proof (w_heap sca g W h i Hh) as Hi. unfold HeapGetPartial. wp_steps. cbn [HeapGetPartial_loop].
  destruct (Z.eqb_spec (h_partial (pm_proc s h)) 0) as [E|Hne].
  - wp_steps. rewrite P1. apply (ListGetPartial_spec fuel g s i); [done|lia|lia|].
    intros r q l Er s' g' H' Hl Hr0. apply (HQ r g' s'); [done|constructor; done|].
    destruct (decide (r = 0)) as [->|Hne]; [by left|]. right. split; [done|]. split; [by apply Hl|].
    unfold waiting, g'. cbn [p_queue set_queue]. rewrite fn_lookup_insert. change (pm_proc s' h) with (pm_proc s h).
    destruct (p_queue g i) as [|x l0]; [by destruct Hne; apply Hr0|]. injection Er as -> ->. cbn [length]. lia.
  - destruct P3 as [?|(b & Hb & Hk & Hhb & Hn)]; [done|]. unfold FLUSH, FLUSHFENCE, FLUSH_AT. wp_steps.
    unfold cas_partial. unfold wp at 1. change (pm_proc (pm_emit EvFence s) h) with (pm_proc s h).
    rewrite decide_True by done. wp_steps. st_norm.
    pose proof (w_owner sca g W _ b Hb) as Ho. rewrite Hhb, Hh in Ho.
    match goal with |- Q ?x ?S => apply (HQ x g S) end.
    + apply PInv_procs; [done|]. intros h2 j Hh2. pose proof (pi_proc _ _ _ _ H h2 j Hh2) as HP2.
      destruct (decide (h = h2)) as [<-|Hneh].
      * rewrite lookup_insert_eq. cbn [default from_option id]. destruct HP2 as (R1 & R2 & _). split; [done|].
        split; [done|by left].
      * by rewrite lookup_insert_ne.
    + constructor; try done. st_norm. by rewrite lookup_insert_eq.
    + right. split; [done|]. split.
      * exists b. split_and!; try done; [congruence|..].
        -- intros h2 j Hh2. st_norm. destruct (decide (h = h2)) as [<-|Hneh].
           ++ rewrite lookup_insert_eq. cbn. intros Ex. by apply Hne.
           ++ rewrite lookup_insert_ne by done. fold (pm_proc s h2). intros Ex.
              destruct (pi_proc _ _ _ _ H h2 j Hh2) as (_ & _ & [E0|(b2 & Hb2 & _ & Hhb2 & _)]); [congruence|].
              rewrite Ex in Hb2. congruence.
        -- intros j Hin. destruct (w_queue sca g W j _ Hin) as (b2 & Hb2 & Hc2 & _). apply Hn. congruence.
      * unfold waiting. st_norm. rewrite lookup_insert_eq. cbn [default from_option id h_partial].
        destruct (decide (0 = 0)); [|done]. destruct (decide (h_partial (pm_proc s h) = 0)); [done|]. lia.
Qed.
(** ** [MallocFromPartial] *)

Lemma taken_quiet g s h g1 s1 p z g2 s2 :
  quiet g s h g1 s1 → taken g1 s1 p z g2 s2 → taken g s p z g2 s2.
Proof.
  intros [Q1 Q2 Q3 Q4 Q5] [T1 T2 T3 T4 T5]. constructor; try done.
  - intros q w. by rewrite T1, Q2.
  - intros q w Hl. apply T2. by apply Q2.
  - intros q w x Hl Hx. rewrite <- Q3. apply (T3 q w); [by apply Q2|done].
Qed.

Lemma retire_live g d b q w : p_sb g !! d = Some b → b_kind b = SEmpty → plive (retire_sb d g) q w ↔ plive g q w.
Proof.
  intros Hd K. unfold plive, small_live. cbn. split; (intros [(d2 & b2 & k2 & (H2 & H3) & H4)|H]; [left|by right]).
  - apply lookup_delete_Some in H2 as [_ H2]. by exists d2, b2, k2.
  - exists d2, b2, k2. split; [|done]. split; [|done]. rewrite lookup_delete_ne; [done|]. intros <-.
    assert (b2 = b) as -> by congruence. by destruct H3.
Qed.

(** An empty superblock that was taken out: its descriptor is retired. *)
Lemma DescRetire_loose fuel g s h i d D' lg Q :
  PInv sca g s → p_role g !! h = Some (RHeap i) → loose g s i d →
  (∀ b, p_sb g !! d = Some b → b_kind b = SEmpty) →
  (∀ s', PInv sca (retire_sb d g) s' → quiet g s h (retire_sb d g) s' → pm_procs s' = pm_procs s → Q tt s') →
  wp (DescRetire (S fuel) d) Q (st_upd (pm_mem s) (<[d := D']> (pm_descs s)) (pm_procs s) lg s).
Proof.
  intros H Hh (b & Hd & Hc & _ & Hs & Hq) HK HQ. specialize (HK b Hd). apply DescRetire_run. intros lg2.
  unfold with_descs. st_norm. rewrite pm_dget_eq, insert_insert_eq. apply HQ; [|constructor; try done|done].
  - by apply (PInv_retire g s d b D' _ lg2).
  - intros q w. by apply (retire_live g d b).
Qed.

(** The kind of a superblock of which [n] blocks were free when it was reserved. *)
Definition reserved_kind (n : Z) : skind := if 0 <? reserved n then SActive (reserved n - 1) else SFull.

(** The heaps once [h] has reserved the blocks of a partial superblock. *)
Lemma partial_procs g s h d b fl n :
  PInv sca g s → loose g s (b_cls b) d → p_sb g !! d = Some b → b_kind b = SPartial →
  p_role g !! h = Some (RHeap (b_cls b)) →
  let b' := SbInfo (b_base b) (b_cls b) h fl (reserved_kind n) in
  let ps := if 0 <? reserved n then <[h := set_active (make_active d (reserved n - 1)) (pm_proc s h)]> (pm_procs s)
            else pm_procs s in
  ∀ h2 i2, p_role g !! h2 = Some (RHeap i2) →
    proc_rep (set_sb d b' g) h2 i2 (default (mkProcheap no_active 0 0) (ps !! h2)).
Proof.
  intros H Hl Hb K Hh b' ps h2 i2 Hh2. pose proof (pi_wf _ _ _ _ H) as W. destruct Hl as (_ & _ & _ & _ & Hs & Hqn).
  pose proof (pi_proc _ _ _ _ H h2 i2 Hh2) as HP2.
  assert (∀ P, proc_rep g h2 i2 P → h_active P = h_active (pm_proc s h2) → h_partial P = h_partial (pm_proc s h2) →
    proc_rep (set_sb d b' g) h2 i2 P) as Hun.
  { intros P HP Ea Ep. apply proc_rep_unref; [done|..].
    - intros c2 Ex. destruct (active_ref sca g h2 i2 _ d c2 b W HP Hb Ex) as (_ & c' & Kc & _). congruence.
    - rewrite Ep. by apply (Hs h2 i2). }
  unfold ps. destruct (0 <? reserved n) eqn:E0; [|by apply Hun].
  destruct (decide (h2 = h)) as [->|Hne]; [|rewrite lookup_insert_ne by done; by apply Hun].
  rewrite lookup_insert_eq. cbn [default from_option id]. destruct (Hun _ HP2 eq_refl eq_refl) as (U1 & _ & U3).
  split; [done|]. split; [|done]. right. exists d, (reserved n - 1), b'. split; [done|].
  split; [cbn; by rewrite lookup_insert_eq|]. unfold b', reserved_kind. rewrite E0. by split.
Qed.

(** A block of a partial superblock that was taken out. *)
Lemma partial_take g s h i d b D lg :
  PInv sca g s → p_role g !! h = Some (RHeap i) → loose g s i d → p_sb g !! d = Some b → b_kind b = SPartial →
  pm_descs s !! d = Some D →
  let n := count (d_anchor D) in let a := block_addr D (d_anchor D) in
  let s' := st_upd (put_small a d (pm_mem s))
    (<[d := with_anchor (popped (d_anchor D) (load64 (pm_mem s) a) (n - (reserved n + 1)) (reserved_state n))
         (with_heap h D)]> (pm_descs s))
    (if 0 <? reserved n then <[h := set_active (make_active d (reserved n - 1)) (pm_proc s h)]> (pm_procs s)
     else pm_procs s) lg s in
  1 ≤ n < 2 ^ 24 ∧ ∃ g', PInv sca g' s' ∧ taken g s (a + HEADER_SIZE) (sc_sz i - HEADER_SIZE) g' s'.
Proof.
  intros H Hh Hl Hb K ED n a s'. pose proof (pi_wf _ _ _ _ H) as W. pose proof Hl as (b2 & Hb2 & Hc & _ & _ & Hqn).
  assert (b2 = b) as -> by congruence. destruct (pi_sb _ _ _ _ H d b Hb) as (D2 & ED2 & R1 & R2 & R3 & R4).
  assert (D2 = D) as -> by congruence. assert (b_kind b ≠ SEmpty) as K1 by (by rewrite K).
  pose proof (R4 K1) as F. pose proof F as [F1 F2 F3 F4 F5 F6].
  pose proof (w_kind sca g W d b Hb) as Hko. unfold kind_ok in Hko. rewrite K in Hko, F3. cbn [held] in F3.
  destruct (b_free b) as [|k fl] eqn:Efl; [cbn in Hko; lia|]. destruct F5 as [Eav Hlk]. cbn [length] in *.
  pose proof (w_cls sca g W d b Hb) as Hcl. pose proof (sc_max_bounds _ Hcl) as [Hmx _].
  destruct (w_fl sca g W d b Hb) as [Hnd Hr]. assert (0 ≤ k < sc_max (b_cls b)) as Hkr by (apply Hr; rewrite Efl; left).
  assert (a = blk b k) as Eb by (by apply (block_addr_blk sca g d)). unfold s'. rewrite Eb. clear s'.
  split; [unfold n; lia|]. subst i.
  assert (reserved n = Z.min (Z.of_nat (length fl)) 64) as Ers by (unfold reserved, n; change MAXCREDITS with 64; lia).
  match goal with |- ∃ g', PInv _ _ (st_upd _ (<[d := ?D']> _) ?ps _ _) ∧ _ =>
    destruct (PInv_take sca g s d b k fl (reserved_kind n) h ps lg D D') as [HI HT]; try done end.
  { unfold kind_ok, reserved_kind. cbn [b_kind b_free b_cls]. destruct (Z.ltb_spec 0 (reserved n)); [lia|].
    destruct fl; [done|cbn in *; lia]. }
  { unfold reserved_kind. by destruct (0 <? reserved n). }
  { cbn. unfold reserved_state, reserved_kind. by destruct (0 <? reserved n). }
  { cbn. unfold reserved_kind. destruct (Z.ltb_spec 0 (reserved n)); cbn [held]; lia. }
  { by apply partial_procs. }
  eauto.
Qed.

Lemma MallocFromPartial_spec fuel g s h i Q :
  PInv sca g s → p_role g !! h = Some (RHeap i) → h_active (pm_proc s h) = no_active →
  (waiting g s h i + 5 ≤ fuel)%nat →
  (∀ s' g', PInv sca g' s' → quiet g s h g' s' → Q 0 s') →
  (∀ p s' g', PInv sca g' s' → taken g s p (sc_sz i - HEADER_SIZE) g' s' → Q p s') →
  wp (MallocFromPartial sca fuel h) Q s.
Proof.
  intros H Hh Ha Hf HQ0 HQ. remember (waiting g s h i) as n eqn:En.
  revert fuel g s H Hh Ha Hf HQ0 HQ En. induction n as [n IH] using lt_wf_ind. intros fuel g s H Hh Ha Hf HQ0 HQ ->.
  destruct fuel as [|[|fuel]]; [lia..|]. apply MallocFromPartial_step.
  apply (HeapGetPartial_spec (S fuel) g s h i); [done|done|lia|]. intros d g1 s1 H1 Hq1 Hd. cbn zeta.
  pose proof (pi_wf _ _ _ _ H1) as W1. pose proof (qu_role _ _ _ _ _ Hq1) as Er.
  split; [by intros _; apply (HQ0 s1 g1)|].
  destruct Hd as [->|(Hd0 & Hl & Hlt)]; [by split|]. pose proof Hl as (b & Hb & Hc & Hk & Hs & Hqn).
  destruct (pi_sb _ _ _ _ H1 d b Hb) as (D & ED & R1 & R2 & R3 & R4).
  assert (pm_desc s1 d = D) as Ed by (unfold pm_desc; by rewrite ED). rewrite Ed.
  destruct (desc_where sca g1 d W1) as (D1 & D2 & _); [right; by exists b|].
  assert (p_role g1 !! h = Some (RHeap i)) as Hh1 by (by rewrite Er).
  split.
  - intros _ EE lg. rewrite R3 in EE. apply wp_bind. destruct fuel as [|fuel]; [lia|].
    apply (DescRetire_loose fuel g1 s1 h i); [done|done|done| |].
    + intros b2 Hb2. assert (b2 = b) as -> by congruence. destruct Hk as [K|K]; [by rewrite K in EE|done].
    + intros s2 H2 Hq2 Ep. pose proof (quiet_trans _ _ _ _ _ _ _ Hq1 Hq2) as Hq3.
      assert (waiting (retire_sb d g1) s2 h i = waiting g1 s1 h i) as Ew.
      { unfold waiting. cbn [p_queue retire_sb]. unfold pm_proc. by rewrite Ep. }
      eapply (IH _ Hlt); [exact H2| | | | | |by rewrite Ew].
      * cbn. by rewrite Er.
      * by rewrite (qu_active _ _ _ _ _ Hq3).
      * lia.
      * intros s' g' H' Hq'. apply (HQ0 s' g'); [done|]. by eapply quiet_trans.
      * intros p s' g' H' Ht. apply (HQ p s' g'); [done|]. by eapply taken_quiet.
  - intros _ EE. rewrite R3 in EE. assert (b_kind b = SPartial) as K.
    { destruct Hk as [K|K]; [done|]. by rewrite K in EE. }
    pose proof (λ lg, partial_take g1 s1 h i d b D lg H1 Hh1 Hl Hb K ED) as HT. cbv zeta in HT.
    split; [by apply (HT [])|]. split; [by rewrite (qu_active _ _ _ _ _ Hq1)|]. intros lg.
    destruct (HT lg) as (_ & g' & HI & Htk). apply (HQ _ _ _ HI). by eapply taken_quiet.
Qed.
End Partial.
