(* ===== verification/OldGrow.v ===== *)
(** * New mappings of the old allocator

    A new mapping does not touch what is in use; new heaps, new descriptors and
    new superblocks. *)

From Stdlib Require Import ZArith Lia.
From stdpp Require Import base gmap numbers functions list.
From S2P Require Import Prelude Mem OldQueue OldMalloc OldDesc OldLarge OldRun OldInv OldTake OldPartial.

Local Open Scope Z_scope.
#[local] Set Warnings "-clear-no-such-hyp".

Definition add_role (a : Z) (r : role) (g : pghost) : pghost :=
  PGhost (<[a := r]> (p_role g)) (p_sb g) (p_free g) (p_queue g).

Definition set_free (l : list Z) (g : pghost) : pghost := PGhost (p_role g) (p_sb g) l (p_queue g).

Section Grow.
Context (sca : Z).

(** What the documentation of [mmap] promises: a range of whole pages that meets no
    other mapping. *)
Definition fresh (a n : Z) (X : gmap Z Z) : Prop :=
  mappable sca a n ∧ ∀ b m, X !! b = Some m → apart_maps a n b m.

(** The results [sup] serve requests of the lengths [lens]. *)
Fixpoint maps_ok (X : gmap Z Z) (sup : list (option Z)) (lens : list Z) : Prop :=
  match lens with
  | [] => True
  | n :: lens' => ∃ a sup', sup = Some a :: sup' ∧ fresh a n X ∧ maps_ok (<[a := n]> X) sup' lens'
  end.

(** The blocks in use stay, with their contents. *)
Record kept (g : pghost) (s : pmstate) (g' : pghost) (s' : pmstate) : Prop := {
  kp_live : ∀ q w, plive g' q w ↔ plive g q w;
  kp_mem : ∀ q w x, plive g q w → q ≤ x < q + w → load8 (pm_mem s') x = load8 (pm_mem s) x
}.

Lemma taken_kept g s g1 s1 p z g2 s2 : kept g s g1 s1 → taken g1 s1 p z g2 s2 → taken g s p z g2 s2.
Proof.
  intros [Q1 Q2] [T1 T2 T3 T4 T5]. constructor; try done.
  - intros q w. by rewrite T1, Q1.
  - intros q w Hl. apply T2. by apply Q1.
  - intros q w x Hl Hx. rewrite <- (Q2 q w x Hl Hx). apply (T3 q w); [by apply Q1|done].
Qed.

Lemma kept_trans g s g1 s1 g2 s2 : kept g s g1 s1 → kept g1 s1 g2 s2 → kept g s g2 s2.
Proof.
  intros [Q1 Q2] [T1 T2]. constructor.
  - intros q w. by rewrite T1, Q1.
  - intros q w x Hl Hx. rewrite <- (Q2 q w x Hl Hx). apply (T2 q w); [by apply Q1|done].
Qed.

Lemma quiet_kept g s h g1 s1 : quiet g s h g1 s1 → kept g s g1 s1.
Proof. intros [Q1 Q2 Q3 Q4 Q5]. constructor; [done|]. by rewrite Q3. Qed.

(** ** A new mapping *)

Lemma role_apart g s a n b r : PInv sca g s → fresh a n (pm_mapped s) → p_role g !! b = Some r → apart_maps a n b (role_len r).
Proof.
  intros H [_ Hf] Hb. apply Hf. rewrite (pi_map _ _ _ _ H). by rewrite lookup_fmap, Hb.
Qed.

Lemma lookup_outside {A} a n (m : gmap Z A) x : x < a ∨ a + n ≤ x → outside a n m !! x = m !! x.
Proof.
  intros Hx. unfold outside. apply option_eq. intros v. rewrite map_lookup_filter_Some. cbn. naive_solver.
Qed.

Lemma desc_outside g s a n d : PInv sca g s → fresh a n (pm_mapped s) → d ∈ p_free g ∨ is_Some (p_sb g !! d) →
  d < a ∨ a + n ≤ d.
Proof.
  intros H Hf Hd. destruct (w_desc sca g (pi_wf _ _ _ _ H) d Hd) as (c & k & Hc & Hk & ->).
  pose proof (role_apart g s a n c _ H Hf Hc) as Ha. unfold apart_maps in Ha. cbn [role_len] in Ha.
  change sizeof_descriptor with 64. change DESCSBSIZE with 65536 in Ha. lia.
Qed.

Lemma proc_outside g s a n h i : PInv sca g s → fresh a n (pm_mapped s) → p_role g !! h = Some (RHeap i) →
  pm_proc (map_range a n s) h = pm_proc s h.
Proof.
  intros H Hf Hh. unfold pm_proc. cbn [pm_procs map_range]. rewrite lookup_outside; [done|].
  pose proof (role_apart g s a n h _ H Hf Hh) as Ha. unfold apart_maps in Ha. cbn [role_len] in Ha. lia.
Qed.

Lemma node_outside g s a n i q l x : PInv sca g s → fresh a n (pm_mapped s) → 0 ≤ i < 256 →
  queue_rep (dummy_addr sca i) q l (p_queue g i) → x ∈ l → x < a ∨ a + n ≤ x.
Proof.
  intros H Hf Hi Hq Hx. destruct (queue_nodes _ _ _ _ _ Hq Hx) as [->|Hx2].
  - destruct Hf as [(_ & _ & _ & Hs) _]. unfold apart_maps, static_size, dummy_addr in *.
    change sizeof_sizeclass with 96 in *. change dummy_offset with 16. lia.
  - destruct (w_queue sca g (pi_wf _ _ _ _ H) i x Hx2) as (b & Hb & _).
    apply (desc_outside g s a n x H Hf). right. by exists b.
Qed.

Lemma PInv_map g s a n :
  PInv sca g s → fresh a n (pm_mapped s) →
  PInvX sca (<[a := n]> (role_len <$> p_role g)) g (map_range a n s) ∧ kept g s g (map_range a n s).
Proof.
  intros H Hf. pose proof (pi_wf _ _ _ _ H) as W. split.
  - constructor; try apply H.
    + cbn. by rewrite (pi_map _ _ _ _ H).
    + intros d b Hd. destruct (pi_sb _ _ _ _ H d b Hd) as (D & ED & R1 & R2 & R3 & R4). exists D. split.
      { cbn. rewrite lookup_outside; [done|]. apply (desc_outside g s a n d H Hf). right. by exists b. }
      split_and!; try done. intros K. eapply sb_fields_ext; [exact W|exact Hd| |by apply R4].
      intros x Hx. cbn [pm_mem map_range]. rewrite load8_outside, decide_False; [done|].
      destruct (base_where sca g d b W Hd K) as (Hr & _). pose proof (role_apart g s a n _ _ H Hf Hr) as Ha.
      unfold apart_maps in Ha. cbn [role_len] in Ha. lia.
    + intros c m Hc. eapply large_header_ext; [|by apply (pi_large _ _ _ _ H)]. change HEADER_SIZE with 12. intros x Hx.
      cbn [pm_mem map_range]. rewrite load8_outside, decide_False; [done|].
      pose proof (role_apart g s a n _ _ H Hf Hc) as Ha. pose proof (w_large sca g W c m Hc).
      unfold apart_maps in Ha. cbn [role_len] in Ha. lia.
    + intros h i Hh. rewrite (proc_outside g s a n h i) by done. by apply (pi_proc _ _ _ _ H).
    + intros i Hi. destruct (pi_queue _ _ _ _ H i Hi) as [l Hq]. exists l. eapply queue_rep_ext; [exact Hq|done|].
      intros x Hx. cbn. apply lookup_outside. by apply (node_outside g s a n i (qst s i) l).
    + eapply dlinked_ext; [|exact (pi_free _ _ _ _ H)]. intros d Hd. unfold dget. cbn [pm_descs map_range].
      rewrite lookup_outside; [done|]. apply (desc_outside g s a n d H Hf). by left.
  - constructor; [done|]. intros q w x Hl Hx. cbn [pm_mem map_range]. rewrite load8_outside, decide_False; [done|].
    destruct Hl as [(d & b & k & (Hd & K & Hk & _) & -> & ->)|(c & m & Hc & -> & ->)]; change HEADER_SIZE with 12 in *.
    + destruct (base_where sca g d b W Hd K) as (Hr & _). pose proof (role_apart g s a n _ _ H Hf Hr) as Ha.
      pose proof (blk_in sca g d b k W Hd Hk). unfold apart_maps in Ha. cbn [role_len] in Ha. lia.
    + pose proof (role_apart g s a n _ _ H Hf Hc) as Ha. unfold apart_maps in Ha. cbn [role_len] in Ha. lia.
Qed.

Lemma pwf_add_role g s a r :
  PInv sca g s → fresh a (role_len r) (pm_mapped s) → 0 < role_len r →
  (∀ i, r = RHeap i → 1 ≤ i < 256) → (∀ n, r = RLarge n → 2048 < n) →
  pwf sca (add_role a r g) ∧ p_role g !! a = None.
Proof.
  intros H Hf Hlen Hh Hl. pose proof (pi_wf _ _ _ _ H) as W.
  assert (∀ b r', p_role g !! b = Some r' → apart_maps a (role_len r) b (role_len r')) as Hap.
  { intros b r'. by apply (role_apart g s). }
  assert (p_role g !! a = None) as Hn.
  { destruct (p_role g !! a) as [r'|] eqn:E; [|done]. pose proof (Hap _ _ E) as Ha. unfold apart_maps in Ha.
    assert (0 < role_len r'); [|lia]. destruct r'; cbn; [done|done|done|]. pose proof (w_large sca g W _ _ E). lia. }
  split; [|done].
  assert (∀ b r', p_role (add_role a r g) !! b = Some r' → (b = a ∧ r' = r) ∨ (b ≠ a ∧ p_role g !! b = Some r')) as Hcase.
  { intros b r'. cbn. destruct (decide (a = b)) as [<-|Hd2]; [rewrite lookup_insert_eq; intros [= <-]; auto|].
    rewrite lookup_insert_ne by done. auto. }
  assert (∀ b r', p_role g !! b = Some r' → p_role (add_role a r g) !! b = Some r') as Hold.
  { intros b r' Hb. cbn. rewrite lookup_insert_ne; [done|]. intros <-. congruence. }
  constructor; try apply W.
  - intros b r' [[-> ->]|[_ Hb]]%Hcase; [apply Hf|by apply (w_range sca g W)].
  - intros b r1 c r2 [[-> ->]|[_ Hb]]%Hcase [[-> ->]|[_ Hc]]%Hcase Hne; [done|by apply Hap| |by apply (w_sep sca g W)].
    pose proof (Hap b r1 Hb) as Ha. unfold apart_maps in *. lia.
  - intros b i [[-> Hb]|[_ Hb]]%Hcase; [by apply Hh|by apply (w_heap sca g W b)].
  - intros b n [[-> Hb]|[_ Hb]]%Hcase; [by apply Hl|by apply (w_large sca g W b)].
  - intros d b Hd. by apply Hold, (w_owner sca g W d).
  - intros d b Hd. destruct (w_base sca g W d b Hd) as [B1 B2]. split; [done|]. intros K. by apply Hold, B2.
  - intros d Hd. destruct (w_desc sca g W d Hd) as (c & k & Hc & Hk). exists c, k. split; [by apply Hold|done].
Qed.
(** The mapping gets its use. *)
Lemma PInv_role g s a r :
  PInvX sca (<[a := role_len r]> (role_len <$> p_role g)) g s → pwf sca (add_role a r g) → p_role g !! a = None →
  match r with
  | RHeap i => proc_rep g a i (pm_proc s a)
  | RLarge n => large_header (pm_mem s) a n
  | _ => True
  end → PInv sca (add_role a r g) s.
Proof.
  intros H W' Hn Hr. constructor; try apply H; [done|..].
  - rewrite (pi_map _ _ _ _ H). cbn. by rewrite fmap_insert.
  - intros b n. cbn. destruct (decide (a = b)) as [<-|Hne].
    + rewrite lookup_insert_eq. by intros [= ->].
    + rewrite lookup_insert_ne by done. apply (pi_large _ _ _ _ H).
  - intros h i. cbn. destruct (decide (a = h)) as [<-|Hne].
    + rewrite lookup_insert_eq. by intros [= ->].
    + rewrite lookup_insert_ne by done. apply (pi_proc _ _ _ _ H).
  - intros t i h Hh. cbn. pose proof (pi_tls _ _ _ _ H t i h Hh) as Hh2. rewrite lookup_insert_ne; [done|].
    intros <-. congruence.
Qed.

Lemma add_role_live g a r q w : (∀ n, r ≠ RLarge n) → p_role g !! a = None → plive (add_role a r g) q w ↔ plive g q w.
Proof.
  intros Hr Hn. unfold plive, small_live. cbn. split; (intros [H|(b & n & Hb & H)]; [by left|right]).
  - destruct (decide (a = b)) as [<-|Hne]; [rewrite lookup_insert_eq in Hb; injection Hb as ->; by destruct (Hr n)|].
    rewrite lookup_insert_ne in Hb by done. by exists b, n.
  - exists b, n. rewrite lookup_insert_ne; [done|]. intros <-. congruence.
Qed.

(** ** [find_heap] *)

Definition class_of (sz : Z) : Z := (sz + HEADER_SIZE) / GRANULARITY.

Lemma class_bounds sz : 0 ≤ sz < 2036 → 1 ≤ class_of sz < 256 ∧ sz + HEADER_SIZE ≤ sc_sz (class_of sz).
Proof.
  intros H. unfold class_of. change HEADER_SIZE with 12. change GRANULARITY with 8.
  pose proof (Z.div_mod (sz + 12) 8 ltac:(lia)). pose proof (Z.mod_pos_bound (sz + 12) 8 ltac:(lia)).
  assert (1 ≤ (sz + 12) / 8 < 256) as Hi by lia. split; [done|]. rewrite sc_sz_eq by lia. lia.
Qed.

(** The steps of [find_heap] for a small block. *)
Lemma find_heap_run t sz s Q :
  0 ≤ sz < 2036 →
  (∀ h, pm_heaps s !! (t, class_of sz) = Some h → h ≠ 0 → Q h s) →
  (default 0 (pm_heaps s !! (t, class_of sz)) = 0 → ∃ a sup, pm_supply s = Some a :: sup ∧
    let s1 := map_range a 24 s in
    ∀ lg, Q a (pm_set_heap t (class_of sz) a (st_upd (pm_mem s1) (pm_descs s1)
      (<[a := mkProcheap no_active 0 (class_of sz)]> (pm_procs s1)) lg s1))) →
  wp (find_heap t sz) Q s.
Proof.
  intros Hsz H1 H2. pose proof (class_bounds sz Hsz) as [Hi _]. unfold find_heap. change HEADER_SIZE with 12 in *.
  rewrite u64_small by lia. rewrite (proj2 (Z.ltb_ge _ _)) by lia. fold (class_of sz). change (2048 / GRANULARITY) with 256.
  wp_steps; [apply Z.ltb_lt; unfold class_of in *; change HEADER_SIZE with 12 in *; lia|].
  change ((sz + 12) / GRANULARITY) with (class_of sz).
  destruct (Z.eqb_spec (default 0 (pm_heaps s !! (t, class_of sz))) 0) as [E|Hne].
  - destruct (H2 E) as (a & sup & Hsup & HQ). apply wp_bind. unfold mmap. unfold wp at 1. rewrite Hsup.
    unfold upd_proc, FLUSH, FLUSH_AT, FLUSHFENCE. set (s1 := map_range a 24 s) in *. clearbody s1. wp_steps.
    match goal with |- Q _ ?S => exact (HQ (pm_log S)) end.
  - wp_steps. destruct (pm_heaps s !! (t, class_of sz)) as [h|] eqn:E; [|done]. by apply H1.
Qed.

Lemma PInv_set_heap g s t i h : PInv sca g s → p_role g !! h = Some (RHeap i) → PInv sca g (pm_set_heap t i h s).
Proof.
  intros H Hh. constructor; try apply H. intros t2 i2 h2. cbn. destruct (decide ((t, i) = (t2, i2))) as [[= <- <-]|Hne].
  - rewrite lookup_insert_eq. by intros [= <-].
  - rewrite lookup_insert_ne by done. apply (pi_tls _ _ _ _ H).
Qed.

Lemma find_heap_new t sz g s lens1 lens2 Q :
  PInv sca g s → 0 ≤ sz < 2036 → default 0 (pm_heaps s !! (t, class_of sz)) = 0 →
  maps_ok (pm_mapped s) (pm_supply s) (24 :: lens1) → maps_ok (pm_mapped s) (pm_supply s) (24 :: lens2) →
  (∀ h g' s', PInv sca g' s' → p_role g' !! h = Some (RHeap (class_of sz)) → kept g s g' s' →
    (size (pm_descs s') ≤ size (pm_descs s))%nat → maps_ok (pm_mapped s') (pm_supply s') lens1 →
    maps_ok (pm_mapped s') (pm_supply s') lens2 → Q h s') →
  wp (find_heap t sz) Q s.
Proof.
  intros H Hsz E Hm1 Hm2 HQ. pose proof (class_bounds sz Hsz) as [Hi _]. apply find_heap_run; [done|..].
  { intros h Hh Hne. rewrite Hh in E. done. }
  intros _. destruct Hm1 as (a & sup & Hsup & Hf & Hrest1). destruct Hm2 as (a2 & sup2 & Hsup2 & _ & Hrest2).
  rewrite Hsup in Hsup2. injection Hsup2 as <- <-. exists a, sup. split; [done|]. intros s1 lg.
  pose proof (PInv_map g s a 24 H Hf) as [H1 K1]. fold s1 in H1, K1.
  destruct (pwf_add_role g s a (RHeap (class_of sz)) H Hf) as [W' Hn]; [done|by intros i [= <-]|done|].
  match goal with |- Q _ (pm_set_heap _ _ _ ?S) => set (s2 := S) end.
  assert (PInv sca (add_role a (RHeap (class_of sz)) g) s2) as H2.
  { apply PInv_role; [|done|done|].
    - constructor; try apply H1. intros h i Hh. unfold s2. st_norm. rewrite lookup_insert_ne; [by apply H1|].
      intros <-. congruence.
    - unfold s2. st_norm. rewrite lookup_insert_eq. split; [done|]. split; by left. }
  apply (HQ a (add_role a (RHeap (class_of sz)) g)).
  - apply PInv_set_heap; [done|]. cbn. by rewrite lookup_insert_eq.
  - cbn. by rewrite lookup_insert_eq.
  - eapply kept_trans; [exact K1|]. constructor; [|done]. intros q w. by apply add_role_live.
  - cbn. apply map_subseteq_size, map_filter_subseteq.
  - cbn. by rewrite Hsup.
  - cbn. by rewrite Hsup.
Qed.

(** ** [DescAlloc] *)

(** A descriptor that is in no list. *)
Definition floating (g : pghost) (d : Z) : Prop :=
  p_sb g !! d = None ∧ (d ∉ p_free g) ∧ ∃ a k, p_role g !! a = Some RDesc ∧ 0 ≤ k < 1024 ∧ d = a + k * sizeof_descriptor.

(** The free list becomes [l]; descriptors in use are as before. *)
Lemma PInv_free g s l nx ds lg :
  PInv sca g s → NoDup l → (∀ d, d ∈ l → p_sb g !! d = None) →
  (∀ d, d ∈ l → ∃ a k, p_role g !! a = Some RDesc ∧ 0 ≤ k < 1024 ∧ d = a + k * sizeof_descriptor) →
  (∀ d b, p_sb g !! d = Some b → ds !! d = pm_descs s !! d) → dlinked ds nx.1 l →
  PInv sca (set_free l g) (pm_set_avail nx (with_descs ds lg s)).
Proof.
  intros H Hnd Hn Hl Hds Hlk. pose proof (pi_wf _ _ _ _ H) as W. constructor; try apply H; [|..|exact Hlk].
  - constructor; try apply W; [|done]. intros d [Hd|Hd]; [by apply Hl|]. apply (w_desc sca g W). by right.
  - intros d b Hd. destruct (pi_sb _ _ _ _ H d b Hd) as (D & ED & R). exists D. split; [|done].
    cbn [pm_descs pm_set_avail with_descs]. by rewrite (Hds d b Hd).
Qed.

Lemma desc_block_NoDup a : NoDup (desc_block a).
Proof. apply NoDup_fmap_2; [|apply NoDup_seqZ]. intros x y. change sizeof_descriptor with 64. lia. Qed.

Lemma desc_block_elem a d : d ∈ desc_block a → ∃ k, 64 ≤ k < 1024 ∧ d = a + k * sizeof_descriptor.
Proof. intros (k & -> & Hk)%list_elem_of_fmap. apply elem_of_seqZ in Hk. exists k. split; [lia|done]. Qed.

Lemma DescAlloc_spec fuel g s h i lens Q :
  PInv sca g s → p_role g !! h = Some (RHeap i) →
  (p_free g = [] → maps_ok (pm_mapped s) (pm_supply s) (DESCSBSIZE :: lens)) →
  (p_free g ≠ [] → maps_ok (pm_mapped s) (pm_supply s) lens) →
  (∀ d g1 s1, PInv sca g1 s1 → floating g1 d → kept g s g1 s1 → p_role g1 !! h = Some (RHeap i) →
    pm_proc s1 h = pm_proc s h → maps_ok (pm_mapped s1) (pm_supply s1) lens → Q d s1) →
  wp (DescAlloc (S fuel)) Q s.
Proof.
  intros H Hh Hm1 Hm2 HQ. pose proof (pi_wf _ _ _ _ H) as W. pose proof (pi_free _ _ _ _ H) as Hfl.
  destruct (p_free g) as [|d l] eqn:El.
  - destruct (Hm1 eq_refl) as (a & sup & Hsup & Hf & Hrest).
    destruct (pwf_add_role g s a RDesc H Hf) as [W' Hn]; [done..|].
    pose proof (PInv_map g s a DESCSBSIZE H Hf) as [H1 K1].
    pose proof Hf as [(F1 & F2 & F3 & _) _].
    apply (DescAlloc_new fuel a sup); [exact Hfl|done|done|change DESCSBSIZE with 65536 in *; change PAGESIZE with 4096; lia|].
    intros ds lg nx s1 Hlk Hds. set (g1 := add_role a RDesc g).
    assert (PInv sca g1 s1) as H1' by (by apply PInv_role).
    assert (∀ d b, p_sb g !! d = Some b → d < a ∨ a + DESCSBSIZE ≤ d) as Hout.
    { intros d b Hd. apply (desc_outside g s a DESCSBSIZE d H Hf). right. by exists b. }
    assert (∀ k, 0 ≤ k < 1024 → p_sb g !! (a + k * sizeof_descriptor) = None) as Hnone.
    { intros k Hk. destruct (p_sb g !! _) as [b|] eqn:E; [|done]. apply Hout in E.
      change sizeof_descriptor with 64 in *. change DESCSBSIZE with 65536 in *. lia. }
    apply (HQ a (set_free (desc_block a) g1)).
    + apply (PInv_free g1 s1 (desc_block a) _ ds lg); try done.
      * apply desc_block_NoDup.
      * intros d (k & Hk & ->)%desc_block_elem. apply Hnone. lia.
      * intros d (k & Hk & ->)%desc_block_elem. exists a, k. cbn. rewrite lookup_insert_eq. split; [done|]. split; [lia|done].
      * intros d b Hd. apply Hds. intros k Hk ->. cbn in Hd. by rewrite Hnone in Hd.
    + split; [|split].
      * specialize (Hnone 0 ltac:(lia)). by rewrite Z.mul_0_l, Z.add_0_r in Hnone.
      * intros (k & Hk & E)%desc_block_elem. change sizeof_descriptor with 64 in E. lia.
      * exists a, 0. cbn. rewrite lookup_insert_eq. split; [done|]. split; [lia|]. lia.
    + eapply kept_trans; [exact K1|]. constructor; [|done]. intros q w. by apply (add_role_live g a RDesc).
    + cbn. rewrite lookup_insert_ne; [done|]. intros <-. congruence.
    + by apply (proc_outside g s a DESCSBSIZE h i).
    + cbn. by rewrite Hsup.
  - pose proof Hfl as (_ & _ & Hlk). destruct (w_free sca g W) as [Hnd Hnone]. rewrite El in Hnd, Hnone.
    apply NoDup_cons in Hnd as [Hd Hnd]. apply (DescAlloc_list fuel d l); [done|]. intros lg.
    apply (HQ d (set_free l g)); [|..|by apply Hm2]; try done.
    + apply (PInv_free g s l _ (pm_descs s) lg); try done.
      * intros x Hx. apply Hnone. by right.
      * intros x Hx. apply (w_desc sca g W). left. rewrite El. by right.
    + split; [apply Hnone; left|]. split; [done|]. apply (w_desc sca g W). left. rewrite El. left.
Qed.

(** ** A new superblock *)

Definition new_sb (a i h : Z) : sbinfo :=
  SbInfo a i h (seqZ 1 (sc_max i - 1)) (SActive (Z.min (sc_max i - 1) MAXCREDITS - 1)).

Lemma new_sb_taken a i h k : 0 ≤ k < sc_max i → k ∉ b_free (new_sb a i h) → k = 0.
Proof. intros Hk Hn. destruct (decide (k = 0)) as [|Hne]; [done|]. destruct Hn. cbn. apply elem_of_seqZ. lia. Qed.

Lemma seqZ_linked m base sz i n p :
  (∀ k, i ≤ k < i + n - 1 → load64 m (base + k * sz) = k + 1) → (0 < n → p = i) → flinked m base sz p (seqZ i n).
Proof.
  intros H Hp. destruct (Z_lt_le_dec 0 n) as [Hn|Hn]; [|by rewrite seqZ_nil].
  rewrite Hp by done. clear p Hp. remember (Z.to_nat n) as c eqn:Ec. revert i n H Hn Ec.
  induction c as [|c IH]; intros i n H Hn Ec; [lia|]. rewrite seqZ_cons by done. cbn [flinked]. split; [done|].
  destruct (Z_lt_le_dec 1 n) as [Hn1|Hn1]; [|by rewrite seqZ_nil by lia].
  rewrite H by lia. replace (Z.succ i) with (i + 1) by lia. apply IH; [|lia|lia]. intros k Hk. apply H. lia.
Qed.

Lemma pwf_new_sb g d a i h :
  pwf sca g → floating g d → p_role g !! a = Some (RSb d) → p_role g !! h = Some (RHeap i) → 1 ≤ i < 256 →
  pwf sca (set_sb d (new_sb a i h) g).
Proof.
  intros W (Hn & Hfr & Hdesc) Ha Hh Hi. pose proof (sc_max_bounds i Hi) as [Hmx _].
  assert (∀ d2 b2, p_sb (set_sb d (new_sb a i h) g) !! d2 = Some b2 → (d2 = d ∧ b2 = new_sb a i h) ∨ (d2 ≠ d ∧ p_sb g !! d2 = Some b2)) as Hcase.
  { intros d2 b2. cbn. destruct (decide (d = d2)) as [<-|Hd2]; [rewrite lookup_insert_eq; intros [= <-]; auto|].
    rewrite lookup_insert_ne by done. auto. }
  constructor; try apply W.
  - intros d2 b2 [[-> ->]|[_ H2]]%Hcase; [done|by apply (w_cls sca g W d2)].
  - intros d2 b2 [[-> ->]|[_ H2]]%Hcase; [done|by apply (w_owner sca g W d2)].
  - intros d2 b2 [[-> ->]|[_ H2]]%Hcase; [|by apply (w_base sca g W d2)]. cbn.
    destruct (w_range sca g W a _ Ha) as (? & _). done.
  - intros d2 b2 [[-> ->]|[_ H2]]%Hcase; [|by apply (w_fl sca g W d2)]. cbn. split; [apply NoDup_seqZ|].
    intros k Hk%elem_of_seqZ. lia.
  - intros d2 b2 [[-> ->]|[_ H2]]%Hcase; [|by apply (w_kind sca g W d2)]. unfold kind_ok. cbn.
    rewrite length_seqZ. change MAXCREDITS with 64. lia.
  - intros d2 [H2|[b2 H2]]; [apply (w_desc sca g W); by left|].
    apply Hcase in H2 as [[-> _]|[_ H2]]; [done|]. apply (w_desc sca g W). right. by exists b2.
  - destruct (w_free sca g W) as [F1 F2]. split; [done|]. intros x Hx. cbn. rewrite lookup_insert_ne; [by apply F2|].
    by intros ->.
  - intros j x Hx. destruct (w_queue sca g W j x Hx) as (b2 & H2 & H3). exists b2. split; [|done]. cbn.
    rewrite lookup_insert_ne; [done|]. intros <-. congruence.
Qed.

Lemma new_sb_fields m m0 d D a i h :
  1 ≤ i < 256 → 0 < d < 2 ^ 64 → counted_mem m0 m a (sc_sz i) 1 (sc_max i - 2) →
  sb_rep (put_small a d m) d (new_desc a h i D) (new_sb a i h).
Proof.
  intros Hi Hd [H1 H2]. pose proof (sc_max_bounds i Hi) as [Hmx Hms]. pose proof (sc_sz_eq i ltac:(lia)) as Hz.
  split; [done|]. split; [done|]. split; [done|]. intros _. constructor; cbn [new_sb new_desc b_cls b_base b_free b_kind d_sz d_maxcount d_anchor count avail].
  - done.
  - done.
  - cbn [held]. rewrite length_seqZ. change MAXCREDITS with 64. lia.
  - lia.
  - apply seqZ_linked; [|done]. intros k Hk. rewrite <- (Z.add_comm 1 k), <- (H1 k) by lia. apply load64_ext.
    intros x Hx. apply put_small_outside. change HEADER_SIZE with 12. nia.
  - intros k Hk Hn. assert (k = 0) as -> by (by apply (new_sb_taken a i h)). unfold blk, new_sb. cbn [b_base b_cls].
    rewrite Z.mul_0_l, Z.add_0_r. apply put_small_header. lia.
Qed.

(** Where the blocks in use are. *)
Lemma live_role g q w : pwf sca g → plive g q w →
  ∃ b r, p_role g !! b = Some r ∧ b + HEADER_SIZE ≤ q ∧ q + w ≤ b + role_len r.
Proof.
  intros W [(d & b & k & (Hd & K & Hk & _) & -> & ->)|(c & n & Hc & -> & ->)]; change HEADER_SIZE with 12.
  - destruct (base_where sca g d b W Hd K) as (Hr & _). pose proof (blk_in sca g d b k W Hd Hk).
    exists (b_base b), (RSb d). split; [done|]. cbn [role_len]. lia.
  - exists c, (RLarge n). split; [done|]. cbn [role_len]. lia.
Qed.

Section NewSb.
Context (g : pghost) (s : pmstate) (d a i h : Z).
Hypothesis H : PInvX sca (<[a := SBSIZE]> (role_len <$> p_role g)) g s.
Hypothesis W1 : pwf sca (add_role a (RSb d) g).
Hypothesis Hn : p_role g !! a = None.
Hypothesis Hfl : floating g d.
Hypothesis Hh : p_role g !! h = Some (RHeap i).

Let g1 := add_role a (RSb d) g.
Let g' := set_sb d (new_sb a i h) g1.

Lemma new_sb_role b r : p_role g !! b = Some r → p_role g1 !! b = Some r.
Proof using Hn. intros Hb. cbn. rewrite lookup_insert_ne; [done|]. intros <-. congruence. Qed.

Lemma new_sb_at : p_role g1 !! a = Some (RSb d).
Proof using. cbn. by rewrite lookup_insert_eq. Qed.

Lemma new_sb_apart b r : p_role g !! b = Some r → apart_maps a SBSIZE b (role_len r).
Proof using Hn W1.
  intros Hb. apply (w_sep sca g1 W1 a (RSb d) b r new_sb_at (new_sb_role b r Hb)). intros <-. congruence.
Qed.

Lemma new_sb_ne d2 b2 : p_sb g !! d2 = Some b2 → d ≠ d2.
Proof using Hfl. destruct Hfl as (Fn & _). intros H2 <-. congruence. Qed.

Lemma new_sb_wf : pwf sca g'.
Proof using H W1 Hn Hfl Hh.
  destruct Hfl as (Fn & Ff & c & k & Hc & Hk). apply pwf_new_sb; try done.
  - split; [done|]. split; [done|]. exists c, k. split; [by apply new_sb_role|done].
  - apply new_sb_at.
  - by apply new_sb_role.
  - apply (w_heap sca g (pi_wf _ _ _ _ H) h i Hh).
Qed.

(** What the heaps refer to stays. *)
Lemma new_sb_proc h2 j P : proc_rep g h2 j P → proc_rep g' h2 j P.
Proof using Hfl.
  intros (P1 & P2 & P3). split; [done|]. split.
  - destruct P2 as [P2|(d2 & c & b2 & E & H2 & H3)]; [by left|]. right. exists d2, c, b2. split; [done|]. split; [|done].
    cbn. rewrite lookup_insert_ne; [done|]. by apply (new_sb_ne d2 b2).
  - destruct P3 as [P3|(b2 & H2 & H3)]; [by left|]. right. exists b2. split; [|done]. cbn.
    rewrite lookup_insert_ne; [done|]. by apply (new_sb_ne _ b2).
Qed.

(** Block 0 is the block in use that there was not. *)
Lemma new_sb_live q w : plive g' q w ↔ plive g q w ∨ (q = a + HEADER_SIZE ∧ w = sc_sz i - HEADER_SIZE).
Proof using H Hn Hfl Hh.
  pose proof (w_heap sca g (pi_wf _ _ _ _ H) h i Hh) as Hi. pose proof (sc_max_bounds i Hi) as [Hmx _].
  unfold plive, small_live. split.
  - intros [(d2 & b2 & k & (H2 & K2 & Hk & Hnk) & -> & ->)|(c & n & Hc & Hqw)].
    + cbn in H2. destruct (decide (d = d2)) as [<-|Hd2].
      * rewrite lookup_insert_eq in H2. injection H2 as <-. right.
        assert (k = 0) as -> by (by apply (new_sb_taken a i h)). unfold blk, new_sb. cbn [b_base b_cls]. lia.
      * rewrite lookup_insert_ne in H2 by done. left. left. by exists d2, b2, k.
    + cbn in Hc. destruct (decide (a = c)) as [<-|Hac]; [by rewrite lookup_insert_eq in Hc|].
      rewrite lookup_insert_ne in Hc by done. left. right. by exists c, n.
  - intros [[(d2 & b2 & k & (H2 & H3) & H4)|(c & n & Hc & Hqw)]|[-> ->]].
    + left. exists d2, b2, k. split; [|done]. split; [|done]. cbn. rewrite lookup_insert_ne; [done|]. by apply (new_sb_ne d2 b2).
    + right. exists c, n. split; [by apply new_sb_role|done].
    + left. exists d, (new_sb a i h), 0. split.
      * split; [cbn; by rewrite lookup_insert_eq|]. split; [done|]. cbn [new_sb b_cls b_free]. split; [lia|].
        rewrite elem_of_seqZ. lia.
      * unfold blk, new_sb. cbn [b_base b_cls]. lia.
Qed.

Context (m : mem) (D : descriptor) (lg : list pm_event).
Hypothesis Hm : counted_mem (pm_mem s) m a (sc_sz i) 1 (sc_max i - 2).

Let s' := st_upd (put_small a d m) (<[d := new_desc a h i D]> (pm_descs s))
  (<[h := set_active (make_active d (Z.min (sc_max i - 1) MAXCREDITS - 1)) (pm_proc s h)]> (pm_procs s)) lg s.

Lemma new_sb_mem x : x < a ∨ a + SBSIZE ≤ x → load8 (pm_mem s') x = load8 (pm_mem s) x.
Proof using H Hh Hm.
  pose proof (w_heap sca g (pi_wf _ _ _ _ H) h i Hh) as Hi.
  pose proof (sc_max_bounds i Hi) as [Hmx Hms]. pose proof (sc_sz_eq i ltac:(lia)) as Hz.
  intros Hx. change SBSIZE with 65536 in *. unfold s'. st_norm. rewrite put_small_outside by (change HEADER_SIZE with 12; lia).
  apply Hm. nia.
Qed.

Lemma new_sb_live_mem q w x : plive g q w → q ≤ x < q + w → load8 (pm_mem s') x = load8 (pm_mem s) x.
Proof using H W1 Hn Hh Hm.
  intros Hl Hx. destruct (live_role g q w (pi_wf _ _ _ _ H) Hl) as (b & r & Hb & H1 & H2).
  apply new_sb_mem. pose proof (new_sb_apart b r Hb) as Ha. unfold apart_maps in Ha. change HEADER_SIZE with 12 in *. lia.
Qed.

Lemma PInv_new_sb : PInv sca g' s'.
Proof using H W1 Hn Hfl Hh Hm.
  pose proof (pi_wf _ _ _ _ H) as W. pose proof (w_heap sca g W h i Hh) as Hi. pose proof new_sb_wf as W'.
  constructor; try apply H; [done|..].
  - cbn. rewrite (pi_map _ _ _ _ H). by rewrite fmap_insert.
  - intros d2 b2 H2. cbn in H2. destruct (decide (d = d2)) as [<-|Hd2].
    + rewrite lookup_insert_eq in H2. injection H2 as <-. eexists. split; [cbn; by rewrite lookup_insert_eq|].
      destruct (desc_where sca g' d W') as (Hd & _).
      { right. exists (new_sb a i h). cbn. by rewrite lookup_insert_eq. }
      apply (new_sb_fields m (pm_mem s)); [done|lia|done].
    + rewrite lookup_insert_ne in H2 by done. destruct (pi_sb _ _ _ _ H d2 b2 H2) as (D2 & E2 & R1 & R2 & R3 & R4).
      exists D2. split; [cbn; by rewrite lookup_insert_ne|]. split_and!; try done. intros K2.
      eapply sb_fields_ext; [exact W|exact H2| |by apply R4]. intros x Hx. apply new_sb_mem.
      destruct (base_where sca g d2 b2 W H2 K2) as (Hr & _). pose proof (new_sb_apart _ _ Hr) as Hap. unfold apart_maps in Hap.
      cbn [role_len] in Hap. lia.
  - intros c n Hc. cbn in Hc. destruct (decide (a = c)) as [<-|Hac]; [by rewrite lookup_insert_eq in Hc|].
    rewrite lookup_insert_ne in Hc by done. eapply large_header_ext; [|by apply (pi_large _ _ _ _ H)].
    change HEADER_SIZE with 12. intros x Hx. apply new_sb_mem. pose proof (new_sb_apart _ _ Hc) as Hap.
    pose proof (w_large sca g W c n Hc). unfold apart_maps in Hap. cbn [role_len] in Hap. lia.
  - intros h2 j Hh2. cbn in Hh2. destruct (decide (a = h2)) as [<-|Hah]; [by rewrite lookup_insert_eq in Hh2|].
    rewrite lookup_insert_ne in Hh2 by done. pose proof (new_sb_proc _ _ _ (pi_proc _ _ _ _ H h2 j Hh2)) as HP'.
    unfold s'. st_norm. destruct (decide (h = h2)) as [<-|Hhh]; [|by rewrite lookup_insert_ne].
    rewrite lookup_insert_eq. cbn [default from_option id]. destruct HP' as (P1 & _ & P3).
    split; [done|]. split; [|done]. right. assert (j = i) as -> by congruence. eexists d, _, (new_sb a i h).
    split; [done|]. split; [cbn; by rewrite lookup_insert_eq|]. done.
  - intros t j h2 Hh2. by apply new_sb_role, (pi_tls _ _ _ _ H t).
  - destruct Hfl as (_ & Ff & _). eapply dlinked_ext; [|exact (pi_free _ _ _ _ H)]. intros x Hx.
    cbn [pm_descs s' st_upd]. rewrite pm_dget_ne; [done|]. by intros ->.
Qed.

Lemma new_sb_takes : taken g s (a + HEADER_SIZE) (sc_sz i - HEADER_SIZE) g' s'.
Proof using H W1 Hn Hfl Hh Hm.
  pose proof (pi_wf _ _ _ _ H) as W. pose proof (w_heap sca g W h i Hh) as Hi.
  pose proof (sc_max_bounds i Hi) as [Hmx Hms]. pose proof (sc_sz_eq i ltac:(lia)) as Hz.
  destruct (w_range sca g1 W1 a _ new_sb_at) as (Ha0 & Hpg & _).
  constructor; [exact new_sb_live| |exact new_sb_live_mem|..].
  - intros q w Hl. destruct (live_role g q w W Hl) as (b & r & Hb & H1 & H2). pose proof (new_sb_apart b r Hb) as Ha.
    unfold apart_maps in *. change HEADER_SIZE with 12 in *. change SBSIZE with 65536 in *. nia.
  - change PAGESIZE with 4096 in Hpg. change HEADER_SIZE with 12. pose proof (Z.div_mod a 4096 ltac:(lia)) as E.
    rewrite Hpg in E. replace (a + 12) with (4 + (a / 4096 * 512 + 1) * 8) by lia. by rewrite Z.mod_add.
  - change HEADER_SIZE with 12. lia.
Qed.
End NewSb.

Lemma MallocFromNewSB_spec fuel g s h i Q :
  PInv sca g s → p_role g !! h = Some (RHeap i) → h_active (pm_proc s h) = no_active →
  (p_free g = [] → maps_ok (pm_mapped s) (pm_supply s) [DESCSBSIZE; SBSIZE]) →
  (p_free g ≠ [] → maps_ok (pm_mapped s) (pm_supply s) [SBSIZE]) →
  (∀ p s' g', PInv sca g' s' → taken g s p (sc_sz i - HEADER_SIZE) g' s' → Q p s') →
  wp (MallocFromNewSB (S fuel) h) Q s.
Proof.
  intros H Hh Ha Hm1 Hm2 HQ. pose proof (pi_wf _ _ _ _ H) as W. pose proof (w_heap sca g W h i Hh) as Hi.
  apply (MallocFromNewSB_run (S fuel) h s i); [apply (pi_proc _ _ _ _ H h i Hh)|done|].
  apply (DescAlloc_spec fuel g s h i [SBSIZE]); [done..|]. intros d g1 s1 H1 Hfl Hk Hh1 Ep (a & sup & Hsup & Hf & _).
  exists a, sup. split; [done|]. pose proof Hf as [(F1 & F2 & F3 & _) _]. split; [done|]. split; [lia|].
  pose proof (PInv_map g1 s1 a SBSIZE H1 Hf) as [H2 K2].
  destruct (pwf_add_role g1 s1 a (RSb d) H1 Hf) as [W' Hn]; [done..|].
  cbv zeta. rewrite (proc_outside g1 s1 a SBSIZE h i H1 Hf Hh1). rewrite Ep. split; [done|]. intros m lg Hm.
  rewrite <- Ep, <- (proc_outside g1 s1 a SBSIZE h i H1 Hf Hh1).
  eapply HQ; [by apply (PInv_new_sb g1 (map_range a SBSIZE s1))|].
  eapply taken_kept; [by eapply kept_trans|]. by apply new_sb_takes.
Qed.
End Grow.
