(* ===== verification/OldFree.v ===== *)
(** * Freeing blocks of the old allocator

    A small block goes to the free list of its superblock; a superblock that was
    full becomes partial, one whose blocks are all free is unmapped. *)

From Stdlib Require Import ZArith Lia.
From stdpp Require Import base gmap numbers functions list.
From S2P Require Import Prelude Mem OldQueue OldMalloc OldDesc OldLarge OldRun OldInv OldTake OldPartial.

Local Open Scope Z_scope.
#[local] Set Warnings "-clear-no-such-hyp".

Definition del_role (a : Z) (g : pghost) : pghost := PGhost (delete a (p_role g)) (p_sb g) (p_free g) (p_queue g).

Section Free.
Context (sca : Z).

(** The program gives the block [p] back. *)
Record freed (g : pghost) (s : pmstate) (p : Z) (g' : pghost) (s' : pmstate) : Prop := {
  fr_live : ∀ q w, plive g' q w ↔ plive g q w ∧ q ≠ p;
  fr_mem : ∀ q w x, plive g' q w → q ≤ x < q + w → load8 (pm_mem s') x = load8 (pm_mem s) x
}.

Lemma freed_after g s p g1 s1 g2 s2 :
  freed g s p g1 s1 → (∀ q w, plive g2 q w ↔ plive g1 q w) → pm_mem s2 = pm_mem s1 → freed g s p g2 s2.
Proof.
  intros [F1 F2] Hl Em. constructor.
  - intros q w. by rewrite Hl.
  - intros q w x H Hx. rewrite Em. apply (F2 q w); [by apply Hl|done].
Qed.

(** ** Unmapping *)

Lemma PInv_unmap g s a :
  PInv sca g s → (∀ r, p_role g !! a = Some r → r ≠ RDesc ∧ ∀ i, r ≠ RHeap i) →
  (∀ d b, p_sb g !! d = Some b → b_kind b ≠ SEmpty → b_base b ≠ a) →
  PInv sca (del_role a g) (unmapped a s).
Proof.
  intros H Hr Hb. pose proof (pi_wf _ _ _ _ H) as W.
  assert (∀ b r, p_role (del_role a g) !! b = Some r → b ≠ a ∧ p_role g !! b = Some r) as Hcase.
  { intros b r. cbn. intros [H1 H2]%lookup_delete_Some. done. }
  assert (∀ b r, p_role g !! b = Some r → b ≠ a → p_role (del_role a g) !! b = Some r) as Hold.
  { intros b r H1 H2. cbn. by rewrite lookup_delete_ne. }
  assert (∀ h i, p_role g !! h = Some (RHeap i) → h ≠ a) as Hh.
  { intros h i Hh ->. destruct (Hr _ Hh) as [_ Hx]. by apply (Hx i). }
  constructor; try apply H.
  - constructor; try apply W.
    + intros b r [_ H2]%Hcase. by apply (w_range sca g W).
    + intros b r c r' [_ H2]%Hcase [_ H3]%Hcase. by apply (w_sep sca g W).
    + intros h i [_ H2]%Hcase. by apply (w_heap sca g W h).
    + intros b n [_ H2]%Hcase. by apply (w_large sca g W b).
    + intros d b Hd. pose proof (w_owner sca g W d b Hd) as Ho. apply Hold; [done|]. by apply (Hh _ _ Ho).
    + intros d b Hd. destruct (w_base sca g W d b Hd) as [B1 B2]. split; [done|]. intros K.
      apply Hold; [by apply B2|]. by apply (Hb d b).
    + intros d Hd. destruct (w_desc sca g W d Hd) as (c & k & Hc & Hk). exists c, k. split; [|done].
      apply Hold; [done|]. intros ->. by destruct (Hr _ Hc).
  - cbn. rewrite (pi_map _ _ _ _ H). by rewrite fmap_delete.
  - intros b n [_ H2]%Hcase. by apply (pi_large _ _ _ _ H).
  - intros h i [_ H2]%Hcase. by apply (pi_proc _ _ _ _ H).
  - intros t i h H2. pose proof (pi_tls _ _ _ _ H t i h H2) as H3. apply Hold; [done|]. by apply (Hh h i).
Qed.

(** ** Pushing a block *)

Lemma load64_store_apart m p v x : x + 8 ≤ p ∨ p + 8 ≤ x → load64 (store64 m p v) x = load64 m x.
Proof. apply load64_store64_ne. Qed.

Lemma push_fields g d b b' D D' k m :
  pwf sca g → small_live g d b k → sb_fields m d D b →
  b_base b' = b_base b → b_cls b' = b_cls b → b_free b' = k :: b_free b →
  d_sz D' = d_sz D → d_maxcount D' = d_maxcount D → avail (d_anchor D') = k →
  count (d_anchor D') = Z.of_nat (S (length (b_free b))) - held (b_kind b') →
  sb_fields (store64 m (blk b k) (avail (d_anchor D))) d D' b'.
Proof.
  intros W (Hd & K & Hk & Hkn) [F1 F2 F3 F4 F5 F6] Eb Ec Ef E1 E2 E3 E4.
  pose proof (w_cls sca g W d b Hd) as Hc. pose proof (sc_max_bounds _ Hc) as [Hmx _].
  destruct (w_fl sca g W d b Hd) as [Hnd Hr].
  assert (∀ j, 0 ≤ j < sc_max (b_cls b) → j ≠ k → apart_maps (blk b j) (sc_sz (b_cls b)) (blk b k) (sc_sz (b_cls b))) as Hap.
  { intros j Hj Hjk. pose proof (blk_in sca g d b k W Hd Hk). pose proof (blk_in sca g d b j W Hd Hj). unfold apart_maps, blk in *. nia. }
  pose proof (blk_in sca g d b k W Hd Hk) as Hin.
  constructor; rewrite ?Eb, ?Ec, ?Ef; try congruence.
  - rewrite E4. cbn [length]. lia.
  - lia.
  - cbn [flinked]. split; [done|]. fold (blk b k). rewrite load64_store64_eq, u64_small by lia.
    eapply flinked_ext; [|exact F5]. intros j Hj. apply load64_store_apart. specialize (Hr j Hj).
    assert (j ≠ k) as Hjk by (by intros ->). specialize (Hap j Hr Hjk). unfold apart_maps, blk in *. lia.
  - intros j Hj Hjn. apply not_elem_of_cons in Hjn as [Hjk Hjn].
    assert (blk b' j = blk b j) as -> by (unfold blk; by rewrite Eb, Ec).
    eapply small_header_ext; [|by apply F6]. change HEADER_SIZE with 12. intros x Hx.
    apply load8_store64_ne. specialize (Hap j Hj Hjk). unfold apart_maps in *. lia.
Qed.

Lemma freed_small g s d b b' k m s' :
  pwf sca g → small_live g d b k → b_base b' = b_base b → b_cls b' = b_cls b →
  (∀ j, 0 ≤ j < sc_max (b_cls b) → (b_kind b' ≠ SEmpty ∧ (j ∉ b_free b')) ↔ ((j ∉ b_free b) ∧ j ≠ k)) →
  pm_mem s' = store64 (pm_mem s) (blk b k) m →
  freed g s (blk b k + HEADER_SIZE) (set_sb d b' g) s'.
Proof.
  intros W Hl Eb Ec Hfree Em. pose proof Hl as (Hd & K & Hk & Hkn). pose proof (blk_in sca g d b k W Hd Hk) as Hin.
  assert (∀ j, blk b' j = blk b j) as Hblk by (intros j; unfold blk; by rewrite Eb, Ec).
  assert (∀ q w, plive (set_sb d b' g) q w → plive g q w ∧ apart_maps q w (blk b k) (sc_sz (b_cls b))) as Hlive.
  { intros q w [(d2 & b2 & k2 & (H2 & K2 & H3 & H4) & -> & ->)|(a & n & Ha & -> & ->)].
    - cbn in H2. assert (∃ b3, p_sb g !! d2 = Some b3 ∧ b_kind b3 ≠ SEmpty ∧ (k2 ∉ b_free b3) ∧ (d2, k2) ≠ (d, k) ∧
        blk b2 k2 = blk b3 k2 ∧ b_cls b2 = b_cls b3) as (b3 & G1 & G2 & G3 & G4 & G5 & G6).
      { destruct (decide (d = d2)) as [<-|Hne].
        - rewrite lookup_insert_eq in H2. injection H2 as <-. rewrite Ec in H3. destruct (proj1 (Hfree k2 H3)) as [G1 G2]; [done|].
          exists b. split_and!; try done. by intros [= ->].
        - rewrite lookup_insert_ne in H2 by done. exists b2. split_and!; try done. intros [= -> ->]. done. }
      rewrite G5, G6 in *. assert (small_live g d2 b3 k2) as Hl3 by (split_and!; (done || lia)).
      split; [left; by exists d2, b3, k2|]. pose proof (blocks_apart sca g d2 b3 k2 d b k W Hl3 Hd K Hk G4).
      pose proof (blk_in sca g d2 b3 k2 W G1 H3). unfold apart_maps in *. change HEADER_SIZE with 12. lia.
    - split; [right; by exists a, n|]. pose proof (base_large sca g d b a n W Hd K Ha).
      unfold apart_maps in *. change HEADER_SIZE with 12. lia. }
  constructor.
  - intros q w. split.
    + intros H. destruct (Hlive q w H) as [H1 H2]. split; [done|]. intros ->.
      assert (0 < w).
      { destruct H1 as [(d2 & b2 & k2 & (G1 & _ & G2 & _) & _ & ->)|(a & n & Ha & _ & ->)]; change HEADER_SIZE with 12.
        - pose proof (blk_in sca g d2 b2 k2 W G1 G2). lia.
        - pose proof (w_large sca g W a n Ha). lia. }
      unfold apart_maps in H2. change HEADER_SIZE with 12 in *. lia.
    + intros [[(d2 & b2 & k2 & Hl2 & -> & ->)|(a & n & Ha & -> & ->)] Hne]; [|right; by exists a, n].
      pose proof Hl2 as (H2 & K2 & H3 & H4). left. destruct (decide (d = d2)) as [<-|Hd2].
      * assert (b2 = b) as -> by congruence. assert (k2 ≠ k) as Hkk by (by intros ->).
        destruct (proj2 (Hfree k2 H3)) as [G1 G2]; [done|]. exists d, b', k2. rewrite Hblk, Ec. split; [|done].
        split; [cbn; by rewrite lookup_insert_eq|]. split; [done|]. rewrite Ec. done.
      * exists d2, b2, k2. split; [|done]. split; [cbn; by rewrite lookup_insert_ne|]. done.
  - intros q w x H Hx. rewrite Em. destruct (Hlive q w H) as [_ H2]. apply load8_store64_ne. unfold apart_maps in H2. lia.
Qed.

(** ** The slot and the queue *)

(** Nothing but the slots, the queues and the free descriptors changed. *)
Record moved (g : pghost) (s : pmstate) (g' : pghost) (s' : pmstate) : Prop := {
  mv_live : ∀ q w, plive g' q w ↔ plive g q w;
  mv_mem : pm_mem s' = pm_mem s
}.

Lemma moved_trans g s g1 s1 g2 s2 : moved g s g1 s1 → moved g1 s1 g2 s2 → moved g s g2 s2.
Proof. intros [A1 A2] [B1 B2]. constructor; [|congruence]. intros q w. by rewrite B1. Qed.

Lemma moved_queue g s i l q : moved g s (set_queue i l g) (pm_set_queue i q s).
Proof. by constructor. Qed.

Lemma HeapPutPartial_spec fuel g s h i d Q :
  PInv sca g s → p_role g !! h = Some (RHeap i) → loose g s i d →
  (∀ b, p_sb g !! d = Some b → b_heap b = h) → (1 ≤ fuel)%nat →
  (∀ g' s', PInv sca g' s' → moved g s g' s' → Q tt s') →
  wp (HeapPutPartial fuel d) Q s.
Proof.
  intros H Hh Hl Hdh Hf HQ. pose proof Hl as (b & Hb & Hc & Hk & Hs & Hnq). specialize (Hdh b Hb).
  pose proof (pi_wf _ _ _ _ H) as W. pose proof (w_heap sca g W h i Hh) as Hi.
  destruct (pi_sb _ _ _ _ H d b Hb) as (D & ED & R1 & R2 & R3 & R4).
  assert (d_heap (pm_desc s d) = h) as Eh by (unfold pm_desc; rewrite ED; cbn; congruence).
  destruct (desc_where sca g d W) as (D1 & _); [right; by exists b|].
  unfold HeapPutPartial. wp_steps. rewrite Eh. destruct fuel as [|fuel]; [lia|]. cbn [HeapPutPartial_loop].
  unfold FLUSH, FLUSHFENCE, FLUSH_AT. wp_steps. unfold cas_partial. unfold wp at 1. st_norm. rewrite <- pm_desc_get, Eh.
  change (default (mkProcheap no_active 0 0) (pm_procs s !! h)) with (pm_proc s h). rewrite decide_True by done.
  wp_steps. st_norm. set (prev := h_partial (pm_proc s h)).
  match goal with |- wp _ _ ?S => set (s1 := S) end.
  pose proof (pi_proc _ _ _ _ H h i Hh) as HP.
  assert (∀ h2, h ≠ h2 → pm_proc s1 h2 = pm_proc s h2) as Ho by (intros h2 Hne; unfold s1; st_norm; by rewrite lookup_insert_ne).
  assert (pm_proc s1 h = set_partial d (pm_proc s h)) as Eh1 by (unfold s1; st_norm; by rewrite lookup_insert_eq).
  assert (PInv sca g s1) as H1.
  { apply PInv_procs; [done|]. intros h2 j Hh2. fold (pm_proc s1 h2). pose proof (pi_proc _ _ _ _ H h2 j Hh2) as HP2.
    change (proc_rep g h2 j (pm_proc s1 h2)). destruct (decide (h = h2)) as [<-|Hne]; [|by rewrite Ho].
    rewrite Eh1. destruct HP2 as (P1 & P2 & _). split; [done|]. split; [done|]. right. exists b. by split_and!. }
  destruct (Z.eqb_spec prev 0) as [E|Hne]; cbn [negb]; [wp_steps; by apply (HQ g s1)|].
  destruct (proj2 (proj2 HP)) as [?|(b2 & Hb2 & Hk2 & Hh2 & Hn2)]; [done|]. fold prev in Hb2, Hn2.
  unfold ListPutPartial. wp_steps. destruct (pi_sb _ _ _ _ H prev b2 Hb2) as (D2 & ED2 & _ & R2' & _).
  assert (d_heap (pm_desc s1 prev) = h) as Eh2.
  { change (pm_desc s1 prev) with (pm_desc s prev). unfold pm_desc. rewrite ED2. cbn. congruence. }
  rewrite Eh2, Eh1. replace (h_sc (set_partial d (pm_proc s h))) with i by (symmetry; apply HP).
  apply (enqueue_spec sca (S fuel) g s1 i prev); [done|lia| |lia|].
  - exists b2. split; [done|]. split; [pose proof (w_owner sca g W prev b2 Hb2) as Ho2; rewrite Hh2, Hh in Ho2; congruence|].
    split; [done|]. split.
    + intros h3 j Hh3. destruct (decide (h = h3)) as [<-|Hne3].
      * rewrite Eh1. cbn. intros ->. by apply (Hs h i Hh).
      * rewrite Ho by done. intros Ex. destruct (pi_proc _ _ _ _ H h3 j Hh3) as (_ & _ & [E0|(b3 & Hb3 & _ & Hhb3 & _)]); [congruence|].
        rewrite Ex in Hb3. congruence.
    + intros j Hin. destruct (w_queue sca g W j prev Hin) as (b3 & Hb3 & Hc3 & _). apply Hn2.
      pose proof (w_owner sca g W prev b2 Hb2) as Ho2. rewrite Hh2, Hh in Ho2. congruence.
  - intros q H'. apply (HQ _ _ H'). eapply moved_trans; [|apply moved_queue]. by constructor.
Qed.

Lemma ListRemoveEmptyDesc_spec fuel g s i n Q :
  PInv sca g s → 0 ≤ i < 256 → 0 ≤ n ≤ 1 → (6 ≤ fuel + Z.to_nat n)%nat →
  (∀ g' s', PInv sca g' s' → moved g s g' s' → Q tt s') →
  wp (ListRemoveEmptyDesc sca fuel i n) Q s.
Proof.
  intros H Hi Hn Hf HQ. assert (∃ c, Z.to_nat (2 - n) = c) as [c Ec] by eauto.
  revert fuel g s n H Hn Hf HQ Ec. induction c as [|c IH]; intros fuel g s n H Hn Hf HQ Ec; [lia|].
  destruct fuel as [|fuel]; [lia|]. cbn [ListRemoveEmptyDesc]. apply wp_bind.
  apply (ListGetPartial_spec sca fuel g s i); [done|done|lia|]. intros r q l Er s1 g1 H1 Hl _.
  destruct (Z.eqb_spec r 0) as [->|Hr]; [wp_steps; apply (HQ g1 s1); [done|apply moved_queue]|]. wp_steps.
  pose proof (Hl Hr) as (b & Hb & Hc & _). destruct (pi_sb _ _ _ _ H1 r b Hb) as (D & ED & R1 & _).
  pose proof (pi_wf _ _ _ _ H1) as W1. destruct (w_base sca g1 W1 r b Hb) as [B1 _].
  assert (d_sb (pm_desc s1 r) = b_base b) as -> by (unfold pm_desc; rewrite ED; done).
  rewrite (proj2 (Z.eqb_neq _ _)) by lia. apply wp_bind. apply (enqueue_spec sca fuel g1 s1 i r); [done|done|by apply Hl|lia|].
  intros q2 H2. assert (moved g s (set_queue i (p_queue g1 i ++ [r]) g1) (pm_set_queue i q2 s1)) as Hm.
  { eapply moved_trans; [apply moved_queue|apply moved_queue]. }
  destruct (Z.leb_spec 2 (n + 1)); [wp_steps; by apply (HQ _ _ H2)|].
  eapply (IH fuel _ _ (n + 1)); [exact H2|lia|lia| |lia].
  intros g' s' H' Hm'. apply (HQ _ _ H'). by eapply moved_trans.
Qed.

Lemma RemoveEmptyDesc_spec fuel g s h i d b Q :
  PInv sca g s → p_role g !! h = Some (RHeap i) → p_sb g !! d = Some b → b_kind b = SEmpty → b_heap b = h →
  (7 ≤ fuel)%nat → (∀ g' s', PInv sca g' s' → moved g s g' s' → Q tt s') →
  wp (RemoveEmptyDesc sca fuel h d) Q s.
Proof.
  intros H Hh Hb K Hbh Hf HQ. pose proof (pi_wf _ _ _ _ H) as W. pose proof (w_heap sca g W h i Hh) as Hi.
  pose proof (pi_proc _ _ _ _ H h i Hh) as HP. pose proof HP as (P1 & P2 & P3).
  destruct (desc_where sca g d W) as (D1 & _); [right; by exists b|]. destruct fuel as [|fuel]; [lia|].
  unfold RemoveEmptyDesc, FLUSH, FLUSHFENCE, FLUSH_AT. wp_steps. unfold cas_partial. unfold wp at 1. st_norm.
  change (default (mkProcheap no_active 0 0) (pm_procs s !! h)) with (pm_proc s h). case_decide as Es.
  - wp_steps. st_norm. match goal with |- wp _ _ ?S => set (s1 := S) end.
    destruct P3 as [?|(b2 & Hb2 & _ & _ & Hn2)]; [lia|]. rewrite Es in Hn2.
    assert (PInv sca g s1) as H1.
    { apply PInv_procs; [done|]. intros h2 j Hh2. pose proof (pi_proc _ _ _ _ H h2 j Hh2) as HP2.
      destruct (decide (h = h2)) as [<-|Hne]; [|by rewrite lookup_insert_ne].
      rewrite lookup_insert_eq. destruct HP2 as (Q1 & Q2 & _). split; [done|]. split; [done|by left]. }
    apply DescRetire_run. intros lg. apply (HQ (retire_sb d g)).
    + apply (PInv_retire sca g s1 d b (pm_desc s1 d) _ lg); [done|done|done|..].
      * intros h2 j Hh2. unfold s1. st_norm. destruct (decide (h = h2)) as [<-|Hne].
        -- rewrite lookup_insert_eq. cbn. lia.
        -- rewrite lookup_insert_ne by done. intros Ex. fold (pm_proc s h2) in Ex.
           destruct (pi_proc _ _ _ _ H h2 j Hh2) as (_ & _ & [E0|(b3 & Hb3 & _ & Hhb3 & _)]); [unfold pm_proc in *; lia|].
           unfold pm_proc in *. rewrite Ex in Hb3. congruence.
      * intros j Hin. destruct (w_queue sca g W j d Hin) as (b3 & Hb3 & Hc3 & _). apply Hn2.
        pose proof (w_owner sca g W d b Hb) as Ho. rewrite Hbh, Hh in Ho. congruence.
    + constructor; [|done]. intros q w. by apply (retire_live g d b).
  - wp_steps. st_norm. change (default (mkProcheap no_active 0 0) (pm_procs s !! h)) with (pm_proc s h). rewrite P1.
    apply (ListRemoveEmptyDesc_spec (S fuel) g); [by apply (PInv_log sca g s)|lia|lia|lia|].
    intros g' s' H' Hm. apply (HQ _ _ H'). eapply moved_trans; [|exact Hm]. by constructor.
Qed.

(** ** [PM_free] of a small block *)

Lemma full_list (l : list Z) n k :
  NoDup l → (∀ j, j ∈ l → 0 ≤ j < n) → Z.of_nat (length l) = n → 0 ≤ k < n → k ∈ l.
Proof.
  intros Hnd Hr Hlen Hk. assert (l ⊆+ seqZ 0 n) as Hs.
  { apply NoDup_submseteq; [done|]. intros j Hj. apply elem_of_seqZ. specialize (Hr j Hj). lia. }
  apply submseteq_length_Permutation in Hs; [|rewrite length_seqZ; lia]. rewrite Hs. apply elem_of_seqZ. lia.
Qed.

(** The kind of a superblock after a push. *)
Definition push_kind (b : sbinfo) : skind :=
  match b_kind b with
  | SActive c => SActive c
  | SPartial => if Z.of_nat (length (b_free b)) =? sc_max (b_cls b) - 1 then SEmpty else SPartial
  | _ => SPartial
  end.

Definition push_sb (k : Z) (b : sbinfo) : sbinfo := SbInfo (b_base b) (b_cls b) (b_heap b) (k :: b_free b) (push_kind b).

Lemma push_listed b : listed (b_kind b) → b_kind b ≠ SEmpty → listed (push_kind b).
Proof.
  intros [E|E] K; [|done]. unfold push_kind. rewrite E.
  destruct (Z.of_nat (length (b_free b)) =? sc_max (b_cls b) - 1); [by right|by left].
Qed.

(** The free list of a superblock with a block in use is not full. *)
Lemma live_room g d b k : pwf sca g → small_live g d b k → Z.of_nat (length (b_free b)) < sc_max (b_cls b).
Proof.
  intros W (Hd & K & Hk & Hn). destruct (w_fl sca g W d b Hd) as [Hnd Hr].
  pose proof (fl_bound (k :: b_free b) (sc_max (b_cls b))) as Hb. cbn [length] in Hb.
  assert (Z.of_nat (S (length (b_free b))) ≤ sc_max (b_cls b)); [|lia]. apply Hb; [by apply NoDup_cons| |lia].
  intros j [->|Hj]%elem_of_cons; [done|by apply Hr].
Qed.

Lemma pushed_anchor g d b D k m :
  pwf sca g → small_live g d b k → sb_rep m d D b →
  count (d_anchor D) = Z.of_nat (length (b_free b)) - held (b_kind b) ∧
  (count (d_anchor D) =? u32 (d_maxcount D - 1)) = (match push_kind b with SEmpty => true | _ => false end) ∧
  avail (pushed D (blk b k)) = k ∧ astate (pushed D (blk b k)) = kind_code (push_kind b) ∧
  (push_kind b ≠ SEmpty → count (pushed D (blk b k)) = Z.of_nat (S (length (b_free b))) - held (push_kind b)).
Proof.
  intros W Hl (R1 & R2 & R3 & R4). pose proof Hl as (Hd & K & Hk & Hn). pose proof (R4 K) as [F1 F2 F3 F4 F5 F6].
  pose proof (live_room g d b k W Hl) as Hroom. pose proof (w_cls sca g W d b Hd) as Hc. pose proof (sc_max_bounds _ Hc) as [Hmx _].
  pose proof (w_kind sca g W d b Hd) as Hko. unfold kind_ok in Hko.
  pose proof (blk_in sca g d b k W Hd Hk) as Hin. destruct (base_where sca g d b W Hd K) as (_ & B1 & B2 & _).
  assert (u32 (d_maxcount D - 1) = sc_max (b_cls b) - 1) as Eu by (rewrite F2; apply u32_small; lia).
  assert ((count (d_anchor D) =? u32 (d_maxcount D - 1)) = (match push_kind b with SEmpty => true | _ => false end)) as Ee.
  { rewrite Eu, F3. unfold push_kind. destruct (b_kind b) as [c| | |]; cbn [held].
    - apply Z.eqb_neq. lia.
    - rewrite Z.sub_0_r. by destruct (_ =? _).
    - rewrite Hko. apply Z.eqb_neq. cbn. lia.
    - done. }
  split; [done|]. split; [done|]. unfold pushed. cbn [avail astate count]. rewrite Ee. split; [|split].
  - rewrite R1, F1. unfold blk. replace (b_base b + k * sc_sz (b_cls b) - b_base b) with (k * sc_sz (b_cls b)) by lia.
    change SBSIZE with 65536 in *. unfold blk in Hin. rewrite u64_small by lia. rewrite Z.div_mul by lia. apply Z.mod_small. lia.
  - rewrite R3. unfold push_kind. destruct (b_kind b); try done. by destruct (Z.of_nat (length (b_free b)) =? sc_max (b_cls b) - 1).
  - rewrite F3. unfold push_kind. destruct (b_kind b) as [c| | |]; cbn [held]; try done; [lia| |intros _; lia].
    destruct (Z.of_nat (length (b_free b)) =? sc_max (b_cls b) - 1); [done|]. cbn [held]. lia.
Qed.

(** The state after the push, before the slot and the queue. *)
Lemma PInv_push g s d b k D lg :
  PInv sca g s → small_live g d b k → pm_descs s !! d = Some D →
  let s' := st_upd (store64 (pm_mem s) (blk b k) (avail (d_anchor D)))
    (<[d := with_anchor (pushed D (blk b k)) D]> (pm_descs s)) (pm_procs s) lg s in
  PInv sca (set_sb d (push_sb k b) g) s' ∧ freed g s (blk b k + HEADER_SIZE) (set_sb d (push_sb k b) g) s'.
Proof.
  intros H Hl ED s'. pose proof (pi_wf _ _ _ _ H) as W. pose proof Hl as (Hd & K & Hk & Hn).
  destruct (pi_sb _ _ _ _ H d b Hd) as (D' & ED' & R). assert (D' = D) as -> by congruence.
  destruct (pushed_anchor g d b D k _ W Hl R) as (A1 & A2 & A3 & A4 & A5). pose proof R as (R1 & R2 & R3 & R4).
  pose proof (live_room g d b k W Hl) as Hroom. destruct (w_fl sca g W d b Hd) as [Hnd Hr].
  assert (kind_ok (push_sb k b)) as Hko2.
  { pose proof (w_kind sca g W d b Hd) as Hko. unfold kind_ok, push_sb, push_kind in *. cbn [b_kind b_free b_cls length].
    pose proof (sc_max_bounds _ (w_cls sca g W d b Hd)) as [Hmx _].
    destruct (b_kind b) as [c| | |]; [lia| |rewrite Hko; cbn; lia|done].
    destruct (Z.eqb_spec (Z.of_nat (length (b_free b))) (sc_max (b_cls b) - 1)); [done|]. lia. }
  pose proof (blk_in sca g d b k W Hd Hk) as Hin. split.
  - apply (PInv_upd sca g s d b (push_sb k b)); [done|done|done|done| | | |].
    + apply (pwf_set_sb sca g d b (push_sb k b) W Hd); [done|done|exact (w_owner sca g W d b Hd)|exact Hko2| | |done|].
      * by apply NoDup_cons.
      * intros j [->|Hj]%elem_of_cons; [done|by apply Hr].
      * intros j Hj. destruct (w_queue sca g W j d Hj) as (b2 & Hb2 & _ & Hl2). assert (b2 = b) as -> by congruence.
        by apply (push_listed b).
    + intros x Hx. apply load8_store64_ne. lia.
    + split; [done|]. split; [done|]. split; [done|]. cbn [push_sb b_kind]. intros K'.
      by apply (push_fields g d b (push_sb k b) D _ k (pm_mem s) W Hl (R4 K)); [..|apply A5].
    + intros h i Hh. fold (pm_proc s h). destruct (pi_proc _ _ _ _ H h i Hh) as (P1 & P2 & P3). split; [done|]. split.
      * destruct P2 as [P2|(d2 & c & b2 & E & H2 & H3 & H4)]; [by left|]. right. destruct (decide (d = d2)) as [<-|Hne].
        -- assert (b2 = b) as -> by congruence. exists d, c, (push_sb k b). split; [done|]. split; [cbn; by rewrite lookup_insert_eq|].
           split; [|done]. cbn. unfold push_kind. by rewrite H3.
        -- exists d2, c, b2. split; [done|]. split; [cbn; by rewrite lookup_insert_ne|]. done.
      * destruct P3 as [P3|(b2 & H2 & H3 & H4 & H5)]; [by left|]. right. destruct (decide (d = h_partial (pm_proc s h))) as [E|Hne].
        -- rewrite <- E in *. assert (b2 = b) as -> by congruence. exists (push_sb k b). split; [cbn; by rewrite lookup_insert_eq|].
           split; [by apply (push_listed b)|done].
        -- exists b2. split; [cbn; by rewrite lookup_insert_ne|]. done.
  - apply (freed_small g s d b (push_sb k b) k (avail (d_anchor D))); [done|done|done|done| |done].
    intros j Hj. cbn [push_sb b_kind b_free]. split.
    + intros [_ Hnj]. by apply not_elem_of_cons in Hnj as [? ?].
    + intros [Hnj Hjk]. split; [|by apply not_elem_of_cons]. intros Ek.
      assert (Z.of_nat (length (k :: b_free b)) = sc_max (b_cls b)) as Hfull.
      { unfold push_kind in Ek. destruct (b_kind b); try done. destruct (Z.eqb_spec (Z.of_nat (length (b_free b))) (sc_max (b_cls b) - 1)); [|done].
        cbn [length]. lia. }
      assert (j ∈ k :: b_free b) as Hin2; [|by apply elem_of_cons in Hin2 as [?|?]].
      apply (full_list _ (sc_max (b_cls b))); [by apply NoDup_cons| |done|done].
      intros x [->|Hx]%elem_of_cons; [done|by apply Hr].
Qed.
End Free.
