(* ===== verification/OldSpec.v ===== *)
(** * The old allocator as a whole

    The initialisation establishes the invariant; [PM_malloc], [PM_free] and the
    program's own writes keep it. *)

From Stdlib Require Import ZArith Lia.
From stdpp Require Import base gmap numbers functions list.
From S2P Require Import Prelude Mem OldQueue OldMalloc OldDesc OldLarge OldRun OldInv OldTake OldPartial OldGrow OldFree.

Local Open Scope Z_scope.
#[local] Set Warnings "-clear-no-such-hyp".

Section Spec.
Context (sca : Z).

(** ** [PM_free] *)

Lemma freed_moved g s p g1 s1 g2 s2 : freed g s p g1 s1 → moved g1 s1 g2 s2 → freed g s p g2 s2.
Proof. intros Hf [M1 M2]. by apply (freed_after g s p g1 s1). Qed.

Lemma del_role_live g a q w : (∀ n, p_role g !! a ≠ Some (RLarge n)) → plive (del_role a g) q w ↔ plive g q w.
Proof.
  intros Hr. unfold plive, small_live. cbn. split; (intros [H|(b & n & Hb & H)]; [by left|right; exists b, n]).
  - apply lookup_delete_Some in Hb as [_ Hb]. done.
  - rewrite lookup_delete_ne; [done|]. intros <-. by apply (Hr n).
Qed.

Lemma full_loose g s d b k :
  PInv sca g s → p_sb g !! d = Some b → b_kind b = SFull →
  loose (set_sb d (push_sb k b) g) s (b_cls b) d.
Proof.
  intros H Hd K. pose proof (pi_wf _ _ _ _ H) as W. exists (push_sb k b). split; [cbn; by rewrite lookup_insert_eq|].
  split; [done|]. split; [cbn; unfold push_kind; rewrite K; by left|]. split.
  - intros h i Hh Ex. destruct (desc_where sca g d W) as (D1 & _); [right; by exists b|].
    destruct (pi_proc _ _ _ _ H h i Hh) as (_ & _ & [E0|(b2 & Hb2 & Hk2 & _)]); [lia|].
    rewrite Ex, Hd in Hb2. injection Hb2 as <-. rewrite K in Hk2. by destruct Hk2.
  - intros j Hj. destruct (w_queue sca g W j d Hj) as (b2 & Hb2 & _ & Hk2).
    assert (b2 = b) as -> by congruence. rewrite K in Hk2. by destruct Hk2.
Qed.

(** An empty superblock that has been unmapped: its descriptor goes. *)
Lemma RemoveEmptyDesc_unmapped fuel g s d b Q :
  PInv sca g s → p_role g !! b_base b = Some (RSb d) → p_sb g !! d = Some b → b_kind b = SEmpty → (7 ≤ fuel)%nat →
  (∀ g' s', PInv sca g' s' → (∀ q w, plive g' q w ↔ plive g q w) → pm_mem s' = pm_mem s → Q tt s') →
  wp (RemoveEmptyDesc sca fuel (b_heap b) d) Q (unmapped (b_base b) s).
Proof.
  intros H B0 Hd K Hf HQ. pose proof (pi_wf _ _ _ _ H) as W. pose proof (w_owner sca g W d b Hd) as Ho.
  apply (RemoveEmptyDesc_spec sca fuel (del_role (b_base b) g) _ (b_heap b) (b_cls b) d b); try done.
  - apply PInv_unmap; [done|..].
    + intros r Hr. rewrite B0 in Hr. by injection Hr as <-.
    + intros d2 b2 H2 K2 E. destruct (base_where sca g d2 b2 W H2 K2) as (B0' & _). congruence.
  - cbn. rewrite lookup_delete_ne; [done|]. intros E. rewrite E in B0. congruence.
  - intros g2 s2 H2 [M1 M2]. apply (HQ g2 s2 H2); [|done]. intros q w. rewrite M1. apply del_role_live. by rewrite B0.
Qed.

Lemma PM_free_small fuel g s d b k Q :
  PInv sca g s → small_live g d b k → (8 ≤ fuel)%nat →
  (∀ s' g', PInv sca g' s' → freed g s (blk b k + HEADER_SIZE) g' s' → Q tt s') →
  wp (PM_free sca fuel (blk b k + HEADER_SIZE)) Q s.
Proof.
  intros H Hl Hf HQ. pose proof (pi_wf _ _ _ _ H) as W. pose proof Hl as (Hd & K & Hk & Hn).
  pose proof (blk_in sca g d b k W Hd Hk) as Hin. destruct (base_where sca g d b W Hd K) as (B0 & B1 & B2 & B3).
  destruct (pi_sb _ _ _ _ H d b Hd) as (D & ED & R). pose proof R as (R1 & R2 & R3 & R4). pose proof (R4 K) as F.
  destruct (f_head _ _ _ _ F k Hk Hn) as [Hc Hw]. change TYPE_SIZE with 4 in Hw. change HEADER_SIZE with 12 in *.
  assert (pm_desc s d = D) as Ed by (unfold pm_desc; by rewrite ED).
  destruct (pushed_anchor sca g d b D k _ W Hl R) as (A1 & A2 & A3 & A4 & A5).
  pose proof (live_room sca g d b k W Hl) as Hroom. pose proof (sc_max_bounds _ (w_cls sca g W d b Hd)) as [Hmx _].
  pose proof (w_kind sca g W d b Hd) as Hko. unfold kind_ok in Hko.
  assert (0 ≤ count (d_anchor D) < 2 ^ 24 - 1) as Hcnt.
  { rewrite A1. destruct (b_kind b); cbn [held]; lia. }
  unfold PM_free. apply wp_bind, wp_ensure_init; [apply H|]. rewrite (proj2 (Z.eqb_neq _ _)) by lia.
  change HEADER_SIZE with 12. replace (blk b k + 12 - 12) with (blk b k) by lia. change SBSIZE with 65536 in *.
  rewrite u64_small by lia. unfold load_char, load_word. wp_steps. rewrite Hc. cbn [Z.eqb Pos.eqb LARGE SMALL negb andb].
  wp_steps. change TYPE_SIZE with 4. rewrite Hw, Ed. destruct fuel as [|fuel]; [lia|].
  apply (free_loop_run fuel d (blk b k) s D); [done|done|]. intros lg. unfold FLUSH, FLUSHFENCE, FLUSH_AT. wp_steps. st_norm.
  match goal with |- wp _ _ (st_upd _ _ _ ?lg s) => destruct (PInv_push sca g s d b k D lg H Hl ED) as [H1 Hfr] end.
  match goal with |- wp _ _ ?S => set (s1 := S) in * end. set (g1 := set_sb d (push_sb k b) g) in *.
  change (blk b k + HEADER_SIZE) with (blk b k + 12) in Hfr. rewrite A4, A2.
  assert (p_sb g1 !! d = Some (push_sb k b)) as Hd1 by (cbn; by rewrite lookup_insert_eq).
  pose proof (w_owner sca g W d b Hd) as Ho. pose proof (pi_proc _ _ _ _ H1 _ _ Ho) as HP1.
  destruct (push_kind b) eqn:Ek; cbn [kind_code]; try (change (_ =? EMPTY) with false; cbn iota).
  - assert ((astate (d_anchor D) =? FULL) = false) as ->; [|wp_steps; by apply (HQ s1 g1)].
    rewrite R3. unfold push_kind in Ek. destruct (b_kind b); try done.
  - destruct (b_kind b) eqn:Ekb.
    + unfold push_kind in Ek. by rewrite Ekb in Ek.
    + rewrite R3. cbn. wp_steps. by apply (HQ s1 g1).
    + rewrite R3. cbn [kind_code]. change (FULL =? FULL) with true. cbn iota.
      apply (HeapPutPartial_spec sca (S fuel) g1 s1 (b_heap b) (b_cls b)); [done|done| | |lia|].
      * destruct (full_loose g s d b k H Hd Ekb) as (b2 & L). by exists b2.
      * intros b2 Hb2. assert (b2 = push_sb k b) as -> by congruence. done.
      * intros g2 s2 H2 Hm. apply (HQ s2 g2 H2). by eapply freed_moved.
    + done.
  - unfold push_kind in Ek. destruct (b_kind b); try done. by destruct (_ =? _).
  - change (EMPTY =? EMPTY) with true. cbn iota. wp_steps. unfold munmap. unfold wp at 1. rewrite R1, B3.
    cbn [Z.eqb negb]. change (sc_sbsize _) with SBSIZE.
    assert (pm_mapped s1 !! b_base b = Some SBSIZE) as Hmap.
    { rewrite (pi_map _ _ _ _ H1). rewrite lookup_fmap. cbn. by rewrite B0. }
    rewrite decide_True by done. rewrite R2. fold (unmapped (b_base b) s1).
    apply (RemoveEmptyDesc_unmapped (S fuel) g1 s1 d (push_sb k b)); try done; [lia|].
    intros g2 s2 H2 M1 M2. apply (HQ s2 g2 H2). by apply (freed_after g s _ g1 s1).
Qed.

Lemma PM_free_large_spec fuel g s a n Q :
  PInv sca g s → p_role g !! a = Some (RLarge n) →
  (∀ s' g', PInv sca g' s' → freed g s (a + HEADER_SIZE) g' s' → Q tt s') →
  wp (PM_free sca fuel (a + HEADER_SIZE)) Q s.
Proof.
  intros H Ha HQ. pose proof (pi_wf _ _ _ _ H) as W. destruct (w_range sca g W a _ Ha) as (R1 & R2 & R3 & _).
  pose proof (w_large sca g W a n Ha) as Hn. cbn [role_len] in *.
  apply (PM_free_large sca fuel a n); [apply H|lia|change HEADER_SIZE with 12; lia|done|by apply (pi_large _ _ _ _ H)| |].
  { rewrite (pi_map _ _ _ _ H), lookup_fmap, Ha. done. }
  apply (HQ _ (del_role a g)).
  - apply PInv_unmap; [done|intros r Hr; rewrite Ha in Hr; by injection Hr as <-|].
    intros d b Hd K <-. destruct (base_where sca g d b W Hd K) as (B0 & _). congruence.
  - constructor; [|done]. change HEADER_SIZE with 12. intros q w. unfold plive, small_live. cbn. change HEADER_SIZE with 12. split.
    + intros [(d & b & k & (Hd & K & Hk & Hnk) & -> & ->)|(c & m & Hc & -> & ->)].
      * split; [left; by exists d, b, k|]. pose proof (base_large sca g d b a n W Hd K Ha) as Hap.
        pose proof (blk_in sca g d b k W Hd Hk). unfold apart_maps in Hap. lia.
      * apply lookup_delete_Some in Hc as [Hne Hc]. split; [right; by exists c, m|]. lia.
    + intros [[Hs|(c & m & Hc & -> & ->)] Hne]; [by left|]. right. exists c, m. split; [|done].
      rewrite lookup_delete_ne; [done|]. intros <-. lia.
Qed.

(** ** [PM_malloc] *)

Lemma wp_after_init {A} (m : PM A) Q s :
  wp (ensure_init sca) (λ _ s', pm_init_flag s' ≠ 0 ∧ wp (ensure_init sca;; m) Q s') s → wp (ensure_init sca;; m) Q s.
Proof.
  intros H. apply wp_bind. eapply wp_mono; [exact H|]. cbn beta. intros [] s' [Hf Hm]. apply wp_bind_inv in Hm.
  unfold wp in Hm at 1. by rewrite ensure_init_done in Hm.
Qed.

(** A new mapping of [n] bytes becomes a large block. *)
Section NewLarge.
Context (g : pghost) (s : pmstate) (a n : Z) (lg : list pm_event).
Hypothesis H : PInv sca g s.
Hypothesis Hn : 2048 < n < 2 ^ 64.
Hypothesis Hf : fresh sca a n (pm_mapped s).

Let s1 := map_range a n s.
Let s2 := with_log lg (pm_upd_mem (put_large a n) s1).

Lemma new_large_mem x : x < a ∨ a + HEADER_SIZE ≤ x → load8 (pm_mem s2) x = load8 (pm_mem s1) x.
Proof using. intros Hx. unfold s2. st_norm. by apply put_large_outside. Qed.

Lemma new_large_apart q w : plive g q w → apart_maps a n q w.
Proof using H Hf.
  intros Hl. destruct (live_role sca g q w (pi_wf _ _ _ _ H) Hl) as (b & r & Hb & H1 & H2).
  pose proof (role_apart sca g s a n b r H Hf Hb). unfold apart_maps in *. change HEADER_SIZE with 12 in *. lia.
Qed.

Lemma PInv_new_large : PInv sca (add_role a (RLarge n) g) s2.
Proof using H Hn Hf.
  pose proof (pi_wf _ _ _ _ H) as W. destruct (PInv_map sca g s a n H Hf) as [H1 _]. fold s1 in H1.
  destruct (pwf_add_role sca g s a (RLarge n) H Hf) as [W' Hno]; [cbn; lia|done|intros m [= <-]; lia|].
  pose proof (λ b r, role_apart sca g s a n b r H Hf) as Hap. apply PInv_role; [|done|done|].
  - constructor; try apply H1.
    + intros d b Hd. destruct (pi_sb _ _ _ _ H1 d b Hd) as (D & ED & R1 & R2 & R3 & R4). exists D. split; [done|].
      split_and!; try done. intros K. eapply sb_fields_ext; [exact W|exact Hd| |by apply R4]. intros x Hx. apply new_large_mem.
      destruct (base_where sca g d b W Hd K) as (B0 & _). specialize (Hap _ _ B0). unfold apart_maps in Hap. cbn [role_len] in Hap.
      change HEADER_SIZE with 12 in *. lia.
    + intros c m Hc. eapply large_header_ext; [|by apply (pi_large _ _ _ _ H1)]. intros x Hx. apply new_large_mem.
      specialize (Hap _ _ Hc). pose proof (w_large sca g W c m Hc). unfold apart_maps in Hap. cbn [role_len] in Hap.
      change HEADER_SIZE with 12 in *. lia.
  - unfold s2. st_norm. apply put_large_header. lia.
Qed.

Lemma new_large_takes : taken g s (a + HEADER_SIZE) (n - HEADER_SIZE) (add_role a (RLarge n) g) s2.
Proof using H Hn Hf.
  destruct (PInv_map sca g s a n H Hf) as [_ K1]. fold s1 in K1. pose proof Hf as [(F1 & F2 & _) _].
  destruct (pwf_add_role sca g s a (RLarge n) H Hf) as [_ Hno]; [cbn; lia|done|intros m [= <-]; lia|].
  constructor.
  - intros q w. unfold plive, small_live. cbn. split.
    + intros [Hs|(c & m & Hc & -> & ->)]; [left; by left|]. destruct (decide (a = c)) as [<-|Hne].
      * rewrite lookup_insert_eq in Hc. injection Hc as <-. by right.
      * rewrite lookup_insert_ne in Hc by done. left. right. by exists c, m.
    + intros [[Hs|(c & m & Hc & Hqw)]|[-> ->]]; [by left| |].
      * right. exists c, m. split; [|done]. rewrite lookup_insert_ne; [done|]. intros <-. congruence.
      * right. exists a, n. rewrite lookup_insert_eq. done.
  - intros q w Hl. pose proof (new_large_apart q w Hl). unfold apart_maps in *. change HEADER_SIZE with 12 in *. lia.
  - intros q w x Hl Hx. rewrite new_large_mem; [by apply (kp_mem _ _ _ _ K1 q w)|]. pose proof (new_large_apart q w Hl) as Ha.
    unfold apart_maps in Ha. change HEADER_SIZE with 12 in *. lia.
  - change PAGESIZE with 4096 in F2. change HEADER_SIZE with 12. pose proof (Z.div_mod a 4096 ltac:(lia)) as E. rewrite F2 in E.
    replace (a + 12) with (4 + (a / 4096 * 512 + 1) * 8) by lia. by rewrite Z.mod_add.
  - change HEADER_SIZE with 12. lia.
Qed.
End NewLarge.

Lemma PM_malloc_large_spec fuel t sz g s Q :
  PInv sca g s → 2036 < sz < 2 ^ 64 - HEADER_SIZE → maps_ok sca (pm_mapped s) (pm_supply s) [sz + HEADER_SIZE] →
  (∀ p s' g', PInv sca g' s' → taken g s p sz g' s' → Q p s') →
  wp (PM_malloc sca fuel t sz) Q s.
Proof.
  intros H Hsz (a & sup & Hsup & Hf & _) HQ.
  apply (PM_malloc_large sca fuel t sz s a sup); [apply H|done|done|]. intros lg. change HEADER_SIZE with 12 in *.
  eapply HQ; [apply (PInv_new_large g s a); [done|lia|done]|].
  replace sz with (sz + 12 - 12) at 1 by lia. apply (new_large_takes g s a); [done|lia|done].
Qed.

(** The superblocks that wait are as many as descriptors at most. *)
Lemma waiting_size g s h i : PInv sca g s → p_role g !! h = Some (RHeap i) → (waiting g s h i ≤ size (pm_descs s))%nat.
Proof.
  intros H Hh. pose proof (pi_wf _ _ _ _ H) as W. pose proof (w_heap sca g W h i Hh) as Hi.
  destruct (pi_queue _ _ _ _ H i ltac:(lia)) as [n Hq]. pose proof (queue_NoDup _ _ _ _ Hq) as Hnd.
  assert (∀ l, NoDup l → (∀ d, d ∈ l → is_Some (p_sb g !! d)) → (length l ≤ size (pm_descs s))%nat) as Hlen.
  { intros l Hl Hd. rewrite <- size_dom. rewrite <- (size_list_to_set (C := gset Z) l Hl). apply subseteq_size.
    intros d Hin. apply elem_of_list_to_set in Hin. apply elem_of_dom. destruct (Hd d Hin) as [b Hb].
    destruct (pi_sb _ _ _ _ H d b Hb) as (D & ED & _). by exists D. }
  assert (∀ d, d ∈ p_queue g i → is_Some (p_sb g !! d)) as Hqs.
  { intros d Hd. destruct (w_queue sca g W i d Hd) as (b & Hb & _). by exists b. }
  unfold waiting. case_decide as E; [by apply Hlen|].
  destruct (pi_proc _ _ _ _ H h i Hh) as (_ & _ & [?|(b & Hb & _ & _ & Hn)]); [done|].
  apply (Hlen (h_partial (pm_proc s h) :: p_queue g i)); [by apply NoDup_cons|].
  intros d [->|Hd]%elem_of_cons; [by exists b|by apply Hqs].
Qed.

Lemma malloc_loop_spec fuel g s h i Q :
  PInv sca g s → p_role g !! h = Some (RHeap i) → (waiting g s h i + 6 ≤ fuel)%nat →
  maps_ok sca (pm_mapped s) (pm_supply s) [DESCSBSIZE; SBSIZE] → maps_ok sca (pm_mapped s) (pm_supply s) [SBSIZE] →
  (∀ p s' g', PInv sca g' s' → taken g s p (sc_sz i - HEADER_SIZE) g' s' → Q p s') →
  wp (malloc_loop sca fuel h) Q s.
Proof.
  intros H Hh Hf Hm1 Hm2 HQ. destruct fuel as [|[|fuel]]; [lia..|].
  assert (∀ p s' g', PInv sca g' s' → taken g s p (sc_sz i - HEADER_SIZE) g' s' → (p =? 0) = false ∧ Q p s') as HQ'.
  { intros p s' g' H' Ht. split; [apply Z.eqb_neq; pose proof (tk_pos _ _ _ _ _ _ Ht); lia|by apply (HQ p s' g')]. }
  remember (S fuel) as f1 eqn:Ef. cbn [malloc_loop]. rewrite Ef. apply wp_bind.
  apply (MallocFromActive_spec sca fuel g s h i); [done|done| |].
  2:{ intros p s' g' H' Ht. destruct (HQ' p s' g' H' Ht) as [-> ?]. by wp_steps. }
  intros Ha. cbn [Z.eqb negb]. apply wp_bind.
  apply (MallocFromPartial_spec sca (S fuel) g s h i); [done|done|done|lia| |].
  2:{ intros p s' g' H' Ht. destruct (HQ' p s' g' H' Ht) as [-> ?]. by wp_steps. }
  intros s1 g1 H1 Hq. cbn [Z.eqb negb]. apply wp_bind.
  assert (pm_mapped s1 = pm_mapped s) as Em.
  { rewrite (pi_map _ _ _ _ H1), (pi_map _ _ _ _ H). by rewrite (qu_role _ _ _ _ _ Hq). }
  apply (MallocFromNewSB_spec sca fuel g1 s1 h i); [done| | | | |].
  - by rewrite (qu_role _ _ _ _ _ Hq).
  - by rewrite (qu_active _ _ _ _ _ Hq).
  - intros _. by rewrite Em, (qu_supply _ _ _ _ _ Hq).
  - intros _. by rewrite Em, (qu_supply _ _ _ _ _ Hq).
  - intros p s' g' H' Ht. destruct (HQ' p s' g' H') as [-> ?]; [by eapply taken_quiet|]. by wp_steps.
Qed.

(** The requests [PM_malloc] makes to [mmap], in order, are some of these. *)
Definition requests (sz : Z) : list Z := if sz <? 2036 then [24; DESCSBSIZE; SBSIZE] else [sz + HEADER_SIZE].

Definition supplied (X : gmap Z Z) (sup : list (option Z)) (sz : Z) : Prop :=
  ∀ lens, lens `sublist_of` requests sz → maps_ok sca X sup lens.

Definition usable (sz : Z) : Z := if sz <? 2036 then sc_sz (class_of sz) - HEADER_SIZE else sz.

Lemma PM_malloc_spec fuel t sz g s Q :
  PInv sca g s → 0 ≤ sz < 2 ^ 64 - HEADER_SIZE → sz ≠ 2036 → (size (pm_descs s) + 6 ≤ fuel)%nat →
  supplied (pm_mapped s) (pm_supply s) sz →
  (∀ p s' g', PInv sca g' s' → taken g s p (usable sz) g' s' → Q p s') →
  wp (PM_malloc sca fuel t sz) Q s.
Proof.
  intros H Hsz Hne Hf Hs HQ. unfold supplied, requests, usable in *. destruct (Z.ltb_spec sz 2036) as [Hlt|Hge].
  - unfold PM_malloc. apply wp_bind, wp_ensure_init; [apply H|]. apply wp_bind.
    assert (∀ h g1 s1, PInv sca g1 s1 → p_role g1 !! h = Some (RHeap (class_of sz)) → kept g s g1 s1 →
      (size (pm_descs s1) ≤ size (pm_descs s))%nat → maps_ok sca (pm_mapped s1) (pm_supply s1) [DESCSBSIZE; SBSIZE] →
      maps_ok sca (pm_mapped s1) (pm_supply s1) [SBSIZE] →
      wp (if h =? 0 then alloc_large_block sz else malloc_loop sca fuel h) Q s1) as Hgo.
    { intros h g1 s1 H1 Hh1 Hk Hd Hm1 Hm2. destruct (w_range sca g1 (pi_wf _ _ _ _ H1) h _ Hh1) as (Hp & _).
      rewrite (proj2 (Z.eqb_neq _ _)) by lia. pose proof (waiting_size g1 s1 h _ H1 Hh1) as Hw.
      apply (malloc_loop_spec fuel g1 s1 h (class_of sz)); [done|done|lia|done|done|].
      intros p s' g' H' Ht. apply (HQ p s' g' H'). by eapply taken_kept. }
    destruct (decide (default 0 (pm_heaps s !! (t, class_of sz)) = 0)) as [E|E].
    + apply (find_heap_new sca t sz g s [DESCSBSIZE; SBSIZE] [SBSIZE]); [done|lia|done| | |].
      * apply Hs. apply sublist_skip, sublist_skip, sublist_skip, sublist_nil.
      * apply Hs. apply sublist_skip, sublist_cons, sublist_skip, sublist_nil.
      * done.
    + apply find_heap_run; [lia| |done].
      intros h Hh _. apply (Hgo h g s); [done|by apply (pi_tls _ _ _ _ H t)|by constructor|done|..];
        apply Hs; [apply sublist_cons; done|apply sublist_cons, sublist_cons; done].
  - apply (PM_malloc_large_spec fuel t sz g s); [done|lia|by apply Hs|done].
Qed.

(** ** Initialisation *)

(** The state of a process before its first call. *)
Definition pm_fresh (s : pmstate) : Prop :=
  pm_init_flag s = 0 ∧ pm_mapped s = ∅ ∧ pm_heaps s = ∅ ∧ (pm_avail s).1 = 0.

(** A state with other queues and log. *)
Definition with_queues (nx : gmap Z aba_t) (fs : gmap Z lf_fifo_queue_t) (lg : list pm_event) (s : pmstate) : pmstate :=
  mkPm (pm_mem s) (pm_descs s) nx fs (pm_procs s) (pm_heaps s) (pm_avail s) (pm_init_flag s) (pm_supply s) (pm_mapped s) lg.

Definition init_step (i : Z) (k : PM unit) : PM unit :=
  on_queue i (st_mod (lf_fifo_init (dummy_addr sca i)));; FLUSH_AT (LPartial i);; k.

Lemma init_run l s Q :
  0 < sca → NoDup l → (∀ i, i ∈ l → 0 ≤ i < 256) →
  (∀ nx fs lg, (∀ i, i ∈ l → queue_rep (dummy_addr sca i) (qst (with_queues nx fs lg s) i) [dummy_addr sca i] []) →
    (∀ i, i ∉ l → fs !! i = pm_fifos s !! i ∧ nx !! dummy_addr sca i = pm_nexts s !! dummy_addr sca i) → Q tt (with_queues nx fs lg s)) →
  wp (foldr init_step (mret tt) l) Q s.
Proof.
  intros Hsca. revert s. induction l as [|i l IH]; intros s Hnd Hr HQ; cbn [foldr].
  - wp_steps. specialize (HQ (pm_nexts s) (pm_fifos s) (pm_log s)). destruct s. apply HQ; [|done]. intros i Hi. by apply not_elem_of_nil in Hi.
  - apply NoDup_cons in Hnd as [Hi Hnd]. unfold init_step at 1. apply wp_bind, wp_on_queue, wp_mod.
    unfold FLUSH_AT. wp_steps. apply IH; [done|intros j Hj; apply Hr; by right|]. intros nx fs lg H1 H2.
    apply HQ.
    + intros j [->|Hj]%elem_of_cons; [|by apply H1]. destruct (H2 i Hi) as [E1 E2].
      assert (dummy_addr sca i ≠ 0) as Hd.
      { specialize (Hr i ltac:(left)). unfold dummy_addr. change sizeof_sizeclass with 96. change dummy_offset with 16. lia. }
      eapply queue_rep_ext; [exact (fifo_init_rep (dummy_addr sca i) (qst s i) Hd)|..].
      * unfold qst. cbn [pm_fifos pm_nexts with_queues fifo]. rewrite E1. cbn. by rewrite lookup_insert_eq.
      * intros x ->%list_elem_of_singleton. unfold qst. cbn [pm_fifos pm_nexts with_queues nexts]. rewrite E2. done.
    + intros j Hj. apply not_elem_of_cons in Hj as [Hji Hj]. destruct (H2 j Hj) as [E1 E2]. split.
      * rewrite E1. cbn. by rewrite lookup_insert_ne.
      * rewrite E2. cbn. rewrite lookup_insert_ne; [done|]. intros E%dummy_inj. done.
Qed.

Definition ghost_start : pghost := PGhost ∅ ∅ [] (λ _, []).

Lemma ensure_init_spec s Q :
  0 < sca → pm_fresh s →
  (∀ s', PInv sca ghost_start s' → pm_mem s' = pm_mem s → pm_descs s' = pm_descs s → pm_supply s' = pm_supply s →
    pm_mapped s' = pm_mapped s → Q tt s') → wp (ensure_init sca) Q s.
Proof.
  intros Hsca (F1 & F2 & F3 & F4) HQ. unfold ensure_init. wp_steps. rewrite F1. cbn [Z.eqb]. unfold FLUSHFENCE, FLUSH_AT. wp_steps.
  unfold cas_init. unfold wp at 1. rewrite decide_True by done. apply wp_bind.
  change (pm_init sca) with (foldr init_step (mret tt) (seqZ 0 256)).
  apply init_run; [done|apply NoDup_seqZ|intros i Hi%elem_of_seqZ; lia|]. intros nx fs lg H1 _. wp_steps.
  apply HQ; try done. constructor; try done; cbn.
  - constructor; cbn; try (intros ? ? Hx; by rewrite lookup_empty in Hx).
    + intros a r b r' Hx. by rewrite lookup_empty in Hx.
    + intros d [Hd|[b Hd]]; [by apply not_elem_of_nil in Hd|by rewrite lookup_empty in Hd].
    + split; [apply NoDup_nil_2|]. intros d Hd. by apply not_elem_of_nil in Hd.
    + intros i d Hd. by apply not_elem_of_nil in Hd.
  - intros t i h Hx. by rewrite F3, lookup_empty in Hx.
  - intros i Hi. exists [dummy_addr sca i]. apply H1. apply elem_of_seqZ. lia.
Qed.

(** ** Writes of the program *)

(** Bytes of [m'] that differ from the state's are in blocks of the program. *)
Definition user_write (g : pghost) (m m' : mem) : Prop :=
  ∀ x, (∀ p z, plive g p z → ¬ p ≤ x < p + z) → load8 m' x = load8 m x.

(** A free block, and the header of a block in use, are in no block of the program. *)
Lemma outside_small g d b k q w x n :
  pwf sca g → p_sb g !! d = Some b → b_kind b ≠ SEmpty → 0 ≤ k < sc_max (b_cls b) →
  n ≤ sc_sz (b_cls b) → (k ∉ b_free b → n ≤ HEADER_SIZE) → plive g q w → blk b k ≤ x < blk b k + n → ¬ q ≤ x < q + w.
Proof.
  intros W Hd K Hk Hn Hh Hl Hx Hq. pose proof (blk_in sca g d b k W Hd Hk) as Hin.
  destruct Hl as [(d2 & b2 & k2 & Hl2 & -> & ->)|(a & m & Ha & -> & ->)]; change HEADER_SIZE with 12 in *.
  - pose proof Hl2 as (H2 & K2 & Hk2 & Hn2). destruct (decide ((d2, k2) = (d, k))) as [[= -> ->]|Hne].
    + assert (b2 = b) as -> by congruence. specialize (Hh Hn2). lia.
    + pose proof (blocks_apart sca g d2 b2 k2 d b k W Hl2 Hd K Hk Hne) as Hap. unfold apart_maps in Hap.
      pose proof (blk_in sca g d2 b2 k2 W H2 Hk2). lia.
  - pose proof (base_large sca g d b a m W Hd K Ha) as Hap. unfold apart_maps in Hap. lia.
Qed.

Lemma outside_large g a n q w x :
  pwf sca g → p_role g !! a = Some (RLarge n) → plive g q w → a ≤ x < a + HEADER_SIZE → ¬ q ≤ x < q + w.
Proof.
  intros W Ha Hl Hx Hq. pose proof (w_large sca g W a n Ha). change HEADER_SIZE with 12 in *.
  destruct Hl as [(d2 & b2 & k2 & (H2 & K2 & Hk2 & _) & -> & ->)|(c & m & Hc & -> & ->)]; change HEADER_SIZE with 12 in *.
  - pose proof (base_large sca g d2 b2 a n W H2 K2 Ha) as Hap. unfold apart_maps in Hap. pose proof (blk_in sca g d2 b2 k2 W H2 Hk2). lia.
  - destruct (decide (a = c)) as [->|Hne]; [lia|]. pose proof (w_sep sca g W a _ c _ Ha Hc Hne) as Hap.
    unfold apart_maps in Hap. cbn [role_len] in Hap. lia.
Qed.

Lemma PInv_write g s m' : PInv sca g s → user_write g (pm_mem s) m' → PInv sca g (pm_upd_mem (λ _, m') s).
Proof.
  intros H Hw. pose proof (pi_wf _ _ _ _ H) as W. constructor; try apply H.
  - intros d b Hd. destruct (pi_sb _ _ _ _ H d b Hd) as (D & ED & R1 & R2 & R3 & R4). exists D. split; [done|].
    split_and!; try done. intros K. destruct (R4 K) as [F1 F2 F3 F4 F5 F6]. destruct (w_fl sca g W d b Hd) as [_ Hr].
    pose proof (w_cls sca g W d b Hd) as Hc. pose proof (sc_sz_eq (b_cls b) ltac:(lia)) as Hz. constructor; try done.
    + eapply flinked_ext; [|exact F5]. intros k Hk. apply load64_ext. intros x Hx. apply Hw. intros p z Hl.
      apply (outside_small g d b k p z x 8 W Hd K (Hr k Hk)); [lia|done|done|unfold blk; lia].
    + intros k Hk Hn. eapply small_header_ext; [|by apply F6]. intros x Hx. apply Hw. intros p z Hl.
      apply (outside_small g d b k p z x HEADER_SIZE W Hd K Hk); [change HEADER_SIZE with 12; lia|done|done|done].
  - intros a n Ha. eapply large_header_ext; [|by apply (pi_large _ _ _ _ H)]. intros x Hx. apply Hw. intros p z Hl.
    by apply (outside_large g a n p z x).
Qed.
End Spec.
