(* ===== verification/OldReach.v ===== *)
(** * Programs on the old allocator

    [pm_rep] is the state in terms of the blocks the program holds, [pm_reach] the
    states a program can reach by calls and writes to its blocks. *)

From Stdlib Require Import ZArith Lia.
From stdpp Require Import base gmap numbers functions list.
From S2P Require Import Prelude Mem OldQueue OldMalloc OldDesc OldLarge OldRun OldInv OldTake OldPartial OldGrow OldFree OldSpec.

Local Open Scope Z_scope.
#[local] Set Warnings "-clear-no-such-hyp".

Section Reach.
Context (sca : Z).

(** ** The blocks of the program *)

Definition in_held (L : gmap Z Z) (x : Z) : Prop := ∃ p z, L !! p = Some z ∧ p ≤ x < p + z.

(** The contents of the blocks of [L] are the same. *)
Definition same_held (L : gmap Z Z) (m m' : mem) : Prop := ∀ x, in_held L x → load8 m' x = load8 m x.

Definition clear_of (L : gmap Z Z) (p z : Z) : Prop := ∀ q w, L !! q = Some w → apart_maps q w p z.

(** The program holds exactly the blocks of [L], by address and usable size. *)
Definition pm_rep (L : gmap Z Z) (s : pmstate) : Prop :=
  (pm_fresh s ∧ L = ∅) ∨ ∃ g, PInv sca g s ∧ ∀ p z, L !! p = Some z ↔ plive g p z.

Definition with_supply (sup : list (option Z)) (s : pmstate) : pmstate :=
  mkPm (pm_mem s) (pm_descs s) (pm_nexts s) (pm_fifos s) (pm_procs s) (pm_heaps s) (pm_avail s)
    (pm_init_flag s) sup (pm_mapped s) (pm_log s).

(** What a program can do: calls, with any documented results of [mmap], and writes
    to its blocks. Fuel: more than there are descriptors. *)
Inductive pm_reach : gmap Z Z → pmstate → Prop :=
| reach_start s : pm_fresh s → pm_reach ∅ s
| reach_malloc L s t sz sup fuel p s' :
    pm_reach L s → 0 ≤ sz < 2 ^ 64 - HEADER_SIZE → sz ≠ 2036 → supplied sca (pm_mapped s) sup sz →
    (size (pm_descs s) + 6 ≤ fuel)%nat → PM_malloc sca fuel t sz (with_supply sup s) = Ok (p, s') →
    pm_reach (<[p := usable sz]> L) s'
| reach_free L s p z fuel s' :
    pm_reach L s → L !! p = Some z → (8 ≤ fuel)%nat → PM_free sca fuel p s = Ok (tt, s') → pm_reach (delete p L) s'
| reach_write L s m' :
    pm_reach L s → (∀ x, ¬ in_held L x → load8 m' x = load8 (pm_mem s) x) → pm_reach L (pm_upd_mem (λ _, m') s).

Lemma live_facts g p z : pwf sca g → plive g p z → p mod 8 = 4 ∧ 0 < z.
Proof.
  intros W [(d & b & k & (Hd & K & Hk & _) & -> & ->)|(a & n & Ha & -> & ->)].
  - split; [apply (blk_mod8 sca g d b k W Hd K); lia|]. pose proof (blk_in sca g d b k W Hd Hk). change HEADER_SIZE with 12. lia.
  - destruct (w_range sca g W a _ Ha) as (_ & Hp & _). pose proof (w_large sca g W a n Ha). change HEADER_SIZE with 12.
    split; [|lia]. change PAGESIZE with 4096 in Hp. pose proof (Z.div_mod a 4096 ltac:(lia)) as E. rewrite Hp in E.
    replace (a + 12) with (4 + (a / 4096 * 512 + 1) * 8) by lia. by rewrite Z.mod_add.
Qed.

Lemma live_apart g p z q w : pwf sca g → plive g p z → plive g q w → p ≠ q → apart_maps q w p z.
Proof.
  intros W [(d & b & k & Hl & -> & ->)|(a & n & Ha & -> & ->)] Hq Hne; change HEADER_SIZE with 12 in *.
  - pose proof Hl as (Hd & K & Hk & Hn). pose proof (blk_in sca g d b k W Hd Hk).
    destruct Hq as [(d2 & b2 & k2 & Hl2 & -> & ->)|(c & m & Hc & -> & ->)]; change HEADER_SIZE with 12 in *.
    + destruct (decide ((d2, k2) = (d, k))) as [[= -> ->]|Hn2].
      * destruct Hl2 as (H2 & _). assert (b2 = b) as -> by congruence. done.
      * pose proof (blocks_apart sca g d2 b2 k2 d b k W Hl2 Hd K Hk Hn2). unfold apart_maps in *. lia.
    + pose proof (base_large sca g d b c m W Hd K Hc). unfold apart_maps in *. lia.
  - destruct Hq as [(d2 & b2 & k2 & (H2 & K2 & Hk2 & _) & -> & ->)|(c & m & Hc & -> & ->)]; change HEADER_SIZE with 12 in *.
    + pose proof (base_large sca g d2 b2 a n W H2 K2 Ha). pose proof (blk_in sca g d2 b2 k2 W H2 Hk2). unfold apart_maps in *. lia.
    + assert (c ≠ a) as Hca by (by intros ->). pose proof (w_sep sca g W c _ a _ Hc Ha Hca). unfold apart_maps in *. cbn [role_len] in *. lia.
Qed.

Lemma usable_pos sz : 0 ≤ sz → sz ≠ 2036 → sz ≤ usable sz ∧ 0 < usable sz.
Proof.
  intros Hsz Hne. unfold usable. destruct (Z.ltb_spec sz 2036) as [Hlt|Hge]; [|lia].
  destruct (class_bounds sz) as [Hi Hb]; [lia|]. rewrite sc_sz_eq in * by lia. change HEADER_SIZE with 12 in *. lia.
Qed.

(** From the ghost state to the blocks of the program. *)
Lemma rep_taken L g s p z g' s' :
  (∀ q w, L !! q = Some w ↔ plive g q w) → pwf sca g → PInv sca g' s' → 0 < z → taken g s p z g' s' →
  clear_of L p z ∧ same_held L (pm_mem s) (pm_mem s') ∧ p mod 8 = 4 ∧ pm_rep (<[p := z]> L) s'.
Proof.
  intros HL W H' Hz [T1 T2 T3 T4 T5]. split; [|split; [|split; [done|]]].
  - intros q w Hq. apply T2. by apply HL.
  - intros x (q & w & Hq & Hx). apply (T3 q w); [by apply HL|done].
  - right. exists g'. split; [done|]. intros q w. rewrite T1, <- HL. destruct (decide (p = q)) as [<-|Hne].
    + rewrite lookup_insert_eq. split; [intros [= ->]; by right|]. intros [Hq|[_ ->]]; [|done].
      apply HL in Hq. pose proof (T2 p w Hq) as Ha. destruct (live_facts g p w W Hq). unfold apart_maps in Ha. lia.
    + rewrite lookup_insert_ne by done. split; [by left|]. intros [?|[? _]]; [done|congruence].
Qed.

Lemma rep_malloc L s fuel t sz sup :
  0 < sca → pm_rep L s → 0 ≤ sz < 2 ^ 64 - HEADER_SIZE → sz ≠ 2036 → supplied sca (pm_mapped s) sup sz →
  (size (pm_descs s) + 6 ≤ fuel)%nat →
  wp (PM_malloc sca fuel t sz) (λ p s', clear_of L p (usable sz) ∧ same_held L (pm_mem s) (pm_mem s') ∧ p mod 8 = 4 ∧
    pm_rep (<[p := usable sz]> L) s') (with_supply sup s).
Proof.
  intros Hsca Hrep Hsz Hne Hsup Hf. destruct (usable_pos sz) as [_ Hpos]; [lia|done|].
  assert (∀ s1 g, PInv sca g s1 → (∀ p z, L !! p = Some z ↔ plive g p z) → pm_mem s1 = pm_mem s → pm_descs s1 = pm_descs s →
    pm_mapped s1 = pm_mapped s → pm_supply s1 = sup →
    wp (PM_malloc sca fuel t sz) (λ p s', clear_of L p (usable sz) ∧ same_held L (pm_mem s) (pm_mem s') ∧ p mod 8 = 4 ∧
      pm_rep (<[p := usable sz]> L) s') s1) as Hgo.
  { intros s1 g H HL E1 E2 E3 E4. apply (PM_malloc_spec sca fuel t sz g s1); [done|done|done|by rewrite E2|by rewrite E3, E4|].
    intros p s' g' H' Ht. rewrite <- E1. apply (rep_taken L g s1 p _ g' s'); [done|apply H|done|done|done]. }
  destruct Hrep as [[Hfr ->]|(g & H & HL)].
  - apply wp_after_init. apply ensure_init_spec; [done|done|]. intros s1 H1 E1 E2 E3 E4. split; [apply H1|].
    apply (Hgo s1 ghost_start); try done. intros p z. rewrite lookup_empty. split; [done|].
    intros [(d & b & k & (Hd & _) & _)|(a & n & Ha & _)]; [by cbn in Hd; rewrite lookup_empty in Hd|by cbn in Ha; rewrite lookup_empty in Ha].
  - apply (Hgo _ g); try done. by destruct H.
Qed.

Lemma rep_free L s fuel p z :
  pm_rep L s → L !! p = Some z → (8 ≤ fuel)%nat →
  wp (PM_free sca fuel p) (λ _ s', same_held (delete p L) (pm_mem s) (pm_mem s') ∧ pm_rep (delete p L) s') s.
Proof.
  intros [[_ ->]|(g & H & HL)] Hp Hf; [done|].
  assert (∀ s' g', PInv sca g' s' → freed g s p g' s' →
    same_held (delete p L) (pm_mem s) (pm_mem s') ∧ pm_rep (delete p L) s') as Hgo.
  { intros s' g' H' [F1 F2].
    assert (∀ q w, delete p L !! q = Some w ↔ plive g' q w) as HL'.
    { intros q w. rewrite F1, <- HL, lookup_delete_Some. naive_solver. }
    split; [|right; by exists g'].
    intros x (q & w & Hq & Hx). apply (F2 q w); [by apply HL'|done]. }
  pose proof (proj1 (HL p z) Hp) as [(d & b & k & Hl & -> & _)|(a & n & Ha & -> & _)].
  - by apply (PM_free_small sca fuel g s d b k).
  - by apply (PM_free_large_spec sca fuel g s a n).
Qed.

Lemma reach_rep L s : 0 < sca → pm_reach L s → pm_rep L s.
Proof.
  intros Hsca. induction 1 as [s Hf|L s t sz sup fuel p s' _ IH Hsz Hne Hs Hf E|L s p z fuel s' _ IH Hp Hf E|L s m' _ IH Hm].
  - by left.
  - pose proof (rep_malloc L s fuel t sz sup Hsca IH Hsz Hne Hs Hf) as Hw. unfold wp in Hw. rewrite E in Hw. apply Hw.
  - pose proof (rep_free L s fuel p z IH Hp Hf) as Hw. unfold wp in Hw. rewrite E in Hw. apply Hw.
  - destruct IH as [[Hfr ->]|(g & H & HL)]; [by left|]. right. exists g. split; [|done].
    apply PInv_write; [done|]. intros x Hx. apply Hm. intros (q & w & Hq & Hr). apply HL in Hq. by apply (Hx q w).
Qed.

Lemma rep_apart L s p z : pm_rep L s → L !! p = Some z → p mod 8 = 4 ∧ clear_of (delete p L) p z.
Proof.
  intros [[_ ->]|(g & H & HL)] Hp; [done|]. apply HL in Hp. pose proof (pi_wf _ _ _ _ H) as W. split.
  - by apply (live_facts g p z).
  - intros q w [Hne Hq]%lookup_delete_Some. apply HL in Hq. by apply (live_apart g).
Qed.
End Reach.
