(* ===== verification/OldArrayStack.v ===== *)
(** * The array stack (old/ArrayStack.hpp)

    A bounded stack of words shared by threads: the top element is kept apart, with
    its index and a counter, and is written into the array by whoever comes next
    ([finish]). A thread is between two of its accesses to shared memory; the
    accesses of all threads interleave. The log records each operation at the step
    where it takes effect: a push and a pop of an element at the successful
    compare-and-swap of the top, a pop of an empty stack at its load of the top. *)

From Stdlib Require Import ZArith Lia.
From stdpp Require Import base gmap numbers list.
From S2P Require Import Prelude.

Local Open Scope Z_scope.
#[local] Set Warnings "-clear-no-such-hyp".

(** [Top] and [Node]: the counter of a node has 64 bits, that of the top 32. *)
Record Top := mkTop { t_value : Z; t_index : Z; t_counter : Z }.
Record Node := mkNode { n_value : Z; n_counter : Z }.

#[export] Instance Top_eq_dec : EqDecision Top.
Proof. solve_decision. Defined.
#[export] Instance Node_eq_dec : EqDecision Node.
Proof. solve_decision. Defined.

Inductive sop := Push (val : Z) | Pop.
Inductive sevent := Pushed (val : Z) | Popped (r : option Z).

(** Where a thread is: about to load the top; in [finish], about to load the node or
    to replace it; about to compute the new top; about to publish it. *)
Inductive spc :=
| SLoad (o : sop)
| SFinish (o : sop) (old_top : Top)
| SFinishCas (o : sop) (old_top : Top) (old_node : Node)
| SNext (o : sop) (old_top : Top)
| STopCas (o : sop) (old_top new_top : Top).

Record ArrayStack := mkAStack {
  s_top : Top;
  s_nodes : gmap Z Node;
  s_pc : gmap nat spc;
  s_log : list (nat * sevent)
}.

(** [nodes]: constructed as [Node()]. *)
Definition node (s : ArrayStack) (i : Z) : Node := default (mkNode 0 0) (s_nodes s !! i).

(** [_ArrayStack()]. *)
Definition ArrayStack_ctor : ArrayStack := mkAStack (mkTop 0 0 0) ∅ ∅ [].

Definition s_goto (t : nat) (p : spc) (s : ArrayStack) : ArrayStack :=
  mkAStack (s_top s) (s_nodes s) (<[t := p]> (s_pc s)) (s_log s).
Definition s_done (t : nat) (s : ArrayStack) : ArrayStack :=
  mkAStack (s_top s) (s_nodes s) (delete t (s_pc s)) (s_log s).
Definition s_event (t : nat) (e : sevent) (s : ArrayStack) : ArrayStack :=
  mkAStack (s_top s) (s_nodes s) (s_pc s) (s_log s ++ [(t, e)]).
Definition s_set_top (x : Top) (s : ArrayStack) : ArrayStack :=
  mkAStack x (s_nodes s) (s_pc s) (s_log s).
Definition s_set_node (i : Z) (n : Node) (s : ArrayStack) : ArrayStack :=
  mkAStack (s_top s) (<[i := n]> (s_nodes s)) (s_pc s) (s_log s).

(** [Top old_top = top.load()]. *)
Definition s_load (t : nat) (o : sop) (s : ArrayStack) : ArrayStack :=
  let s' := s_goto t (SFinish o (s_top s)) s in
  match o with
  | Pop => if t_index (s_top s) =? 0 then s_event t (Popped None) s' else s'
  | Push _ => s'
  end.

(** [finish]: the nodes expected and written; the constructor of [Node] takes a
    32-bit counter. *)
Definition finish_old (s : ArrayStack) (x : Top) : Node :=
  mkNode (n_value (node s (t_index x))) (u32 (t_counter x - 1)).
Definition finish_new (x : Top) : Node := mkNode (t_value x) (t_counter x).
Definition finish_cas (t : nat) (o : sop) (x : Top) (old_node : Node) (s : ArrayStack) : ArrayStack :=
  let s' := if decide (node s (t_index x) = old_node) then s_set_node (t_index x) (finish_new x) s else s in
  s_goto t (SNext o x) s'.

(** The new top of a push and of a pop. *)
Definition push_top (s : ArrayStack) (val : Z) (x : Top) : Top :=
  mkTop val (u32 (t_index x + 1)) (u32 (n_counter (node s (u32 (t_index x + 1))) + 1)).
Definition pop_top (s : ArrayStack) (x : Top) : Top :=
  let below_top := node s (u32 (t_index x - 1)) in
  mkTop (n_value below_top) (u32 (t_index x - 1)) (u32 (n_counter below_top + 1)).

Section Steps.
Context (size : Z).

Definition s_next (t : nat) (o : sop) (x : Top) (s : ArrayStack) : outcome ArrayStack :=
  match o with
  | Push val => if t_index x =? size - 1 then Fail else Ok (s_goto t (STopCas o x (push_top s val x)) s)
  | Pop => if t_index x =? 0 then Ok (s_done t s) else Ok (s_goto t (STopCas o x (pop_top s x)) s)
  end.

(** [top.compare_exchange_weak(old_top, new_top)]. *)
Definition s_top_cas (t : nat) (o : sop) (x y : Top) (spurious : bool) (s : ArrayStack) : ArrayStack :=
  if decide (s_top s = x ∧ spurious = false) then
    s_event t match o with Push val => Pushed val | Pop => Popped (Some (t_value x)) end
      (s_done t (s_set_top y s))
  else s_goto t (SLoad o) s.

(** A thread starts an operation ([inl]) or makes its next step ([inr], with the
    spurious failure of a weak compare-and-swap). *)
Definition sstep (t : nat) (a : sop + bool) (s : ArrayStack) : option (outcome ArrayStack) :=
  match s_pc s !! t, a with
  | None, inl o => Some (Ok (s_goto t (SLoad o) s))
  | Some p, inr spurious =>
      Some match p with
      | SLoad o => Ok (s_load t o s)
      | SFinish o x => Ok (s_goto t (SFinishCas o x (finish_old s x)) s)
      | SFinishCas o x n => Ok (finish_cas t o x n s)
      | SNext o x => s_next t o x s
      | STopCas o x y => Ok (s_top_cas t o x y spurious s)
      end
  | _, _ => None
  end.

Fixpoint sruns (tr : list (nat * (sop + bool))) (s : ArrayStack) : option (outcome ArrayStack) :=
  match tr with
  | [] => Some (Ok s)
  | (t, a) :: tr' => match sstep t a s with Some (Ok s') => sruns tr' s' | r => r end
  end.
End Steps.

(** ** The sequential stack *)

Definition stack_event (e : sevent) (l : list Z) : option (list Z) :=
  match e, l with
  | Pushed v, _ => Some (v :: l)
  | Popped None, [] => Some []
  | Popped (Some v), x :: l' => if x =? v then Some l' else None
  | _, _ => None
  end.

(** The log as a history of a stack that starts empty. *)
Fixpoint stack_history (log : list (nat * sevent)) (l : list Z) : option (list Z) :=
  match log with
  | [] => Some l
  | (_, e) :: log' => match stack_event e l with Some l' => stack_history log' l' | None => None end
  end.

Lemma stack_history_snoc log t e l l' :
  stack_history log l = Some l' → stack_history (log ++ [(t, e)]) l = stack_event e l'.
Proof.
  revert l. induction log as [|[u x] log IH]; intros l; cbn [app stack_history].
  - intros [= ->]. by destruct (stack_event e l').
  - destruct (stack_event x l); [apply IH|done].
Qed.

(** ** The invariant *)

Section Invariant.
Context (size : Z) (Hsize : 1 ≤ size ≤ 2 ^ 31).

(** The elements below index [i + 1], from the top; the contents of the stack. *)
Definition below (s : ArrayStack) (i : Z) : list Z :=
  (λ j, n_value (node s j)) <$> reverse (seqZ 1 i).
Definition contents (s : ArrayStack) : list Z :=
  if t_index (s_top s) =? 0 then [] else t_value (s_top s) :: below s (t_index (s_top s) - 1).

(** The counter of index [i]: of the top when it is there, of the node otherwise. *)
Definition counter_at (s : ArrayStack) (i : Z) : Z :=
  if i =? t_index (s_top s) then t_counter (s_top s) else n_counter (node s i).

(** A top that was there: the counter of its index has not gone back, and it is the
    present one when index and counter are the present ones. *)
Record was_top (s : ArrayStack) (x : Top) : Prop := {
  wt_index : 0 ≤ t_index x < size;
  wt_counter : 0 ≤ t_counter x ≤ counter_at s (t_index x);
  wt_same : t_index x = t_index (s_top s) → t_counter x = t_counter (s_top s) → x = s_top s;
  wt_length : ∃ log1 log2 l, s_log s = log1 ++ log2 ∧ stack_history log1 [] = Some l ∧
    Z.of_nat (length l) = t_index x
}.

Definition finished (s : ArrayStack) (x : Top) : Prop := t_counter x ≤ n_counter (node s (t_index x)).

Definition spc_ok (s : ArrayStack) (p : spc) : Prop :=
  match p with
  | SLoad _ => True
  | SFinish _ x => was_top s x
  | SFinishCas _ x n => was_top s x ∧ n_counter n = u32 (t_counter x - 1) ∧
      (n_counter (node s (t_index x)) + 1 = t_counter x → n_value (node s (t_index x)) = n_value n)
  | SNext _ x => was_top s x ∧ finished s x
  | STopCas o x y => was_top s x ∧ finished s x ∧
      match o with
      | Push val => t_index x < size - 1 ∧ (s_top s = x → y = push_top s val x)
      | Pop => 0 < t_index x ∧ (s_top s = x → y = pop_top s x)
      end
  end.

Definition steps (s : ArrayStack) : Z := Z.of_nat (length (s_log s)).

Record sinv (s : ArrayStack) : Prop := {
  si_index : 0 ≤ t_index (s_top s) < size;
  si_node : finish_new (s_top s) = node s (t_index (s_top s)) ∨
    n_counter (node s (t_index (s_top s))) + 1 = t_counter (s_top s);
  si_counter : ∀ i, 0 ≤ n_counter (node s i) ∧ counter_at s i ≤ steps s;
  si_log : stack_history (s_log s) [] = Some (contents s);
  si_pc : ∀ t p, s_pc s !! t = Some p → spc_ok s p
}.

Lemma below_S s i : 0 ≤ i → below s (i + 1) = n_value (node s (i + 1)) :: below s i.
Proof using.
  intros Hi. unfold below. rewrite seqZ_S, reverse_snoc by done. cbn. by rewrite Z.add_comm.
Qed.

Lemma below_ext s s' i : (∀ j, 1 ≤ j ≤ i → node s' j = node s j) → below s' i = below s i.
Proof using.
  intros H. unfold below. apply list_fmap_ext. intros k j Hk.
  assert (j ∈ reverse (seqZ 1 i)) as Hj by (by eapply list_elem_of_lookup_2).
  apply elem_of_reverse, elem_of_seqZ in Hj. by rewrite H by lia.
Qed.

Lemma length_below s i : 0 ≤ i → Z.of_nat (length (below s i)) = i.
Proof using. intros. unfold below. rewrite length_fmap, length_reverse, length_seqZ. lia. Qed.

Lemma length_contents s : sinv s → Z.of_nat (length (contents s)) = t_index (s_top s).
Proof using.
  intros [[? _] _ _ _ _]. unfold contents. destruct (Z.eqb_spec (t_index (s_top s)) 0) as [->|]; [done|].
  cbn [length]. rewrite Nat2Z.inj_succ, length_below by lia. lia.
Qed.

Lemma ArrayStack_ctor_inv : sinv ArrayStack_ctor.
Proof using Hsize.
  constructor.
  - cbn. lia.
  - by left.
  - intros i. unfold counter_at, node. cbn. rewrite lookup_empty. cbn. by destruct (_ =? _).
  - done.
  - intros t p. cbn. by rewrite lookup_empty.
Qed.

(** The present top, as a thread that loads it sees it. *)
Lemma was_top_now s : sinv s → was_top s (s_top s).
Proof using.
  intros H. pose proof H as [H1 H2 H3 H4 H5]. constructor; try done.
  - unfold counter_at. rewrite Z.eqb_refl. split; [|done]. destruct H2 as [H2|H2].
    + change (t_counter (s_top s)) with (n_counter (finish_new (s_top s))). rewrite H2. apply H3.
    + destruct (H3 (t_index (s_top s))). lia.
  - exists (s_log s), [], (contents s). rewrite app_nil_r. split_and!; try done. by apply length_contents.
Qed.

(** ** Framing: steps that leave top and nodes alone *)

Lemma was_top_frame s s' x :
  s_top s' = s_top s → s_nodes s' = s_nodes s → (∃ l, s_log s' = s_log s ++ l) → was_top s x → was_top s' x.
Proof using.
  intros Et En [l El] [H1 H2 H3 (l1 & l2 & c & E & Hh & Hl)]. constructor; try done.
  - unfold counter_at, node in *. by rewrite Et, En.
  - by rewrite Et.
  - exists l1, (l2 ++ l), c. by rewrite El, E, app_assoc.
Qed.

Lemma spc_frame s s' p :
  s_top s' = s_top s → s_nodes s' = s_nodes s → (∃ l, s_log s' = s_log s ++ l) → spc_ok s p → spc_ok s' p.
Proof using.
  intros Et En El. pose proof (was_top_frame s s' ) as Hw.
  assert (∀ i, node s' i = node s i) as Hn by (intros i; unfold node; by rewrite En).
  destruct p as [o|o x|o x n|o x|o x y]; cbn [spc_ok]; unfold finished, push_top, pop_top.
  - done.
  - by apply Hw.
  - intros (H1 & H2). split; [by apply Hw|]. by rewrite Hn.
  - intros (H1 & H2). split; [by apply Hw|]. by rewrite Hn.
  - intros (H1 & H2 & H3). split; [by apply Hw|]. rewrite Hn, Et. split; [done|].
    destruct o; by rewrite !Hn.
Qed.

(** A step of thread [t] that changes only where it is and the log. *)
Lemma sinv_frame s s' t :
  sinv s → s_top s' = s_top s → s_nodes s' = s_nodes s → (∃ l, s_log s' = s_log s ++ l) →
  stack_history (s_log s') [] = Some (contents s) →
  (∀ u, u ≠ t → s_pc s' !! u = s_pc s !! u) → (∀ p, s_pc s' !! t = Some p → spc_ok s p) → sinv s'.
Proof using.
  intros H Et En El Eh Hpc Hp. pose proof H as [H1 H2 H3 H4 H5].
  assert (∀ i, node s' i = node s i) as Hn by (intros i; unfold node; by rewrite En).
  constructor.
  - by rewrite Et.
  - by rewrite Et, Hn.
  - intros i. destruct (H3 i) as [? Hc]. unfold counter_at, steps in *. rewrite Et, Hn. split; [done|].
    destruct El as [l ->]. rewrite length_app. lia.
  - rewrite Eh. unfold contents, below. rewrite Et. by setoid_rewrite Hn.
  - intros u p Hu. apply (spc_frame s); try done. destruct (decide (u = t)) as [->|Hne]; [by apply Hp|].
    apply (H5 u). by rewrite <- Hpc.
Qed.

Lemma sinv_goto s t p : sinv s → spc_ok s p → sinv (s_goto t p s).
Proof using.
  intros H Hp. apply (sinv_frame s _ t); try done; [exists []; cbn; by rewrite app_nil_r|apply H| |].
  - intros u Hu. cbn. by rewrite lookup_insert_ne.
  - intros p'. cbn. rewrite lookup_insert_eq. by intros [= <-].
Qed.

Lemma sinv_done s t : sinv s → sinv (s_done t s).
Proof using.
  intros H. apply (sinv_frame s _ t); try done; [exists []; cbn; by rewrite app_nil_r|apply H| |].
  - intros u Hu. cbn. by rewrite lookup_delete_ne.
  - intros p'. cbn. by rewrite lookup_delete_eq.
Qed.

(** ** Loading and finishing *)

Lemma s_load_ok s t o : sinv s → sinv (s_load t o s).
Proof using.
  intros H. pose proof (was_top_now s H) as Hw. unfold s_load.
  destruct o as [v|]; [by apply sinv_goto|].
  destruct (Z.eqb_spec (t_index (s_top s)) 0) as [E|E]; [|by apply sinv_goto].
  apply (sinv_frame s _ t); try done.
  - by eexists.
  - cbn [s_event s_goto s_log]. rewrite (stack_history_snoc _ _ _ _ (contents s)) by apply H.
    unfold contents. by rewrite E.
  - intros u Hu. cbn. by rewrite lookup_insert_ne.
  - intros p. cbn. rewrite lookup_insert_eq. by intros [= <-].
Qed.

Lemma finish_ok s t o x : sinv s → was_top s x → sinv (s_goto t (SFinishCas o x (finish_old s x)) s).
Proof using. intros H Hw. by apply sinv_goto. Qed.

(** A node whose counter is one short belongs to the present top. *)
Lemma unfinished_now s x :
  sinv s → was_top s x → n_counter (node s (t_index x)) + 1 = t_counter x → x = s_top s.
Proof using.
  intros [_ H2 H3 _ _] [W1 W2 W3 _] E. unfold counter_at in W2.
  destruct (Z.eqb_spec (t_index x) (t_index (s_top s))) as [Ei|Ei]; [|lia].
  apply W3; [done|]. destruct H2 as [H2|H2]; rewrite Ei in E; [|lia].
  rewrite <- H2 in E. cbn in E. lia.
Qed.

(** The present top is written to its node. *)
Lemma sinv_finish s :
  sinv s → n_counter (node s (t_index (s_top s))) + 1 = t_counter (s_top s) →
  sinv (s_set_node (t_index (s_top s)) (finish_new (s_top s)) s) ∧
  ∀ x, finished s x → finished (s_set_node (t_index (s_top s)) (finish_new (s_top s)) s) x.
Proof using Hsize.
  intros H E. pose proof H as [H1 H2 H3 H4 H5]. set (i := t_index (s_top s)) in *.
  set (s' := s_set_node i (finish_new (s_top s)) s).
  assert (node s' i = finish_new (s_top s)) as Ni by (unfold node, s'; cbn; by rewrite lookup_insert_eq).
  assert (∀ j, j ≠ i → node s' j = node s j) as Nj by (intros; unfold node, s'; cbn; by rewrite lookup_insert_ne).
  assert (∀ j, counter_at s' j = counter_at s j) as Ec.
  { intros j. unfold counter_at. cbn. fold i. destruct (Z.eqb_spec j i); [done|]. by rewrite Nj. }
  assert (∀ x, was_top s x → was_top s' x) as Hw.
  { intros x [W1 W2 W3 W4]. constructor; try done. by rewrite Ec. }
  assert (∀ x, finished s x → finished s' x) as Hf.
  { intros x. unfold finished. destruct (decide (t_index x = i)) as [->|]; [|by rewrite Nj].
    rewrite Ni. cbn [n_counter finish_new]. lia. }
  split; [|done]. constructor.
  - done.
  - left. cbn. fold i. by rewrite Ni.
  - intros j. rewrite Ec. split; [|apply H3]. destruct (decide (j = i)) as [->|]; [|rewrite Nj by done; apply H3].
    rewrite Ni. cbn. destruct (H3 i). lia.
  - change (s_log s') with (s_log s). rewrite H4. unfold contents. cbn [s_top s' s_set_node]. fold i.
    destruct (Z.eqb_spec i 0); [done|]. do 2 f_equal. symmetry. apply below_ext. intros j Hj. apply Nj. lia.
  - intros u p Hu. specialize (H5 u p Hu). destruct p as [o'|o' x|o' x n|o' x|o' x y]; cbn [spc_ok] in *.
    + done.
    + by apply Hw.
    + destruct H5 as (W & En & Hn). split; [by apply Hw|]. split; [done|].
      destruct (decide (t_index x = i)) as [Ex|]; [|by rewrite Nj]. rewrite Ex, Ni. cbn. intros E'.
      destruct W as [_ W _ _]. unfold counter_at in W. rewrite Ex in W. unfold i in W.
      rewrite Z.eqb_refl in W. lia.
    + destruct H5 as (W & F). split; [by apply Hw|by apply Hf].
    + destruct H5 as (W & F & Ho). split; [by apply Hw|]. split; [by apply Hf|].
      unfold push_top, pop_top in *. destruct o' as [v|]; destruct Ho as [Hlt Ho]; (split; [done|]); intros <-.
      * rewrite Nj; [by apply Ho|]. cbn. unfold i. rewrite u32_small by (cbn in Hlt; lia). lia.
      * rewrite Nj; [by apply Ho|]. cbn. unfold i. cbn in Hlt. rewrite u32_small by lia. lia.
Qed.

Lemma finish_cas_ok s t o x n :
  sinv s → steps s < 2 ^ 32 - 1 → spc_ok s (SFinishCas o x n) → sinv (finish_cas t o x n s).
Proof using Hsize.
  intros H Hb (W & En & Hn). pose proof W as [W1 W2 W3 _]. pose proof H as [H1 H2 H3 H4 H5].
  pose proof (H3 (t_index x)) as [Hn0 Hc].
  assert (t_counter x ≤ steps s) as Hxs by lia. unfold finish_cas.
  destruct (decide (node s (t_index x) = n)) as [E|E].
  - assert (n_counter (node s (t_index x)) ≤ steps s) as Hns.
    { destruct (Z.eqb_spec (t_index x) (t_index (s_top s))) as [Ei|Ei].
      - unfold counter_at in Hc. rewrite Ei, Z.eqb_refl in Hc. rewrite Ei.
        destruct H2 as [H2|H2]; [rewrite <- H2; cbn; lia|lia].
      - unfold counter_at in Hc. apply Z.eqb_neq in Ei. by rewrite Ei in Hc. }
    assert (n_counter (node s (t_index x)) + 1 = t_counter x) as Ex.
    { rewrite <- E in En. rewrite En. destruct (decide (t_counter x = 0)) as [E0|].
      - exfalso. rewrite E0 in En. change (u32 (0 - 1)) with (2 ^ 32 - 1) in En. lia.
      - rewrite u32_small; lia. }
    assert (x = s_top s) as -> by (by apply unfinished_now).
    destruct (sinv_finish s H Ex) as [Hs Hf]. apply sinv_goto; [done|].
    split.
    + by apply (was_top_now _ Hs).
    + unfold finished, node. cbn. rewrite lookup_insert_eq. cbn. lia.
  - apply sinv_goto; [done|]. split; [done|]. unfold finished.
    destruct (Z.lt_ge_cases (n_counter (node s (t_index x))) (t_counter x)) as [Hlt|]; [|done]. exfalso.
    unfold counter_at in W2. destruct (Z.eqb_spec (t_index x) (t_index (s_top s))) as [Ei|Ei]; [|lia].
    assert (n_counter (node s (t_index x)) + 1 = t_counter x) as Ex.
    { rewrite Ei in *. destruct H2 as [H2|H2]; [rewrite <- H2 in Hlt; cbn in Hlt|]; lia. }
    apply E. specialize (Hn Ex). destruct (node s (t_index x)) as [v c]. destruct n as [v' c']. cbn in *.
    rewrite Hn. f_equal. rewrite En, u32_small; lia.
Qed.

(** ** Replacing the top *)

Lemma s_next_ok s t o x :
  sinv s → spc_ok s (SNext o x) → s_next size t o x s ≠ Fail → ∃ s', s_next size t o x s = Ok s' ∧ sinv s'.
Proof using.
  intros H [W F] Hne. unfold s_next in *. pose proof W as [W1 W2 W3 W4].
  destruct o as [v|].
  - destruct (Z.eqb_spec (t_index x) (size - 1)) as [E|E]; [done|]. eexists. split; [done|].
    apply sinv_goto; [done|]. split; [done|]. split; [done|]. split; [lia|done].
  - destruct (Z.eqb_spec (t_index x) 0) as [E|E]; (eexists; split; [done|]).
    + by apply sinv_done.
    + apply sinv_goto; [done|]. split; [done|]. split; [done|]. split; [lia|done].
Qed.

(** The present top, once written to its node, may move to an index next to it, with
    the counter of the node there plus one. *)
Lemma sinv_move s t e y :
  sinv s → steps s + 1 < 2 ^ 32 - 1 → finish_new (s_top s) = node s (t_index (s_top s)) →
  0 ≤ t_index y < size → t_index y ≠ t_index (s_top s) →
  t_counter y = n_counter (node s (t_index y)) + 1 →
  stack_event e (contents s) = Some (contents (s_set_top y s)) →
  sinv (s_event t e (s_done t (s_set_top y s))).
Proof using Hsize.
  intros H Hb Hfin Hy Hne Ey Ee. pose proof H as [H1 H2 H3 H4 H5]. set (s' := s_event _ _ _).
  assert (∀ j, node s' j = node s j) as Nj by done.
  assert (∀ j, counter_at s j ≤ counter_at s' j) as Ec.
  { intros j. unfold counter_at. cbn [s' s_event s_done s_set_top s_top]. rewrite Nj.
    destruct (Z.eqb_spec j (t_index y)) as [->|Hj].
    - rewrite (proj2 (Z.eqb_neq _ _)) by done. lia.
    - destruct (Z.eqb_spec j (t_index (s_top s))) as [->|]; [rewrite <- Hfin; cbn|]; lia. }
  assert (∀ x, was_top s x → x ≠ y ∧ was_top s' x) as Hw.
  { intros x [W1 W2 W3 (l1 & l2 & c & E & Hh & Hl)].
    assert (t_index x = t_index y → t_counter x < t_counter y) as Hlt.
    { intros Ex. rewrite Ex in W2. unfold counter_at in W2.
      rewrite (proj2 (Z.eqb_neq _ _)) in W2 by done. lia. }
    split; [by intros ->; specialize (Hlt eq_refl); lia|]. constructor; try done.
    - specialize (Ec (t_index x)). lia.
    - cbn. intros Ex1 Ex2. specialize (Hlt Ex1). lia.
    - exists l1, (l2 ++ [(t, e)]), c. cbn. by rewrite E, app_assoc. }
  constructor.
  - done.
  - right. cbn [s' s_event s_done s_set_top s_top]. rewrite Nj. by symmetry.
  - intros j. split; [apply H3|]. unfold counter_at, steps. cbn [s' s_event s_done s_set_top s_top s_log].
    rewrite length_app. cbn [length]. rewrite Nj. destruct (H3 j) as [_ Hj]. destruct (H3 (t_index y)) as [_ Hyc].
    unfold counter_at, steps in Hj, Hyc. rewrite (proj2 (Z.eqb_neq (t_index y) _)) in Hyc by done.
    destruct (Z.eqb_spec j (t_index y)) as [Ej|Ej]; [lia|].
    destruct (Z.eqb_spec j (t_index (s_top s))) as [E|E]; [rewrite E, <- Hfin; cbn|]; lia.
  - cbn [s' s_event s_done s_set_top s_log]. by rewrite (stack_history_snoc _ _ _ _ (contents s)).
  - cbn [s' s_event s_done s_set_top s_pc]. intros u p [Hu Hp]%lookup_delete_Some. specialize (H5 u p Hp).
    destruct p as [o'|o' x|o' x n|o' x|o' x z]; cbn [spc_ok] in *; try done.
    + by apply Hw.
    + destruct H5 as (W & ?). split; [by apply Hw|done].
    + destruct H5 as (W & ?). split; [by apply Hw|done].
    + destruct H5 as (W & F & Ho). destruct (Hw x W) as [Hxy W']. split; [done|]. split; [done|].
      destruct o' as [v|]; (split; [apply Ho|]); intros Ex; exfalso; by apply Hxy.
Qed.

Lemma contents_push s v x :
  sinv s → finish_new (s_top s) = node s (t_index (s_top s)) → t_index x = t_index (s_top s) + 1 → t_value x = v →
  contents (s_set_top x s) = v :: contents s.
Proof using.
  intros [H1 _ _ _ _] Hfin Ex <-. unfold contents. cbn [s_set_top s_top]. rewrite Ex.
  rewrite (proj2 (Z.eqb_neq _ _)) by lia. f_equal. change (below (s_set_top x s)) with (below s).
  destruct (Z.eqb_spec (t_index (s_top s)) 0) as [->|E]; [done|].
  replace (t_index (s_top s) + 1 - 1) with (t_index (s_top s) - 1 + 1) by lia. rewrite below_S by lia.
  f_equal. replace (t_index (s_top s) - 1 + 1) with (t_index (s_top s)) by lia. by rewrite <- Hfin.
Qed.

Lemma contents_pop s x :
  sinv s → 0 < t_index (s_top s) → t_index x = t_index (s_top s) - 1 →
  t_value x = n_value (node s (t_index x)) →
  contents s = t_value (s_top s) :: contents (s_set_top x s).
Proof using.
  intros [H1 _ _ _ _] Hpos Ex Ev. unfold contents. cbn [s_set_top s_top].
  rewrite (proj2 (Z.eqb_neq (t_index (s_top s)) _)) by lia. f_equal.
  change (below (s_set_top x s)) with (below s). rewrite <- Ex.
  destruct (Z.eqb_spec (t_index x) 0) as [->|E]; [done|]. rewrite Ev.
  replace (t_index x) with (t_index x - 1 + 1) at 1 2 by lia. by rewrite below_S by lia.
Qed.

Lemma s_top_cas_ok s t o x y spurious :
  sinv s → steps s + 1 < 2 ^ 32 - 1 → spc_ok s (STopCas o x y) → sinv (s_top_cas t o x y spurious s).
Proof using Hsize.
  intros H Hb (W & F & Ho). unfold s_top_cas. destruct (decide (s_top s = x ∧ spurious = false)) as [[Ex _]|Hfail].
  2:{ by apply sinv_goto. }
  subst x. pose proof H as [H1 H2 H3 H4 H5].
  assert (finish_new (s_top s) = node s (t_index (s_top s))) as Hfin.
  { destruct H2 as [|H2]; [done|]. unfold finished in F. lia. }
  assert (∀ i, i ≠ t_index (s_top s) → 0 ≤ n_counter (node s i) ≤ steps s) as Hi.
  { intros i Hne. destruct (H3 i) as [? Hc]. unfold counter_at in Hc. by rewrite (proj2 (Z.eqb_neq _ _)) in Hc. }
  destruct o as [v|]; destruct Ho as [Hlt Ho]; specialize (Ho eq_refl); subst y.
  - pose proof (Hi (t_index (s_top s) + 1) ltac:(lia)).
    assert (push_top s v (s_top s) = mkTop v (t_index (s_top s) + 1) (n_counter (node s (t_index (s_top s) + 1)) + 1)) as ->
      by (unfold push_top; by rewrite !u32_small by (rewrite ?u32_small; lia)).
    apply sinv_move; try done; cbn [t_index t_counter]; try lia.
    cbn [stack_event]. by erewrite contents_push.
  - pose proof (Hi (t_index (s_top s) - 1) ltac:(lia)).
    assert (pop_top s (s_top s) = mkTop (n_value (node s (t_index (s_top s) - 1))) (t_index (s_top s) - 1)
              (n_counter (node s (t_index (s_top s) - 1)) + 1)) as ->
      by (unfold pop_top; by rewrite !u32_small by (rewrite ?u32_small; lia)).
    apply sinv_move; try done; cbn [t_index t_counter]; try lia.
    rewrite (contents_pop s (mkTop (n_value (node s (t_index (s_top s) - 1))) (t_index (s_top s) - 1)
              (n_counter (node s (t_index (s_top s) - 1)) + 1))) by done.
    cbn [stack_event]. by rewrite Z.eqb_refl.
Qed.

(** ** Runs *)

Lemma sstep_ok t a s s' :
  sinv s → steps s' < 2 ^ 32 - 1 → sstep size t a s = Some (Ok s') → sinv s'.
Proof using Hsize.
  intros H Hb. unfold sstep. destruct (s_pc s !! t) as [p|] eqn:Ep; destruct a as [o|sp]; try done.
  2:{ intros [= <-]. by apply sinv_goto. }
  pose proof (si_pc _ H t p Ep) as Hp. intros [= E]. destruct p as [o|o x|o x n|o x|o x y].
  - injection E as <-. by apply s_load_ok.
  - injection E as <-. by apply finish_ok.
  - injection E as <-. apply finish_cas_ok; try done. unfold steps, finish_cas in Hb. by destruct (decide _).
  - destruct (s_next_ok s t o x H Hp) as (s1 & E1 & H1); [congruence|]. congruence.
  - injection E as <-. unfold s_top_cas in *. destruct (decide (s_top s = x ∧ sp = false)) as [Hd|Hd].
    + pose proof (s_top_cas_ok s t o x y sp H) as Hc. unfold s_top_cas in Hc. rewrite decide_True in Hc by done.
      apply Hc; [|done]. unfold steps in *. cbn in Hb. rewrite length_app in Hb. cbn in Hb. lia.
    + by apply sinv_goto.
Qed.

Lemma sstep_steps t a s s' : sstep size t a s = Some (Ok s') → steps s ≤ steps s'.
Proof using.
  unfold sstep, steps. destruct (s_pc s !! t) as [p|]; destruct a as [o|sp]; try done.
  2:{ intros [= <-]. done. }
  intros [= E]. destruct p as [o|o x|o x n|o x|o x y].
  - injection E as <-. unfold s_load. destruct o; [done|]. destruct (_ =? _); [|done]. cbn. rewrite length_app. lia.
  - by injection E as <-.
  - injection E as <-. unfold finish_cas. by destruct (decide _).
  - unfold s_next in E. destruct o; destruct (_ =? _); try done; by injection E as <-.
  - injection E as <-. unfold s_top_cas. destruct (decide _); [|done]. cbn. rewrite length_app. lia.
Qed.

Lemma sruns_steps tr s s' : sruns size tr s = Some (Ok s') → steps s ≤ steps s'.
Proof using.
  revert s. induction tr as [|[t a] tr IH]; intros s; cbn [sruns]; [by intros [= <-]|].
  destruct (sstep size t a s) as [[s1| |]|] eqn:E; try done. intros E1. apply sstep_steps in E.
  apply IH in E1. lia.
Qed.

Lemma sruns_ok tr s s' :
  sinv s → sruns size tr s = Some (Ok s') → steps s' < 2 ^ 32 - 1 → sinv s'.
Proof using Hsize.
  revert s. induction tr as [|[t a] tr IH]; intros s H; cbn [sruns]; [by intros [= <-]|].
  destruct (sstep size t a s) as [[s1| |]|] eqn:E; try done. intros E1 Hb.
  apply (IH s1); try done. apply (sstep_ok t a s); try done. apply sruns_steps in E1. lia.
Qed.

(** The stack was full when the thread whose assertion fails loaded the top. *)
Lemma sstep_fail t a s :
  sinv s → sstep size t a s = Some Fail →
  ∃ log1 log2 l, s_log s = log1 ++ log2 ∧ stack_history log1 [] = Some l ∧ Z.of_nat (length l) = size - 1.
Proof using.
  intros H. unfold sstep. destruct (s_pc s !! t) as [p|] eqn:Ep; destruct a as [o|sp]; try done.
  pose proof (si_pc _ H t p Ep) as Hp. intros [= E]. destruct p as [o|o x|o x n|o x|o x y]; try done.
  unfold s_next in E. destruct o as [v|]; [|by destruct (_ =? _)].
  destruct (Z.eqb_spec (t_index x) (size - 1)) as [Ex|]; [|done].
  destruct Hp as [[_ _ _ (l1 & l2 & l & ? & ? & ?)] _]. exists l1, l2, l. split_and!; try done. lia.
Qed.

End Invariant.

Section Progress.
Context (size : Z).

(** ** Progress: a thread that runs alone finishes, or finds the stack full, within
    nine steps. *)
Definition srank (s : ArrayStack) (t : nat) : nat :=
  match s_pc s !! t with
  | None => 0
  | Some (SLoad _) => 5
  | Some (SFinish _ x) => if decide (s_top s = x) then 4 else 9
  | Some (SFinishCas _ x _) => if decide (s_top s = x) then 3 else 8
  | Some (SNext _ x) => if decide (s_top s = x) then 2 else 7
  | Some (STopCas _ x _) => if decide (s_top s = x) then 1 else 6
  end.

Lemma srank_decreases t s s' p :
  s_pc s !! t = Some p → sstep size t (inr false) s = Some (Ok s') → (srank s' t < srank s t)%nat.
Proof using.
  intros Ep. unfold sstep. rewrite Ep. intros [= E]. unfold srank. rewrite Ep.
  destruct p as [o|o x|o x n|o x|o x y].
  - injection E as <-. unfold s_load. destruct o; [|destruct (_ =? _)]; cbn; rewrite lookup_insert_eq;
      rewrite decide_True by done; lia.
  - injection E as <-. cbn. rewrite lookup_insert_eq. destruct (decide _); lia.
  - injection E as <-. unfold finish_cas. cbn. rewrite lookup_insert_eq.
    destruct (decide (node s (t_index x) = n)); cbn; destruct (decide _); lia.
  - unfold s_next in E. destruct o; destruct (_ =? _); try done; injection E as <-; cbn.
    + rewrite lookup_insert_eq. destruct (decide _); lia.
    + rewrite lookup_delete_eq. destruct (decide _); lia.
    + rewrite lookup_insert_eq. destruct (decide _); lia.
  - injection E as <-. unfold s_top_cas. destruct (decide (s_top s = x ∧ false = false)) as [[Hx _]|Hn]; cbn.
    + rewrite lookup_delete_eq. destruct (decide _); lia.
    + rewrite lookup_insert_eq. destruct (decide _); [naive_solver|lia].
Qed.

Lemma srank_bound s t : (srank s t ≤ 9)%nat.
Proof using. unfold srank. destruct (s_pc s !! t) as [[]|]; try (destruct (decide _)); lia. Qed.

Lemma stack_finishes t k s :
  (srank s t ≤ k)%nat →
  ∃ n r, (n ≤ k)%nat ∧ sruns size (replicate n (t, inr false)) s = Some r ∧
    (r = Fail ∨ ∃ s', r = Ok s' ∧ s_pc s' !! t = None).
Proof using.
  revert s. induction k as [|k IH]; intros s Hk.
  - exists 0%nat, (Ok s). split; [lia|]. split; [done|]. right. exists s. split; [done|]. unfold srank in Hk.
    destruct (s_pc s !! t) as [[]|]; try done; try (destruct (decide _)); lia.
  - destruct (s_pc s !! t) as [p|] eqn:Ep; [|exists 0%nat, (Ok s); split; [lia|]; split; [done|]; eauto].
    destruct (sstep size t (inr false) s) as [[s1| |]|] eqn:E.
    + pose proof (srank_decreases _ _ _ _ Ep E). destruct (IH s1 ltac:(lia)) as (n & r & Hn & Er & Hr).
      exists (S n), r. split; [lia|]. split; [|done]. cbn [replicate sruns]. by rewrite E.
    + exists 1%nat, Fail. split; [lia|]. split; [|by left]. cbn. by rewrite E.
    + exfalso. unfold sstep in E. rewrite Ep in E. injection E as E. destruct p as [| | |o x|]; try done.
      unfold s_next in E. destruct o; by destruct (_ =? _).
    + unfold sstep in E. by rewrite Ep in E.
Qed.
End Progress.
