(* ===== verification/OldArrayQueue.v ===== *)
(** * The array queue (old/ArrayQueue.hpp)

    A bounded queue of words shared by threads, in a circular array. The rear
    element is kept apart and is written into the array by whoever comes next
    ([finish_enqueue]); front and rear carry counters. A thread is between two of
    its accesses to shared memory; the accesses of all threads interleave. The log
    records each operation on an element at its successful compare-and-swap; for a
    pop that returns nothing the length of the log when it loaded the rear is
    recorded, the moment at which the queue was empty. *)

From Stdlib Require Import ZArith Lia.
From stdpp Require Import base gmap numbers list.
From S2P Require Import Prelude.

Local Open Scope Z_scope.
#[local] Set Warnings "-clear-no-such-hyp".

(** [Rear], [Front] and [Node]: 32-bit indices and counters, but for the counter of
    a node, of 64 bits. *)
Record Rear := mkRear { r_value : Z; r_index : Z; r_counter : Z }.
Record Front := mkFront { f_index : Z; f_counter : Z }.
Record Node := mkNode { n_value : Z; n_counter : Z }.

#[export] Instance Rear_eq_dec : EqDecision Rear.
Proof. solve_decision. Defined.
#[export] Instance Front_eq_dec : EqDecision Front.
Proof. solve_decision. Defined.
#[export] Instance Node_eq_dec : EqDecision Node.
Proof. solve_decision. Defined.

Inductive qop := Push (val : Z) | Pop.
Inductive qevent := Pushed (val : Z) | Popped (val : Z).

(** What a thread in [finish_enqueue] does next: a push that has seen a front, a
    pop that has seen a front and, when it loaded the rear, a log of length [n]. *)
Inductive qcont := InPush (val : Z) (old_front : Front) | InPop (old_front : Front) (n : nat).

(** Where a thread is: in the loops that read rear and front; in [finish_enqueue];
    behind it; about to publish the new rear; about to read the front element; about
    to publish the new front. *)
Inductive qpc :=
| PushRear (val : Z)
| PushFront (val : Z) (old_rear : Rear)
| PushCheck (val : Z) (old_rear : Rear) (old_front : Front)
| PopFront
| PopRear (old_front : Front)
| PopCheck (old_front : Front) (old_rear : Rear) (n : nat)
| QFinish (k : qcont) (old_rear : Rear)
| QFinishCas (k : qcont) (old_rear : Rear) (old_node : Node)
| QNext (k : qcont) (old_rear : Rear)
| RearCas (val : Z) (old_rear new_rear : Rear)
| PopRead (old_front : Front)
| FrontCas (old_front : Front) (ret : Z).

Record ArrayQueue := mkAQueue {
  q_rear : Rear;
  q_front : Front;
  q_nodes : gmap Z Node;
  q_pc : gmap nat qpc;
  q_log : list (nat * qevent);
  q_empty : list (nat * nat)
}.

Definition qnode (s : ArrayQueue) (i : Z) : Node := default (mkNode 0 0) (q_nodes s !! i).

(** [_ArrayQueue()]. *)
Definition ArrayQueue_ctor : ArrayQueue := mkAQueue (mkRear 0 0 0) (mkFront 1 0) ∅ ∅ [] [].

Definition q_goto (t : nat) (p : qpc) (s : ArrayQueue) : ArrayQueue :=
  mkAQueue (q_rear s) (q_front s) (q_nodes s) (<[t := p]> (q_pc s)) (q_log s) (q_empty s).
Definition q_done (t : nat) (s : ArrayQueue) : ArrayQueue :=
  mkAQueue (q_rear s) (q_front s) (q_nodes s) (delete t (q_pc s)) (q_log s) (q_empty s).
Definition q_event (t : nat) (e : qevent) (s : ArrayQueue) : ArrayQueue :=
  mkAQueue (q_rear s) (q_front s) (q_nodes s) (q_pc s) (q_log s ++ [(t, e)]) (q_empty s).
Definition q_none (t n : nat) (s : ArrayQueue) : ArrayQueue :=
  mkAQueue (q_rear s) (q_front s) (q_nodes s) (q_pc s) (q_log s) (q_empty s ++ [(t, n)]).
Definition q_set_rear (x : Rear) (s : ArrayQueue) : ArrayQueue :=
  mkAQueue x (q_front s) (q_nodes s) (q_pc s) (q_log s) (q_empty s).
Definition q_set_front (x : Front) (s : ArrayQueue) : ArrayQueue :=
  mkAQueue (q_rear s) x (q_nodes s) (q_pc s) (q_log s) (q_empty s).
Definition q_set_node (i : Z) (n : Node) (s : ArrayQueue) : ArrayQueue :=
  mkAQueue (q_rear s) (q_front s) (<[i := n]> (q_nodes s)) (q_pc s) (q_log s) (q_empty s).

(** [finish_enqueue]: the nodes expected and written. *)
Definition finish_enqueue_old (s : ArrayQueue) (x : Rear) : Node :=
  mkNode (n_value (qnode s (r_index x))) (u32 (r_counter x - 1)).
Definition finish_enqueue_new (x : Rear) : Node := mkNode (r_value x) (r_counter x).
Definition finish_enqueue_cas (t : nat) (k : qcont) (x : Rear) (old_node : Node) (s : ArrayQueue) : ArrayQueue :=
  let s' := if decide (qnode s (r_index x) = old_node)
            then q_set_node (r_index x) (finish_enqueue_new x) s else s in
  q_goto t (QNext k x) s'.

Section Steps.
Context (size : Z).

Definition new_rear (s : ArrayQueue) (val : Z) (x : Rear) : Rear :=
  let i := u32 (r_index x + 1) mod size in mkRear val i (u32 (n_counter (qnode s i) + 1)).
Definition new_front (x : Front) : Front :=
  mkFront (u32 (f_index x + 1) mod size) (u32 (f_counter x + 1)).

(** The end of the loop that reads front and rear in [pop]. *)
Definition pop_check (t : nat) (f : Front) (x : Rear) (n : nat) (s : ArrayQueue) : ArrayQueue :=
  if decide (f = q_front s) then
    if f_index f =? r_index x then q_goto t (QFinish (InPop f n) x) s else q_goto t (QNext (InPop f n) x) s
  else q_goto t PopFront s.

(** Behind [finish_enqueue]: the queue may be full, or empty. *)
Definition q_next (t : nat) (k : qcont) (x : Rear) (s : ArrayQueue) : outcome ArrayQueue :=
  match k with
  | InPush val f =>
      if f_index f =? u32 (r_index x + 2) mod size then Fail
      else Ok (q_goto t (RearCas val x (new_rear s val x)) s)
  | InPop f n =>
      if f_index f =? u32 (r_index x + 1) mod size then Ok (q_none t n (q_done t s))
      else Ok (q_goto t (PopRead f) s)
  end.

(** [rear.compare_exchange_weak] and [front.compare_exchange_strong]. *)
Definition rear_cas (t : nat) (val : Z) (x y : Rear) (spurious : bool) (s : ArrayQueue) : ArrayQueue :=
  if decide (q_rear s = x ∧ spurious = false) then q_event t (Pushed val) (q_done t (q_set_rear y s))
  else q_goto t (PushRear val) s.
Definition front_cas (t : nat) (f : Front) (ret : Z) (s : ArrayQueue) : ArrayQueue :=
  if decide (q_front s = f) then q_event t (Popped ret) (q_done t (q_set_front (new_front f) s))
  else q_goto t PopFront s.

(** A thread starts an operation ([inl]) or makes its next step ([inr]). *)
Definition qstep (t : nat) (a : qop + bool) (s : ArrayQueue) : option (outcome ArrayQueue) :=
  match q_pc s !! t, a with
  | None, inl (Push val) => Some (Ok (q_goto t (PushRear val) s))
  | None, inl Pop => Some (Ok (q_goto t PopFront s))
  | Some p, inr spurious =>
      Some match p with
      | PushRear val => Ok (q_goto t (PushFront val (q_rear s)) s)
      | PushFront val x => Ok (q_goto t (PushCheck val x (q_front s)) s)
      | PushCheck val x f =>
          if decide (x = q_rear s) then Ok (q_goto t (QFinish (InPush val f) x) s)
          else Ok (q_goto t (PushRear val) s)
      | PopFront => Ok (q_goto t (PopRear (q_front s)) s)
      | PopRear f => Ok (q_goto t (PopCheck f (q_rear s) (length (q_log s))) s)
      | PopCheck f x n => Ok (pop_check t f x n s)
      | QFinish k x => Ok (q_goto t (QFinishCas k x (finish_enqueue_old s x)) s)
      | QFinishCas k x n => Ok (finish_enqueue_cas t k x n s)
      | QNext k x => q_next t k x s
      | RearCas val x y => Ok (rear_cas t val x y spurious s)
      | PopRead f => Ok (q_goto t (FrontCas f (n_value (qnode s (f_index f mod size)))) s)
      | FrontCas f ret => Ok (front_cas t f ret s)
      end
  | _, _ => None
  end.

Fixpoint qruns (tr : list (nat * (qop + bool))) (s : ArrayQueue) : option (outcome ArrayQueue) :=
  match tr with
  | [] => Some (Ok s)
  | (t, a) :: tr' => match qstep t a s with Some (Ok s') => qruns tr' s' | r => r end
  end.
End Steps.

(** ** The sequential queue *)

Definition queue_event (e : qevent) (l : list Z) : option (list Z) :=
  match e, l with
  | Pushed v, _ => Some (l ++ [v])
  | Popped v, x :: l' => if x =? v then Some l' else None
  | _, _ => None
  end.

Fixpoint queue_history (log : list (nat * qevent)) (l : list Z) : option (list Z) :=
  match log with
  | [] => Some l
  | (_, e) :: log' => match queue_event e l with Some l' => queue_history log' l' | None => None end
  end.

Lemma queue_history_snoc log t e l l' :
  queue_history log l = Some l' → queue_history (log ++ [(t, e)]) l = queue_event e l'.
Proof.
  revert l. induction log as [|[u x] log IH]; intros l; cbn [app queue_history].
  - intros [= ->]. by destruct (queue_event e l').
  - destruct (queue_event x l); [apply IH|done].
Qed.

(** ** Positions

    The [p]-th element pushed is at index [p mod size] with the counter that says
    how often the index has been used; index 0 starts used. *)
Section Positions.
Context (size : Z) (Hsize : 2 ≤ size ≤ 2 ^ 31).

Definition counter_of (p : Z) : Z := (p + size - 1) / size.
Definition value_of (vals : list Z) (p : Z) : Z :=
  if 1 <=? p then default 0 (vals !! Z.to_nat (p - 1)) else 0.
Definition node_of (vals : list Z) (p : Z) : Node := mkNode (value_of vals p) (counter_of p).
Definition rear_of (vals : list Z) (p : Z) : Rear := mkRear (value_of vals p) (p mod size) (counter_of p).
Definition front_of (p : Z) : Front := mkFront (p mod size) (p - 1).

(** The position whose element the array has at index [i], when [r] was the last one
    pushed and is written to the array ([fin]) or not. *)
Definition held_at (r : Z) (fin : bool) (i : Z) : Z :=
  if (i =? r mod size) && negb fin then r - size else r - (r - i) mod size.

Lemma counter_of_back p : counter_of (p - size) = counter_of p - 1.
Proof using Hsize.
  unfold counter_of. replace (p - size + size - 1) with (p + size - 1 + (-1) * size) by lia.
  rewrite Z.div_add by lia. lia.
Qed.

Lemma counter_of_range p : 0 ≤ p → 0 ≤ counter_of p ≤ p.
Proof using Hsize.
  intros Hp. unfold counter_of. split; [apply Z.div_pos; lia|]. destruct (decide (p = 0)) as [->|].
  - by rewrite Z.div_small by lia.
  - apply Z.div_le_upper_bound; nia.
Qed.

(** Index and counter determine the position. *)
Lemma position_inj p q : p mod size = q mod size → counter_of p = counter_of q → p = q.
Proof using Hsize.
  intros Em Ec. unfold counter_of in Ec.
  pose proof (Z.div_mod (p + size - 1) size ltac:(lia)) as Hp.
  pose proof (Z.div_mod (q + size - 1) size ltac:(lia)) as Hq.
  assert ((p + size - 1) mod size = (q + size - 1) mod size) as E.
  { replace (p + size - 1) with (p + (size - 1)) by lia. replace (q + size - 1) with (q + (size - 1)) by lia.
    rewrite (Z.add_mod p), (Z.add_mod q) by lia. by rewrite Em. }
  rewrite E, Ec in Hp. lia.
Qed.

(** Two positions less than [size] apart have different indices. *)
Lemma window_inj p q : p mod size = q mod size → - size < p - q < size → p = q.
Proof using Hsize.
  intros E H. assert ((p - q) mod size = 0) as E0
    by (rewrite Zminus_mod, E, Z.sub_diag; apply Z.mod_0_l; lia).
  apply Z.mod_divide in E0 as [k Hk]; [|lia]. assert (k = 0) by nia. nia.
Qed.

Lemma mod_back r i : 0 ≤ i < size → (r - (r - i) mod size) mod size = i.
Proof using Hsize.
  intros Hi. rewrite Zminus_mod, Z.mod_mod, <- Zminus_mod by lia. replace (r - (r - i)) with i by lia.
  by apply Z.mod_small.
Qed.

Lemma held_at_mod r fin i : 0 ≤ i < size → held_at r fin i mod size = i.
Proof using Hsize.
  intros Hi. unfold held_at. destruct (Z.eqb_spec i (r mod size)) as [Ei|]; [destruct fin|]; cbn [andb negb];
    try by apply mod_back.
  rewrite Ei. replace (r - size) with (r + (-1) * size) by lia. by rewrite Z.mod_add by lia.
Qed.

Lemma held_at_range r fin i : 0 ≤ i < size → r - size ≤ held_at r fin i ≤ r.
Proof using Hsize.
  intros Hi. unfold held_at. pose proof (Z.mod_pos_bound (r - i) size ltac:(lia)).
  destruct (_ && _); lia.
Qed.

(** The last position at an index, when it is not the one that may be missing. *)
Lemma held_at_eq r fin p :
  r - size < p ≤ r → p < r ∨ fin = true → held_at r fin (p mod size) = p.
Proof using Hsize.
  intros Hp Hf. pose proof (Z.mod_pos_bound p size ltac:(lia)) as Hb.
  apply window_inj; [by apply held_at_mod|].
  pose proof (held_at_range r fin (p mod size) Hb).
  destruct (decide (held_at r fin (p mod size) = r - size)) as [E|]; [|lia].
  unfold held_at in E. pose proof (Z.mod_pos_bound (r - p mod size) size ltac:(lia)).
  destruct (Z.eqb_spec (p mod size) (r mod size)) as [Em|]; cbn [andb] in E; [|lia].
  destruct fin; cbn [negb] in E; [lia|]. apply window_inj in Em; lia.
Qed.

Lemma held_at_missing r : held_at r false (r mod size) = r - size.
Proof using. unfold held_at. by rewrite Z.eqb_refl. Qed.

(** The next position is pushed. *)
Lemma held_at_push r i : 0 ≤ i < size → held_at (r + 1) false i = held_at r true i.
Proof using Hsize.
  intros Hi. destruct (decide (i = (r + 1) mod size)) as [->|Hne].
  - rewrite held_at_missing. symmetry. replace ((r + 1) mod size) with ((r + 1 - size) mod size).
    + replace (r + 1 - size) with (r - size + 1) by lia. apply held_at_eq; [lia|by right].
    + replace (r + 1 - size) with (r + 1 + (-1) * size) by lia. by rewrite Z.mod_add by lia.
  - unfold held_at at 1. rewrite (proj2 (Z.eqb_neq _ _)) by done. cbn [andb].
    symmetry. set (p := r + 1 - (r + 1 - i) mod size).
    assert (p mod size = i) as Ep.
    { by apply mod_back. }
    pose proof (Z.mod_pos_bound (r + 1 - i) size ltac:(lia)).
    rewrite <- Ep at 1. apply held_at_eq; [|by right].
    assert ((r + 1 - i) mod size ≠ 0); [|lia]. intros E0. apply Hne. unfold p in Ep. rewrite E0, Z.sub_0_r in Ep. done.
Qed.

Lemma held_at_fin r i : 0 ≤ i < size → i ≠ r mod size → held_at r true i = held_at r false i.
Proof using. intros Hi Hne. unfold held_at. by rewrite (proj2 (Z.eqb_neq _ _)). Qed.

Lemma succ_index p : (p mod size + 1) mod size = (p + 1) mod size.
Proof using Hsize. by rewrite Z.add_mod_idemp_l by lia. Qed.

Lemma u32_index p k : 0 ≤ k ≤ 2 → u32 (p mod size + k) mod size = (p + k) mod size.
Proof using Hsize.
  intros Hk. pose proof (Z.mod_pos_bound p size ltac:(lia)). rewrite u32_small by lia.
  by rewrite Z.add_mod_idemp_l by lia.
Qed.

Lemma value_of_app vals v p : p ≤ Z.of_nat (length vals) → value_of (vals ++ [v]) p = value_of vals p.
Proof using.
  intros Hp. unfold value_of. destruct (Z.leb_spec 1 p); [|done]. rewrite lookup_app_l by lia. done.
Qed.

Lemma value_of_last vals v : value_of (vals ++ [v]) (Z.of_nat (length vals) + 1) = v.
Proof using.
  unfold value_of. rewrite (proj2 (Z.leb_le _ _)) by lia.
  replace (Z.to_nat (Z.of_nat (length vals) + 1 - 1)) with (length vals) by lia. by rewrite list_lookup_middle.
Qed.
End Positions.

(** ** The invariant

    What there is to know about the queue: the values pushed so far, the position of
    the front, whether the rear element is written to the array, and the log. *)
Record known := mkKnown { k_vals : list Z; k_front : Z; k_fin : bool; k_log : list (nat * qevent) }.

Definition k_rear (K : known) : Z := Z.of_nat (length (k_vals K)).

(** It only grows. *)
Record grows (K K' : known) : Prop := {
  gr_vals : ∃ l, k_vals K' = k_vals K ++ l;
  gr_front : k_front K ≤ k_front K';
  gr_log : ∃ l, k_log K' = k_log K ++ l;
  gr_fin : k_rear K' = k_rear K → k_fin K = true → k_fin K' = true
}.

Section Invariant.
Context (size : Z) (Hsize : 2 ≤ size ≤ 2 ^ 31).

Definition rear_at (K : known) (p : Z) (x : Rear) : Prop :=
  0 ≤ p ≤ k_rear K ∧ x = rear_of size (k_vals K) p.
Definition front_at (K : known) (g : Z) (y : Front) : Prop := 1 ≤ g ≤ k_front K ∧ y = front_of size g.
Definition fin_at (K : known) (p : Z) : Prop := p < k_rear K ∨ k_fin K = true.
(** After [n] logged operations there were [k] elements. *)
Definition had (K : known) (n : nat) (k : Z) : Prop :=
  (n ≤ length (k_log K))%nat ∧ ∃ l, queue_history (take n (k_log K)) [] = Some l ∧ Z.of_nat (length l) = k.
(** At most [size - 1] elements from front [g] to rear [p]. *)
Definition window (p g : Z) : Prop := 1 ≤ g ≤ p + 1 ∧ p - g + 1 ≤ size - 1.

Definition cont_ok (K : known) (k : qcont) (p : Z) : Prop :=
  match k with
  | InPush _ y => ∃ g n, front_at K g y ∧ window p g ∧ had K n (p - g + 1)
  | InPop y n => ∃ g, front_at K g y ∧ window p g ∧ (p + 1 = g → had K n 0)
  end.

Definition qpc_ok (K : known) (c : qpc) : Prop :=
  match c with
  | PushRear _ | PopFront => True
  | PushFront _ x => ∃ p, rear_at K p x
  | PushCheck _ x y => ∃ p g n, rear_at K p x ∧ front_at K g y ∧ (p = k_rear K → window p g ∧ had K n (p - g + 1))
  | PopRear y => ∃ g, front_at K g y
  | PopCheck y x n => ∃ p g, rear_at K p x ∧ front_at K g y ∧
      (g = k_front K → window p g ∧ (p + 1 = g → had K n 0))
  | QFinish k x => ∃ p, rear_at K p x ∧ cont_ok K k p
  | QFinishCas k x n => ∃ p, rear_at K p x ∧ cont_ok K k p ∧ n_counter n = u32 (counter_of size p - 1) ∧
      (¬ fin_at K p → n_value n = value_of (k_vals K) (p - size))
  | QNext k x => ∃ p, rear_at K p x ∧ cont_ok K k p ∧
      match k with InPush _ _ => fin_at K p | InPop y _ => f_index y = p mod size → fin_at K p end
  | RearCas v x z => ∃ p g, rear_at K p x ∧ fin_at K p ∧ 1 ≤ g ≤ k_front K ∧ p - g + 1 ≤ size - 2 ∧
      (p = k_rear K → z = mkRear v ((p + 1) mod size) (counter_of size (p + 1)))
  | PopRead y => ∃ g, front_at K g y ∧ g ≤ k_rear K ∧ fin_at K g
  | FrontCas y v => ∃ g, front_at K g y ∧ g ≤ k_rear K ∧ (g = k_front K → v = value_of (k_vals K) g)
  end.

Record qinv (s : ArrayQueue) (K : known) : Prop := {
  qi_log : q_log s = k_log K;
  qi_rear : q_rear s = rear_of size (k_vals K) (k_rear K);
  qi_front : q_front s = front_of size (k_front K);
  qi_window : window (k_rear K) (k_front K);
  qi_fin : k_fin K = false → 1 ≤ k_rear K;
  qi_count : k_rear K ≤ Z.of_nat (length (k_log K));
  qi_nodes : ∀ i, 0 ≤ i < size → qnode s i = node_of size (k_vals K) (held_at size (k_rear K) (k_fin K) i);
  qi_history : queue_history (k_log K) [] = Some (drop (Z.to_nat (k_front K - 1)) (k_vals K));
  qi_empty : ∀ t n, (t, n) ∈ q_empty s → had K n 0;
  qi_pc : ∀ t c, q_pc s !! t = Some c → qpc_ok K c
}.

(** *** What a thread knows stays true *)

Lemma grows_refl K : grows K K.
Proof using. constructor; try done; exists []; by rewrite app_nil_r. Qed.

Section Grows.
Context (K K' : known) (HK : grows K K').

Lemma grows_rear : k_rear K ≤ k_rear K'.
Proof using HK. destruct HK as [[l E] _ _ _]. unfold k_rear. rewrite E, length_app. lia. Qed.

Lemma grows_value p : p ≤ k_rear K → value_of (k_vals K') p = value_of (k_vals K) p.
Proof using HK Hsize.
  intros Hp. destruct HK as [[l E] _ _ _]. unfold value_of, k_rear in *. rewrite E.
  destruct (Z.leb_spec 1 p); [|done]. by rewrite lookup_app_l by lia.
Qed.

Lemma grows_rear_at p x : rear_at K p x → rear_at K' p x.
Proof using HK Hsize.
  pose proof grows_rear. intros [Hp ->]. split; [lia|]. unfold rear_of. by rewrite grows_value by lia.
Qed.

Lemma grows_front_at g y : front_at K g y → front_at K' g y.
Proof using HK. destruct HK as [_ ? _ _]. intros [Hg ->]. split; [lia|done]. Qed.

Lemma grows_fin_at p : p ≤ k_rear K → fin_at K p → fin_at K' p.
Proof using HK Hsize.
  pose proof grows_rear. destruct HK as [_ _ _ Hf]. intros Hp [?|Hfin]; [left; lia|].
  destruct (decide (k_rear K' = k_rear K)) as [E|E]; [right; auto|left; lia].
Qed.

Lemma grows_had n k : had K n k → had K' n k.
Proof using HK.
  destruct HK as [_ _ [l E] _]. intros [Hn He]. split; [rewrite E, length_app; lia|].
  by rewrite E, take_app_le by done.
Qed.

Lemma grows_cont_ok k p : cont_ok K k p → cont_ok K' k p.
Proof using HK Hsize.
  destruct k as [v y|y n]; cbn.
  - intros (g & n & Hg & Hw & Hh). exists g, n. split; [by apply grows_front_at|].
    split; [done|by apply grows_had].
  - intros (g & Hg & Hw & He). exists g. split; [by apply grows_front_at|]. split; [done|].
    intros E. by apply grows_had, He.
Qed.

Lemma grows_qpc_ok c : qpc_ok K c → qpc_ok K' c.
Proof using HK Hsize.
  pose proof grows_rear as Hr. pose proof (gr_front _ _ HK) as Hf.
  destruct c as [v|v x|v x y| |y|y x n|k x|k x n|k x|v x z|y|y v]; cbn [qpc_ok]; try done.
  - intros (p & H). exists p. by apply grows_rear_at.
  - intros (p & g & n & H1 & H2 & H3). exists p, g, n. split; [by apply grows_rear_at|].
    split; [by apply grows_front_at|]. destruct H1. intros E. destruct H3; [lia|]. split; [done|by apply grows_had].
  - intros (g & H). exists g. by apply grows_front_at.
  - intros (p & g & H1 & H2 & H3). exists p, g. split; [by apply grows_rear_at|].
    split; [by apply grows_front_at|]. destruct H2. intros E. destruct H3 as [? H3]; [lia|]. split; [done|].
    intros E'. by apply grows_had, H3.
  - intros (p & H1 & H2). exists p. split; [by apply grows_rear_at|by apply grows_cont_ok].
  - intros (p & H1 & H2 & H3 & H4). exists p. split; [by apply grows_rear_at|].
    split; [by apply grows_cont_ok|]. split; [done|]. destruct H1. intros Hn. rewrite grows_value by lia.
    apply H4. intros Hfin. apply Hn, grows_fin_at; [lia|done].
  - intros (p & H1 & H2 & H3). exists p. split; [by apply grows_rear_at|].
    split; [by apply grows_cont_ok|]. destruct H1. destruct k; [by apply grows_fin_at; [lia|]|].
    intros E. apply grows_fin_at; [lia|by apply H3].
  - intros (p & g & H1 & H2 & H3 & H4 & H5). exists p, g. split; [by apply grows_rear_at|]. destruct H1.
    split; [by apply grows_fin_at; [lia|]|]. split; [lia|]. split; [done|]. intros E. apply H5. lia.
  - intros (g & H1 & H2 & H3). exists g. split; [by apply grows_front_at|]. split; [lia|].
    by apply grows_fin_at.
  - intros (g & H1 & H2 & H3). exists g. split; [by apply grows_front_at|]. split; [lia|].
    destruct H1. intros E. rewrite grows_value by lia. apply H3. lia.
Qed.
End Grows.

(** Steps that change only where a thread is. *)
Lemma qinv_goto s K t c : qinv s K → qpc_ok K c → qinv (q_goto t c s) K.
Proof using.
  intros [H1 H2 H3 H4 H9 HC H5 H6 H7 H8] Hc. constructor; try done. cbn. intros u c' Hu.
  apply lookup_insert_Some in Hu as [[<- <-]|[_ Hu]]; [done|by apply (H8 u)].
Qed.

Definition known0 : known := mkKnown [] 1 true [].

Lemma ArrayQueue_ctor_inv : qinv ArrayQueue_ctor known0.
Proof using Hsize.
  constructor; try done.
  - unfold rear_of, counter_of, known0, k_rear. cbn -[Z.div Z.modulo]. rewrite Z.mod_small, Z.div_small by lia. done.
  - unfold front_of. cbn -[Z.modulo]. by rewrite Z.mod_small by lia.
  - split; cbn [k_front known0]; change (k_rear known0) with 0; lia.
  - intros i Hi. change (qnode ArrayQueue_ctor i) with (mkNode 0 0). change (k_rear known0) with 0.
    change (k_fin known0) with true. assert (- size < held_at size 0 true i ≤ 0) as Hh.
    { unfold held_at. destruct (_ =? _); cbn [andb negb];
        pose proof (Z.mod_pos_bound (0 - i) size ltac:(lia)); lia. }
    unfold node_of, value_of, counter_of. rewrite (proj2 (Z.leb_gt _ _)) by lia. by rewrite Z.div_small by lia.
  - cbn. intros t n ?%elem_of_nil. done.
Qed.

(** *** Loading *)

Lemma rear_now s K : qinv s K → rear_at K (k_rear K) (q_rear s).
Proof using. intros H. split; [unfold k_rear; lia|apply H]. Qed.

Lemma front_now s K : qinv s K → front_at K (k_front K) (q_front s).
Proof using. intros H. destruct (qi_window _ _ H) as [? _]. split; [lia|apply H]. Qed.

(** The rear and the front a thread has seen are the present ones exactly when
    their positions are. *)
Lemma rear_same s K p x : qinv s K → rear_at K p x → x = q_rear s ↔ p = k_rear K.
Proof using Hsize.
  intros H [Hp ->]. rewrite (qi_rear _ _ H). unfold rear_of. split; [|by intros ->].
  intros [= _ E1 E2]. by apply (position_inj size).
Qed.

Lemma front_same s K g y : qinv s K → front_at K g y → y = q_front s ↔ g = k_front K.
Proof using.
  intros H [Hg ->]. rewrite (qi_front _ _ H). unfold front_of. split; [|by intros ->]. intros [= _ E]. lia.
Qed.

(** The number of elements, from the positions of front and rear. *)
Lemma had_now s K : qinv s K → had K (length (q_log s)) (k_rear K - k_front K + 1).
Proof using.
  intros H. rewrite (qi_log _ _ H). split; [done|]. rewrite take_ge by lia. eexists. split; [apply H|].
  destruct (qi_window _ _ H). rewrite length_drop. unfold k_rear in *. lia.
Qed.

(** The node a thread finds at the index of a position. *)
Lemma node_at s K p : qinv s K → qnode s (p mod size) = node_of size (k_vals K) (held_at size (k_rear K) (k_fin K) (p mod size)).
Proof using Hsize. intros H. apply H. apply Z.mod_pos_bound. lia. Qed.

Lemma node_unfinished s K p :
  qinv s K → 0 ≤ p ≤ k_rear K → ¬ fin_at K p →
  p = k_rear K ∧ k_fin K = false ∧ qnode s (p mod size) = node_of size (k_vals K) (p - size).
Proof using Hsize.
  intros H Hp Hn. assert (p = k_rear K) as -> by (destruct (decide (p = k_rear K)); [done|]; exfalso; apply Hn; left; lia).
  destruct (k_fin K) eqn:Ef; [by exfalso; apply Hn; right|]. split; [done|]. split; [done|].
  rewrite (node_at s K) by done. rewrite Ef. by rewrite held_at_missing.
Qed.

Lemma qfinish_ok s K t k x p :
  qinv s K → rear_at K p x → cont_ok K k p → qinv (q_goto t (QFinishCas k x (finish_enqueue_old s x)) s) K.
Proof using Hsize.
  intros H Hx Hk. apply qinv_goto; [done|]. exists p. split; [done|]. split; [done|].
  destruct Hx as [Hp ->]. split; [done|]. intros Hn. cbn [finish_enqueue_old n_value rear_of r_index].
  destruct (node_unfinished s K p H Hp Hn) as (_ & _ & ->). done.
Qed.

(** *** Writing the rear to the array *)

Definition fin_known (K : known) : known := mkKnown (k_vals K) (k_front K) true (k_log K).

Lemma grows_fin K : grows K (fin_known K).
Proof using. constructor; try done; exists []; by rewrite app_nil_r. Qed.

Lemma qinv_finish s K :
  qinv s K → k_fin K = false →
  qinv (q_set_node (k_rear K mod size) (finish_enqueue_new (rear_of size (k_vals K) (k_rear K))) s) (fin_known K).
Proof using Hsize.
  intros [H1 H2 H3 H4 H9 HC H5 H6 H7 H8] Hf. constructor; try done.
  - intros i Hi. change (k_rear (fin_known K)) with (k_rear K). change (k_fin (fin_known K)) with true.
    change (k_vals (fin_known K)) with (k_vals K). unfold qnode. cbn [q_nodes q_set_node].
    destruct (decide (i = k_rear K mod size)) as [->|Hne].
    + rewrite lookup_insert_eq. cbn [default]. rewrite held_at_eq by (done || lia || by right). done.
    + rewrite lookup_insert_ne by done. fold (qnode s i). rewrite H5, Hf by done. by rewrite held_at_fin.
  - intros t c Hc. apply (grows_qpc_ok K), (H8 t c Hc). apply grows_fin.
Qed.

Lemma qfinish_cas_ok s K t k x n :
  qinv s K → k_rear K < 2 ^ 32 - 1 → qpc_ok K (QFinishCas k x n) →
  ∃ K', grows K K' ∧ k_vals K' = k_vals K ∧ k_front K' = k_front K ∧ k_log K' = k_log K ∧
    qinv (finish_enqueue_cas t k x n s) K'.
Proof using Hsize.
  intros H Hb (p & Hx & Hk & En & Hv). pose proof Hx as [Hp Ex].
  pose proof (counter_of_range size Hsize p ltac:(lia)) as Hcp.
  unfold finish_enqueue_cas. assert (r_index x = p mod size) as -> by (by rewrite Ex).
  destruct (decide (qnode s (p mod size) = n)) as [E|E].
  - assert (¬ fin_at K p) as Hnf.
    { intros Hfin. rewrite (node_at s K p H) in E. pose proof (f_equal n_counter E) as Ec. rewrite En in Ec.
      set (q := held_at _ _ _ _) in Ec. cbn [n_counter node_of] in Ec.
      pose proof (Z.mod_pos_bound p size ltac:(lia)) as Hm.
      pose proof (held_at_range size Hsize (k_rear K) (k_fin K) (p mod size) Hm) as Hq. fold q in Hq.
      assert (q mod size = p mod size) as Eq by (by apply held_at_mod).
      destruct (decide (counter_of size p = 0)) as [E0|E0].
      - rewrite E0 in Ec. change (u32 (0 - 1)) with (2 ^ 32 - 1) in Ec.
        assert (counter_of size q ≤ k_rear K); [|lia]. unfold counter_of.
        destruct (decide (q ≤ 0)); [|apply Z.div_le_upper_bound; nia].
        assert ((q + size - 1) / size ≤ 0); [|lia]. rewrite <- (Z.div_small (size - 1) size) by lia.
        apply Z.div_le_mono; lia.
      - rewrite u32_small in Ec by lia. rewrite <- (counter_of_back size Hsize) in Ec.
        apply (position_inj size Hsize) in Ec.
        2:{ rewrite Eq. replace (p - size) with (p + (-1) * size) by lia. by rewrite Z.mod_add by lia. }
        destruct (decide (p = k_rear K)) as [->|].
        + destruct Hfin as [|Hfin]; [lia|]. unfold q in Ec. rewrite held_at_eq in Ec; try lia. by right.
        + lia. }
    destruct (node_unfinished s K p H Hp Hnf) as (-> & Hff & _). exists (fin_known K).
    split; [apply grows_fin|]. split; [done|]. split; [done|]. split; [done|].
    apply qinv_goto; [rewrite Ex; by apply qinv_finish|]. exists (k_rear K). split.
    { by apply (grows_rear_at K); [apply grows_fin|]. }
    split; [by apply (grows_cont_ok K); [apply grows_fin|]|]. destruct k; [by right|]. intros _. by right.
  - exists K. split; [apply grows_refl|]. split; [done|]. split; [done|]. split; [done|].
    apply qinv_goto; [done|]. exists p. split; [done|]. split; [done|].
    assert (fin_at K p) as Hfin.
    { destruct (decide (p < k_rear K)) as [|Hlt]; [by left|]. right. destruct (k_fin K) eqn:Ef; [done|]. exfalso.
      assert (¬ fin_at K p) as Hnf by (intros [|]; [done|congruence]).
      destruct (node_unfinished s K p H Hp Hnf) as (_ & _ & Enode). apply E. rewrite Enode.
      destruct n as [v c]. cbn in En, Hv. unfold node_of. rewrite (Hv Hnf), En, (counter_of_back size Hsize). f_equal.
      destruct (decide (counter_of size p = 0)) as [E0|]; [|by rewrite u32_small by lia]. exfalso.
      assert (p = 0) as ->.
      { unfold counter_of in E0. destruct (decide (p = 0)); [done|].
        assert (1 ≤ (p + size - 1) / size) by (apply Z.div_le_lower_bound; lia). lia. }
      pose proof (qi_fin _ _ H Ef). lia. }
    by destruct k.
Qed.

(** *** The loops that read front and rear *)

Lemma push_front_ok s K t v x :
  qinv s K → qpc_ok K (PushFront v x) → qinv (q_goto t (PushCheck v x (q_front s)) s) K.
Proof using.
  intros H (p & Hp). apply qinv_goto; [done|]. exists p, (k_front K), (length (q_log s)).
  split; [done|]. split; [by apply front_now|]. intros ->. split; [apply H|by apply had_now].
Qed.

Lemma push_check_ok s K t v x y :
  qinv s K → qpc_ok K (PushCheck v x y) →
  qinv (if decide (x = q_rear s) then q_goto t (QFinish (InPush v y) x) s else q_goto t (PushRear v) s) K.
Proof using Hsize.
  intros H (p & g & n & Hp & Hg & Hw). destruct (decide _) as [E|]; [|by apply qinv_goto].
  apply (rear_same s K p x H Hp) in E. apply qinv_goto; [done|]. exists p. split; [done|].
  destruct (Hw E). by exists g, n.
Qed.

Lemma pop_rear_ok s K t y :
  qinv s K → qpc_ok K (PopRear y) → qinv (q_goto t (PopCheck y (q_rear s) (length (q_log s))) s) K.
Proof using.
  intros H (g & Hg). apply qinv_goto; [done|]. exists (k_rear K), g. split; [by apply rear_now|].
  split; [done|]. intros ->. split; [apply H|]. intros E. pose proof (had_now s K H) as Hh.
  by replace (k_rear K - k_front K + 1) with 0 in Hh by lia.
Qed.

Lemma pop_check_ok s K t y x n :
  qinv s K → qpc_ok K (PopCheck y x n) → qinv (pop_check t y x n s) K.
Proof using.
  intros H (p & g & Hp & Hg & Hw). unfold pop_check. destruct (decide _) as [E|]; [|by apply qinv_goto].
  apply (front_same s K g y H Hg) in E. destruct (Hw E) as [Hwin Hemp].
  destruct (Z.eqb_spec (f_index y) (r_index x)) as [Ei|Ei]; (apply qinv_goto; [done|]).
  - exists p. split; [done|]. by exists g.
  - exists p. split; [done|]. split; [by exists g|]. intros E'. exfalso. apply Ei. by destruct Hp as [_ ->].
Qed.

(** *** Behind [finish_enqueue] *)

Lemma qinv_none s K t n : qinv s K → had K n 0 → qinv (q_none t n (q_done t s)) K.
Proof using.
  intros [H1 H2 H3 H4 H9 HC H5 H6 H7 H8] Hn. constructor; try done.
  - cbn. intros u m [Hm|Hm]%elem_of_app; [by apply (H7 u)|]. apply list_elem_of_singleton in Hm. by injection Hm as -> ->.
  - cbn. intros u c [_ Hu]%lookup_delete_Some. by apply (H8 u).
Qed.

(** The node behind the rear. *)
Lemma new_rear_eq s K v x :
  qinv s K → k_rear K < 2 ^ 32 - 1 → k_fin K = true → rear_at K (k_rear K) x →
  new_rear size s v x = mkRear v ((k_rear K + 1) mod size) (counter_of size (k_rear K + 1)).
Proof using Hsize.
  intros H Hb Hf [Hp ->]. unfold new_rear. cbn [r_index rear_of]. rewrite (u32_index size Hsize) by lia. f_equal.
  rewrite (node_at s K (k_rear K + 1)) by done. rewrite Hf. rewrite <- (held_at_push size Hsize), held_at_missing
    by (apply Z.mod_pos_bound; lia).
  cbn [n_counter node_of]. rewrite (counter_of_back size Hsize).
  pose proof (counter_of_range size Hsize (k_rear K + 1) ltac:(lia)). rewrite u32_small by lia. lia.
Qed.

Lemma q_next_ok s K t k x :
  qinv s K → k_rear K < 2 ^ 32 - 1 → qpc_ok K (QNext k x) →
  (q_next size t k x s = Fail → ∃ n, had K n (size - 1)) ∧
  (q_next size t k x s ≠ Fail → ∃ s', q_next size t k x s = Ok s' ∧ qinv s' K).
Proof using Hsize.
  intros H Hb (p & Hx & Hk & Hfin). pose proof Hx as [Hp Ex]. destruct k as [v y|y n]; cbn [q_next cont_ok] in *.
  - destruct Hk as (g & n & Hg & [Hw1 Hw2] & Hh). pose proof Hg as [Hg1 Eg].
    replace (r_index x) with (p mod size) by (by rewrite Ex). rewrite (u32_index size Hsize) by lia.
    replace (f_index y) with (g mod size) by (by rewrite Eg).
    destruct (Z.eqb_spec (g mod size) ((p + 2) mod size)) as [E|E]; (split; [|]); try done.
    + intros _. exists n. assert (g = p + 2 - size) as ->; [|by replace (p - (p + 2 - size) + 1) with (size - 1) in Hh by lia].
      apply (window_inj size Hsize); [|lia]. rewrite E. replace (p + 2 - size) with (p + 2 + (-1) * size) by lia.
      by rewrite Z.mod_add by lia.
    + intros _. eexists. split; [done|]. apply qinv_goto; [done|]. exists p, g. split; [done|]. split; [done|].
      split; [done|]. split.
      * destruct (decide (p - g + 1 = size - 1)) as [Ef|]; [|lia]. exfalso. apply E.
        replace (p + 2) with (g + 1 * size) by lia. by rewrite Z.mod_add by lia.
      * intros ->. destruct Hfin as [|Hfin]; [lia|]. by apply new_rear_eq.
  - destruct Hk as (g & Hg & [Hw1 Hw2] & Hh). pose proof Hg as [Hg1 Eg].
    replace (r_index x) with (p mod size) by (by rewrite Ex). rewrite (u32_index size Hsize) by lia.
    replace (f_index y) with (g mod size) in * by (by rewrite Eg).
    destruct (Z.eqb_spec (g mod size) ((p + 1) mod size)) as [E|E]; (split; [done|]); intros _;
      (eexists; split; [done|]).
    + apply qinv_none; [done|]. apply Hh. symmetry. apply (window_inj size Hsize); [done|lia].
    + apply qinv_goto; [done|]. exists g. split; [done|]. assert (g ≠ p + 1) by (by intros ->).
      split; [lia|]. destruct (decide (g = p)) as [->|]; [by apply Hfin|]. left. lia.
Qed.

(** *** The two compare-and-swaps *)

Lemma rear_cas_ok s K t v x z spurious :
  qinv s K → qpc_ok K (RearCas v x z) →
  ∃ K', grows K K' ∧ k_rear K' ≤ k_rear K + 1 ∧ qinv (rear_cas t v x z spurious s) K'.
Proof using Hsize.
  intros H (p & g & Hx & Hfin & Hg & Hroom & Hz). unfold rear_cas.
  destruct (decide (q_rear s = x ∧ spurious = false)) as [[E _]|].
  2:{ exists K. split; [apply grows_refl|]. split; [lia|]. by apply qinv_goto. }
  symmetry in E. apply (rear_same s K p x H Hx) in E as ->. specialize (Hz eq_refl).
  destruct Hfin as [|Hf]; [lia|]. set (K' := mkKnown (k_vals K ++ [v]) (k_front K) false (k_log K ++ [(t, Pushed v)])).
  assert (k_rear K' = k_rear K + 1) as Er by (unfold k_rear; cbn; rewrite length_app; cbn; lia).
  assert (grows K K') as HG by (constructor; [by eexists|done|by eexists|lia]).
  exists K'. split; [done|]. split; [lia|]. pose proof H as [H1 H2 H3 [H4 H4'] H9 HC H5 H6 H7 H8]. constructor.
  - cbn. by rewrite H1.
  - rewrite Er. cbn [q_event q_done q_set_rear q_rear]. rewrite Hz. unfold rear_of, k_rear. cbn [k_vals K'].
    by rewrite value_of_last.
  - done.
  - rewrite Er. split; cbn [k_front K']; lia.
  - rewrite Er. unfold k_rear. lia.
  - rewrite Er. cbn [k_log K']. rewrite length_app. cbn. lia.
  - intros i Hi. rewrite Er. cbn [k_fin k_vals K']. rewrite (held_at_push size Hsize) by done.
    change (qnode _ i) with (qnode s i). rewrite H5, Hf by done. unfold node_of.
    pose proof (held_at_range size Hsize (k_rear K) true i Hi). by rewrite value_of_app by (unfold k_rear in *; lia).
  - cbn [k_log k_front k_vals K']. rewrite (queue_history_snoc _ _ _ _ _ H6). cbn [queue_event].
    f_equal. rewrite drop_app_le; [done|]. unfold k_rear in *. lia.
  - cbn. intros u n Hn. by apply (grows_had K), (H7 u).
  - cbn. intros u c [_ Hu]%lookup_delete_Some. by apply (grows_qpc_ok K), (H8 u).
Qed.

Lemma pop_read_ok s K t y :
  qinv s K → qpc_ok K (PopRead y) → qinv (q_goto t (FrontCas y (n_value (qnode s (f_index y mod size)))) s) K.
Proof using Hsize.
  intros H (g & Hg & Hr & Hfin). apply qinv_goto; [done|]. exists g. split; [done|]. split; [done|].
  intros ->. destruct Hg as [_ ->]. cbn [f_index front_of]. rewrite Z.mod_mod by lia.
  rewrite (node_at s K) by done. destruct (qi_window _ _ H). by rewrite held_at_eq by (done || lia).
Qed.

Lemma front_cas_ok s K t y v :
  qinv s K → k_rear K < 2 ^ 32 - 1 → qpc_ok K (FrontCas y v) →
  ∃ K', grows K K' ∧ k_rear K' = k_rear K ∧ qinv (front_cas size t y v s) K'.
Proof using Hsize.
  intros H Hb (g & Hg & Hr & Hv). unfold front_cas. destruct (decide (q_front s = y)) as [E|].
  2:{ exists K. split; [apply grows_refl|]. split; [done|]. by apply qinv_goto. }
  symmetry in E. apply (front_same s K g y H Hg) in E as ->. specialize (Hv eq_refl). destruct Hg as [Hg ->].
  set (K' := mkKnown (k_vals K) (k_front K + 1) (k_fin K) (k_log K ++ [(t, Popped v)])).
  assert (grows K K') as HG.
  { constructor; try done; [exists []; by rewrite app_nil_r|cbn; lia|by eexists]. }
  exists K'. split; [done|]. split; [done|]. pose proof H as [H1 H2 H3 [H4 H4'] H9 HC H5 H6 H7 H8]. constructor; try done.
  - cbn. by rewrite H1.
  - cbn [q_event q_done q_set_front q_front k_front K']. unfold new_front, front_of. cbn [f_index f_counter].
    rewrite (u32_index size Hsize), u32_small by lia. f_equal. lia.
  - change (k_rear K') with (k_rear K). split; cbn [k_front K']; lia.
  - change (k_rear K') with (k_rear K). cbn [k_log K']. rewrite length_app. lia.
  - cbn [k_log k_front k_vals K']. rewrite (queue_history_snoc _ _ _ _ _ H6).
    assert (Z.to_nat (k_front K - 1) < length (k_vals K))%nat as Hlt by (unfold k_rear in Hr; lia).
    apply lookup_lt_is_Some in Hlt as [w Hw]. rewrite (drop_S _ _ _ Hw). cbn [queue_event].
    rewrite Hv. unfold value_of. rewrite (proj2 (Z.leb_le _ _)) by lia. rewrite Hw. cbn [default]. rewrite Z.eqb_refl.
    by replace (Z.to_nat (k_front K + 1 - 1)) with (S (Z.to_nat (k_front K - 1))) by lia.
  - cbn. intros u n Hn. by apply (grows_had K), (H7 u).
  - cbn. intros u c [_ Hu]%lookup_delete_Some. by apply (grows_qpc_ok K), (H8 u).
Qed.

(** *** All steps *)

Lemma qstep_ok t a s s' K :
  qinv s K → k_rear K < 2 ^ 32 - 1 → qstep size t a s = Some (Ok s') →
  ∃ K', grows K K' ∧ qinv s' K'.
Proof using Hsize.
  intros H Hb. assert (∀ c, qpc_ok K c → ∃ K', grows K K' ∧ qinv (q_goto t c s) K') as Hgoto.
  { intros c Hc. exists K. split; [apply grows_refl|by apply qinv_goto]. }
  unfold qstep. destruct (q_pc s !! t) as [c|] eqn:Ep; destruct a as [o|sp]; try done.
  2:{ destruct o; intros [= <-]; by apply Hgoto. }
  pose proof (qi_pc _ _ H t c Ep) as Hc. intros [= E].
  destruct c as [v|v x|v x y| |y|y x n|k x|k x n|k x|v x z|y|y v].
  - injection E as <-. apply Hgoto. eexists. by apply rear_now.
  - injection E as <-. exists K. split; [apply grows_refl|by apply push_front_ok].
  - exists K. split; [apply grows_refl|]. pose proof (push_check_ok s K t v x y H Hc) as Hs.
    destruct (decide _); by injection E as <-.
  - injection E as <-. apply Hgoto. eexists. by apply front_now.
  - injection E as <-. exists K. split; [apply grows_refl|by apply pop_rear_ok].
  - injection E as <-. exists K. split; [apply grows_refl|by apply pop_check_ok].
  - injection E as <-. exists K. split; [apply grows_refl|]. destruct Hc as (p & ? & ?). by apply (qfinish_ok s K t k x p).
  - injection E as <-. destruct (qfinish_cas_ok s K t k x n H Hb Hc) as (K' & ? & _ & _ & _ & ?). eauto.
  - exists K. split; [apply grows_refl|]. destruct (q_next_ok s K t k x H Hb Hc) as [_ Hs].
    destruct Hs as (s1 & E1 & ?); congruence.
  - injection E as <-. destruct (rear_cas_ok s K t v x z sp H Hc) as (K' & ? & _ & ?). eauto.
  - injection E as <-. exists K. split; [apply grows_refl|by apply pop_read_ok].
  - injection E as <-. destruct (front_cas_ok s K t y v H Hb Hc) as (K' & ? & _ & ?). eauto.
Qed.

(** ** Runs *)

Lemma qstep_log t a s s' : qstep size t a s = Some (Ok s') → (length (q_log s) ≤ length (q_log s'))%nat.
Proof using.
  unfold qstep. destruct (q_pc s !! t) as [c|]; destruct a as [o|sp]; try done.
  2:{ destruct o; by intros [= <-]. }
  intros [= E]. destruct c as [v|v x|v x y| |y|y x n|k x|k x n|k x|v x z|y|y v]; try by injection E as <-.
  - destruct (decide _); by injection E as <-.
  - injection E as <-. unfold pop_check. destruct (decide _); [|done]. by destruct (_ =? _).
  - injection E as <-. unfold finish_enqueue_cas. by destruct (decide _).
  - unfold q_next in E. destruct k; destruct (_ =? _); try done; by injection E as <-.
  - injection E as <-. unfold rear_cas. destruct (decide _); [|done]. cbn. rewrite length_app. lia.
  - injection E as <-. unfold front_cas. destruct (decide _); [|done]. cbn. rewrite length_app. lia.
Qed.

Lemma qruns_log tr s s' : qruns size tr s = Some (Ok s') → (length (q_log s) ≤ length (q_log s'))%nat.
Proof using.
  revert s. induction tr as [|[t a] tr IH]; intros s; cbn [qruns]; [by intros [= <-]|].
  destruct (qstep size t a s) as [[s1| |]|] eqn:E; try done. intros E1. apply qstep_log in E.
  apply IH in E1. lia.
Qed.

Lemma rear_bound s K n : qinv s K → (length (q_log s) ≤ n)%nat → k_rear K ≤ Z.of_nat n.
Proof using. intros H Hn. pose proof (qi_count _ _ H). rewrite <- (qi_log _ _ H) in *. lia. Qed.

Lemma qruns_ok tr s K s' :
  qinv s K → qruns size tr s = Some (Ok s') → Z.of_nat (length (q_log s')) < 2 ^ 32 - 1 → ∃ K', qinv s' K'.
Proof using Hsize.
  revert s K. induction tr as [|[t a] tr IH]; intros s K H; cbn [qruns]; [intros [= <-]; eauto|].
  destruct (qstep size t a s) as [[s1| |]|] eqn:E; try done. intros E1 Hb.
  pose proof (qstep_log _ _ _ _ E). pose proof (qruns_log _ _ _ E1).
  destruct (qstep_ok t a s s1 K H) as (K1 & _ & HK1); [|done|by eapply IH].
  pose proof (rear_bound s K (length (q_log s')) H ltac:(lia)). lia.
Qed.

(** A failed assertion: the queue was full before. *)
Lemma qstep_fail t a s K :
  qinv s K → k_rear K < 2 ^ 32 - 1 → qstep size t a s = Some Fail → ∃ n, had K n (size - 1).
Proof using Hsize.
  intros H Hb. unfold qstep. destruct (q_pc s !! t) as [c|] eqn:Ep; destruct a as [o|sp]; try done.
  2:{ by destruct o. }
  pose proof (qi_pc _ _ H t c Ep) as Hc. intros [= E].
  destruct c as [v|v x|v x y| |y|y x n|k x|k x n|k x|v x z|y|y v]; try done.
  - by destruct (decide _).
  - by apply (q_next_ok s K t k x H Hb Hc).
Qed.
End Invariant.

(** ** Progress: a thread that runs alone finishes, or finds the queue full, within
    thirteen steps. *)
Section Progress.
Context (size : Z).

Definition fresh (b : bool) (m n : nat) : nat := if b then m else n.

Definition qrank (s : ArrayQueue) (t : nat) : nat :=
  let rear x := bool_decide (q_rear s = x) in
  let front y := bool_decide (q_front s = y) in
  match q_pc s !! t with
  | None => 0
  | Some (PushRear _) => 7
  | Some (PushFront _ x) => fresh (rear x) 6 9
  | Some (PushCheck _ x _) => fresh (rear x) 5 8
  | Some (QFinish (InPush _ _) x) => fresh (rear x) 4 11
  | Some (QFinishCas (InPush _ _) x _) => fresh (rear x) 3 10
  | Some (QNext (InPush _ _) x) => fresh (rear x) 2 9
  | Some (RearCas _ x _) => fresh (rear x) 1 8
  | Some PopFront => 8
  | Some (PopRear y) => fresh (front y) 7 10
  | Some (PopCheck y _ _) => fresh (front y) 6 9
  | Some (QFinish (InPop y _) _) => fresh (front y) 5 13
  | Some (QFinishCas (InPop y _) _ _) => fresh (front y) 4 12
  | Some (QNext (InPop y _) _) => fresh (front y) 3 11
  | Some (PopRead y) => fresh (front y) 2 10
  | Some (FrontCas y _) => fresh (front y) 1 9
  end.

Lemma qrank_decreases t s s' c :
  q_pc s !! t = Some c → qstep size t (inr false) s = Some (Ok s') → (qrank s' t < qrank s t)%nat.
Proof using.
  intros Ep. unfold qstep. rewrite Ep. intros [= E]. unfold qrank. rewrite Ep.
  destruct c as [v|v x|v x y| |y|y x n|k x|k x n|k x|v x z|y|y v]; unfold fresh.
  - injection E as <-. cbn. rewrite lookup_insert_eq. rewrite bool_decide_true by done. lia.
  - injection E as <-. cbn. rewrite lookup_insert_eq. case_bool_decide; lia.
  - destruct (decide (x = q_rear s)) as [->|Hn]; injection E as <-; cbn; rewrite lookup_insert_eq.
    + rewrite bool_decide_true by done. lia.
    + rewrite bool_decide_false by congruence. lia.
  - injection E as <-. cbn. rewrite lookup_insert_eq. rewrite bool_decide_true by done. lia.
  - injection E as <-. cbn. rewrite lookup_insert_eq. case_bool_decide; lia.
  - injection E as <-. unfold pop_check. destruct (decide (y = q_front s)) as [->|Hn].
    + rewrite (bool_decide_true (q_front s = q_front s)) by done.
      destruct (_ =? _); cbn; rewrite lookup_insert_eq, bool_decide_true by done; lia.
    + rewrite (bool_decide_false (q_front s = y)) by congruence. cbn. rewrite lookup_insert_eq. lia.
  - injection E as <-. cbn. rewrite lookup_insert_eq. destruct k; case_bool_decide; lia.
  - injection E as <-. unfold finish_enqueue_cas. cbn. rewrite lookup_insert_eq.
    destruct (decide (qnode s (r_index x) = n)); cbn; destruct k; case_bool_decide; lia.
  - unfold q_next in E. destruct k; destruct (_ =? _); try done; injection E as <-; cbn;
      rewrite ?lookup_insert_eq, ?lookup_delete_eq; case_bool_decide; lia.
  - injection E as <-. unfold rear_cas. destruct (decide (q_rear s = x ∧ false = false)) as [[Hx _]|Hn]; cbn.
    + rewrite lookup_delete_eq. case_bool_decide; lia.
    + rewrite lookup_insert_eq. rewrite bool_decide_false by naive_solver. lia.
  - injection E as <-. cbn. rewrite lookup_insert_eq. case_bool_decide; lia.
  - injection E as <-. unfold front_cas. destruct (decide (q_front s = y)) as [Hx|Hn]; cbn.
    + rewrite lookup_delete_eq. case_bool_decide; lia.
    + rewrite lookup_insert_eq. rewrite bool_decide_false by done. lia.
Qed.

Lemma qrank_bound s t : (qrank s t ≤ 13)%nat.
Proof using.
  unfold qrank, fresh. destruct (q_pc s !! t) as [[]|]; try lia; repeat case_match; lia.
Qed.

Lemma qrank_none s t : qrank s t = 0%nat → q_pc s !! t = None.
Proof using. unfold qrank, fresh. destruct (q_pc s !! t) as [[]|]; try done; repeat case_match; lia. Qed.

Lemma queue_finishes t k s :
  (qrank s t ≤ k)%nat →
  ∃ n r, (n ≤ k)%nat ∧ qruns size (replicate n (t, inr false)) s = Some r ∧
    (r = Fail ∨ ∃ s', r = Ok s' ∧ q_pc s' !! t = None).
Proof using.
  revert s. induction k as [|k IH]; intros s Hk.
  - exists 0%nat, (Ok s). split; [lia|]. split; [done|]. right. exists s. split; [done|]. apply qrank_none. lia.
  - destruct (q_pc s !! t) as [c|] eqn:Ep; [|exists 0%nat, (Ok s); split; [lia|]; split; [done|]; eauto].
    destruct (qstep size t (inr false) s) as [[s1| |]|] eqn:E.
    + pose proof (qrank_decreases _ _ _ _ Ep E). destruct (IH s1 ltac:(lia)) as (n & r & Hn & Er & Hr).
      exists (S n), r. split; [lia|]. split; [|done]. cbn [replicate qruns]. by rewrite E.
    + exists 1%nat, Fail. split; [lia|]. split; [|by left]. cbn. by rewrite E.
    + exfalso. unfold qstep in E. rewrite Ep in E. injection E as E. destruct c as [| |v x y| | | | | |k' x| | |]; try done.
      * by destruct (decide _).
      * unfold q_next in E. destruct k'; by destruct (_ =? _).
    + unfold qstep in E. by rewrite Ep in E.
Qed.
End Progress.
