(* ===== verification/PropsArrays.v ===== *)
(** * Properties of the array containers

    The bounded stack and queue under interleaving: every run is a run of a
    sequential stack or queue, the assertion against overflow fails only when the
    container was full, and no thread can be kept from finishing but by others that
    do. *)

From Stdlib Require Import ZArith Lia.
From stdpp Require Import base gmap numbers list.
From S2P Require Import Prelude OldArrayStack OldArrayQueue.

Local Open Scope Z_scope.
#[local] Set Warnings "-clear-no-such-hyp".

(** C39. The array stack from its constructor, under any interleaving of pushes and
    pops with fewer than 2^32 - 1 of them: the operations, in the order in which they
    take effect, are a history of a sequential stack whose elements are those of the
    top and of the array below it; at most [size - 1] elements are ever there; the
    assertion of [push] fails only when the stack had [size - 1] elements before; and
    a thread left alone returns, or fails this assertion, within nine steps. *)
Theorem array_stack_correct size tr s :
  1 ≤ size ≤ 2 ^ 31 → sruns size tr ArrayStack_ctor = Some (Ok s) → steps s < 2 ^ 32 - 1 →
  stack_history (s_log s) [] = Some (contents s) ∧ Z.of_nat (length (contents s)) < size ∧
  (∀ t a, sstep size t a s = Some Fail →
     ∃ n l, stack_history (take n (s_log s)) [] = Some l ∧ Z.of_nat (length l) = size - 1) ∧
  (∀ t, ∃ n r, (n ≤ 9)%nat ∧ sruns size (replicate n (t, inr false)) s = Some r ∧
     (r = Fail ∨ ∃ s', r = Ok s' ∧ s_pc s' !! t = None)).
Proof.
  intros Hs E Hb. pose proof (sruns_ok size Hs tr _ s (ArrayStack_ctor_inv size Hs) E Hb) as H.
  split; [apply H|]. split; [|split].
  - rewrite (length_contents size s H). apply H.
  - intros t a Ef. destruct (sstep_fail size t a s H Ef) as (l1 & l2 & l & El & Hl & Hn).
    exists (length l1), l. rewrite El, take_app_length. done.
  - intros t. apply stack_finishes, srank_bound.
Qed.

(** Threads 0 and 1 push; thread 1 is first, thread 0 tries again; thread 1 pops the
    element of thread 0, then its own, then finds the stack empty. *)
Definition stack_go (t n : nat) : list (nat * (sop + bool)) := replicate n (t, inr false).
Definition stack_trace : list (nat * (sop + bool)) :=
  [(0%nat, inl (OldArrayStack.Push 5))] ++ stack_go 0 4 ++ [(1%nat, inl (OldArrayStack.Push 7))] ++ stack_go 1 5 ++
  stack_go 0 6 ++ [(1%nat, inl OldArrayStack.Pop)] ++ stack_go 1 5 ++ [(1%nat, inl OldArrayStack.Pop)] ++
  stack_go 1 5 ++ [(1%nat, inl OldArrayStack.Pop)] ++ stack_go 1 4.

Lemma array_stack_correct_witness :
  ∃ s, sruns 3 stack_trace ArrayStack_ctor = Some (Ok s) ∧
    stack_history (s_log s) [] = Some (contents s) ∧
    s_log s = [(1%nat, OldArrayStack.Pushed 7); (0%nat, OldArrayStack.Pushed 5);
               (1%nat, OldArrayStack.Popped (Some 5)); (1%nat, OldArrayStack.Popped (Some 7));
               (1%nat, OldArrayStack.Popped None)].
Proof.
  eexists. split; [vm_compute; reflexivity|]. split; [|reflexivity].
  refine (proj1 (array_stack_correct 3 stack_trace _ _ _ _)).
  all: try (vm_compute; reflexivity). split; discriminate.
Defined.

(** C40. The array queue from its constructor, under any interleaving of pushes and
    pops with fewer than 2^32 - 1 of them: the operations on elements, in the order
    in which they take effect, are a history of a sequential queue with at most
    [size - 1] elements; each pop that returns nothing loaded the rear when the queue
    was empty; the assertion of [push] fails only when the queue had [size - 1]
    elements before; and a thread left alone returns, or fails this assertion, within
    thirteen steps. *)
Theorem array_queue_correct size tr s :
  2 ≤ size ≤ 2 ^ 31 → qruns size tr ArrayQueue_ctor = Some (Ok s) → Z.of_nat (length (q_log s)) < 2 ^ 32 - 1 →
  (∃ l, queue_history (q_log s) [] = Some l ∧ Z.of_nat (length l) ≤ size - 1) ∧
  (∀ t n, (t, n) ∈ q_empty s → queue_history (take n (q_log s)) [] = Some []) ∧
  (∀ t a, qstep size t a s = Some Fail →
     ∃ n l, queue_history (take n (q_log s)) [] = Some l ∧ Z.of_nat (length l) = size - 1) ∧
  (∀ t, ∃ n r, (n ≤ 13)%nat ∧ qruns size (replicate n (t, inr false)) s = Some r ∧
     (r = Fail ∨ ∃ s', r = Ok s' ∧ q_pc s' !! t = None)).
Proof.
  intros Hs E Hb. destruct (qruns_ok size Hs tr _ _ s (ArrayQueue_ctor_inv size Hs) E Hb) as [K H].
  pose proof (rear_bound size s K _ H (le_n _)) as Hr. pose proof (qi_log _ _ _ H) as El.
  split; [|split; [|split]].
  - destruct (had_now size s K H) as (_ & l & Hl & Hn). rewrite El, take_ge in Hl by done. exists l. rewrite El.
    split; [done|]. destruct (qi_window _ _ _ H). lia.
  - intros t n Hn. destruct (qi_empty _ _ _ H t n Hn) as (_ & l & Hl & Hlen). rewrite El.
    by destruct l.
  - intros t a Ef. destruct (qstep_fail size Hs t a s K H ltac:(lia) Ef) as (n & _ & l & Hl & Hn).
    exists n, l. by rewrite El.
  - intros t. apply queue_finishes, qrank_bound.
Qed.

(** Thread 0 pushes 5 and is about to publish it; thread 1 pushes 7 first; thread 0
    tries again; thread 2 pops both and finds the queue empty. *)
Definition queue_go (t n : nat) : list (nat * (qop + bool)) := replicate n (t, inr false).
Definition queue_trace : list (nat * (qop + bool)) :=
  [(0%nat, inl (OldArrayQueue.Push 5))] ++ queue_go 0 6 ++ [(1%nat, inl (OldArrayQueue.Push 7))] ++ queue_go 1 7 ++
  queue_go 0 8 ++ [(2%nat, inl OldArrayQueue.Pop)] ++ queue_go 2 6 ++ [(2%nat, inl OldArrayQueue.Pop)] ++
  queue_go 2 8 ++ [(2%nat, inl OldArrayQueue.Pop)] ++ queue_go 2 4.

Lemma array_queue_correct_witness :
  ∃ s, qruns 4 queue_trace ArrayQueue_ctor = Some (Ok s) ∧ q_empty s = [(2%nat, 4%nat)] ∧
    queue_history (take 4 (q_log s)) [] = Some [].
Proof.
  eexists. split; [vm_compute; reflexivity|]. split; [reflexivity|].
  refine (proj1 (proj2 (array_queue_correct 4 queue_trace _ _ _ _)) 2%nat 4%nat _).
  all: try (vm_compute; reflexivity).
  - split; discriminate.
  - left.
Defined.
