(* ===== verification/OldHazard.v ===== *)
(** * Hazard pointers (old/HazardPointers.hpp)

    The table of hazard pointers and the lists of retired nodes of the threads, with
    the operations of the class; [retire] is a loop whose position is explicit, so
    that other threads can write their hazard pointers between two of its loads.
    The nodes themselves are kept by the client: deleting a node is a result. The
    arrays have [HP_MAX_THREADS] rows, whatever number of threads the constructor is
    given: an access beyond them is an error. *)

From Stdlib Require Import ZArith Lia.
From stdpp Require Import base gmap numbers list.
From S2P Require Import Prelude.

Local Open Scope Z_scope.
#[local] Set Warnings "-clear-no-such-hyp".

Definition HP_MAX_THREADS : nat := 128.
Definition HP_MAX_HPS : nat := 4.

(** [hp[tid][ihp]] and [retiredList[tid*CLPAD]]: null and empty at first. The maps are
    total views of the arrays; [in_rows] tells which elements there are (of each row of
    [hp], those that the constructor sets to null). *)
Record HazardPointers := mkHP {
  hp : gmap (nat * nat) Z;
  retiredList : gmap nat (list Z)
}.

Definition in_rows (tid ihp : nat) : bool := (tid <? HP_MAX_THREADS)%nat && (ihp <? HP_MAX_HPS)%nat.

(** An access to [hp[tid][ihp]], or to the retired list of [tid]. *)
Definition with_row {A} (tid ihp : nat) (o : outcome A) : outcome A := if in_rows tid ihp then o else Fail.

Definition HazardPointers_ctor : HazardPointers := mkHP ∅ ∅.

Definition hp_load (t ihp : nat) (h : HazardPointers) : Z := default 0 (hp h !! (t, ihp)).
Definition retired (t : nat) (h : HazardPointers) : list Z := default [] (retiredList h !! t).

(** [hp[tid][index].store(ptr)]: [protectPtr], and the stores of [clear]. *)
Definition protectPtr (index : nat) (ptr : Z) (tid : nat) (h : HazardPointers) : HazardPointers :=
  mkHP (<[(tid, index) := ptr]> (hp h)) (retiredList h).
Definition clearOne (ihp tid : nat) (h : HazardPointers) : HazardPointers := protectPtr ihp 0 tid h.

(** [retiredList[tid*CLPAD] = l]. *)
Definition set_retired (tid : nat) (l : list Z) (h : HazardPointers) : HazardPointers :=
  mkHP (hp h) (<[tid := l]> (retiredList h)).

(** The arrays have a row for each of [maxThreads] threads. *)
Definition rows_for (maxThreads : nat) : Prop := (maxThreads ≤ HP_MAX_THREADS)%nat.

(** Where a thread is in the loop of [retire]: at element [iret], about to compare it
    with hazard pointer [left - 1] of thread [owner]; [left = 0]: done with that
    thread. *)
Record scan := mkScan { iret : nat; owner : nat; left : nat }.

Inductive scan_result :=
| ScanFault                                       (* an access beyond the arrays *)
| ScanDone                                        (* the loop has ended *)
| ScanGoto (c : scan)                             (* the next iteration *)
| ScanDelete (obj : Z) (c : scan) (h : HazardPointers). (* [delete obj] *)

Section Retire.
Context (maxHPs maxThreads : nat).

Definition scan_start (i : nat) : scan := mkScan i 0 maxHPs.

(** [retiredList[tid*CLPAD].push_back(ptr)]; the loop starts at 0. *)
Definition retire_push (ptr : Z) (tid : nat) (h : HazardPointers) : HazardPointers :=
  set_retired tid (retired tid h ++ [ptr]) h.

(** One step of the loop. [canDelete] is true as long as the scan of an element goes
    on; a match ends both inner loops. *)
Definition retire_step (tid : nat) (c : scan) (h : HazardPointers) : scan_result :=
  if negb (in_rows tid 0) then ScanFault else
  match retired tid h !! iret c with
  | None => ScanDone
  | Some obj =>
      if (maxThreads <=? owner c)%nat then
        ScanDelete obj (scan_start (iret c)) (set_retired tid (delete (iret c) (retired tid h)) h)
      else
        match left c with
        | O => ScanGoto (mkScan (iret c) (S (owner c)) maxHPs)
        | S ihp =>
            if negb (in_rows (owner c) ihp) then ScanFault
            else if hp_load (owner c) ihp h =? obj then ScanGoto (scan_start (S (iret c)))
            else ScanGoto (mkScan (iret c) (owner c) ihp)
        end
  end.

(** [~HazardPointers]: the nodes deleted, in order. *)
Definition HazardPointers_dtor (h : HazardPointers) : list Z :=
  seq 0 HP_MAX_THREADS ≫= λ t, retired t h.

(** ** What a scan knows

    [G t ihp p]: thread [t] relies on its hazard pointer [ihp] to keep node [p]. The
    scan of a node has not passed a hazard pointer that someone relies on to keep
    this node. *)

Definition ahead (c : scan) (t ihp : nat) : Prop := (owner c < t ∨ owner c = t ∧ ihp < left c)%nat.

Definition scan_ok (G : nat → nat → Z → Prop) (tid : nat) (c : scan) (h : HazardPointers) : Prop :=
  ∀ t ihp p, G t ihp p → retired tid h !! iret c = Some p → ahead c t ihp.

Record relied (G : nat → nat → Z → Prop) (h : HazardPointers) : Prop := {
  rl_index : ∀ t ihp p, G t ihp p → (t < maxThreads ∧ ihp < maxHPs)%nat;
  rl_set : ∀ t ihp p, G t ihp p → hp_load t ihp h = p
}.

Lemma scan_start_ok G h tid i : relied G h → scan_ok G tid (scan_start i) h.
Proof.
  intros [H1 _] t ihp p HG _. destruct (H1 t ihp p HG) as [_ Hi]. unfold ahead. cbn. destruct t; lia.
Qed.

Lemma hp_load_eq t i p h : hp_load t i (protectPtr i p t h) = p.
Proof. unfold hp_load. cbn. by rewrite lookup_insert_eq. Qed.
Lemma hp_load_ne t i p h u j : (u, j) ≠ (t, i) → hp_load u j (protectPtr i p t h) = hp_load u j h.
Proof. intros Hne. unfold hp_load. cbn. by rewrite lookup_insert_ne. Qed.
Lemma retired_eq t l h : retired t (set_retired t l h) = l.
Proof. unfold retired. cbn. by rewrite lookup_insert_eq. Qed.
Lemma retired_ne t l h u : u ≠ t → retired u (set_retired t l h) = retired u h.
Proof. intros Hne. unfold retired. cbn. by rewrite lookup_insert_ne. Qed.

Lemma in_rows_true t i : (t < HP_MAX_THREADS)%nat → (i < HP_MAX_HPS)%nat → in_rows t i = true.
Proof. intros Ht Hi. unfold in_rows. by rewrite !(proj2 (Nat.ltb_lt _ _)). Qed.

(** A step of the scan stays in the arrays and deletes no node on which someone
    relies. *)
Lemma retire_step_ok G tid c h :
  rows_for maxThreads → (maxHPs ≤ HP_MAX_HPS)%nat → (tid < maxThreads)%nat → (left c ≤ maxHPs)%nat →
  relied G h → scan_ok G tid c h →
  match retire_step tid c h with
  | ScanFault => False
  | ScanDone => retired tid h !! iret c = None
  | ScanGoto c' => scan_ok G tid c' h
  | ScanDelete obj c' h' =>
      retired tid h !! iret c = Some obj ∧ h' = set_retired tid (delete (iret c) (retired tid h)) h ∧
      c' = scan_start (iret c) ∧ ∀ t ihp, ¬ G t ihp obj
  end.
Proof.
  unfold rows_for. intros Hm1 Hm2 Ht Hleft HR Hc. pose proof HR as [H1 H2]. unfold retire_step.
  rewrite in_rows_true by (unfold HP_MAX_HPS; lia). cbn [negb]. destruct (retired tid h !! iret c) as [obj|] eqn:E; [|done].
  destruct (Nat.leb_spec maxThreads (owner c)) as [Hle|Hlt].
  - split_and!; try done. intros t ihp Hg. destruct (Hc t ihp obj Hg E) as [?|[? _]]; destruct (H1 t ihp obj Hg); lia.
  - destruct (left c) as [|ihp] eqn:El.
    + intros t j p Hg. cbn. intros Hp. destruct (Hc t j p Hg Hp) as [?|[? Hj]]; [|lia].
      destruct (H1 t j p Hg). unfold ahead. cbn. lia.
    + rewrite in_rows_true by lia. cbn [negb].
      destruct (Z.eqb_spec (hp_load (owner c) ihp h) obj) as [Eq|Ne]; [by apply scan_start_ok|].
      intros t j p Hg. cbn. intros Hp. assert (p = obj) as -> by congruence. unfold ahead. cbn.
      destruct (Hc t j obj Hg Hp) as [?|[Et Hj]]; [by left|]. right. split; [done|].
      destruct (decide (j = ihp)) as [->|]; [|lia]. destruct Ne. rewrite Et. by apply H2.
Qed.

(** ** Termination

    Without interference a scan ends: the number of its remaining steps. *)
Definition scan_cost : nat := maxThreads * S maxHPs + 1.
Definition scan_wf (c : scan) : Prop :=
  (owner c < maxThreads ∧ left c ≤ maxHPs ∨ owner c = maxThreads ∧ left c = maxHPs)%nat.
Definition scan_rank (c : scan) (l : list Z) : nat :=
  (length l - iret c) * scan_cost - (owner c * S maxHPs + (maxHPs - left c)).

Lemma scan_start_wf i : scan_wf (scan_start i).
Proof. unfold scan_wf. cbn. destruct maxThreads; lia. Qed.

Lemma retire_step_rank tid c h :
  scan_wf c →
  match retire_step tid c h with
  | ScanFault | ScanDone => True
  | ScanGoto c' => scan_wf c' ∧ (scan_rank c' (retired tid h) < scan_rank c (retired tid h))%nat
  | ScanDelete _ c' h' => scan_wf c' ∧ (scan_rank c' (retired tid h') < scan_rank c (retired tid h))%nat
  end.
Proof.
  intros Hw. unfold retire_step. destruct (in_rows tid 0); [|done]. cbn [negb]. destruct (retired tid h !! iret c) as [obj|] eqn:E; [|done].
  apply lookup_lt_Some in E as Hlen. set (l := retired tid h) in *.
  destruct (length l - iret c)%nat as [|m] eqn:Em; [lia|].
  assert (owner c * S maxHPs + (maxHPs - left c) < scan_cost)%nat as Hpos.
  { unfold scan_cost. destruct Hw as [[? ?]|[-> ->]]; [|lia]. assert (owner c + 1 ≤ maxThreads)%nat by lia. nia. }
  destruct (Nat.leb_spec maxThreads (owner c)) as [Hle|Hlt].
  - split; [apply scan_start_wf|]. rewrite retired_eq. unfold scan_rank. rewrite Em. cbn [iret owner left scan_start].
    assert (length (delete (iret c) l) = (length l - 1)%nat) as -> by (apply length_delete; by eexists).
    replace (length l - 1 - iret c)%nat with m by lia. destruct Hw as [[? ?]|[Eo El]]; [lia|].
    rewrite Eo, El in *. unfold scan_cost in *. nia.
  - destruct (left c) as [|ihp] eqn:El.
    + split; [unfold scan_wf; cbn; lia|]. unfold scan_rank. cbn [iret owner left]. rewrite Em, El. nia.
    + destruct (in_rows (owner c) ihp); [|done]. cbn [negb]. destruct (hp_load (owner c) ihp h =? obj).
      * split; [apply scan_start_wf|]. unfold scan_rank. cbn [iret owner left scan_start]. rewrite Em.
        replace (length l - S (iret c))%nat with m by lia. rewrite El. nia.
      * unfold scan_wf in *. split; [cbn; lia|]. unfold scan_rank. cbn [iret owner left]. rewrite Em, El.
        assert (S ihp ≤ maxHPs)%nat by lia. nia.
Qed.

End Retire.

(** ** Who has a node

    The nodes [m] are [l], which are linked in the container, and what each thread
    [holds]: every node is there once. *)
Lemma bind_same {A} (f g : nat → list A) (us : list nat) : (∀ u, u ∈ us → g u = f u) → us ≫= g = us ≫= f.
Proof.
  induction us as [|u us IH]; intros H; [done|]. rewrite !bind_cons, H by left. f_equal. apply IH.
  intros v Hv. apply H. by right.
Qed.

Definition all_held {A} (maxThreads : nat) (l : list Z) (holds : nat → list Z) (m : gmap Z A) : Prop :=
  l ++ (seq 0 maxThreads ≫= holds) ≡ₚ (map_to_list m).*1.

Section Held.
Context {A : Type} (maxThreads : nat).

(** What the threads hold, with the part of thread [t] apart. *)
Lemma holds_split t : (t < maxThreads)%nat → ∃ us vs : list nat,
  (∀ u, u ≠ t → (u < maxThreads)%nat → u ∈ us ∨ u ∈ vs) ∧ (t ∉ us) ∧ (t ∉ vs) ∧
  ∀ f : nat → list Z, seq 0 maxThreads ≫= f = (us ≫= f) ++ f t ++ (vs ≫= f).
Proof.
  intros Ht. exists (seq 0 t), (seq (S t) (maxThreads - S t)). split_and!.
  - intros u Hne Hu. rewrite !elem_of_seq. lia.
  - rewrite elem_of_seq. lia.
  - rewrite elem_of_seq. lia.
  - intros f. replace maxThreads with (t + S (maxThreads - S t))%nat at 1 by lia.
    rewrite seq_app. cbn [seq plus]. by rewrite bind_app, bind_cons.
Qed.

Context (l : list Z) (holds : nat → list Z) (m : gmap Z A) (H : all_held maxThreads l holds m).

Lemma all_nodup : NoDup (l ++ (seq 0 maxThreads ≫= holds)).
Proof using H. rewrite H. apply NoDup_fst_map_to_list. Qed.

Lemma linked_nodup : NoDup l.
Proof using H. pose proof all_nodup as Hnd. by apply NoDup_app in Hnd as (Hnd & _). Qed.

Lemma all_nodes a : is_Some (m !! a) ↔ a ∈ l ∨ ∃ t, (t < maxThreads)%nat ∧ a ∈ holds t.
Proof using H.
  assert (is_Some (m !! a) ↔ a ∈ (map_to_list m).*1) as ->.
  { rewrite list_elem_of_fmap. split.
    - intros [N HN]. exists (a, N). split; [done|]. by apply elem_of_map_to_list.
    - intros ([b N] & -> & HN). apply elem_of_map_to_list in HN. by exists N. }
  rewrite <- H, elem_of_app, list_elem_of_bind. split.
  - intros [Ha|(t & Ha & Ht)]; [by left|]. right. exists t. apply elem_of_seq in Ht. split; [lia|done].
  - intros [Ha|(t & Ht & Ha)]; [by left|]. right. exists t. split; [done|]. apply elem_of_seq. lia.
Qed.

Lemma held_node t a : (t < maxThreads)%nat → a ∈ holds t → is_Some (m !! a).
Proof using H. intros Ht Ha. apply all_nodes. right. by exists t. Qed.

Lemma held_not_in t a : (t < maxThreads)%nat → a ∈ holds t → a ∉ l.
Proof using H.
  intros Ht Ha Hl. pose proof all_nodup as Hnd. apply NoDup_app in Hnd as (_ & Hd & _). apply (Hd a Hl).
  apply list_elem_of_bind. exists t. split; [done|]. apply elem_of_seq. lia.
Qed.

Lemma held_once t u a : (t < maxThreads)%nat → (u < maxThreads)%nat → u ≠ t → a ∈ holds t → a ∉ holds u.
Proof using H.
  intros Ht Hu Hne Ha Hb. pose proof all_nodup as Hnd. apply NoDup_app in Hnd as (_ & _ & Hnd).
  destruct (holds_split t Ht) as (us & vs & Huv & _ & _ & E). rewrite E in Hnd.
  apply NoDup_app in Hnd as (_ & Hd1 & Hnd). apply NoDup_app in Hnd as (_ & Hd2 & _).
  destruct (Huv u Hne Hu) as [Hin|Hin].
  - apply (Hd1 a); [apply list_elem_of_bind; by exists u|]. apply elem_of_app. by left.
  - apply (Hd2 a Ha). apply list_elem_of_bind. by exists u.
Qed.

Lemma held_size t : (t < maxThreads)%nat → (length l + length (holds t) ≤ size m)%nat.
Proof using H.
  intros Ht. pose proof (Permutation_length H) as E. rewrite length_fmap, length_map_to_list, length_app in E.
  destruct (holds_split t Ht) as (us & vs & _ & _ & _ & Es). rewrite Es, !length_app in E. lia.
Qed.

(** A step of thread [t] moves, adds or deletes nodes. *)
Lemma all_held_step l' holds' (m' : gmap Z A) t :
  (t < maxThreads)%nat → (∀ u, u ≠ t → holds' u = holds u) →
  (∀ us vs, l ++ us ++ holds t ++ vs ≡ₚ (map_to_list m).*1 → l' ++ us ++ holds' t ++ vs ≡ₚ (map_to_list m').*1) →
  all_held maxThreads l' holds' m'.
Proof using H.
  intros Ht Hu Hp. unfold all_held in *. destruct (holds_split t Ht) as (us & vs & _ & Hus & Hvs & E).
  rewrite E in H |- *.
  assert (∀ ws, t ∉ ws → ws ≫= holds' = ws ≫= holds) as Hs.
  { intros ws Hws. apply bind_same. intros u Hin. apply Hu. by intros ->. }
  rewrite !Hs by done. by apply Hp.
Qed.
End Held.

(** Nodes after [new], a change and [delete]. *)
Section Nodes.
Context {A : Type}.
Implicit Types (m : gmap Z A) (a : Z).

Lemma nodes_new m a x : m !! a = None → (map_to_list (<[a := x]> m)).*1 ≡ₚ a :: (map_to_list m).*1.
Proof. intros Ha. by rewrite map_to_list_insert by done. Qed.

Lemma nodes_delete m a : is_Some (m !! a) → (map_to_list m).*1 ≡ₚ a :: (map_to_list (delete a m)).*1.
Proof.
  intros [x Hx]. rewrite <- (insert_delete_id m a x Hx) at 1. by rewrite map_to_list_insert by apply lookup_delete_eq.
Qed.

Lemma nodes_update m a x : is_Some (m !! a) → (map_to_list (<[a := x]> m)).*1 ≡ₚ (map_to_list m).*1.
Proof.
  intros Ha. rewrite (nodes_delete m a Ha), <- (insert_delete_eq m a x). apply nodes_new, lookup_delete_eq.
Qed.

Fixpoint delete_all (l : list Z) (m : gmap Z A) : outcome (gmap Z A) :=
  match l with
  | [] => Ok m
  | a :: l' => match m !! a with Some _ => delete_all l' (delete a m) | None => Fail end
  end.

Lemma delete_all_ok l m : l ≡ₚ (map_to_list m).*1 → delete_all l m = Ok ∅.
Proof.
  revert m. induction l as [|a l IH]; intros m Hp; cbn.
  - apply Permutation_nil_l in Hp. symmetry in Hp. apply fmap_nil_inv, map_to_list_empty_iff in Hp. by subst m.
  - assert (a ∈ (map_to_list m).*1) as Ha by (rewrite <- Hp; left).
    apply list_elem_of_fmap in Ha as ([b N] & -> & HN%elem_of_map_to_list). cbn [fst] in *. rewrite HN. apply IH.
    apply (Permutation_cons_inv (a := b)). rewrite Hp. apply nodes_delete. by eexists.
Qed.
End Nodes.

(** The destructor deletes what the threads have retired. *)
Lemma dtor_retired maxThreads h :
  rows_for maxThreads → (∀ t, (maxThreads ≤ t)%nat → retired t h = []) →
  HazardPointers_dtor h = seq 0 maxThreads ≫= λ t, retired t h.
Proof.
  unfold rows_for. intros Hm Hr. unfold HazardPointers_dtor.
  replace HP_MAX_THREADS with (maxThreads + (HP_MAX_THREADS - maxThreads))%nat by lia.
  rewrite seq_app, bind_app. cbn [plus]. generalize (HP_MAX_THREADS - maxThreads)%nat as k. intros k.
  assert (∀ ts, (∀ t, t ∈ ts → (maxThreads ≤ t)%nat) → ts ≫= (λ t, retired t h) = []) as Hts.
  { induction ts as [|t ts IH]; intros Hin; [done|]. rewrite bind_cons, IH by (intros u Hu; apply Hin; by right).
    by rewrite Hr by (apply Hin; left). }
  rewrite (Hts (seq maxThreads k)) by (intros t Ht%elem_of_seq; lia). by rewrite app_nil_r.
Qed.
