(* ===== verification/OldLockfreeStack.v ===== *)
(** * The stack with hazard pointers (old/LockfreeStack.hpp)

    A linked stack whose nodes are deleted when no hazard pointer keeps them. Threads
    interleave between their accesses to shared memory; a deleted address may be
    returned by the next [new], and an access to a deleted node fails. The log records
    each operation at the step where it takes effect: at the successful
    compare-and-swap of the top, or at the load of a null top. [ls_rets] are the
    results returned. *)

From Stdlib Require Import ZArith Lia.
From stdpp Require Import base gmap numbers list.
From S2P Require Import Prelude OldArrayStack OldHazard.

Local Open Scope Z_scope.
#[local] Set Warnings "-clear-no-such-hyp".

(** [struct Node]; null is 0. *)
Record Node := mkNode { item : option Z; next : Z }.

Definition with_next (p : Z) (n : Node) : Node := mkNode (item n) p.

(** Where a thread is: at a line of [push] with its new node, of [pop], of
    [hp.clear] (at hazard pointer [ihp]; [r]: the node and the item it has taken) or of
    [hp.retire]. *)
Inductive lpc :=
| PushLoad (newNode : Z)
| PushNext (newNode ltop : Z)
| PushCas (newNode ltop : Z)
| PopLoad
| PopProtect (ltop : Z)
| PopCheck (ltop : Z)
| PopNext (ltop : Z)
| PopCas (ltop lnext : Z)
| PopItem (ltop : Z)
| PopClear (ihp : nat) (r : option (Z * Z))
| PopRetire (ltop item : Z)
| PopScan (c : scan) (item : Z).

Record LockfreeStack := mkLS {
  ls_top : Z;
  ls_nodes : gmap Z Node;
  ls_hp : HazardPointers;
  ls_pc : gmap nat lpc;
  ls_log : list (nat * sevent);
  ls_rets : list (nat * option Z)
}.

Definition LockfreeStack_ctor : LockfreeStack := mkLS 0 ∅ HazardPointers_ctor ∅ [] [].

Definition ls_goto (t : nat) (p : lpc) (s : LockfreeStack) : LockfreeStack :=
  mkLS (ls_top s) (ls_nodes s) (ls_hp s) (<[t := p]> (ls_pc s)) (ls_log s) (ls_rets s).
Definition ls_done (t : nat) (s : LockfreeStack) : LockfreeStack :=
  mkLS (ls_top s) (ls_nodes s) (ls_hp s) (delete t (ls_pc s)) (ls_log s) (ls_rets s).
Definition ls_ret (t : nat) (r : option Z) (s : LockfreeStack) : LockfreeStack :=
  mkLS (ls_top s) (ls_nodes s) (ls_hp s) (delete t (ls_pc s)) (ls_log s) (ls_rets s ++ [(t, r)]).
Definition ls_event (t : nat) (e : sevent) (s : LockfreeStack) : LockfreeStack :=
  mkLS (ls_top s) (ls_nodes s) (ls_hp s) (ls_pc s) (ls_log s ++ [(t, e)]) (ls_rets s).
Definition ls_set_top (p : Z) (s : LockfreeStack) : LockfreeStack :=
  mkLS p (ls_nodes s) (ls_hp s) (ls_pc s) (ls_log s) (ls_rets s).
Definition ls_set_nodes (m : gmap Z Node) (s : LockfreeStack) : LockfreeStack :=
  mkLS (ls_top s) m (ls_hp s) (ls_pc s) (ls_log s) (ls_rets s).
Definition ls_set_hp (h : HazardPointers) (s : LockfreeStack) : LockfreeStack :=
  mkLS (ls_top s) (ls_nodes s) h (ls_pc s) (ls_log s) (ls_rets s).

(** An access to the node at [p]: deleted nodes and null are no nodes. *)
Definition with_node (p : Z) (s : LockfreeStack) (f : Node → outcome LockfreeStack) : outcome LockfreeStack :=
  match ls_nodes s !! p with Some n => f n | None => Fail end.

(** The item a pop takes, for the log. *)
Definition item_at (p : Z) (s : LockfreeStack) : option Z := ls_nodes s !! p ≫= item.

Section Steps.
Context (maxThreads : nat).

Definition kHpTop : nat := 0.
Definition maxHPs : nat := 1.

(** [push]: the store of [newNode->next] and the compare-and-swap of the top. *)
Definition push_next (t : nat) (n ltop : Z) (s : LockfreeStack) : outcome LockfreeStack :=
  with_node n s (λ N, Ok (ls_goto t (PushCas n ltop) (ls_set_nodes (<[n := with_next ltop N]> (ls_nodes s)) s))).
Definition push_cas (t : nat) (n ltop : Z) (s : LockfreeStack) : LockfreeStack :=
  if ls_top s =? ltop then ls_event t (Pushed (default 0 (item_at n s))) (ls_done t (ls_set_top n s))
  else ls_goto t (PushLoad n) s.

(** [pop]: the load of [top] for [protectPtr], its store, and what follows. *)
Definition pop_load (t : nat) (s : LockfreeStack) : LockfreeStack :=
  let s' := ls_goto t (PopProtect (ls_top s)) s in
  if ls_top s =? 0 then ls_event t (Popped None) s' else s'.
Definition pop_protect (t : nat) (ltop : Z) (s : LockfreeStack) : outcome LockfreeStack :=
  with_row t kHpTop (Ok (ls_goto t (if ltop =? 0 then PopClear 0 None else PopCheck ltop)
    (ls_set_hp (protectPtr kHpTop ltop t (ls_hp s)) s))).
Definition pop_check (t : nat) (ltop : Z) (s : LockfreeStack) : LockfreeStack :=
  ls_goto t (if ls_top s =? ltop then PopNext ltop else PopLoad) s.
Definition pop_next (t : nat) (ltop : Z) (s : LockfreeStack) : outcome LockfreeStack :=
  with_node ltop s (λ N, Ok (ls_goto t (PopCas ltop (next N)) s)).
Definition pop_cas (t : nat) (ltop lnext : Z) (s : LockfreeStack) : LockfreeStack :=
  if ls_top s =? ltop then
    ls_event t (Popped (item_at ltop s)) (ls_goto t (PopItem ltop) (ls_set_top lnext s))
  else ls_goto t PopLoad s.
(** [ltop->item.value()] throws without an item. *)
Definition pop_item (t : nat) (ltop : Z) (s : LockfreeStack) : outcome LockfreeStack :=
  with_node ltop s (λ N, match item N with
                         | Some v => Ok (ls_goto t (PopClear 0 (Some (ltop, v))) s)
                         | None => Fail
                         end).
(** [hp.clear(tid)], then [hp.retire(ltop, tid)] or the return. *)
Definition pop_clear (t ihp : nat) (r : option (Z * Z)) (s : LockfreeStack) : outcome LockfreeStack :=
  if (ihp <? maxHPs)%nat then
    with_row t ihp (Ok (ls_goto t (PopClear (S ihp) r) (ls_set_hp (clearOne ihp t (ls_hp s)) s)))
  else match r with
       | Some (ltop, v) => Ok (ls_goto t (PopRetire ltop v) s)
       | None => Ok (ls_ret t None s)
       end.
Definition pop_retire (t : nat) (ltop v : Z) (s : LockfreeStack) : outcome LockfreeStack :=
  with_row t 0 (Ok (ls_goto t (PopScan (scan_start maxHPs 0) v) (ls_set_hp (retire_push ltop t (ls_hp s)) s))).
(** [delete obj] of a node that is no longer there fails. *)
Definition pop_scan (t : nat) (c : scan) (v : Z) (s : LockfreeStack) : outcome LockfreeStack :=
  match retire_step maxHPs maxThreads t c (ls_hp s) with
  | ScanFault => Fail
  | ScanDone => Ok (ls_ret t (Some v) s)
  | ScanGoto c' => Ok (ls_goto t (PopScan c' v) s)
  | ScanDelete obj c' h' =>
      with_node obj s (λ _, Ok (ls_goto t (PopScan c' v) (ls_set_nodes (delete obj (ls_nodes s)) (ls_set_hp h' s))))
  end.

(** What a thread does next: it calls [push], whose [new Node(item)] is given an
    address, or [pop], or it makes its next step. *)
Inductive laction := CallPush (val addr : Z) | CallPop | Go.

Definition lstep (t : nat) (a : laction) (s : LockfreeStack) : option (outcome LockfreeStack) :=
  match ls_pc s !! t, a with
  | None, CallPush v p =>
      if decide ((t < maxThreads)%nat ∧ p ≠ 0 ∧ ls_nodes s !! p = None) then
        Some (Ok (ls_goto t (PushLoad p) (ls_set_nodes (<[p := mkNode (Some v) 0]> (ls_nodes s)) s)))
      else None
  | None, CallPop => if decide (t < maxThreads)%nat then Some (Ok (ls_goto t PopLoad s)) else None
  | Some p, Go =>
      Some match p with
      | PushLoad n => Ok (ls_goto t (PushNext n (ls_top s)) s)
      | PushNext n ltop => push_next t n ltop s
      | PushCas n ltop => Ok (push_cas t n ltop s)
      | PopLoad => Ok (pop_load t s)
      | PopProtect ltop => pop_protect t ltop s
      | PopCheck ltop => Ok (pop_check t ltop s)
      | PopNext ltop => pop_next t ltop s
      | PopCas ltop lnext => Ok (pop_cas t ltop lnext s)
      | PopItem ltop => pop_item t ltop s
      | PopClear ihp r => pop_clear t ihp r s
      | PopRetire ltop v => pop_retire t ltop v s
      | PopScan c v => pop_scan t c v s
      end
  | _, _ => None
  end.

Fixpoint lruns (tr : list (nat * laction)) (s : LockfreeStack) : option (outcome LockfreeStack) :=
  match tr with
  | [] => Some (Ok s)
  | (t, a) :: tr' => match lstep t a s with Some (Ok s') => lruns tr' s' | r => r end
  end.

(** [pop(tid)] with no other thread running, and the item it returns. *)
Fixpoint run_alone (fuel t : nat) (s : LockfreeStack) : outcome LockfreeStack :=
  match fuel with
  | O => NoFuel
  | S fuel =>
      match ls_pc s !! t with
      | None => Ok s
      | Some _ => match lstep t Go s with Some (Ok s') => run_alone fuel t s' | Some o => o | None => Fail end
      end
  end.

Definition pop_alone (fuel t : nat) (s : LockfreeStack) : outcome (option Z * LockfreeStack) :=
  match lstep t CallPop s with
  | Some (Ok s1) =>
      match run_alone fuel t s1 with
      | Ok s' => Ok (last (ls_rets s') ≫= snd, s')
      | Fail => Fail
      | NoFuel => NoFuel
      end
  | _ => Fail
  end.

(** [while (pop(0));] *)
Fixpoint drain (N fuel : nat) (s : LockfreeStack) : outcome LockfreeStack :=
  match N with
  | O => NoFuel
  | S N =>
      match pop_alone fuel 0 s with
      | Ok (Some _, s') => drain N fuel s'
      | Ok (None, s') => Ok s'
      | Fail => Fail
      | NoFuel => NoFuel
      end
  end.

(** [~LockfreeStack], with the destructor of its member [hp]: the nodes that are left. *)
Definition LockfreeStack_dtor (N fuel : nat) (s : LockfreeStack) : outcome (gmap Z Node) :=
  match drain N fuel s with
  | Ok s' => delete_all (HazardPointers_dtor (ls_hp s')) (ls_nodes s')
  | Fail => Fail
  | NoFuel => NoFuel
  end.
End Steps.

(** ** The invariant *)

(** The stack as it is linked, from the top. *)
Fixpoint linked (m : gmap Z Node) (p : Z) (l : list Z) : Prop :=
  match l with
  | [] => p = 0
  | a :: l' => p = a ∧ ∃ N, m !! a = Some N ∧ linked m (next N) l'
  end.

Definition items (m : gmap Z Node) (l : list Z) : list Z := (λ a, default 0 (m !! a ≫= item)) <$> l.

(** The nodes a thread has for itself: the one it pushes, or has popped. *)
Definition owned (q : lpc) : list Z :=
  match q with
  | PushLoad n | PushNext n _ | PushCas n _ => [n]
  | PopItem p | PopClear _ (Some (p, _)) | PopRetire p _ => [p]
  | _ => []
  end.
Definition owns (s : LockfreeStack) (t : nat) : list Z := from_option owned [] (ls_pc s !! t).
Definition holds (s : LockfreeStack) (t : nat) : list Z := owns s t ++ retired t (ls_hp s).

(** The node it is about to push; nobody else has seen it. *)
Definition pushing (s : LockfreeStack) (t : nat) (n : Z) : Prop :=
  match ls_pc s !! t with
  | Some (PushLoad m | PushNext m _ | PushCas m _) => n = m
  | _ => False
  end.

(** The node that it may dereference though it can have been popped by others. *)
Definition relies (s : LockfreeStack) (t ihp : nat) (p : Z) : Prop :=
  ihp = kHpTop ∧ (ls_pc s !! t = Some (PopNext p) ∨ ∃ n, ls_pc s !! t = Some (PopCas p n)).

Definition pending (s : LockfreeStack) (t : nat) : list (option Z) :=
  match ls_pc s !! t with
  | Some (PopProtect p) => if p =? 0 then [None] else []
  | Some (PopItem p) => [item_at p s]
  | Some (PopClear _ r) => [snd <$> r]
  | Some (PopRetire _ v | PopScan _ v) => [Some v]
  | _ => []
  end.

(** The pops of a thread, as logged and as returned. *)
Definition pops_of (t : nat) (log : list (nat * sevent)) : list (option Z) :=
  omap (λ x, match x with (u, Popped r) => if decide (u = t) then Some r else None | _ => None end) log.
Definition rets_of (t : nat) (rets : list (nat * option Z)) : list (option Z) :=
  omap (λ x, if decide (x.1 = t) then Some x.2 else None) rets.

#[local] Arguments pops_of : simpl never.
#[local] Arguments rets_of : simpl never.

Lemma pops_of_snoc t log u e :
  pops_of t (log ++ [(u, e)]) = pops_of t log ++ match e with Popped r => if decide (u = t) then [r] else [] | _ => [] end.
Proof. unfold pops_of. rewrite omap_app. f_equal. destruct e; [done|]. cbn. by destruct (decide (u = t)). Qed.

Lemma rets_of_snoc t rets u r : rets_of t (rets ++ [(u, r)]) = rets_of t rets ++ if decide (u = t) then [r] else [].
Proof. unfold rets_of. rewrite omap_app. f_equal. cbn. by destruct (decide (u = t)). Qed.

Section Invariant.
Context (maxThreads : nat).

Definition published (s : LockfreeStack) (p : Z) : Prop :=
  is_Some (ls_nodes s !! p) ∧ ∀ u, ¬ pushing s u p.

Definition lpc_ok (s : LockfreeStack) (t : nat) (q : lpc) : Prop :=
  match q with
  | PushCas n ltop => ∃ N, ls_nodes s !! n = Some N ∧ next N = ltop
  | PopCheck ltop => ltop ≠ 0 ∧ hp_load t kHpTop (ls_hp s) = ltop
  | PopNext ltop => hp_load t kHpTop (ls_hp s) = ltop ∧ published s ltop
  | PopCas ltop lnext => hp_load t kHpTop (ls_hp s) = ltop ∧ published s ltop ∧
      ∃ N, ls_nodes s !! ltop = Some N ∧ next N = lnext
  | PopScan c _ => scan_ok (relies s) t c (ls_hp s) ∧ scan_wf maxHPs maxThreads c
  | _ => True
  end.

(** [l]: the nodes of the stack. Every node is there once, in the stack or with one
    thread. *)
Record linv (l : list Z) (s : LockfreeStack) : Prop := {
  li_stack : linked (ls_nodes s) (ls_top s) l;
  li_log : stack_history (ls_log s) [] = Some (items (ls_nodes s) l);
  li_nodes : ∀ a N, ls_nodes s !! a = Some N → a ≠ 0 ∧ is_Some (item N);
  li_all : all_held maxThreads l (holds s) (ls_nodes s);
  li_threads : ∀ t q, ls_pc s !! t = Some q → (t < maxThreads)%nat;
  li_pc : ∀ t q, ls_pc s !! t = Some q → lpc_ok s t q;
  li_rets : ∀ t, pops_of t (ls_log s) = rets_of t (ls_rets s) ++ pending s t;
  li_unused : ∀ t, (maxThreads ≤ t)%nat → retired t (ls_hp s) = []
}.

Lemma linked_ext m m' p l : (∀ a, a ∈ l → m' !! a = m !! a) → linked m p l → linked m' p l.
Proof.
  revert p. induction l as [|a l IH]; intros p H; cbn; [done|]. intros (-> & N & HN & Hl). split; [done|].
  exists N. rewrite H by left. split; [done|]. apply IH; [|done]. intros b Hb. apply H. by right.
Qed.

Lemma items_ext m m' l : (∀ a, a ∈ l → m' !! a = m !! a) → items m' l = items m l.
Proof.
  intros H. unfold items. apply list_fmap_ext. intros i a Ha. rewrite H; [done|]. by eapply list_elem_of_lookup_2.
Qed.

(** ** Who has a node *)

Section Who.
Context (l : list Z) (s : LockfreeStack) (H : linv l s).

Lemma thread_holds t a : a ∈ owns s t → (t < maxThreads)%nat ∧ a ∈ holds s t.
Proof using H.
  intros Ha. split; [|unfold holds; rewrite elem_of_app; by left]. unfold owns in Ha.
  destruct (ls_pc s !! t) as [q|] eqn:E; [|by apply elem_of_nil in Ha]. by apply (li_threads _ _ H t q).
Qed.

Lemma relies_ok t ihp p : relies s t ihp p →
  ihp = kHpTop ∧ (t < maxThreads)%nat ∧ hp_load t kHpTop (ls_hp s) = p ∧ published s p.
Proof using H.
  intros [-> [E|[n E]]]; pose proof (li_threads _ _ H _ _ E); pose proof (li_pc _ _ H _ _ E) as Hp; cbn in Hp; naive_solver.
Qed.

Lemma relied_now : relied maxHPs maxThreads (relies s) (ls_hp s).
Proof using H.
  constructor; intros t ihp p (-> & Ht & Hp & _)%relies_ok; [|done]. unfold kHpTop, maxHPs. lia.
Qed.
End Who.

(** ** A step of thread [t]

    What the step of a thread may do to what the others know. *)
Record quiet (l l' : list Z) (s s' : LockfreeStack) (t : nat) : Prop := {
  q_pc : ∀ u, u ≠ t → ls_pc s' !! u = ls_pc s !! u;
  q_retired : ∀ u, u ≠ t → retired u (ls_hp s') = retired u (ls_hp s);
  q_load : ∀ u, u ≠ t → hp_load u kHpTop (ls_hp s') = hp_load u kHpTop (ls_hp s);
  q_node : ∀ u a, u ≠ t → a ∈ owns s u ∨ relies s u kHpTop a → ls_nodes s' !! a = ls_nodes s !! a;
  q_push : ∀ n, pushing s' t n → pushing s t n ∨ ls_nodes s !! n = None;
  q_rely : ∀ p, relies s' t kHpTop p → relies s t kHpTop p ∨ p ∈ l
}.

Lemma quiet_relies l l' s s' t u ihp p : quiet l l' s s' t → u ≠ t → relies s' u ihp p ↔ relies s u ihp p.
Proof using. intros Q Hne. unfold relies. by rewrite (q_pc _ _ _ _ _ Q). Qed.

Lemma quiet_owns l l' s s' t u : quiet l l' s s' t → u ≠ t → owns s' u = owns s u.
Proof using. intros Q Hne. unfold owns. by rewrite (q_pc _ _ _ _ _ Q). Qed.

Lemma quiet_holds l l' s s' t u : quiet l l' s s' t → u ≠ t → holds s' u = holds s u.
Proof using.
  intros Q Hne. unfold holds. by rewrite (quiet_owns _ _ _ _ _ _ Q Hne), (q_retired _ _ _ _ _ Q).
Qed.

(** A node on which another thread relies stays published. *)
Lemma quiet_published l l' s s' t u p :
  linv l s → quiet l l' s s' t → u ≠ t → relies s u kHpTop p → published s' p.
Proof using.
  intros H Q Hne Hr. destruct (relies_ok l s H _ _ _ Hr) as (_ & _ & _ & Hs & Hp). split.
  - rewrite (q_node _ _ _ _ _ Q u); [done|done|by right].
  - intros v Hv. destruct (decide (v = t)) as [->|Hvt].
    + destruct (q_push _ _ _ _ _ Q p Hv) as [Hv2|Hv2]; [by apply (Hp t)|]. rewrite Hv2 in Hs. by destruct Hs.
    + apply (Hp v). unfold pushing in *. by rewrite (q_pc _ _ _ _ _ Q) in Hv.
Qed.

(** The scans of the other threads do not meet nodes on which a thread comes to rely. *)
Lemma quiet_scan l l' s s' t u c :
  linv l s → quiet l l' s s' t → u ≠ t → (u < maxThreads)%nat →
  scan_ok (relies s) u c (ls_hp s) → scan_ok (relies s') u c (ls_hp s').
Proof using.
  intros H Q Hne Hu Hc v ihp p Hr Hp. rewrite (q_retired _ _ _ _ _ Q) in Hp by done.
  destruct (decide (v = t)) as [->|Hvt].
  - pose proof Hr as [-> _]. destruct (q_rely _ _ _ _ _ Q p Hr) as [Hr2|Hl]; [by apply (Hc t kHpTop p)|].
    exfalso. apply (held_not_in maxThreads l (holds s) (ls_nodes s) (li_all _ _ H) u p); [done| |done]. unfold holds. apply elem_of_app. right.
    by eapply list_elem_of_lookup_2.
  - apply (Hc v ihp p); [|done]. by apply (quiet_relies l l' s s' t).
Qed.

Lemma quiet_pc l l' s s' t u q :
  linv l s → quiet l l' s s' t → u ≠ t → ls_pc s !! u = Some q → lpc_ok s' u q.
Proof using.
  intros H Q Hne Eq. pose proof (li_pc _ _ H u q Eq) as Hq. pose proof (li_threads _ _ H u q Eq) as Hu.
  pose proof (λ a, q_node _ _ _ _ _ Q u a Hne) as Hn. pose proof (q_load _ _ _ _ _ Q u Hne) as El.
  destruct q as [n|n p|n p| |p|p|p|p n|p|i r|p v|c v]; cbn [lpc_ok] in *; try done.
  - rewrite Hn; [done|]. left. unfold owns. rewrite Eq. cbn. left.
  - by rewrite El.
  - rewrite El. destruct Hq as [Hq1 _]. split; [done|]. apply (quiet_published l l' s s' t u); try done.
    split; [done|by left].
  - assert (relies s u kHpTop p) as Hr by (split; [done|right; by exists n]).
    rewrite El. destruct Hq as (Hq1 & _ & Hq3). split; [done|]. split; [by apply (quiet_published l l' s s' t u)|].
    rewrite Hn by (by right). done.
  - destruct Hq as [Hq Hw]. split; [|done]. by apply (quiet_scan l l' s s' t).
Qed.

Lemma quiet_pending l l' s s' t u : quiet l l' s s' t → u ≠ t → pending s' u = pending s u.
Proof using.
  intros Q Hne. unfold pending. rewrite (q_pc _ _ _ _ _ Q) by done. destruct (ls_pc s !! u) as [q|] eqn:E; [|done].
  destruct q; try done. unfold item_at. rewrite (q_node _ _ _ _ _ Q u); [done|done|]. left. unfold owns. rewrite E. left.
Qed.

Lemma linv_step l l' s s' t :
  linv l s → quiet l l' s s' t → (t < maxThreads)%nat →
  linked (ls_nodes s') (ls_top s') l' → stack_history (ls_log s') [] = Some (items (ls_nodes s') l') →
  (∀ a N, ls_nodes s' !! a = Some N → a ≠ 0 ∧ is_Some (item N)) →
  (∀ us vs, l ++ us ++ holds s t ++ vs ≡ₚ (map_to_list (ls_nodes s)).*1 →
     l' ++ us ++ holds s' t ++ vs ≡ₚ (map_to_list (ls_nodes s')).*1) →
  (∀ q, ls_pc s' !! t = Some q → lpc_ok s' t q) →
  (∀ u, u ≠ t → pops_of u (ls_log s') = pops_of u (ls_log s) ∧ rets_of u (ls_rets s') = rets_of u (ls_rets s)) →
  pops_of t (ls_log s') = rets_of t (ls_rets s') ++ pending s' t →
  linv l' s'.
Proof using.
  intros H Q Ht H1 H2 H3 H4 H5 H6 H7. constructor; try done.
  - apply (all_held_step maxThreads l (holds s) (ls_nodes s) (li_all _ _ H) l' _ _ t); [done| |done].
    intros u Hu. by apply (quiet_holds l l' s s' t).
  - intros u q Hu. destruct (decide (u = t)) as [->|Hne]; [done|].
    rewrite (q_pc _ _ _ _ _ Q) in Hu by done. by apply (li_threads _ _ H u q).
  - intros u q Hu. destruct (decide (u = t)) as [->|Hne]; [by apply H5|].
    rewrite (q_pc _ _ _ _ _ Q) in Hu by done. by apply (quiet_pc l l' s s' t).
  - intros u. destruct (decide (u = t)) as [->|Hne]; [done|]. destruct (H6 u Hne) as [-> ->].
    rewrite (quiet_pending l l' s s' t u Q Hne). apply H.
  - intros u Hu. rewrite (q_retired _ _ _ _ _ Q) by lia. by apply (li_unused _ _ H).
Qed.

(** ** Steps that leave nodes, top and retired lists alone *)

Lemma linv_local l s s' t :
  linv l s → (t < maxThreads)%nat → ls_top s' = ls_top s → ls_nodes s' = ls_nodes s →
  (∀ u, retired u (ls_hp s') = retired u (ls_hp s)) →
  (∀ u, u ≠ t → hp_load u kHpTop (ls_hp s') = hp_load u kHpTop (ls_hp s)) →
  (∀ u, u ≠ t → ls_pc s' !! u = ls_pc s !! u) → owns s' t = owns s t →
  (∀ n, pushing s' t n → pushing s t n) → (∀ p, relies s' t kHpTop p → relies s t kHpTop p ∨ p ∈ l) →
  stack_history (ls_log s') [] = stack_history (ls_log s) [] → (∀ q, ls_pc s' !! t = Some q → lpc_ok s' t q) →
  (∀ u, u ≠ t → pops_of u (ls_log s') = pops_of u (ls_log s) ∧ rets_of u (ls_rets s') = rets_of u (ls_rets s)) →
  pops_of t (ls_log s') = rets_of t (ls_rets s') ++ pending s' t →
  linv l s'.
Proof using.
  intros H Ht Et En Er El Ep Eo Hpush Hrely Eh Hok Hrest Hrt. apply (linv_step l l s s' t); try done.
  - constructor; try done.
    + intros u a _ _. by rewrite En.
    + intros n Hn. left. by apply Hpush.
  - rewrite En, Et. apply H.
  - rewrite Eh, En. apply H.
  - rewrite En. apply H.
  - intros us vs Hp. unfold holds. rewrite Eo, Er, En. exact Hp.
Qed.

(** The thread only moves on. *)
Lemma linv_goto l s t q0 q :
  linv l s → ls_pc s !! t = Some q0 → owned q = owned q0 →
  (∀ n, pushing (ls_goto t q s) t n → pushing s t n) →
  (∀ p, relies (ls_goto t q s) t kHpTop p → relies s t kHpTop p ∨ p ∈ l) →
  lpc_ok (ls_goto t q s) t q → pending (ls_goto t q s) t = pending s t → linv l (ls_goto t q s).
Proof using.
  intros H Eq Eo Hpush Hrely Hok Hpe. pose proof (li_threads _ _ H t q0 Eq) as Ht.
  apply (linv_local l s _ t); try done.
  - intros u Hu. cbn. by rewrite lookup_insert_ne.
  - unfold owns. cbn. rewrite lookup_insert_eq, Eq. done.
  - intros q'. cbn. rewrite lookup_insert_eq. by intros [= <-].
  - rewrite Hpe. apply (li_rets _ _ H).
Qed.

(** The head of the stack is published. *)
Lemma head_published l s : linv l s → ls_top s ≠ 0 → ∃ l' N, l = ls_top s :: l' ∧
  ls_nodes s !! ls_top s = Some N ∧ linked (ls_nodes s) (next N) l' ∧ published s (ls_top s).
Proof using.
  intros H Hne. pose proof (li_stack _ _ H) as Hl. destruct l as [|a l']; [by destruct Hne|].
  destruct Hl as (-> & N & HN & Hl). exists l', N. split_and!; try done. split; [by eexists|]. intros u Hu.
  assert (a ∈ owns s u) as Ho.
  { unfold pushing, owns in *. destruct (ls_pc s !! u) as [q|]; [|done]. destruct q; try done; cbn in *; subst; left. }
  destruct (thread_holds _ s H u a Ho) as [Hu2 Hh]. apply (held_not_in maxThreads _ (holds s) (ls_nodes s) (li_all _ _ H) u a Hu2 Hh). left.
Qed.

Ltac own_step Eq := unfold pushing, relies, pending, owns; cbn; rewrite ?lookup_insert_eq, ?Eq; try done; try naive_solver.

Lemma push_load_ok l s t n :
  linv l s → ls_pc s !! t = Some (PushLoad n) → linv l (ls_goto t (PushNext n (ls_top s)) s).
Proof using. intros H Eq. apply (linv_goto l s t (PushLoad n)); try done; own_step Eq. Qed.

Lemma pop_load_ok l s t : linv l s → ls_pc s !! t = Some PopLoad → linv l (pop_load t s).
Proof using.
  intros H Eq. pose proof (li_threads _ _ H t _ Eq) as Ht. unfold pop_load.
  destruct (Z.eqb_spec (ls_top s) 0) as [E0|Hne].
  - assert (l = []) as ->.
    { destruct l as [|a l]; [done|]. destruct (li_stack _ _ H) as (Ea & N & HN & _). rewrite E0 in Ea. subst a.
      by destruct (li_nodes _ _ H 0 N HN). }
    apply (linv_local [] s _ t); try done; [| |own_step Eq..| |].
    + intros u Hu. cbn. by rewrite lookup_insert_ne.
    + own_step Eq.
    + cbn [ls_log ls_event ls_goto]. rewrite (stack_history_snoc _ _ _ _ [] (li_log _ _ H)). symmetry. apply H.
    + intros u Hu. cbn. rewrite pops_of_snoc. by rewrite decide_False, app_nil_r by done.
    + cbn. rewrite pops_of_snoc, decide_True by done.
      rewrite (li_rets _ _ H). unfold pending. cbn. rewrite lookup_insert_eq, Eq, E0. cbn. by rewrite app_nil_r.
  - apply (linv_goto l s t PopLoad); try done; own_step Eq. by rewrite (proj2 (Z.eqb_neq _ _)).
Qed.

(** Writing its own hazard pointer. *)
Lemma linv_protect l s t q0 q p :
  linv l s → ls_pc s !! t = Some q0 → owned q = owned q0 →
  let s' := ls_goto t q (ls_set_hp (protectPtr kHpTop p t (ls_hp s)) s) in
  (∀ n, ¬ pushing s' t n) → (∀ x, ¬ relies s' t kHpTop x) → lpc_ok s' t q → pending s' t = pending s t → linv l s'.
Proof using.
  intros H Eq Eo s' Hpush Hrely Hok Hpe. pose proof (li_threads _ _ H t q0 Eq) as Ht.
  apply (linv_local l s s' t); try done.
  - intros u Hu. cbn. apply hp_load_ne. congruence.
  - intros u Hu. cbn. by rewrite lookup_insert_ne.
  - unfold owns. cbn. rewrite lookup_insert_eq, Eq. done.
  - intros n Hn. by destruct (Hpush n).
  - intros x Hx. by destruct (Hrely x).
  - intros q'. cbn. rewrite lookup_insert_eq. by intros [= <-].
  - rewrite Hpe. apply (li_rets _ _ H).
Qed.

Context (Hrows : rows_for maxThreads).

Lemma ls_rows l s t q i : linv l s → ls_pc s !! t = Some q → (i < HP_MAX_HPS)%nat → in_rows t i = true.
Proof using Hrows. intros H Eq Hi. pose proof (li_threads _ _ H t q Eq). unfold rows_for in Hrows. apply in_rows_true; [lia|done]. Qed.

Lemma pop_protect_ok l s t p :
  linv l s → ls_pc s !! t = Some (PopProtect p) → ∃ s', pop_protect t p s = Ok s' ∧ linv l s'.
Proof using Hrows.
  intros H Eq. unfold pop_protect, with_row. rewrite (ls_rows l s t _ _ H Eq) by (unfold kHpTop, HP_MAX_HPS; lia).
  eexists. split; [done|]. apply (linv_protect l s t (PopProtect p)); try done; destruct (Z.eqb_spec p 0); own_step Eq.
  - split; [done|]. apply hp_load_eq.
  - by rewrite (proj2 (Z.eqb_neq _ _)).
Qed.

Lemma ls_pop_check_ok l s t p : linv l s → ls_pc s !! t = Some (PopCheck p) → linv l (pop_check t p s).
Proof using.
  intros H Eq. pose proof (li_pc _ _ H t _ Eq) as [Hp Hh]. unfold pop_check.
  destruct (Z.eqb_spec (ls_top s) p) as [E|Hne]; [|apply (linv_goto l s t (PopCheck p)); try done; own_step Eq].
  destruct (head_published l s H) as (l' & N & El & _ & _ & Hpub); [congruence|]. rewrite E in *.
  apply (linv_goto l s t (PopCheck p)); try done; [own_step Eq| |..|own_step Eq].
  - intros x [_ [Hx|[n Hx]]]; cbn in Hx; rewrite lookup_insert_eq in Hx; [|done]. injection Hx as <-. right. rewrite El. left.
  - split; [done|]. destruct Hpub as [P1 P2]. split; [done|]. intros u Hu. apply (P2 u). unfold pushing in *. cbn in Hu.
    destruct (decide (u = t)) as [->|Hut]; [by rewrite lookup_insert_eq in Hu|by rewrite lookup_insert_ne in Hu].
Qed.

Lemma published_goto s t q p : (∀ n, ¬ pushing (ls_goto t q s) t n) → published s p → published (ls_goto t q s) p.
Proof using.
  intros Ht [P1 P2]. split; [done|]. intros u Hu. destruct (decide (u = t)) as [->|Hut]; [by apply (Ht p)|].
  apply (P2 u). unfold pushing in *. cbn in Hu. by rewrite lookup_insert_ne in Hu.
Qed.

Lemma pop_next_ok l s t p : linv l s → ls_pc s !! t = Some (PopNext p) → ∃ s', pop_next t p s = Ok s' ∧ linv l s'.
Proof using.
  intros H Eq. pose proof (li_pc _ _ H t _ Eq) as [Hp Hpub]. pose proof Hpub as [[N HN] _].
  unfold pop_next, with_node. rewrite HN. eexists. split; [done|].
  apply (linv_goto l s t (PopNext p)); try done; [own_step Eq..| |own_step Eq].
  split; [done|]. split; [|by exists N]. apply published_goto; [|done]. own_step Eq.
Qed.

Lemma pop_cas_fail_ok l s t p n :
  linv l s → ls_pc s !! t = Some (PopCas p n) → linv l (ls_goto t PopLoad s).
Proof using. intros H Eq. apply (linv_goto l s t (PopCas p n)); try done; own_step Eq. Qed.

Lemma pop_item_ok l s t p : linv l s → ls_pc s !! t = Some (PopItem p) → ∃ s', pop_item t p s = Ok s' ∧ linv l s'.
Proof using.
  intros H Eq. assert (p ∈ owns s t) as Ho by (unfold owns; rewrite Eq; left).
  destruct (thread_holds l s H t p Ho) as [Ht Hh]. destruct (held_node maxThreads l (holds s) (ls_nodes s) (li_all _ _ H) t p Ht Hh) as [N HN].
  destruct (li_nodes _ _ H p N HN) as [_ [v Hv]]. unfold pop_item, with_node. rewrite HN, Hv. eexists. split; [done|].
  apply (linv_goto l s t (PopItem p)); try done; own_step Eq. unfold item_at. rewrite HN. cbn. by rewrite Hv.
Qed.

Lemma linv_ret l s t q0 r :
  linv l s → ls_pc s !! t = Some q0 → owned q0 = [] → pending s t = [r] → linv l (ls_ret t r s).
Proof using.
  intros H Eq Eo Hr. pose proof (li_threads _ _ H t q0 Eq) as Ht.
  apply (linv_local l s _ t); try done.
  - intros u Hu. cbn. by rewrite lookup_delete_ne.
  - unfold owns. cbn. rewrite lookup_delete_eq, Eq. cbn. by rewrite Eo.
  - unfold pushing. cbn. by rewrite lookup_delete_eq.
  - unfold relies. cbn. rewrite lookup_delete_eq. naive_solver.
  - intros q. cbn. by rewrite lookup_delete_eq.
  - intros u Hu. cbn. rewrite rets_of_snoc. by rewrite decide_False, app_nil_r by done.
  - cbn. rewrite rets_of_snoc, decide_True by done. unfold pending. cbn.
    rewrite lookup_delete_eq, app_nil_r. rewrite <- Hr. apply (li_rets _ _ H).
Qed.

Lemma pop_clear_ok l s t i r :
  linv l s → ls_pc s !! t = Some (PopClear i r) → ∃ s', pop_clear t i r s = Ok s' ∧ linv l s'.
Proof using Hrows.
  intros H Eq. unfold pop_clear, with_row. destruct (Nat.ltb_spec i maxHPs) as [Hi|Hi].
  - assert (i = kHpTop) as -> by (unfold maxHPs, kHpTop in *; lia). unfold clearOne.
    rewrite (ls_rows l s t _ _ H Eq) by (unfold kHpTop, HP_MAX_HPS; lia). eexists. split; [done|].
    apply (linv_protect l s t (PopClear kHpTop r)); try done; own_step Eq.
  - destruct r as [[p v]|]; (eexists; split; [done|]).
    + apply (linv_goto l s t (PopClear i (Some (p, v)))); try done; own_step Eq.
    + apply (linv_ret l s t (PopClear i None)); try done. own_step Eq.
Qed.

(** ** Steps on nodes and the top *)

(** Another thread neither owns nor relies on a node that [t] owns. *)
Lemma owned_alone l s t u a n :
  linv l s → n ∈ owns s t → u ≠ t → a ∈ owns s u ∨ relies s u kHpTop a → pushing s t n → a ≠ n.
Proof using.
  intros H Hn Hne [Ha|Hr] Hp ->.
  - destruct (thread_holds l s H t n Hn) as [Ht Hh]. destruct (thread_holds l s H u n Ha) as [Hu Hh2].
    by apply (held_once maxThreads l (holds s) (ls_nodes s) (li_all _ _ H) t u n Ht Hu Hne Hh).
  - destruct (relies_ok l s H u _ n Hr) as (_ & _ & _ & _ & Hpub). by apply (Hpub t).
Qed.

Lemma push_next_ok l s t n p :
  linv l s → ls_pc s !! t = Some (PushNext n p) → ∃ s', push_next t n p s = Ok s' ∧ linv l s'.
Proof using.
  intros H Eq. assert (n ∈ owns s t) as Ho by (unfold owns; rewrite Eq; left).
  destruct (thread_holds l s H t n Ho) as [Ht Hh]. destruct (held_node maxThreads l (holds s) (ls_nodes s) (li_all _ _ H) t n Ht Hh) as [N HN].
  assert (pushing s t n) as Hpn by (unfold pushing; by rewrite Eq).
  unfold push_next, with_node. rewrite HN. eexists. split; [done|].
  assert (∀ a, a ∈ l → <[n := with_next p N]> (ls_nodes s) !! a = ls_nodes s !! a) as Hl.
  { intros a Ha. apply lookup_insert_ne. intros <-. by apply (held_not_in maxThreads l (holds s) (ls_nodes s) (li_all _ _ H) t n). }
  apply (linv_step l l s _ t); try done.
  - constructor; try done.
    + intros u Hu. cbn. by rewrite lookup_insert_ne.
    + intros u a Hu Ha. cbn. apply lookup_insert_ne. intros <-. by apply (owned_alone l s t u n n).
    + own_step Eq.
    + own_step Eq.
  - apply (linked_ext (ls_nodes s)); [done|apply H].
  - cbn. rewrite (items_ext (ls_nodes s)) by done. apply H.
  - intros a M. cbn. destruct (decide (n = a)) as [<-|Hne]; [rewrite lookup_insert_eq|rewrite lookup_insert_ne by done; apply H].
    intros [= <-]. apply (li_nodes _ _ H n N HN).
  - intros us vs Hp. unfold holds, owns in *. rewrite Eq in Hp. cbn. rewrite lookup_insert_eq. cbn in *. rewrite Hp.
    symmetry. apply nodes_update. by eexists.
  - intros q. cbn. rewrite lookup_insert_eq. intros [= <-]. cbn. rewrite lookup_insert_eq. by eexists.
  - cbn. unfold pending. cbn. rewrite lookup_insert_eq. rewrite (li_rets _ _ H). unfold pending. by rewrite Eq.
Qed.

Lemma push_cas_ok l s t n p :
  linv l s → ls_pc s !! t = Some (PushCas n p) → ∃ l', linv l' (push_cas t n p s).
Proof using.
  intros H Eq. unfold push_cas. destruct (Z.eqb_spec (ls_top s) p) as [E|Hne].
  2:{ exists l. apply (linv_goto l s t (PushCas n p)); try done; own_step Eq. }
  assert (n ∈ owns s t) as Ho by (unfold owns; rewrite Eq; left).
  destruct (thread_holds l s H t n Ho) as [Ht Hh]. destruct (li_pc _ _ H t _ Eq) as (N & HN & En).
  exists (n :: l). apply (linv_step l (n :: l) s _ t); try done.
  - constructor; try done.
    + intros u Hu. cbn. by rewrite lookup_delete_ne.
    + unfold pushing. cbn. by rewrite lookup_delete_eq.
    + unfold relies. cbn. rewrite lookup_delete_eq. naive_solver.
  - cbn. split; [done|]. exists N. split; [done|]. rewrite En, <- E. apply H.
  - cbn [ls_log ls_event]. rewrite (stack_history_snoc _ _ _ _ _ (li_log _ _ H)). done.
  - apply H.
  - intros us vs Hp. unfold holds, owns in *. rewrite Eq in Hp. cbn in *. rewrite lookup_delete_eq. cbn.
    rewrite <- Hp. solve_Permutation.
  - intros q. cbn. by rewrite lookup_delete_eq.
  - intros u Hu. cbn. rewrite pops_of_snoc. by rewrite app_nil_r.
  - cbn. rewrite pops_of_snoc, app_nil_r. unfold pending. cbn. rewrite lookup_delete_eq.
    rewrite (li_rets _ _ H). unfold pending. by rewrite Eq.
Qed.

Lemma pop_cas_ok l s t p n :
  linv l s → ls_pc s !! t = Some (PopCas p n) → ∃ l', linv l' (pop_cas t p n s).
Proof using.
  intros H Eq. unfold pop_cas. destruct (Z.eqb_spec (ls_top s) p) as [E|Hne].
  2:{ exists l. by apply (pop_cas_fail_ok l s t p n). }
  pose proof (li_threads _ _ H t _ Eq) as Ht. destruct (li_pc _ _ H t _ Eq) as (_ & [[N HN] _] & N' & HN' & En).
  assert (N' = N) as -> by congruence. destruct (li_nodes _ _ H p N HN) as [Hp0 [v Hv]].
  destruct (head_published l s H) as (l' & M & El & HM & Hl' & _); [congruence|]. rewrite E in *.
  assert (M = N) as -> by congruence. subst l. exists l'. apply (linv_step (p :: l') l' s _ t); try done.
  - constructor; try done.
    + intros u Hu. cbn. by rewrite lookup_insert_ne.
    + own_step Eq.
    + own_step Eq.
  - cbn. by rewrite <- En.
  - cbn [ls_log ls_event ls_goto ls_set_top]. rewrite (stack_history_snoc _ _ _ _ _ (li_log _ _ H)). cbn.
    unfold item_at. rewrite HN. cbn. rewrite Hv. cbn. by rewrite Z.eqb_refl.
  - apply H.
  - intros us vs Hp. unfold holds, owns in *. rewrite Eq in Hp. cbn in *. rewrite lookup_insert_eq. cbn.
    rewrite <- Hp. solve_Permutation.
  - intros q. cbn. rewrite lookup_insert_eq. by intros [= <-].
  - intros u Hu. cbn. rewrite pops_of_snoc. by rewrite decide_False, app_nil_r by done.
  - cbn. rewrite pops_of_snoc, decide_True by done. rewrite (li_rets _ _ H). unfold pending. cbn. rewrite lookup_insert_eq, Eq. by rewrite app_nil_r.
Qed.

(** ** Retiring and deleting *)

Lemma pop_retire_ok l s t p v :
  linv l s → ls_pc s !! t = Some (PopRetire p v) → ∃ s', pop_retire t p v s = Ok s' ∧ linv l s'.
Proof using Hrows.
  intros H Eq. pose proof (li_threads _ _ H t _ Eq) as Ht. unfold pop_retire, with_row.
  rewrite (ls_rows l s t _ _ H Eq) by (unfold HP_MAX_HPS; lia). eexists. split; [done|].
  match goal with |- linv _ ?S => set (s' := S) end.
  assert (∀ u i x, relies s' u i x → relies s u i x) as Hr.
  { intros u i x. unfold relies, s'. cbn. destruct (decide (u = t)) as [->|Hu].
    - rewrite lookup_insert_eq. naive_solver.
    - by rewrite lookup_insert_ne. }
  apply (linv_step l l s s' t); try apply H; try done.
  - constructor; try done.
    + intros u Hu. cbn. by rewrite lookup_insert_ne.
    + intros u Hu. cbn. by apply retired_ne.
    + unfold s'. own_step Eq.
    + intros x Hx. left. by apply Hr.
  - intros us vs Hp. unfold holds, owns in *. rewrite Eq in Hp. unfold s', retire_push. cbn in *. rewrite lookup_insert_eq. cbn.
    rewrite retired_eq. rewrite <- Hp. solve_Permutation.
  - intros q. cbn. rewrite lookup_insert_eq. intros [= <-]. split; [|apply scan_start_wf].
    apply (scan_start_ok maxHPs maxThreads). destruct (relied_now l s H) as [R1 R2]. constructor; intros u i x Hx%Hr.
    + by apply (R1 u i x).
    + by apply R2.
  - rewrite (li_rets _ _ H). unfold pending, s'. cbn. by rewrite lookup_insert_eq, Eq.
Qed.

Lemma pop_scan_goto l s t c c' v :
  linv l s → ls_pc s !! t = Some (PopScan c v) → scan_ok (relies s) t c' (ls_hp s) → scan_wf maxHPs maxThreads c' →
  linv l (ls_goto t (PopScan c' v) s).
Proof using.
  intros H Eq Hc Hw. apply (linv_goto l s t (PopScan c v)); try done; [own_step Eq..| |own_step Eq].
  split; [|done]. intros u i x Hx. apply Hc. unfold relies in *. cbn in Hx. destruct (decide (u = t)) as [->|Hu].
  - rewrite lookup_insert_eq in Hx. naive_solver.
  - by rewrite lookup_insert_ne in Hx.
Qed.

(** A retired node on which nobody relies is deleted. *)
Lemma pop_scan_delete l s t c v obj :
  linv l s → ls_pc s !! t = Some (PopScan c v) → retired t (ls_hp s) !! iret c = Some obj →
  (∀ u i, ¬ relies s u i obj) →
  is_Some (ls_nodes s !! obj) ∧
  linv l (ls_goto t (PopScan (scan_start maxHPs (iret c)) v) (ls_set_nodes (delete obj (ls_nodes s))
    (ls_set_hp (set_retired t (delete (iret c) (retired t (ls_hp s))) (ls_hp s)) s))).
Proof using.
  intros H Eq Hobj Hno. pose proof (li_threads _ _ H t _ Eq) as Ht. pose proof (delete_Permutation _ _ _ Hobj) as Hperm.
  assert (obj ∈ holds s t) as Hh by (unfold holds; rewrite elem_of_app; right; by eapply list_elem_of_lookup_2).
  pose proof (held_node maxThreads l (holds s) (ls_nodes s) (li_all _ _ H) t obj Ht Hh) as [N HN]. split; [by eexists|].
  match goal with |- linv _ ?S => set (s' := S) end.
  assert (∀ u i x, relies s' u i x → relies s u i x) as Hr.
  { intros u i x. unfold relies, s'. cbn. destruct (decide (u = t)) as [->|Hu].
    - rewrite lookup_insert_eq. naive_solver.
    - by rewrite lookup_insert_ne. }
  assert (∀ a, a ∈ l → delete obj (ls_nodes s) !! a = ls_nodes s !! a) as Hl.
  { intros a Ha. apply lookup_delete_ne. intros <-. by apply (held_not_in maxThreads l (holds s) (ls_nodes s) (li_all _ _ H) t obj). }
  apply (linv_step l l s s' t); try done.
  - constructor; try done.
    + intros u Hu. cbn. by rewrite lookup_insert_ne.
    + intros u Hu. cbn. by apply retired_ne.
    + intros u a Hu Ha. cbn. apply lookup_delete_ne. intros <-. destruct Ha as [Ha|Ha]; [|by apply (Hno u kHpTop)].
      destruct (thread_holds l s H u obj Ha) as [Hu2 Hh2]. by apply (held_once maxThreads l (holds s) (ls_nodes s) (li_all _ _ H) t u obj).
    + unfold s'. own_step Eq.
    + intros x Hx. left. by apply Hr.
  - apply (linked_ext (ls_nodes s)); [done|apply H].
  - cbn. rewrite (items_ext (ls_nodes s)) by done. apply H.
  - intros a M. cbn. intros [_ HM]%lookup_delete_Some. by apply (li_nodes _ _ H a M).
  - intros us vs Hp. unfold holds, owns in *. rewrite Eq in Hp. unfold s'. cbn in *. rewrite lookup_insert_eq. cbn.
    rewrite retired_eq. apply (Permutation_cons_inv (a := obj)).
    transitivity (map_to_list (ls_nodes s)).*1.
    + rewrite <- Hp. revert Hperm. generalize (delete (iret c) (retired t (ls_hp s))) as D. intros D ->. solve_Permutation.
    + apply nodes_delete. by eexists.
  - intros q. cbn. rewrite lookup_insert_eq. intros [= <-]. split; [|apply scan_start_wf].
    apply (scan_start_ok maxHPs maxThreads). destruct (relied_now l s H) as [R1 R2]. constructor; intros u i x Hx%Hr.
    + by apply (R1 u i x).
    + by apply R2.
  - cbn. rewrite (li_rets _ _ H). unfold pending, s'. cbn. by rewrite lookup_insert_eq, Eq.
Qed.

Lemma pop_scan_ok l s t c v :
  linv l s → ls_pc s !! t = Some (PopScan c v) → ∃ s', pop_scan maxThreads t c v s = Ok s' ∧ linv l s'.
Proof using Hrows.
  intros H Eq. destruct (li_pc _ _ H t _ Eq) as [Hc Hw]. unfold pop_scan.
  pose proof (retire_step_ok maxHPs maxThreads (relies s) t c (ls_hp s) Hrows ltac:(unfold maxHPs, HP_MAX_HPS; lia)
    (li_threads _ _ H t _ Eq) ltac:(unfold scan_wf in Hw; lia) (relied_now l s H) Hc) as Hok.
  pose proof (retire_step_rank maxHPs maxThreads t c (ls_hp s) Hw) as Hrk.
  destruct (retire_step maxHPs maxThreads t c (ls_hp s)) as [| |c'|obj c' h']; [done|..].
  - eexists. split; [done|]. apply (linv_ret l s t (PopScan c v)); try done. unfold pending. by rewrite Eq.
  - eexists. split; [done|]. apply (pop_scan_goto l s t c); [done..|apply Hrk].
  - destruct Hok as (Ho & -> & -> & Hno). destruct (pop_scan_delete l s t c v obj H Eq Ho Hno) as [[N HN] Hi].
    unfold with_node. rewrite HN. eexists. split; [done|exact Hi].
Qed.

(** ** Calls *)

Lemma call_push_ok l s t v p :
  linv l s → ls_pc s !! t = None → (t < maxThreads)%nat → p ≠ 0 → ls_nodes s !! p = None →
  linv l (ls_goto t (PushLoad p) (ls_set_nodes (<[p := mkNode (Some v) 0]> (ls_nodes s)) s)).
Proof using.
  intros H Eq Ht Hp HN. match goal with |- linv _ ?S => set (s' := S) end.
  assert (∀ a, is_Some (ls_nodes s !! a) → <[p := mkNode (Some v) 0]> (ls_nodes s) !! a = ls_nodes s !! a) as Hl.
  { intros a [M HM]. apply lookup_insert_ne. congruence. }
  assert (∀ a, a ∈ l → is_Some (ls_nodes s !! a)) as Hin by (intros a Ha; apply (all_nodes maxThreads l (holds s) (ls_nodes s) (li_all _ _ H)); by left).
  apply (linv_step l l s s' t); try done.
  - constructor; try done.
    + intros u Hu. cbn. by rewrite lookup_insert_ne.
    + intros u a Hu [Ha|Ha]; cbn; apply Hl.
      * destruct (thread_holds l s H u a Ha) as [Hu2 Hh]. by apply (held_node maxThreads l (holds s) (ls_nodes s) (li_all _ _ H) u).
      * by destruct (relies_ok l s H u _ a Ha) as (_ & _ & _ & Hs & _).
    + intros n. unfold pushing, s'. cbn. rewrite lookup_insert_eq. intros ->. by right.
    + unfold s'. own_step Eq.
  - apply (linked_ext (ls_nodes s)); [intros a Ha; by apply Hl, Hin|apply H].
  - cbn. rewrite (items_ext (ls_nodes s)) by (intros a Ha; by apply Hl, Hin). apply H.
  - intros a M. cbn. destruct (decide (p = a)) as [<-|Hne].
    + rewrite lookup_insert_eq. intros [= <-]. done.
    + rewrite lookup_insert_ne by done. apply H.
  - intros us vs Hperm. unfold holds, owns in *. rewrite Eq in Hperm. unfold s'. cbn in *. rewrite lookup_insert_eq. cbn.
    rewrite nodes_new, <- Hperm by done. solve_Permutation.
  - intros q. cbn. rewrite lookup_insert_eq. by intros [= <-].
  - cbn. rewrite (li_rets _ _ H). unfold pending, s'. cbn. by rewrite lookup_insert_eq, Eq.
Qed.

Lemma call_pop_ok l s t : linv l s → ls_pc s !! t = None → (t < maxThreads)%nat → linv l (ls_goto t PopLoad s).
Proof using.
  intros H Eq Ht. apply (linv_local l s _ t); try done; [|own_step Eq..| |].
  - intros u Hu. cbn. by rewrite lookup_insert_ne.
  - intros q. cbn. rewrite lookup_insert_eq. by intros [= <-].
  - rewrite (li_rets _ _ H). own_step Eq.
Qed.

Lemma LockfreeStack_ctor_inv : linv [] LockfreeStack_ctor.
Proof using.
  constructor; try done.
  - unfold all_held. cbn [ls_nodes LockfreeStack_ctor]. rewrite map_to_list_empty. cbn. induction (seq 0 maxThreads) as [|t ts IH]; [done|]. by rewrite bind_cons.
Qed.

(** Every step succeeds and keeps the invariant. *)
Lemma lstep_ok l s t a r : linv l s → lstep maxThreads t a s = Some r → ∃ s' l', r = Ok s' ∧ linv l' s'.
Proof using Hrows.
  intros H. unfold lstep. destruct (ls_pc s !! t) as [q|] eqn:Eq.
  - destruct a; [done..|]. intros [= <-]. destruct q as [n|n p|n p| |p|p|p|p n|p|i r|p v|c v].
    + eexists _, l. split; [done|]. by apply push_load_ok.
    + destruct (push_next_ok l s t n p H Eq) as (s' & -> & Hs). eauto.
    + destruct (push_cas_ok l s t n p H Eq) as (l' & Hs). eauto.
    + eexists _, l. split; [done|]. by apply pop_load_ok.
    + destruct (pop_protect_ok l s t p H Eq) as (s' & -> & Hs). eauto.
    + eexists _, l. split; [done|]. by apply ls_pop_check_ok.
    + destruct (pop_next_ok l s t p H Eq) as (s' & -> & Hs). eauto.
    + destruct (pop_cas_ok l s t p n H Eq) as (l' & Hs). eauto.
    + destruct (pop_item_ok l s t p H Eq) as (s' & -> & Hs). eauto.
    + destruct (pop_clear_ok l s t i r H Eq) as (s' & -> & Hs). eauto.
    + destruct (pop_retire_ok l s t p v H Eq) as (s' & -> & Hs). eauto.
    + destruct (pop_scan_ok l s t c v H Eq) as (s' & -> & Hs). eauto.
  - destruct a as [v p| |]; [| |done].
    + case_decide as Hd; [|done]. destruct Hd as (Ht & Hp & HN). intros [= <-]. eexists _, l. split; [done|].
      by apply call_push_ok.
    + case_decide as Hd; [|done]. intros [= <-]. eexists _, l. split; [done|]. by apply call_pop_ok.
Qed.

Lemma lruns_ok tr l s r : linv l s → lruns maxThreads tr s = Some r → ∃ s' l', r = Ok s' ∧ linv l' s'.
Proof using Hrows.
  revert l s. induction tr as [|[t a] tr IH]; intros l s H; cbn; [intros [= <-]; eauto|].
  destruct (lstep maxThreads t a s) as [r'|] eqn:E; [|done].
  destruct (lstep_ok l s t a r' H E) as (s' & l' & -> & H'). by apply (IH l').
Qed.

(** ** Progress

    The number of steps a thread has left when the others do nothing: a scan of its
    retired nodes for every node, and one more attempt when what it has loaded is no
    longer the top. *)
Definition scan_steps (s : LockfreeStack) (t : nat) : nat :=
  (length (retired t (ls_hp s)) + 1) * scan_cost maxHPs maxThreads + 2.
Definition stale (s : LockfreeStack) (p : Z) : nat := if ls_top s =? p then 0 else 10.

Definition lrank (s : LockfreeStack) (t : nat) : nat :=
  match ls_pc s !! t with
  | None => 0
  | Some (PushLoad _) => 3
  | Some (PushNext _ p) => 2 + stale s p
  | Some (PushCas _ p) => 1 + stale s p
  | Some PopLoad => scan_steps s t + 8
  | Some (PopProtect p) => scan_steps s t + 7 + stale s p
  | Some (PopCheck p) => scan_steps s t + 6 + stale s p
  | Some (PopNext p) => scan_steps s t + 5 + stale s p
  | Some (PopCas p _) => scan_steps s t + 4 + stale s p
  | Some (PopItem _) => scan_steps s t + 3
  | Some (PopClear i _) => scan_steps s t + 1 + (1 - i)
  | Some (PopRetire _ _) => scan_steps s t
  | Some (PopScan c _) => scan_rank maxHPs maxThreads c (retired t (ls_hp s)) + 1
  end.

Lemma lrank_goto s t q : lrank (ls_goto t q s) t =
  match q with
  | PushLoad _ => 3
  | PushNext _ p => 2 + stale s p
  | PushCas _ p => 1 + stale s p
  | PopLoad => scan_steps s t + 8
  | PopProtect p => scan_steps s t + 7 + stale s p
  | PopCheck p => scan_steps s t + 6 + stale s p
  | PopNext p => scan_steps s t + 5 + stale s p
  | PopCas p _ => scan_steps s t + 4 + stale s p
  | PopItem _ => scan_steps s t + 3
  | PopClear i _ => scan_steps s t + 1 + (1 - i)
  | PopRetire _ _ => scan_steps s t
  | PopScan c _ => scan_rank maxHPs maxThreads c (retired t (ls_hp s)) + 1
  end%nat.
Proof using. unfold lrank. cbn. by rewrite lookup_insert_eq. Qed.

Lemma pop_scan_rank l s t c v s' :
  linv l s → ls_pc s !! t = Some (PopScan c v) → pop_scan maxThreads t c v s = Ok s' → (lrank s' t < lrank s t)%nat.
Proof using.
  intros H Eq. destruct (li_pc _ _ H t _ Eq) as [_ Hw]. unfold pop_scan. unfold lrank at 2. rewrite Eq.
  pose proof (retire_step_rank maxHPs maxThreads t c (ls_hp s) Hw) as Hrk.
  destruct (retire_step maxHPs maxThreads t c (ls_hp s)) as [| |c'|obj c' h']; [done|..].
  - intros [= <-]. unfold lrank. cbn. rewrite lookup_delete_eq. lia.
  - intros [= <-]. rewrite lrank_goto. lia.
  - unfold with_node. destruct (ls_nodes s !! obj); [|done]. intros [= <-]. rewrite lrank_goto. cbn [ls_hp ls_set_nodes ls_set_hp]. lia.
Qed.

Lemma lrank_decreases l s t s' q :
  linv l s → ls_pc s !! t = Some q → lstep maxThreads t Go s = Some (Ok s') → (lrank s' t < lrank s t)%nat.
Proof using.
  intros H Eq. unfold lstep. rewrite Eq. intros [= E]. destruct q as [n|n p|n p| |p|p|p|p n|p|i r|p v|c v];
    try (by apply (pop_scan_rank l s t c v)); unfold lrank at 2; rewrite Eq; revert E.
  - intros [= <-]. rewrite lrank_goto. unfold stale. rewrite Z.eqb_refl. lia.
  - unfold push_next, with_node. destruct (ls_nodes s !! n); [|done]. intros [= <-]. rewrite lrank_goto.
    change (stale (ls_set_nodes _ s) p) with (stale s p). lia.
  - unfold push_cas, stale. destruct (ls_top s =? p); intros [= <-].
    + unfold lrank. cbn. rewrite lookup_delete_eq. lia.
    + rewrite lrank_goto. lia.
  - unfold pop_load. intros [= <-].
    apply (Nat.le_lt_trans _ (lrank (ls_goto t (PopProtect (ls_top s)) s) t)); [by destruct (ls_top s =? 0)|].
    rewrite lrank_goto. unfold stale. rewrite Z.eqb_refl. lia.
  - unfold pop_protect, with_row. destruct (in_rows t kHpTop); [|done]. intros [= <-]. rewrite lrank_goto. destruct (p =? 0).
    + change (scan_steps (ls_set_hp _ s) t) with (scan_steps s t). lia.
    + change (scan_steps (ls_set_hp _ s) t) with (scan_steps s t). change (stale (ls_set_hp _ s) p) with (stale s p). lia.
  - unfold pop_check, stale. destruct (ls_top s =? p) eqn:Ep; intros [= <-]; rewrite lrank_goto; [|lia].
    unfold stale. rewrite Ep. lia.
  - unfold pop_next, with_node. destruct (ls_nodes s !! p); [|done]. intros [= <-]. rewrite lrank_goto. lia.
  - unfold pop_cas, stale. destruct (ls_top s =? p); intros [= <-]; [|rewrite lrank_goto; lia].
    change (lrank (ls_event _ _ ?S) t) with (lrank S t). rewrite lrank_goto.
    change (scan_steps (ls_set_top _ s) t) with (scan_steps s t). lia.
  - unfold pop_item, with_node. destruct (ls_nodes s !! p) as [N|]; [|done]. destruct (item N); [|done].
    intros [= <-]. rewrite lrank_goto. lia.
  - unfold pop_clear, with_row. destruct (Nat.ltb_spec i maxHPs) as [Hi|Hi].
    + destruct (in_rows t i); [|done]. intros [= <-]. rewrite lrank_goto. change (scan_steps (ls_set_hp _ s) t) with (scan_steps s t). unfold maxHPs in Hi. lia.
    + destruct r as [[p v]|]; intros [= <-]; [rewrite lrank_goto; lia|]. unfold lrank. cbn. rewrite lookup_delete_eq. lia.
  - unfold pop_retire, with_row. destruct (in_rows t 0); [|done]. intros [= <-]. rewrite lrank_goto. cbn [ls_hp ls_set_hp]. unfold retire_push. rewrite retired_eq.
    unfold scan_rank, scan_steps. cbn [iret owner left scan_start]. rewrite length_app. cbn [length]. lia.
Qed.

(** A thread alone finishes. *)
Lemma stack_alone l s t :
  linv l s → ∃ n s' l', (n ≤ lrank s t)%nat ∧ lruns maxThreads (replicate n (t, Go)) s = Some (Ok s') ∧
    ls_pc s' !! t = None ∧ linv l' s'.
Proof using Hrows.
  intros H. remember (lrank s t) as k eqn:Ek. revert l s H Ek. induction k as [k IH] using lt_wf_ind. intros l s H ->.
  destruct (ls_pc s !! t) as [q|] eqn:Eq; [|exists 0%nat, s, l; cbn; split_and!; done || lia].
  destruct (lstep maxThreads t Go s) as [r|] eqn:E; [|unfold lstep in E; by rewrite Eq in E].
  destruct (lstep_ok l s t Go r H E) as (s1 & l1 & -> & H1). pose proof (lrank_decreases l s t s1 q H Eq E) as Hlt.
  destruct (IH _ Hlt l1 s1 H1 eq_refl) as (n & s2 & l2 & Hn & Er & Ep & H2). exists (S n), s2, l2. cbn. rewrite E.
  split_and!; try done. lia.
Qed.

Lemma lrank_bound s t : (lrank s t ≤ scan_steps s t + 17)%nat.
Proof using.
  assert (∀ p, stale s p ≤ 10)%nat as Hs by (intros p; unfold stale; destruct (_ =? _); lia).
  unfold lrank. destruct (ls_pc s !! t) as [q|]; [|lia].
  destruct q as [n|n p|n p| |p|p|p|p n|p|i r|p v|c v]; try specialize (Hs p); try (unfold scan_steps; lia); try lia.
  unfold scan_steps, scan_rank. nia.
Qed.

(** ** The destructor *)

(** Thread [t] alone in [pop], which has logged and returned what it has to. *)
Definition popping (log0 : list (nat * sevent)) (rets0 : list (nat * option Z)) (t : nat) (s : LockfreeStack) : Prop :=
  (∀ u, u ≠ t → ls_pc s !! u = None) ∧
  match ls_pc s !! t with
  | None => ∃ r, ls_log s = log0 ++ [(t, Popped r)] ∧ ls_rets s = rets0 ++ [(t, r)]
  | Some (PushLoad _ | PushNext _ _ | PushCas _ _) => False
  | Some (PopLoad | PopCheck _ | PopNext _ | PopCas _ _) => ls_log s = log0 ∧ ls_rets s = rets0
  | Some (PopProtect p) => ls_log s = (if p =? 0 then log0 ++ [(t, Popped None)] else log0) ∧ ls_rets s = rets0
  | Some _ => ∃ r, ls_log s = log0 ++ [(t, Popped r)] ∧ ls_rets s = rets0 ∧ pending s t = [r]
  end.

Lemma popping_step log0 rets0 t s s' :
  popping log0 rets0 t s → lstep maxThreads t Go s = Some (Ok s') →
  popping log0 rets0 t s' ∧ (size (ls_nodes s') ≤ size (ls_nodes s))%nat.
Proof using.
  intros [Hu Hp]. unfold lstep. destruct (ls_pc s !! t) as [q|] eqn:Eq; [|done]. intros [= E].
  assert (∀ u, u ≠ t → ls_pc s' !! u = None) as Hu'.
  { intros u Hne. rewrite <- (Hu u Hne). destruct q; try done; revert E;
      unfold pop_load, pop_protect, pop_check, pop_next, pop_cas, pop_item, pop_clear, pop_retire, pop_scan, with_node, with_row;
      repeat case_match; try done; intros [= <-]; cbn; by rewrite ?lookup_insert_ne, ?lookup_delete_ne by done. }
  unfold popping. split; [split; [done|]|]; clear Hu Hu'.
  - unfold pending in *. rewrite Eq in Hp. destruct q as [n|n p|n p| |p|p|p|p n|p|i r|p v|c v]; try done; revert E.
    + unfold pop_load. intros [= <-]. destruct Hp as [H1 H2]. destruct (ls_top s =? 0) eqn:E0; cbn; rewrite lookup_insert_eq, E0; by rewrite ?H1.
    + unfold pop_protect, with_row. destruct (in_rows t kHpTop); [|done]. intros [= <-]. cbn. rewrite lookup_insert_eq. destruct (p =? 0); [|done]. destruct Hp as [-> ->]. by eexists.
    + unfold pop_check. intros [= <-]. cbn. rewrite lookup_insert_eq. by destruct (_ =? _).
    + unfold pop_next, with_node. destruct (ls_nodes s !! p); [|done]. intros [= <-]. cbn. by rewrite lookup_insert_eq.
    + unfold pop_cas. destruct Hp as [H1 H2]. destruct (_ =? _); intros [= <-]; cbn; rewrite lookup_insert_eq; [rewrite H1; by eexists|done].
    + unfold pop_item, with_node. destruct Hp as (r & H1 & H2 & H3). unfold item_at in H3. destruct (ls_nodes s !! p) as [N|]; [|done].
      destruct (item N) eqn:Ei; [|done]. intros [= <-]. cbn in *. rewrite lookup_insert_eq. exists r. by rewrite <- H3, Ei.
    + unfold pop_clear, with_row. destruct Hp as (r0 & H1 & H2 & [= <-]).
      destruct (_ <? _)%nat; [destruct (in_rows t i); [|done]; intros [= <-]; cbn; rewrite lookup_insert_eq; by eexists|].
      destruct r as [[p v]|]; intros [= <-]; cbn; rewrite ?lookup_insert_eq, ?lookup_delete_eq; eexists; [done|]. by rewrite H2.
    + unfold pop_retire, with_row. destruct (in_rows t 0); [|done]. intros [= <-]. cbn. by rewrite lookup_insert_eq.
    + unfold pop_scan. destruct Hp as (r0 & H1 & H2 & [= <-]). destruct (retire_step _ _ _ _ _) as [| |c'|obj c' h']; [done|..].
      * intros [= <-]. cbn. rewrite lookup_delete_eq, H2. by eexists.
      * intros [= <-]. cbn. rewrite lookup_insert_eq. by eexists.
      * unfold with_node. destruct (ls_nodes s !! obj); [|done]. intros [= <-]. cbn. rewrite lookup_insert_eq. by eexists.
  - destruct q as [n|n p|n p| |p|p|p|p n|p|i r|p v|c v]; try done; revert E;
      unfold pop_load, pop_protect, pop_check, pop_next, pop_cas, pop_item, pop_clear, pop_retire, pop_scan, with_node, with_row;
      repeat case_match; try done; intros [= <-]; cbn; try done. apply map_subseteq_size, delete_subseteq.
Qed.

Lemma run_alone_ok fuel log0 rets0 l s t :
  linv l s → popping log0 rets0 t s → (lrank s t < fuel)%nat →
  ∃ s' l', run_alone maxThreads fuel t s = Ok s' ∧ ls_pc s' !! t = None ∧ linv l' s' ∧ popping log0 rets0 t s' ∧
    (size (ls_nodes s') ≤ size (ls_nodes s))%nat.
Proof using Hrows.
  revert l s. induction fuel as [|fuel IH]; intros l s H Hp Hf; [lia|]. cbn [run_alone].
  destruct (ls_pc s !! t) as [q|] eqn:Eq; [|exists s, l; done].
  destruct (lstep maxThreads t Go s) as [r|] eqn:E; [|unfold lstep in E; by rewrite Eq in E].
  destruct (lstep_ok l s t Go r H E) as (s1 & l1 & -> & H1). pose proof (lrank_decreases l s t s1 q H Eq E) as Hlt.
  destruct (popping_step _ _ _ _ _ Hp E) as [Hp1 Hsz]. destruct (IH l1 s1 H1 Hp1 ltac:(lia)) as (s2 & l2 & -> & Ep & H2 & Hp2 & Hs2).
  exists s2, l2. split_and!; try done. lia.
Qed.

(** No thread holds more nodes than there are. *)
Lemma retired_size l s t : linv l s → (t < maxThreads)%nat → (length (retired t (ls_hp s)) ≤ size (ls_nodes s))%nat.
Proof using.
  intros H Ht. pose proof (held_size maxThreads l (holds s) (ls_nodes s) (li_all _ _ H) t Ht) as Hs.
  unfold holds in Hs. rewrite length_app in Hs. lia.
Qed.

Definition pop_fuel (n : nat) : nat := (n + 1) * scan_cost maxHPs maxThreads + 20.

Lemma pop_alone_ok fuel l s :
  linv l s → (0 < maxThreads)%nat → ls_pc s = ∅ → (pop_fuel (size (ls_nodes s)) ≤ fuel)%nat →
  ∃ r s' l', pop_alone maxThreads fuel 0 s = Ok (r, s') ∧ linv l' s' ∧ ls_pc s' = ∅ ∧
    (size (ls_nodes s') ≤ size (ls_nodes s))%nat ∧
    match r with None => l' = [] | Some _ => S (length l') = length l end.
Proof using Hrows.
  intros H Ht Hpc Hf. unfold pop_alone, lstep. rewrite Hpc, lookup_empty, decide_True by done.
  pose proof (call_pop_ok l s 0 H ltac:(by rewrite Hpc) Ht) as H1. set (s1 := ls_goto 0 PopLoad s) in *.
  assert (popping (ls_log s) (ls_rets s) 0 s1) as Hp1.
  { unfold popping, s1. cbn. rewrite lookup_insert_eq. split; [|done]. intros u Hu. rewrite lookup_insert_ne by done. by rewrite Hpc. }
  assert (lrank s1 0 < fuel)%nat as Hr.
  { unfold s1. rewrite lrank_goto. pose proof (retired_size l s 0 H Ht). unfold scan_steps, pop_fuel in *. nia. }
  destruct (run_alone_ok fuel _ _ l s1 0 H1 Hp1 Hr) as (s' & l' & -> & Ep & H' & [Hu Hpop] & Hsz).
  rewrite Ep in Hpop. destruct Hpop as (r & El & Er). exists r, s', l'. rewrite Er, last_snoc. cbn. split; [done|].
  split; [done|]. split; [|split; [done|]].
  - apply map_empty. intros u. destruct (decide (u = 0%nat)) as [->|Hne]; [done|by apply Hu].
  - pose proof (li_log _ _ H') as Hh. rewrite El, (stack_history_snoc _ _ _ _ _ (li_log _ _ H)) in Hh.
    destruct l as [|a l], l' as [|b l']; cbn in Hh; destruct r as [v|]; try done; try discriminate.
    + destruct (_ =? v); [|done]. injection Hh as Hh. apply (f_equal length) in Hh. unfold items in Hh.
      rewrite length_fmap in Hh. cbn in *. lia.
    + destruct (_ =? v); [|done]. injection Hh as Hh. apply (f_equal length) in Hh. unfold items in Hh.
      cbn in *. rewrite !length_fmap in Hh. lia.
Qed.

Lemma drain_ok N fuel l s :
  linv l s → (0 < maxThreads)%nat → ls_pc s = ∅ → (length l < N)%nat → (pop_fuel (size (ls_nodes s)) ≤ fuel)%nat →
  ∃ s', drain maxThreads N fuel s = Ok s' ∧ linv [] s' ∧ ls_pc s' = ∅.
Proof using Hrows.
  revert l s. induction N as [|N IH]; intros l s H Ht Hpc HN Hf; [lia|]. cbn [drain].
  destruct (pop_alone_ok fuel l s H Ht Hpc Hf) as (r & s1 & l1 & -> & H1 & Hpc1 & Hsz & Hr). destruct r as [v|].
  - apply (IH l1 s1); try done; [lia|]. unfold pop_fuel in *. nia.
  - subst l1. by exists s1.
Qed.

(** The destructor deletes every node, once. *)
Lemma stack_dtor_ok N fuel l s :
  linv l s → (0 < maxThreads)%nat → ls_pc s = ∅ → (size (ls_nodes s) < N)%nat →
  (pop_fuel (size (ls_nodes s)) ≤ fuel)%nat → LockfreeStack_dtor maxThreads N fuel s = Ok ∅.
Proof using Hrows.
  intros H Ht Hpc HN Hf. pose proof (held_size maxThreads l (holds s) (ls_nodes s) (li_all _ _ H) 0 ltac:(lia)).
  destruct (drain_ok N fuel l s H) as (s' & Ed & H' & Hpc'); [lia|done|lia|done|].
  unfold LockfreeStack_dtor. rewrite Ed. apply delete_all_ok. rewrite <- (li_all _ _ H'). cbn [app].
  rewrite (dtor_retired maxThreads) by (done || apply (li_unused _ _ H')).
  apply reflexive_eq, bind_same. intros t _. unfold holds, owns. by rewrite Hpc', lookup_empty.
Qed.
End Invariant.
