(* ===== verification/PropsHazard.v ===== *)
(** * Properties of the containers with hazard pointers

    The linked stack and queue whose nodes are reclaimed by hazard pointers, under
    interleaving: no access to a deleted node, every run a run of a sequential
    container, progress, and no leak. *)

From Stdlib Require Import ZArith Lia.
From stdpp Require Import base gmap numbers list.
From S2P Require Import Prelude OldArrayStack OldHazard OldLockfreeStack.

Local Open Scope Z_scope.
#[local] Set Warnings "-clear-no-such-hyp".

(** C18. The stack with hazard pointers from its constructor, under any interleaving of
    pushes and pops of up to [maxThreads] threads, at most the 128 for which the
    arrays of hazard pointers have rows, with any addresses that [new] returns: no
    step goes beyond these arrays, dereferences or deletes a node that is not there;
    the operations,
    in the order in which they take effect, are a history of a sequential stack with
    the items that are linked from the top; each thread that is in no operation has
    returned from its pops exactly what this history says; a thread left alone returns,
    within a number of steps linear in its retired nodes; and the destructor, once no
    thread is in an operation, deletes every node. *)
Theorem lockfree_stack_correct maxThreads tr r (Hrows : rows_for maxThreads) :
  lruns maxThreads tr LockfreeStack_ctor = Some r → ∃ s l, r = Ok s ∧
    linked (ls_nodes s) (ls_top s) l ∧ stack_history (ls_log s) [] = Some (items (ls_nodes s) l) ∧
    (∀ t, ls_pc s !! t = None → rets_of t (ls_rets s) = pops_of t (ls_log s)) ∧
    (∀ t, ∃ n s', (n ≤ (length (retired t (ls_hp s)) + 1) * (2 * maxThreads + 1) + 19)%nat ∧
       lruns maxThreads (replicate n (t, Go)) s = Some (Ok s') ∧ ls_pc s' !! t = None) ∧
    ((0 < maxThreads)%nat → ls_pc s = ∅ → ∀ N fuel,
       (size (ls_nodes s) < N)%nat → ((size (ls_nodes s) + 1) * (2 * maxThreads + 1) + 20 ≤ fuel)%nat →
       LockfreeStack_dtor maxThreads N fuel s = Ok ∅).
Proof.
  intros E. destruct (lruns_ok maxThreads Hrows tr [] _ r (LockfreeStack_ctor_inv maxThreads) E) as (s & l & -> & H).
  exists s, l. split; [done|]. split; [apply H|]. split; [apply H|]. split; [|split].
  - intros t Ht. rewrite (li_rets _ _ _ H). unfold pending. by rewrite Ht, app_nil_r.
  - intros t. destruct (stack_alone maxThreads Hrows l s t H) as (n & s' & _ & Hn & Er & Ep & _). exists n, s'.
    pose proof (lrank_bound maxThreads s t) as Hb. unfold scan_steps, scan_cost, maxHPs in Hb. split; [nia|done].
  - intros Ht Hpc N fuel HN Hf. apply (stack_dtor_ok maxThreads Hrows N fuel l s H Ht Hpc HN).
    unfold pop_fuel, scan_cost, maxHPs. nia.
Qed.

(** Thread 1 is about to dereference the node of 5 when thread 0 pops it: the node stays
    in the retired list of thread 0; thread 1 tries again, finds 7 and deletes its node. *)
Definition hazard_go (t n : nat) : list (nat * laction) := replicate n (t, Go).
Definition hazard_trace : list (nat * laction) :=
  [(0%nat, CallPush 5 16)] ++ hazard_go 0 3 ++ [(1%nat, CallPop)] ++ hazard_go 1 3 ++
  [(0%nat, CallPop)] ++ hazard_go 0 13 ++ [(0%nat, CallPush 7 32)] ++ hazard_go 0 3 ++ hazard_go 1 17.

Lemma lockfree_stack_correct_witness :
  ∃ s, lruns 2 hazard_trace LockfreeStack_ctor = Some (Ok s) ∧ ls_pc s = ∅ ∧
    ls_rets s = [(0%nat, Some 5); (1%nat, Some 7)] ∧ retired 0 (ls_hp s) = [16] ∧ dom (ls_nodes s) = {[16]} ∧
    LockfreeStack_dtor 2 10 100 s = Ok ∅.
Proof.
  eexists. split; [vm_compute; reflexivity|]. do 4 (split; [vm_compute; reflexivity|]).
  destruct (lockfree_stack_correct 2 hazard_trace _ ltac:(unfold rows_for, HP_MAX_THREADS; lia) ltac:(vm_compute; reflexivity)) as (s & l & Es & _ & _ & _ & _ & Hd).
  injection Es as <-. apply Hd; vm_compute; try reflexivity; lia.
Defined.
