(* ===== verification/OldMSQueue.v ===== *)
(** * The queue with hazard pointers (old/MichaelScottQueue.hpp)

    The queue of Michael and Scott, with a node in front of the items, whose nodes are
    deleted when no hazard pointer keeps them. Threads interleave between their
    accesses to shared memory; a deleted address may be returned by the next [new], and
    an access to a deleted node fails. The log records an enqueue at the
    compare-and-swap that links its node, and a dequeue at the compare-and-swap that
    moves the head. [mq_rets] are the results of [dequeue]; a result without an item
    carries the length that the log had when the thread loaded a null [next]. *)

From Stdlib Require Import ZArith Lia.
From stdpp Require Import base gmap numbers list.
From S2P Require Import Prelude OldHazard OldArrayQueue.

Local Open Scope Z_scope.
#[local] Set Warnings "-clear-no-such-hyp".

(** [struct Node]; null is 0. *)
Record Node := mkNode { item : option Z; next : Z }.

Definition with_next (p : Z) (n : Node) : Node := mkNode (item n) p.

(** Where a thread is: at a line of [enqueue] with its new node or of [dequeue]; [ret]
    and [n] are the variables of [protect]; [k]: the length of the log when a null
    [next] was loaded. [QClear]: in [hp.clear] at hazard pointer [ihp], with what is
    to be done afterwards. *)
Inductive cleared := Enqueued | Empty (k : nat) | Dequeued (lhead v : Z).

Inductive mpc :=
| EnqLoad (newNode : Z)
| EnqProtect (newNode ltail : Z)
| EnqCheck (newNode ltail : Z)
| EnqNext (newNode ltail : Z)
| EnqHelp (newNode ltail lnext : Z)
| EnqCasNext (newNode ltail : Z)
| EnqCasTail (newNode ltail : Z)
| DeqProtect (n : Z)
| DeqStore (ret : Z)
| DeqCheckHead (lhead : Z)
| DeqTail (lhead : Z)
| DeqProtectNext (lhead ltail n : Z)
| DeqStoreNext (lhead ltail ret : Z)
| DeqCheckNext (lhead ltail lnext : Z) (k : nat)
| DeqHelp (ltail lnext : Z)
| DeqCasHead (lhead lnext : Z)
| DeqItem (lhead lnext : Z)
| QClear (ihp : nat) (r : cleared)
| DeqRetire (lhead v : Z)
| DeqScan (c : scan) (v : Z).

Record MichaelScottQueue := mkMQ {
  mq_head : Z;
  mq_tail : Z;
  mq_nodes : gmap Z Node;
  mq_hp : HazardPointers;
  mq_pc : gmap nat mpc;
  mq_log : list (nat * qevent);
  mq_rets : list (nat * (Z + nat))
}.

(** [MichaelScottQueue()]: [new Node()] has returned [sentinelNode]. *)
Definition MichaelScottQueue_ctor (sentinelNode : Z) : MichaelScottQueue :=
  mkMQ sentinelNode sentinelNode {[sentinelNode := mkNode None 0]} HazardPointers_ctor ∅ [] [].

Definition mq_goto (t : nat) (p : mpc) (s : MichaelScottQueue) : MichaelScottQueue :=
  mkMQ (mq_head s) (mq_tail s) (mq_nodes s) (mq_hp s) (<[t := p]> (mq_pc s)) (mq_log s) (mq_rets s).
Definition mq_done (t : nat) (s : MichaelScottQueue) : MichaelScottQueue :=
  mkMQ (mq_head s) (mq_tail s) (mq_nodes s) (mq_hp s) (delete t (mq_pc s)) (mq_log s) (mq_rets s).
Definition mq_ret (t : nat) (r : Z + nat) (s : MichaelScottQueue) : MichaelScottQueue :=
  mkMQ (mq_head s) (mq_tail s) (mq_nodes s) (mq_hp s) (delete t (mq_pc s)) (mq_log s) (mq_rets s ++ [(t, r)]).
Definition mq_event (t : nat) (e : qevent) (s : MichaelScottQueue) : MichaelScottQueue :=
  mkMQ (mq_head s) (mq_tail s) (mq_nodes s) (mq_hp s) (mq_pc s) (mq_log s ++ [(t, e)]) (mq_rets s).
Definition mq_set_head (p : Z) (s : MichaelScottQueue) : MichaelScottQueue :=
  mkMQ p (mq_tail s) (mq_nodes s) (mq_hp s) (mq_pc s) (mq_log s) (mq_rets s).
Definition mq_set_tail (p : Z) (s : MichaelScottQueue) : MichaelScottQueue :=
  mkMQ (mq_head s) p (mq_nodes s) (mq_hp s) (mq_pc s) (mq_log s) (mq_rets s).
Definition mq_set_nodes (m : gmap Z Node) (s : MichaelScottQueue) : MichaelScottQueue :=
  mkMQ (mq_head s) (mq_tail s) m (mq_hp s) (mq_pc s) (mq_log s) (mq_rets s).
Definition mq_set_hp (h : HazardPointers) (s : MichaelScottQueue) : MichaelScottQueue :=
  mkMQ (mq_head s) (mq_tail s) (mq_nodes s) h (mq_pc s) (mq_log s) (mq_rets s).

(** An access to the node at [p]: deleted nodes and null are no nodes. *)
Definition with_node (p : Z) (s : MichaelScottQueue) (f : Node → outcome MichaelScottQueue) : outcome MichaelScottQueue :=
  match mq_nodes s !! p with Some n => f n | None => Fail end.

Definition item_at (p : Z) (s : MichaelScottQueue) : option Z := mq_nodes s !! p ≫= item.

Section Steps.
Context (maxThreads : nat).

Definition kHpTail : nat := 0.
Definition kHpHead : nat := 0.
Definition kHpNext : nat := 1.
Definition maxHPs : nat := 2.

Definition casTail (cmp val : Z) (s : MichaelScottQueue) : MichaelScottQueue :=
  if mq_tail s =? cmp then mq_set_tail val s else s.

(** ** [enqueue] *)

Definition enq_protect (t : nat) (n ltail : Z) (s : MichaelScottQueue) : MichaelScottQueue :=
  mq_goto t (EnqCheck n ltail) (mq_set_hp (protectPtr kHpTail ltail t (mq_hp s)) s).
Definition enq_check (t : nat) (n ltail : Z) (s : MichaelScottQueue) : MichaelScottQueue :=
  mq_goto t (if ltail =? mq_tail s then EnqNext n ltail else EnqLoad n) s.
Definition enq_next (t : nat) (n ltail : Z) (s : MichaelScottQueue) : outcome MichaelScottQueue :=
  with_node ltail s (λ N, Ok (mq_goto t (if next N =? 0 then EnqCasNext n ltail else EnqHelp n ltail (next N)) s)).
(** [ltail->casNext(nullptr, newNode)] *)
Definition enq_cas_next (t : nat) (n ltail : Z) (s : MichaelScottQueue) : outcome MichaelScottQueue :=
  with_node ltail s (λ N,
    if next N =? 0 then
      Ok (mq_event t (Pushed (default 0 (item_at n s)))
            (mq_goto t (EnqCasTail n ltail) (mq_set_nodes (<[ltail := with_next n N]> (mq_nodes s)) s)))
    else Ok (mq_goto t (EnqLoad n) s)).

(** ** [dequeue] *)

(** The loop of [protect] on the head: a load, and a store when the value is new. *)
Definition deq_protect (t : nat) (n : Z) (s : MichaelScottQueue) : MichaelScottQueue :=
  let ret := mq_head s in mq_goto t (if ret =? n then DeqCheckHead ret else DeqStore ret) s.
Definition deq_store (t : nat) (ret : Z) (s : MichaelScottQueue) : MichaelScottQueue :=
  mq_goto t (DeqProtect ret) (mq_set_hp (protectPtr kHpHead ret t (mq_hp s)) s).
Definition deq_check_head (t : nat) (lhead : Z) (s : MichaelScottQueue) : MichaelScottQueue :=
  mq_goto t (if lhead =? mq_head s then DeqTail lhead else DeqProtect 0) s.
(** The same on [lhead->next]. *)
Definition deq_protect_next (t : nat) (lhead ltail n : Z) (s : MichaelScottQueue) : outcome MichaelScottQueue :=
  with_node lhead s (λ N, let ret := next N in
    Ok (mq_goto t (if ret =? n then DeqCheckNext lhead ltail ret (length (mq_log s)) else DeqStoreNext lhead ltail ret) s)).
Definition deq_store_next (t : nat) (lhead ltail ret : Z) (s : MichaelScottQueue) : MichaelScottQueue :=
  mq_goto t (DeqProtectNext lhead ltail ret) (mq_set_hp (protectPtr kHpNext ret t (mq_hp s)) s).
Definition deq_check_next (t : nat) (lhead ltail lnext : Z) (k : nat) (s : MichaelScottQueue) : MichaelScottQueue :=
  mq_goto t
    (if lhead =? mq_head s then
       if lnext =? 0 then QClear 0 (Empty k)
       else if lhead =? ltail then DeqHelp ltail lnext else DeqCasHead lhead lnext
     else DeqProtect 0) s.
Definition deq_cas_head (t : nat) (lhead lnext : Z) (s : MichaelScottQueue) : MichaelScottQueue :=
  if mq_head s =? lhead then
    mq_event t (Popped (default 0 (item_at lnext s))) (mq_goto t (DeqItem lhead lnext) (mq_set_head lnext s))
  else mq_goto t (DeqProtect 0) s.
(** [lnext->item.value()] throws without an item. *)
Definition deq_item (t : nat) (lhead lnext : Z) (s : MichaelScottQueue) : outcome MichaelScottQueue :=
  with_node lnext s (λ N, match item N with
                          | Some v => Ok (mq_goto t (QClear 0 (Dequeued lhead v)) s)
                          | None => Fail
                          end).
(** [hp.clear(tid)], then the return or [hp.retire(lhead, tid)]. *)
Definition q_clear (t ihp : nat) (r : cleared) (s : MichaelScottQueue) : outcome MichaelScottQueue :=
  if (ihp <? maxHPs)%nat then
    with_row t ihp (Ok (mq_goto t (QClear (S ihp) r) (mq_set_hp (clearOne ihp t (mq_hp s)) s)))
  else match r with
       | Enqueued => Ok (mq_done t s)
       | Empty k => Ok (mq_ret t (inr k) s)
       | Dequeued lhead v => Ok (mq_goto t (DeqRetire lhead v) s)
       end.
Definition deq_retire (t : nat) (lhead v : Z) (s : MichaelScottQueue) : MichaelScottQueue :=
  mq_goto t (DeqScan (scan_start maxHPs 0) v) (mq_set_hp (retire_push lhead t (mq_hp s)) s).
Definition deq_scan (t : nat) (c : scan) (v : Z) (s : MichaelScottQueue) : outcome MichaelScottQueue :=
  match retire_step maxHPs maxThreads t c (mq_hp s) with
  | ScanFault => Fail
  | ScanDone => Ok (mq_ret t (inl v) s)
  | ScanGoto c' => Ok (mq_goto t (DeqScan c' v) s)
  | ScanDelete obj c' h' =>
      with_node obj s (λ _, Ok (mq_goto t (DeqScan c' v) (mq_set_nodes (delete obj (mq_nodes s)) (mq_set_hp h' s))))
  end.

Inductive maction := CallEnqueue (val addr : Z) | CallDequeue | MGo.

(** A step; the ones that write a hazard pointer or the retired list of [t] need its
    row. *)
Definition mstep (t : nat) (a : maction) (s : MichaelScottQueue) : option (outcome MichaelScottQueue) :=
  match mq_pc s !! t, a with
  | None, CallEnqueue v p =>
      if decide ((t < maxThreads)%nat ∧ p ≠ 0 ∧ mq_nodes s !! p = None) then
        Some (Ok (mq_goto t (EnqLoad p) (mq_set_nodes (<[p := mkNode (Some v) 0]> (mq_nodes s)) s)))
      else None
  | None, CallDequeue => if decide (t < maxThreads)%nat then Some (Ok (mq_goto t (DeqProtect 0) s)) else None
  | Some p, MGo =>
      Some match p with
      | EnqLoad n => Ok (mq_goto t (EnqProtect n (mq_tail s)) s)
      | EnqProtect n ltail => with_row t kHpTail (Ok (enq_protect t n ltail s))
      | EnqCheck n ltail => Ok (enq_check t n ltail s)
      | EnqNext n ltail => enq_next t n ltail s
      | EnqHelp n ltail lnext => Ok (mq_goto t (EnqLoad n) (casTail ltail lnext s))
      | EnqCasNext n ltail => enq_cas_next t n ltail s
      | EnqCasTail n ltail => Ok (mq_goto t (QClear 0 Enqueued) (casTail ltail n s))
      | DeqProtect n => Ok (deq_protect t n s)
      | DeqStore ret => with_row t kHpHead (Ok (deq_store t ret s))
      | DeqCheckHead lhead => Ok (deq_check_head t lhead s)
      | DeqTail lhead => Ok (mq_goto t (DeqProtectNext lhead (mq_tail s) 0) s)
      | DeqProtectNext lhead ltail n => deq_protect_next t lhead ltail n s
      | DeqStoreNext lhead ltail ret => with_row t kHpNext (Ok (deq_store_next t lhead ltail ret s))
      | DeqCheckNext lhead ltail lnext k => Ok (deq_check_next t lhead ltail lnext k s)
      | DeqHelp ltail lnext => Ok (mq_goto t (DeqProtect 0) (casTail ltail lnext s))
      | DeqCasHead lhead lnext => Ok (deq_cas_head t lhead lnext s)
      | DeqItem lhead lnext => deq_item t lhead lnext s
      | QClear ihp r => q_clear t ihp r s
      | DeqRetire lhead v => with_row t 0 (Ok (deq_retire t lhead v s))
      | DeqScan c v => deq_scan t c v s
      end
  | _, _ => None
  end.

Fixpoint mruns (tr : list (nat * maction)) (s : MichaelScottQueue) : option (outcome MichaelScottQueue) :=
  match tr with
  | [] => Some (Ok s)
  | (t, a) :: tr' => match mstep t a s with Some (Ok s') => mruns tr' s' | r => r end
  end.

(** [dequeue(tid)] with no other thread running, and the item it returns. *)
Fixpoint mrun_alone (fuel t : nat) (s : MichaelScottQueue) : outcome MichaelScottQueue :=
  match fuel with
  | O => NoFuel
  | S fuel =>
      match mq_pc s !! t with
      | None => Ok s
      | Some _ => match mstep t MGo s with Some (Ok s') => mrun_alone fuel t s' | Some o => o | None => Fail end
      end
  end.

Definition dequeue_alone (fuel t : nat) (s : MichaelScottQueue) : outcome (option Z * MichaelScottQueue) :=
  match mstep t CallDequeue s with
  | Some (Ok s1) =>
      match mrun_alone fuel t s1 with
      | Ok s' => Ok (match last (mq_rets s') with Some (_, inl v) => Some v | _ => None end, s')
      | Fail => Fail
      | NoFuel => NoFuel
      end
  | _ => Fail
  end.

(** [while (dequeue(0));] *)
Fixpoint mdrain (N fuel : nat) (s : MichaelScottQueue) : outcome MichaelScottQueue :=
  match N with
  | O => NoFuel
  | S N =>
      match dequeue_alone fuel 0 s with
      | Ok (Some _, s') => mdrain N fuel s'
      | Ok (None, s') => Ok s'
      | Fail => Fail
      | NoFuel => NoFuel
      end
  end.

(** [~MichaelScottQueue]: [delete head.load()], then the destructor of the member [hp]:
    the nodes that are left. *)
Definition MichaelScottQueue_dtor (N fuel : nat) (s : MichaelScottQueue) : outcome (gmap Z Node) :=
  match mdrain N fuel s with
  | Ok s' => delete_all (mq_head s' :: HazardPointers_dtor (mq_hp s')) (mq_nodes s')
  | Fail => Fail
  | NoFuel => NoFuel
  end.
End Steps.
