(* ===== verification/OldMSQueueSpec.v ===== *)
(** * The queue with hazard pointers is correct

    The invariant of OldMSQueue.v, and that every step succeeds and keeps it. *)

From Stdlib Require Import ZArith Lia.
From stdpp Require Import base gmap numbers list.
From S2P Require Import Prelude OldHazard OldArrayQueue OldMSQueue.

Local Open Scope Z_scope.
#[local] Set Warnings "-clear-no-such-hyp".

(** The queue as it is linked, from the head: the node in front and those with items. *)
Fixpoint linked (m : gmap Z Node) (p : Z) (l : list Z) : Prop :=
  match l with
  | [] => p = 0
  | a :: l' => p = a ∧ ∃ N, m !! a = Some N ∧ linked m (next N) l'
  end.

Definition items (m : gmap Z Node) (l : list Z) : list Z := (λ a, default 0 (m !! a ≫= item)) <$> l.

(** The node a thread is about to link; nobody else has seen it. *)
Definition private (q : mpc) : option Z :=
  match q with
  | EnqLoad n | EnqProtect n _ | EnqCheck n _ | EnqNext n _ | EnqHelp n _ _ | EnqCasNext n _ => Some n
  | _ => None
  end.

(** The nodes a thread has for itself: this one, or the one it has taken out. *)
Definition owned (q : mpc) : list Z :=
  match q with
  | DeqItem p _ | QClear _ (Dequeued p _) | DeqRetire p _ => [p]
  | _ => option_list (private q)
  end.

Definition owns (s : MichaelScottQueue) (t : nat) : list Z := from_option owned [] (mq_pc s !! t).
Definition holds (s : MichaelScottQueue) (t : nat) : list Z := owns s t ++ retired t (mq_hp s).
Definition pushing (s : MichaelScottQueue) (t : nat) (n : Z) : Prop := mq_pc s !! t ≫= private = Some n.

(** The nodes that it may dereference, or compare with head or tail, though they can
    have been taken out by others, with the hazard pointers that keep them. *)
Definition relied_on (q : mpc) : list (nat * Z) :=
  match q with
  | EnqNext _ p | EnqHelp _ p _ | EnqCasNext _ p | EnqCasTail _ p => [(kHpTail, p)]
  | DeqTail p | DeqProtectNext p _ _ | DeqStoreNext p _ _ | DeqCheckNext p _ _ _ | DeqHelp p _ => [(kHpHead, p)]
  | DeqCasHead p n => [(kHpHead, p); (kHpNext, n)]
  | DeqItem _ n => [(kHpNext, n)]
  | _ => []
  end.

Definition relies (s : MichaelScottQueue) (t ihp : nat) (p : Z) : Prop :=
  ∃ q, mq_pc s !! t = Some q ∧ (ihp, p) ∈ relied_on q.

Definition published (s : MichaelScottQueue) (p : Z) : Prop :=
  is_Some (mq_nodes s !! p) ∧ ∀ u, ¬ pushing s u p.

(** The items dequeued by a thread, as logged and as returned. *)
Definition pending (s : MichaelScottQueue) (t : nat) : list Z :=
  match mq_pc s !! t with
  | Some (DeqItem _ n) => [default 0 (item_at n s)]
  | Some (QClear _ (Dequeued _ v) | DeqRetire _ v | DeqScan _ v) => [v]
  | _ => []
  end.
Definition popped_of (t : nat) (log : list (nat * qevent)) : list Z :=
  omap (λ x, match x with (u, Popped v) => if decide (u = t) then Some v else None | _ => None end) log.
Definition got_of (t : nat) (rets : list (nat * (Z + nat))) : list Z :=
  omap (λ x, match x with (u, inl v) => if decide (u = t) then Some v else None | _ => None end) rets.
#[local] Arguments popped_of : simpl never.
#[local] Arguments got_of : simpl never.

Lemma popped_of_snoc t log u e :
  popped_of t (log ++ [(u, e)]) = popped_of t log ++ match e with Popped v => if decide (u = t) then [v] else [] | _ => [] end.
Proof. unfold popped_of. rewrite omap_app. f_equal. destruct e; [done|]. cbn. by destruct (decide (u = t)). Qed.

Lemma got_of_snoc t rets u r :
  got_of t (rets ++ [(u, r)]) = got_of t rets ++ match r with inl v => if decide (u = t) then [v] else [] | _ => [] end.
Proof. unfold got_of. rewrite omap_app. f_equal. destruct r; [|done]. cbn. by destruct (decide (u = t)). Qed.

(** A node that stays: its item is fixed, and its [next] once it is set. *)
Definition node_le (N N' : Node) : Prop := item N' = item N ∧ (next N ≠ 0 → next N' = next N).

Section Invariant.
Context (maxThreads : nat).

(** The queue was empty when the log had length [k]. *)
Definition empty_at (s : MichaelScottQueue) (k : nat) : Prop :=
  (k ≤ length (mq_log s))%nat ∧ queue_history (take k (mq_log s)) [] = Some [].

(** The successor of a node, once it has one. *)
Definition next_is (s : MichaelScottQueue) (p x : Z) : Prop :=
  x ≠ 0 ∧ ∃ N, mq_nodes s !! p = Some N ∧ next N = x.

(** A node that was the head: it is the head as long as it is in the queue [l]; with
    [past], the tail has left it. *)
Definition was_head (l : list Z) (s : MichaelScottQueue) (p : Z) (past : bool) : Prop :=
  p ∈ l → mq_head s = p ∧ (past = true → mq_tail s ≠ p).

(** What a thread knows at each position... *)
Definition mpc_facts (l : list Z) (s : MichaelScottQueue) (t : nat) (q : mpc) : Prop :=
  match q with
  | EnqCheck _ p => hp_load t kHpTail (mq_hp s) = p
  | EnqHelp _ p x | EnqCasTail x p => next_is s p x
  | DeqProtect p => p = 0 ∨ hp_load t kHpHead (mq_hp s) = p
  | DeqCheckHead p => hp_load t kHpHead (mq_hp s) = p
  | DeqTail p => was_head l s p false
  | DeqProtectNext p tl x => was_head l s p (bool_decide (p ≠ tl)) ∧ (x = 0 ∨ hp_load t kHpNext (mq_hp s) = x)
  | DeqStoreNext p tl _ => was_head l s p (bool_decide (p ≠ tl))
  | DeqCheckNext p tl x k => was_head l s p (bool_decide (p ≠ tl)) ∧
      (x = 0 → empty_at s k) ∧ (x ≠ 0 → hp_load t kHpNext (mq_hp s) = x ∧ next_is s p x)
  | DeqHelp p x => next_is s p x
  | DeqCasHead p x => was_head l s p true ∧ next_is s p x
  | DeqItem _ x => is_Some (item_at x s)
  | QClear _ (Empty k) => empty_at s k
  | DeqScan c _ => scan_ok (relies s) t c (mq_hp s) ∧ scan_wf maxHPs maxThreads c
  | _ => True
  end.

(** ...with its hazard pointers and its private node. *)
Definition mpc_ok (l : list Z) (s : MichaelScottQueue) (t : nat) (q : mpc) : Prop :=
  (∀ i p, (i, p) ∈ relied_on q → hp_load t i (mq_hp s) = p ∧ published s p) ∧
  (∀ n, private q = Some n → ∃ N, mq_nodes s !! n = Some N ∧ next N = 0 ∧ is_Some (item N)) ∧
  mpc_facts l s t q.

(** [l]: the nodes of the queue; every node is there once, in the queue or with one
    thread. Only the last node and those not yet linked have no successor. *)
Record qinv (l : list Z) (s : MichaelScottQueue) : Prop := {
  mi_head : linked (mq_nodes s) (mq_head s) l;
  mi_tail : mq_tail s ∈ l;
  mi_log : queue_history (mq_log s) [] = Some (items (mq_nodes s) (tail l));
  mi_items : ∀ a, a ∈ tail l → is_Some (item_at a s);
  mi_nodes : ∀ a N, mq_nodes s !! a = Some N → a ≠ 0;
  mi_last : ∀ a N, mq_nodes s !! a = Some N → next N = 0 → a ∈ l ∨ ∃ t, pushing s t a;
  mi_all : all_held maxThreads l (holds s) (mq_nodes s);
  mi_threads : ∀ t q, mq_pc s !! t = Some q → (t < maxThreads)%nat;
  mi_pc : ∀ t q, mq_pc s !! t = Some q → mpc_ok l s t q;
  mi_got : ∀ t, popped_of t (mq_log s) = got_of t (mq_rets s) ++ pending s t;
  mi_empty : ∀ t k, (t, inr k) ∈ mq_rets s → empty_at s k;
  mi_unused : ∀ t, (maxThreads ≤ t)%nat → retired t (mq_hp s) = []
}.

(** ** Lists *)

Lemma linked_app m p l1 a l2 : linked m p (l1 ++ a :: l2) → ∃ N, m !! a = Some N ∧ linked m (next N) l2.
Proof using.
  revert p. induction l1 as [|b l1 IH]; intros p; cbn.
  - intros (_ & N & HN & Hl). by exists N.
  - intros (_ & N & _ & Hl). by apply (IH (next N)).
Qed.

Lemma mq_linked_ext m m' p l : (∀ a, a ∈ l → m' !! a = m !! a) → linked m p l → linked m' p l.
Proof using.
  revert p. induction l as [|a l IH]; intros p H; cbn; [done|]. intros (-> & N & HN & Hl). split; [done|].
  exists N. rewrite H by left. split; [done|]. apply IH; [|done]. intros b Hb. apply H. by right.
Qed.

(** The node after one in the queue. *)
Lemma linked_next m p l a N : linked m p l → a ∈ l → m !! a = Some N → next N ≠ 0 →
  ∃ l1 l2, l = l1 ++ a :: next N :: l2.
Proof using.
  intros Hl (l1 & l2 & ->)%list_elem_of_split HN Hne. destruct (linked_app m p l1 a l2 Hl) as (N' & HN' & Hl2).
  assert (N' = N) as -> by congruence. destruct l2 as [|b l2]; cbn in Hl2; [done|]. destruct Hl2 as [<- _]. by exists l1, l2.
Qed.

(** The last node. *)
Lemma linked_last m p l a N : linked m p l → NoDup l → (∀ b, b ∈ l → b ≠ 0) → a ∈ l → m !! a = Some N → next N = 0 →
  ∃ l1, l = l1 ++ [a].
Proof using.
  intros Hl Hnd Hnz (l1 & l2 & ->)%list_elem_of_split HN Hz. destruct (linked_app m p l1 a l2 Hl) as (N' & HN' & Hl2).
  assert (N' = N) as -> by congruence. destruct l2 as [|b l2]; [by exists l1|]. destruct Hl2 as [Hb _].
  exfalso. apply (Hnz b); [|by rewrite <- Hb, Hz]. apply elem_of_app. right. right. left.
Qed.

Lemma linked_snoc m p l1 a N n : linked m p (l1 ++ [a]) → NoDup (l1 ++ [a]) → m !! a = Some N →
  ∀ m', (∀ b, b ∈ l1 → m' !! b = m !! b) → m' !! a = Some (with_next n N) →
  (∃ M, m' !! n = Some M ∧ next M = 0) → linked m' p ((l1 ++ [a]) ++ [n]).
Proof using.
  intros Hl Hnd HN m' Hm Ha (M & HM & Hz). revert p Hl. induction l1 as [|b l1 IH]; intros p.
  - cbn. intros (-> & _). split; [done|]. exists (with_next n N). split; [done|]. cbn. split; [done|]. by exists M.
  - cbn. intros (-> & N2 & HN2 & Hl). split; [done|]. exists N2. split; [rewrite Hm; [done|left]|].
    apply IH; [|intros c Hc; apply Hm; by right|done]. by apply NoDup_cons in Hnd as [_ ?].
Qed.

Lemma mq_items_ext m m' l : (∀ a, a ∈ l → m' !! a ≫= item = m !! a ≫= item) → items m' l = items m l.
Proof using.
  intros H. unfold items. apply list_fmap_ext. intros i a Ha. rewrite H; [done|]. by eapply list_elem_of_lookup_2.
Qed.

Section Who.
Context (l : list Z) (s : MichaelScottQueue) (H : qinv l s).

Lemma q_nodup : NoDup l.
Proof using H. apply (linked_nodup maxThreads l (holds s) (mq_nodes s) (mi_all _ _ H)). Qed.

Lemma in_node a : a ∈ l → ∃ N, mq_nodes s !! a = Some N ∧ a ≠ 0.
Proof using H.
  intros Ha. destruct (proj2 (all_nodes maxThreads l (holds s) (mq_nodes s) (mi_all _ _ H) a)) as [N HN]; [by left|].
  exists N. split; [done|]. by apply (mi_nodes _ _ H a N).
Qed.

Lemma q_shape : ∃ l', l = mq_head s :: l'.
Proof using H.
  pose proof (mi_head _ _ H) as Hh. pose proof (mi_tail _ _ H) as Ht. destruct l as [|a l']; [by apply elem_of_nil in Ht|].
  destruct Hh as [-> _]. by exists l'.
Qed.

Lemma owner_thread t a : a ∈ owns s t → (t < maxThreads)%nat ∧ a ∈ holds s t.
Proof using H.
  intros Ha. split; [|unfold holds; rewrite elem_of_app; by left]. unfold owns in Ha.
  destruct (mq_pc s !! t) as [q|] eqn:E; [|by apply elem_of_nil in Ha]. by apply (mi_threads _ _ H t q).
Qed.

Lemma owned_node t a : a ∈ owns s t → is_Some (mq_nodes s !! a).
Proof using H.
  intros [Ht Hh]%owner_thread. by apply (held_node maxThreads l (holds s) (mq_nodes s) (mi_all _ _ H) t).
Qed.

Lemma owned_out t a : a ∈ owns s t → a ∉ l.
Proof using H.
  intros [Ht Hh]%owner_thread. by apply (held_not_in maxThreads l (holds s) (mq_nodes s) (mi_all _ _ H) t).
Qed.

Lemma pushing_owns t n : pushing s t n → n ∈ owns s t.
Proof using.
  unfold pushing, owns. destruct (mq_pc s !! t) as [q|]; [|done]. cbn. intros E.
  destruct q; cbn in *; try done; injection E as ->; left.
Qed.

Lemma pushing_once t u n : pushing s t n → pushing s u n → t = u.
Proof using H.
  intros [Ht Hh]%pushing_owns%owner_thread [Hu Hh2]%pushing_owns%owner_thread. destruct (decide (t = u)); [done|].
  exfalso. by apply (held_once maxThreads l (holds s) (mq_nodes s) (mi_all _ _ H) t u n).
Qed.

(** Linked nodes have been published. *)
Lemma in_published a : a ∈ l → published s a.
Proof using H.
  intros Ha. destruct (in_node a Ha) as (N & HN & _). split; [by eexists|]. intros u Hu.
  by apply (owned_out u a); [apply pushing_owns|].
Qed.

Lemma mq_relies_ok t ihp p : relies s t ihp p → hp_load t ihp (mq_hp s) = p ∧ published s p.
Proof using H. intros (q & Eq & Hin). by apply (mi_pc _ _ H t q Eq). Qed.

Lemma relies_index t ihp p : relies s t ihp p → (t < maxThreads ∧ ihp < maxHPs)%nat.
Proof using H.
  intros (q & Eq & Hin). split; [by apply (mi_threads _ _ H t q)|]. unfold maxHPs, kHpTail, kHpHead, kHpNext in *.
  destruct q; cbn in Hin; unfold kHpTail, kHpHead, kHpNext in Hin; set_solver by lia.
Qed.

Lemma q_relied : relied maxHPs maxThreads (relies s) (mq_hp s).
Proof using H. constructor; intros t ihp p Hr; [by apply (relies_index t ihp p)|by apply mq_relies_ok]. Qed.
End Who.

(** ** A step of thread [t] *)

(** How the queue, its head and its tail may change. *)
Inductive qmove (l : list Z) (hd tl : Z) : list Z → Z → Z → Prop :=
| QStay : qmove l hd tl l hd tl
| QAppend n : qmove l hd tl (l ++ [n]) hd tl
| QPop h l' : l = hd :: h :: l' → tl ≠ hd → qmove l hd tl (h :: l') h tl
| QTail l1 x l2 : l = l1 ++ tl :: x :: l2 → qmove l hd tl l hd x.

Record quiet (l l' : list Z) (s s' : MichaelScottQueue) (t : nat) : Prop := {
  q_pc : ∀ u, u ≠ t → mq_pc s' !! u = mq_pc s !! u;
  q_retired : ∀ u, u ≠ t → retired u (mq_hp s') = retired u (mq_hp s);
  q_load : ∀ u i, u ≠ t → hp_load u i (mq_hp s') = hp_load u i (mq_hp s);
  q_own : ∀ u a, u ≠ t → a ∈ owns s u → mq_nodes s' !! a = mq_nodes s !! a;
  q_rel : ∀ u i a N, u ≠ t → relies s u i a → mq_nodes s !! a = Some N → ∃ N', mq_nodes s' !! a = Some N' ∧ node_le N N';
  q_push : ∀ n, pushing s' t n → pushing s t n ∨ mq_nodes s !! n = None;
  q_rely : ∀ i p, relies s' t i p → relies s t i p ∨ p ∈ l;
  q_move : qmove l (mq_head s) (mq_tail s) l' (mq_head s') (mq_tail s');
  q_in : ∀ a, a ∈ l' → a ∈ l ∨ pushing s t a;
  q_log : ∃ ev, mq_log s' = mq_log s ++ ev
}.

Lemma mq_quiet_relies l l' s s' t u ihp p : quiet l l' s s' t → u ≠ t → relies s' u ihp p ↔ relies s u ihp p.
Proof using. intros Q Hne. unfold relies. by rewrite (q_pc _ _ _ _ _ Q). Qed.

Lemma mq_quiet_holds l l' s s' t u : quiet l l' s s' t → u ≠ t → holds s' u = holds s u.
Proof using. intros Q Hne. unfold holds, owns. by rewrite (q_pc _ _ _ _ _ Q), (q_retired _ _ _ _ _ Q). Qed.

Lemma mq_quiet_published l l' s s' t u i p :
  qinv l s → quiet l l' s s' t → u ≠ t → relies s u i p → published s' p.
Proof using.
  intros H Q Hne Hr. destruct (mq_relies_ok l s H _ _ _ Hr) as (_ & [N HN] & Hp). split.
  - destruct (q_rel _ _ _ _ _ Q u i p N Hne Hr HN) as (N' & HN' & _). by eexists.
  - intros v Hv. destruct (decide (v = t)) as [->|Hvt].
    + destruct (q_push _ _ _ _ _ Q p Hv) as [Hv2|Hv2]; [by apply (Hp t)|]. congruence.
    + apply (Hp v). unfold pushing in *. by rewrite (q_pc _ _ _ _ _ Q) in Hv.
Qed.

Lemma mq_quiet_scan l l' s s' t u c :
  qinv l s → quiet l l' s s' t → u ≠ t → (u < maxThreads)%nat →
  scan_ok (relies s) u c (mq_hp s) → scan_ok (relies s') u c (mq_hp s').
Proof using.
  intros H Q Hne Hu Hc v ihp p Hr Hp. rewrite (q_retired _ _ _ _ _ Q) in Hp by done.
  destruct (decide (v = t)) as [->|Hvt].
  - destruct (q_rely _ _ _ _ _ Q ihp p Hr) as [Hr2|Hl]; [by apply (Hc t ihp p)|].
    exfalso. apply (held_not_in maxThreads l (holds s) (mq_nodes s) (mi_all _ _ H) u p); [done| |done].
    unfold holds. apply elem_of_app. right. by eapply list_elem_of_lookup_2.
  - apply (Hc v ihp p); [|done]. by apply (mq_quiet_relies l l' s s' t).
Qed.

Lemma quiet_was_head l l' s s' t p b :
  qinv l s → quiet l l' s s' t → published s p → was_head l s p b → was_head l' s' p b.
Proof using.
  intros H Q [_ Hp] Hw Hin. destruct (q_in _ _ _ _ _ Q p Hin) as [Hl|Hl]; [|by destruct (Hp t)].
  destruct (Hw Hl) as [Hh Hb]. pose proof (q_nodup l s H) as Hnd. destruct (q_shape l s H) as [l0 E0].
  destruct (q_move _ _ _ _ _ Q) as [|n|h l2 El Hne|l1 x l2 El]; try done.
  - exfalso. rewrite Hh, El in *. by apply NoDup_cons in Hnd as [Hn _].
  - split; [done|]. intros _ ->. rewrite El in Hnd. rewrite Hh in E0. rewrite El in E0.
    destruct l1 as [|y l1]; cbn in E0; injection E0 as Ey _.
    + rewrite Ey in Hnd. apply NoDup_cons in Hnd as [Hn _]. apply Hn. left.
    + rewrite Ey in Hnd. cbn in Hnd. apply NoDup_cons in Hnd as [Hn _]. apply Hn. apply elem_of_app. right. right. left.
Qed.

Lemma quiet_next l l' s s' t u i p x :
  quiet l l' s s' t → u ≠ t → relies s u i p → next_is s p x → next_is s' p x.
Proof using.
  intros Q Hne Hr (Hx & N & HN & En). destruct (q_rel _ _ _ _ _ Q u i p N Hne Hr HN) as (N' & HN' & _ & Hle).
  split; [done|]. exists N'. split; [done|]. rewrite Hle; [done|congruence].
Qed.

Lemma empty_at_ext s s' k ev : mq_log s' = mq_log s ++ ev → empty_at s k → empty_at s' k.
Proof using.
  intros El [Hk Hh]. unfold empty_at. rewrite El, length_app, take_app_le by done. split; [lia|done].
Qed.

Lemma mq_quiet_pc l l' s s' t u q :
  qinv l s → quiet l l' s s' t → u ≠ t → mq_pc s !! u = Some q → mpc_ok l' s' u q.
Proof using.
  intros H Q Hne Eq. pose proof (mi_threads _ _ H u q Eq) as Hu. destruct (mi_pc _ _ H u q Eq) as (HR & HP & Hq).
  pose proof (λ i, q_load _ _ _ _ _ Q u i Hne) as El. destruct (q_log _ _ _ _ _ Q) as [ev Elog].
  assert (∀ i p, (i, p) ∈ relied_on q → relies s u i p) as Hrel by (intros i p Hin; by exists q).
  split; [|split].
  - intros i p Hin. rewrite El. split; [by apply HR|]. by apply (mq_quiet_published l l' s s' t u i), Hrel.
  - intros n Hn. rewrite (q_own _ _ _ _ _ Q u n Hne); [by apply HP|]. apply pushing_owns. unfold pushing. by rewrite Eq.
  - assert (∀ i p b, (i, p) ∈ relied_on q → was_head l s p b → was_head l' s' p b) as Hwh.
    { intros i p b Hin. apply (quiet_was_head l l' s s' t p b H Q). by apply (HR i p). }
    assert (∀ i p x, (i, p) ∈ relied_on q → next_is s p x → next_is s' p x) as Hnx.
    { intros i p x Hin. by apply (quiet_next l l' s s' t u i), Hrel. }
    destruct q; try done; cbn [mpc_facts] in *; rewrite ?El; try done.
    + apply (Hnx kHpTail); [left|done].
    + apply (Hnx kHpTail); [left|done].
    + apply (Hwh kHpHead); [left|done].
    + split; [apply (Hwh kHpHead); [left|apply Hq]|apply Hq].
    + apply (Hwh kHpHead); [left|done].
    + destruct Hq as (Q1 & Q2 & Q3). split; [apply (Hwh kHpHead); [left|done]|]. split.
      * intros Ex. apply (empty_at_ext s s' k ev Elog). by apply Q2.
      * intros Ex. destruct (Q3 Ex) as [Q4 Q5]. split; [done|]. apply (Hnx kHpHead); [left|done].
    + apply (Hnx kHpHead); [left|done].
    + destruct Hq as [Q1 Q2]. split; [apply (Hwh kHpHead); [left|done]|apply (Hnx kHpHead); [left|done]].
    + destruct Hq as [v Hv]. unfold item_at in *. destruct (mq_nodes s !! lnext) as [N|] eqn:EN; [|done].
      destruct (q_rel _ _ _ _ _ Q u kHpNext lnext N Hne) as (N' & -> & Ei & _); [apply Hrel; left|done|]. cbn. rewrite Ei. by exists v.
    + destruct r; try done. by apply (empty_at_ext s s' k ev).
    + destruct Hq as [Hc Hw]. split; [|done]. by apply (mq_quiet_scan l l' s s' t).
Qed.

Lemma mq_quiet_pending l l' s s' t u : qinv l s → quiet l l' s s' t → u ≠ t → pending s' u = pending s u.
Proof using.
  intros H Q Hne. unfold pending. rewrite (q_pc _ _ _ _ _ Q) by done. destruct (mq_pc s !! u) as [q|] eqn:E; [|done].
  destruct q; try done. unfold item_at. assert (relies s u kHpNext lnext) as Hr by (eexists; split; [done|left]).
  destruct (mq_relies_ok l s H _ _ _ Hr) as (_ & [N HN] & _). rewrite HN.
  destruct (q_rel _ _ _ _ _ Q u kHpNext lnext N Hne Hr HN) as (N' & -> & Ei & _). cbn. by rewrite Ei.
Qed.

Lemma qinv_step l l' s s' t :
  qinv l s → quiet l l' s s' t → (t < maxThreads)%nat →
  linked (mq_nodes s') (mq_head s') l' → mq_tail s' ∈ l' →
  queue_history (mq_log s') [] = Some (items (mq_nodes s') (tail l')) →
  (∀ a, a ∈ tail l' → is_Some (item_at a s')) → (∀ a N, mq_nodes s' !! a = Some N → a ≠ 0) →
  (∀ a N, mq_nodes s' !! a = Some N → next N = 0 → a ∈ l' ∨ pushing s' t a ∨ ∃ u, u ≠ t ∧ pushing s u a) →
  (∀ us vs, l ++ us ++ holds s t ++ vs ≡ₚ (map_to_list (mq_nodes s)).*1 →
     l' ++ us ++ holds s' t ++ vs ≡ₚ (map_to_list (mq_nodes s')).*1) →
  (∀ q, mq_pc s' !! t = Some q → mpc_ok l' s' t q) →
  (∀ u, u ≠ t → popped_of u (mq_log s') = popped_of u (mq_log s) ∧ got_of u (mq_rets s') = got_of u (mq_rets s)) →
  popped_of t (mq_log s') = got_of t (mq_rets s') ++ pending s' t →
  (∀ u k, (u, inr k) ∈ mq_rets s' → (u, inr k) ∈ mq_rets s ∨ empty_at s' k) → qinv l' s'.
Proof using.
  intros H Q Ht H1 H2 H3 H4 H5 H6 H7 H8 H9 H10 H11. destruct (q_log _ _ _ _ _ Q) as [ev Elog]. constructor; try done.
  - intros a N HN Hz. destruct (H6 a N HN Hz) as [?|[?|(u & Hu & Hp)]]; [by left|right; by exists t|]. right. exists u.
    unfold pushing in *. by rewrite (q_pc _ _ _ _ _ Q).
  - apply (all_held_step maxThreads l (holds s) (mq_nodes s) (mi_all _ _ H) l' _ _ t); [done| |done].
    intros u Hu. by apply (mq_quiet_holds l l' s s' t).
  - intros u q Hu. destruct (decide (u = t)) as [->|Hne]; [done|].
    rewrite (q_pc _ _ _ _ _ Q) in Hu by done. by apply (mi_threads _ _ H u q).
  - intros u q Hu. destruct (decide (u = t)) as [->|Hne]; [by apply H8|].
    rewrite (q_pc _ _ _ _ _ Q) in Hu by done. by apply (mq_quiet_pc l l' s s' t).
  - intros u. destruct (decide (u = t)) as [->|Hne]; [done|]. destruct (H9 u Hne) as [-> ->].
    rewrite (mq_quiet_pending l l' s s' t u H Q Hne). apply H.
  - intros u k [Hk|Hk]%H11; [|done]. by apply (empty_at_ext s s' k ev), (mi_empty _ _ H u).
  - intros u Hu. rewrite (q_retired _ _ _ _ _ Q) by lia. by apply (mi_unused _ _ H).
Qed.

(** ** Steps that leave nodes, head, tail and retired lists alone *)

Lemma qinv_local l s s' t :
  qinv l s → (t < maxThreads)%nat → mq_head s' = mq_head s → mq_tail s' = mq_tail s → mq_nodes s' = mq_nodes s →
  mq_log s' = mq_log s → (∀ u, retired u (mq_hp s') = retired u (mq_hp s)) →
  (∀ u i, u ≠ t → hp_load u i (mq_hp s') = hp_load u i (mq_hp s)) →
  (∀ u, u ≠ t → mq_pc s' !! u = mq_pc s !! u) → owns s' t = owns s t →
  (∀ n, pushing s' t n ↔ pushing s t n) → (∀ i p, relies s' t i p → relies s t i p ∨ p ∈ l) →
  (∀ q, mq_pc s' !! t = Some q → mpc_ok l s' t q) →
  (∀ u, u ≠ t → got_of u (mq_rets s') = got_of u (mq_rets s)) →
  got_of t (mq_rets s') ++ pending s' t = got_of t (mq_rets s) ++ pending s t →
  (∀ u k, (u, inr k) ∈ mq_rets s' → (u, inr k) ∈ mq_rets s ∨ empty_at s' k) → qinv l s'.
Proof using.
  intros H Ht Eh Etl En Elog Er El Ep Eo Hpush Hrely Hok Hrest Hgot Hem. apply (qinv_step l l s s' t); try done.
  - constructor; try done.
    + intros u a _ _. by rewrite En.
    + intros u i a N _ _ HN. exists N. by rewrite En.
    + intros n Hn. left. by apply Hpush.
    + rewrite Eh, Etl. constructor.
    + intros a Ha. by left.
    + exists []. by rewrite app_nil_r.
  - rewrite En, Eh. apply H.
  - rewrite Etl. apply H.
  - rewrite Elog, En. apply H.
  - unfold item_at. rewrite En. apply H.
  - rewrite En. apply H.
  - intros a N. rewrite En. intros HN Hz. destruct (mi_last _ _ H a N HN Hz) as [?|[u Hu]]; [by left|]. right.
    destruct (decide (u = t)) as [->|Hne]; [left; by apply Hpush|right; by exists u].
  - intros us vs Hp. unfold holds. rewrite Eo, Er, En. exact Hp.
  - intros u Hu. rewrite Elog. split; [done|by apply Hrest].
  - rewrite Elog, Hgot. apply H.
Qed.

(** The thread only moves on. *)
Lemma mq_qinv_goto l s t q0 q :
  qinv l s → mq_pc s !! t = Some q0 → owned q = owned q0 → private q = private q0 →
  (∀ i p, (i, p) ∈ relied_on q → (i, p) ∈ relied_on q0 ∨ p ∈ l) →
  mpc_ok l (mq_goto t q s) t q → pending (mq_goto t q s) t = pending s t → qinv l (mq_goto t q s).
Proof using.
  intros H Eq Eo Epr Hrely Hok Hpe. pose proof (mi_threads _ _ H t q0 Eq) as Ht.
  apply (qinv_local l s _ t); try done.
  - intros u Hu. cbn. by rewrite lookup_insert_ne.
  - unfold owns. cbn. rewrite lookup_insert_eq, Eq. done.
  - intros n. unfold pushing. cbn. rewrite lookup_insert_eq, Eq. cbn. by rewrite Epr.
  - intros i p (q' & Eq' & Hin). cbn in Eq'. rewrite lookup_insert_eq in Eq'. injection Eq' as <-.
    destruct (Hrely i p Hin) as [?|?]; [left; by exists q0|by right].
  - intros q'. cbn. rewrite lookup_insert_eq. by intros [= <-].
  - by rewrite Hpe.
  - intros u k Hk. by left.
Qed.

Lemma pushing_goto s t q0 q u p : mq_pc s !! t = Some q0 → private q = private q0 → pushing (mq_goto t q s) u p ↔ pushing s u p.
Proof using.
  intros Eq Epr. unfold pushing. cbn. destruct (decide (u = t)) as [->|Hut]; [|by rewrite lookup_insert_ne].
  rewrite lookup_insert_eq, Eq. cbn. by rewrite Epr.
Qed.

Lemma mq_published_goto s t q0 q p :
  mq_pc s !! t = Some q0 → private q = private q0 → published s p → published (mq_goto t q s) p.
Proof using.
  intros Eq Epr [P1 P2]. split; [done|]. intros u Hu. apply (P2 u). by apply (pushing_goto s t q0 q u p).
Qed.

(** The thread moves on with facts that do not depend on where it is. *)
Definition scanning (q : mpc) : bool := match q with DeqScan _ _ => true | _ => false end.

Lemma qinv_advance l s t q0 q :
  qinv l s → mq_pc s !! t = Some q0 → owned q = owned q0 → private q = private q0 → scanning q = false →
  (∀ i p, (i, p) ∈ relied_on q → (i, p) ∈ relied_on q0 ∨ hp_load t i (mq_hp s) = p ∧ p ∈ l) →
  pending (mq_goto t q s) t = pending s t → mpc_facts l s t q → qinv l (mq_goto t q s).
Proof using.
  intros H Eq Eo Epr Hsc Hrel Hpe Hq. apply (mq_qinv_goto l s t q0); try done.
  - intros i p Hin. destruct (Hrel i p Hin) as [?|[_ ?]]; [by left|by right].
  - destruct (mi_pc _ _ H t q0 Eq) as (HR & HP & _). split; [|split].
    + intros i p Hin. cbn [mq_hp mq_goto].
      assert (hp_load t i (mq_hp s) = p ∧ published s p) as [? Hp].
      { destruct (Hrel i p Hin) as [Hin2|[? ?]]; [by apply HR|]. split; [done|by apply (in_published l s H)]. }
      split; [done|]. by apply (mq_published_goto s t q0).
    + intros n Hn. rewrite Epr in Hn. by apply HP.
    + by destruct q.
Qed.

(** Writing its own hazard pointer [i]. *)
Lemma qinv_protect l s t q0 q i x :
  qinv l s → mq_pc s !! t = Some q0 → owned q = owned q0 → private q = private q0 → scanning q = false →
  (∀ j p, (j, p) ∈ relied_on q → (j, p) ∈ relied_on q0 ∧ j ≠ i) →
  let s1 := mq_set_hp (protectPtr i x t (mq_hp s)) s in
  pending (mq_goto t q s1) t = pending s t → mpc_facts l s1 t q → qinv l (mq_goto t q s1).
Proof using.
  intros H Eq Eo Epr Hsc Hrel s1 Hpe Hq. pose proof (mi_threads _ _ H t q0 Eq) as Ht.
  apply (qinv_local l s _ t); try done.
  - intros u j Hu. cbn. apply hp_load_ne. congruence.
  - intros u Hu. cbn. by rewrite lookup_insert_ne.
  - unfold owns. cbn. rewrite lookup_insert_eq, Eq. done.
  - intros n. unfold pushing. cbn. rewrite lookup_insert_eq, Eq. cbn. by rewrite Epr.
  - intros j p (q' & Eq' & Hin). cbn in Eq'. rewrite lookup_insert_eq in Eq'. injection Eq' as <-.
    left. exists q0. split; [done|by apply Hrel].
  - intros q'. cbn. rewrite lookup_insert_eq. intros [= <-]. destruct (mi_pc _ _ H t q0 Eq) as (HR & HP & _). split; [|split].
    + intros j p [Hin Hj]%Hrel. cbn [mq_hp mq_goto s1 mq_set_hp]. rewrite hp_load_ne by congruence.
      destruct (HR j p Hin) as [? Hp]. split; [done|]. by apply (mq_published_goto s1 t q0).
    + intros n Hn. rewrite Epr in Hn. by apply HP.
    + by destruct q.
  - by rewrite Hpe.
  - intros u k Hk. by left.
Qed.

Ltac at_pc Eq := unfold pending; cbn; rewrite ?lookup_insert_eq, ?Eq; done.
Ltac no_reliance := let H := fresh in intros ? ? H; exfalso; by apply elem_of_nil in H.
Ltac moves Eq := try done; try no_reliance; try (at_pc Eq); try (intros ? ? ?; by left).

Lemma enq_load_ok l s t n : qinv l s → mq_pc s !! t = Some (EnqLoad n) → qinv l (mq_goto t (EnqProtect n (mq_tail s)) s).
Proof using. intros H Eq. apply (qinv_advance l s t (EnqLoad n)); moves Eq. Qed.

Lemma enq_protect_ok l s t n p : qinv l s → mq_pc s !! t = Some (EnqProtect n p) → qinv l (enq_protect t n p s).
Proof using.
  intros H Eq. apply (qinv_protect l s t (EnqProtect n p)); moves Eq. cbn. apply hp_load_eq.
Qed.

Lemma enq_check_ok l s t n p : qinv l s → mq_pc s !! t = Some (EnqCheck n p) → qinv l (enq_check t n p s).
Proof using.
  intros H Eq. destruct (mi_pc _ _ H t _ Eq) as (_ & _ & Hh). unfold enq_check. destruct (Z.eqb_spec p (mq_tail s)) as [->|Hne].
  - apply (qinv_advance l s t (EnqCheck n (mq_tail s))); moves Eq.
    intros i x [[= -> ->]|Hx]%elem_of_cons; [|by apply elem_of_nil in Hx]. right. split; [done|apply H].
  - apply (qinv_advance l s t (EnqCheck n p)); moves Eq.
Qed.

(** A thread may dereference the node on which it relies. *)
Lemma relied_node l s t q i p : qinv l s → mq_pc s !! t = Some q → (i, p) ∈ relied_on q → ∃ N, mq_nodes s !! p = Some N.
Proof using. intros H Eq Hin. destruct (mi_pc _ _ H t q Eq) as (HR & _). by destruct (HR i p Hin) as (_ & [N HN] & _); exists N. Qed.

Lemma enq_next_ok l s t n p :
  qinv l s → mq_pc s !! t = Some (EnqNext n p) → ∃ s', enq_next t n p s = Ok s' ∧ qinv l s'.
Proof using.
  intros H Eq. destruct (relied_node l s t _ kHpTail p H Eq ltac:(left)) as [N HN]. unfold enq_next, with_node. rewrite HN.
  eexists. split; [done|]. destruct (Z.eqb_spec (next N) 0) as [E|E].
  - apply (qinv_advance l s t (EnqNext n p)); moves Eq.
  - apply (qinv_advance l s t (EnqNext n p)); moves Eq.
    cbn. split; [done|]. by exists N.
Qed.

Lemma deq_protect_ok l s t n : qinv l s → mq_pc s !! t = Some (DeqProtect n) → qinv l (deq_protect t n s).
Proof using.
  intros H Eq. destruct (mi_pc _ _ H t _ Eq) as (_ & _ & Hh). unfold deq_protect. cbn zeta.
  destruct (Z.eqb_spec (mq_head s) n) as [E|E]; (apply (qinv_advance l s t (DeqProtect n)); moves Eq).
  cbn in *. destruct Hh as [->|Hh]; [|congruence]. exfalso. destruct (q_shape l s H) as [l' El].
  destruct (in_node l s H (mq_head s)) as (_ & _ & Hnz); [rewrite El; left|done].
Qed.

Lemma deq_store_ok l s t p : qinv l s → mq_pc s !! t = Some (DeqStore p) → qinv l (deq_store t p s).
Proof using.
  intros H Eq. apply (qinv_protect l s t (DeqStore p)); moves Eq. cbn. right. apply hp_load_eq.
Qed.

Lemma head_in l s : qinv l s → mq_head s ∈ l.
Proof using. intros H. destruct (q_shape l s H) as [l' ->]. left. Qed.

Lemma deq_check_head_ok l s t p : qinv l s → mq_pc s !! t = Some (DeqCheckHead p) → qinv l (deq_check_head t p s).
Proof using.
  intros H Eq. destruct (mi_pc _ _ H t _ Eq) as (_ & _ & Hh). unfold deq_check_head. destruct (Z.eqb_spec p (mq_head s)) as [->|Hne].
  - apply (qinv_advance l s t (DeqCheckHead (mq_head s))); moves Eq.
    intros i x [[= -> ->]|Hx]%elem_of_cons; [|by apply elem_of_nil in Hx]. right. split; [done|by apply head_in].
  - apply (qinv_advance l s t (DeqCheckHead p)); moves Eq. by left.
Qed.

Lemma deq_tail_ok l s t p : qinv l s → mq_pc s !! t = Some (DeqTail p) → qinv l (mq_goto t (DeqProtectNext p (mq_tail s) 0) s).
Proof using.
  intros H Eq. destruct (mi_pc _ _ H t _ Eq) as (_ & _ & Hh).
  apply (qinv_advance l s t (DeqTail p)); moves Eq.
  split; [|by left]. intros Hin. destruct (Hh Hin) as [Hp _]. split; [done|]. intros Hb%bool_decide_eq_true. congruence.
Qed.

(** A published node without successor is the last of the queue. *)
Lemma last_node l s p N : qinv l s → published s p → mq_nodes s !! p = Some N → next N = 0 → ∃ l1, l = l1 ++ [p].
Proof using.
  intros H [_ Hp] HN Hz. destruct (mi_last _ _ H p N HN Hz) as [Hin|[u Hu]]; [|by destruct (Hp u)].
  apply (linked_last (mq_nodes s) (mq_head s) l p N); try done; [apply H|by apply (q_nodup l s H)|].
  intros b Hb. by destruct (in_node l s H b Hb) as (_ & _ & ?).
Qed.

Lemma deq_protect_next_ok l s t p tl n :
  qinv l s → mq_pc s !! t = Some (DeqProtectNext p tl n) → ∃ s', deq_protect_next t p tl n s = Ok s' ∧ qinv l s'.
Proof using.
  intros H Eq. destruct (relied_node l s t _ kHpHead p H Eq ltac:(left)) as [N HN].
  destruct (mi_pc _ _ H t _ Eq) as (HR & _ & Hw & Hn). unfold deq_protect_next, with_node. rewrite HN. cbn zeta. eexists.
  split; [done|]. destruct (Z.eqb_spec (next N) n) as [E|E].
  2:{ apply (qinv_advance l s t (DeqProtectNext p tl n)); moves Eq. }
  apply (qinv_advance l s t (DeqProtectNext p tl n)); moves Eq. split; [done|]. split.
  - intros Hz. split; [done|]. rewrite take_ge by done. rewrite (mi_log _ _ H).
    destruct (HR kHpHead p ltac:(left)) as [_ Hpub]. destruct (last_node l s p N H Hpub HN Hz) as [l1 El].
    destruct (Hw ltac:(rewrite El; apply elem_of_app; right; left)) as [Hp _]. destruct (q_shape l s H) as [l' El'].
    pose proof (q_nodup l s H) as Hnd. destruct l1 as [|a l1]; [by rewrite El|]. exfalso. rewrite El in El'. injection El' as Ea _.
    rewrite El, Ea, Hp in Hnd. apply NoDup_cons in Hnd as [Hn2 _]. apply Hn2, elem_of_app. right. left.
  - intros Hz. destruct Hn as [->|Hn]; [done|]. split; [congruence|]. split; [done|]. by exists N.
Qed.

Lemma deq_store_next_ok l s t p tl x :
  qinv l s → mq_pc s !! t = Some (DeqStoreNext p tl x) → qinv l (deq_store_next t p tl x s).
Proof using.
  intros H Eq. destruct (mi_pc _ _ H t _ Eq) as (_ & _ & Hw).
  apply (qinv_protect l s t (DeqStoreNext p tl x)); moves Eq.
  - intros j y [[= -> ->]|Hy]%elem_of_cons; [|by apply elem_of_nil in Hy]. split; [left|done].
  - split; [done|]. right. apply hp_load_eq.
Qed.

(** The successor of a node of the queue is in the queue. *)
Lemma next_in l s p x : qinv l s → p ∈ l → next_is s p x → x ∈ l.
Proof using.
  intros H Hp (Hx & N & HN & En). destruct (linked_next (mq_nodes s) (mq_head s) l p N) as (l1 & l2 & El); try done; [apply H|congruence|].
  rewrite El, En. apply elem_of_app. right. right. left.
Qed.

Lemma deq_check_next_ok l s t p tl x k :
  qinv l s → mq_pc s !! t = Some (DeqCheckNext p tl x k) → qinv l (deq_check_next t p tl x k s).
Proof using.
  intros H Eq. destruct (mi_pc _ _ H t _ Eq) as (_ & _ & Hw & Hz & Hn). unfold deq_check_next.
  destruct (Z.eqb_spec p (mq_head s)) as [Ep|Hne].
  2:{ apply (qinv_advance l s t (DeqCheckNext p tl x k)); moves Eq. by left. }
  destruct (Z.eqb_spec x 0) as [Ex|Ex].
  { apply (qinv_advance l s t (DeqCheckNext p tl x k)); moves Eq. by apply Hz. }
  destruct (Hn Ex) as [Hh Hnx]. destruct (Z.eqb_spec p tl) as [->|Hne].
  - apply (qinv_advance l s t (DeqCheckNext tl tl x k)); moves Eq.
  - apply (qinv_advance l s t (DeqCheckNext p tl x k)); moves Eq.
    + intros i y [[= -> ->]|[[= -> ->]|Hy]%elem_of_cons]%elem_of_cons; [left; left| |by apply elem_of_nil in Hy].
      right. split; [done|]. apply (next_in l s p x H); [|done]. rewrite Ep. by apply head_in.
    + split; [|done]. by rewrite bool_decide_true in Hw.
Qed.

Lemma deq_item_ok l s t p x :
  qinv l s → mq_pc s !! t = Some (DeqItem p x) → ∃ s', deq_item t p x s = Ok s' ∧ qinv l s'.
Proof using.
  intros H Eq. destruct (relied_node l s t _ kHpNext x H Eq ltac:(left)) as [N HN].
  destruct (mi_pc _ _ H t _ Eq) as (_ & _ & Hv). cbn in Hv. unfold item_at in Hv. rewrite HN in Hv. cbn in Hv. destruct Hv as [v Hv].
  unfold deq_item, with_node. rewrite HN, Hv. eexists. split; [done|].
  apply (qinv_advance l s t (DeqItem p x)); moves Eq. unfold pending. cbn. rewrite lookup_insert_eq, Eq.
  unfold item_at. rewrite HN. cbn. by rewrite Hv.
Qed.

(** ** Returning *)

Lemma qinv_ret l s t q0 r :
  qinv l s → mq_pc s !! t = Some q0 → owned q0 = [] →
  match r with
  | None => pending s t = []
  | Some (inl v) => pending s t = [v]
  | Some (inr k) => pending s t = [] ∧ empty_at s k
  end → qinv l (match r with None => mq_done t s | Some r => mq_ret t r s end).
Proof using.
  intros H Eq Eo Hr. pose proof (mi_threads _ _ H t q0 Eq) as Ht. match goal with |- qinv _ ?S => set (s' := S) end.
  assert (mq_pc s' = delete t (mq_pc s)) as Epc by (unfold s'; by destruct r).
  assert (private q0 = None) as Epr by (destruct q0 as [| | | | | | | | | | | | | | | | |? []| |]; cbn in Eo; done).
  apply (qinv_local l s s' t); try done; try (unfold s'; by destruct r).
  - intros u Hu. by rewrite Epc, lookup_delete_ne.
  - unfold owns. rewrite Epc, lookup_delete_eq, Eq. cbn. by rewrite Eo.
  - intros n. unfold pushing. rewrite Epc, lookup_delete_eq, Eq. cbn. by rewrite Epr.
  - intros i p (q & Eq' & _). by rewrite Epc, lookup_delete_eq in Eq'.
  - intros q. by rewrite Epc, lookup_delete_eq.
  - intros u Hu. unfold s'. destruct r as [r|]; [|done]. cbn. rewrite got_of_snoc. destruct r; [|by rewrite app_nil_r].
    by rewrite decide_False, app_nil_r by done.
  - assert (pending s' t = []) as -> by (unfold pending; by rewrite Epc, lookup_delete_eq). unfold s'.
    destruct r as [[v|k]|]; cbn; rewrite ?got_of_snoc, ?app_nil_r.
    + by rewrite decide_True, Hr by done.
    + destruct Hr as [-> _]. by rewrite app_nil_r.
    + by rewrite Hr, app_nil_r.
  - intros u k. unfold s'. destruct r as [r|]; [|by left]. cbn. rewrite elem_of_app. intros [?|Hin]; [by left|right].
    apply list_elem_of_singleton in Hin as [= -> <-]. apply Hr.
Qed.

(** The arrays of hazard pointers have a row for every thread. *)
Context (Hrows : rows_for maxThreads).

Lemma mq_rows s l t q i {A} (o : outcome A) :
  qinv l s → mq_pc s !! t = Some q → (i < HP_MAX_HPS)%nat → with_row t i o = o.
Proof using Hrows.
  intros H Eq Hi. pose proof (mi_threads _ _ H t q Eq). unfold rows_for in Hrows. unfold with_row.
  rewrite in_rows_true; [done|lia|done].
Qed.

Lemma q_clear_ok l s t i r :
  qinv l s → mq_pc s !! t = Some (QClear i r) → ∃ s', q_clear t i r s = Ok s' ∧ qinv l s'.
Proof using Hrows.
  intros H Eq. destruct (mi_pc _ _ H t _ Eq) as (_ & _ & Hr). unfold q_clear, clearOne. destruct (Nat.ltb_spec i maxHPs) as [Hi|Hi].
  - rewrite (mq_rows s l t _ _ _ H Eq) by (unfold maxHPs, HP_MAX_HPS in *; lia). eexists. split; [done|].
    apply (qinv_protect l s t (QClear i r)); moves Eq.
  - destruct r as [|k|p v]; (eexists; split; [done|]).
    + apply (qinv_ret l s t (QClear i Enqueued) None H Eq); [done|]. at_pc Eq.
    + apply (qinv_ret l s t (QClear i (Empty k)) (Some (inr k)) H Eq); [done|]. split; [at_pc Eq|done].
    + apply (qinv_advance l s t (QClear i (Dequeued p v))); moves Eq.
Qed.

(** ** Moving the tail *)

Lemma cas_tail_ok l s t q0 q p x :
  qinv l s → mq_pc s !! t = Some q0 → owned q = owned q0 → private q = private q0 → relied_on q = [] →
  (∀ n, private q = Some n → ∃ N, mq_nodes s !! n = Some N ∧ next N = 0 ∧ is_Some (item N)) →
  next_is s p x → (∀ s2, mpc_facts l s2 t q) → (∀ s2, mq_pc s2 !! t = Some q → pending s2 t = []) → pending s t = [] →
  qinv l (mq_goto t q (casTail p x s)).
Proof using.
  intros H Eq Eo Epr Hrel Hpriv Hnx Hf Hp1 Hp2. pose proof (mi_threads _ _ H t q0 Eq) as Ht. unfold casTail.
  destruct (Z.eqb_spec (mq_tail s) p) as [Etl|Hne].
  2:{ apply (mq_qinv_goto l s t q0); try done; [rewrite Hrel; no_reliance| |].
      - split; [rewrite Hrel; no_reliance|]. split; [done|apply Hf].
      - rewrite Hp2. apply Hp1. cbn. by rewrite lookup_insert_eq. }
  match goal with |- qinv _ ?S => set (s' := S) end.
  assert (p ∈ l) as Hp by (rewrite <- Etl; apply H). pose proof Hnx as (Hx & N & HN & En).
  destruct (linked_next (mq_nodes s) (mq_head s) l p N) as (l1 & l2 & El); try done; [apply H|congruence|]. rewrite En in El.
  apply (qinv_step l l s s' t); try apply H; try done.
  - constructor; try done.
    + intros u Hu. cbn. by rewrite lookup_insert_ne.
    + intros u i a M _ _ HM. exists M. done.
    + intros n Hn. left. by apply (pushing_goto s t q0 q t n).
    + intros i a (q' & Eq' & Hin). cbn in Eq'. rewrite lookup_insert_eq in Eq'. injection Eq' as <-. rewrite Hrel in Hin.
      by apply elem_of_nil in Hin.
    + cbn. rewrite Etl. by apply (QTail l _ _ l1 x l2).
    + intros a Ha. by left.
    + exists []. by rewrite app_nil_r.
  - cbn. rewrite El. apply elem_of_app. right. right. left.
  - intros a M HM Hz. destruct (mi_last _ _ H a M HM Hz) as [?|[u Hu]]; [by left|right].
    destruct (decide (u = t)) as [->|Hut]; [left; by apply (pushing_goto s t q0 q t a)|right; by exists u].
  - intros us vs. unfold holds, owns. rewrite Eq. cbn. rewrite lookup_insert_eq. cbn. by rewrite Eo.
  - intros q'. cbn. rewrite lookup_insert_eq. intros [= <-]. split; [rewrite Hrel; no_reliance|]. split; [done|apply Hf].
  - assert (pending s' t = []) as -> by (apply Hp1; cbn; by rewrite lookup_insert_eq). rewrite <- Hp2. apply (mi_got _ _ H).
  - intros u k Hk. by left.
Qed.

Lemma enq_help_ok l s t n p x :
  qinv l s → mq_pc s !! t = Some (EnqHelp n p x) → qinv l (mq_goto t (EnqLoad n) (casTail p x s)).
Proof using.
  intros H Eq. destruct (mi_pc _ _ H t _ Eq) as (_ & HP & Hnx). apply (cas_tail_ok l s t (EnqHelp n p x)); try done.
  - intros s2 E2. unfold pending. by rewrite E2.
  - at_pc Eq.
Qed.

Lemma enq_cas_tail_ok l s t n p :
  qinv l s → mq_pc s !! t = Some (EnqCasTail n p) → qinv l (mq_goto t (QClear 0 Enqueued) (casTail p n s)).
Proof using.
  intros H Eq. destruct (mi_pc _ _ H t _ Eq) as (_ & HP & Hnx). apply (cas_tail_ok l s t (EnqCasTail n p)); try done.
  - intros s2 E2. unfold pending. by rewrite E2.
  - at_pc Eq.
Qed.

Lemma deq_help_ok l s t p x :
  qinv l s → mq_pc s !! t = Some (DeqHelp p x) → qinv l (mq_goto t (DeqProtect 0) (casTail p x s)).
Proof using.
  intros H Eq. destruct (mi_pc _ _ H t _ Eq) as (_ & HP & Hnx). apply (cas_tail_ok l s t (DeqHelp p x)); try done.
  - intros s2. by left.
  - intros s2 E2. unfold pending. by rewrite E2.
  - at_pc Eq.
Qed.

(** ** Linking a node *)

Section Link.
Context (l : list Z) (s : MichaelScottQueue) (t : nat) (n p : Z) (N : Node).
Context (H : qinv l s) (Eq : mq_pc s !! t = Some (EnqCasNext n p)) (HN : mq_nodes s !! p = Some N) (E : next N = 0).

(** The state after the compare-and-swap. *)
Definition link_node : MichaelScottQueue :=
  mq_event t (Pushed (default 0 (item_at n s)))
    (mq_goto t (EnqCasTail n p) (mq_set_nodes (<[p := with_next n N]> (mq_nodes s)) s)).

Lemma link_pushing : pushing s t n.
Proof using Eq. unfold pushing. by rewrite Eq. Qed.

Lemma link_facts : published s p ∧ p ≠ n ∧ (∃ l1, l = l1 ++ [p]) ∧ ∃ v, mq_nodes s !! n = Some (mkNode (Some v) 0).
Proof using H Eq HN E.
  destruct (mi_pc _ _ H t _ Eq) as (HR & HP & _). destruct (HR kHpTail p ltac:(left)) as [_ Hpub].
  destruct (HP n eq_refl) as ([i x] & HM & Hz & [v Hv]). cbn in Hz, Hv. subst.
  split; [done|]. split; [|split; [by apply (last_node l s p N)|by exists v]].
  pose proof link_pushing as Hpn. intros <-. by destruct Hpub as [_ Hp]; apply (Hp t).
Qed.

Lemma link_pc : mq_pc link_node !! t = Some (EnqCasTail n p).
Proof using. cbn. by rewrite lookup_insert_eq. Qed.

Lemma link_others u : u ≠ t → mq_pc link_node !! u = mq_pc s !! u.
Proof using. intros Hu. cbn. by rewrite lookup_insert_ne. Qed.

Lemma link_item a : mq_nodes link_node !! a ≫= item = mq_nodes s !! a ≫= item.
Proof using HN.
  cbn. destruct (decide (p = a)) as [<-|Hpa]; [rewrite lookup_insert_eq, HN; done|by rewrite lookup_insert_ne].
Qed.

Lemma link_quiet : quiet l (l ++ [n]) s link_node t.
Proof using H Eq HN E.
  destruct link_facts as (Hpub & Hne & [l1 El] & _). constructor; try done.
  - intros u Hu. by apply link_others.
  - intros u a Hu Ha. cbn. apply lookup_insert_ne. intros <-. apply (owned_out l s H u p Ha). rewrite El.
    apply elem_of_app. right. left.
  - intros u i a K Hu _ HK. cbn. destruct (decide (p = a)) as [<-|Hpa].
    + rewrite lookup_insert_eq. exists (with_next n N). split; [done|]. assert (K = N) as -> by congruence. split; [done|by intros []].
    + rewrite lookup_insert_ne by done. by exists K.
  - intros a Ha. unfold pushing in Ha. by rewrite link_pc in Ha.
  - intros i a (q & Eq' & Hq). rewrite link_pc in Eq'. injection Eq' as <-. apply list_elem_of_singleton in Hq as [= -> ->].
    right. rewrite El. apply elem_of_app. right. left.
  - constructor.
  - intros a [?|Ha]%elem_of_app; [by left|right]. apply list_elem_of_singleton in Ha as ->. apply link_pushing.
  - by eexists.
Qed.

Lemma link_linked : linked (mq_nodes link_node) (mq_head link_node) (l ++ [n]).
Proof using H Eq HN E.
  destruct link_facts as (_ & Hne & [l1 El] & v & Hn). pose proof (q_nodup l s H) as Hnd. pose proof (mi_head _ _ H) as Hl.
  rewrite El in Hnd, Hl |- *. apply (linked_snoc (mq_nodes s) (mq_head s) l1 p N n); try done.
  - intros b Hb. cbn. apply lookup_insert_ne. intros <-. apply NoDup_app in Hnd as (_ & Hd & _). apply (Hd p Hb). left.
  - cbn. by rewrite lookup_insert_eq.
  - eexists. cbn. rewrite lookup_insert_ne by done. by split.
Qed.

Lemma link_last a K : mq_nodes link_node !! a = Some K → next K = 0 →
  a ∈ l ++ [n] ∨ pushing link_node t a ∨ ∃ u, u ≠ t ∧ pushing s u a.
Proof using H Eq.
  cbn. destruct (decide (p = a)) as [<-|Hpa].
  - rewrite lookup_insert_eq. intros [= <-]. cbn. intros ->. destruct (mi_pc _ _ H t _ Eq) as (_ & HP & _).
    destruct (HP 0 eq_refl) as (M & HM & _). by apply (mi_nodes _ _ H) in HM.
  - rewrite lookup_insert_ne by done. intros HK Hz2. destruct (mi_last _ _ H a K HK Hz2) as [?|[u Hu]].
    + left. apply elem_of_app. by left.
    + destruct (decide (u = t)) as [->|Hut]; [|right; right; by exists u]. left. apply elem_of_app. right.
      pose proof link_pushing as Hp. unfold pushing in Hu, Hp. rewrite Hp in Hu. injection Hu as <-. left.
Qed.

Lemma link_pc_ok : mpc_ok (l ++ [n]) link_node t (EnqCasTail n p).
Proof using H Eq HN E.
  destruct link_facts as ([Hp1 Hp] & Hne & _ & v & Hn). destruct (mi_pc _ _ H t _ Eq) as (HR & _ & _).
  split; [|split; [done|]].
  - intros i a [= -> ->]%list_elem_of_singleton. split; [by apply HR; left|]. split.
    + cbn. rewrite lookup_insert_eq. by eexists.
    + intros u Hu. destruct (decide (u = t)) as [->|Hut]; [unfold pushing in Hu; by rewrite link_pc in Hu|].
      apply (Hp u). unfold pushing in *. by rewrite link_others in Hu.
  - split; [by apply (mi_nodes _ _ H n _ Hn)|]. exists (with_next n N). split; [|done]. cbn. by rewrite lookup_insert_eq.
Qed.

Lemma link_node_ok : qinv (l ++ [n]) link_node.
Proof using H Eq HN E.
  destruct link_facts as (Hpub & Hne & _ & v & Hn). destruct (q_shape l s H) as [l0 El0].
  assert (tail (l ++ [n]) = tail l ++ [n]) as Etl by (by rewrite El0).
  assert (item_at n s = Some v) as Evn by (unfold item_at; by rewrite Hn).
  apply (qinv_step l (l ++ [n]) s link_node t).
  - done.
  - apply link_quiet.
  - by apply (mi_threads _ _ H t _ Eq).
  - apply link_linked.
  - apply elem_of_app. left. apply H.
  - cbn [link_node mq_log mq_event mq_goto mq_set_nodes]. rewrite (queue_history_snoc _ _ _ _ _ (mi_log _ _ H)), Etl, Evn.
    cbn [queue_event]. unfold items. rewrite fmap_app. cbn [fmap list_fmap]. rewrite link_item, Hn. do 2 f_equal.
    apply list_fmap_ext. intros i a _. by rewrite link_item.
  - intros a Ha. unfold item_at. rewrite link_item. rewrite Etl in Ha. apply elem_of_app in Ha as [Ha|Ha]; [by apply (mi_items _ _ H)|].
    apply list_elem_of_singleton in Ha as ->. rewrite Hn. by exists v.
  - intros a K. cbn. destruct (decide (p = a)) as [<-|Hpa]; [intros _; by apply (mi_nodes _ _ H p N)|].
    rewrite lookup_insert_ne by done. apply H.
  - apply link_last.
  - intros us vs Hp. unfold holds, owns in *. rewrite link_pc. rewrite Eq in Hp. cbn [from_option owned private option_list] in *.
    unfold link_node at 2. cbn [mq_nodes mq_event mq_goto mq_set_nodes]. rewrite (nodes_update _ p) by (by eexists). rewrite <- Hp.
    change (mq_hp link_node) with (mq_hp s). solve_Permutation.
  - rewrite link_pc. intros q [= <-]. apply link_pc_ok.
  - intros u Hu. split; [|done]. cbn. rewrite popped_of_snoc. by rewrite app_nil_r.
  - unfold link_node at 1 2. cbn [mq_log mq_rets mq_event mq_goto mq_set_nodes]. rewrite popped_of_snoc, app_nil_r, (mi_got _ _ H).
    unfold pending. by rewrite link_pc, Eq.
  - intros u k Hk. by left.
Qed.
End Link.

Lemma enq_cas_next_ok l s t n p :
  qinv l s → mq_pc s !! t = Some (EnqCasNext n p) → ∃ s' l', enq_cas_next t n p s = Ok s' ∧ qinv l' s'.
Proof using.
  intros H Eq. destruct (relied_node l s t _ kHpTail p H Eq ltac:(left)) as [N HN].
  destruct (mi_pc _ _ H t _ Eq) as (HR & HP & _). unfold enq_cas_next, with_node. rewrite HN.
  destruct (Z.eqb_spec (next N) 0) as [E|E].
  - eexists _, (l ++ [n]). split; [done|]. by apply (link_node_ok l s t n p N).
  - eexists _, l. split; [done|]. apply (qinv_advance l s t (EnqCasNext n p)); moves Eq.
Qed.

(** ** Taking a node out *)

Lemma head_pair l s p x : qinv l s → mq_head s = p → next_is s p x → ∃ l2, l = p :: x :: l2.
Proof using.
  intros H Eh (Hx & N & HN & En). destruct (q_shape l s H) as [l0 El0]. pose proof (q_nodup l s H) as Hnd.
  pose proof (head_in l s H) as Hin. rewrite Eh in Hin.
  destruct (linked_next (mq_nodes s) (mq_head s) l p N) as (l1 & l2 & El); try done; [apply H|congruence|]. rewrite En in El.
  exists l2. destruct l1 as [|a l1]; [done|]. exfalso. rewrite El in El0. injection El0 as Ea _. rewrite El, Ea, Eh in Hnd.
  apply NoDup_cons in Hnd as [Hn _]. apply Hn, elem_of_app. right. left.
Qed.

Lemma deq_cas_head_ok l s t p x :
  qinv l s → mq_pc s !! t = Some (DeqCasHead p x) → ∃ l', qinv l' (deq_cas_head t p x s).
Proof using.
  intros H Eq. pose proof (mi_threads _ _ H t _ Eq) as Ht. destruct (mi_pc _ _ H t _ Eq) as (HR & HP & Hw & Hnx).
  unfold deq_cas_head. destruct (Z.eqb_spec (mq_head s) p) as [Eh|Hne].
  2:{ exists l. apply (qinv_advance l s t (DeqCasHead p x)); moves Eq. by left. }
  pose proof (head_in l s H) as Hin. rewrite Eh in Hin. destruct (Hw Hin) as [_ Htl]. specialize (Htl eq_refl).
  destruct (head_pair l s p x H Eh Hnx) as [l2 ->]. pose proof Hnx as (Hx & N & HN & En). exists (x :: l2).
  assert (∃ v, item_at x s = Some v) as [v Hv] by (destruct (mi_items _ _ H x ltac:(left)) as [v Hv]; by exists v).
  match goal with |- qinv _ ?S => set (s' := S) end.
  assert (mq_pc s' !! t = Some (DeqItem p x)) as Epc by (unfold s'; cbn; by rewrite lookup_insert_eq).
  assert (∀ u, u ≠ t → mq_pc s' !! u = mq_pc s !! u) as Epu by (intros u Hu; unfold s'; cbn; by rewrite lookup_insert_ne).
  apply (qinv_step (p :: x :: l2) (x :: l2) s s' t); try done.
  - constructor; try done.
    + intros u i a K _ _ HK. by exists K.
    + intros a Ha. unfold pushing in Ha. by rewrite Epc in Ha.
    + intros i a (q & Eq' & Hq). rewrite Epc in Eq'. injection Eq' as <-. left. exists (DeqCasHead p x). split; [done|].
      right. exact Hq.
    + unfold s'. cbn. rewrite Eh. by apply QPop.
    + intros a Ha. left. by right.
    + by eexists.
  - destruct (mi_head _ _ H) as (_ & N' & HN' & Hl). assert (N' = N) as -> by congruence. by rewrite En in Hl.
  - unfold s'. cbn. by destruct (proj1 (elem_of_cons _ _ _) (mi_tail _ _ H)).
  - unfold s'. cbn [mq_log mq_event mq_goto mq_set_head]. rewrite (queue_history_snoc _ _ _ _ _ (mi_log _ _ H)). cbn.
    unfold item_at in Hv |- *. by rewrite Z.eqb_refl.
  - intros a Ha. apply (mi_items _ _ H). by right.
  - apply H.
  - intros a K HK Hz. destruct (mi_last _ _ H a K HK Hz) as [[->|?]%elem_of_cons|[u Hu]]; [|by left|right].
    + exfalso. change (mq_nodes s !! p = Some K) in HK. assert (K = N) as -> by congruence. congruence.
    + destruct (decide (u = t)) as [->|Hut]; [|right; by exists u]. unfold pushing in Hu. by rewrite Eq in Hu.
  - intros us vs Hp. unfold holds, owns in *. rewrite Epc. rewrite Eq in Hp. cbn [from_option owned private option_list] in *.
    change (mq_nodes s') with (mq_nodes s). change (mq_hp s') with (mq_hp s). rewrite <- Hp. solve_Permutation.
  - rewrite Epc. intros q [= <-]. split; [|split; [done|by exists v]].
    intros i a Ha. destruct (HR i a ltac:(right; exact Ha)) as [Hh Hpub]. split; [done|]. destruct Hpub as [P1 P2]. split; [done|].
    intros u Hu. destruct (decide (u = t)) as [->|Hut]; [unfold pushing in Hu; by rewrite Epc in Hu|].
    apply (P2 u). unfold pushing in *. by rewrite Epu in Hu.
  - intros u Hu. split; [|done]. unfold s'. cbn. rewrite popped_of_snoc. by rewrite decide_False, app_nil_r by done.
  - unfold s' at 1 2. cbn [mq_log mq_rets mq_event mq_goto mq_set_head]. rewrite popped_of_snoc, decide_True by done.
    rewrite (mi_got _ _ H). unfold pending. rewrite Epc, Eq. by rewrite app_nil_r.
  - intros u k Hk. by left.
Qed.

(** ** Retiring and deleting *)

(** The position of [t] becomes one that relies on nothing and owns no private node. *)
Lemma relies_left s s' t q u i x :
  mq_pc s' !! t = Some q → relied_on q = [] → (∀ u, u ≠ t → mq_pc s' !! u = mq_pc s !! u) → relies s' u i x → relies s u i x.
Proof using.
  intros Eq Hq Hu (q' & Eq' & Hin). destruct (decide (u = t)) as [->|Hne].
  - assert (q' = q) as -> by congruence. rewrite Hq in Hin. by apply elem_of_nil in Hin.
  - exists q'. by rewrite <- Hu.
Qed.

Lemma pushing_left s s' t q0 q u a :
  mq_pc s !! t = Some q0 → mq_pc s' !! t = Some q → private q0 = None → private q = None →
  (∀ u, u ≠ t → mq_pc s' !! u = mq_pc s !! u) → pushing s' u a ↔ pushing s u a.
Proof using.
  intros E0 Eq P0 P1 Hu. unfold pushing. destruct (decide (u = t)) as [->|Hne]; [|by rewrite Hu].
  rewrite E0, Eq. cbn. by rewrite P0, P1.
Qed.

(** A scan starts. *)
Lemma scan_restart l s s' t j v :
  qinv l s → (∀ u i x, relies s' u i x → relies s u i x) → (∀ u i, hp_load u i (mq_hp s') = hp_load u i (mq_hp s)) →
  mpc_ok l s' t (DeqScan (scan_start maxHPs j) v).
Proof using.
  intros H Hr Hh. split; [no_reliance|]. split; [done|]. split; [|apply scan_start_wf].
  apply (scan_start_ok maxHPs maxThreads). destruct (q_relied l s H) as [R1 R2]. constructor; intros u i x Hx%Hr.
  - by apply (R1 u i x).
  - rewrite Hh. by apply R2.
Qed.

Lemma deq_retire_ok l s t p v :
  qinv l s → mq_pc s !! t = Some (DeqRetire p v) → qinv l (deq_retire t p v s).
Proof using.
  intros H Eq. pose proof (mi_threads _ _ H t _ Eq) as Ht. unfold deq_retire.
  match goal with |- qinv _ ?S => set (s' := S) end.
  assert (mq_pc s' !! t = Some (DeqScan (scan_start maxHPs 0) v)) as Epc by (unfold s'; cbn; by rewrite lookup_insert_eq).
  assert (∀ u, u ≠ t → mq_pc s' !! u = mq_pc s !! u) as Epu by (intros u Hu; unfold s'; cbn; by rewrite lookup_insert_ne).
  assert (∀ u i x, relies s' u i x → relies s u i x) as Hr by (intros u i x; by apply (relies_left s s' t _ u i x Epc)).
  assert (∀ u a, pushing s' u a ↔ pushing s u a) as Hpu by (intros u a; by apply (pushing_left s s' t _ _ u a Eq Epc)).
  apply (qinv_step l l s s' t); try apply H; try done.
  - constructor; try done.
    + intros u Hu. cbn. by apply retired_ne.
    + intros u i a K _ _ HK. by exists K.
    + intros a Ha. left. by apply Hpu.
    + intros i x Hx. left. by apply Hr.
    + constructor.
    + intros a Ha. by left.
    + exists []. by rewrite app_nil_r.
  - intros a K HK Hz. destruct (mi_last _ _ H a K HK Hz) as [?|[u Hu]]; [by left|right].
    destruct (decide (u = t)) as [->|Hut]; [left; by apply Hpu|right; by exists u].
  - intros us vs Hp. unfold holds, owns in *. rewrite Epc. rewrite Eq in Hp. unfold s', retire_push. cbn in *.
    rewrite retired_eq. rewrite <- Hp. solve_Permutation.
  - rewrite Epc. intros q [= <-]. by apply (scan_restart l s).
  - unfold s' at 1 2. cbn [mq_log mq_rets mq_goto mq_set_hp]. rewrite (mi_got _ _ H). unfold pending. by rewrite Epc, Eq.
  - intros u k Hk. by left.
Qed.

(** A retired node on which nobody relies is deleted. *)
Lemma deq_scan_delete l s t c v obj :
  qinv l s → mq_pc s !! t = Some (DeqScan c v) → retired t (mq_hp s) !! iret c = Some obj →
  (∀ u i, ¬ relies s u i obj) →
  is_Some (mq_nodes s !! obj) ∧
  qinv l (mq_goto t (DeqScan (scan_start maxHPs (iret c)) v) (mq_set_nodes (delete obj (mq_nodes s))
    (mq_set_hp (set_retired t (delete (iret c) (retired t (mq_hp s))) (mq_hp s)) s))).
Proof using.
  intros H Eq Hobj Hno. pose proof (mi_threads _ _ H t _ Eq) as Ht. pose proof (delete_Permutation _ _ _ Hobj) as Hperm.
  pose proof (mi_all _ _ H) as Hall.
  assert (obj ∈ holds s t) as Hh by (unfold holds; rewrite elem_of_app; right; by eapply list_elem_of_lookup_2).
  pose proof (held_node maxThreads l (holds s) (mq_nodes s) Hall t obj Ht Hh) as [N HN].
  pose proof (held_not_in maxThreads l (holds s) (mq_nodes s) Hall t obj Ht Hh) as Hol. split; [by eexists|].
  match goal with |- qinv _ ?S => set (s' := S) end.
  assert (mq_pc s' !! t = Some (DeqScan (scan_start maxHPs (iret c)) v)) as Epc by (unfold s'; cbn; by rewrite lookup_insert_eq).
  assert (∀ u, u ≠ t → mq_pc s' !! u = mq_pc s !! u) as Epu by (intros u Hu; unfold s'; cbn; by rewrite lookup_insert_ne).
  assert (∀ u i x, relies s' u i x → relies s u i x) as Hr by (intros u i x; by apply (relies_left s s' t _ u i x Epc)).
  assert (∀ u a, pushing s' u a ↔ pushing s u a) as Hpu by (intros u a; by apply (pushing_left s s' t _ _ u a Eq Epc)).
  assert (∀ a, a ∈ l → delete obj (mq_nodes s) !! a = mq_nodes s !! a) as Hl.
  { intros a Ha. apply lookup_delete_ne. by intros <-. }
  assert (∀ a, a ∈ tail l → a ∈ l) as Htl by (intros a Ha; destruct l; [done|by right]).
  apply (qinv_step l l s s' t); try done.
  - constructor; try done.
    + intros u Hu. cbn. by apply retired_ne.
    + intros u a Hu Ha. cbn. apply lookup_delete_ne. intros <-. destruct (owner_thread l s H u obj Ha) as [Hu2 Hh2].
      by apply (held_once maxThreads l (holds s) (mq_nodes s) Hall t u obj).
    + intros u i a K Hu Ha HK. exists K. split; [|done]. cbn. rewrite lookup_delete_ne; [done|]. intros <-. by apply (Hno u i).
    + intros a Ha. left. by apply Hpu.
    + intros i x Hx. left. by apply Hr.
    + constructor.
    + intros a Ha. by left.
    + exists []. by rewrite app_nil_r.
  - apply (mq_linked_ext (mq_nodes s)); [done|apply H].
  - apply H.
  - cbn. rewrite (mq_items_ext (mq_nodes s)); [apply H|]. intros a Ha. by rewrite Hl by (by apply Htl).
  - intros a Ha. unfold item_at. cbn. rewrite Hl by (by apply Htl). by apply (mi_items _ _ H).
  - intros a M. cbn. intros [_ HM]%lookup_delete_Some. by apply (mi_nodes _ _ H a M).
  - intros a K. cbn. intros [_ HK]%lookup_delete_Some Hz. destruct (mi_last _ _ H a K HK Hz) as [?|[u Hu]]; [by left|right].
    destruct (decide (u = t)) as [->|Hut]; [left; by apply Hpu|right; by exists u].
  - intros us vs Hp. unfold holds, owns in *. rewrite Epc. rewrite Eq in Hp. unfold s'. cbn in *.
    rewrite retired_eq. apply (Permutation_cons_inv (a := obj)).
    transitivity (map_to_list (mq_nodes s)).*1.
    + rewrite <- Hp. revert Hperm. generalize (delete (iret c) (retired t (mq_hp s))) as D. intros D ->. solve_Permutation.
    + apply nodes_delete. by eexists.
  - rewrite Epc. intros q [= <-]. by apply (scan_restart l s).
  - unfold s' at 1 2. cbn [mq_log mq_rets mq_goto mq_set_hp mq_set_nodes]. rewrite (mi_got _ _ H). unfold pending. by rewrite Epc, Eq.
  - intros u k Hk. by left.
Qed.

Lemma deq_scan_ok l s t c v :
  qinv l s → mq_pc s !! t = Some (DeqScan c v) → ∃ s', deq_scan maxThreads t c v s = Ok s' ∧ qinv l s'.
Proof using Hrows.
  intros H Eq. destruct (mi_pc _ _ H t _ Eq) as (_ & _ & Hc & Hw). unfold deq_scan.
  pose proof (retire_step_ok maxHPs maxThreads (relies s) t c (mq_hp s) Hrows ltac:(unfold maxHPs, HP_MAX_HPS; lia)
    (mi_threads _ _ H t _ Eq) ltac:(unfold scan_wf in Hw; lia) (q_relied l s H) Hc) as Hok.
  pose proof (retire_step_rank maxHPs maxThreads t c (mq_hp s) Hw) as Hrk.
  destruct (retire_step maxHPs maxThreads t c (mq_hp s)) as [| |c'|obj c' h']; [done|..].
  - eexists. split; [done|]. apply (qinv_ret l s t (DeqScan c v) (Some (inl v)) H Eq); [done|]. at_pc Eq.
  - eexists. split; [done|]. apply (mq_qinv_goto l s t (DeqScan c v)); moves Eq. split; [no_reliance|]. split; [done|].
    split; [|apply Hrk]. intros u i x Hx. apply Hok. apply (relies_left s (mq_goto t (DeqScan c' v) s) t (DeqScan c' v)); try done.
    + cbn. by rewrite lookup_insert_eq.
    + intros u' Hu. cbn. by rewrite lookup_insert_ne.
  - destruct Hok as (Ho & -> & -> & Hno). destruct (deq_scan_delete l s t c v obj H Eq Ho Hno) as [[N HN] Hi].
    unfold with_node. rewrite HN. eexists. split; [done|exact Hi].
Qed.

(** ** Calls *)

Lemma call_enqueue_ok l s t v p :
  qinv l s → mq_pc s !! t = None → (t < maxThreads)%nat → p ≠ 0 → mq_nodes s !! p = None →
  qinv l (mq_goto t (EnqLoad p) (mq_set_nodes (<[p := mkNode (Some v) 0]> (mq_nodes s)) s)).
Proof using.
  intros H Eq Ht Hp HN. match goal with |- qinv _ ?S => set (s' := S) end.
  assert (mq_pc s' !! t = Some (EnqLoad p)) as Epc by (unfold s'; cbn; by rewrite lookup_insert_eq).
  assert (∀ u, u ≠ t → mq_pc s' !! u = mq_pc s !! u) as Epu by (intros u Hu; unfold s'; cbn; by rewrite lookup_insert_ne).
  assert (∀ a, is_Some (mq_nodes s !! a) → <[p := mkNode (Some v) 0]> (mq_nodes s) !! a = mq_nodes s !! a) as Hl.
  { intros a [M HM]. apply lookup_insert_ne. congruence. }
  assert (∀ a, a ∈ l → is_Some (mq_nodes s !! a)) as Hin.
  { intros a Ha. destruct (in_node l s H a Ha) as (N & HN2 & _). by eexists. }
  assert (∀ a, a ∈ tail l → a ∈ l) as Htl by (intros a Ha; destruct l; [done|by right]).
  apply (qinv_step l l s s' t); try done.
  - constructor; try done.
    + intros u a Hu Ha. cbn. apply Hl. by apply (owned_node l s H u).
    + intros u i a K Hu Ha HK. exists K. split; [|done]. cbn. rewrite Hl; [done|by eexists].
    + intros n. unfold pushing. rewrite Epc. cbn. intros [= <-]. by right.
    + intros i x (q & Eq' & Hq). rewrite Epc in Eq'. injection Eq' as <-. by apply elem_of_nil in Hq.
    + constructor.
    + intros a Ha. by left.
    + exists []. by rewrite app_nil_r.
  - apply (mq_linked_ext (mq_nodes s)); [intros a Ha; by apply Hl, Hin|apply H].
  - apply H.
  - cbn. rewrite (mq_items_ext (mq_nodes s)); [apply H|]. intros a Ha. by rewrite Hl by (by apply Hin, Htl).
  - intros a Ha. unfold item_at. cbn. rewrite Hl by (by apply Hin, Htl). by apply (mi_items _ _ H).
  - intros a M. cbn. destruct (decide (p = a)) as [<-|Hne]; [done|]. rewrite lookup_insert_ne by done. apply H.
  - intros a K. cbn. destruct (decide (p = a)) as [<-|Hne].
    + intros _ _. right. left. unfold pushing. by rewrite Epc.
    + rewrite lookup_insert_ne by done. intros HK Hz. destruct (mi_last _ _ H a K HK Hz) as [?|[u Hu]]; [by left|].
      right. right. exists u. split; [|done]. intros ->. unfold pushing in Hu. by rewrite Eq in Hu.
  - intros us vs Hperm. unfold holds, owns in *. rewrite Epc. rewrite Eq in Hperm. cbn in *.
    rewrite nodes_new, <- Hperm by done. solve_Permutation.
  - rewrite Epc. intros q [= <-]. split; [no_reliance|]. split; [|done]. intros n [= <-]. eexists. cbn.
    rewrite lookup_insert_eq. split; [done|]. split; [done|]. by eexists.
  - cbn [mq_log mq_rets mq_goto mq_set_nodes]. unfold s' at 1 2. cbn [mq_log mq_rets mq_goto mq_set_nodes].
    rewrite (mi_got _ _ H). unfold pending. by rewrite Epc, Eq.
  - intros u k Hk. by left.
Qed.

Lemma call_dequeue_ok l s t : qinv l s → mq_pc s !! t = None → (t < maxThreads)%nat → qinv l (mq_goto t (DeqProtect 0) s).
Proof using.
  intros H Eq Ht. apply (qinv_local l s _ t); try done.
  - intros u Hu. cbn. by rewrite lookup_insert_ne.
  - unfold owns. cbn. by rewrite lookup_insert_eq, Eq.
  - intros n. unfold pushing. cbn. by rewrite lookup_insert_eq, Eq.
  - intros i x (q & Eq' & Hq). cbn in Eq'. rewrite lookup_insert_eq in Eq'. injection Eq' as <-. by apply elem_of_nil in Hq.
  - intros q. cbn. rewrite lookup_insert_eq. intros [= <-]. split; [no_reliance|]. split; [done|by left].
  - unfold pending. cbn. by rewrite lookup_insert_eq, Eq.
  - intros u k Hk. by left.
Qed.

Lemma MichaelScottQueue_ctor_inv a : a ≠ 0 → qinv [a] (MichaelScottQueue_ctor a).
Proof using.
  intros Ha. constructor; try done.
  - cbn. split; [done|]. exists (mkNode None 0). by rewrite lookup_singleton_eq.
  - left.
  - intros b Hb. by apply elem_of_nil in Hb.
  - intros b N. cbn. rewrite lookup_singleton_Some. by intros [<- _].
  - intros b N. cbn. rewrite lookup_singleton_Some. intros [<- _] _. left. left.
  - unfold all_held. cbn [mq_nodes MichaelScottQueue_ctor]. rewrite map_to_list_singleton. cbn.
    assert (seq 0 maxThreads ≫= holds (MichaelScottQueue_ctor a) = []) as ->; [|done].
    induction (seq 0 maxThreads) as [|t ts IH]; [done|]. by rewrite bind_cons.
  - intros t k Hk. by apply elem_of_nil in Hk.
Qed.

(** Every step succeeds and keeps the invariant. *)
Lemma mstep_ok l s t a r : qinv l s → mstep maxThreads t a s = Some r → ∃ s' l', r = Ok s' ∧ qinv l' s'.
Proof using Hrows.
  intros H. unfold mstep. destruct (mq_pc s !! t) as [q|] eqn:Eq.
  - destruct a; [done..|]. intros [= <-]. destruct q.
    + eexists _, l. split; [done|]. by apply enq_load_ok.
    + rewrite (mq_rows s l t _ _ _ H Eq) by (unfold kHpTail, HP_MAX_HPS; lia). eexists _, l. split; [done|]. by apply enq_protect_ok.
    + eexists _, l. split; [done|]. by apply enq_check_ok.
    + destruct (enq_next_ok l s t newNode ltail H Eq) as (s' & -> & Hs). eauto.
    + eexists _, l. split; [done|]. by apply enq_help_ok.
    + by apply (enq_cas_next_ok l).
    + eexists _, l. split; [done|]. by apply enq_cas_tail_ok.
    + eexists _, l. split; [done|]. by apply deq_protect_ok.
    + rewrite (mq_rows s l t _ _ _ H Eq) by (unfold kHpHead, HP_MAX_HPS; lia). eexists _, l. split; [done|]. by apply deq_store_ok.
    + eexists _, l. split; [done|]. by apply deq_check_head_ok.
    + eexists _, l. split; [done|]. by apply deq_tail_ok.
    + destruct (deq_protect_next_ok l s t lhead ltail n H Eq) as (s' & -> & Hs). eauto.
    + rewrite (mq_rows s l t _ _ _ H Eq) by (unfold kHpNext, HP_MAX_HPS; lia). eexists _, l. split; [done|]. by apply deq_store_next_ok.
    + eexists _, l. split; [done|]. by apply deq_check_next_ok.
    + eexists _, l. split; [done|]. by apply deq_help_ok.
    + destruct (deq_cas_head_ok l s t lhead lnext H Eq) as (l' & Hs). eauto.
    + destruct (deq_item_ok l s t lhead lnext H Eq) as (s' & -> & Hs). eauto.
    + destruct (q_clear_ok l s t ihp r H Eq) as (s' & -> & Hs). eauto.
    + rewrite (mq_rows s l t _ _ _ H Eq) by (unfold HP_MAX_HPS; lia). eexists _, l. split; [done|]. by apply deq_retire_ok.
    + destruct (deq_scan_ok l s t c v H Eq) as (s' & -> & Hs). eauto.
  - destruct a as [v p| |]; [| |done].
    + case_decide as Hd; [|done]. destruct Hd as (Ht & Hp & HN). intros [= <-]. eexists _, l. split; [done|].
      by apply call_enqueue_ok.
    + case_decide as Hd; [|done]. intros [= <-]. eexists _, l. split; [done|]. by apply call_dequeue_ok.
Qed.

Lemma mruns_ok tr l s r : qinv l s → mruns maxThreads tr s = Some r → ∃ s' l', r = Ok s' ∧ qinv l' s'.
Proof using Hrows.
  revert l s. induction tr as [|[t a] tr IH]; intros l s H; cbn; [intros [= <-]; eauto|].
  destruct (mstep maxThreads t a s) as [r'|] eqn:E; [|done].
  destruct (mstep_ok l s t a r' H E) as (s' & l' & -> & H'). by apply (IH l').
Qed.
End Invariant.
