(* ===== verification/OldMSQueueAlone.v ===== *)
(** * The queue with hazard pointers: progress and destruction

    A thread alone finishes its operation; the destructor deletes every node. *)

From Stdlib Require Import ZArith Lia.
From stdpp Require Import base gmap numbers list.
From S2P Require Import Prelude OldHazard OldArrayQueue OldMSQueue OldMSQueueSpec.

Local Open Scope Z_scope.
#[local] Set Warnings "-clear-no-such-hyp".

(** The number of nodes behind the one at [p]. *)
Fixpoint walk (fuel : nat) (m : gmap Z Node) (p : Z) : nat :=
  match fuel with
  | O => 0
  | S fuel => match m !! p with Some N => if next N =? 0 then 0 else S (walk fuel m (next N)) | None => 0 end
  end.

Lemma walk_S k m p :
  walk (S k) m p = match m !! p with Some N => if next N =? 0 then 0%nat else S (walk k m (next N)) | None => 0%nat end.
Proof. done. Qed.

Lemma walk_linked m p a l k :
  linked m p (a :: l) → (∀ b, b ∈ l → b ≠ 0) → (length l ≤ k)%nat → walk (S k) m a = length l.
Proof.
  revert m p a l. induction k as [|k IH]; intros m p a l (-> & N & HN & Hl) Hnz Hk; rewrite walk_S, HN.
  - destruct l; [|cbn in Hk; lia]. cbn in Hl. by rewrite Hl.
  - destruct l as [|b l]; [cbn in Hl; by rewrite Hl|]. pose proof Hl as [E _]. rewrite E.
    rewrite (proj2 (Z.eqb_neq _ _)) by (apply Hnz; left). cbn [length]. f_equal.
    apply (IH m (next N)); [done|intros c Hc; apply Hnz; by right|cbn in Hk; lia].
Qed.

Section Alone.
Context (maxThreads : nat).
Implicit Types (s : MichaelScottQueue).

Lemma linked_suffix m p l1 l2 : linked m p (l1 ++ l2) → ∃ q, linked m q l2.
Proof using.
  revert p. induction l1 as [|a l1 IH]; intros p; cbn; [by exists p|]. intros (_ & N & _ & Hl). by apply (IH (next N)).
Qed.

(** How far the tail is behind. *)
Definition behind s : nat := walk (size (mq_nodes s)) (mq_nodes s) (mq_tail s).

Lemma q_size l s : qinv maxThreads l s → (length l ≤ size (mq_nodes s))%nat.
Proof using.
  intros H. pose proof (Permutation_length (mi_all _ _ _ H)) as E. rewrite length_fmap, length_map_to_list, length_app in E. lia.
Qed.

Lemma behind_suffix l s l1 l2 :
  qinv maxThreads l s → l = l1 ++ mq_tail s :: l2 → behind s = length l2.
Proof using.
  intros H El. pose proof (q_size l s H) as Hs. pose proof (mi_head _ _ _ H) as Hl. rewrite El in Hl.
  apply linked_suffix in Hl as [q Hl]. unfold behind. rewrite El, length_app in Hs. cbn in Hs.
  destruct (size (mq_nodes s)) as [|k]; [lia|]. apply (walk_linked (mq_nodes s) q); [done| |lia].
  intros b Hb. destruct (in_node maxThreads l s H b) as (_ & _ & ?); [|done]. rewrite El. apply elem_of_app. right. by right.
Qed.

(** The tail catches up. *)
Lemma behind_tail l s x :
  qinv maxThreads l s → next_is s (mq_tail s) x → S (behind (mq_set_tail x s)) = behind s.
Proof using.
  intros H (Hx & N & HN & En). destruct (linked_next (mq_nodes s) (mq_head s) l (mq_tail s) N) as (l1 & l2 & El);
    [apply H|apply H|done|congruence|]. rewrite En in El. rewrite (behind_suffix l s l1 (x :: l2) H El). cbn [length]. f_equal.
  pose proof (q_size l s H) as Hs. pose proof (mi_head _ _ _ H) as Hl. rewrite El in Hl.
  change (l1 ++ mq_tail s :: x :: l2) with (l1 ++ [mq_tail s] ++ x :: l2) in Hl. rewrite app_assoc in Hl.
  apply linked_suffix in Hl as [q Hl]. unfold behind. cbn [mq_set_tail mq_nodes mq_tail]. rewrite El, length_app in Hs. cbn in Hs.
  destruct (size (mq_nodes s)) as [|k]; [lia|]. apply (walk_linked (mq_nodes s) q); [done| |lia].
  intros b Hb. destruct (in_node maxThreads l s H b) as (_ & _ & ?); [|done]. rewrite El. apply elem_of_app. right. right. by right.
Qed.

(** ** Progress

    The number of steps a thread has left when the others do nothing: one more attempt
    for every node that the tail is behind and for what it has loaded and is no longer
    there, and the scan of its retired nodes. *)
Definition scan_steps s (t : nat) : nat := (length (retired t (mq_hp s)) + 1) * scan_cost maxHPs maxThreads + 2.
Definition loop_steps s (t : nat) : nat := scan_steps s t + 40 * behind s.
Definition is_next s (p x : Z) : bool := match mq_nodes s !! p with Some N => next N =? x | None => false end.

Definition pos_rank s (t : nat) (q : mpc) : nat :=
  match q with
  | QClear i _ => scan_steps s t + 1 + (2 - i)
  | EnqCasTail _ _ | DeqItem _ _ => scan_steps s t + 4
  | EnqCasNext _ p => loop_steps s t + if is_next s p 0 then 5 else 11
  | EnqHelp _ p _ => loop_steps s t + if mq_tail s =? p then 0 else 11
  | EnqNext _ p => loop_steps s t + if mq_tail s =? p then 6 else 12
  | EnqCheck _ p => loop_steps s t + if mq_tail s =? p then 7 else 11
  | EnqProtect _ p => loop_steps s t + if mq_tail s =? p then 8 else 12
  | EnqLoad _ => loop_steps s t + 9
  | DeqCasHead p _ => loop_steps s t + if mq_head s =? p then 5 else 16
  | DeqHelp p _ => loop_steps s t + if mq_tail s =? p then 0 else 16
  | DeqCheckNext p tl _ _ => loop_steps s t + 6 + if (mq_head s =? p) && (mq_tail s =? tl) then 0 else 15
  | DeqProtectNext p tl n =>
      loop_steps s t + (if (mq_head s =? p) && (mq_tail s =? tl) then 0 else 15) + if is_next s p n then 7 else 9
  | DeqStoreNext p tl n =>
      loop_steps s t + (if (mq_head s =? p) && (mq_tail s =? tl) then 0 else 15) + if is_next s p n then 8 else 10
  | DeqTail p => loop_steps s t + 11 + if mq_head s =? p then 0 else 15
  | DeqCheckHead p => loop_steps s t + if mq_head s =? p then 12 else 16
  | DeqProtect n => loop_steps s t + if mq_head s =? n then 13 else 15
  | DeqStore r => loop_steps s t + if mq_head s =? r then 14 else 16
  | DeqRetire _ _ => scan_steps s t
  | DeqScan c _ => scan_rank maxHPs maxThreads c (retired t (mq_hp s)) + 1
  end.

Definition mrank s (t : nat) : nat := from_option (pos_rank s t) 0%nat (mq_pc s !! t).

Lemma mrank_goto s t q : mrank (mq_goto t q s) t = pos_rank s t q.
Proof using. unfold mrank. cbn. rewrite lookup_insert_eq. by destruct q. Qed.

Lemma cas_tail_rank l s t p x b :
  qinv maxThreads l s → next_is s p x → (b < 40)%nat →
  (loop_steps (casTail p x s) t + b < loop_steps s t + if (mq_tail s =? p)%Z then 0 else S b)%nat.
Proof using.
  intros H Hnx Hb. unfold casTail. destruct (Z.eqb_spec (mq_tail s) p) as [E|E]; [|lia]. rewrite <- E in Hnx.
  pose proof (behind_tail l s x H Hnx). unfold loop_steps. change (scan_steps (mq_set_tail x s) t) with (scan_steps s t). lia.
Qed.

Lemma deq_scan_rank l s t c v s' :
  qinv maxThreads l s → mq_pc s !! t = Some (DeqScan c v) → deq_scan maxThreads t c v s = Ok s' → (mrank s' t < mrank s t)%nat.
Proof using.
  intros H Eq. destruct (mi_pc _ _ _ H t _ Eq) as (_ & _ & _ & Hw). unfold deq_scan. unfold mrank at 2. rewrite Eq. cbn [from_option pos_rank].
  pose proof (retire_step_rank maxHPs maxThreads t c (mq_hp s) Hw) as Hrk.
  destruct (retire_step maxHPs maxThreads t c (mq_hp s)) as [| |c'|obj c' h']; [done|..].
  - intros [= <-]. unfold mrank. cbn. rewrite lookup_delete_eq. cbn. lia.
  - intros [= <-]. rewrite mrank_goto. cbn [pos_rank]. lia.
  - unfold with_node. destruct (mq_nodes s !! obj); [|done]. intros [= <-]. rewrite mrank_goto.
    cbn [pos_rank mq_hp mq_set_nodes mq_set_hp]. lia.
Qed.

Definition enqueuing (q : mpc) : bool :=
  match q with
  | EnqLoad _ | EnqProtect _ _ | EnqCheck _ _ | EnqNext _ _ | EnqHelp _ _ _ | EnqCasNext _ _ | EnqCasTail _ _ => true
  | _ => false
  end.

Lemma enqueue_decreases l s t s' q :
  qinv maxThreads l s → mq_pc s !! t = Some q → enqueuing q = true → mstep maxThreads t MGo s = Some (Ok s') → (mrank s' t < mrank s t)%nat.
Proof using.
  intros H Eq Hq. destruct (mi_pc _ _ _ H t q Eq) as (_ & _ & Hf). unfold mstep. rewrite Eq. intros [= E].
  assert (∀ i x, loop_steps (mq_set_hp (protectPtr i x t (mq_hp s)) s) t = loop_steps s t) as Hp by done.
  destruct q; try done; try (by apply (deq_scan_rank l s t c v)); unfold mrank at 2; rewrite Eq; cbn [from_option pos_rank]; revert E.
  - intros [= <-]. rewrite mrank_goto. cbn [pos_rank]. rewrite Z.eqb_refl. lia.
  - unfold with_row. destruct (in_rows _ _); [|done]. intros [= <-]. unfold enq_protect. rewrite mrank_goto. cbn [pos_rank mq_tail mq_set_hp]. rewrite Hp. repeat case_match; lia.
  - intros [= <-]. unfold enq_check. rewrite mrank_goto. rewrite (Z.eqb_sym ltail). destruct (mq_tail s =? ltail) eqn:E0;
      cbn [pos_rank]; rewrite ?E0; lia.
  - unfold enq_next, with_node. destruct (mq_nodes s !! ltail) as [N|] eqn:EN; [|done]. intros [= <-]. rewrite mrank_goto.
    destruct (Z.eqb_spec (next N) 0) as [E0|E0]; cbn [pos_rank]; [unfold is_next; rewrite EN, E0|]; destruct (mq_tail s =? ltail); cbn; lia.
  - intros [= <-]. rewrite mrank_goto. cbn [pos_rank]. pose proof (cas_tail_rank l s t ltail lnext 9 H Hf ltac:(lia)).
    repeat case_match; lia.
  - unfold enq_cas_next, with_node, is_next. destruct (mq_nodes s !! ltail) as [N|]; [|done].
    destruct (Z.eqb_spec (next N) 0) as [E0|E0]; intros [= <-].
    + change (mrank (mq_event _ _ ?S) t) with (mrank S t). rewrite mrank_goto. cbn [pos_rank].
      change (scan_steps (mq_set_nodes _ s) t) with (scan_steps s t). unfold loop_steps. lia.
    + rewrite mrank_goto. cbn [pos_rank]. lia.
  - intros [= <-]. rewrite mrank_goto. cbn [pos_rank].
    assert (scan_steps (casTail ltail newNode s) t = scan_steps s t) as -> by (unfold casTail; by destruct (_ =? _)). lia.
Qed.

Lemma dequeue_decreases l s t s' q :
  qinv maxThreads l s → mq_pc s !! t = Some q → enqueuing q = false → mstep maxThreads t MGo s = Some (Ok s') → (mrank s' t < mrank s t)%nat.
Proof using.
  intros H Eq Hq. destruct (mi_pc _ _ _ H t q Eq) as (_ & _ & Hf). unfold mstep. rewrite Eq. intros [= E].
  assert (∀ i x, loop_steps (mq_set_hp (protectPtr i x t (mq_hp s)) s) t = loop_steps s t) as Hp by done.
  destruct q; try done; try (by apply (deq_scan_rank l s t c v)); unfold mrank at 2; rewrite Eq; cbn [from_option pos_rank]; revert E.
  - intros [= <-]. unfold deq_protect. cbn zeta. rewrite mrank_goto. destruct (mq_head s =? n) eqn:E0; cbn [pos_rank];
      rewrite Z.eqb_refl; lia.
  - unfold with_row. destruct (in_rows _ _); [|done]. intros [= <-]. unfold deq_store. rewrite mrank_goto. cbn [pos_rank mq_head mq_set_hp]. rewrite Hp. repeat case_match; lia.
  - intros [= <-]. unfold deq_check_head. rewrite mrank_goto. rewrite (Z.eqb_sym lhead). destruct (mq_head s =? lhead) eqn:E0;
      cbn [pos_rank]; rewrite ?E0; [lia|]. repeat case_match; lia.
  - intros [= <-]. rewrite mrank_goto. cbn [pos_rank]. rewrite Z.eqb_refl, andb_true_r. repeat case_match; lia.
  - unfold deq_protect_next, with_node, is_next. destruct (mq_nodes s !! lhead) as [N|] eqn:EN; [|done]. cbn zeta. intros [= <-].
    rewrite mrank_goto. destruct (next N =? n) eqn:E0; cbn [pos_rank]; unfold is_next; rewrite ?EN, ?Z.eqb_refl; repeat case_match; lia.
  - unfold with_row. destruct (in_rows _ _); [|done]. intros [= <-]. unfold deq_store_next. rewrite mrank_goto. cbn [pos_rank mq_head mq_tail mq_set_hp].
    change (is_next (mq_set_hp _ s) lhead ret) with (is_next s lhead ret). rewrite Hp. repeat case_match; lia.
  - intros [= <-]. unfold deq_check_next. rewrite mrank_goto. rewrite (Z.eqb_sym lhead (mq_head s)).
    destruct (mq_head s =? lhead) eqn:E0; [|cbn [pos_rank andb]; repeat case_match; lia].
    destruct (lnext =? 0); [cbn [pos_rank]; unfold loop_steps; repeat case_match; lia|].
    destruct (lhead =? ltail); cbn [pos_rank]; rewrite ?E0; cbn [andb]; destruct (mq_tail s =? ltail); lia.
  - intros [= <-]. rewrite mrank_goto. cbn [pos_rank]. pose proof (cas_tail_rank l s t ltail lnext 15 H Hf ltac:(lia)).
    repeat case_match; lia.
  - intros [= <-]. unfold deq_cas_head. destruct (_ =? _).
    + change (mrank (mq_event _ _ ?S) t) with (mrank S t). rewrite mrank_goto. cbn [pos_rank].
      change (scan_steps (mq_set_head _ s) t) with (scan_steps s t). unfold loop_steps. lia.
    + rewrite mrank_goto. cbn [pos_rank]. repeat case_match; lia.
  - unfold deq_item, with_node. destruct (mq_nodes s !! lnext) as [N|]; [|done]. destruct (item N); [|done].
    intros [= <-]. rewrite mrank_goto. cbn [pos_rank]. lia.
  - unfold q_clear, with_row. destruct (Nat.ltb_spec ihp maxHPs) as [Hi|Hi].
    + destruct (in_rows _ _); [|done]. intros [= <-]. rewrite mrank_goto. cbn [pos_rank]. change (scan_steps (mq_set_hp _ s) t) with (scan_steps s t).
      unfold maxHPs in Hi. lia.
    + destruct r as [|k|p v]; intros [= <-]; try (unfold mrank; cbn; rewrite lookup_delete_eq; cbn; lia).
      rewrite mrank_goto. cbn [pos_rank]. lia.
  - unfold deq_retire, with_row. destruct (in_rows _ _); [|done]. intros [= <-]. rewrite mrank_goto. cbn [pos_rank mq_hp mq_set_hp]. unfold retire_push. rewrite retired_eq.
    unfold scan_rank, scan_steps. cbn [iret owner left scan_start]. rewrite length_app. cbn [length]. lia.
Qed.

Lemma mrank_decreases l s t s' q :
  qinv maxThreads l s → mq_pc s !! t = Some q → mstep maxThreads t MGo s = Some (Ok s') → (mrank s' t < mrank s t)%nat.
Proof using.
  intros H Eq. destruct (enqueuing q) eqn:E; [by apply (enqueue_decreases l s t s' q)|by apply (dequeue_decreases l s t s' q)].
Qed.

(** A thread alone finishes. *)
Context (Hrows : rows_for maxThreads).

Lemma queue_alone l s t :
  qinv maxThreads l s → ∃ n s' l', (n ≤ mrank s t)%nat ∧ mruns maxThreads (replicate n (t, MGo)) s = Some (Ok s') ∧
    mq_pc s' !! t = None ∧ qinv maxThreads l' s'.
Proof using Hrows.
  intros H. remember (mrank s t) as k eqn:Ek. revert l s H Ek. induction k as [k IH] using lt_wf_ind. intros l s H ->.
  destruct (mq_pc s !! t) as [q|] eqn:Eq; [|exists 0%nat, s, l; cbn; split_and!; done || lia].
  destruct (mstep maxThreads t MGo s) as [r|] eqn:E; [|unfold mstep in E; by rewrite Eq in E].
  destruct (mstep_ok maxThreads Hrows l s t MGo r H E) as (s1 & l1 & -> & H1). pose proof (mrank_decreases l s t s1 q H Eq E) as Hlt.
  destruct (IH _ Hlt l1 s1 H1 eq_refl) as (n & s2 & l2 & Hn & Er & Ep & H2). exists (S n), s2, l2. cbn. rewrite E.
  split_and!; try done. lia.
Qed.

Lemma walk_bound fuel m p : (walk fuel m p ≤ fuel)%nat.
Proof using.
  revert p. induction fuel as [|fuel IH]; intros p; cbn; [done|]. destruct (m !! p) as [N|]; [|lia].
  destruct (_ =? _); [lia|]. specialize (IH (next N)). lia.
Qed.

Lemma mrank_bound s t : (mrank s t ≤ scan_steps s t + 40 * size (mq_nodes s) + 30)%nat.
Proof using.
  assert (loop_steps s t ≤ scan_steps s t + 40 * size (mq_nodes s))%nat as Hl.
  { unfold loop_steps, behind. pose proof (walk_bound (size (mq_nodes s)) (mq_nodes s) (mq_tail s)). lia. }
  unfold mrank. destruct (mq_pc s !! t) as [q|]; [|cbn; lia]. cbn [from_option].
  destruct q; cbn [pos_rank]; repeat case_match; try lia. unfold scan_steps, scan_rank. nia.
Qed.

(** ** The destructor *)

(** Thread [t] is in a [dequeue], and nobody else is anywhere. *)
Definition dequeuing (log0 : list (nat * qevent)) (rets0 : list (nat * (Z + nat))) (t : nat) s : Prop :=
  (∀ u, u ≠ t → mq_pc s !! u = None) ∧
  match mq_pc s !! t with
  | None => ∃ r, mq_rets s = rets0 ++ [(t, r)] ∧
              match r with inl v => mq_log s = log0 ++ [(t, Popped v)] | inr k => mq_log s = log0 ∧ k = length log0 end
  | Some (DeqCheckNext _ _ _ k | QClear _ (Empty k)) => mq_log s = log0 ∧ mq_rets s = rets0 ∧ k = length log0
  | Some (DeqItem _ _ | QClear _ (Dequeued _ _) | DeqRetire _ _ | DeqScan _ _) =>
      ∃ v, mq_log s = log0 ++ [(t, Popped v)] ∧ mq_rets s = rets0 ∧ pending s t = [v]
  | Some (QClear _ Enqueued | EnqLoad _ | EnqProtect _ _ | EnqCheck _ _ | EnqNext _ _ | EnqHelp _ _ _ | EnqCasNext _ _ |
          EnqCasTail _ _) => False
  | Some _ => mq_log s = log0 ∧ mq_rets s = rets0
  end.

Ltac run_dequeue :=
  unfold casTail, deq_protect, deq_store, deq_check_head, deq_protect_next, deq_store_next, deq_check_next, deq_cas_head,
    deq_item, q_clear, deq_retire, deq_scan, with_node, with_row, mq_ret, mq_done.

Lemma dequeuing_others log0 rets0 t s s' :
  dequeuing log0 rets0 t s → mstep maxThreads t MGo s = Some (Ok s') →
  (∀ u, u ≠ t → mq_pc s' !! u = None) ∧ (size (mq_nodes s') ≤ size (mq_nodes s))%nat.
Proof using.
  intros [Hu Hp]. unfold mstep. destruct (mq_pc s !! t) as [q|] eqn:Eq; [|done]. intros [= E]. split.
  - intros u Hne. rewrite <- (Hu u Hne). destruct q; try done; revert E; run_dequeue;
      repeat case_match; try done; intros [= <-]; cbn; by rewrite ?lookup_insert_ne, ?lookup_delete_ne by done.
  - destruct q; try done; revert E; run_dequeue; repeat case_match; try done; intros [= <-]; cbn; try done;
      apply map_subseteq_size, delete_subseteq.
Qed.

Lemma dequeuing_step log0 rets0 t s s' :
  dequeuing log0 rets0 t s → mstep maxThreads t MGo s = Some (Ok s') → dequeuing log0 rets0 t s'.
Proof using.
  intros Hd E0. destruct (dequeuing_others _ _ _ _ _ Hd E0) as [Hu' _]. split; [done|]. clear Hu'. revert E0. destruct Hd as [_ Hp].
  unfold mstep. destruct (mq_pc s !! t) as [q|] eqn:Eq; [|done]. intros [= E]. unfold pending in *. rewrite Eq in Hp.
  destruct q as [| | | | | | |n|p|p|p|p tl n|p tl x|p tl x k|tl x|p x|p x|i r|p v|c v]; try done; revert E; run_dequeue.
  - destruct Hp. intros [= <-]. cbn. rewrite lookup_insert_eq. by destruct (_ =? _).
  - destruct (in_rows _ _); [|done]. intros [= <-]. cbn. by rewrite lookup_insert_eq.
  - intros [= <-]. cbn. rewrite lookup_insert_eq. by destruct (_ =? _).
  - intros [= <-]. cbn. by rewrite lookup_insert_eq.
  - destruct Hp as [H1 H2]. destruct (mq_nodes s !! p); [|done]. intros [= <-]. cbn. rewrite lookup_insert_eq.
    destruct (_ =? _); [|done]. by rewrite H1.
  - destruct (in_rows _ _); [|done]. intros [= <-]. cbn. by rewrite lookup_insert_eq.
  - destruct Hp as (H1 & H2 & H3). intros [= <-]. cbn. rewrite lookup_insert_eq. by repeat destruct (_ =? _).
  - intros [= <-]. by destruct (_ =? _); cbn; rewrite lookup_insert_eq.
  - destruct Hp as [H1 H2]. destruct (_ =? _); intros [= <-]; cbn; rewrite lookup_insert_eq; [|done]. rewrite H1. by eexists.
  - destruct Hp as (v & H1 & H2 & [= H3]). unfold item_at in H3. destruct (mq_nodes s !! x) as [N|]; [|done]. cbn in H3.
    destruct (item N); [|done]. intros [= <-]. cbn in *. rewrite lookup_insert_eq. exists v. by rewrite H3.
  - destruct (_ <? _)%nat; [destruct (in_rows _ _); [|done]; intros [= <-]; cbn; by rewrite lookup_insert_eq|].
    destruct r as [|k|p v]; intros [= <-]; cbn; rewrite ?lookup_insert_eq, ?lookup_delete_eq; [done| |done].
    destruct Hp as (H1 & -> & ->). by eexists.
  - destruct (in_rows _ _); [|done]. intros [= <-]. cbn. by rewrite lookup_insert_eq.
  - destruct Hp as (r0 & H1 & H2 & [= <-]). destruct (retire_step _ _ _ _ _) as [| |c'|obj c' h']; [done|..].
    + intros [= <-]. cbn. rewrite lookup_delete_eq, H2. by eexists.
    + intros [= <-]. cbn. rewrite lookup_insert_eq. by eexists.
    + destruct (mq_nodes s !! obj); [|done]. intros [= <-]. cbn. rewrite lookup_insert_eq. by eexists.
Qed.

Lemma mrun_alone_ok fuel log0 rets0 l s t :
  qinv maxThreads l s → dequeuing log0 rets0 t s → (mrank s t < fuel)%nat →
  ∃ s' l', mrun_alone maxThreads fuel t s = Ok s' ∧ mq_pc s' !! t = None ∧ qinv maxThreads l' s' ∧
    dequeuing log0 rets0 t s' ∧ (size (mq_nodes s') ≤ size (mq_nodes s))%nat.
Proof using Hrows.
  revert l s. induction fuel as [|fuel IH]; intros l s H Hp Hf; [lia|]. cbn [mrun_alone].
  destruct (mq_pc s !! t) as [q|] eqn:Eq; [|exists s, l; done].
  destruct (mstep maxThreads t MGo s) as [r|] eqn:E; [|unfold mstep in E; by rewrite Eq in E].
  destruct (mstep_ok maxThreads Hrows l s t MGo r H E) as (s1 & l1 & -> & H1). pose proof (mrank_decreases l s t s1 q H Eq E) as Hlt.
  destruct (dequeuing_others _ _ _ _ _ Hp E) as [_ Hsz]. pose proof (dequeuing_step _ _ _ _ _ Hp E) as Hp1.
  destruct (IH l1 s1 H1 Hp1 ltac:(lia)) as (s2 & l2 & -> & Ep & H2 & Hp2 & Hs2).
  exists s2, l2. split_and!; try done. lia.
Qed.

(** No thread holds more nodes than there are. *)
Lemma mq_retired_size l s t : qinv maxThreads l s → (t < maxThreads)%nat → (length (retired t (mq_hp s)) ≤ size (mq_nodes s))%nat.
Proof using.
  intros H Ht. pose proof (held_size maxThreads l (holds s) (mq_nodes s) (mi_all _ _ _ H) t Ht) as Hs.
  unfold holds in Hs. rewrite length_app in Hs. lia.
Qed.

Definition dequeue_fuel (n : nat) : nat := (n + 1) * (scan_cost maxHPs maxThreads + 40) + 40.

Lemma length_items m l : length (items m l) = length l.
Proof using. apply length_fmap. Qed.

Lemma dequeue_alone_ok fuel l s :
  qinv maxThreads l s → (0 < maxThreads)%nat → mq_pc s = ∅ → (dequeue_fuel (size (mq_nodes s)) ≤ fuel)%nat →
  ∃ r s' l', dequeue_alone maxThreads fuel 0 s = Ok (r, s') ∧ qinv maxThreads l' s' ∧ mq_pc s' = ∅ ∧
    (size (mq_nodes s') ≤ size (mq_nodes s))%nat ∧
    match r with None => tail l' = [] | Some _ => S (length (tail l')) = length (tail l) end.
Proof using Hrows.
  intros H Ht Hpc Hf. unfold dequeue_alone, mstep. rewrite Hpc, lookup_empty, decide_True by done.
  pose proof (call_dequeue_ok maxThreads l s 0 H ltac:(by rewrite Hpc) Ht) as H1. set (s1 := mq_goto 0 (DeqProtect 0) s) in *.
  assert (dequeuing (mq_log s) (mq_rets s) 0 s1) as Hp1.
  { unfold dequeuing, s1. cbn. rewrite lookup_insert_eq. split; [|done]. intros u Hu. rewrite lookup_insert_ne by done. by rewrite Hpc. }
  assert (mrank s1 0 < fuel)%nat as Hr.
  { pose proof (mrank_bound s1 0) as Hb. unfold s1 in *. cbn [mq_nodes mq_goto] in Hb. pose proof (mq_retired_size l s 0 H Ht).
    unfold scan_steps, dequeue_fuel in *. cbn [mq_hp mq_goto] in *. nia. }
  destruct (mrun_alone_ok fuel _ _ l s1 0 H1 Hp1 Hr) as (s' & l' & -> & Ep & H' & [Hu Hd] & Hsz).
  rewrite Ep in Hd. destruct Hd as (r & Er & El). rewrite Er, last_snoc.
  exists (match r with inl v => Some v | inr _ => None end), s', l'. split; [by destruct r|].
  split; [done|]. split; [|split; [done|]].
  - apply map_empty. intros u. destruct (decide (u = 0%nat)) as [->|Hne]; [done|by apply Hu].
  - pose proof (mi_log _ _ _ H') as Hh. destruct r as [v|k].
    + rewrite El, (queue_history_snoc _ _ _ _ _ (mi_log _ _ _ H)) in Hh. apply (f_equal (option_map (@length Z))) in Hh.
      cbn in Hh. rewrite length_items in Hh. revert Hh. rewrite <- (length_items (mq_nodes s) (tail l)).
      destruct (items (mq_nodes s) (tail l)) as [|b L]; cbn; [done|]. destruct (_ =? v); cbn; [|done]. intros [= ->]. done.
    + destruct El as [El ->]. destruct (mi_empty _ _ _ H' 0%nat (length (mq_log s))) as [_ He]; [rewrite Er; apply elem_of_app; right; left|].
      rewrite <- El, take_ge, Hh in He by done. injection He as He. by apply fmap_nil_inv in He.
Qed.

Lemma mdrain_ok N fuel l s :
  qinv maxThreads l s → (0 < maxThreads)%nat → mq_pc s = ∅ → (length (tail l) < N)%nat →
  (dequeue_fuel (size (mq_nodes s)) ≤ fuel)%nat →
  ∃ s' l', mdrain maxThreads N fuel s = Ok s' ∧ qinv maxThreads l' s' ∧ mq_pc s' = ∅ ∧ tail l' = [].
Proof using Hrows.
  revert l s. induction N as [|N IH]; intros l s H Ht Hpc HN Hf; [lia|]. cbn [mdrain].
  destruct (dequeue_alone_ok fuel l s H Ht Hpc Hf) as (r & s1 & l1 & -> & H1 & Hpc1 & Hsz & Hr). destruct r as [v|].
  - apply (IH l1 s1); try done; [lia|]. unfold dequeue_fuel in *. nia.
  - by exists s1, l1.
Qed.

(** The destructor deletes every node, once. *)
Lemma queue_dtor_ok N fuel l s :
  qinv maxThreads l s → (0 < maxThreads)%nat → mq_pc s = ∅ → (size (mq_nodes s) < N)%nat →
  (dequeue_fuel (size (mq_nodes s)) ≤ fuel)%nat → MichaelScottQueue_dtor maxThreads N fuel s = Ok ∅.
Proof using Hrows.
  intros H Ht Hpc HN Hf. pose proof (q_size l s H). assert (length (tail l) ≤ length l)%nat by (destruct l; cbn; lia).
  destruct (mdrain_ok N fuel l s H) as (s' & l' & Ed & H' & Hpc' & El); [lia|done|lia|done|].
  unfold MichaelScottQueue_dtor. rewrite Ed. apply delete_all_ok. rewrite <- (mi_all _ _ _ H').
  destruct (q_shape maxThreads l' s' H') as [l0 E0]. rewrite E0 in El |- *. cbn in El. subst l0. cbn [app]. constructor.
  rewrite (dtor_retired maxThreads) by (done || apply (mi_unused _ _ _ H')).
  apply reflexive_eq, bind_same. intros t _. unfold holds, owns. by rewrite Hpc', lookup_empty.
Qed.
End Alone.
