(* ===== verification/PropsMSQueue.v ===== *)
(** * Properties of the queue with hazard pointers

    The linked queue whose nodes are reclaimed by hazard pointers, under interleaving:
    no access to a deleted node, every run a run of a sequential queue, progress, and
    no leak. *)

From Stdlib Require Import ZArith Lia.
From stdpp Require Import base gmap numbers list.
From S2P Require Import Prelude OldHazard OldArrayQueue OldMSQueue OldMSQueueSpec OldMSQueueAlone.

Local Open Scope Z_scope.
#[local] Set Warnings "-clear-no-such-hyp".

(** C17. The queue with hazard pointers from its constructor, under any interleaving of
    [enqueue] and [dequeue] of up to [maxThreads] threads, at most the 128 for which the
    arrays of hazard pointers have rows, with any addresses that [new] returns: no step
    goes beyond these arrays, dereferences or deletes a node that is not there, and no
    [value()] throws; the operations, in the order in which they take effect, are a
    history of a sequential queue with the items that are linked behind the head; each
    thread that is in no operation has dequeued exactly what this history says, and
    when it was told that the queue is empty, the queue was empty at the moment it had
    read; a thread left alone returns, within a number of steps linear in its
    retired nodes and in the nodes there are; and the destructor, once no thread is
    in an operation, deletes every node. *)
Theorem michael_scott_queue_correct maxThreads sentinel tr r (Hnull : sentinel ≠ 0) (Hrows : rows_for maxThreads) :
  mruns maxThreads tr (MichaelScottQueue_ctor sentinel) = Some r → ∃ s l, r = Ok s ∧
    linked (mq_nodes s) (mq_head s) l ∧ mq_tail s ∈ l ∧
    queue_history (mq_log s) [] = Some (items (mq_nodes s) (tail l)) ∧
    (∀ t, mq_pc s !! t = None → got_of t (mq_rets s) = popped_of t (mq_log s)) ∧
    (∀ t k, (t, inr k) ∈ mq_rets s → (k ≤ length (mq_log s))%nat ∧ queue_history (take k (mq_log s)) [] = Some []) ∧
    (∀ t, ∃ n s',
       (n ≤ (length (retired t (mq_hp s)) + 1) * (3 * maxThreads + 1) + 40 * size (mq_nodes s) + 32)%nat ∧
       mruns maxThreads (replicate n (t, MGo)) s = Some (Ok s') ∧ mq_pc s' !! t = None) ∧
    ((0 < maxThreads)%nat → mq_pc s = ∅ → ∀ N fuel,
       (size (mq_nodes s) < N)%nat → ((size (mq_nodes s) + 1) * (3 * maxThreads + 41) + 40 ≤ fuel)%nat →
       MichaelScottQueue_dtor maxThreads N fuel s = Ok ∅).
Proof.
  intros E. destruct (mruns_ok maxThreads Hrows tr _ _ r (MichaelScottQueue_ctor_inv maxThreads sentinel Hnull) E) as (s & l & -> & H).
  exists s, l. split; [done|]. split; [apply H|]. split; [apply H|]. split; [apply H|]. split; [|split; [|split]].
  - intros t Ht. rewrite (mi_got _ _ _ H). unfold pending. by rewrite Ht, app_nil_r.
  - intros t k Hk. by apply (mi_empty _ _ _ H t).
  - intros t. destruct (queue_alone maxThreads Hrows l s t H) as (n & s' & _ & Hn & Er & Ep & _). exists n, s'.
    pose proof (mrank_bound maxThreads s t) as Hb. unfold scan_steps, scan_cost, maxHPs in Hb. split; [nia|done].
  - intros Ht Hpc N fuel HN Hf. apply (queue_dtor_ok maxThreads Hrows N fuel l s H Ht Hpc HN).
    unfold dequeue_fuel, scan_cost, maxHPs. nia.
Qed.

(** Thread 0 has linked 5 and not moved the tail when thread 1 comes to dequeue; thread 1
    moves it and stops before its compare-and-swap on the head. Thread 0 dequeues 5 and
    retires the first node, which it cannot delete, since thread 1 protects it; thread 1
    fails and finds the queue empty; thread 0 enqueues 7. The destructor finds one node
    that is retired and two that are linked. *)
Definition mq_go (t n : nat) : list (nat * maction) := replicate n (t, MGo).
Definition mq_trace : list (nat * maction) :=
  [(0%nat, CallEnqueue 5 32)] ++ mq_go 0 5 ++ [(1%nat, CallDequeue)] ++ mq_go 1 19 ++ mq_go 0 4 ++
  [(0%nat, CallDequeue)] ++ mq_go 0 21 ++ mq_go 1 11 ++ [(0%nat, CallEnqueue 7 48)] ++ mq_go 0 9.

Lemma michael_scott_queue_correct_witness :
  ∃ s, mruns 2 mq_trace (MichaelScottQueue_ctor 16) = Some (Ok s) ∧ mq_pc s = ∅ ∧
    mq_rets s = [(0%nat, inl 5); (1%nat, inr 2%nat)] ∧ retired 0 (mq_hp s) = [16] ∧ dom (mq_nodes s) = {[16; 32; 48]} ∧
    MichaelScottQueue_dtor 2 10 300 s = Ok ∅.
Proof.
  eexists. split; [vm_compute; reflexivity|]. do 4 (split; [vm_compute; reflexivity|]).
  destruct (michael_scott_queue_correct 2 16 mq_trace _ ltac:(done) ltac:(unfold rows_for, HP_MAX_THREADS; lia) ltac:(vm_compute; reflexivity))
    as (s & l & Es & _ & _ & _ & _ & _ & _ & Hd).
  injection Es as <-. apply Hd; vm_compute; try reflexivity; lia.
Defined.
