(* ===== verification/PropsOld.v ===== *)
(** * Properties of the old allocator

    Its queue, its free list of descriptors, the choice of a heap, and blocks
    that are mapped directly. *)

From Stdlib Require Import ZArith Lia.
From stdpp Require Import base gmap numbers list.
From S2P Require Import Prelude Mem OldQueue OldMalloc OldDesc OldLarge OldInv OldGrow OldSpec OldReach.

Local Open Scope Z_scope.
#[local] Set Warnings "-clear-no-such-hyp".

(** C34. The queue of partial superblocks is first in, first out: any sequence of
    enqueues of elements that are not in it and dequeues, from any state that
    represents [l], terminates and gives the results of a list that grows at the end
    and shrinks at the front; the dummy node never comes out. *)
Theorem fifo_correct dummy fuel ops s n l :
  queue_rep dummy s n l → fresh_ops dummy l ops → (3 ≤ fuel)%nat →
  wp (qrun dummy fuel ops) (λ rs _, rs = fifo_run l ops) s.
Proof. apply qrun_ok. Qed.

Lemma fifo_correct_witness :
  wp (qrun 7 3 [Enqueue 64; Enqueue 128; Dequeue; Enqueue 64; Dequeue; Dequeue; Dequeue])
    (λ rs _, rs = [64; 128; 64; 0]) (lf_fifo_init 7 (mkQ (mkFifo 0 (Aba 0 0) (Aba 0 0)) ∅)).
Proof.
  refine (fifo_correct 7 3 _ _ [7] [] (fifo_init_rep 7 _ _) _ (Nat.le_refl _)); [done|].
  cbn. split_and!; (done || set_solver).
Defined.

(** C35. The free list of descriptors is last in, first out: [DescRetire] puts a
    descriptor in front, [DescAlloc] takes the first one. On an empty list
    [DescAlloc] maps 1024 descriptors and returns the first; the list that is left
    holds the descriptors 64 to 1023 only, since the first link is computed in
    units of descriptors. *)
Theorem desc_list_correct fuel s l d a sup :
  desc_list s l → d ≠ 0 → ¬ (d ∈ l) → 0 < a → a + DESCSBSIZE + PAGESIZE < 2 ^ 64 →
  wp (DescRetire (S fuel) d) (λ _ s', desc_list s' (d :: l)) s ∧
  (∀ x l', l = x :: l' → wp (DescAlloc (S fuel)) (λ r s', r = x ∧ desc_list s' l') s) ∧
  (l = [] → pm_supply s = Some a :: sup →
   wp (DescAlloc (S fuel)) (λ r s', r = a ∧ desc_list s' ((λ k, a + k * sizeof_descriptor) <$> seqZ 64 960)) s).
Proof.
  intros Hl Hd Hn Ha Hb. split; [by apply DescRetire_list|]. split.
  - intros x l' ->. eapply DescAlloc_list; [done|]. intros lg. split; [done|].
    destruct Hl as (_ & _ & Hl). exact Hl.
  - intros -> Hsup. eapply DescAlloc_new; [exact Hl|exact Hsup|done|done|].
    intros ds lg nx s1 Hnx _. split; [done|]. exact Hnx.
Qed.

Definition pm_start : pmstate :=
  mkPm ∅ ∅ ∅ ∅ ∅ ∅ (0, 0) 1 [Some (2 ^ 32); Some (2 ^ 33); Some (2 ^ 34); Some (2 ^ 35)] ∅ [].

Lemma desc_list_correct_witness :
  wp (DescAlloc 1) (λ r s', r = 2 ^ 32 ∧ desc_list s' ((λ k, 2 ^ 32 + k * sizeof_descriptor) <$> seqZ 64 960)) pm_start.
Proof.
  refine (proj2 (proj2 (desc_list_correct 0 pm_start [] 64 (2 ^ 32) _ eq_refl _ _ _ _)) eq_refl eq_refl).
  - discriminate.
  - apply not_elem_of_nil.
  - reflexivity.
  - reflexivity.
Defined.

(** C36. The choice of a heap. Requests that do not fit a block of 2048 bytes with
    their header get no heap. A smaller one gets the heap of the least size class whose
    blocks are strictly larger than the request and its header, at most 8 bytes larger:
    when both together are a multiple of 8 bytes, the class before would have held them
    exactly. A second request finds the same heap. A request of exactly 2036 bytes, which
    the last class would hold, indexes both tables one past their end. *)
Theorem find_heap_correct t sz s a sup :
  0 ≤ sz < 2 ^ 64 - HEADER_SIZE → pm_supply s = Some a :: sup → a ≠ 0 →
  let i := (sz + HEADER_SIZE) / GRANULARITY in
  (2036 < sz → find_heap t sz s = Ok (0, s)) ∧
  (sz = 2036 → find_heap t sz s = Fail ∧ sc_sz (i - 1) = sz + HEADER_SIZE) ∧
  (sz < 2036 → sz + HEADER_SIZE < sc_sz i ≤ sz + HEADER_SIZE + 8 ∧
    (∀ j, 0 ≤ j < 256 → sz + HEADER_SIZE < sc_sz j ↔ i ≤ j) ∧
    ((sz + HEADER_SIZE) mod 8 = 0 → sc_sz (i - 1) = sz + HEADER_SIZE) ∧
    (∀ h, pm_heaps s !! (t, i) = Some h → h ≠ 0 → find_heap t sz s = Ok (h, s)) ∧
    (pm_heaps s !! (t, i) = None →
     wp (find_heap t sz) (λ h s', h = a ∧ pm_proc s' h = mkProcheap no_active 0 i ∧
       find_heap t sz s' = Ok (h, s')) s)).
Proof.
  intros Hsz Hsup Ha i. change HEADER_SIZE with 12 in *. change GRANULARITY with 8 in *.
  assert (∀ s', find_heap t sz s' = (if 2048 <? sz + 12 then mret 0 else
    st_assert (i <? 256);; heap ← st_gets (λ s, default 0 (pm_heaps s !! (t, i)));
    if heap =? 0 then r ← mmap 24; match r with None => st_fail | Some h =>
      upd_proc h (λ _, mkProcheap no_active 0 i);; FLUSH (h + off_Partial);; FLUSH (h + off_sc);;
      st_mod (pm_set_heap t i h);; FLUSH_AT (LHeaps i);; FLUSHFENCE;; mret h end else mret heap) s') as E.
  { intros s'. unfold find_heap. change HEADER_SIZE with 12. change GRANULARITY with 8.
    rewrite u64_small by lia. fold i. done. }
  split; [|split].
  - intros H. rewrite E, (proj2 (Z.ltb_lt _ _)) by lia. done.
  - intros ->. split; [by rewrite E|]. subst i. change ((2036 + 12) / 8) with 256. by rewrite sc_sz_eq by lia.
  - intros H. pose proof (Z.div_mod (sz + 12) 8 ltac:(lia)). pose proof (Z.mod_pos_bound (sz + 12) 8 ltac:(lia)).
    fold i in H0. assert (1 ≤ i < 256) as Hi by lia. split; [rewrite sc_sz_eq by lia; lia|].
    split; [intros j Hj; rewrite sc_sz_eq by lia; lia|]. split; [intros Hz; rewrite sc_sz_eq by lia; lia|].
    assert (∀ h s', pm_heaps s' !! (t, i) = Some h → h ≠ 0 → find_heap t sz s' = Ok (h, s')) as Hfound.
    { intros h s' Hh Hne. rewrite E, (proj2 (Z.ltb_ge _ _)) by lia.
      unfold mbind, st_mbind, st_bind, st_assert, st_gets. rewrite (proj2 (Z.ltb_lt i 256)) by lia.
      rewrite Hh. cbn [default from_option id]. by rewrite (proj2 (Z.eqb_neq _ _)). }
    split; [by intros; apply Hfound|]. intros Hnone. unfold wp. rewrite E, (proj2 (Z.ltb_ge _ _)) by lia.
    change (wp (st_assert (i <? 256);; heap ← st_gets (λ s, default 0 (pm_heaps s !! (t, i)));
      if heap =? 0 then r ← mmap 24; match r with None => st_fail | Some h =>
      upd_proc h (λ _, mkProcheap no_active 0 i);; FLUSH (h + off_Partial);; FLUSH (h + off_sc);;
      st_mod (pm_set_heap t i h);; FLUSH_AT (LHeaps i);; FLUSHFENCE;; mret h end else mret heap)
      (λ h s', h = a ∧ pm_proc s' h = mkProcheap no_active 0 i ∧ find_heap t sz s' = Ok (h, s')) s).
    unfold upd_proc, FLUSH, FLUSH_AT, FLUSHFENCE. wp_steps; [apply Z.ltb_lt; lia|].
    rewrite Hnone. cbn [default from_option id Z.eqb]. apply wp_bind. unfold mmap. unfold wp at 1. rewrite Hsup.
    wp_steps. split; [done|]. split.
    + unfold pm_proc. cbn. by rewrite lookup_insert_eq.
    + apply Hfound; [|done]. cbn. by rewrite lookup_insert_eq.
Qed.

Lemma find_heap_correct_witness :
  wp (find_heap 0 100) (λ h s', h = 2 ^ 32 ∧ find_heap 0 100 s' = Ok (h, s')) pm_start.
Proof.
  refine (wp_mono _ _ _ _ (proj2 (proj2 (proj2 (proj2 (proj2 (proj2 (find_heap_correct 0 100 pm_start (2 ^ 32) _ _ eq_refl _))
    eq_refl)))) eq_refl) _).
  - vm_compute. split; [discriminate|reflexivity].
  - discriminate.
  - intros h s' (H1 & _ & H2). exact (conj H1 H2).
Defined.

(** C37. A request of more than 2036 bytes gets a mapping of its own: the result lies 12
    bytes behind its start (so that it is never aligned to 8 bytes), the bytes of the
    block are zero and the rest of the memory is as it was. However the program
    writes the block, [PM_free] removes exactly this mapping and touches nothing else. *)
Theorem large_round_trip sca fuel t sz s a sup :
  pm_init_flag s ≠ 0 → 2036 < sz < 2 ^ 64 - HEADER_SIZE → pm_supply s = Some a :: sup →
  0 < a → a mod PAGESIZE = 0 → a + HEADER_SIZE < 2 ^ 64 → pm_mapped s !! a = None →
  wp (PM_malloc sca fuel t sz) (λ p s', p = a + HEADER_SIZE ∧ p mod 8 = 4 ∧
    pm_mapped s' = <[a := sz + HEADER_SIZE]> (pm_mapped s) ∧ pm_supply s' = sup ∧
    (∀ b, p ≤ b < p + sz → load8 (pm_mem s') b = 0) ∧
    (∀ b, b < a ∨ p + sz ≤ b → load8 (pm_mem s') b = load8 (pm_mem s) b) ∧
    ∀ m', (∀ b, a ≤ b < p → load8 m' b = load8 (pm_mem s') b) →
      wp (PM_free sca fuel p) (λ _ s'', pm_mapped s'' = pm_mapped s ∧ pm_mem s'' = m' ∧
        pm_descs s'' = pm_descs s' ∧ pm_log s'' = pm_log s') (pm_upd_mem (λ _, m') s')) s.
Proof.
  intros Hi Hsz Hsup Ha Hal Hb Hm. eapply PM_malloc_large; [done..|]. intros lg. split; [done|].
  change HEADER_SIZE with 12 in *. split; [|split; [done|split]].
  - change PAGESIZE with 4096 in Hal. pose proof (Z.div_mod a 4096 ltac:(lia)) as E. rewrite Hal in E.
    replace (a + 12) with (4 + (512 * (a / 4096) + 1) * 8) by lia. by rewrite Z.mod_add.
  - cbn. by rewrite Hsup.
  - cbn [pm_mem with_log with_descs pm_upd_mem map_range]. split; [|split].
    + intros b Hr. rewrite put_large_outside by (change HEADER_SIZE with 12; lia).
      rewrite load8_outside. by rewrite decide_True by lia.
    + intros b Hr. rewrite put_large_outside by (change HEADER_SIZE with 12; lia).
      rewrite load8_outside. by rewrite decide_False by lia.
    + intros m' Hw. change 12 with HEADER_SIZE. apply PM_free_large with (len := sz + 12); [done|lia|done|done| | |].
      * eapply large_header_ext; [exact Hw|]. apply put_large_header. lia.
      * cbn. by rewrite lookup_insert_eq.
      * cbn. rewrite delete_insert_id by done. done.
Qed.

Lemma large_round_trip_witness :
  wp (PM_malloc 0 0 0 5000) (λ p s', p = 2 ^ 32 + 12 ∧ pm_mapped s' = {[2 ^ 32 := 5012]}) pm_start.
Proof.
  refine (wp_mono _ _ _ _ (large_round_trip 0 0 0 5000 pm_start (2 ^ 32) _ _ _ eq_refl _ _ _ _) _).
  - discriminate.
  - split; reflexivity.
  - reflexivity.
  - reflexivity.
  - reflexivity.
  - reflexivity.
  - intros p s' (H1 & _ & H2 & _). exact (conj H1 H2).
Defined.

(** C38. [PM_realloc] of a large block of [n] bytes, mapped at [a], to another large size:
    the copy takes the length of the old mapping, header included, so that it reads 12
    bytes behind the old block and writes [n + 12] bytes to the new one, mapped at [b].
    When these end in the last page of either mapping, it returns a fresh block that
    starts with the old contents; the old mapping stays, since [munmap] is given the
    address behind the header. When they do not, and the next page is not mapped, the
    call faults: so does every shrinking by more than a page. *)
Theorem realloc_large sca fuel t a n sz s b sup :
  pm_init_flag s ≠ 0 → 0 ≤ a → a mod PAGESIZE = 0 → a + HEADER_SIZE < 2 ^ 64 → 0 ≤ n →
  large_header (pm_mem s) a (n + HEADER_SIZE) → pm_mapped s !! a = Some (n + HEADER_SIZE) →
  2036 < sz < 2 ^ 64 - HEADER_SIZE → pm_supply s = Some b :: sup →
  a + page_up (n + HEADER_SIZE) ≤ b ∨ b + page_up (sz + HEADER_SIZE) ≤ a →
  let maps := <[b := sz + HEADER_SIZE]> (pm_mapped s) in
  let copied := n + 2 * HEADER_SIZE in
  (copied ≤ page_up (n + HEADER_SIZE) → copied ≤ page_up (sz + HEADER_SIZE) →
   wp (PM_realloc sca fuel t (a + HEADER_SIZE) sz) (λ p s', p = b + HEADER_SIZE ∧
    (∀ k, 0 ≤ k < n + HEADER_SIZE → load8 (pm_mem s') (p + k) = load8 (pm_mem s) (a + HEADER_SIZE + k)) ∧
    pm_mapped s' = maps ∧ pm_mapped s' !! a = Some (n + HEADER_SIZE) ∧
    (∀ c, c < b ∨ p + Z.max sz (n + HEADER_SIZE) ≤ c → load8 (pm_mem s') c = load8 (pm_mem s) c)) s) ∧
  (page_up (n + HEADER_SIZE) < copied ∧ accessible maps (a + page_up (n + HEADER_SIZE)) = false ∨
   page_up (sz + HEADER_SIZE) < copied ∧ accessible maps (b + page_up (sz + HEADER_SIZE)) = false →
   PM_realloc sca fuel t (a + HEADER_SIZE) sz s = Fail).
Proof.
  intros Hi Ha Hal Hb Hn Hh Hm Hsz Hsup Hd maps copied.
  change HEADER_SIZE with 12 in *. pose proof (page_up_bounds (n + 12) ltac:(lia)) as Hu1. pose proof (page_up_bounds (sz + 12) ltac:(lia)) as Hu2.
  destruct (PM_realloc_large_run sca fuel t a (n + 12) sz s b sup) as [lg E];
    [done|done|done|exact Hh|change HEADER_SIZE with 12; lia|exact Hsup|change HEADER_SIZE with 12; lia|].
  change HEADER_SIZE with 12 in E. unfold wp. rewrite E.
  unfold checked_memcpy, mbind, st_mbind, st_bind, st_gets, st_assert, st_mod.
  cbn [pm_mapped with_log with_descs pm_upd_mem map_range]. fold maps. split.
  - intros H1 H2. assert (maps !! a = Some (n + 12)) as Hma by (unfold maps; rewrite lookup_insert_ne by lia; done).
    rewrite (range_in_mapping maps a (n + 12)) by (done || (subst copied; lia)).
    rewrite (range_in_mapping maps b (sz + 12)) by ((unfold maps; apply lookup_insert_eq) || (subst copied; lia)).
    cbn [andb]. unfold load_word, st_gets. change 12 with HEADER_SIZE at 3. rewrite munmap_object by done.
    split; [done|]. cbn [pm_mapped pm_mem with_log with_descs pm_upd_mem map_range]. fold maps.
    split; [|split; [done|split; [done|]]].
    + intros k Hk. rewrite load8_memcpy, decide_True by (subst copied; lia).
      rewrite put_large_outside by (change HEADER_SIZE with 12; subst copied; lia).
      rewrite load8_outside, decide_False by (subst copied; lia). f_equal. lia.
    + intros c Hc. rewrite load8_memcpy, decide_False by (subst copied; lia).
      rewrite put_large_outside by (change HEADER_SIZE with 12; lia).
      by rewrite load8_outside, decide_False by lia.
  - intros [[Hlt Hf]|[Hlt Hf]].
    + rewrite (range_fault maps (a + 12) (n + 12) (a + page_up (n + 12))) by (done || (subst copied; lia)). done.
    + rewrite (range_fault maps (b + 12) (n + 12) (b + page_up (sz + 12))) by (done || (subst copied; lia)).
      by rewrite andb_false_r.
Qed.

Definition pm_large : pmstate :=
  mkPm (put_large (2 ^ 33) 5012 ∅) ∅ ∅ ∅ ∅ ∅ (0, 0) 1 [Some (2 ^ 32)] {[2 ^ 33 := 5012]} [].

(** Growing 5000 bytes to 6000 leaves the old mapping; shrinking them to 3000 faults. *)
Lemma realloc_large_witness :
  wp (PM_realloc 0 0 0 (2 ^ 33 + 12) 6000) (λ p s', p = 2 ^ 32 + 12 ∧ pm_mapped s' !! (2 ^ 33) = Some 5012) pm_large ∧
  PM_realloc 0 0 0 (2 ^ 33 + 12) 3000 pm_large = Fail.
Proof.
  split.
  - refine (wp_mono _ _ _ _ (proj1 (realloc_large 0 0 0 (2 ^ 33) 5000 6000 pm_large (2 ^ 32) [] _ _ _ _ _ _ _ _ _ (or_intror _)) _ _) _).
    + discriminate.
    + discriminate.
    + reflexivity.
    + reflexivity.
    + discriminate.
    + split; vm_compute; reflexivity.
    + reflexivity.
    + split; reflexivity.
    + reflexivity.
    + vm_compute. discriminate.
    + vm_compute. discriminate.
    + vm_compute. discriminate.
    + intros p s' (H1 & _ & _ & H2 & _). exact (conj H1 H2).
  - refine (proj2 (realloc_large 0 0 0 (2 ^ 33) 5000 3000 pm_large (2 ^ 32) [] _ _ _ _ _ _ _ _ _ (or_intror _)) (or_intror (conj _ _))).
    + discriminate.
    + discriminate.
    + reflexivity.
    + reflexivity.
    + discriminate.
    + split; vm_compute; reflexivity.
    + reflexivity.
    + split; reflexivity.
    + reflexivity.
    + vm_compute. discriminate.
    + vm_compute. reflexivity.
    + vm_compute. reflexivity.
Defined.

(** C16. The old allocator is correct for one thread at a time. In every state that a
    program can reach from the first call by allocating, freeing what it holds and writing to its blocks, with
    any addresses that [mmap], which is assumed to succeed, may return: the blocks it holds are disjoint; every further
    allocation (but of 2036 bytes) returns, with a block that is large enough and apart
    from all others, whose contents stay; and every block it holds can be freed, which
    leaves the contents of the others. *)
Theorem old_allocator_correct sca L s :
  0 < sca → pm_reach sca L s →
  (∀ p z, L !! p = Some z → p mod 8 = 4 ∧ clear_of (delete p L) p z) ∧
  (∀ t sz sup fuel, 0 ≤ sz < 2 ^ 64 - HEADER_SIZE → sz ≠ 2036 → supplied sca (pm_mapped s) sup sz →
    (size (pm_descs s) + 6 ≤ fuel)%nat →
    wp (PM_malloc sca fuel t sz) (λ p s', sz ≤ usable sz ∧ clear_of L p (usable sz) ∧ same_held L (pm_mem s) (pm_mem s'))
      (with_supply sup s)) ∧
  (∀ p z fuel, L !! p = Some z → (8 ≤ fuel)%nat →
    wp (PM_free sca fuel p) (λ _ s', same_held (delete p L) (pm_mem s) (pm_mem s')) s).
Proof.
  intros Hsca Hr. pose proof (reach_rep sca L s Hsca Hr) as Hrep. split; [|split].
  - intros p z Hp. by apply (rep_apart sca L s p z).
  - intros t sz sup fuel Hsz Hne Hs Hf. eapply wp_mono; [by apply (rep_malloc sca L s fuel t sz sup)|].
    intros p s' (H1 & H2 & _). split; [apply (usable_pos sz); [lia|done]|done].
  - intros p z fuel Hp Hf. eapply wp_mono; [by apply (rep_free sca L s fuel p z)|]. by intros [] s' [H1 _].
Qed.

Definition pm_before : pmstate := mkPm ∅ ∅ ∅ ∅ ∅ ∅ (0, 0) 0 [] ∅ [].

Lemma fresh_add sca a n b m X : fresh sca a n X → apart_maps a n b m → fresh sca a n (<[b := m]> X).
Proof.
  intros [H1 H2] Hap. split; [done|]. intros c k [[<- <-]|[_ Hc]]%lookup_insert_Some; [done|by apply H2].
Qed.

Lemma fresh_empty sca a n : mappable sca a n → fresh sca a n ∅.
Proof. intros H. split; [done|]. intros b m. by rewrite lookup_empty. Qed.

Ltac demo_map := eexists _, _; split; [reflexivity|]; split;
  [repeat (apply fresh_add; [|right; done]); apply fresh_empty; split; [done|]; split; [done|]; split; [done|right; done]|].

(** After one allocation of 5000 bytes. *)
Definition demo_state : pmstate :=
  match PM_malloc 4096 6 0 5000 (with_supply [Some (2 ^ 32)] pm_before) with Ok (_, s) => s | _ => pm_before end.

Lemma demo_reached : pm_reach 4096 (<[2 ^ 32 + 12 := 5000]> ∅) demo_state.
Proof.
  apply (reach_malloc 4096 ∅ pm_before 0 5000 [Some (2 ^ 32)] 6 (2 ^ 32 + 12) demo_state).
  - apply reach_start. split; [reflexivity|]. split; [reflexivity|]. split; reflexivity.
  - split; [discriminate|reflexivity].
  - discriminate.
  - intros lens. change (requests 5000) with [5012]. intros H.
    repeat match goal with H : sublist _ _ |- _ => inversion H; clear H; subst end; cbn [maps_ok]; repeat demo_map; done.
  - apply le_n.
  - vm_compute. reflexivity.
Qed.

Lemma demo_supplied : supplied 4096 {[2 ^ 32 := 5012]} [Some (2 ^ 33); Some (2 ^ 34); Some (2 ^ 35)] 100.
Proof.
  intros lens. change (requests 100) with [24; 65536; 65536]. intros H. change ({[2 ^ 32 := 5012]}) with (<[2 ^ 32 := 5012]> (∅ : gmap Z Z)).
  repeat match goal with H : sublist _ _ |- _ => inversion H; clear H; subst end; cbn [maps_ok]; repeat demo_map; done.
Qed.

Lemma old_allocator_correct_witness :
  wp (PM_malloc 4096 6 0 100) (λ p s', clear_of (<[2 ^ 32 + 12 := 5000]> ∅) p 108 ∧
      same_held (<[2 ^ 32 + 12 := 5000]> ∅) (pm_mem demo_state) (pm_mem s'))
    (with_supply [Some (2 ^ 33); Some (2 ^ 34); Some (2 ^ 35)] demo_state) ∧
  wp (PM_free 4096 8 (2 ^ 32 + 12)) (λ _ _, True) demo_state.
Proof.
  assert (pm_mapped demo_state = {[2 ^ 32 := 5012]}) as Em by (vm_compute; reflexivity).
  assert (size (pm_descs demo_state) = 0%nat) as Es by (vm_compute; reflexivity).
  pose proof (old_allocator_correct 4096 _ demo_state eq_refl demo_reached) as (_ & H1 & H2). split.
  - refine (wp_mono _ _ _ _ (H1 0%nat 100 _ 6%nat _ _ _ _) _).
    + split; [discriminate|reflexivity].
    + discriminate.
    + rewrite Em. exact demo_supplied.
    + rewrite Es. apply le_n.
    + intros p s' (_ & H3 & H4). exact (conj H3 H4).
  - refine (wp_mono _ _ _ _ (H2 (2 ^ 32 + 12) 5000 8%nat _ _) _).
    + vm_compute. reflexivity.
    + apply le_n.
    + intros _ _ _. exact I.
Defined.
